(* ===== verification/_CoqProject ===== *)
-Q . S2P
Prelude.v
Time.v
Model.v
Text.v
Paths.v
Render.v
Command.v
CommitLedger.v
LedgerConcurrency.v
InsertBatcher.v
OriginBuffers.v
Enqueue.v
Mapping.v
Handler.v
BatcherDriver.v
Sqlite.v
Rows.v
Maintenance.v
Writer.v
Retention.v
Pipeline.v
EndToEnd.v
Scheduler.v
Watchdog.v
Auth.v
Migration.v
Backup.v
Streaming.v
BackupFiles.v
Restore.v
BackupCommand.v
Shutdown.v
Net.v
Config.v
Dump.v
CheckCommand.v
Serve.v
Lifecycle.v
Permissions.v
GenCerts.v
Probe.v
Uri.v
