(* ===== verification/Prelude.v ===== *)
(** * otel-sqlite: a verified model of the log collector

    otel-sqlite receives OTLP log exports over gRPC and stores them in SQLite.
    An export is mapped to chunks of records, each chunk takes a ticket of the
    commit ledger and enters a bounded queue; a batcher thread regroups the
    chunks into write batches per origin; a writer thread commits each batch in
    a transaction and settles the tickets whose records it holds; the handler
    answers the export when its tickets are settled.  A scheduler offers
    maintenance commands to the same writer, a watchdog samples both threads and
    the ledger, and the binary loads the configuration, migrates the schema,
    serves, tears the process down, backs up and restores the database, issues
    certificates and probes its own health.

    ** Files

    Shared: this file (machine integers, the error type and its [let?] notation,
    list facts), [Time] ([core/src/time.rs]; instants and durations are
    nanosecond counts), [Text] and [Paths] (the [str] and [Path] operations the
    sources use) and [Render] (number formatting).

    Core: [Model] ([core/src/model/*.rs]: values, resources, records and the
    canonical attribute JSON), [Command] ([storage/command.rs], [batch.rs],
    [durability.rs]: the messages), [CommitLedger] ([storage/commit.rs] call by
    call, with an abstract ticket book it refines), [LedgerConcurrency] (the
    same ledger with its mutex sections, the publications that follow them in
    any order and a handler in [wait] or [wait_watermark] as interleaved steps),
    [InsertBatcher] ([storage/batcher.rs]).

    Ingress: [Enqueue] ([ingress/src/lib.rs], [enqueue.rs]: the queue and the
    enqueue of a request while storage consumes), [Mapping] ([mapping/*.rs]:
    validation and conversion), [Handler] ([logs.rs], [mapping/budget.rs]: one
    export), [Auth] ([auth.rs]: the token file, the cached vault, the
    interceptor and the background reloader), [Serve] ([grpc.rs], [health.rs], [shutdown.rs]: the checks
    before serving, and the relay of signals, the health monitor and the drain
    as interleaved timed events).

    Storage: [OriginBuffers] ([origin_buffers.rs]), [BatcherDriver]
    ([batcher.rs]: the thread's event loop), [Sqlite] (errors, rows, and the
    interface [Class] of a connection with an in-memory instance whose failures
    are scripted), [Rows] ([command/*.rs]), [Maintenance] ([maintenance.rs]),
    [Writer] ([writer.rs], [stats.rs]: the thread's command loop, over the
    interface of a ledger that [CommitLedger] implements), [Retention] (what the
    commands of the writer remove from the table, and why), [Pipeline]
    ([lib.rs]: ingress, batcher, writer, retention and ledger composed as a step
    relation, with the statistics), [EndToEnd] (an export of [Handler] against
    the running pipeline),
    [Shutdown] ([lib.rs]: join and reaping), [Migration] ([migration.rs]),
    [Backup], [Streaming], [BackupFiles], [Restore] and [Uri] ([backup.rs]: the
    encrypted container, its routines on real reads and writes, names and
    retention, copy and restore, read-only inspection),
    [Permissions] ([permissions.rs], [sqlite.rs]: file modes, the setup of a
    connection and the writer's second hardening).

    Runtime and binary: [Scheduler] ([scheduler.rs], [worker.rs]), [Watchdog]
    ([watchdog.rs], [core/src/health.rs]), [Net] (the bind addresses), [Config]
    ([otel-sqlite/src/config.rs], [config/*.rs]), [Dump] ([config/dump.rs] and
    [dump_json]), [BackupCommand]
    ([backup_cli.rs]), [CheckCommand] ([check_cli.rs] and its exit status in
    [main.rs]), [GenCerts] ([gencerts.rs]), [Probe] ([healthcheck.rs]) and
    [Lifecycle] ([main.rs] and the handles of the workers: start, teardown and
    exit status, with the threads [main] joins and the senders they hold).

    ** How the code is modelled

    Functions are Gallina functions with the source's names and branches.  A
    mutating method takes and returns its state, [Result] is [result], a panic
    or an unreachable branch is [None].  Integers are [N] or [Z] with
    saturation and wrap-around written where the source has them; floats are
    [spec_float] at their width.  A thread is its loop body, and what the rest
    of the process does in between is an argument: the queue's answers, the
    other side's moves, the clock readings, the wake-ups of a wait.  SQLite is a
    connection whose every statement may fail; SHA-256, AES-GCM, the JSON
    encoder of nested values, the TOML decoder, key generation and signing, the
    gRPC transport and the file system are parameters, and the theorems that need a law of one of them state it as a
    hypothesis and have a witness with a concrete function.

    ** What is proved

    Durability, over every reachable state of the composed pipeline, with
    pruning, quota eviction and a panic of the writer among its steps: a
    ticket that reads as completed has all of its records committed, and each
    of them is in the table or was removed by a run of retention that accounts
    for it; the counts of a ticket add up; and a drained pipeline has settled
    every ticket and counts in its statistics what it stored ([Pipeline],
    [Retention]).  The response of an export tells what its tickets reported
    when the handler read them ([Handler]), and from the OTLP request to the
    rows: what an export acknowledges is in the database, mapped from its own
    records and their scopes ([EndToEnd]).  The ledger refines a book of
    tickets ([CommitLedger]); under every interleaving its watermark covers
    settled tickets only and every answer of a wait is true, and while
    publications keep the order of their mutex sections the watermark is not
    behind and no settlement is missed; the code does not keep that order, and
    [LedgerConcurrency] has the run in which a handler sleeps on settled
    tickets.  Batching keeps records, their order and their attribution,
    routes a chunk to the buffer of its origin, completes each ticket once,
    and accounts for what it drops on exit ([InsertBatcher], [OriginBuffers],
    [BatcherDriver]); the writer's retry and salvage policy is exact
    ([Writer]).  Mapping is total and keeps the scope and the resource of
    every record, its nesting guard agrees with the recursive conversion
    ([Mapping]).  A resource id stands for one resource short of a hash
    collision ([Rows]); pruning and quota eviction remove exactly the oldest
    rows ([Maintenance]); migrations resume after any failure ([Migration]).
    Maintenance is neither early nor duplicated ([Scheduler]); the watchdog's
    verdict is exactly the documented one and it halts at most once, with two
    runs in which that verdict alarms falsely ([Watchdog]).  Exactly the
    tokens of the file are accepted and a revoked one is rejected in bounded
    time ([Auth]).  An encrypted backup round-trips and only frames that open
    under the nonce of their own position are released; copying and restoring
    are all or nothing, up to sidecars SQLite leaves and files that cannot be
    removed; retention keeps the newest ([Backup], [Streaming], [BackupFiles],
    [Restore]); neither short reads nor I/O errors change what is released.
    Validation accepts exactly the sound configurations, and a configuration
    that loads starts every component ([Config]) and can be dumped without a
    panic ([Dump]); the preflight passes exactly when nothing stands in the
    way of a start ([CheckCommand]); what the backup command reports can be
    restored ([BackupCommand]).  A bounded shutdown returns ([Shutdown]); the
    health service tracks the pipeline, and a request to stop ends serving
    within the drain budget ([Serve]); the teardown of the process cannot wait
    for itself, and an exit without an error has drained every queue
    ([Lifecycle]).  A database is opened configured, in the journal mode the
    engine answers, and private once the writer has started ([Permissions]),
    and inspected under its own path when that is UTF-8 ([Uri]); reissuing
    certificates leaves the existing identities alone and signs with the CA of
    the directory ([GenCerts]), and the probe asks the server that runs, under
    a name of its certificate for the usual local addresses ([Probe]).

    ** Bounds and fuel

    Loops that are not structural take fuel, and the theorems fix it:
    [Time.deadline_fuel] is one round per bit of the delay; [Mapping.check_loop]
    gets the size of the value; [CommitLedger.absorb_all] the size of the set it
    drains; [Backup.decrypt_frames] the length of the input;
    [BackupFiles.first_free] one more than the number of names in the directory;
    [Shutdown.poll_fuel] one round per sleep that fits the budget;
    [Streaming.fill_buf] the size of the buffer, the loops over a file its length,
    [Paths.ancestors_loop] the length of the path; [Serve.wait_for_halt] a round for a fresh value and one for what follows.
    Retry loops recurse on the retries that are left.  The teardown is a
    relation without fuel: its termination is a well-founded measure.

    ** Not modelled

    The libraries themselves (tonic, tokio, rusqlite, rcgen), metric export, log
    lines and printed texts, among them the texts of the watchdog's reasons, the
    Windows side of the permission helpers, and the poisoning of locks: they are
    calls into libraries, texts, or another platform.  Panics of threads other
    than the writer are exits in [Lifecycle] and no steps of [Pipeline]; neither
    is a panic of the writer between a commit and the settlement of its tickets,
    after which the table has rows that no ticket reports.  [Pipeline] calls the
    ledger with each mutex section and its publication back to back; their
    interleavings are those of [LedgerConcurrency].  The tasks of [Serve]
    and the threads of [Lifecycle] see channels and clocks; what they do with the
    data is in the other files. *)

From stdpp Require Export base gmap list numbers strings sorting.
From Stdlib Require Export NArith ZArith Lia Ascii.

(** ** Fixed-width unsigned integers

    [u64] values are kept in [N]; each operation writes out what the Rust
    operator does at the top of the range. *)

Definition u64_max : N := (2 ^ 64 - 1)%N.

(** [u64::saturating_add]. *)
Definition sat_add (a b : N) : N := N.min u64_max (a + b)%N.

(** [u64::saturating_sub]: [N.sub] already truncates at zero. *)
Definition sat_sub (a b : N) : N := (a - b)%N.

(** Wrapping addition, the behaviour of [AtomicU64::fetch_add]. *)
Definition wrap_add (a b : N) : N := ((a + b) mod (2 ^ 64))%N.

(** [i64::MAX], used by the saturating conversions to signed columns. *)
Definition i64_max : Z := (2 ^ 63 - 1)%Z.
Definition i64_min : Z := (- 2 ^ 63)%Z.

Lemma sat_add_small a b : (a + b <= u64_max)%N -> sat_add a b = (a + b)%N.
Proof. unfold sat_add. lia. Qed.

Lemma sat_add_le a b : (sat_add a b <= a + b)%N.
Proof. unfold sat_add. lia. Qed.

Lemma wrap_add_small a b : (a + b <= u64_max)%N -> wrap_add a b = (a + b)%N.
Proof. intros. unfold wrap_add. apply N.mod_small. unfold u64_max in *. lia. Qed.

(** ** Fallible code *)

Inductive result (E A : Type) : Type :=
| Ok (value : A)
| Err (error : E).
Arguments Ok {E A} _.
Arguments Err {E A} _.

Declare Scope otel_scope.
Delimit Scope otel_scope with otel.
Open Scope otel_scope.

(** Rust's [let x = c?; k]: propagate the error, continue with the value. *)
Notation "'let?' x ':=' c 'in' k" :=
  (match c with Ok x => k | Err e => Err e end)
  (at level 10, x pattern, c at level 100, k at level 200) : otel_scope.

Definition is_ok {E A} (r : result E A) : bool :=
  match r with Ok _ => true | Err _ => false end.

(** [Iterator::map(f).collect::<Result<Vec<_>, _>>()]. *)
Fixpoint collect_result {E A B} (f : A -> result E B) (l : list A) : result E (list B) :=
  match l with
  | [] => Ok []
  | x :: l' =>
      let? y := f x in
      let? ys := collect_result f l' in
      Ok (y :: ys)
  end.

(** A [for] loop whose body may return early with an error. *)
Fixpoint check_all {E A} (f : A -> result E unit) (l : list A) : result E unit :=
  match l with
  | [] => Ok tt
  | x :: l' => let? _ := f x in check_all f l'
  end.

Lemma collect_result_ok {E A B} (f : A -> result E B) l :
  Forall (fun x => is_ok (f x) = true) l -> exists ys, collect_result f l = Ok ys.
Proof.
  induction 1 as [|x l Hx _ [ys IH]]; simpl; [by eexists|].
  destruct (f x); [|done]. rewrite IH. by eexists.
Qed.

Lemma collect_result_length {E A B} (f : A -> result E B) l ys :
  collect_result f l = Ok ys -> length ys = length l.
Proof.
  revert ys. induction l as [|x l IH]; simpl; intros ys H; [by simplify_eq|].
  destruct (f x); [|done]. destruct (collect_result f l); [|done].
  simplify_eq. simpl. by rewrite (IH _ eq_refl).
Qed.

Lemma collect_result_each {E A B} (f : A -> result E B) l ys x :
  collect_result f l = Ok ys -> x ∈ l -> exists y, f x = Ok y /\ y ∈ ys.
Proof.
  revert ys. induction l as [|a l IH]; intros ys H Hx; [by apply not_elem_of_nil in Hx|]. simpl in H.
  destruct (f a) as [b|] eqn:Ea; [|done]. destruct (collect_result f l) as [bs|]; [|done]. simplify_eq.
  apply elem_of_cons in Hx as [->|Hx]; [exists b; split; [done|by left]|].
  destruct (IH bs eq_refl Hx) as (y & ? & ?). exists y. split; [done|by right].
Qed.

Lemma check_all_ok {E A} (f : A -> result E unit) l :
  check_all f l = Ok tt <-> Forall (fun x => f x = Ok tt) l.
Proof.
  induction l as [|x l IH]; simpl; [by split; [constructor|]|].
  rewrite Forall_cons, <- IH. destruct (f x) as [[]|]; [intuition|]. split; [done|]. by intros [? _].
Qed.

(** [Iterator::find] returns the first element that passes. *)
Lemma find_split {A} (f : A -> bool) l x :
  List.find f l = Some x -> exists l1 l2, l = l1 ++ x :: l2 /\ Forall (fun y => f y = false) l1 /\ f x = true.
Proof.
  induction l as [|y l IH]; simpl; [done|]. destruct (f y) eqn:Ey.
  - intros [= <-]. by exists [], l.
  - intros H. destruct (IH H) as (l1 & l2 & -> & ? & ?). exists (y :: l1), l2. split_and!; [done|by constructor|done].
Qed.

(** ** Sums over lists *)

Definition sum_with {A} (f : A -> nat) (l : list A) : nat := foldr (fun x n => f x + n) 0 l.

Lemma sum_with_app {A} (f : A -> nat) l1 l2 :
  sum_with f (l1 ++ l2) = sum_with f l1 + sum_with f l2.
Proof. induction l1; simpl; lia. Qed.

Lemma sum_with_concat {A} (f : A -> nat) ls :
  sum_with f (concat ls) = sum_with (sum_with f) ls.
Proof. induction ls; simpl; [done|]. rewrite sum_with_app. lia. Qed.

Lemma sum_with_ext {A} (f g : A -> nat) l :
  (forall x, x ∈ l -> f x = g x) -> sum_with f l = sum_with g l.
Proof.
  induction l as [|x l IH]; simpl; intros H; [done|].
  rewrite (H x), IH; [done| |set_solver]. intros. apply H. set_solver.
Qed.

Lemma sum_with_zero {A} (f : A -> nat) l :
  (forall x, x ∈ l -> f x = 0) -> sum_with f l = 0.
Proof.
  induction l as [|x l IH]; simpl; intros H; [done|].
  rewrite (H x), IH; [done| |set_solver]. intros. apply H. set_solver.
Qed.

Lemma Forall_filter_weaken {A} (P Q : A -> Prop) `{!forall x, Decision (Q x)} l :
  Forall P l -> Forall P (filter Q l).
Proof.
  rewrite !Forall_forall. intros HP x Hx. apply list_elem_of_filter in Hx as [_ Hx]. auto.
Qed.

Lemma filter_all {A} (Q : A -> Prop) `{!forall x, Decision (Q x)} l :
  Forall Q l -> filter Q l = l.
Proof. induction 1; [done|]. rewrite filter_cons_True by done. by f_equal. Qed.

Lemma filter_none {A} (Q : A -> Prop) `{!forall x, Decision (Q x)} l :
  Forall (fun x => ~ Q x) l -> filter Q l = [].
Proof. induction 1; [done|]. by rewrite filter_cons_False by done. Qed.

Lemma filter_map {A B} (f : A -> B) (Q : B -> Prop) `{!forall y, Decision (Q y)} (l : list A) :
  filter Q (f <$> l) = f <$> filter (fun x => Q (f x)) l.
Proof.
  induction l as [|x l IH]; [done|]. rewrite fmap_cons, !filter_cons, IH. by destruct (decide (Q (f x))).
Qed.

(** ** Automation *)

Create HintDb otel discriminated.
Create Rewrite HintDb otel_rw.
#[export] Hint Rewrite @sum_with_app @length_app @length_take @length_drop : otel_rw.

(** Case analysis on every [if]/[match] of the goal, then close with [lia]. *)
Ltac crush_cases :=
  repeat case_match; simplify_eq/=; try done; try lia.

(** Split boolean connectives and comparisons of a hypothesis or the goal into
    propositions that [lia] understands. *)
Ltac bool_to_prop :=
  repeat match goal with
  | H : _ && _ = true |- _ => apply andb_true_iff in H as [? ?]
  | H : _ && _ = false |- _ => apply andb_false_iff in H
  | H : _ || _ = false |- _ => apply orb_false_iff in H as [? ?]
  | H : _ || _ = true |- _ => apply orb_true_iff in H
  | H : negb _ = true |- _ => apply negb_true_iff in H
  | H : negb _ = false |- _ => apply negb_false_iff in H
  | H : (_ <=? _)%N = true |- _ => apply N.leb_le in H
  | H : (_ <=? _)%N = false |- _ => apply N.leb_gt in H
  | H : (_ <? _)%N = true |- _ => apply N.ltb_lt in H
  | H : (_ <? _)%N = false |- _ => apply N.ltb_ge in H
  | H : (_ =? _)%N = true |- _ => apply N.eqb_eq in H
  | H : (_ =? _)%N = false |- _ => apply N.eqb_neq in H
  | H : (_ <=? _) = true |- _ => apply Nat.leb_le in H
  | H : (_ <=? _) = false |- _ => apply Nat.leb_gt in H
  | H : (_ <? _) = true |- _ => apply Nat.ltb_lt in H
  | H : (_ <? _) = false |- _ => apply Nat.ltb_ge in H
  | H : (_ =? _) = true |- _ => apply Nat.eqb_eq in H
  | H : (_ =? _) = false |- _ => apply Nat.eqb_neq in H
  end.
