(* ===== verification/Time.v ===== *)
(** * Clock helpers ([crates/otel-sqlite-core/src/time.rs])

    [Instant] and [Duration] are nanosecond counts in [N].  A [Duration] holds
    64-bit seconds plus nanoseconds; an [Instant] is a monotonic [timespec]
    with signed 64-bit seconds, whose readings are never negative. *)

From S2P Require Import Prelude.

Module Time.

Local Open Scope N_scope.

Definition Instant := N.
Definition Duration := N.

Definition NANOS_PER_SEC : N := 1000000000.
Definition INSTANT_MAX : Instant := 2 ^ 63 * NANOS_PER_SEC - 1.
Definition DURATION_MAX : Duration := 2 ^ 64 * NANOS_PER_SEC - 1.

Definition from_millis (ms : N) : Duration := ms * 1000000.
Definition from_secs (s : N) : Duration := s * NANOS_PER_SEC.

(** [Instant::checked_add]. *)
Definition checked_add (now : Instant) (after : Duration) : option Instant :=
  if now + after <=? INSTANT_MAX then Some (now + after) else None.

(** [Instant::saturating_duration_since]. *)
Definition saturating_duration_since (later earlier : Instant) : Duration := later - earlier.

(** The loop of [saturating_deadline]: halve [after] until the addition is
    representable.  [None] only when the fuel runs out. *)
Fixpoint deadline_loop (fuel : nat) (now : Instant) (after : Duration) : option Instant :=
  match fuel with
  | O => None
  | S fuel' =>
      match checked_add now after with
      | Some deadline => Some deadline
      | None => deadline_loop fuel' now (N.div2 after)
      end
  end.

(** One iteration per bit of [after], plus the one that adds zero. *)
Definition deadline_fuel (after : Duration) : nat := S (N.size_nat after).

Definition saturating_deadline (now : Instant) (after : Duration) : Instant :=
  default now (deadline_loop (deadline_fuel after) now after).

(** [monotonic_millis] of an elapsed duration since the process epoch. *)
Definition monotonic_millis (elapsed : Duration) : N :=
  let ms := elapsed / 1000000 in if ms <=? u64_max then ms else u64_max.

(** [unix_nano_now]: [None] is a clock set before the epoch. *)
Definition unix_nano_now (since_epoch : option Duration) : Z :=
  match since_epoch with
  | None => 0%Z
  | Some d => if (Z.of_N d <=? i64_max)%Z then Z.of_N d else i64_max
  end.

(** ** Properties *)

Lemma div2_size n : n ≠ 0 -> N.size_nat n = S (N.size_nat (N.div2 n)).
Proof. by destruct n as [|[]]. Qed.

Lemma deadline_loop_spec fuel now after :
  now <= INSTANT_MAX -> (N.size_nat after < fuel)%nat ->
  exists d, deadline_loop fuel now after = Some d /\
    now <= d <= INSTANT_MAX /\ d <= now + after /\
    (now + after <= INSTANT_MAX -> d = now + after) /\
    (INSTANT_MAX < now + after -> INSTANT_MAX - now < 2 * (d - now) + 2).
Proof.
  intros Hnow. revert after. induction fuel as [|fuel IH]; intros after Hfuel; [lia|].
  simpl. unfold checked_add. destruct (N.leb_spec (now + after) INSTANT_MAX) as [Hfit|Hover].
  { exists (now + after). repeat split; lia. }
  assert (after ≠ 0) as Hnz by lia.
  rewrite (div2_size _ Hnz) in Hfuel.
  destruct (IH (N.div2 after) ltac:(lia)) as (d & -> & Hd & Hle & Hexact & Hhalf).
  exists d. pose proof (N.div2_odd after) as Hodd.
  assert (N.b2n (N.odd after) <= 1) by (destruct (N.odd after); simpl; lia).
  repeat split; lia.
Qed.

(** The deadline of a delay from a representable instant: the loop terminates
    within [deadline_fuel] rounds; the result is representable and not before
    [now], is exact whenever the sum fits, and otherwise keeps at least half of
    the representable room. *)
Theorem saturating_deadline_spec now after :
  now <= INSTANT_MAX ->
  deadline_loop (deadline_fuel after) now after = Some (saturating_deadline now after) /\
  now <= saturating_deadline now after <= INSTANT_MAX /\
  (now + after <= INSTANT_MAX -> saturating_deadline now after = now + after) /\
  (INSTANT_MAX < now + after ->
   INSTANT_MAX - now < 2 * (saturating_deadline now after - now) + 2).
Proof.
  intros Hnow. unfold saturating_deadline.
  destruct (deadline_loop_spec (deadline_fuel after) now after Hnow ltac:(unfold deadline_fuel; lia))
    as (d & -> & ? & ? & ? & ?). simpl. auto.
Qed.

Lemma saturating_deadline_bounds now after :
  now <= INSTANT_MAX -> now <= saturating_deadline now after <= INSTANT_MAX.
Proof.
  intros Hnow. unfold saturating_deadline.
  destruct (deadline_loop_spec (deadline_fuel after) now after Hnow ltac:(unfold deadline_fuel; lia))
    as (d & -> & ? & ? & ? & ?). done.
Qed.

Lemma saturating_deadline_le now after : now <= INSTANT_MAX -> saturating_deadline now after <= now + after.
Proof.
  intros Hnow. unfold saturating_deadline.
  destruct (deadline_loop_spec (deadline_fuel after) now after Hnow ltac:(unfold deadline_fuel; lia))
    as (d & -> & ? & ? & ? & ?). done.
Qed.

(** The delay is one nanosecond too long to be representable. *)
Lemma saturating_deadline_spec_witness :
  INSTANT_MAX < 5 + INSTANT_MAX /\
  5 <= saturating_deadline 5 INSTANT_MAX <= INSTANT_MAX /\
  INSTANT_MAX - 5 < 2 * (saturating_deadline 5 INSTANT_MAX - 5) + 2.
Proof.
  assert (5 <= INSTANT_MAX) as Hnow by (unfold INSTANT_MAX, NANOS_PER_SEC; lia).
  destruct (saturating_deadline_spec 5 INSTANT_MAX Hnow) as (_ & Hb & _ & Hhalf).
  split; [lia|]. split; [exact Hb|]. apply Hhalf. lia.
Defined.

(** An unrepresentable deadline is not clamped to the farthest
    representable instant: the halving stops at the first delay that fits,
    which for a delay one nanosecond too long is about half of the room. *)
Theorem saturating_deadline_not_farthest :
  saturating_deadline 0 (INSTANT_MAX + 1) = (INSTANT_MAX + 1) / 2 /\
  (INSTANT_MAX + 1) / 2 < INSTANT_MAX.
Proof. split; vm_compute; reflexivity. Qed.

End Time.
