(* ===== verification/Model.v ===== *)
(** * Record model ([crates/otel-sqlite-core/src/model/*.rs])

    Severity levels, attribute values, resources, scopes and log records, and
    the canonical attribute document shared by the JSON columns, the resource
    fingerprint and structured bodies.

    Bytes are [ascii] (eight bits); a Rust [String] is its UTF-8 byte string.
    An [f64] is its 64-bit pattern.  [serde_json] is outside the repository: the
    [Serialize] implementations are modelled as the calls they make on the
    serializer ([SerdeValue], serde's data model), and turning such a document
    into text is a parameter wherever it is needed. *)

From S2P Require Import Prelude.

Module Model.

Local Open Scope string_scope.
Local Open Scope list_scope.

Abbreviation byte := ascii (only parsing).

(** ** IEEE 754 doubles as bit patterns *)

Definition f64 := N.
Definition f64_exponent (x : f64) : N := N.land (N.shiftr x 52) 2047.
Definition f64_mantissa (x : f64) : N := N.land x (2 ^ 52 - 1).
Definition f64_is_finite (x : f64) : bool := negb (f64_exponent x =? 2047)%N.
Definition f64_is_nan (x : f64) : bool :=
  (f64_exponent x =? 2047)%N && negb (f64_mantissa x =? 0)%N.
Definition f64_is_zero (x : f64) : bool := (N.land x (2 ^ 63 - 1) =? 0)%N.

(** [PartialEq for f64]: NaN equals nothing, the two zeros are equal. *)
Definition f64_eqb (x y : f64) : bool :=
  negb (f64_is_nan x) && negb (f64_is_nan y) &&
  ((x =? y)%N || (f64_is_zero x && f64_is_zero y)).

(** ** Severity *)

Inductive Severity :=
| Unspecified
| Trace | Trace2 | Trace3 | Trace4
| DebugLevel | Debug2 | Debug3 | Debug4
| InfoLevel | Info2 | Info3 | Info4
| Warn | Warn2 | Warn3 | Warn4
| Error | Error2 | Error3 | Error4
| Fatal | Fatal2 | Fatal3 | Fatal4.

#[export] Instance Severity_eq_dec : EqDecision Severity.
Proof. solve_decision. Defined.

(** [severity as u8]. *)
Definition severity_as_u8 (s : Severity) : N :=
  match s with
  | Unspecified => 0
  | Trace => 1 | Trace2 => 2 | Trace3 => 3 | Trace4 => 4
  | DebugLevel => 5 | Debug2 => 6 | Debug3 => 7 | Debug4 => 8
  | InfoLevel => 9 | Info2 => 10 | Info3 => 11 | Info4 => 12
  | Warn => 13 | Warn2 => 14 | Warn3 => 15 | Warn4 => 16
  | Error => 17 | Error2 => 18 | Error3 => 19 | Error4 => 20
  | Fatal => 21 | Fatal2 => 22 | Fatal3 => 23 | Fatal4 => 24
  end%N.

Definition severity_from_u8 (value : N) : option Severity :=
  match value with
  | 0 => Some Unspecified
  | 1 => Some Trace | 2 => Some Trace2 | 3 => Some Trace3 | 4 => Some Trace4
  | 5 => Some DebugLevel | 6 => Some Debug2 | 7 => Some Debug3 | 8 => Some Debug4
  | 9 => Some InfoLevel | 10 => Some Info2 | 11 => Some Info3 | 12 => Some Info4
  | 13 => Some Warn | 14 => Some Warn2 | 15 => Some Warn3 | 16 => Some Warn4
  | 17 => Some Error | 18 => Some Error2 | 19 => Some Error3 | 20 => Some Error4
  | 21 => Some Fatal | 22 => Some Fatal2 | 23 => Some Fatal3 | 24 => Some Fatal4
  | _ => None
  end%N.

Definition severity_as_str (s : Severity) : string :=
  match s with
  | Trace => "TRACE"
  | DebugLevel => "DEBUG"
  | InfoLevel => "INFO"
  | Warn => "WARN"
  | Error => "ERROR"
  | Fatal => "FATAL"
  | _ => "UNSPECIFIED"
  end.

(** ** Attribute values *)

Inductive AttributeValue :=
| Null
| VString (value : string)
| VInt (value : Z)
| VDouble (value : f64)
| VBool (value : bool)
| VBytes (value : list byte)
| VArray (values : list AttributeValue)
| VKvlist (attributes : list (string * AttributeValue)).

(** [Attribute { key, value }]. *)
Abbreviation Attribute := (string * AttributeValue)%type.
Definition key {A} (attribute : string * A) : string := attribute.1.
Definition value {A} (attribute : string * A) : A := attribute.2.

Definition as_str (v : AttributeValue) : option string :=
  match v with VString value => Some value | _ => None end.
Definition as_int (v : AttributeValue) : option Z :=
  match v with VInt value => Some value | _ => None end.
Definition as_bool (v : AttributeValue) : option bool :=
  match v with VBool value => Some value | _ => None end.

(** Pointwise boolean comparison of two lists, the derived [PartialEq] of
    [Vec]. *)
Definition list_eqb {A} (eqb : A -> A -> bool) : list A -> list A -> bool :=
  fix go l1 l2 :=
    match l1, l2 with
    | [], [] => true
    | x :: l1', y :: l2' => eqb x y && go l1' l2'
    | _, _ => false
    end.

Definition bytes_eqb (a b : list byte) : bool := bool_decide (a = b).

(** The derived [PartialEq for AttributeValue]. *)
Fixpoint value_eqb (a b : AttributeValue) : bool :=
  match a, b with
  | Null, Null => true
  | VString x, VString y => String.eqb x y
  | VInt x, VInt y => (x =? y)%Z
  | VDouble x, VDouble y => f64_eqb x y
  | VBool x, VBool y => Bool.eqb x y
  | VBytes x, VBytes y => bytes_eqb x y
  | VArray x, VArray y => list_eqb value_eqb x y
  | VKvlist x, VKvlist y =>
      list_eqb (fun p q => String.eqb p.1 q.1 && value_eqb p.2 q.2) x y
  | _, _ => false
  end.

(** ** The canonical attribute document *)

(** serde's data model: the serializer calls made by the implementations. *)
Inductive SerdeValue :=
| SNone
| SI64 (value : Z)
| SF64 (value : f64)
| SBool (value : bool)
| SStr (value : string)
| SSeq (values : list SerdeValue)
| SMap (entries : list (string * SerdeValue)).

Definition hex_digit (n : N) : ascii :=
  match String.get (N.to_nat n) "0123456789abcdef" with
  | Some c => c
  | None => zero
  end.

(** [hex_encode]: [write!(hex, "{byte:02x}")] for every byte. *)
Fixpoint hex_encode (bytes : list byte) : string :=
  match bytes with
  | [] => EmptyString
  | b :: rest =>
      let n := N_of_ascii b in
      String (hex_digit (N.shiftr n 4)) (String (hex_digit (N.land n 15)) (hex_encode rest))
  end.

(** The ordering scratch: indices paired with the attribute they point at,
    sorted by [(key, index)]. *)
Definition order_le {A} (x y : nat * (string * A)) : Prop :=
  x.2.1 ≠ y.2.1 /\ String.le x.2.1 y.2.1 \/ x.2.1 = y.2.1 /\ x.1 <= y.1.

#[export] Instance order_le_dec {A} : RelDecision (@order_le A).
Proof. unfold order_le. intros x y. apply _. Defined.

Definition key_order {A} (attributes : list (string * A)) : list (nat * (string * A)) :=
  merge_sort order_le (imap pair attributes).

(** The emission loop: an entry followed by the same key is skipped, so the
    last-inserted value of each key survives. *)
Fixpoint emit_entries {A} (order : list (nat * (string * A))) : list (string * A) :=
  match order with
  | [] => []
  | entry :: rest =>
      let followed_by_same_key :=
        match rest with
        | next :: _ => String.eqb next.2.1 entry.2.1
        | [] => false
        end in
      if followed_by_same_key then emit_entries rest
      else entry.2 :: emit_entries rest
  end.

(** [AttributesJson] and the [Kvlist] arm share this entry sequence. *)
Definition canonical_entries {A} (attributes : list (string * A)) : list (string * A) :=
  emit_entries (key_order attributes).

(** [Serialize for Float]. *)
Definition serialize_float (x : f64) : SerdeValue :=
  if f64_is_finite x then SF64 x else SNone.

(** [Serialize for AttributeValue]. *)
Fixpoint serialize (v : AttributeValue) : SerdeValue :=
  match v with
  | Null => SNone
  | VInt value => SI64 value
  | VDouble value => serialize_float value
  | VBool value => SBool value
  | VString value => SStr value
  | VBytes value => SStr (hex_encode value)
  | VArray values => SSeq (map serialize values)
  | VKvlist attributes =>
      SMap (canonical_entries (map (fun kv => (kv.1, serialize kv.2)) attributes))
  end.

(** [write_attributes_json_into]: the document handed to the JSON writer. *)
Definition attributes_document (attributes : list Attribute) : SerdeValue :=
  SMap (canonical_entries (map (fun kv => (kv.1, serialize kv.2)) attributes)).

(** ** Resources, scopes and records *)

Record Resource := {
  resource_id : string;
  resource_attributes : list Attribute;
  resource_schema_url : string;
}.

Definition Resource_default : Resource :=
  {| resource_id := ""; resource_attributes := []; resource_schema_url := "" |}.

Definition Resource_new (attributes : list Attribute) : Resource :=
  {| resource_id := ""; resource_attributes := attributes; resource_schema_url := "" |}.

(** [iter().rev().find(|a| a.key == key).map(|a| &a.value)]. *)
Fixpoint find_key {A} (k : string) (attributes : list (string * A)) : option A :=
  match attributes with
  | [] => None
  | a :: rest => if String.eqb a.1 k then Some a.2 else find_key k rest
  end.

Definition get_last {A} (attributes : list (string * A)) (k : string) : option A :=
  find_key k (reverse attributes).

Definition Resource_get (r : Resource) (k : string) : option AttributeValue :=
  get_last (resource_attributes r) k.

Definition service_name (r : Resource) : string :=
  default "" (Resource_get r "service.name" ≫= as_str).
Definition host_name (r : Resource) : string :=
  default "" (Resource_get r "host.name" ≫= as_str).

(** The derived [PartialEq for Resource]. *)
Definition resource_eqb (a b : Resource) : bool :=
  String.eqb (resource_id a) (resource_id b) &&
  list_eqb (fun p q => String.eqb p.1 q.1 && value_eqb p.2 q.2)
    (resource_attributes a) (resource_attributes b) &&
  String.eqb (resource_schema_url a) (resource_schema_url b).

(** [LogScope]: the attribute document is rendered once, at construction. *)
Record LogScope := {
  scope_name : string;
  scope_version : string;
  scope_schema_url : string;
  scope_attributes_json : SerdeValue;
}.

Definition LogScope_new (name version : string) (attributes : list Attribute)
    (schema_url : string) : LogScope :=
  {| scope_name := name;
     scope_version := version;
     scope_schema_url := schema_url;
     scope_attributes_json := attributes_document attributes |}.

Definition LogScope_default : LogScope := LogScope_new "" "" [] "".

Record LogRecord := {
  time_unix_nano : Z;
  observed_time_unix_nano : Z;
  severity_number : Severity;
  severity_text : string;
  trace_id : list byte;
  span_id : list byte;
  body : string;
  (** The canonical document of a structured body. *)
  body_json : option SerdeValue;
  attributes : list Attribute;
  dropped_attributes_count : N;
  flags : N;
  event_name : string;
  scope : LogScope;
}.

Definition zero_bytes (n : nat) : list byte := replicate n zero.

Definition LogRecord_default : LogRecord :=
  {| time_unix_nano := 0; observed_time_unix_nano := 0;
     severity_number := Unspecified; severity_text := "";
     trace_id := zero_bytes 16; span_id := zero_bytes 8;
     body := ""; body_json := None; attributes := [];
     dropped_attributes_count := 0; flags := 0; event_name := "";
     scope := LogScope_default |}.

Definition has_trace (r : LogRecord) : bool := negb (bytes_eqb (trace_id r) (zero_bytes 16)).
Definition has_span (r : LogRecord) : bool := negb (bytes_eqb (span_id r) (zero_bytes 8)).
Definition has_trace_context (r : LogRecord) : bool := has_trace r && has_span r.

(** ** Lemmas: last value of a key *)

Lemma find_key_Some {A} k (l : list (string * A)) v :
  find_key k l = Some v <->
  exists l1 l2, l = l1 ++ (k, v) :: l2 /\ Forall (fun a => a.1 ≠ k) l1.
Proof.
  induction l as [|[k' v'] l IH]; simpl.
  { split; [done|]. intros (l1 & l2 & H & _). by destruct l1. }
  destruct (String.eqb_spec k' k) as [->|Hne].
  - split.
    + intros [= ->]. by exists [], l.
    + intros ([|[k2 v2] l1] & l2 & H & Hall); simplify_eq/=; [done|].
      apply Forall_cons in Hall as [? _]. done.
  - rewrite IH. split.
    + intros (l1 & l2 & -> & Hall). exists ((k', v') :: l1), l2. split; [done|].
      by constructor.
    + intros ([|[k2 v2] l1] & l2 & H & Hall); simplify_eq/=.
      apply Forall_cons in Hall as [_ ?]. eauto.
Qed.

Lemma get_last_Some {A} (l : list (string * A)) k v :
  get_last l k = Some v <->
  exists i, l !! i = Some (k, v) /\ forall j a, i < j -> l !! j = Some a -> a.1 ≠ k.
Proof.
  unfold get_last. rewrite find_key_Some. split.
  - intros (l1 & l2 & Heq & Hall). apply (f_equal reverse) in Heq.
    rewrite reverse_involutive, reverse_app, reverse_cons, <- app_assoc in Heq. simpl in Heq. subst l.
    exists (length (reverse l2)). split; [by rewrite list_lookup_middle|].
    intros j a Hj Ha. rewrite lookup_app_r in Ha by lia.
    replace (j - length (reverse l2)) with (S (j - length (reverse l2) - 1)) in Ha by lia.
    simpl in Ha. apply list_elem_of_lookup_2 in Ha.
    rewrite elem_of_reverse in Ha. rewrite Forall_forall in Hall. by apply Hall.
  - intros (i & Hi & Hlast). exists (reverse (drop (S i) l)), (reverse (take i l)). split.
    + rewrite <- (take_drop_middle l i (k, v) Hi) at 1.
      rewrite reverse_app, reverse_cons, <- app_assoc. done.
    + apply Forall_forall. intros a Ha. rewrite elem_of_reverse in Ha.
      apply list_elem_of_lookup in Ha as [j Hj].
      rewrite (lookup_drop l (S i) j) in Hj. eapply Hlast; [|done]. lia.
Qed.

(** ** Lemmas: the order and the emission loop *)

#[export] Instance order_le_trans {A} : Transitive (@order_le A).
Proof.
  intros [i [k a]] [j [l b]] [m [n c]]. unfold order_le. simpl.
  intros [[Hne1 H1]|[-> H1]] [[Hne2 H2]|[-> H2]].
  - left. split; [|by transitivity l]. intros ->. apply Hne1. by apply (anti_symm String.le).
  - left. done.
  - left. done.
  - right. split; [done|lia].
Qed.

#[export] Instance order_le_total {A} : Total (@order_le A).
Proof.
  intros [i [k a]] [j [l b]]. unfold order_le. simpl.
  destruct (decide (k = l)) as [->|Hne].
  - destruct (decide (i <= j)); [by left; right|]. right. right. split; [done|lia].
  - destruct (total String.le k l); [left|right]; left; auto.
Qed.

Lemma key_order_sorted {A} (l : list (string * A)) : StronglySorted order_le (key_order l).
Proof. unfold key_order. apply StronglySorted_merge_sort; apply _. Qed.

Lemma elem_of_key_order {A} (l : list (string * A)) i a :
  (i, a) ∈ key_order l <-> l !! i = Some a.
Proof.
  unfold key_order. rewrite merge_sort_Permutation, elem_of_lookup_imap.
  naive_solver.
Qed.

Lemma emit_entries_sublist {A} (order : list (nat * (string * A))) a :
  a ∈ emit_entries order -> exists i, (i, a) ∈ order.
Proof.
  induction order as [|[i b] rest IH]; simpl; [set_solver|].
  case_match; [intros [j Hj]%IH; set_solver|].
  intros [->|[j Hj]%IH]%elem_of_cons; set_solver.
Qed.

(** On a sorted order, an entry is emitted exactly when no later index holds
    the same key. *)
Lemma elem_of_emit_entries {A} (order : list (nat * (string * A))) k v :
  StronglySorted order_le order -> NoDup order.*1 ->
  ((k, v) ∈ emit_entries order <->
   exists i, (i, (k, v)) ∈ order /\ forall j b, (j, (k, b)) ∈ order -> j <= i).
Proof.
  induction order as [|[i [k0 v0]] rest IH]; intros Hs Hnd.
  { simpl. split; [set_solver|]. intros (i & Hi & _). set_solver. }
  apply StronglySorted_cons in Hs as [Hhd Hs]. rewrite fmap_cons in Hnd.
  apply NoDup_cons in Hnd as [Hni Hnd]. specialize (IH Hs Hnd). rewrite Forall_forall in Hhd.
  assert (forall j b, (j, (k0, b)) ∈ rest -> i < j) as Hlater.
  { intros j b Hj. destruct (Hhd _ Hj) as [[? _]|[_ Hle]]; simpl in *; [done|].
    assert (j ≠ i); [|lia]. intros ->. apply Hni. apply list_elem_of_fmap. by exists (i, (k0, b)). }
  cbn [emit_entries].
  destruct rest as [|[j [k1 v1]] rest'] eqn:Hrest.
  { simpl. split.
    - intros [= -> ->]%list_elem_of_singleton. exists i. split; [set_solver|].
      intros j b Hj%list_elem_of_singleton. by simplify_eq.
    - intros (j & Hj%list_elem_of_singleton & _). simplify_eq. set_solver. }
  rewrite <- Hrest in *. simpl. destruct (String.eqb_spec k1 k0) as [->|Hne].
  - rewrite IH. split; intros (m & Hm & Hmax); exists m.
    + split; [set_solver|]. intros j' b [?|Hj']%elem_of_cons; [|by eapply Hmax].
      simplify_eq. assert (i < m); [|lia]. by eapply Hlater.
    + apply elem_of_cons in Hm as [?|Hm]; [|split; [done|]; intros j' b Hj'; apply (Hmax j' b); by right].
      simplify_eq. exfalso. assert (i < j) by (eapply Hlater; left).
      assert (j <= i); [|lia]. eapply (Hmax j v1). right. left.
  - assert (forall j' b, (j', (k0, b)) ∉ rest) as Hnone.
    { intros j' b Hj'. destruct (Hhd (j, (k1, v1))) as [[_ Hle]|[? _]]; [rewrite Hrest; set_solver| |simpl in *; congruence].
      rewrite Hrest in Hj', Hs. apply elem_of_cons in Hj' as [?|Hj']; [by simplify_eq|].
      apply StronglySorted_cons in Hs as [Hs' _]. rewrite Forall_forall in Hs'.
      destruct (Hs' _ Hj') as [[_ Hle']|[? _]]; simpl in *; [|congruence].
      apply Hne. symmetry. by apply (anti_symm String.le). }
    rewrite elem_of_cons. split.
    + intros [[= -> ->]|H].
      * exists i. split; [set_solver|]. intros j' b [?|Hj']%elem_of_cons; [by simplify_eq|].
        by apply Hnone in Hj'.
      * apply IH in H as (m & Hm & Hmax). exists m. split; [set_solver|].
        intros j' b [?|Hj']%elem_of_cons; [|by eapply Hmax]. simplify_eq. by apply Hnone in Hm.
    + intros (m & [?|Hm]%elem_of_cons & Hmax); [simplify_eq; by left|]. right. apply IH.
      exists m. split; [done|]. intros j' b Hj'. apply (Hmax j' b). by right.
Qed.

Lemma NoDup_key_order {A} (l : list (string * A)) : NoDup (key_order l).*1.
Proof.
  unfold key_order. rewrite merge_sort_Permutation.
  assert ((imap pair l).*1 = seq 0 (length l)) as ->; [|apply NoDup_seq].
  apply list_eq. intros i. rewrite list_lookup_fmap, list_lookup_imap.
  destruct (l !! i) eqn:Hi; simpl.
  - apply lookup_lt_Some in Hi. by rewrite lookup_seq_lt by done.
  - apply lookup_ge_None in Hi. by rewrite lookup_seq_ge by done.
Qed.

(** Strict byte order on keys. *)
Definition key_lt (a b : string) : Prop := String.le a b /\ a ≠ b.

Lemma emit_entries_sorted {A} (order : list (nat * (string * A))) :
  StronglySorted order_le order -> StronglySorted key_lt (emit_entries order).*1.
Proof.
  induction order as [|[i [k v]] rest IH]; simpl; intros Hs; [constructor|].
  apply StronglySorted_cons in Hs as [Hhd Hs]. specialize (IH Hs).
  destruct rest as [|[j [k1 v1]] rest'] eqn:Hrest; [repeat constructor|].
  rewrite <- Hrest in *. simpl. destruct (String.eqb_spec k1 k) as [->|Hne]; [done|].
  rewrite fmap_cons. apply StronglySorted_cons. split; [|done].
  apply Forall_forall. intros k' ([k2 v2] & -> & Hin)%list_elem_of_fmap. simpl.
  apply emit_entries_sublist in Hin as [m Hm].
  rewrite Forall_forall in Hhd. unfold key_lt.
  pose proof (Hhd (j, (k1, v1)) ltac:(rewrite Hrest; set_solver)) as Hj.
  destruct Hj as [[_ Hle]|[? _]]; simpl in *; [|congruence].
  assert (String.le k1 k2) as Hle2.
  { rewrite Hrest in Hm, Hs. apply elem_of_cons in Hm as [?|Hm]; [by simplify_eq|].
    apply StronglySorted_cons in Hs as [Hs' _]. rewrite Forall_forall in Hs'.
    destruct (Hs' _ Hm) as [[_ ?]|[? _]]; simpl in *; [done|by subst]. }
  split; [by transitivity k1|]. intros <-. apply Hne. by apply (anti_symm String.le).
Qed.

(** The canonical entries hold exactly the last value of every key. *)
Lemma elem_of_canonical_entries {A} (l : list (string * A)) k v :
  (k, v) ∈ canonical_entries l <-> get_last l k = Some v.
Proof.
  unfold canonical_entries.
  rewrite elem_of_emit_entries by auto using key_order_sorted, NoDup_key_order.
  rewrite get_last_Some. setoid_rewrite elem_of_key_order. split; intros (i & Hi & Hmax); exists i.
  - split; [done|]. intros j [k' b] Hlt Hj Hk. simpl in Hk. subst k'. specialize (Hmax _ _ Hj). lia.
  - split; [done|]. intros j b Hj. destruct (decide (j <= i)); [done|].
    exfalso. by apply (Hmax j (k, b)); [lia| |].
Qed.

Lemma canonical_entries_sorted {A} (l : list (string * A)) :
  StronglySorted key_lt (canonical_entries l).*1.
Proof. apply emit_entries_sorted, key_order_sorted. Qed.

Lemma get_last_map {A B} (f : A -> B) (l : list (string * A)) k :
  get_last (map (fun kv => (kv.1, f kv.2)) l) k = f <$> get_last l k.
Proof.
  unfold get_last. change (map (fun kv => (kv.1, f kv.2)) l) with ((fun kv => (kv.1, f kv.2)) <$> l).
  rewrite <- fmap_reverse. generalize (reverse l). clear l.
  induction l as [|[k' v] l IH]; simpl; [done|]. by destruct (String.eqb k' k).
Qed.

(** Two strictly sorted entry lists with the same entries are equal. *)
Lemma sorted_entries_ext {A} (l1 l2 : list (string * A)) :
  StronglySorted key_lt l1.*1 -> StronglySorted key_lt l2.*1 ->
  (forall a, a ∈ l1 <-> a ∈ l2) -> l1 = l2.
Proof.
  revert l2. induction l1 as [|[k1 v1] l1 IH]; intros [|[k2 v2] l2] H1 H2 Hin; [done| | |].
  { specialize (Hin (k2, v2)). set_solver. }
  { specialize (Hin (k1, v1)). set_solver. }
  rewrite !fmap_cons in *. simpl in *.
  apply StronglySorted_cons in H1 as [Hh1 H1]. apply StronglySorted_cons in H2 as [Hh2 H2].
  rewrite Forall_forall in Hh1, Hh2.
  assert (forall a, a ∈ l1 -> key_lt k1 a.1) as Hl1 by (intros a Ha; apply Hh1, list_elem_of_fmap; eauto).
  assert (forall a, a ∈ l2 -> key_lt k2 a.1) as Hl2 by (intros a Ha; apply Hh2, list_elem_of_fmap; eauto).
  assert ((k1, v1) = (k2, v2)) as Heq.
  { pose proof (proj1 (Hin (k1, v1)) ltac:(left)) as [?|Ha]%elem_of_cons; [done|].
    pose proof (proj2 (Hin (k2, v2)) ltac:(left)) as [?|Hb]%elem_of_cons; [done|].
    apply Hl2 in Ha as [Ha Hne]. apply Hl1 in Hb as [Hb _]. simpl in *.
    exfalso. apply Hne. by apply (anti_symm String.le). }
  simplify_eq. f_equal. apply IH; [done|done|]. intros a.
  specialize (Hin a). rewrite !elem_of_cons in Hin.
  split; intros Ha.
  - destruct (proj1 Hin (or_intror Ha)) as [->|?]; [|done]. by apply Hl1 in Ha as [_ []].
  - destruct (proj2 Hin (or_intror Ha)) as [->|?]; [|done]. by apply Hl2 in Ha as [_ []].
Qed.

Lemma canonical_entries_ext {A} (l1 l2 : list (string * A)) :
  canonical_entries l1 = canonical_entries l2 <-> forall k, get_last l1 k = get_last l2 k.
Proof.
  split.
  - intros Heq k. destruct (get_last l1 k) as [v|] eqn:Hv.
    + apply elem_of_canonical_entries in Hv. rewrite Heq in Hv.
      by apply elem_of_canonical_entries in Hv.
    + destruct (get_last l2 k) as [v|] eqn:Hv2; [|done].
      apply elem_of_canonical_entries in Hv2. rewrite <- Heq in Hv2.
      apply elem_of_canonical_entries in Hv2. congruence.
  - intros Hk. apply sorted_entries_ext; [apply canonical_entries_sorted..|].
    intros [k v]. by rewrite !elem_of_canonical_entries, Hk.
Qed.

(** ** Lemmas: derived equality *)

(** Induction over values with the hypothesis for every nested value. *)
Definition AttributeValue_nested_ind (P : AttributeValue -> Prop)
    (HNull : P Null) (HString : forall s, P (VString s)) (HInt : forall z, P (VInt z))
    (HDouble : forall d, P (VDouble d)) (HBool : forall b, P (VBool b))
    (HBytes : forall l, P (VBytes l))
    (HArray : forall l, Forall P l -> P (VArray l))
    (HKvlist : forall l, Forall (fun kv => P kv.2) l -> P (VKvlist l)) : forall v, P v :=
  fix go v :=
    match v with
    | Null => HNull
    | VString s => HString s
    | VInt z => HInt z
    | VDouble d => HDouble d
    | VBool b => HBool b
    | VBytes l => HBytes l
    | VArray l =>
        HArray l ((fix all l : Forall P l := match l with
                   | [] => Forall_nil_2 _
                   | x :: l' => Forall_cons_2 _ x l' (go x) (all l')
                   end) l)
    | VKvlist l =>
        HKvlist l ((fix all l : Forall (fun kv => P kv.2) l := match l with
                    | [] => Forall_nil_2 _
                    | kv :: l' => Forall_cons_2 _ kv l' (go kv.2) (all l')
                    end) l)
    end.

(** Values without floating-point numbers. *)
Fixpoint no_double (v : AttributeValue) : bool :=
  match v with
  | VDouble _ => false
  | VArray values => forallb no_double values
  | VKvlist attributes => forallb (fun kv => no_double kv.2) attributes
  | _ => true
  end.

Lemma list_eqb_eq {A} (P : A -> bool) (eqb : A -> A -> bool) l1 l2 :
  Forall (fun x => P x = true -> forall y, eqb x y = true -> x = y) l1 ->
  forallb P l1 = true -> list_eqb eqb l1 l2 = true -> l1 = l2.
Proof.
  intros Hall. revert l2. induction Hall as [|x l1 Hx _ IH]; intros [|y l2]; simpl; try done.
  intros [? ?]%andb_true_iff [? ?]%andb_true_iff. f_equal; auto.
Qed.

(** Without floats the derived equality is equality. *)
Lemma value_eqb_eq v w : no_double v = true -> value_eqb v w = true -> v = w.
Proof.
  revert w. induction v as [|s|z|d|b|l|l IH|l IH] using AttributeValue_nested_ind;
    intros []; simpl; try done; intros Hnd Heq.
  - by apply String.eqb_eq in Heq as ->.
  - by apply Z.eqb_eq in Heq as ->.
  - by apply eqb_prop in Heq as ->.
  - by apply bool_decide_eq_true in Heq as ->.
  - f_equal. eapply (list_eqb_eq no_double); [|done|done].
    eapply Forall_impl; [done|]. simpl. auto.
  - f_equal. eapply (list_eqb_eq (fun kv => no_double kv.2)); [|done|done].
    eapply Forall_impl; [done|]. intros [k v] Hv Hn [k' v'] [Hk Hv']%andb_true_iff. simpl in *.
    apply String.eqb_eq in Hk as ->. f_equal. auto.
Qed.

Definition resource_no_double (r : Resource) : bool :=
  forallb (fun kv => no_double kv.2) (resource_attributes r).

Lemma resource_eqb_eq r1 r2 : resource_no_double r1 = true -> resource_eqb r1 r2 = true -> r1 = r2.
Proof.
  destruct r1 as [i1 a1 u1], r2 as [i2 a2 u2]. unfold resource_eqb, resource_no_double. simpl.
  intros Hnd H. bool_to_prop. repeat match goal with
  | H : String.eqb _ _ = true |- _ => apply String.eqb_eq in H as -> end.
  f_equal. eapply (list_eqb_eq (fun kv => no_double kv.2)); [|done|done].
  apply Forall_true. intros [k v] Hn [k' v'] [Hk Hv']%andb_true_iff. simpl in *.
  apply String.eqb_eq in Hk as ->. f_equal. by apply value_eqb_eq.
Qed.

(** ** Claims *)

(** The canonical attribute document lists its keys in strictly
    increasing byte order (so no key twice) and holds, for each key of the
    attribute list and no other, the serialization of the last value given to
    that key, which is the value the [get] accessor returns. *)
Theorem attributes_document_canonical attrs :
  exists entries, attributes_document attrs = SMap entries /\
    StronglySorted key_lt entries.*1 /\
    forall k s, (k, s) ∈ entries <->
      exists v, Resource_get (Resource_new attrs) k = Some v /\ s = serialize v.
Proof.
  unfold attributes_document, Resource_get. simpl. eexists. split; [done|].
  split; [apply canonical_entries_sorted|]. intros k s.
  rewrite elem_of_canonical_entries, get_last_map, fmap_Some. naive_solver.
Qed.

(** Two attribute lists have the same canonical document exactly when
    they bind the same keys to values with the same serialization, whatever
    the order of the attributes and the shadowed duplicates. *)
Theorem attributes_document_ext attrs1 attrs2 :
  attributes_document attrs1 = attributes_document attrs2 <->
  forall k, serialize <$> Resource_get (Resource_new attrs1) k =
            serialize <$> Resource_get (Resource_new attrs2) k.
Proof.
  unfold attributes_document, Resource_get. simpl. setoid_rewrite <- get_last_map.
  rewrite <- canonical_entries_ext. split; [by intros [= ?]|by intros ->].
Qed.

(** The severity numbers 0..24 and the enum are in bijection: decoding
    the stored number gives the severity back, and only numbers above 24 fail
    to decode. *)
Theorem severity_roundtrip :
  (forall s, severity_from_u8 (severity_as_u8 s) = Some s) /\
  (forall n s, severity_from_u8 n = Some s -> severity_as_u8 s = n) /\
  (forall n, severity_from_u8 n = None <-> (24 < n)%N).
Proof.
  split; [by intros []|]. split.
  - intros n s. unfold severity_from_u8. intros H. repeat case_match; by simplify_eq.
  - intros n. split.
    + intros H. destruct (N.le_gt_cases n 24) as [Hle|]; [|done]. exfalso. revert H.
      rewrite <- (N2Nat.id n). assert (N.to_nat n < 25) as Hlt by lia. revert Hlt.
      generalize (N.to_nat n). intros m Hm. do 25 (destruct m as [|m]; [done|]). lia.
    + intros Hn. unfold severity_from_u8. repeat case_match; try done; lia.
Qed.

End Model.
