(* ===== verification/Text.v ===== *)
(** * The [str] operations of the standard library the sources rely on

    A [str] is its UTF-8 byte string.  [trim] strips the Unicode [White_Space]
    code points, given here by their UTF-8 encodings; every encoding starts
    with a byte that no other code point's encoding ends with, so stripping
    encodings from either end of a well-formed string is stripping characters. *)

From S2P Require Import Prelude.

Module Text.

Local Open Scope list_scope.

Definition bytes_of_string (s : string) : list ascii := String.list_ascii_of_string s.
Definition string_of_bytes (l : list ascii) : string := String.string_of_list_ascii l.

Definition byte_of_N (n : N) : ascii := ascii_of_N n.

(** UTF-8 encodings of the code points with the [White_Space] property. *)
Definition whitespace : list (list ascii) :=
  map (map byte_of_N)
    ([[9]; [10]; [11]; [12]; [13]; [32]; [194; 133]; [194; 160]; [225; 154; 128];
      [226; 128; 168]; [226; 128; 169]; [226; 128; 175]; [226; 129; 159]; [227; 128; 128]]
     ++ map (fun i => [226; 128; 128 + N.of_nat i]) (seq 0 11))%N.

(** [l] without the prefix [p], if it has it. *)
Fixpoint strip_prefix (p l : list ascii) : option (list ascii) :=
  match p, l with
  | [], _ => Some l
  | x :: p', y :: l' => if Ascii.eqb x y then strip_prefix p' l' else None
  | _ :: _, [] => None
  end.

Definition strip_one (patterns : list (list ascii)) (l : list ascii) : option (list ascii) :=
  list_find (fun p => is_Some (strip_prefix p l)) patterns ≫= fun ip => strip_prefix ip.2 l.

(** Each round removes at least one byte, so [length l] rounds suffice. *)
Fixpoint strip_all (fuel : nat) (patterns : list (list ascii)) (l : list ascii) : list ascii :=
  match fuel with
  | O => l
  | S fuel' =>
      match strip_one patterns l with
      | Some rest => strip_all fuel' patterns rest
      | None => l
      end
  end.

Definition trim_start_bytes (l : list ascii) : list ascii := strip_all (length l) whitespace l.
Definition trim_end_bytes (l : list ascii) : list ascii :=
  reverse (strip_all (length l) (map reverse whitespace) (reverse l)).

(** [str::trim]. *)
Definition trim (s : string) : string :=
  string_of_bytes (trim_end_bytes (trim_start_bytes (bytes_of_string s))).

(** [u8::to_ascii_lowercase]. *)
Definition byte_to_lower (c : ascii) : ascii :=
  let n := N_of_ascii c in
  if ((65 <=? n) && (n <=? 90))%N then ascii_of_N (n + 32) else c.

(** [str::to_ascii_lowercase]. *)
Definition to_ascii_lowercase (s : string) : string :=
  string_of_bytes (map byte_to_lower (bytes_of_string s)).

(** [str::eq_ignore_ascii_case]. *)
Definition eq_ignore_ascii_case (a b : string) : bool :=
  String.eqb (to_ascii_lowercase a) (to_ascii_lowercase b).

(** [str::is_empty]. *)
Definition is_empty (s : string) : bool := String.eqb s "".

End Text.
