(* ===== verification/Paths.v ===== *)
(** * The [Path] operations of the standard library the sources rely on

    A path is its byte string, read the way [std::path] reads it on Unix: an
    optional root, or an optional leading [.], then components separated by one
    or more slashes, where empty and further [.] components do not count.
    [parent] and [ancestors] cut the string itself, as [Components::as_path]
    does, so what they return is a prefix of the path as it was written. *)

From S2P Require Import Prelude Text.

Module Paths.
Import Text.

Local Open Scope list_scope.

Definition slash : ascii := "/"%char.
Definition dot : ascii := "."%char.

(** ** Segments between slashes *)

Fixpoint segments (l : list ascii) : list (list ascii) :=
  match l with
  | [] => [[]]
  | x :: l' =>
      if Ascii.eqb x slash then [] :: segments l'
      else match segments l' with
           | s :: rest => (x :: s) :: rest
           | [] => [[x]]
           end
  end.

Fixpoint join (segs : list (list ascii)) : list ascii :=
  match segs with
  | [] => []
  | [s] => s
  | s :: rest => s ++ slash :: join rest
  end.

(** [parse_single_component]: an empty segment or [.] is no component. *)
Definition is_component (s : list ascii) : bool :=
  match s with
  | [] => false
  | [x] => negb (Ascii.eqb x dot)
  | _ => true
  end.

(** Segments without those at the end that are no components ([trim_right]). *)
Fixpoint trim_segments (rev_segs : list (list ascii)) : list (list ascii) :=
  match rev_segs with
  | [] => []
  | s :: rest => if is_component s then rev_segs else trim_segments rest
  end.

(** [len_before_body]: the root, or a leading [.] that is a component of its own. *)
Definition split_start (l : list ascii) : list ascii * list ascii :=
  match l with
  | x :: l' =>
      if Ascii.eqb x slash then ([x], l')
      else if Ascii.eqb x dot
              && match l' with [] => true | y :: _ => Ascii.eqb y slash end then ([x], l')
      else ([], l)
  | [] => ([], [])
  end.

(** ** [Path::components], [Path::parent], [Path::ancestors] *)

Definition components (l : list ascii) : list ascii * list (list ascii) :=
  let (start, body) := split_start l in (start, List.filter is_component (segments body)).

(** [Path]'s equality. *)
Definition path_eqb (a b : string) : bool :=
  bool_decide (components (bytes_of_string a) = components (bytes_of_string b)).

Definition parent_bytes (l : list ascii) : option (list ascii) :=
  let (start, body) := split_start l in
  match trim_segments (reverse (segments body)) with
  | _ :: rest => Some (start ++ join (reverse (trim_segments rest)))
  | [] =>
      match start with
      | [x] => if Ascii.eqb x dot then Some [] else None
      | _ => None
      end
  end.

Definition parent (path : string) : option string := string_of_bytes <$> parent_bytes (bytes_of_string path).

(** A parent is shorter than its child, so [length l] rounds reach the last ancestor. *)
Fixpoint ancestors_loop (fuel : nat) (l : list ascii) : list (list ascii) :=
  l :: match fuel, parent_bytes l with
       | S fuel', Some p => ancestors_loop fuel' p
       | _, _ => []
       end.

Definition ancestors (path : string) : list string :=
  let l := bytes_of_string path in string_of_bytes <$> ancestors_loop (length l) l.

(** ** Properties *)

Lemma segments_nonempty l : segments l <> [].
Proof. destruct l as [|x l]; simpl; [done|]. case_match; [done|]. by case_match. Qed.

Lemma join_cons s segs : segs <> [] -> join (s :: segs) = s ++ slash :: join segs.
Proof. by destruct segs. Qed.

Lemma join_segments l : join (segments l) = l.
Proof.
  induction l as [|x l IH]; [done|]. simpl. pose proof (segments_nonempty l) as Hne.
  destruct (Ascii.eqb_spec x slash) as [->|].
  - by rewrite join_cons, IH.
  - destruct (segments l) as [|s rest]; [done|]. rewrite <- IH. by destruct rest.
Qed.

Lemma join_app_prefix a b : join a `prefix_of` join (a ++ b).
Proof.
  induction a as [|s a IH]; [apply prefix_nil|]. destruct a as [|s' a].
  - destruct b as [|t b]; [done|]. apply (prefix_app_r s s (slash :: join (t :: b))). done.
  - change ((s :: s' :: a) ++ b) with (s :: (s' :: a) ++ b). rewrite !join_cons by done.
    by apply prefix_app, prefix_cons.
Qed.

Lemma trim_segments_suffix segs : exists cut, segs = cut ++ trim_segments segs /\ Forall (fun s => is_component s = false) cut.
Proof.
  induction segs as [|s segs (cut & E & H)]; simpl; [by exists []|].
  destruct (is_component s) eqn:Es; [by exists []|]. exists (s :: cut). simpl. split; [by f_equal|by constructor].
Qed.

Lemma trim_segments_head segs s rest : trim_segments segs = s :: rest -> is_component s = true.
Proof. induction segs as [|x segs IH]; simpl; [done|]. case_match; [by intros [= <- _]|done]. Qed.

Lemma split_start_app l start body : split_start l = (start, body) -> l = start ++ body.
Proof. destruct l as [|x l]; simpl; [by intros [= <- <-]|]. repeat case_match; by intros [= <- <-]. Qed.

Lemma component_nonempty s : is_component s = true -> s <> [].
Proof. by intros H ->. Qed.

Lemma join_cut segs s cut : s <> [] -> length (join segs) < length (join (segs ++ s :: cut)).
Proof.
  intros Hs. assert (0 < length s) as Hl by (destruct s; [done|simpl; lia]).
  assert (length (join [s]) <= length (join (s :: cut))) as Hcut.
  { apply prefix_length. apply (join_app_prefix [s] cut). }
  change (join [s]) with s in Hcut. induction segs as [|t segs IH]; [rewrite app_nil_l; simpl (length (join [])); lia|].
  change ((t :: segs) ++ s :: cut) with (t :: segs ++ s :: cut).
  rewrite (join_cons t (segs ++ _)) by (by destruct segs). rewrite length_app. cbn [length].
  destruct segs as [|u segs]; [simpl (join [t]); lia|]. rewrite join_cons by done. rewrite length_app. cbn [length]. lia.
Qed.

(** A parent is a proper prefix of the path. *)
Lemma parent_prefix l p : parent_bytes l = Some p -> p `prefix_of` l /\ length p < length l.
Proof.
  unfold parent_bytes. destruct (split_start l) as [start body] eqn:Es. apply split_start_app in Es as ->.
  destruct (trim_segments (reverse (segments body))) as [|s rest] eqn:Et.
  - destruct start as [|x [|]]; [done| |done]. case_match; [|done]. intros [= <-]. split; [apply prefix_nil|simpl; lia].
  - intros [= <-]. pose proof (trim_segments_head _ _ _ Et) as Hs. apply component_nonempty in Hs.
    destruct (trim_segments_suffix (reverse (segments body))) as (cut & Ec & _). rewrite Et in Ec.
    destruct (trim_segments_suffix rest) as (cut' & Er & _).
    assert (body = join (reverse (trim_segments rest) ++ reverse cut' ++ s :: reverse cut)) as Hb.
    { rewrite <- (join_segments body). f_equal. rewrite <- (reverse_involutive (segments body)), Ec, Er.
      rewrite !reverse_app, reverse_cons, reverse_app, <- !(assoc_L (++)). simpl.
      by rewrite <- Er. }
    split.
    + apply prefix_app. rewrite Hb at 1. apply join_app_prefix.
    + rewrite !length_app. enough (length (join (reverse (trim_segments rest))) < length body) by lia.
      rewrite Hb at 1. rewrite (assoc_L (++)). eapply Nat.le_lt_trans; [|by apply join_cut].
      apply prefix_length, join_app_prefix.
Qed.

(** One path above another, any number of parents up. *)
Definition above : relation (list ascii) := rtc (fun l p => parent_bytes l = Some p).

(** [ancestors] lists exactly the paths above, nearest first. *)
Lemma ancestors_above fuel l a : length l <= fuel -> (a ∈ ancestors_loop fuel l <-> above l a).
Proof.
  revert l. induction fuel as [|fuel IH]; intros l Hl; simpl; rewrite elem_of_cons.
  - assert (parent_bytes l = None) as Hp.
    { destruct (parent_bytes l) as [p|] eqn:E; [|done]. apply parent_prefix in E as [_ ?]. lia. }
    rewrite elem_of_nil. split; [intros [->|[]]; apply rtc_refl|]. intros H. left.
    destruct H as [|? ? ? H _]; [done|congruence].
  - destruct (parent_bytes l) as [p|] eqn:Ep.
    + rewrite IH by (apply parent_prefix in Ep as [_ ?]; lia). split.
      * intros [->|H]; [apply rtc_refl|by eapply rtc_l].
      * intros H. destruct H as [|? ? ? H H']; [by left|]. right. by simplify_eq.
    + rewrite elem_of_nil. split; [intros [->|[]]; apply rtc_refl|]. intros H. left.
      destruct H as [|? ? ? H _]; [done|congruence].
Qed.

Lemma above_prefix l a : above l a -> a `prefix_of` l.
Proof. induction 1 as [|? ? ? H _ IH]; [done|]. apply parent_prefix in H as [? _]. by trans y. Qed.

(** Each ancestor in the list is longer than those that follow it. *)
Lemma ancestors_decrease fuel l :
  StronglySorted (fun a b => length b < length a) (ancestors_loop fuel l).
Proof.
  revert l. induction fuel as [|fuel IH]; intros l; simpl; [by repeat constructor|].
  destruct (parent_bytes l) as [p|] eqn:Ep; [|by repeat constructor]. constructor; [done|].
  apply parent_prefix in Ep as [_ Hlt]. specialize (IH p). destruct fuel as [|fuel]; simpl in *.
  - by repeat constructor.
  - inversion IH as [|? ? _ Hall]; subst. constructor; [done|]. eapply Forall_impl; [done|]. simpl. lia.
Qed.

Lemma bytes_of_string_of_bytes l : bytes_of_string (string_of_bytes l) = l.
Proof. apply String.list_ascii_of_string_of_list_ascii. Qed.

Lemma string_of_bytes_of_string s : string_of_bytes (bytes_of_string s) = s.
Proof. apply String.string_of_list_ascii_of_string. Qed.

Lemma elem_of_ancestors path a : a ∈ ancestors path <-> above (bytes_of_string path) (bytes_of_string a).
Proof.
  unfold ancestors. rewrite list_elem_of_fmap. split.
  - intros (l & -> & Hl). rewrite bytes_of_string_of_bytes. by apply ancestors_above in Hl.
  - intros H. exists (bytes_of_string a). by rewrite string_of_bytes_of_string, ancestors_above.
Qed.

(** What follows an ancestor in the list is shorter. *)
Lemma ancestors_after path l1 a l2 b :
  ancestors path = l1 ++ a :: l2 -> b ∈ l2 -> length (bytes_of_string b) < length (bytes_of_string a).
Proof.
  unfold ancestors. intros E Hb. set (l := ancestors_loop _ _) in E.
  assert (StronglySorted (fun a b => length b < length a) (bytes_of_string <$> (string_of_bytes <$> l))) as Hs.
  { rewrite <- list_fmap_compose, (list_fmap_ext _ id), list_fmap_id; [apply ancestors_decrease|].
    intros i x _. apply bytes_of_string_of_bytes. }
  rewrite E, fmap_app, fmap_cons in Hs. apply StronglySorted_app_1_r in Hs.
  apply StronglySorted_inv in Hs as [_ Hall]. rewrite Forall_fmap, Forall_forall in Hall. by apply Hall.
Qed.

Lemma length_bytes s : length (bytes_of_string s) = String.length s.
Proof. induction s; simpl; [done|]. by f_equal. Qed.

Lemma append_nil s : s = String.append s "".
Proof. induction s as [|c s IH]; [done|]. change (String c s = String c (String.append s "")). congruence. Qed.

Lemma length_append a b : String.length (String.append a b) = String.length a + String.length b.
Proof.
  induction a as [|c a IH]; [done|].
  change (S (String.length (String.append a b)) = S (String.length a + String.length b)). congruence.
Qed.

Lemma parent_shorter path dir : parent path = Some dir -> String.length dir < String.length path.
Proof.
  unfold parent. intros H. apply fmap_Some in H as (p & Hp & ->). apply parent_prefix in Hp as [_ H].
  by rewrite <- !length_bytes, bytes_of_string_of_bytes.
Qed.

(** [Path::parent] on the spellings its documentation and tests give. *)
Example parent_samples :
  map parent ["/foo/bar"; "foo/bar/"; "foo"; "/"; ""; "/foo"; "a//b"; "./a"; "a/./b"; "."; "//a"]%string =
  [Some "/foo"; Some "foo"; Some ""; None; None; Some "/"; Some "a"; Some "."; Some "a"; Some ""; Some "/"]%string.
Proof. vm_compute. reflexivity. Qed.

End Paths.
