(* ===== verification/Render.v ===== *)
(** * Text rendering of the standard library

    [Display] for the integers and for [f64], and [String::from_utf8_lossy], as
    the log-body mapping and the error messages use them. *)

From stdpp Require Import pretty.
From S2P Require Import Prelude Model Text.

Module Render.
Import Model.

Local Open Scope string_scope.
Local Open Scope list_scope.

(** [n.to_string()] for an unsigned and a signed integer. *)
Definition show_usize (n : nat) : string := pretty (N.of_nat n).
Definition show_u64 (n : N) : string := pretty n.
Definition show_i64 (z : Z) : string := pretty z.
Definition show_bool (b : bool) : string := if b then "true" else "false".

(** ** [String::from_utf8_lossy] *)

(** UTF-8 of U+FFFD. *)
Definition replacement : list byte := map ascii_of_N [239; 191; 189]%N.

Definition in_range (lo hi : N) (b : byte) : bool :=
  (lo <=? N_of_ascii b)%N && (N_of_ascii b <=? hi)%N.
Definition is_continuation : byte -> bool := in_range 128 191.

(** The ranges the bytes after a leading byte must fall in; [None] for a byte
    that cannot lead. *)
Definition expected_after (lead : byte) : option (list (byte -> bool)) :=
  if in_range 0 127 lead then Some []
  else if in_range 194 223 lead then Some [is_continuation]
  else if in_range 224 224 lead then Some [in_range 160 191; is_continuation]
  else if in_range 237 237 lead then Some [in_range 128 159; is_continuation]
  else if in_range 225 239 lead then Some [is_continuation; is_continuation]
  else if in_range 240 240 lead then Some [in_range 144 191; is_continuation; is_continuation]
  else if in_range 241 243 lead then Some [is_continuation; is_continuation; is_continuation]
  else if in_range 244 244 lead then Some [in_range 128 143; is_continuation; is_continuation]
  else None.

(** Consume the expected bytes; [Err rest] stops before the first mismatch. *)
Fixpoint take_expected (ranges : list (byte -> bool)) (l : list byte)
    : result (list byte) (list byte * list byte) :=
  match ranges with
  | [] => Ok ([], l)
  | ok :: ranges' =>
      match l with
      | b :: l' =>
          if ok b then
            match take_expected ranges' l' with
            | Ok (seen, rest) => Ok (b :: seen, rest)
            | Err rest => Err rest
            end
          else Err l
      | [] => Err []
      end
  end.

(** Each round consumes its leading byte. *)
Fixpoint lossy_loop (fuel : nat) (l : list byte) : list byte :=
  match fuel, l with
  | O, _ => []
  | _, [] => []
  | S fuel', b :: l' =>
      match expected_after b with
      | None => replacement ++ lossy_loop fuel' l'
      | Some ranges =>
          match take_expected ranges l' with
          | Ok (seen, rest) => b :: seen ++ lossy_loop fuel' rest
          | Err rest => replacement ++ lossy_loop fuel' rest
          end
      end
  end.

Definition from_utf8_lossy (l : list byte) : string :=
  Text.string_of_bytes (lossy_loop (length l) l).

(** ** [Display for f64]

    The shortest decimal that reads back as the same double, the nearest one
    among the shortest, printed without an exponent. *)

Local Open Scope Z_scope.

Definition f64_negative (x : f64) : bool := N.testbit x 63.

(** A positive double as [(mant, minus, plus, exp)]: the value is
    [mant * 2^exp], its rounding interval reaches from
    [(mant - minus) * 2^exp] to [(mant + plus) * 2^exp]. *)
Definition f64_interval (x : f64) : Z * Z * Z * Z :=
  let e := Z.of_N (f64_exponent x) in
  let m := Z.of_N (f64_mantissa x) in
  if e =? 0 then (2 * m, 1, 1, -1075)
  else if (m =? 0) && (1 <? e) then (2 ^ 54, 1, 2, e - 1077)
  else (2 * (m + 2 ^ 52), 1, 1, e - 1076).

(** Both ends of the interval read back when the mantissa is even. *)
Definition f64_inclusive (x : f64) : bool := N.even (f64_mantissa x).

(** Whether [d * 10^k] lies in the interval, with everything scaled to
    integers. *)
Definition in_interval (x : f64) (d k : Z) : bool :=
  let '(mant, minus, plus, e) := f64_interval x in
  let v := d * 10 ^ Z.max k 0 * Z.shiftl 1 (Z.max (- e) 0) in
  let unit := 10 ^ Z.max (- k) 0 * Z.shiftl 1 (Z.max e 0) in
  let lo := (mant - minus) * unit in
  let hi := (mant + plus) * unit in
  if f64_inclusive x then (lo <=? v) && (v <=? hi) else (lo <? v) && (v <? hi).

(** The multiples of [10^k] around the value; the nearer admissible one, the
    upper one on a tie. *)
Definition digits_at (x : f64) (k : Z) : option Z :=
  let '(mant, _, _, e) := f64_interval x in
  let num := mant * Z.shiftl 1 (Z.max e 0) * 10 ^ Z.max (- k) 0 in
  let den := Z.shiftl 1 (Z.max (- e) 0) * 10 ^ Z.max k 0 in
  let down := num / den in
  let up := down + 1 in
  let up_nearer := den <=? 2 * (num - down * den) in
  match (0 <? down) && in_interval x down k, in_interval x up k with
  | true, true => Some (if up_nearer then up else down)
  | true, false => Some down
  | false, true => Some up
  | false, false => None
  end.

(** The largest decimal exponent with an admissible multiple. *)
Fixpoint shortest (fuel : nat) (x : f64) (k : Z) : option (Z * Z) :=
  match fuel with
  | O => None
  | S fuel' =>
      match digits_at x k with
      | Some d => Some (d, k)
      | None => shortest fuel' x (k - 1)
      end
  end.

Definition zeros (n : Z) : string := Text.string_of_bytes (repeat "0"%char (Z.to_nat n)).

(** [d * 10^k] in positional notation. *)
Definition positional (d k : Z) : string :=
  let digits := show_i64 d in
  let len := Z.of_nat (String.length digits) in
  if 0 <=? k then String.append digits (zeros k)
  else if 0 <? len + k then
    String.append (String.substring 0 (Z.to_nat (len + k)) digits)
      (String.append "." (String.substring (Z.to_nat (len + k)) (Z.to_nat (- k)) digits))
  else String.append "0." (String.append (zeros (- (len + k))) digits).

(** The decimal exponents of the doubles lie between 308 and -324. *)
Definition show_f64 (x : f64) : string :=
  if f64_is_nan x then "NaN"
  else
    let sign := if f64_negative x then "-" else "" in
    String.append sign
      (if negb (f64_is_finite x) then "inf"
       else if f64_is_zero x then "0"
       else match shortest 634 x 309 with
            | Some (d, k) => positional d k
            | None => ""
            end).

(** ** Checks *)

Example lossy_replaces_maximal_subparts :
  from_utf8_lossy (map ascii_of_N [104; 240; 144; 105; 255; 226; 130; 172]%N)
  = Text.string_of_bytes (map ascii_of_N [104; 239; 191; 189; 105; 239; 191; 189; 226; 130; 172]%N).
Proof. reflexivity. Qed.

(** 0.1, 1.5, -0.0 and 1e21. *)
Example show_f64_samples :
  show_f64 4591870180066957722%N = "0.1" /\
  show_f64 4609434218613702656%N = "1.5" /\
  show_f64 (2 ^ 63)%N = "-0" /\
  show_f64 4921056587992461136%N = "1000000000000000000000".
Proof. vm_compute. repeat split. Qed.

(** ** Lemmas *)

Lemma take_expected_ok ranges l seen rest :
  take_expected ranges l = Ok (seen, rest) -> l = seen ++ rest.
Proof.
  revert l seen rest. induction ranges as [|ok ranges IH]; intros l seen rest H; simpl in H;
    [by simplify_eq|].
  destruct l as [|b l]; [done|]. destruct (ok b); [|done].
  destruct (take_expected ranges l) as [[s r]|] eqn:Ht; simplify_eq. simpl. by rewrite (IH _ _ _ Ht).
Qed.

(** ASCII text is kept as it is. *)
Lemma lossy_ascii l :
  Forall (fun b => in_range 0 127 b = true) l -> lossy_loop (length l) l = l.
Proof.
  induction 1 as [|b l Hb _ IH]; [done|]. simpl. unfold expected_after. rewrite Hb. simpl.
  by rewrite IH.
Qed.

(** ** Well-formed UTF-8 *)

(** A leading byte followed by bytes in the ranges it calls for. *)
Definition utf8_char (c : list byte) : Prop :=
  match c with
  | [] => False
  | b :: rest => exists ranges, expected_after b = Some ranges /\ Forall2 (fun ok x => ok x = true) ranges rest
  end.

Definition utf8 (l : list byte) : Prop := exists chars, Forall utf8_char chars /\ l = concat chars.

Lemma take_expected_ranges ranges l seen rest :
  take_expected ranges l = Ok (seen, rest) -> Forall2 (fun ok x => ok x = true) ranges seen.
Proof.
  revert l seen rest. induction ranges as [|ok ranges IH]; intros l seen rest H; simpl in H;
    [simplify_eq; constructor|].
  destruct l as [|b l]; [done|]. destruct (ok b) eqn:Hb; [|done].
  destruct (take_expected ranges l) as [[s r]|] eqn:Ht; simplify_eq. constructor; [done|by eapply IH].
Qed.

Lemma take_expected_app ranges seen rest :
  Forall2 (fun ok x => ok x = true) ranges seen -> take_expected ranges (seen ++ rest) = Ok (seen, rest).
Proof. induction 1 as [|ok x ranges seen Hx _ IH]; simpl; [done|]. by rewrite Hx, IH. Qed.

Lemma take_expected_err ranges l rest :
  take_expected ranges l = Err rest -> exists seen, l = seen ++ rest.
Proof.
  revert l. induction ranges as [|ok ranges IH]; intros l H; simpl in H; [done|].
  destruct l as [|b l]; [injection H as <-; by exists []|].
  destruct (ok b); [|injection H as <-; by exists []].
  destruct (take_expected ranges l) as [[s r]|r] eqn:Ht; [done|]. injection H as <-.
  destruct (IH _ Ht) as [seen ->]. by exists (b :: seen).
Qed.

(** What is kept of well-formed text is all of it. *)
Lemma lossy_utf8 l : utf8 l -> lossy_loop (length l) l = l.
Proof.
  intros (chars & Hc & ->).
  assert (forall fuel, (length (concat chars) <= fuel)%nat -> lossy_loop fuel (concat chars) = concat chars) as H;
    [|by apply H].
  induction Hc as [|c chars Hchar _ IH]; intros fuel Hf; [by destruct fuel|].
  destruct c as [|b rest]; [done|]. destruct Hchar as (ranges & He & Hr). cbn [concat app length] in *.
  destruct fuel as [|fuel]; [lia|]. cbn [lossy_loop]. rewrite He, take_expected_app by done.
  rewrite length_app in Hf. rewrite IH by lia. done.
Qed.

(** The result is always well-formed. *)
Lemma lossy_well_formed fuel l : utf8 (lossy_loop fuel l).
Proof.
  assert (utf8_char replacement) as Hrep.
  { eexists. split; [reflexivity|]. by repeat constructor. }
  assert (forall c l', utf8_char c -> utf8 l' -> utf8 (c ++ l')) as Hcons.
  { intros c l' Hc (chars & Hcs & ->). exists (c :: chars). split; [by constructor|done]. }
  revert l. induction fuel as [|fuel IH]; intros l; [by exists []|]. destruct l as [|b l]; [by exists []|].
  cbn [lossy_loop]. destruct (expected_after b) as [ranges|] eqn:He; [|by apply Hcons].
  destruct (take_expected ranges l) as [[seen rest]|rest] eqn:Ht; [|by apply Hcons].
  apply (Hcons (b :: seen)); [|done]. exists ranges. split; [done|]. by eapply take_expected_ranges.
Qed.

(** Text is kept exactly when it is well-formed. *)
Lemma lossy_exact l : lossy_loop (length l) l = l <-> utf8 l.
Proof. split; [intros <-; apply lossy_well_formed|apply lossy_utf8]. Qed.

(** Nothing but the replacement character is added. *)
Lemma lossy_elem fuel l x : x ∈ lossy_loop fuel l -> x ∈ replacement \/ x ∈ l.
Proof.
  revert l. induction fuel as [|fuel IH]; intros l; [by intros ?%not_elem_of_nil|].
  destruct l as [|b l]; [by intros ?%not_elem_of_nil|]. cbn [lossy_loop].
  destruct (expected_after b) as [ranges|].
  - destruct (take_expected ranges l) as [[seen rest]|rest] eqn:Ht.
    + apply take_expected_ok in Ht as ->. rewrite !elem_of_cons, !elem_of_app.
      intros [?|[?|?%IH]]; tauto.
    + apply take_expected_err in Ht as [seen ->]. rewrite elem_of_app, elem_of_cons, elem_of_app.
      intros [?|?%IH]; tauto.
  - rewrite elem_of_app, elem_of_cons. intros [?|?%IH]; tauto.
Qed.

End Render.
