(* ===== verification/Command.v ===== *)
(** * Pipeline messages and durability vocabulary
    ([crates/otel-sqlite-core/src/storage/{batch,command,durability}.rs]) *)

From S2P Require Import Prelude Time Model Text.

Module Command.
Import Time Model.

Local Open Scope string_scope.
Local Open Scope list_scope.

(** [WriteBatch<T>]: a vector wrapped by ownership transfer. *)
Record WriteBatch (T : Type) := from_vec { batch_records : list T }.
Arguments from_vec {T} _.
Arguments batch_records {T} _.

Definition WriteBatch_len {T} (b : WriteBatch T) : nat := length (batch_records b).
Definition WriteBatch_is_empty {T} (b : WriteBatch T) : bool :=
  match batch_records b with [] => true | _ => false end.
Definition into_records {T} (b : WriteBatch T) : list T := batch_records b.

Record BatchOrigin := {
  origin_resource : option Resource;
  origin_schema_url : string;
}.

Definition BatchOrigin_default : BatchOrigin :=
  {| origin_resource := None; origin_schema_url := "" |}.

(** The derived [PartialEq for BatchOrigin]. *)
Definition origin_eqb (a b : BatchOrigin) : bool :=
  match origin_resource a, origin_resource b with
  | None, None => true
  | Some x, Some y => resource_eqb x y
  | _, _ => false
  end && String.eqb (origin_schema_url a) (origin_schema_url b).

Record LogChunk := {
  chunk_origin : BatchOrigin;
  chunk_records : list LogRecord;
  chunk_commit_seq : N;
}.

Definition LogChunk_is_empty (c : LogChunk) : bool :=
  match chunk_records c with [] => true | _ => false end.

Inductive IngestMessage :=
| Logs (chunk : LogChunk)
| IngestFlush.

Definition set_commit_seq (m : IngestMessage) (seq : N) : IngestMessage :=
  match m with
  | Logs chunk =>
      Logs {| chunk_origin := chunk_origin chunk;
              chunk_records := chunk_records chunk;
              chunk_commit_seq := seq |}
  | IngestFlush => IngestFlush
  end.

Definition commit_seq (m : IngestMessage) : option N :=
  match m with
  | Logs chunk => Some (chunk_commit_seq chunk)
  | IngestFlush => None
  end.

Definition IngestMessage_record_count (m : IngestMessage) : nat :=
  match m with
  | Logs chunk => length (chunk_records chunk)
  | IngestFlush => 0
  end.

Record RecordSegment := mk_segment {
  seg_commit_seq : N;
  seg_records : nat;
  seg_complete : bool;
}.

#[export] Instance RecordSegment_eq_dec : EqDecision RecordSegment.
Proof. solve_decision. Defined.

Record LogWriteBatch := {
  lwb_origin : BatchOrigin;
  lwb_records : WriteBatch LogRecord;
  lwb_commit_seqs : list N;
  lwb_segments : list RecordSegment;
}.

Inductive CheckpointMode := Passive | Full | Restart_ | Truncate.

Definition CheckpointMode_as_str (m : CheckpointMode) : string :=
  match m with
  | Passive => "PASSIVE"
  | Full => "FULL"
  | Restart_ => "RESTART"
  | Truncate => "TRUNCATE"
  end.

Inductive MaintenanceOperation :=
| Analyze
| Vacuum
| RebuildFts
| Prune (window : option Duration).

Inductive WriteCommand :=
| InsertLogs (batch : LogWriteBatch)
| Flush
| Checkpoint (mode : CheckpointMode)
| Maintenance (operation : MaintenanceOperation).

Definition WriteCommand_record_count (c : WriteCommand) : nat :=
  match c with
  | InsertLogs batch => WriteBatch_len (lwb_records batch)
  | _ => 0
  end.

Definition kind (c : WriteCommand) : string :=
  match c with
  | InsertLogs _ => "insert_logs"
  | Flush => "flush"
  | Checkpoint _ => "checkpoint"
  | Maintenance _ => "maintenance"
  end.

Inductive DurabilityMode := Commit | Enqueue.

Definition DurabilityMode_as_str (m : DurabilityMode) : string :=
  match m with Commit => "commit" | Enqueue => "enqueue" end.

Definition DurabilityMode_parse (text : string) : option DurabilityMode :=
  let t := Text.to_ascii_lowercase (Text.trim text) in
  if String.eqb t "commit" then Some Commit
  else if String.eqb t "enqueue" then Some Enqueue
  else None.

Inductive SyncMode := SyncNormal | SyncFull.

Definition SyncMode_as_str (m : SyncMode) : string :=
  match m with SyncNormal => "NORMAL" | SyncFull => "FULL" end.

Definition SyncMode_parse (text : string) : option SyncMode :=
  let t := Text.to_ascii_lowercase (Text.trim text) in
  if String.eqb t "normal" then Some SyncNormal
  else if String.eqb t "full" then Some SyncFull
  else None.

(** The spellings the configuration prints parse back. *)
Lemma DurabilityMode_parse_as_str m : DurabilityMode_parse (DurabilityMode_as_str m) = Some m.
Proof. by destruct m. Qed.

Lemma SyncMode_parse_as_str m : SyncMode_parse (SyncMode_as_str m) = Some m.
Proof. by destruct m. Qed.

Example DurabilityMode_parse_trims : DurabilityMode_parse " ENQUEUE " = Some Enqueue.
Proof. reflexivity. Qed.

(** Origins whose resource holds no floating-point attribute: for these the
    derived comparison is equality. *)
Definition origin_no_double (o : BatchOrigin) : bool :=
  match origin_resource o with
  | Some r => resource_no_double r
  | None => true
  end.

Lemma origin_eqb_eq a b : origin_no_double a = true -> origin_eqb a b = true -> a = b.
Proof.
  destruct a as [ra ua], b as [rb ub]. unfold origin_eqb, origin_no_double. simpl.
  intros Hnd H. bool_to_prop. match goal with
  | H : String.eqb _ _ = true |- _ => apply String.eqb_eq in H as -> end.
  destruct ra, rb; try done. f_equal. f_equal. by apply resource_eqb_eq.
Qed.

End Command.
