(* ===== verification/CommitLedger.v ===== *)
(** * Commit-ticket ledger ([crates/otel-sqlite-core/src/storage/commit.rs])

    The registry of durability tickets: ingress issues and voids tickets, the
    writer reports progress and completes them, handlers wait on them.  The
    state keeps the source's representation (a contiguous watermark plus the
    tickets settled above it); [abstract] views it as a function from tickets
    to [TicketState], and the refinement lemmas show that every operation acts
    on that function.  A call is here the sequence of its mutex section
    ([settle_locked], [note], [close_locked]) and the publication that follows it
    outside the mutex ([publish]), run back to back; [LedgerConcurrency] has the
    two halves as separate steps of interleaved threads.  The batcher and the
    writer are proved against the interface [Ledger] and its laws [LedgerLaws]. *)

From S2P Require Import Prelude.

Module CommitLedger.

Local Open Scope N_scope.

(** ** Data *)

Record Watermark := {
  wm_committed_through : N;
  wm_closed : bool;
}.

Record TicketProgress := mk_progress {
  committed : N;
  dropped : N;
}.

Definition TicketProgress_default : TicketProgress := mk_progress 0 0.

Inductive TicketState :=
| Unsettled (progress : TicketProgress)
| Completed
| Failed (progress : TicketProgress).

Inductive CommitOutcome :=
| OutcomeCommitted
| OutcomeFailed (committed dropped : N)
| OutcomeClosed.

Record Inner := {
  settled_above : gset N;
  committed_through : N;
  progress : gmap N TicketProgress;
  failed : gset N;
  last_advance_ms : N;
  closed : bool;
}.

Record CommitLedger := {
  next_ticket : N;
  inner : Inner;
  updates : Watermark;
}.

Definition is_settled (i : Inner) (ticket : N) : bool :=
  (ticket <=? committed_through i) || bool_decide (ticket ∈ settled_above i).

(** ** Operations *)

Definition Inner_new (now_ms : N) : Inner :=
  {| settled_above := ∅; committed_through := 0; progress := ∅; failed := ∅;
     last_advance_ms := now_ms; closed := false |}.

Definition new (now_ms : N) : CommitLedger :=
  {| next_ticket := 0; inner := Inner_new now_ms;
     updates := {| wm_committed_through := 0; wm_closed := false |} |}.

Definition set_inner (l : CommitLedger) (i : Inner) : CommitLedger :=
  {| next_ticket := next_ticket l; inner := i; updates := updates l |}.

(** [fetch_add(1) + 1]. *)
Definition issue (l : CommitLedger) : N * CommitLedger :=
  (next_ticket l + 1,
   {| next_ticket := wrap_add (next_ticket l) 1; inner := inner l; updates := updates l |}).

Definition set_progress (i : Inner) (p : gmap N TicketProgress) : Inner :=
  {| settled_above := settled_above i; committed_through := committed_through i;
     progress := p; failed := failed i; last_advance_ms := last_advance_ms i;
     closed := closed i |}.

Definition progress_of (i : Inner) (ticket : N) : TicketProgress :=
  default TicketProgress_default (progress i !! ticket).

Definition add_committed (p : TicketProgress) (records : N) : TicketProgress :=
  mk_progress (sat_add (committed p) records) (dropped p).
Definition add_dropped (p : TicketProgress) (records : N) : TicketProgress :=
  mk_progress (committed p) (sat_add (dropped p) records).

(** [entry(ticket).or_default()] followed by the update of the entry. *)
Definition note (add : TicketProgress -> N -> TicketProgress) (i : Inner) (ticket records : N)
    : Inner :=
  if (ticket =? 0) || (records =? 0) then i
  else if is_settled i ticket then i
  else set_progress i (<[ticket := add (progress_of i ticket) records]> (progress i)).

Definition note_committed (l : CommitLedger) (ticket records : N) : CommitLedger :=
  set_inner l (note add_committed (inner l) ticket records).
Definition note_dropped (l : CommitLedger) (ticket records : N) : CommitLedger :=
  set_inner l (note add_dropped (inner l) ticket records).

(** [while settled_above.remove(&next) { committed_through = next; next += 1 }],
    with [next = committed_through + 1] on entry of every round. *)
Fixpoint absorb (fuel : nat) (above : gset N) (through : N) : gset N * N :=
  match fuel with
  | O => (above, through)
  | S fuel' =>
      let next := through + 1 in
      if bool_decide (next ∈ above) then absorb fuel' (above ∖ {[next]}) next
      else (above, through)
  end.

(** Every round removes a ticket, so one round per parked ticket suffices. *)
Definition absorb_all (above : gset N) (through : N) : gset N * N :=
  absorb (size above) above through.

(** The mutex section of [settle]; [None] is the early return that publishes
    nothing. *)
Definition settle_locked (now_ms : N) (i : Inner) (ticket : N) (voided : bool)
    : Inner * option Watermark :=
  if is_settled i ticket then (i, None)
  else
    let p := progress_of i ticket in
    let is_failed := negb voided && (0 <? dropped p) in
    let failed' := if is_failed then {[ticket]} ∪ failed i else failed i in
    let progress' := if is_failed then progress i else delete ticket (progress i) in
    let i' :=
      if ticket =? committed_through i + 1 then
        let (above, through) := absorb_all (settled_above i) ticket in
        {| settled_above := above; committed_through := through;
           progress := progress'; failed := failed';
           last_advance_ms := now_ms; closed := closed i |}
      else if committed_through i <? ticket then
        {| settled_above := {[ticket]} ∪ settled_above i;
           committed_through := committed_through i;
           progress := progress'; failed := failed';
           last_advance_ms := last_advance_ms i; closed := closed i |}
      else
        {| settled_above := settled_above i; committed_through := committed_through i;
           progress := progress'; failed := failed';
           last_advance_ms := last_advance_ms i; closed := closed i |} in
    (i', Some {| wm_committed_through := committed_through i'; wm_closed := closed i' |}).

(** [updates.send_replace(watermark)]. *)
Definition publish (l : CommitLedger) (w : option Watermark) : CommitLedger :=
  match w with
  | None => l
  | Some w => {| next_ticket := next_ticket l; inner := inner l; updates := w |}
  end.

(** [settle]: the mutex section, then the publication of its snapshot. *)
Definition settle (now_ms : N) (l : CommitLedger) (ticket : N) (voided : bool) : CommitLedger :=
  if ticket =? 0 then l
  else
    let (i, w) := settle_locked now_ms (inner l) ticket voided in
    publish (set_inner l i) w.

Definition complete (now_ms : N) (l : CommitLedger) (ticket : N) : CommitLedger :=
  settle now_ms l ticket false.
Definition void (now_ms : N) (l : CommitLedger) (ticket : N) : CommitLedger :=
  settle now_ms l ticket true.

Definition inner_state (i : Inner) (ticket : N) : TicketState :=
  if ticket =? 0 then Completed
  else if bool_decide (ticket ∈ failed i) then Failed (progress_of i ticket)
  else if is_settled i ticket then Completed
  else Unsettled (progress_of i ticket).

Definition state (l : CommitLedger) (ticket : N) : TicketState := inner_state (inner l) ticket.

(** The mutex section of [close]. *)
Definition close_locked (i : Inner) : Inner * Watermark :=
  ({| settled_above := settled_above i; committed_through := committed_through i;
      progress := progress i; failed := failed i;
      last_advance_ms := last_advance_ms i; closed := true |},
   {| wm_committed_through := committed_through i; wm_closed := true |}).

Definition close (l : CommitLedger) : CommitLedger :=
  let (i, w) := close_locked (inner l) in publish (set_inner l i) (Some w).

Definition watermark (l : CommitLedger) : Watermark := updates l.

Definition outstanding_tickets (l : CommitLedger) : N :=
  sat_sub (sat_sub (next_ticket l) (committed_through (inner l)))
          (N.of_nat (size (settled_above (inner l)))).

(** The [last_advance_ms] accessor. *)
Definition ledger_last_advance_ms (l : CommitLedger) : N := last_advance_ms (inner l).

(** One round of the [wait] loop: the watermark was read first, then the state
    of the ticket.  [None] goes on to [changed().await]. *)
Definition wait_round (w : Watermark) (s : TicketState) : option CommitOutcome :=
  match s with
  | Completed => Some OutcomeCommitted
  | Failed p => Some (OutcomeFailed (committed p) (dropped p))
  | Unsettled _ => if wm_closed w then Some OutcomeClosed else None
  end.

(** One round of the [wait_watermark] loop. *)
Definition wait_watermark_round (w : Watermark) (ticket : N) : option Watermark :=
  if (ticket <=? wm_committed_through w) || wm_closed w then Some w else None.

(** What [changed().await] delivers: another round with a fresh view, or the
    error of a dropped sender. *)
Inductive Wakeup (V : Type) :=
| Changed (view : V)
| SenderDropped.
Arguments Changed {V} _.
Arguments SenderDropped {V}.

(** [wait] on the views its rounds observe; [None] while still waiting. *)
Fixpoint wait_loop (ticket : N) (view : CommitLedger) (rest : list (Wakeup CommitLedger))
    : option CommitOutcome :=
  match wait_round (watermark view) (state view ticket) with
  | Some outcome => Some outcome
  | None =>
      match rest with
      | [] => None
      | SenderDropped :: _ => Some OutcomeClosed
      | Changed view' :: rest' => wait_loop ticket view' rest'
      end
  end.

Definition wait (ticket : N) (view : CommitLedger) (rest : list (Wakeup CommitLedger))
    : option CommitOutcome :=
  if ticket =? 0 then Some OutcomeCommitted else wait_loop ticket view rest.

Fixpoint wait_watermark_loop (ticket : N) (w : Watermark) (rest : list (Wakeup Watermark))
    : option Watermark :=
  match wait_watermark_round w ticket with
  | Some w' => Some w'
  | None =>
      match rest with
      | [] => None
      | SenderDropped :: _ =>
          Some {| wm_committed_through := wm_committed_through w; wm_closed := true |}
      | Changed w' :: rest' => wait_watermark_loop ticket w' rest'
      end
  end.

Definition wait_watermark (ticket : N) (w : Watermark) (rest : list (Wakeup Watermark))
    : option Watermark :=
  if ticket =? 0 then Some w else wait_watermark_loop ticket w rest.

(** [committed]: durable or not. *)
Definition committed_result (outcome : CommitOutcome) : result unit unit :=
  match outcome with
  | OutcomeCommitted => Ok tt
  | OutcomeFailed _ _ | OutcomeClosed => Err tt
  end.


(** ** Invariant *)

Record inner_inv (i : Inner) : Prop := {
  (** Parked tickets lie beyond the first unsettled one. *)
  inv_above : forall u, u ∈ settled_above i -> committed_through i + 1 < u;
  inv_failed : forall u, u ∈ failed i ->
    u ≠ 0 /\ is_settled i u = true /\ 0 < dropped (progress_of i u);
  inv_progress : forall u p, progress i !! u = Some p ->
    u ≠ 0 /\ (is_settled i u = true -> u ∈ failed i) /\
    committed p <= u64_max /\ dropped p <= u64_max;
}.

(** ** The abstract ledger *)

Definition settled_state (s : TicketState) : bool :=
  match s with Unsettled _ => false | _ => true end.

Definition abs_note (add : TicketProgress -> N -> TicketProgress)
    (f : N -> TicketState) (ticket records : N) (u : N) : TicketState :=
  if u =? ticket then
    match f ticket with Unsettled p => Unsettled (add p records) | s => s end
  else f u.

Definition abs_settle (f : N -> TicketState) (ticket : N) (voided : bool) (u : N) : TicketState :=
  if u =? ticket then
    match f ticket with
    | Unsettled p => if negb voided && (0 <? dropped p) then Failed p else Completed
    | s => s
    end
  else f u.

(** The watermark of a view: the largest [n] with every ticket up to [n]
    settled. *)
Definition watermark_of (f : N -> TicketState) (n : N) : Prop :=
  (forall u, u <= n -> settled_state (f u) = true) /\ settled_state (f (n + 1)) = false.

(** ** Lemmas *)

Lemma is_settled_true i u :
  is_settled i u = true <-> u <= committed_through i \/ u ∈ settled_above i.
Proof.
  unfold is_settled. rewrite orb_true_iff, N.leb_le, bool_decide_eq_true. done.
Qed.

Lemma absorb_spec fuel above through :
  (size above <= fuel)%nat -> (forall u, u ∈ above -> through < u) ->
  let (above', through') := absorb fuel above through in
  through <= through' /\ (forall u, u ∈ above' -> through' + 1 < u) /\
  (forall u, u <= through' \/ u ∈ above' <-> u <= through \/ u ∈ above) /\
  (size above' + N.to_nat through' = size above + N.to_nat through)%nat.
Proof.
  revert above through. induction fuel as [|fuel IH]; intros above through Hsz Hab.
  { apply Nat.le_0_r, size_empty_inv in Hsz. simpl.
    split; [lia|]. split; [intros u Hu; apply Hsz in Hu; set_solver|]. split; [done|done]. }
  simpl. case_bool_decide as Hin.
  - assert (size (above ∖ {[through + 1]}) = (size above - 1)%nat) as Hsz'.
    { rewrite size_difference by set_solver. by rewrite size_singleton. }
    assert (size above ≠ 0)%nat as Hne.
    { intros H%size_empty_inv. apply H in Hin. set_solver. }
    specialize (IH (above ∖ {[through + 1]}) (through + 1) ltac:(lia)).
    destruct (absorb fuel _ _) as [above' through'].
    destruct IH as (H1 & H2 & H3 & H4).
    { intros u [Hu Hnu]%elem_of_difference. apply Hab in Hu. rewrite elem_of_singleton in Hnu. lia. }
    split; [lia|]. split; [done|]. split; [|lia]. intros u. rewrite H3.
    rewrite elem_of_difference, elem_of_singleton.
    destruct (decide (u = through + 1)) as [->|]; [|intuition lia]. intuition lia.
  - split; [lia|]. split; [|done].
    intros u Hu. specialize (Hab u Hu). assert (u ≠ through + 1) by congruence. lia.
Qed.

(** The mutex section of [settle] on an unsettled ticket. *)
Lemma settle_locked_spec now_ms i ticket voided :
  inner_inv i -> ticket ≠ 0 -> is_settled i ticket = false ->
  let is_failed := negb voided && (0 <? dropped (progress_of i ticket)) in
  let i' := (settle_locked now_ms i ticket voided).1 in
  failed i' = (if is_failed then {[ticket]} ∪ failed i else failed i) /\
  progress i' = (if is_failed then progress i else delete ticket (progress i)) /\
  closed i' = closed i /\
  (forall u, is_settled i' u = (u =? ticket) || is_settled i u) /\
  (forall u, u ∈ settled_above i' -> committed_through i' + 1 < u) /\
  (size (settled_above i') + N.to_nat (committed_through i') =
     S (size (settled_above i) + N.to_nat (committed_through i)))%nat /\
  (settle_locked now_ms i ticket voided).2 =
    Some {| wm_committed_through := committed_through i'; wm_closed := closed i' |}.
Proof.
  intros Hinv Hnz Hns. unfold settle_locked. rewrite Hns.
  assert (~ (ticket <= committed_through i \/ ticket ∈ settled_above i)) as Hnot.
  { rewrite <- is_settled_true. by rewrite Hns. }
  destruct (ticket =? committed_through i + 1) eqn:Hnext; bool_to_prop.
  - pose proof (absorb_spec (size (settled_above i)) (settled_above i) ticket ltac:(done)) as Habs.
    unfold absorb_all. destruct (absorb _ _ _) as [above through].
    destruct Habs as (H1 & H2 & H3 & H4).
    { intros u Hu%Hinv. lia. }
    simpl. repeat split; try done; [|lia].
    intros u. apply Bool.eq_iff_eq_true. rewrite is_settled_true. simpl.
    rewrite H3, orb_true_iff, N.eqb_eq, is_settled_true. intuition lia.
  - assert ((committed_through i <? ticket) = true) as -> by (apply N.ltb_lt; lia).
    simpl. repeat split; try done.
    + intros u. apply Bool.eq_iff_eq_true. rewrite is_settled_true. simpl.
      rewrite elem_of_union, elem_of_singleton, orb_true_iff, N.eqb_eq, is_settled_true. tauto.
    + intros u [->%elem_of_singleton|Hu%Hinv]%elem_of_union; lia.
    + rewrite size_union by set_solver. rewrite size_singleton. lia.
Qed.

Lemma inner_state_settled i u :
  inner_inv i -> settled_state (inner_state i u) = is_settled i u.
Proof.
  intros Hinv. unfold inner_state. destruct (N.eqb_spec u 0) as [->|Hnz].
  { simpl. symmetry. apply is_settled_true. left. lia. }
  case_bool_decide as Hf; simpl; [symmetry; by apply Hinv|].
  by destruct (is_settled i u).
Qed.

Lemma unsettled_not_failed i u : inner_inv i -> is_settled i u = false -> u ∉ failed i.
Proof. intros Hinv Hs Hf. destruct (inv_failed i Hinv u Hf) as (_ & ? & _). congruence. Qed.

Lemma Inner_new_inv now_ms : inner_inv (Inner_new now_ms).
Proof. split; simpl; [set_solver..|]. intros u p. by rewrite lookup_empty. Qed.

Lemma note_inv add i ticket records :
  inner_inv i ->
  (forall p, committed p <= u64_max -> dropped p <= u64_max -> dropped p <= dropped (add p records) /\
     committed (add p records) <= u64_max /\ dropped (add p records) <= u64_max) ->
  inner_inv (note add i ticket records).
Proof.
  intros Hinv Hadd. unfold note. case_match eqn:Hz; [done|]. bool_to_prop.
  case_match eqn:Hs; [done|]. split; simpl.
  - apply Hinv.
  - intros u Hu. pose proof (inv_failed i Hinv u Hu) as (H1 & H2 & H3).
    split; [done|]. split; [done|]. unfold progress_of. simpl.
    rewrite lookup_insert_ne; [done|]. intros ->. unfold is_settled in *. simpl in *. congruence.
  - intros u p. destruct (decide (u = ticket)) as [->|Hne].
    + rewrite lookup_insert_eq. intros [= <-]. split; [done|]. split; [|].
      { unfold is_settled in *. simpl. congruence. }
      unfold progress_of. destruct (progress i !! ticket) as [q|] eqn:Hq; simpl.
      * apply (inv_progress i Hinv) in Hq as (_ & _ & ? & ?). split; by apply Hadd.
      * split; apply Hadd; simpl; unfold u64_max; lia.
    + rewrite lookup_insert_ne by done. apply Hinv.
Qed.

Lemma note_refines add i ticket records u :
  inner_inv i ->
  (forall p, committed p <= u64_max -> dropped p <= u64_max -> add p 0 = p) ->
  inner_state (note add i ticket records) u = abs_note add (inner_state i) ticket records u.
Proof.
  intros Hinv Hadd. unfold note, abs_note.
  destruct (N.eqb_spec ticket 0) as [->|Hnz]; simpl.
  { destruct (N.eqb_spec u 0) as [->|]; [done|done]. }
  assert (forall p, inner_state i ticket = Unsettled p -> committed p <= u64_max /\ dropped p <= u64_max) as Hb.
  { intros p. unfold inner_state, progress_of. intros H. repeat case_match; simplify_eq.
    destruct (progress i !! ticket) eqn:Hp; simpl; [|unfold u64_max; lia]. by apply (inv_progress i Hinv) in Hp as (_ & _ & ?). }
  destruct (N.eqb_spec records 0) as [->|Hr]; simpl.
  { destruct (N.eqb_spec u ticket) as [->|]; [|done].
    destruct (inner_state i ticket) eqn:Hst; [|done..]. f_equal. symmetry. apply Hadd; by apply Hb. }
  destruct (is_settled i ticket) eqn:Hs.
  { destruct (N.eqb_spec u ticket) as [->|]; [|done].
    pose proof (inner_state_settled i ticket Hinv) as H. rewrite Hs in H.
    by destruct (inner_state i ticket). }
  pose proof (unsettled_not_failed i ticket Hinv Hs) as Hnf.
  unfold inner_state at 1. unfold is_settled. simpl. fold (is_settled i u). unfold progress_of. simpl.
  destruct (N.eqb_spec u ticket) as [->|Hne].
  - unfold inner_state. rewrite (proj2 (N.eqb_neq _ _) Hnz), bool_decide_eq_false_2, Hs by done.
    rewrite lookup_insert_eq. done.
  - by rewrite lookup_insert_ne by done.
Qed.

Lemma settle_locked_inv now_ms i ticket voided :
  inner_inv i -> ticket ≠ 0 -> inner_inv (settle_locked now_ms i ticket voided).1.
Proof.
  intros Hinv Hnz. destruct (is_settled i ticket) eqn:Hs.
  { unfold settle_locked. by rewrite Hs. }
  destruct (settle_locked_spec now_ms i ticket voided Hinv Hnz Hs) as (Hf & Hp & _ & Hset & Hab & _).
  pose proof (unsettled_not_failed i ticket Hinv Hs) as Hnf.
  set (i' := (settle_locked now_ms i ticket voided).1) in *. clearbody i'.
  destruct (negb voided && (0 <? dropped (progress_of i ticket))) eqn:Hfail; split; try done.
  - intros u. rewrite Hf, Hset. unfold progress_of. rewrite Hp. fold (progress_of i u).
    intros [->%elem_of_singleton|Hu]%elem_of_union.
    + bool_to_prop. rewrite N.eqb_refl. done.
    + apply Hinv in Hu as (? & -> & ?). rewrite orb_true_r. done.
  - intros u p. rewrite Hp, Hf, Hset. intros Hu. apply (inv_progress i Hinv) in Hu as (? & Hsf & ?).
    split; [done|]. split; [|done]. intros [->%N.eqb_eq|Hu]%orb_true_iff; set_solver.
  - intros u. rewrite Hf, Hset. intros Hu. assert (u ≠ ticket) by congruence.
    unfold progress_of. rewrite Hp, lookup_delete_ne by done. fold (progress_of i u).
    apply Hinv in Hu as (? & -> & ?). by rewrite orb_true_r.
  - intros u p. rewrite Hp, Hf, Hset. intros [Hne Hu]%lookup_delete_Some.
    apply (inv_progress i Hinv) in Hu as (? & ? & ?). split; [done|]. split; [|done].
    rewrite (proj2 (N.eqb_neq u ticket)) by done. done.
Qed.

Lemma settle_locked_refines now_ms i ticket voided u :
  inner_inv i -> ticket ≠ 0 ->
  inner_state (settle_locked now_ms i ticket voided).1 u = abs_settle (inner_state i) ticket voided u.
Proof.
  intros Hinv Hnz. unfold abs_settle. destruct (is_settled i ticket) eqn:Hs.
  { unfold settle_locked. rewrite Hs. simpl. destruct (N.eqb_spec u ticket) as [->|]; [|done].
    pose proof (inner_state_settled i ticket Hinv) as H. rewrite Hs in H.
    by destruct (inner_state i ticket). }
  destruct (settle_locked_spec now_ms i ticket voided Hinv Hnz Hs) as (Hf & Hp & _ & Hset & _).
  pose proof (unsettled_not_failed i ticket Hinv Hs) as Hnf.
  set (i' := (settle_locked now_ms i ticket voided).1) in *. clearbody i'.
  unfold inner_state. rewrite Hf, Hset. unfold progress_of. rewrite Hp.
  fold (progress_of i u) (progress_of i ticket).
  destruct (N.eqb_spec u ticket) as [->|Hne]; simpl.
  - rewrite (proj2 (N.eqb_neq _ _) Hnz), (bool_decide_eq_false_2 (ticket ∈ failed i)), Hs by done.
    destruct (negb voided && _) eqn:Hfail.
    + by rewrite bool_decide_eq_true_2 by set_solver.
    + by rewrite bool_decide_eq_false_2 by done.
  - destruct (u =? 0) eqn:Hu0; [done|]. destruct (negb voided && _).
    + rewrite (bool_decide_ext _ (u ∈ failed i)) by set_solver. done.
    + by rewrite lookup_delete_ne by done.
Qed.


(** ** The whole ledger *)

Record ledger_inv (l : CommitLedger) : Prop := {
  inv_inner : inner_inv (inner l);
  inv_published : updates l =
    {| wm_committed_through := committed_through (inner l); wm_closed := closed (inner l) |};
  inv_issued : forall u, is_settled (inner l) u = true -> u <= next_ticket l;
  inv_width : next_ticket l <= u64_max;
}.

Lemma state_settled l u :
  ledger_inv l -> settled_state (state l u) = is_settled (inner l) u.
Proof. intros []. by apply inner_state_settled. Qed.

Lemma add_committed_ok records p :
  committed p <= u64_max -> dropped p <= u64_max ->
  dropped p <= dropped (add_committed p records) /\
  committed (add_committed p records) <= u64_max /\ dropped (add_committed p records) <= u64_max.
Proof. unfold add_committed, sat_add. simpl. lia. Qed.

Lemma add_dropped_ok records p :
  committed p <= u64_max -> dropped p <= u64_max ->
  dropped p <= dropped (add_dropped p records) /\
  committed (add_dropped p records) <= u64_max /\ dropped (add_dropped p records) <= u64_max.
Proof. unfold add_dropped, sat_add. simpl. lia. Qed.

Lemma add_committed_0 p : committed p <= u64_max -> dropped p <= u64_max -> add_committed p 0 = p.
Proof. intros ? _. destruct p. unfold add_committed, sat_add. simpl in *. f_equal. lia. Qed.

Lemma add_dropped_0 p : committed p <= u64_max -> dropped p <= u64_max -> add_dropped p 0 = p.
Proof. intros _ ?. destruct p. unfold add_dropped, sat_add. simpl in *. f_equal. lia. Qed.

Lemma note_frame add i ticket records :
  settled_above (note add i ticket records) = settled_above i /\
  committed_through (note add i ticket records) = committed_through i /\
  closed (note add i ticket records) = closed i.
Proof. unfold note. by repeat case_match. Qed.

Lemma note_is_settled add i ticket records u :
  is_settled (note add i ticket records) u = is_settled i u.
Proof. unfold is_settled. by destruct (note_frame add i ticket records) as (-> & -> & _). Qed.

Lemma new_inv now_ms : ledger_inv (new now_ms).
Proof.
  split; simpl; [apply Inner_new_inv|done| |unfold u64_max; lia].
  intros u. rewrite is_settled_true. simpl. set_solver by lia.
Qed.

Lemma issue_inv l : ledger_inv l -> next_ticket l < u64_max -> ledger_inv (issue l).2.
Proof.
  intros [] Hlt. unfold issue. rewrite wrap_add_small by lia.
  split; simpl; [done..| |lia]. intros u Hu%inv_issued0. lia.
Qed.

Lemma note_ledger_inv add l ticket records :
  (forall p, committed p <= u64_max -> dropped p <= u64_max -> dropped p <= dropped (add p records) /\
     committed (add p records) <= u64_max /\ dropped (add p records) <= u64_max) ->
  ledger_inv l -> ledger_inv (set_inner l (note add (inner l) ticket records)).
Proof.
  intros Hadd []. destruct (note_frame add (inner l) ticket records) as (Ha & Hc & Hcl).
  split; simpl; [by apply note_inv|by rewrite Hc, Hcl| |done].
  intros u. rewrite note_is_settled. apply inv_issued0.
Qed.

Lemma note_committed_inv l ticket records : ledger_inv l -> ledger_inv (note_committed l ticket records).
Proof. apply note_ledger_inv, add_committed_ok. Qed.

Lemma note_dropped_inv l ticket records : ledger_inv l -> ledger_inv (note_dropped l ticket records).
Proof. apply note_ledger_inv, add_dropped_ok. Qed.

Lemma settle_inner now_ms l ticket voided :
  ticket ≠ 0 -> inner (settle now_ms l ticket voided) = (settle_locked now_ms (inner l) ticket voided).1.
Proof.
  intros Hnz. unfold settle. rewrite (proj2 (N.eqb_neq _ _) Hnz).
  by destruct (settle_locked _ _ _ _) as [? []].
Qed.

Lemma settle_next now_ms l ticket voided :
  next_ticket (settle now_ms l ticket voided) = next_ticket l.
Proof. unfold settle. case_match; [done|]. by destruct (settle_locked _ _ _ _) as [? []]. Qed.

Lemma settle_inv now_ms l ticket voided :
  ledger_inv l -> ticket <= next_ticket l -> ledger_inv (settle now_ms l ticket voided).
Proof.
  intros [Hi Hp Hiss Hw] Hle. destruct (decide (ticket = 0)) as [->|Hnz]; [done|].
  destruct (is_settled (inner l) ticket) eqn:Hs.
  { unfold settle, settle_locked. rewrite (proj2 (N.eqb_neq _ _) Hnz), Hs. by split. }
  destruct (settle_locked_spec now_ms (inner l) ticket voided Hi Hnz Hs)
    as (_ & _ & Hc & Hset & _ & _ & Hpub).
  split; rewrite ?settle_next, ?settle_inner by done; [by apply settle_locked_inv| | |done].
  - unfold settle. rewrite (proj2 (N.eqb_neq _ _) Hnz).
    destruct (settle_locked _ _ _ _) as [i w]. simpl in *. by subst w.
  - intros u. rewrite Hset. intros [->%N.eqb_eq|Hu]%orb_true_iff; [done|by apply Hiss].
Qed.

Lemma close_inv l : ledger_inv l -> ledger_inv (close l).
Proof. intros [Hi Hp Hiss Hw]. split; simpl; [|done..]. by destruct Hi. Qed.

#[export] Hint Resolve new_inv issue_inv note_committed_inv note_dropped_inv settle_inv close_inv : otel.

(** ** Refinement of the abstract ledger *)

Lemma state_note_committed l ticket records u :
  ledger_inv l -> state (note_committed l ticket records) u = abs_note add_committed (state l) ticket records u.
Proof. intros []. apply note_refines; [done|apply add_committed_0]. Qed.

Lemma state_note_dropped l ticket records u :
  ledger_inv l -> state (note_dropped l ticket records) u = abs_note add_dropped (state l) ticket records u.
Proof. intros []. apply note_refines; [done|apply add_dropped_0]. Qed.

Lemma state_settle now_ms l ticket voided u :
  ledger_inv l -> state (settle now_ms l ticket voided) u = abs_settle (state l) ticket voided u.
Proof.
  intros []. destruct (decide (ticket = 0)) as [->|Hnz].
  - unfold settle, abs_settle. simpl. destruct (N.eqb_spec u 0) as [->|]; done.
  - unfold state. rewrite settle_inner by done. by apply settle_locked_refines.
Qed.

Lemma state_close l u : state (close l) u = state l u.
Proof. done. Qed.

Lemma state_issue l u : state (issue l).2 u = state l u.
Proof. done. Qed.

(** ** The interface other components rely on *)

Class Ledger (L : Type) := {
  led_inv : L -> Prop;
  led_issued : L -> N;
  led_state : L -> N -> TicketState;
  led_note_committed : L -> N -> N -> L;
  led_note_dropped : L -> N -> N -> L;
  led_settle : N -> L -> N -> bool -> L;
  led_close : L -> L;
}.

Class LedgerLaws (L : Type) `{Ledger L} := {
  led_note_committed_inv l t r : led_inv l -> led_inv (led_note_committed l t r);
  led_note_dropped_inv l t r : led_inv l -> led_inv (led_note_dropped l t r);
  led_settle_inv now l t v : led_inv l -> t <= led_issued l -> led_inv (led_settle now l t v);
  led_close_inv l : led_inv l -> led_inv (led_close l);
  led_issued_note_committed l t r : led_issued (led_note_committed l t r) = led_issued l;
  led_issued_note_dropped l t r : led_issued (led_note_dropped l t r) = led_issued l;
  led_issued_settle now l t v : led_issued (led_settle now l t v) = led_issued l;
  led_state_note_committed l t r u : led_inv l ->
    led_state (led_note_committed l t r) u = abs_note add_committed (led_state l) t r u;
  led_state_note_dropped l t r u : led_inv l ->
    led_state (led_note_dropped l t r) u = abs_note add_dropped (led_state l) t r u;
  led_state_settle now l t v u : led_inv l ->
    led_state (led_settle now l t v) u = abs_settle (led_state l) t v u;
  led_state_close l u : led_state (led_close l) u = led_state l u;
  led_bounded l t p : led_inv l -> led_state l t = Unsettled p ->
    committed p <= u64_max /\ dropped p <= u64_max;
  led_issued_close l : led_issued (led_close l) = led_issued l;
  led_settled_issued l t : led_inv l -> settled_state (led_state l t) = true -> t <= led_issued l;
}.

Lemma state_bounded l t p :
  ledger_inv l -> state l t = Unsettled p -> committed p <= u64_max /\ dropped p <= u64_max.
Proof.
  intros [Hinv _ _ _]. unfold state, inner_state, progress_of. intros H. repeat case_match; simplify_eq.
  destruct (progress (inner l) !! t) eqn:Hp; simpl; [|unfold u64_max; lia].
  by apply (inv_progress _ Hinv) in Hp as (_ & _ & ?).
Qed.

#[export] Instance CommitLedger_ops : Ledger CommitLedger := {
  led_inv := ledger_inv;
  led_issued := next_ticket;
  led_state := state;
  led_note_committed := note_committed;
  led_note_dropped := note_dropped;
  led_settle := settle;
  led_close := close;
}.

#[export] Instance CommitLedger_laws : LedgerLaws CommitLedger.
Proof.
  split; simpl; intros; auto with otel;
    first [apply settle_next | by apply state_note_committed | by apply state_note_dropped
          | by apply state_settle | by eapply state_bounded
          | by apply inv_issued; [|rewrite <- state_settled]].
Qed.

(** ** Sequences of operations *)

Inductive LedgerOp :=
| OpIssue
| OpNoteCommitted (ticket records : N)
| OpNoteDropped (ticket records : N)
| OpComplete (ticket : N)
| OpVoid (ticket : N)
| OpClose.

Definition apply_op (now_ms : N) (l : CommitLedger) (op : LedgerOp) : CommitLedger :=
  match op with
  | OpIssue => (issue l).2
  | OpNoteCommitted t r => note_committed l t r
  | OpNoteDropped t r => note_dropped l t r
  | OpComplete t => complete now_ms l t
  | OpVoid t => void now_ms l t
  | OpClose => close l
  end.

Definition abs_op (f : N -> TicketState) (op : LedgerOp) : N -> TicketState :=
  match op with
  | OpIssue | OpClose => f
  | OpNoteCommitted t r => abs_note add_committed f t r
  | OpNoteDropped t r => abs_note add_dropped f t r
  | OpComplete t => abs_settle f t false
  | OpVoid t => abs_settle f t true
  end.

(** Callers only settle tickets the ledger issued. *)
Definition op_allowed (l : CommitLedger) (op : LedgerOp) : bool :=
  match op with
  | OpIssue => next_ticket l <? u64_max
  | OpComplete t | OpVoid t => t <=? next_ticket l
  | _ => true
  end.

(** A history: each operation with the clock reading it saw. *)
Inductive reachable (start : CommitLedger) : CommitLedger -> Prop :=
| reachable_start : reachable start start
| reachable_op l now_ms op :
    reachable start l -> op_allowed l op = true -> reachable start (apply_op now_ms l op).

Fixpoint run_ops (now_ms : N) (l : CommitLedger) (ops : list LedgerOp) : option CommitLedger :=
  match ops with
  | [] => Some l
  | op :: ops' => if op_allowed l op then run_ops now_ms (apply_op now_ms l op) ops' else None
  end.

Lemma apply_op_inv now_ms l op :
  ledger_inv l -> op_allowed l op = true -> ledger_inv (apply_op now_ms l op).
Proof.
  destruct op; cbn [op_allowed apply_op]; intros; bool_to_prop; unfold complete, void;
    eauto with otel.
Qed.

Lemma reachable_inv start l : ledger_inv start -> reachable start l -> ledger_inv l.
Proof. induction 2; auto using apply_op_inv. Qed.

Lemma apply_op_refines now_ms l op u :
  ledger_inv l -> state (apply_op now_ms l op) u = abs_op (state l) op u.
Proof.
  intros Hinv. destruct op; simpl; [done| | | | |done];
    [by apply state_note_committed|by apply state_note_dropped|by apply state_settle..].
Qed.

Lemma abs_op_final f op u : settled_state (f u) = true -> abs_op f op u = f u.
Proof.
  intros Hs. destruct op; simpl; unfold abs_note, abs_settle; try done;
    destruct (N.eqb_spec u ticket) as [->|]; try done; by destruct (f ticket).
Qed.

Lemma reachable_run start l now_ms ops l' :
  reachable start l -> run_ops now_ms l ops = Some l' -> reachable start l'.
Proof.
  revert l. induction ops as [|op ops IH]; intros l Hr Hrun; simpl in Hrun; [by simplify_eq|].
  case_match; [|done]. eapply IH; [|done]. by constructor.
Qed.

(** ** Claims *)

(** C10: at every point of every history, each ledger operation acts on the
    tickets exactly as the abstract ledger does: a progress report adds to one
    unsettled ticket, a settlement turns one unsettled ticket into [Completed]
    or, when records of it were dropped and it is not voided, into [Failed]
    with its counts; no other ticket changes. *)
Theorem ledger_refines_abstract t0 l now_ms op u :
  reachable (new t0) l -> state (apply_op now_ms l op) u = abs_op (state l) op u.
Proof. intros Hr. apply apply_op_refines. eapply reachable_inv; [apply new_inv|done]. Qed.

Definition ops_out_of_order : list LedgerOp :=
  [OpIssue; OpIssue; OpIssue; OpNoteDropped 3 2; OpNoteCommitted 3 5; OpComplete 3; OpVoid 2].

Lemma ledger_refines_abstract_witness :
  exists l, run_ops 7 (new 0) ops_out_of_order = Some l /\
    state (apply_op 9 l (OpComplete 1)) 3 = abs_op (state l) (OpComplete 1) 3.
Proof.
  destruct (run_ops 7 (new 0) ops_out_of_order) as [l|] eqn:Hrun; [|by vm_compute in Hrun].
  exists l. split; [done|]. apply (ledger_refines_abstract 0 l 9 (OpComplete 1) 3).
  exact (reachable_run _ _ 7 ops_out_of_order l (reachable_start _) Hrun).
Defined.

(** Settlement is final: once a ticket is completed, voided or failed, no
    later operation of any history changes the state a waiter reads for it. *)
Theorem settled_is_final t0 l l' ticket :
  reachable (new t0) l -> reachable l l' -> settled_state (state l ticket) = true ->
  state l' ticket = state l ticket.
Proof.
  intros Hr Hr' Hs. pose proof (reachable_inv _ _ (new_inv t0) Hr) as Hinv.
  induction Hr' as [|l1 now_ms op Hr1 IH Hop]; [done|].
  rewrite apply_op_refines by (by eapply reachable_inv). rewrite abs_op_final; [done|].
  by rewrite IH.
Qed.

Lemma settled_is_final_witness :
  exists l l', run_ops 7 (new 0) ops_out_of_order = Some l /\
    run_ops 9 l [OpComplete 1; OpNoteCommitted 3 4; OpVoid 3; OpClose] = Some l' /\
    state l' 3 = state l 3.
Proof.
  destruct (run_ops 7 (new 0) ops_out_of_order) as [l|] eqn:Hrun; [|by vm_compute in Hrun].
  destruct (run_ops 9 l [OpComplete 1; OpNoteCommitted 3 4; OpVoid 3; OpClose]) as [l'|] eqn:Hrun';
    [|by vm_compute in Hrun; simplify_eq; vm_compute in Hrun'].
  exists l, l'. split; [done|]. split; [done|].
  apply (settled_is_final 0 l l' 3).
  - exact (reachable_run _ _ 7 ops_out_of_order l (reachable_start _) Hrun).
  - exact (reachable_run _ _ 9 _ l' (reachable_start _) Hrun').
  - vm_compute in Hrun. by simplify_eq.
Defined.


(** The tickets [1..n]. *)
Definition issued_tickets (n : N) : list N := N.of_nat <$> seq 1 (N.to_nat n).

Lemma elem_of_issued n u : u ∈ issued_tickets n <-> 1 <= u <= n.
Proof.
  unfold issued_tickets. rewrite list_elem_of_fmap. setoid_rewrite elem_of_seq. split.
  - intros (m & -> & ?). lia.
  - intros ?. exists (N.to_nat u). lia.
Qed.

Lemma NoDup_issued n : NoDup (issued_tickets n).
Proof. apply (NoDup_fmap_2 N.of_nat), NoDup_seq. Qed.

Lemma length_issued n : length (issued_tickets n) = N.to_nat n.
Proof. unfold issued_tickets. by rewrite length_fmap, length_seq. Qed.

Lemma settled_count l :
  ledger_inv l ->
  length (filter (fun t => settled_state (state l t) = false) (issued_tickets (next_ticket l))) =
  (N.to_nat (next_ticket l) - N.to_nat (committed_through (inner l)) - size (settled_above (inner l)))%nat.
Proof.
  intros Hinv. set (P := fun t => settled_state (state l t) = false).
  set (all := list_to_set (issued_tickets (next_ticket l)) : gset N).
  set (low := list_to_set (issued_tickets (committed_through (inner l))) : gset N).
  assert (list_to_set (filter P (issued_tickets (next_ticket l))) = all ∖ (low ∪ settled_above (inner l))) as Heq.
  { apply set_eq. intros u. unfold P, all, low.
    rewrite elem_of_list_to_set, list_elem_of_filter, elem_of_difference, elem_of_union,
      !elem_of_list_to_set, !elem_of_issued, state_settled, <- not_true_iff_false, is_settled_true by done.
    intuition lia. }
  assert (NoDup (filter P (issued_tickets (next_ticket l)))) as Hnd by (apply NoDup_filter, NoDup_issued).
  rewrite <- (size_list_to_set (C:=gset N) _ Hnd), Heq.
  assert (low ## settled_above (inner l)) as Hdisj.
  { intros u. unfold low. rewrite elem_of_list_to_set, elem_of_issued. intros Hlow Hab.
    apply (inv_above _ (inv_inner l Hinv)) in Hab. lia. }
  assert (low ∪ settled_above (inner l) ⊆ all) as Hsub.
  { intros u. unfold low, all. rewrite elem_of_union, !elem_of_list_to_set, !elem_of_issued.
    pose proof (inv_issued l Hinv u) as Hiss. rewrite is_settled_true in Hiss.
    intros [Hu|Hu]; [intuition lia|]. pose proof (inv_above _ (inv_inner l Hinv) u Hu). intuition lia. }
  rewrite size_difference, size_union by done. unfold all, low.
  rewrite !size_list_to_set, !length_issued by apply NoDup_issued. lia.
Qed.

(** [outstanding_tickets] is the number of issued tickets that are not
    settled, in every history: it is zero exactly when no ticket is in flight,
    and neither subtraction saturates. *)
Theorem outstanding_tickets_exact t0 l :
  reachable (new t0) l ->
  outstanding_tickets l =
  N.of_nat (length (filter (fun t => settled_state (state l t) = false) (issued_tickets (next_ticket l)))).
Proof.
  intros Hr. rewrite settled_count by (by eapply reachable_inv; [apply new_inv|]).
  unfold outstanding_tickets, sat_sub. lia.
Qed.

Lemma outstanding_tickets_exact_witness :
  exists l, run_ops 7 (new 0) ops_out_of_order = Some l /\ outstanding_tickets l = 1 /\
    outstanding_tickets l =
    N.of_nat (length (filter (fun t => settled_state (state l t) = false) (issued_tickets (next_ticket l)))).
Proof.
  destruct (run_ops 7 (new 0) ops_out_of_order) as [l|] eqn:Hrun; [|by vm_compute in Hrun].
  exists l. split; [done|]. split; [by vm_compute in Hrun; simplify_eq|].
  apply (outstanding_tickets_exact 0 l).
  exact (reachable_run _ _ 7 ops_out_of_order l (reachable_start _) Hrun).
Defined.

(** Whatever the views a [wait] observes, its answer is the truth of one
    of them: it reports a commit (or a failure) only for a view in which the
    ticket is completed (or failed with those counts), and [Closed] only when
    the ticket was unsettled at its last look and the pipeline was closed or
    its sender gone.  A settled ticket is reported as such even when the
    pipeline is closed. *)
Theorem wait_truthful ticket view rest outcome :
  ticket ≠ 0 -> wait ticket view rest = Some outcome ->
  exists v, (v = view \/ Changed v ∈ rest) /\
    match outcome with
    | OutcomeCommitted => state v ticket = Completed
    | OutcomeFailed c d => exists p, state v ticket = Failed p /\ committed p = c /\ dropped p = d
    | OutcomeClosed => settled_state (state v ticket) = false /\
        (wm_closed (watermark v) = true \/ SenderDropped ∈ rest)
    end.
Proof.
  intros Hnz. unfold wait. rewrite (proj2 (N.eqb_neq _ _) Hnz). revert view.
  induction rest as [|[v'|] rest IH]; intros view; simpl; unfold wait_round.
  - intros H. exists view. split; [by left|]. repeat case_match; simplify_eq; eauto.
  - destruct (state view ticket) eqn:Hst.
    1: destruct (wm_closed (watermark view)) eqn:Hc.
    2: { intros H%IH. destruct H as (v & Hv & H). exists v. split; [set_solver|].
         destruct outcome; [done..|]. set_solver. }
    all: intros [= <-]; exists view; (split; [by left|]); rewrite ?Hst; eauto.
  - intros H. exists view. split; [by left|]. destruct (state view ticket) eqn:Hst.
    + destruct (wm_closed (watermark view)) eqn:Hc; simplify_eq; (split; [done|]); [by left|].
      right. left.
    + by simplify_eq.
    + simplify_eq. eauto.
Qed.

Lemma wait_truthful_witness :
  exists l, run_ops 7 (new 0) (ops_out_of_order ++ [OpClose]) = Some l /\
    wait 3 (new 0) [Changed l] = Some (OutcomeFailed 5 2) /\
    exists v, (v = new 0 \/ Changed v ∈ [Changed l]) /\
      exists p, state v 3 = Failed p /\ committed p = 5 /\ dropped p = 2.
Proof.
  destruct (run_ops 7 (new 0) (ops_out_of_order ++ [OpClose])) as [l|] eqn:Hrun; [|by vm_compute in Hrun].
  exists l. assert (wait 3 (new 0) [Changed l] = Some (OutcomeFailed 5 2)) as Hw.
  { vm_compute in Hrun. by simplify_eq. }
  split; [done|]. split; [done|].
  exact (wait_truthful 3 (new 0) [Changed l] (OutcomeFailed 5 2) ltac:(done) Hw).
Defined.

End CommitLedger.
