(* ===== verification/LedgerConcurrency.v ===== *)
(** * Interleavings of ledger calls and a waiting handler
    ([crates/otel-sqlite-core/src/storage/commit.rs])

    Every mutating call of the ledger is a mutex section followed, outside the
    mutex, by [updates.send_replace(watermark)] of the snapshot taken inside.
    Here the two halves are separate steps, so that calls of several threads
    interleave as they can in the program, together with one handler inside
    [wait] or [wait_watermark] (handlers only read, so one stands for all).  The
    watch channel keeps its value and its version; [changed().await] returns once
    the version differs from the one last seen (its sender lives as long as the
    ledger the handler borrows).

    Nothing in the code keeps publications in the order of the sections they
    belong to.  A run is therefore indexed by whether they happen to be
    ([in_order]): what holds of every run is stated for both, and what needs the
    order says so. *)

From S2P Require Import Prelude CommitLedger.

Module LedgerConcurrency.
Import CommitLedger.

Local Open Scope N_scope.

(** The call the handler is in. *)
Inductive Call := CallWait | CallWaitWatermark.

Inductive Phase :=
| AtTop
| Observed (seen : nat) (view : Watermark)
| Sleeping (seen : nat)
| Done (outcome : CommitOutcome)
| Returned (view : Watermark).

Record Shared := {
  sh_inner : Inner;
  sh_value : Watermark;
  sh_version : nat;
  (** Snapshots taken under the mutex and not published yet. *)
  sh_pending : list Watermark;
  sh_phase : Phase;
}.

Definition initial (now_ms : N) : Shared :=
  {| sh_inner := Inner_new now_ms;
     sh_value := {| wm_committed_through := 0; wm_closed := false |};
     sh_version := 0; sh_pending := []; sh_phase := AtTop |}.

Definition with_inner (s : Shared) (i : Inner) (w : option Watermark) : Shared :=
  {| sh_inner := i; sh_value := sh_value s; sh_version := sh_version s;
     sh_pending := sh_pending s ++ option_list w; sh_phase := sh_phase s |}.

Definition with_phase (s : Shared) (p : Phase) : Shared :=
  {| sh_inner := sh_inner s; sh_value := sh_value s; sh_version := sh_version s;
     sh_pending := sh_pending s; sh_phase := p |}.

(** The round after [borrow_and_update]. *)
Definition round (call : Call) (ticket : N) (i : Inner) (seen : nat) (view : Watermark) : Phase :=
  match call with
  | CallWait =>
      match wait_round view (inner_state i ticket) with
      | Some outcome => Done outcome
      | None => Sleeping seen
      end
  | CallWaitWatermark =>
      match wait_watermark_round view ticket with
      | Some w => Returned w
      | None => Sleeping seen
      end
  end.

Inductive step (in_order : bool) (call : Call) (ticket : N) : Shared -> Shared -> Prop :=
| step_note_committed s t r :
    step in_order call ticket s (with_inner s (note add_committed (sh_inner s) t r) None)
| step_note_dropped s t r :
    step in_order call ticket s (with_inner s (note add_dropped (sh_inner s) t r) None)
| step_settle s now_ms t voided :
    t ≠ 0 ->
    step in_order call ticket s (with_inner s (settle_locked now_ms (sh_inner s) t voided).1
                                              (settle_locked now_ms (sh_inner s) t voided).2)
| step_close s :
    step in_order call ticket s (with_inner s (close_locked (sh_inner s)).1 (Some (close_locked (sh_inner s)).2))
| step_publish s pre w post :
    sh_pending s = pre ++ w :: post -> (in_order = true -> pre = []) ->
    step in_order call ticket s
      {| sh_inner := sh_inner s; sh_value := w; sh_version := S (sh_version s);
         sh_pending := pre ++ post; sh_phase := sh_phase s |}
| step_observe s :
    sh_phase s = AtTop ->
    step in_order call ticket s (with_phase s (Observed (sh_version s) (sh_value s)))
| step_check s seen view :
    sh_phase s = Observed seen view ->
    step in_order call ticket s (with_phase s (round call ticket (sh_inner s) seen view))
| step_wake s seen :
    sh_phase s = Sleeping seen -> seen ≠ sh_version s ->
    step in_order call ticket s (with_phase s AtTop).

(** [rtc] of stdpp: any finite interleaving. *)
Definition run (in_order : bool) (call : Call) (ticket : N) : Shared -> Shared -> Prop :=
  rtc (step in_order call ticket).

(** A call that nothing interrupts is its section and its publication. *)
Lemma settle_two_steps in_order call ticket now_ms l t voided version phase :
  t ≠ 0 ->
  let before := {| sh_inner := inner l; sh_value := updates l; sh_version := version;
                   sh_pending := []; sh_phase := phase |} in
  let l' := settle now_ms l t voided in
  exists version', run in_order call ticket before
    {| sh_inner := inner l'; sh_value := updates l'; sh_version := version';
       sh_pending := []; sh_phase := phase |}.
Proof.
  intros Ht before l'. pose proof (step_settle in_order call ticket before now_ms t voided Ht) as H1.
  unfold l', settle. rewrite (proj2 (N.eqb_neq t 0) Ht). simpl in H1. unfold with_inner in H1. simpl in H1.
  destruct (settle_locked now_ms (inner l) t voided) as [i [w|]]; simpl in *.
  - exists (S version). eapply rtc_l; [exact H1|]. eapply rtc_l; [by apply (step_publish _ _ _ _ [] w [])|]. apply rtc_refl.
  - exists version. eapply rtc_l; [exact H1|]. apply rtc_refl.
Qed.

(** ** Invariant *)

(** A watermark that covers nothing unsettled. *)
Definition honest (i : Inner) (w : Watermark) : Prop :=
  wm_committed_through w <= committed_through i /\ (wm_closed w = true -> closed i = true).

Definition snapshot (i : Inner) : Watermark :=
  {| wm_committed_through := committed_through i; wm_closed := closed i |}.

Definition phase_inv (call : Call) (ticket : N) (s : Shared) : Prop :=
  match sh_phase s with
  | AtTop => True
  | Observed seen view => (seen <= sh_version s)%nat /\ honest (sh_inner s) view /\
      (seen = sh_version s -> view = sh_value s)
  | Sleeping seen => (seen <= sh_version s)%nat /\
      match call with
      | CallWait =>
          (is_settled (sh_inner s) ticket = true -> (seen < sh_version s)%nat \/ sh_pending s ≠ []) /\
          (seen = sh_version s -> wm_closed (sh_value s) = false)
      | CallWaitWatermark => seen = sh_version s -> wait_watermark_round (sh_value s) ticket = None
      end
  | Done OutcomeCommitted => inner_state (sh_inner s) ticket = Completed
  | Done (OutcomeFailed c d) => exists p,
      inner_state (sh_inner s) ticket = Failed p /\ committed p = c /\ dropped p = d
  | Done OutcomeClosed => closed (sh_inner s) = true
  | Returned w => honest (sh_inner s) w /\ wait_watermark_round w ticket = Some w
  end.

Record conc_inv (in_order : bool) (call : Call) (ticket : N) (s : Shared) : Prop := {
  ci_inner : inner_inv (sh_inner s);
  ci_value : honest (sh_inner s) (sh_value s);
  ci_pending : Forall (honest (sh_inner s)) (sh_pending s);
  ci_latest : in_order = true -> last (sh_value s :: sh_pending s) = Some (snapshot (sh_inner s));
  ci_phase : phase_inv call ticket s;
}.

(** What a mutex section may do to the state. *)
Record grows (i i' : Inner) : Prop := {
  grows_inv : inner_inv i -> inner_inv i';
  grows_through : inner_inv i -> committed_through i <= committed_through i';
  grows_closed : closed i = true -> closed i' = true;
  grows_final : forall u, inner_inv i -> is_settled i u = true ->
    is_settled i' u = true /\ inner_state i' u = inner_state i u;
}.

Lemma honest_grows i i' w : inner_inv i -> grows i i' -> honest i w -> honest i' w.
Proof. intros Hi [] [? ?]. split; [|auto]. specialize (grows_through0 Hi). lia. Qed.

Lemma grows_refinement i i' f :
  (inner_inv i -> inner_inv i') ->
  (inner_inv i -> committed_through i <= committed_through i') ->
  (closed i = true -> closed i' = true) ->
  (forall u, inner_inv i -> inner_state i' u = f u) ->
  (forall u, settled_state (inner_state i u) = true -> f u = inner_state i u) ->
  grows i i'.
Proof.
  intros Hi Ht Hc Hf Hfin. split; [done..|]. intros u Hinv Hs.
  rewrite <- inner_state_settled in * by auto. rewrite Hf, Hfin by done. done.
Qed.

Lemma note_grows add i t r :
  (forall p, committed p <= u64_max -> dropped p <= u64_max -> dropped p <= dropped (add p r) /\
     committed (add p r) <= u64_max /\ dropped (add p r) <= u64_max) ->
  (forall p, committed p <= u64_max -> dropped p <= u64_max -> add p 0 = p) ->
  grows i (note add i t r).
Proof.
  intros Hadd H0. destruct (note_frame add i t r) as (Ha & Hc & Hcl).
  apply (grows_refinement _ _ (abs_note add (inner_state i) t r)).
  - intros. by apply note_inv.
  - intros. rewrite Hc. done.
  - by rewrite Hcl.
  - intros. by apply note_refines.
  - intros u Hu. unfold abs_note. destruct (N.eqb_spec u t) as [->|]; [|done].
    by destruct (inner_state i t).
Qed.

Lemma settle_grows now_ms i t voided :
  t ≠ 0 -> grows i (settle_locked now_ms i t voided).1.
Proof.
  intros Hnz. apply (grows_refinement _ _ (abs_settle (inner_state i) t voided)).
  - intros. by apply settle_locked_inv.
  - intros Hinv. unfold settle_locked. case_match eqn:Hs; [done|].
    pose proof (absorb_spec (size (settled_above i)) (settled_above i) t ltac:(done)) as Habs.
    unfold absorb_all. destruct (absorb _ _ _) as [above through]. simpl.
    destruct (t =? committed_through i + 1) eqn:Hn; bool_to_prop; simpl.
    + destruct Habs as (Hle & _); [intros u Hu%(inv_above i Hinv)|]; lia.
    + by case_match.
  - unfold settle_locked. intros Hc. repeat case_match; simplify_eq/=; done.
  - intros. by apply settle_locked_refines.
  - intros u Hu. apply (abs_op_final _ (if voided then OpVoid t else OpComplete t)) in Hu.
    by destruct voided.
Qed.

Lemma close_grows i : grows i (close_locked i).1.
Proof. split; simpl; [by intros []|done..]. Qed.

Lemma phase_inv_grows call ticket s i w :
  inner_inv (sh_inner s) -> grows (sh_inner s) i ->
  (is_settled i ticket = true -> is_settled (sh_inner s) ticket = true \/ is_Some w) ->
  phase_inv call ticket s -> phase_inv call ticket (with_inner s i w).
Proof.
  intros Hi Hg Hset. unfold phase_inv. simpl.
  assert (forall st, settled_state st = true -> inner_state (sh_inner s) ticket = st ->
    inner_state i ticket = st) as Hst.
  { intros st Hs <-. apply Hg; [done|]. by rewrite <- inner_state_settled. }
  destruct (sh_phase s) as [|seen view|seen|[|c d|]|view]; [done| | | | | |].
  - intros (? & ? & ?). split_and!; [done|by eapply honest_grows|done].
  - intros [Hle Hw]. split; [done|]. destruct call; [|done]. destruct Hw as [Hw Hcl]. split; [|done].
    intros [Hs|[x ->]]%Hset.
    + destruct (Hw Hs) as [?|Hp]; [by left|]. right. by destruct (sh_pending s).
    + right. by destruct (sh_pending s).
  - by apply Hst.
  - intros (p & Hp & ?). exists p. split; [by apply Hst|done].
  - apply Hg.
  - intros [Hh ?]. split; [by eapply honest_grows|done].
Qed.

(** A section that publishes appends its snapshot; one that does not leaves it. *)
Lemma with_inner_inv in_order call ticket s i w :
  conc_inv in_order call ticket s -> grows (sh_inner s) i ->
  match w with Some x => x = snapshot i | None => snapshot i = snapshot (sh_inner s) end ->
  (is_settled i ticket = true -> is_settled (sh_inner s) ticket = true \/ is_Some w) ->
  conc_inv in_order call ticket (with_inner s i w).
Proof.
  intros [Hi Hv Hp Hl Hph] Hg Hw Hset. split; simpl.
  - by apply Hg.
  - by eapply honest_grows.
  - apply Forall_app. split.
    + eapply Forall_impl; [done|]. intros. by eapply honest_grows.
    + destruct w; simpl; [|done]. constructor; [|done]. subst. by split; simpl.
  - intros Ho. destruct w as [x|]; simpl option_list.
    + rewrite app_comm_cons, last_snoc. by f_equal.
    + rewrite app_nil_r, Hw. by apply Hl.
  - by apply phase_inv_grows.
Qed.

Lemma settle_snapshot now_ms i t voided :
  match (settle_locked now_ms i t voided).2 with
  | Some x => x = snapshot (settle_locked now_ms i t voided).1
  | None => snapshot (settle_locked now_ms i t voided).1 = snapshot i
  end.
Proof. unfold settle_locked, snapshot. repeat case_match; simplify_eq/=; done. Qed.

Lemma round_inv call ticket s seen view :
  inner_inv (sh_inner s) -> (seen <= sh_version s)%nat -> honest (sh_inner s) view ->
  (seen = sh_version s -> view = sh_value s) ->
  phase_inv call ticket (with_phase s (round call ticket (sh_inner s) seen view)).
Proof.
  intros Hi Hle Hh Hview. unfold phase_inv, round. destruct call; simpl.
  - unfold wait_round. pose proof (inner_state_settled (sh_inner s) ticket Hi) as Hset.
    destruct (inner_state (sh_inner s) ticket) eqn:Hst; simpl in *; [|done|eauto].
    destruct (wm_closed view) eqn:Hc; simpl; [by apply Hh|]. split; [done|]. split; [by rewrite <- Hset|].
    intros E. by rewrite <- (Hview E).
  - unfold wait_watermark_round. destruct (_ || _) eqn:E; simpl; [by rewrite E|]. split; [done|].
    intros Hs. by rewrite <- (Hview Hs), E.
Qed.

Lemma step_inv in_order call ticket s s' :
  step in_order call ticket s s' -> conc_inv in_order call ticket s -> conc_inv in_order call ticket s'.
Proof.
  intros Hstep Hinv. pose proof Hinv as [Hi Hv Hp Hl Hph].
  destruct Hstep as [s t r|s t r|s now_ms t voided Ht|s|s pre w post Hpend Hord|s Hs|s seen view Hs|s seen Hs Hne].
  - apply with_inner_inv; [done| | |].
    + apply note_grows; [apply add_committed_ok|apply add_committed_0].
    + destruct (note_frame add_committed (sh_inner s) t r) as (_ & Hc & Hcl). unfold snapshot. congruence.
    + rewrite note_is_settled. by left.
  - apply with_inner_inv; [done| | |].
    + apply note_grows; [apply add_dropped_ok|apply add_dropped_0].
    + destruct (note_frame add_dropped (sh_inner s) t r) as (_ & Hc & Hcl). unfold snapshot. congruence.
    + rewrite note_is_settled. by left.
  - apply with_inner_inv; [done|by apply settle_grows|apply settle_snapshot|].
    unfold settle_locked. destruct (is_settled (sh_inner s) t); [by left|by right].
  - apply with_inner_inv; [done|apply close_grows|done|by right].
  - rewrite Hpend in Hp. apply Forall_app in Hp as [Hp1 [Hw Hp2]%Forall_cons].
    split; simpl; [done|done|by apply Forall_app| |].
    + intros Ho. rewrite (Hord Ho) in *. specialize (Hl Ho). rewrite Hpend in Hl. exact Hl.
    + revert Hph. unfold phase_inv. simpl. destruct (sh_phase s) as [|seen view|seen|[]|]; try done.
      * intros (? & ? & _). split_and!; [lia|done|lia].
      * intros [? Hs]. split; [lia|]. destruct call; [|lia]. split; [left; lia|lia].
  - split; simpl; [done..|]. unfold phase_inv. simpl. by split_and!.
  - unfold phase_inv in Hph. rewrite Hs in Hph. destruct Hph as (? & ? & ?). split; [done..|]. by apply round_inv.
  - split; simpl; [done..|]. done.
Qed.

Lemma initial_inv in_order call ticket now_ms : conc_inv in_order call ticket (initial now_ms).
Proof. split; simpl; [apply Inner_new_inv| |constructor|done|done]. split; simpl; [lia|done]. Qed.

Lemma run_inv in_order call ticket now_ms s :
  run in_order call ticket (initial now_ms) s -> conc_inv in_order call ticket s.
Proof.
  intros H. pose proof (initial_inv in_order call ticket now_ms) as Hinv.
  induction H as [|x y z Hstep _ IH]; [done|]. eauto using step_inv.
Qed.

(** Under the mutex the watermark is the largest prefix of settled tickets. *)
Lemma inner_watermark i : inner_inv i -> watermark_of (inner_state i) (committed_through i).
Proof.
  intros Hi. unfold watermark_of. setoid_rewrite inner_state_settled; [|done..]. split.
  - intros u Hu. apply is_settled_true. by left.
  - apply not_true_iff_false. rewrite is_settled_true. intros [?|Hin]; [lia|].
    apply (inv_above _ Hi) in Hin. lia.
Qed.

(** With every publication done in order, the published watermark is current. *)
Lemma published_current call ticket s :
  conc_inv true call ticket s -> sh_pending s = [] -> sh_value s = snapshot (sh_inner s).
Proof. intros Hinv Hp. pose proof (ci_latest _ _ _ _ Hinv eq_refl) as Hl. rewrite Hp in Hl. by injection Hl. Qed.

(** ** Claims *)

(** C9: The watermark is contiguous, in every interleaving of ledger calls and
    publications: under the mutex it is exactly the largest [n] such that all
    tickets [1..n] are settled, and no watermark that is published, on its way or
    returned to a handler covers an unsettled ticket.  When publications keep the
    order of their sections, the published one is that largest [n] as soon as
    none is on its way (out of order it can stay behind,
    [watermark_can_be_stale]). *)
Theorem watermark_contiguous in_order call ticket now_ms s :
  run in_order call ticket (initial now_ms) s ->
  watermark_of (inner_state (sh_inner s)) (committed_through (sh_inner s)) /\
  (forall w u, w = sh_value s \/ w ∈ sh_pending s \/ sh_phase s = Returned w ->
     u <= wm_committed_through w -> settled_state (inner_state (sh_inner s) u) = true) /\
  (in_order = true -> sh_pending s = [] ->
     watermark_of (inner_state (sh_inner s)) (wm_committed_through (sh_value s))).
Proof.
  intros Hrun. apply run_inv in Hrun as Hinv. pose proof Hinv as [Hi Hv Hp _ Hph].
  pose proof (inner_watermark _ Hi) as Hwm. split_and!; [done| |].
  - intros w u Hw Hu. apply Hwm. enough (honest (sh_inner s) w) as [? _] by lia.
    destruct Hw as [->|[Hw|Hw]]; [done|by rewrite Forall_forall in Hp; apply Hp|].
    unfold phase_inv in Hph. rewrite Hw in Hph. apply Hph.
  - intros -> Hnone. by rewrite (published_current _ _ _ Hinv Hnone).
Qed.

(** C11: in every interleaving of ledger calls and publications, the answer a
    handler got is true of the ledger and stays true.  From [wait]: [Committed]
    means its ticket is completed, [Failed] that it settled with exactly these
    committed and dropped counts, [Closed] that the pipeline was closed.  From
    [wait_watermark]: every ticket up to the handler's is settled, or the pipeline
    was closed.  And the published watermark never runs ahead of the ledger. *)
Theorem wait_sound_interleaved in_order call ticket now_ms s :
  run in_order call ticket (initial now_ms) s ->
  wm_committed_through (sh_value s) <= committed_through (sh_inner s) /\
  match sh_phase s with
  | Done OutcomeCommitted => inner_state (sh_inner s) ticket = Completed
  | Done (OutcomeFailed c d) => exists p,
      inner_state (sh_inner s) ticket = Failed p /\ committed p = c /\ dropped p = d
  | Done OutcomeClosed => closed (sh_inner s) = true
  | Returned w => closed (sh_inner s) = true \/
      forall u, u <= ticket -> settled_state (inner_state (sh_inner s) u) = true
  | _ => True
  end.
Proof.
  intros Hrun. destruct (run_inv _ _ _ _ _ Hrun) as [Hi [Hv _] _ _ Hph].
  split; [done|]. unfold phase_inv in Hph. destruct (sh_phase s) as [| | |[]|w]; try done.
  destruct Hph as [[Hle Hcl] Hround]. unfold wait_watermark_round in Hround.
  destruct (wm_closed w); [by left; apply Hcl|right]. rewrite orb_false_r in Hround.
  destruct (N.leb_spec ticket (wm_committed_through w)); [|done].
  intros u Hu. apply (inner_watermark _ Hi). lia.
Qed.

(** C12: no settlement is missed.  A handler asleep in [changed().await] that
    nothing in flight will wake: in [wait] its ticket is still unsettled, in every
    interleaving; in [wait_watermark] the published watermark is open and below
    its ticket, and, when publications keep the order of their sections, some
    ticket up to its own is still unsettled.  In that order neither sleeps on a
    closed ledger.  (Out of order [wait_watermark], which the export handler
    calls, can be left asleep with everything settled, [watermark_can_be_stale],
    and both with the ledger closed, [close_can_be_overwritten].) *)
Theorem no_lost_settlement in_order call ticket now_ms s :
  run in_order call ticket (initial now_ms) s ->
  sh_phase s = Sleeping (sh_version s) -> sh_pending s = [] ->
  match call with
  | CallWait => settled_state (inner_state (sh_inner s) ticket) = false
  | CallWaitWatermark =>
      wm_committed_through (sh_value s) < ticket /\ wm_closed (sh_value s) = false /\
      (in_order = true -> exists u, 1 <= u <= ticket /\ settled_state (inner_state (sh_inner s) u) = false)
  end /\
  (in_order = true -> closed (sh_inner s) = false).
Proof.
  intros Hrun Hph Hpend. apply run_inv in Hrun as Hinv. pose proof Hinv as [Hi _ _ _ Hp].
  unfold phase_inv in Hp. rewrite Hph in Hp. destruct Hp as [_ Hp].
  assert (wm_closed (sh_value s) = false -> in_order = true -> closed (sh_inner s) = false) as Hclosed.
  { intros Hc ->. by rewrite (published_current _ _ _ Hinv Hpend) in Hc. }
  destruct call.
  - destruct Hp as [Hset Hcl]. split; [|auto]. rewrite inner_state_settled by done.
    apply not_true_iff_false. intros [?|?]%Hset; [lia|done].
  - specialize (Hp eq_refl). unfold wait_watermark_round in Hp.
    destruct (N.leb_spec ticket (wm_committed_through (sh_value s))) as [|Hlt]; [done|].
    destruct (wm_closed (sh_value s)) eqn:Hc; [done|]. split; [|auto]. split_and!; [done..|].
    intros ->. rewrite (published_current _ _ _ Hinv Hpend) in Hlt. simpl in Hlt.
    exists (committed_through (sh_inner s) + 1). split; [lia|]. by apply inner_watermark.
Qed.

(** ** Runs *)

(** One settlement and one waiter that observes it. *)
Definition settled_once : Shared :=
  {| sh_inner := (settle_locked 5 (Inner_new 0) 1 false).1;
     sh_value := {| wm_committed_through := 0; wm_closed := false |};
     sh_version := 0;
     sh_pending := [{| wm_committed_through := 1; wm_closed := false |}];
     sh_phase := Done OutcomeCommitted |}.

Lemma settled_once_run : run true CallWait 1 (initial 0) settled_once.
Proof.
  eapply rtc_l; [apply (step_settle _ _ _ _ 5 1 false); done|].
  eapply rtc_l; [apply step_observe; done|].
  eapply rtc_l; [eapply step_check; simpl; done|]. apply rtc_refl.
Qed.

Lemma wait_sound_interleaved_witness :
  sh_phase settled_once = Done OutcomeCommitted /\
  inner_state (sh_inner settled_once) 1 = Completed.
Proof.
  split; [done|]. exact (proj2 (wait_sound_interleaved true CallWait 1 0 settled_once settled_once_run)).
Defined.

(** Ticket 2 settles before ticket 1 and nothing is on its way. *)
Definition parked : Shared :=
  {| sh_inner := (settle_locked 5 (Inner_new 0) 2 false).1;
     sh_value := {| wm_committed_through := 0; wm_closed := false |};
     sh_version := 1; sh_pending := []; sh_phase := Sleeping 1 |}.

Lemma parked_run : run true CallWaitWatermark 2 (initial 0) parked.
Proof.
  eapply rtc_l; [apply (step_settle _ _ _ _ 5 2 false); done|].
  eapply rtc_l; [by apply (step_publish _ _ _ _ [] {| wm_committed_through := 0; wm_closed := false |} [])|].
  eapply rtc_l; [apply step_observe; done|].
  eapply rtc_l; [eapply step_check; simpl; done|]. apply rtc_refl.
Qed.

Lemma watermark_contiguous_witness :
  watermark_of (inner_state (sh_inner parked)) 0 /\ settled_state (inner_state (sh_inner parked) 2) = true.
Proof.
  destruct (watermark_contiguous true CallWaitWatermark 2 0 parked parked_run) as (H & _ & _).
  split; [exact H|vm_compute; reflexivity].
Defined.

Lemma no_lost_settlement_witness :
  (exists u, 1 <= u <= 2 /\ settled_state (inner_state (sh_inner parked) u) = false) /\
  closed (sh_inner parked) = false.
Proof.
  destruct (no_lost_settlement true CallWaitWatermark 2 0 parked parked_run eq_refl eq_refl) as [(_ & _ & H) Hc].
  split; [exact (H eq_refl)|exact (Hc eq_refl)].
Defined.

(** Two settlements whose publications arrive in the other order leave the older
    watermark: everything up to the handler's ticket is settled, nothing is on its
    way, and the handler sleeps in [wait_watermark] until a later call publishes. *)
Theorem watermark_can_be_stale :
  exists s, run false CallWaitWatermark 2 (initial 0) s /\
    (forall u, u <= 2 -> settled_state (inner_state (sh_inner s) u) = true) /\
    wm_committed_through (sh_value s) = 1 /\ sh_pending s = [] /\ sh_phase s = Sleeping (sh_version s).
Proof.
  set (w1 := {| wm_committed_through := 1; wm_closed := false |}).
  set (w2 := {| wm_committed_through := 2; wm_closed := false |}).
  eexists. split; [|split].
  - eapply rtc_l; [apply (step_settle _ _ _ _ 5 1 false); done|].
    eapply rtc_l; [apply (step_settle _ _ _ _ 6 2 false); done|].
    eapply rtc_l; [by apply (step_publish _ _ _ _ [w1] w2 [])|].
    eapply rtc_l; [by apply (step_publish _ _ _ _ [] w1 [])|].
    eapply rtc_l; [apply step_observe; done|].
    eapply rtc_l; [eapply step_check; simpl; done|].
    apply rtc_refl.
  - intros u Hu. assert (u = 0 \/ u = 1 \/ u = 2) as [->|[->| ->]] by lia; vm_compute; reflexivity.
  - split_and!; reflexivity.
Qed.

(** A closure can be missed: since the snapshot is published outside the
    mutex, a settlement that took its snapshot before [close] can publish after
    it and overwrite [closed = true].  A handler in either call then sleeps with
    no wake-up in flight although the pipeline is closed, until some later call
    publishes. *)
Theorem close_can_be_overwritten call ticket :
  1 < ticket ->
  exists s, run false call ticket (initial 0) s /\ closed (sh_inner s) = true /\
    wm_closed (sh_value s) = false /\ sh_pending s = [] /\ sh_phase s = Sleeping (sh_version s).
Proof.
  intros Ht.
  set (w1 := {| wm_committed_through := 1; wm_closed := false |}).
  set (w2 := {| wm_committed_through := 1; wm_closed := true |}).
  eexists. split; [|].
  - eapply rtc_l; [apply (step_settle _ _ _ _ 5 1 false); done|].
    eapply rtc_l; [apply step_close|].
    eapply rtc_l; [by apply (step_publish _ _ _ _ [w1] w2 [])|].
    eapply rtc_l; [by apply (step_publish _ _ _ _ [] w1 [])|].
    eapply rtc_l; [apply step_observe; done|].
    eapply rtc_l; [eapply step_check; simpl; done|].
    apply rtc_refl.
  - simpl. split_and!; [done..|]. unfold round. destruct call.
    + unfold inner_state. rewrite (proj2 (N.eqb_neq ticket 0)) by lia.
      set (i := (close_locked (settle_locked 5 (Inner_new 0) 1 false).1).1).
      assert (is_settled i ticket = false) as Hs.
      { assert (committed_through i = 1 /\ settled_above i = ∅) as [Hc Ha] by done.
        apply not_true_iff_false. rewrite is_settled_true, Hc, Ha. set_solver by lia. }
      subst i. simpl in *. rewrite Hs. done.
    + unfold wait_watermark_round. simpl. by rewrite (proj2 (N.leb_gt ticket 1)) by lia.
Qed.

Lemma close_can_be_overwritten_witness :
  exists s, run false CallWaitWatermark 2 (initial 0) s /\ closed (sh_inner s) = true /\
    wm_closed (sh_value s) = false /\ sh_pending s = [] /\ sh_phase s = Sleeping (sh_version s).
Proof. exact (close_can_be_overwritten CallWaitWatermark 2 ltac:(lia)). Defined.

End LedgerConcurrency.
