(* ===== verification/InsertBatcher.v ===== *)
(** * Insert batching ([crates/otel-sqlite-core/src/storage/batcher.rs])

    [InsertBatcher] turns arbitrary record vectors into batches of exactly
    [max_batch_records], keeping a remainder whose age deadline belongs to the
    oldest buffered record.  [Instant::now()] is a stream of clock readings, one
    per round of the loop that may ask for it. *)

From S2P Require Import Prelude Time Command.

Module InsertBatcher.
Import Time Command.

Definition DEFAULT_MAX_INSERT_BATCH_RECORDS : nat := 500.
Definition DEFAULT_MAX_INSERT_BATCH_AGE : Duration := from_millis 10.

Record InsertBatcherConfig := {
  max_batch_records : nat;
  max_batch_age : Duration;
}.

Definition InsertBatcherConfig_default : InsertBatcherConfig :=
  {| max_batch_records := DEFAULT_MAX_INSERT_BATCH_RECORDS;
     max_batch_age := DEFAULT_MAX_INSERT_BATCH_AGE |}.

Section batcher.
Context {T : Type}.

Record InsertBatcher := {
  config : InsertBatcherConfig;
  buffer : list T;
  deadline : option Instant;
}.

(** [None] is the panic of [assert!(config.max_batch_records != 0)]. *)
Definition new (c : InsertBatcherConfig) : option InsertBatcher :=
  if max_batch_records c =? 0 then None
  else Some {| config := c; buffer := []; deadline := None |}.

Definition buffered (b : InsertBatcher) : nat := length (buffer b).
Definition is_empty (b : InsertBatcher) : bool :=
  match buffer b with [] => true | _ => false end.

(** [fill]: append, and arm the age clock when the buffer was empty. *)
Definition fill (now : Instant) (b : InsertBatcher) (records : list T) : InsertBatcher :=
  {| config := config b;
     buffer := buffer b ++ records;
     deadline :=
       if is_empty b then Some (saturating_deadline now (max_batch_age (config b)))
       else deadline b |}.

(** Buffer emptied by [mem::take], deadline cleared. *)
Definition drained (b : InsertBatcher) : InsertBatcher :=
  {| config := config b; buffer := []; deadline := None |}.

(** The [while] loop of [push].  [split_off(space)] leaves the first [space]
    records and returns the tail.  Every full round consumes at least one
    record, so [length incoming] rounds suffice. *)
Fixpoint push_loop (fuel : nat) (now : nat -> Instant) (b : InsertBatcher)
    (incoming : list T) (ready : list (WriteBatch T)) : InsertBatcher * list (WriteBatch T) :=
  match fuel with
  | O => (b, ready)
  | S fuel' =>
      match incoming with
      | [] => (b, ready)
      | _ =>
          let space := max_batch_records (config b) - length (buffer b) in
          if length incoming <? space then (fill (now 0) b incoming, ready)
          else
            let tail := drop space incoming in
            let b' := fill (now 0) b (take space incoming) in
            let full := from_vec (buffer b') in
            push_loop fuel' (fun k => now (S k)) (drained b') tail (ready ++ [full])
      end
  end.

Definition push (now : nat -> Instant) (b : InsertBatcher) (records : list T)
    : InsertBatcher * list (WriteBatch T) :=
  push_loop (length records) now b records [].

Definition flush (b : InsertBatcher) : InsertBatcher * option (WriteBatch T) :=
  match buffer b with
  | [] => (b, None)
  | records => (drained b, Some (from_vec records))
  end.

Definition flush_if_expired (now : Instant) (b : InsertBatcher)
    : InsertBatcher * option (WriteBatch T) :=
  match deadline b with
  | Some d => if (d <=? now)%N then flush b else (b, None)
  | None => (b, None)
  end.

(** ** Invariant *)

Record batcher_inv (b : InsertBatcher) : Prop := {
  inv_space : length (buffer b) < max_batch_records (config b);
  inv_deadline : deadline b = None <-> buffer b = [];
}.

Lemma batcher_new_inv c b : new c = Some b -> batcher_inv b /\ config b = c /\ buffer b = [].
Proof.
  unfold new. case_match; [done|]. intros [= <-]. bool_to_prop. split; [|done].
  split; simpl; [lia|done].
Qed.

Lemma push_loop_spec fuel now b incoming ready b' out :
  batcher_inv b -> length incoming <= fuel -> push_loop fuel now b incoming ready = (b', out) ->
  exists emitted, out = ready ++ emitted /\
    concat (batch_records <$> emitted) ++ buffer b' = buffer b ++ incoming /\
    Forall (fun w => WriteBatch_len w = max_batch_records (config b)) emitted /\
    batcher_inv b' /\ config b' = config b.
Proof.
  revert now b incoming ready. induction fuel as [|fuel IH]; intros now b incoming ready Hinv Hf.
  { destruct incoming; simpl in *; [|lia]. intros [= <- <-]. exists [].
    by rewrite !app_nil_r. }
  destruct incoming as [|x incoming]; cbn [push_loop].
  { intros [= <- <-]. exists []. by rewrite !app_nil_r. }
  destruct Hinv as [Hspace Hdl]. set (l := x :: incoming) in *.
  set (space := max_batch_records (config b) - length (buffer b)) in *.
  assert (length l = S (length incoming)) as Hl by done.
  destruct (length l <? space) eqn:Hlt; bool_to_prop.
  - intros [= <- <-]. exists []. rewrite app_nil_r. repeat split; try done; simpl.
    + rewrite length_app. lia.
    + unfold is_empty. destruct (buffer b); [done|]. naive_solver.
    + by intros [_ ?]%app_eq_nil.
  - intros H. apply IH in H as (emitted & -> & Hcat & Hall & Hinv' & Hcfg).
    + exists (from_vec (buffer b ++ take space l) :: emitted). split; [by rewrite <- app_assoc|].
      split; [|split; [|done]].
      * rewrite fmap_cons. cbn [concat batch_records]. simpl in Hcat.
        rewrite <- !app_assoc, Hcat. by rewrite take_drop.
      * constructor; [|done]. unfold WriteBatch_len. simpl.
        rewrite length_app, length_take. lia.
    + split; simpl; [lia|done].
    + rewrite length_drop. lia.
Qed.

(** Everything a caller of [push] relies on. *)
Lemma push_spec now b records b' ready :
  batcher_inv b -> push now b records = (b', ready) ->
  concat (batch_records <$> ready) ++ buffer b' = buffer b ++ records /\
  Forall (fun w => WriteBatch_len w = max_batch_records (config b)) ready /\
  batcher_inv b' /\ config b' = config b.
Proof.
  intros Hinv H. apply push_loop_spec in H as (emitted & -> & ? & ? & ? & ?); [|done|done].
  done.
Qed.

Lemma flush_spec b b' out :
  batcher_inv b -> flush b = (b', out) ->
  batcher_inv b' /\ config b' = config b /\ buffer b' = [] /\
  out = (if is_empty b then None else Some (from_vec (buffer b))).
Proof.
  intros [] H. unfold flush, is_empty in *. destruct (buffer b) eqn:Hb; simplify_eq; simpl.
  - split; [|done]. split; [rewrite Hb|rewrite Hb]; done.
  - split; [|done]. split; simpl in *; [lia|done].
Qed.

Lemma flush_if_expired_spec now b b' out :
  batcher_inv b -> flush_if_expired now b = (b', out) ->
  batcher_inv b' /\ config b' = config b /\
  ((out = None /\ b' = b) \/
   (is_empty b = false /\ buffer b' = [] /\ out = Some (from_vec (buffer b)) /\
    exists d, deadline b = Some d /\ (d <= now)%N)).
Proof.
  intros Hinv H. unfold flush_if_expired in H. destruct (deadline b) as [d|] eqn:Hd.
  - destruct (d <=? now)%N eqn:Hle; bool_to_prop; [|simplify_eq; eauto].
    pose proof (flush_spec b b' out Hinv H) as (Hi & Hc & Hb & Ho).
    split; [done|]. split; [done|]. right.
    assert (is_empty b = false) as He.
    { unfold is_empty. destruct (buffer b) eqn:Hb0; [|done].
      apply (inv_deadline b Hinv) in Hb0. congruence. }
    rewrite He in Ho. eauto 10.
  - simplify_eq. eauto.
Qed.

(** The deadline after a push: untouched while the old remainder is still
    buffered, otherwise armed at a clock reading of this call. *)
Lemma push_loop_deadline fuel now b incoming ready b' out d :
  batcher_inv b -> push_loop fuel now b incoming ready = (b', out) -> deadline b' = Some d ->
  (deadline b = Some d /\ (length out <= length ready) /\ exists rest, buffer b' = buffer b ++ rest) \/
  ((exists k, d = saturating_deadline (now k) (max_batch_age (config b))) /\
   exists n, buffer b' = drop n incoming).
Proof.
  revert now b incoming ready. induction fuel as [|fuel IH]; intros now b incoming ready Hinv; cbn [push_loop].
  { intros [= <- <-] Hd. left. split; [done|]. split; [done|]. exists []. by rewrite app_nil_r. }
  destruct incoming as [|x incoming].
  { intros [= <- <-] Hd. left. split; [done|]. split; [done|]. exists []. by rewrite app_nil_r. }
  set (l := x :: incoming) in *.
  set (space := max_batch_records (config b) - length (buffer b)) in *.
  destruct (length l <? space) eqn:Hlt; bool_to_prop.
  - intros [= <- <-]. simpl. unfold is_empty. destruct (buffer b) eqn:Hb.
    + intros [= <-]. right. split; [by exists 0|]. by exists 0.
    + intros Hd. left. split; [done|]. split; [done|]. eauto.
  - intros H Hd. apply IH in H as [(Hn & _)|[[k Hk] [n Hn]]]; [done| | |done].
    + right. split; [by exists (S k)|]. exists (space + n). rewrite Hn. apply drop_drop.
    + destruct Hinv. split; simpl; [lia|done].
Qed.

End batcher.

Arguments InsertBatcher : clear implicits.

(** ** Claims *)

(** [push] emits only batches of exactly [max_batch_records] records and
    keeps fewer than that; read in order, the emitted records followed by the
    remaining buffer are the old buffer followed by the input (nothing lost,
    duplicated or reordered), so exactly
    [(buffered + input) / max_batch_records] batches leave. *)
Theorem push_exact {T} (now : nat -> Instant) (b b' : InsertBatcher T) records ready :
  batcher_inv b -> push now b records = (b', ready) ->
  concat (batch_records <$> ready) ++ buffer b' = buffer b ++ records /\
  Forall (fun w => WriteBatch_len w = max_batch_records (config b)) ready /\
  length ready = (buffered b + length records) / max_batch_records (config b) /\
  buffered b' = (buffered b + length records) mod max_batch_records (config b) /\
  batcher_inv b'.
Proof.
  intros Hinv H. destruct (push_spec now b records b' ready Hinv H) as (Hcat & Hall & Hinv' & Hcfg).
  set (m := max_batch_records (config b)) in *.
  assert (length (concat (batch_records <$> ready)) = length ready * m) as Hlen.
  { clear -Hall. induction Hall as [|w l Hw _ IH]; [done|].
    rewrite fmap_cons. cbn [concat length]. rewrite length_app, IH. unfold WriteBatch_len in Hw. lia. }
  apply (f_equal length) in Hcat as Htot. rewrite !length_app, Hlen in Htot.
  pose proof (inv_space b' Hinv') as Hlt. rewrite Hcfg in Hlt. fold m in Hlt.
  unfold buffered. rewrite <- Htot. split; [done|]. split; [done|].
  split; [|split; [|done]].
  - rewrite Nat.div_add_l, Nat.div_small by lia. lia.
  - rewrite Nat.add_comm, Nat.Div0.mod_add, Nat.mod_small by lia. done.
Qed.

Lemma push_exact_witness :
  let b := {| config := {| max_batch_records := 3; max_batch_age := 10%N |};
              buffer := [1; 2]; deadline := Some 15%N |} in
  let r := push (fun _ => 20%N) b [3; 4; 5; 6; 7; 8] in
  r.2 = [from_vec [1; 2; 3]; from_vec [4; 5; 6]] /\ buffer r.1 = [7; 8] /\
  concat (batch_records <$> r.2) ++ buffer r.1 = [1; 2] ++ [3; 4; 5; 6; 7; 8].
Proof.
  intros b r. split; [done|]. split; [done|].
  exact (proj1 (push_exact (fun _ => 20%N) b r.1 [3; 4; 5; 6; 7; 8] r.2
    ltac:(split; simpl; [lia|done]) ltac:(reflexivity))).
Defined.

(** ** The deadline belongs to the oldest record *)

Section age.
Context {R : Type}.

(** A record together with the interval in which its [push] call ran. *)
Definition Stamped : Type := (Instant * Instant) * R.

(** Histories of a batcher: pushes whose clock readings fall inside the call's
    interval, unconditional flushes and deadline checks. *)
Inductive history (c : InsertBatcherConfig) : InsertBatcher Stamped -> Prop :=
| history_new b : new c = Some b -> history c b
| history_push b (from until : Instant) now (records : list R) :
    history c b -> (forall k, from <= now k <= until)%N ->
    history c (push now b (map (pair (from, until)) records)).1
| history_flush b : history c b -> history c (flush b).1
| history_expired b now : history c b -> history c (flush_if_expired now b).1.

Lemma history_inv c b : history c b -> batcher_inv b /\ config b = c.
Proof.
  induction 1 as [b Hb|b from until now records _ [Hi Hc] Hnow|b _ [Hi Hc]|b now _ [Hi Hc]].
  - apply batcher_new_inv in Hb. naive_solver.
  - destruct (push _ _ _) as [b' out] eqn:Hp. apply push_spec in Hp; [|done]. naive_solver.
  - destruct (flush b) as [b' out] eqn:Hp. apply flush_spec in Hp; [|done]. naive_solver.
  - destruct (flush_if_expired now b) as [b' out] eqn:Hp.
    apply flush_if_expired_spec in Hp; [|done]. naive_solver.
Qed.

Definition deadline_of_head (b : InsertBatcher Stamped) : Prop :=
  forall from until r rest, buffer b = ((from, until), r) :: rest ->
  exists read, (from <= read <= until)%N /\
    deadline b = Some (saturating_deadline read (max_batch_age (config b))).

Lemma push_deadline_of_head c b from until now (records : list R) :
  batcher_inv b -> config b = c -> deadline_of_head b -> (forall k, from <= now k <= until)%N ->
  deadline_of_head (push now b (map (pair (from, until)) records)).1.
Proof.
  intros Hinv Hc Hhd Hnow. destruct (push _ _ _) as [b' out] eqn:Hp. simpl.
  pose proof (push_spec _ _ _ _ _ Hinv Hp) as (_ & _ & Hinv' & Hcfg).
  intros f u r rest Hb. rewrite Hcfg.
  destruct (deadline b') as [d|] eqn:Hd.
  2: { apply (inv_deadline b' Hinv') in Hd. congruence. }
  destruct (push_loop_deadline _ _ _ _ _ _ _ _ Hinv Hp Hd) as [(Hd0 & _ & rest' & Hb')|[[k ->] [n Hn]]].
  - destruct (buffer b) as [|[[f0 u0] r0] rest0] eqn:Hb0.
    { apply (inv_deadline b Hinv) in Hb0. congruence. }
    rewrite Hb in Hb'. simplify_eq/=. destruct (Hhd _ _ _ _ Hb0) as (read & ? & ?).
    exists read. split; [done|]. congruence.
  - exists (now k). split; [|done].
    assert (((f, u, r) : Stamped) ∈ (map (pair (from, until)) records : list Stamped)) as Hin.
    { rewrite <- (take_drop n (map _ records)). apply elem_of_app. right.
      change ((f, u, r) ∈ drop n (map (pair (from, until)) records : list Stamped)).
      rewrite <- Hn, Hb. left. }
    apply list_elem_of_fmap in Hin as (? & ? & _). simplify_eq. apply Hnow.
Qed.

Lemma history_deadline c b : history c b -> deadline_of_head b.
Proof.
  induction 1 as [b Hb|b f u now records Hh IH Hnow|b Hh IH|b now Hh IH].
  - apply batcher_new_inv in Hb as (_ & _ & Hb). intros ???? H. congruence.
  - destruct (history_inv _ b Hh) as [Hi Hcb]. by eapply push_deadline_of_head.
  - destruct (history_inv _ b Hh) as [Hi _]. destruct (flush b) as [b' out] eqn:Hp.
    apply flush_spec in Hp as (_ & _ & Hb & _); [|done]. intros ???? H. simpl in *. congruence.
  - destruct (history_inv _ b Hh) as [Hi _]. destruct (flush_if_expired now b) as [b' out] eqn:Hp.
    apply flush_if_expired_spec in Hp as (_ & _ & [[_ ->]|(_ & Hb & _)]); [done| |done].
    intros ???? H. simpl in *. congruence.
Qed.

(** The age deadline is never postponed: in every history, the deadline
    of a non-empty buffer is the one computed at a clock reading of the call
    that pushed the oldest record still buffered. *)
Theorem deadline_belongs_to_oldest c b from until r rest :
  history c b -> buffer b = ((from, until), r) :: rest ->
  exists read, (from <= read <= until)%N /\
    deadline b = Some (saturating_deadline read (max_batch_age c)).
Proof.
  intros Hh Hb. destruct (history_inv c b Hh) as [_ <-]. by eapply history_deadline.
Qed.

End age.

Lemma deadline_belongs_to_oldest_witness :
  let c := {| max_batch_records := 3; max_batch_age := 10%N |} in
  let b0 := {| config := c; buffer := []; deadline := None |} in
  let b1 := (push (fun _ => 5%N) b0 (map (pair (5%N, 5%N)) ["x"])).1 in
  let b2 := (push (fun _ => 9%N) b1 (map (pair (9%N, 9%N)) ["y"])).1 in
  deadline b2 = Some 15%N /\
  exists read, (5 <= read <= 5)%N /\ deadline b2 = Some (saturating_deadline read 10%N).
Proof.
  intros c b0 b1 b2. split; [reflexivity|].
  apply (deadline_belongs_to_oldest c b2 5%N 5%N "x" [((9%N, 9%N), "y")]); [|reflexivity].
  apply history_push; [|lia]. apply history_push; [|lia]. by apply history_new.
Defined.

End InsertBatcher.
