(* ===== verification/OriginBuffers.v ===== *)
(** * Per-origin accumulation ([crates/otel-sqlite-storage/src/origin_buffers.rs])

    One [InsertBatcher] per active origin, with the FIFO of
    [(ticket, records)] segments that says which durability ticket each
    buffered record belongs to.  Panics ([expect], [assert!]) are [None]. *)

From S2P Require Import Prelude Time Model Command InsertBatcher.

Module OriginBuffers.
Import Time Command InsertBatcher.

Section buffers.
Context {T : Type}.

Record Submission := mk_submission {
  sub_origin : BatchOrigin;
  sub_records : WriteBatch T;
  sub_commit_seqs : list N;
  sub_segments : list RecordSegment;
}.

(** [Vec::dedup]: drop consecutive repetitions. *)
Fixpoint dedup (l : list N) : list N :=
  match l with
  | [] => []
  | x :: rest =>
      match rest with
      | y :: _ => if (x =? y)%N then dedup rest else x :: dedup rest
      | [] => [x]
      end
  end.

Definition Submission_new (origin : BatchOrigin) (records : WriteBatch T)
    (segments : list RecordSegment) : Submission :=
  {| sub_origin := origin;
     sub_records := records;
     sub_commit_seqs := dedup (merge_sort N.le (seg_commit_seq <$> segments));
     sub_segments := segments |}.

Record OriginBuffer := {
  ob_segments : list (N * nat);
  ob_batcher : InsertBatcher T;
}.

Definition OriginBuffer_new (c : InsertBatcherConfig) : option OriginBuffer :=
  b ← InsertBatcher.new c; Some {| ob_segments := []; ob_batcher := b |}.

Definition OriginBuffer_is_empty (ob : OriginBuffer) : bool :=
  InsertBatcher.is_empty (ob_batcher ob) &&
  match ob_segments ob with [] => true | _ => false end.

(** The [while left > 0] loop of [consume].  A segment that is not exhausted
    took all of [left], so the next test of the loop condition ends it. *)
Fixpoint consume (segments : list (N * nat)) (left : nat)
    : option (list RecordSegment * list (N * nat)) :=
  if left =? 0 then Some ([], segments)
  else
    match segments with
    | [] => None
    | (commit_seq, remaining) :: rest =>
        let taken := Nat.min remaining left in
        let remaining' := remaining - taken in
        let complete := remaining' =? 0 in
        let segment := mk_segment commit_seq taken complete in
        if complete then
          '(out, segments') ← consume rest (left - taken);
          Some (segment :: out, segments')
        else Some ([segment], (commit_seq, remaining') :: rest)
    end.

(** The [for batch in output] loop of [push]. *)
Fixpoint consume_batches (origin : BatchOrigin) (segments : list (N * nat))
    (output : list (WriteBatch T)) : option (list Submission * list (N * nat)) :=
  match output with
  | [] => Some ([], segments)
  | batch :: output' =>
      '(segs, segments1) ← consume segments (WriteBatch_len batch);
      '(emitted, segments2) ← consume_batches origin segments1 output';
      Some (Submission_new origin batch segs :: emitted, segments2)
  end.

Record OriginBuffers := {
  obs_config : InsertBatcherConfig;
  buffers : list (BatchOrigin * OriginBuffer);
}.

Definition OriginBuffers_new (c : InsertBatcherConfig) : OriginBuffers :=
  {| obs_config := c; buffers := [] |}.

(** [Iterator::min] over the deadlines. *)
Definition min_option (a b : option Instant) : option Instant :=
  match a, b with
  | Some x, Some y => Some (N.min x y)
  | None, y => y
  | x, None => x
  end.

Definition obs_deadline (o : OriginBuffers) : option Instant :=
  foldr (fun p acc => min_option (deadline (ob_batcher p.2)) acc) None (buffers o).

Definition obs_buffered (o : OriginBuffers) : nat :=
  sum_with (fun p => buffered (ob_batcher p.2)) (buffers o).

(** The buffers before the one [push] works on, its key, the buffer itself, and
    the buffers after it; a fresh buffer goes to the end. *)
Definition locate (o : OriginBuffers) (origin : BatchOrigin)
    : option (list (BatchOrigin * OriginBuffer) * BatchOrigin * OriginBuffer *
              list (BatchOrigin * OriginBuffer)) :=
  match list_find (fun p => origin_eqb p.1 origin = true) (buffers o) with
  | Some (index, (known, buffer)) =>
      Some (take index (buffers o), known, buffer, drop (S index) (buffers o))
  | None =>
      buffer ← OriginBuffer_new (obs_config o);
      Some (buffers o, origin, buffer, [])
  end.

(** [if !records.is_empty() { segments.push_back((commit_seq, records.len())) }]. *)
Definition enqueue_segment (segments : list (N * nat)) (records : list T) (commit_seq : N)
    : list (N * nat) :=
  match records with
  | [] => segments
  | _ => segments ++ [(commit_seq, length records)]
  end.

Definition obs_push (now : nat -> Instant) (o : OriginBuffers) (origin : BatchOrigin)
    (records : list T) (commit_seq : N) : option (OriginBuffers * list Submission) :=
  '(before, known, buffer, after) ← locate o origin;
  let segments := enqueue_segment (ob_segments buffer) records commit_seq in
  let (batcher, output) := InsertBatcher.push now (ob_batcher buffer) records in
  '(emitted, segments') ← consume_batches origin segments output;
  let buffer' := {| ob_segments := segments'; ob_batcher := batcher |} in
  let kept := if OriginBuffer_is_empty buffer' then [] else [(known, buffer')] in
  Some ({| obs_config := obs_config o; buffers := before ++ kept ++ after |}, emitted).

(** The loop of [flush_with] over the buffers. *)
Fixpoint flush_loop (flush_one : InsertBatcher T -> InsertBatcher T * option (WriteBatch T))
    (bufs : list (BatchOrigin * OriginBuffer))
    : option (list (BatchOrigin * OriginBuffer) * list Submission) :=
  match bufs with
  | [] => Some ([], [])
  | (origin, buffer) :: rest =>
      match flush_one (ob_batcher buffer) with
      | (batcher, Some records) =>
          '(segs, segments) ← consume (ob_segments buffer) (WriteBatch_len records);
          '(rest', submissions) ← flush_loop flush_one rest;
          Some ((origin, {| ob_segments := segments; ob_batcher := batcher |}) :: rest',
                Submission_new origin records segs :: submissions)
      | (batcher, None) =>
          '(rest', submissions) ← flush_loop flush_one rest;
          Some ((origin, {| ob_segments := ob_segments buffer; ob_batcher := batcher |}) :: rest',
                submissions)
      end
  end.

(** [Vec::retain]. *)
Definition retain_active (bufs : list (BatchOrigin * OriginBuffer))
    : list (BatchOrigin * OriginBuffer) :=
  filter (fun p => OriginBuffer_is_empty p.2 = false) bufs.

Definition flush_with (flush_one : InsertBatcher T -> InsertBatcher T * option (WriteBatch T))
    (o : OriginBuffers) : option (OriginBuffers * list Submission) :=
  '(bufs, submissions) ← flush_loop flush_one (buffers o);
  Some ({| obs_config := obs_config o; buffers := retain_active bufs |}, submissions).

Definition flush_expired (now : Instant) (o : OriginBuffers) : option (OriginBuffers * list Submission) :=
  flush_with (InsertBatcher.flush_if_expired now) o.

Definition flush_all (o : OriginBuffers) : option (OriginBuffers * list Submission) :=
  flush_with InsertBatcher.flush o.

(** ** Which ticket each record belongs to *)

Definition expand (segments : list (N * nat)) : list N :=
  concat ((fun s => replicate s.2 s.1) <$> segments).

Definition expand_segments (segments : list RecordSegment) : list N :=
  concat ((fun s => replicate (seg_records s) (seg_commit_seq s)) <$> segments).

(** The records of a submission, each with its ticket. *)
Definition attributed (s : Submission) : list (T * N) :=
  zip (batch_records (sub_records s)) (expand_segments (sub_segments s)).

Definition attributed_buffer (ob : OriginBuffer) : list (T * N) :=
  zip (buffer (ob_batcher ob)) (expand (ob_segments ob)).

Definition attributed_all (o : OriginBuffers) : list (T * N) :=
  concat ((fun p => attributed_buffer p.2) <$> buffers o).

(** The tickets with records still buffered. *)
Definition buffered_tickets (o : OriginBuffers) : list N :=
  concat ((fun p => (ob_segments p.2).*1) <$> buffers o).

(** A segment is marked complete exactly when its ticket occurs in no later
    segment and in nothing that is still buffered ([later]). *)
Fixpoint complete_ok (segments : list RecordSegment) (later : list N) : Prop :=
  match segments with
  | [] => True
  | s :: rest =>
      (seg_complete s = true <-> seg_commit_seq s ∉ (seg_commit_seq <$> rest) ++ later) /\
      complete_ok rest later
  end.

(** A submission's segments partition its records into non-empty runs, and its
    ticket list is the sorted set of their tickets. *)
Definition submission_ok (s : Submission) : Prop :=
  length (expand_segments (sub_segments s)) = WriteBatch_len (sub_records s) /\
  Forall (fun g => 0 < seg_records g) (sub_segments s) /\
  sub_commit_seqs s = dedup (merge_sort N.le (seg_commit_seq <$> sub_segments s)).

Record buffer_inv (c : InsertBatcherConfig) (ob : OriginBuffer) : Prop := {
  bi_batcher : batcher_inv (ob_batcher ob);
  bi_config : config (ob_batcher ob) = c;
  bi_segments : length (expand (ob_segments ob)) = length (buffer (ob_batcher ob));
  bi_positive : Forall (fun s => 0 < s.2) (ob_segments ob);
}.

Record buffers_inv (o : OriginBuffers) : Prop := {
  oi_config : max_batch_records (obs_config o) ≠ 0;
  oi_buffers : Forall (fun p => buffer_inv (obs_config o) p.2) (buffers o);
  oi_active : Forall (fun p => OriginBuffer_is_empty p.2 = false) (buffers o);
}.

(** ** Lemmas *)

Lemma expand_cons t n segs : expand ((t, n) :: segs) = replicate n t ++ expand segs.
Proof. done. Qed.

Lemma expand_app l1 l2 : expand (l1 ++ l2) = expand l1 ++ expand l2.
Proof. unfold expand. by rewrite fmap_app, concat_app. Qed.

Lemma expand_segments_cons g segs :
  expand_segments (g :: segs) = replicate (seg_records g) (seg_commit_seq g) ++ expand_segments segs.
Proof. done. Qed.

Lemma expand_nil segs : Forall (fun s => 0 < s.2) segs -> expand segs = [] -> segs = [].
Proof.
  intros [|[t n] segs' Hn _]; [done|]. rewrite expand_cons. simpl in Hn.
  destruct n; [lia|]. done.
Qed.

Lemma complete_ok_app l1 l2 later :
  complete_ok (l1 ++ l2) later <->
  complete_ok l1 ((seg_commit_seq <$> l2) ++ later) /\ complete_ok l2 later.
Proof.
  induction l1 as [|g l1 IH]; simpl; [tauto|]. rewrite IH, fmap_app, <- app_assoc. tauto.
Qed.

(** Only the tickets of the segments themselves matter in [later]. *)
Lemma complete_ok_rel l later later' :
  (forall u, u ∈ (seg_commit_seq <$> l) -> (u ∈ later <-> u ∈ later')) ->
  complete_ok l later -> complete_ok l later'.
Proof.
  induction l as [|g l IH]; simpl; [done|]. intros Hrel [H1 H2]. split.
  - rewrite H1, !not_elem_of_app, Hrel by left. done.
  - apply IH; [|done]. intros u Hu. apply Hrel. by right.
Qed.

Lemma complete_ok_all l later :
  Forall (fun g => seg_complete g = true) l -> NoDup ((seg_commit_seq <$> l) ++ later) ->
  complete_ok l later.
Proof.
  induction 1 as [|g l Hg _ IH]; simpl; [done|].
  intros [? ?]%NoDup_cons. split; [by split|auto].
Qed.

Lemma enqueue_segment_spec segs (records : list T) t :
  Forall (fun s => 0 < s.2) segs ->
  expand (enqueue_segment segs records t) = expand segs ++ replicate (length records) t /\
  Forall (fun s => 0 < s.2) (enqueue_segment segs records t) /\
  (forall u, u ∈ (enqueue_segment segs records t).*1 <-> u ∈ segs.*1 \/ (u = t /\ records ≠ [])) /\
  (NoDup segs.*1 -> t ∉ segs.*1 -> NoDup (enqueue_segment segs records t).*1).
Proof.
  intros Hpos. destruct records as [|r records]; cbn [enqueue_segment].
  - simpl. rewrite app_nil_r. naive_solver.
  - rewrite expand_app, expand_cons, app_nil_r. split; [done|]. split; [|split].
    + apply Forall_app. split; [done|]. apply Forall_singleton. simpl. lia.
    + intros u. rewrite fmap_app, elem_of_app. simpl. rewrite list_elem_of_singleton. naive_solver.
    + intros ? ?. rewrite fmap_app. apply NoDup_app. split; [done|]. simpl.
      split; [set_solver|apply NoDup_singleton].
Qed.

(** Consuming everything completes every segment. *)
Lemma consume_all segs :
  Forall (fun s => 0 < s.2) segs ->
  consume segs (length (expand segs)) = Some ((fun s => mk_segment s.1 s.2 true) <$> segs, []).
Proof.
  induction 1 as [|[t n] segs Hn _ IH]; [done|]. simpl in Hn.
  rewrite expand_cons, length_app, length_replicate. cbn [consume].
  rewrite (proj2 (Nat.eqb_neq _ 0)) by lia. rewrite Nat.min_l by lia.
  rewrite Nat.sub_diag. simpl. replace (n + _ - n) with (length (expand segs)) by lia.
  by rewrite IH.
Qed.

Lemma expand_completed segs :
  expand_segments ((fun s => mk_segment s.1 s.2 true) <$> segs) = expand segs.
Proof. unfold expand_segments. by rewrite <- list_fmap_compose. Qed.

(** [consume] splits the ticket FIFO at [left] records and never panics when
    that many are buffered. *)
Lemma consume_spec segs left :
  Forall (fun s => 0 < s.2) segs -> left <= length (expand segs) ->
  exists out segs', consume segs left = Some (out, segs') /\
    expand_segments out ++ expand segs' = expand segs /\
    length (expand_segments out) = left /\
    Forall (fun g => 0 < seg_records g) out /\ Forall (fun s => 0 < s.2) segs' /\
    (forall t, t ∈ segs.*1 <-> t ∈ seg_commit_seq <$> out \/ t ∈ segs'.*1) /\
    (NoDup segs.*1 -> NoDup segs'.*1 /\ complete_ok out segs'.*1).
Proof.
  revert left. induction segs as [|[t n] segs IH]; intros left Hpos Hle.
  { simpl in Hle. destruct left; [|lia]. exists [], []. simpl. set_solver. }
  apply Forall_cons in Hpos as [Hn Hpos]. simpl in Hn.
  rewrite expand_cons, length_app, length_replicate in Hle.
  destruct (Nat.eq_dec left 0) as [->|Hleft].
  { exists [], ((t, n) :: segs). simpl. split; [done|]. split; [done|]. split; [done|].
    split; [constructor|]. split; [by constructor|]. split; [set_solver|done]. }
  cbn [consume]. rewrite (proj2 (Nat.eqb_neq left 0)) by done.
  destruct (n - Nat.min n left =? 0) eqn:Hc; bool_to_prop.
  - replace (Nat.min n left) with n by lia.
    destruct (IH (left - n) Hpos ltac:(lia)) as (out & segs' & -> & Hexp & Hlen & Hpo & Hps & Hmem & Hnd).
    eexists _, segs'. simpl. split; [done|]. rewrite expand_segments_cons. simpl.
    rewrite <- app_assoc, Hexp, length_app, length_replicate, Hlen.
    split; [done|]. split; [lia|]. split; [by constructor|]. split; [done|].
    split; [intros u; rewrite !elem_of_cons, Hmem; tauto|].
    intros [Hni Hnd']%NoDup_cons. destruct (Hnd Hnd') as [? ?]. split; [done|].
    split; [|done]. split; [|done]. intros _. rewrite elem_of_app, <- Hmem. done.
  - replace (Nat.min n left) with left in * by lia. eexists _, _. split; [done|].
    rewrite expand_segments_cons. simpl. rewrite !app_nil_r.
    split; [|split; [by rewrite length_replicate|]].
    { rewrite !expand_cons, app_assoc. f_equal. rewrite <- replicate_add. f_equal. lia. }
    split; [by repeat constructor; simpl; lia|].
    split; [constructor; simpl; [lia|done]|]. split; [intros u; set_solver|].
    intros Hnd. split; [done|]. split; [|done]. split; [done|]. set_solver.
Qed.

Lemma zip_app_lengths {A B} (l1 l2 : list A) (k1 k2 : list B) :
  length l1 = length k1 -> zip (l1 ++ l2) (k1 ++ k2) = zip l1 k1 ++ zip l2 k2.
Proof. intros. by apply zip_with_app. Qed.

Lemma consume_batches_spec origin segs output rest :
  Forall (fun s => 0 < s.2) segs ->
  length (concat (batch_records <$> output) ++ rest) = length (expand segs) ->
  exists subs segs', consume_batches origin segs output = Some (subs, segs') /\
    concat (attributed <$> subs) ++ zip rest (expand segs') =
      zip (concat (batch_records <$> output) ++ rest) (expand segs) /\
    length rest = length (expand segs') /\
    sub_records <$> subs = output /\ Forall (fun s => sub_origin s = origin) subs /\
    Forall submission_ok subs /\ Forall (fun s => 0 < s.2) segs' /\
    (forall t, t ∈ segs.*1 <-> t ∈ seg_commit_seq <$> concat (sub_segments <$> subs) \/ t ∈ segs'.*1) /\
    (NoDup segs.*1 -> NoDup segs'.*1 /\ complete_ok (concat (sub_segments <$> subs)) segs'.*1).
Proof.
  revert segs. induction output as [|batch output IH]; intros segs Hpos Hlen.
  { exists [], segs. simpl in *. repeat split; try done; set_solver. }
  rewrite fmap_cons in *. cbn [concat] in *. rewrite <- app_assoc, length_app in Hlen.
  cbn [consume_batches].
  destruct (consume_spec segs (WriteBatch_len batch) Hpos) as
    (out & segs1 & -> & Hexp & Hout & Hpo & Hps & Hmem & Hnd); [unfold WriteBatch_len; lia|].
  pose proof (f_equal length Hexp) as Hlen2. rewrite length_app, Hout in Hlen2.
  unfold WriteBatch_len in *.
  destruct (IH segs1 Hps ltac:(lia)) as
    (subs & segs2 & Heq & Hatt & Hrest & Hrecs & Horig & Hok & Hps2 & Hmem2 & Hnd2).
  simpl. rewrite Heq. simpl. eexists _, segs2. split; [done|].
  rewrite !fmap_cons. cbn [concat Submission_new sub_records sub_segments].
  split; [|split; [done|split; [by rewrite Hrecs|]]].
  { unfold attributed at 1. cbn [Submission_new sub_records sub_segments].
    rewrite <- !app_assoc, <- Hexp, zip_app_lengths, Hatt by done. done. }
  split; [by constructor|].
  split; [by constructor|]. split; [done|]. split.
  - intros t. rewrite Hmem, Hmem2, fmap_app, elem_of_app. tauto.
  - intros Hnd'. destruct (Hnd Hnd') as [Hnd1 Hc1]. destruct (Hnd2 Hnd1) as [? Hc2].
    split; [done|]. apply complete_ok_app. split; [|done].
    eapply complete_ok_rel; [|done]. intros t _. by rewrite Hmem2, elem_of_app.
Qed.

Definition all_of (bufs : list (BatchOrigin * OriginBuffer)) : list (T * N) :=
  concat ((fun p => attributed_buffer p.2) <$> bufs).
Definition tickets_of (bufs : list (BatchOrigin * OriginBuffer)) : list N :=
  concat ((fun p => (ob_segments p.2).*1) <$> bufs).

Lemma all_of_app b1 b2 : all_of (b1 ++ b2) = all_of b1 ++ all_of b2.
Proof. unfold all_of. by rewrite fmap_app, concat_app. Qed.
Lemma tickets_of_app b1 b2 : tickets_of (b1 ++ b2) = tickets_of b1 ++ tickets_of b2.
Proof. unfold tickets_of. by rewrite fmap_app, concat_app. Qed.
Lemma all_of_cons p b : all_of (p :: b) = attributed_buffer p.2 ++ all_of b.
Proof. done. Qed.
Lemma tickets_of_cons p b : tickets_of (p :: b) = (ob_segments p.2).*1 ++ tickets_of b.
Proof. done. Qed.

Lemma is_empty_true (ob : OriginBuffer) :
  OriginBuffer_is_empty ob = true <-> buffer (ob_batcher ob) = [] /\ ob_segments ob = [].
Proof.
  unfold OriginBuffer_is_empty, InsertBatcher.is_empty.
  destruct (buffer _), (ob_segments ob); simpl; naive_solver.
Qed.

Definition buf_ok (c : InsertBatcherConfig) (p : BatchOrigin * OriginBuffer) : Prop :=
  buffer_inv c p.2 /\ OriginBuffer_is_empty p.2 = false.

Lemma buffers_inv_alt o :
  buffers_inv o <-> max_batch_records (obs_config o) ≠ 0 /\ Forall (buf_ok (obs_config o)) (buffers o).
Proof.
  unfold buf_ok. rewrite Forall_and. split; [intros []; done|intros (?&?&?); by split].
Qed.

(** A drained buffer has no segments either. *)
Lemma buffer_inv_drained c ob :
  buffer_inv c ob -> buffer (ob_batcher ob) = [] -> ob_segments ob = [].
Proof.
  intros [_ _ Hs Hp] Hb. apply expand_nil; [done|]. rewrite Hb in Hs.
  by apply nil_length_inv.
Qed.

(** Keeping a buffer unless it is empty loses nothing. *)
Lemma kept_spec c known ob :
  buffer_inv c ob ->
  let kept := if OriginBuffer_is_empty ob then [] else [(known, ob)] in
  all_of kept = attributed_buffer ob /\ tickets_of kept = (ob_segments ob).*1 /\
  Forall (buf_ok c) kept.
Proof.
  intros Hob. destruct (OriginBuffer_is_empty ob) eqn:He; simpl.
  - apply is_empty_true in He as [Hb Hs]. unfold attributed_buffer. by rewrite Hb, Hs.
  - unfold all_of, tickets_of. simpl. rewrite !app_nil_r.
    split_and!; [done|done|]. by apply Forall_singleton.
Qed.

(** The buffer of a chunk from [origin]: the first one whose key compares equal,
    or, when there is none, a fresh empty one at the end. *)
Definition chunk_buffer o origin (before : list (BatchOrigin * OriginBuffer)) known
    (ob : OriginBuffer) after : Prop :=
  Forall (fun p => origin_eqb p.1 origin = false) before /\
  ((buffers o = before ++ (known, ob) :: after /\ origin_eqb known origin = true) \/
   (before = buffers o /\ after = [] /\ known = origin /\
    buffer (ob_batcher ob) = [] /\ ob_segments ob = [])).

Lemma locate_spec o origin :
  buffers_inv o ->
  exists before known ob after,
    locate o origin = Some (before, known, ob, after) /\ buffer_inv (obs_config o) ob /\
    all_of (buffers o) = all_of before ++ attributed_buffer ob ++ all_of after /\
    tickets_of (buffers o) = tickets_of before ++ (ob_segments ob).*1 ++ tickets_of after /\
    Forall (buf_ok (obs_config o)) before /\ Forall (buf_ok (obs_config o)) after /\
    chunk_buffer o origin before known ob after.
Proof.
  intros [Hm Hall]%buffers_inv_alt. unfold locate.
  destruct (list_find _ (buffers o)) as [[i [known ob]]|] eqn:Hf.
  - apply list_find_Some in Hf as (Hi & Heq & Hfirst). simpl in Heq.
    pose proof (take_drop_middle _ _ _ Hi) as Hsplit.
    rewrite <- Hsplit in Hall. apply Forall_app in Hall as [Hb [Hob Ha]%Forall_cons].
    eexists _, _, _, _. split; [done|]. split; [apply Hob|].
    rewrite <- Hsplit at 1. rewrite all_of_app, all_of_cons. split; [done|].
    rewrite <- Hsplit at 1. rewrite tickets_of_app, tickets_of_cons. split; [done|].
    split; [done|]. split; [done|]. split; [|left; by rewrite Hsplit].
    apply Forall_lookup. intros j p [Hj Hlt]%lookup_take_Some.
    apply not_true_is_false. by apply (Hfirst j p).
  - unfold OriginBuffer_new, InsertBatcher.new. rewrite (proj2 (Nat.eqb_neq _ 0)) by done.
    simpl. eexists _, _, _, _. split; [done|]. split.
    { split; simpl; [|done..]. split; simpl; [lia|done]. }
    unfold attributed_buffer. simpl. rewrite !app_nil_r.
    do 4 (split; [done|]). split; [|by right].
    apply list_find_None in Hf. eapply Forall_impl; [exact Hf|]. intros p. apply not_true_is_false.
Qed.

(** [push]: never panics, keeps the invariant, and moves records FIFO. *)
(** What [push] leaves of a buffer: nothing once it is empty. *)
Definition kept_buffer (known : BatchOrigin) (ob : OriginBuffer)
    : list (BatchOrigin * OriginBuffer) :=
  if OriginBuffer_is_empty ob then [] else [(known, ob)].

Lemma obs_push_spec now o origin records t :
  buffers_inv o ->
  exists o' subs before known ob ob' after,
    obs_push now o origin records t = Some (o', subs) /\ buffers_inv o' /\
    obs_config o' = obs_config o /\
    chunk_buffer o origin before known ob after /\
    buffers o' = before ++ kept_buffer known ob' ++ after /\
    concat (attributed <$> subs) ++ attributed_buffer ob' =
      attributed_buffer ob ++ ((fun r => (r, t)) <$> records) /\
    Forall (fun s => sub_origin s = origin /\
      WriteBatch_len (sub_records s) = max_batch_records (obs_config o) /\ submission_ok s) subs /\
    (forall u, u ∈ seg_commit_seq <$> concat (sub_segments <$> subs) \/ u ∈ buffered_tickets o' <->
      u ∈ buffered_tickets o \/ (u = t /\ records ≠ [])) /\
    (NoDup (buffered_tickets o) -> t ∉ buffered_tickets o ->
      NoDup (buffered_tickets o') /\ complete_ok (concat (sub_segments <$> subs)) (buffered_tickets o')).
Proof.
  intros Hinv. unfold obs_push.
  destruct (locate_spec o origin Hinv) as (before & known & ob & after & -> & Hob & Hall & Htk & Hb & Ha & Hcb).
  simpl. destruct (InsertBatcher.push now (ob_batcher ob) records) as [batcher output] eqn:Hp.
  apply push_spec in Hp as (Hcat & Hfull & Hbi & Hcfg); [|apply Hob].
  destruct (enqueue_segment_spec (ob_segments ob) records t (bi_positive _ _ Hob))
    as (Hexp & Hpos & Hsegs & Hsnd).
  set (segs := enqueue_segment (ob_segments ob) records t) in *.
  destruct (consume_batches_spec origin segs output (buffer batcher) Hpos) as
    (subs & segs' & -> & Hatt & Hlen & Hrecs & Horig & Hok & Hpos' & Hmem & Hnd).
  { rewrite Hcat, Hexp, !length_app, length_replicate, (bi_segments _ _ Hob). done. }
  simpl. set (ob' := {| ob_segments := segs'; ob_batcher := batcher |}).
  assert (buffer_inv (obs_config o) ob') as Hob'.
  { split; simpl; [done|by rewrite Hcfg; apply Hob|done|done]. }
  destruct (kept_spec (obs_config o) known ob' Hob') as (Hk & Hkt & Hkf).
  fold (kept_buffer known ob') in *. set (kept := kept_buffer known ob') in *.
  eexists _, subs, before, known, ob, ob', after.
  split; [done|]. split.
  { apply buffers_inv_alt. simpl. split; [apply Hinv|]. rewrite !Forall_app. done. }
  assert (forall l, buffered_tickets {| obs_config := obs_config o; buffers := l |} = tickets_of l)
    as Hbt by done.
  rewrite Hbt. change (buffered_tickets o) with (tickets_of (buffers o)).
  rewrite !tickets_of_app, Hkt, Htk. simpl ob_segments.
  split; [done|]. split; [done|]. split; [done|].
  split; [|split; [|split]].
  - unfold attributed_buffer. simpl. rewrite Hatt, Hcat, Hexp, zip_app_lengths.
    + f_equal. clear. induction records; simpl; [done|]. by f_equal.
    + symmetry. apply Hob.
  - rewrite <- Hrecs, (bi_config _ _ Hob) in Hfull. rewrite Forall_fmap in Hfull.
    rewrite !Forall_and. done.
  - intros u. rewrite !elem_of_app. specialize (Hmem u). rewrite Hsegs in Hmem. tauto.
  - rewrite !NoDup_app, !not_elem_of_app. intros (Hnd1 & Hd1 & Hnd2 & Hd2 & Hnd3) (Ht1 & Ht2 & Ht3).
    destruct (Hnd (Hsnd Hnd2 Ht2)) as [Hnds Hco]. split.
    + split; [done|]. split; [|split; [done|split; [|done]]].
      * intros u Hu. specialize (Hd1 u Hu). rewrite elem_of_app in *.
        intros [Hu'|?]; [|tauto]. assert (u ∈ segs.*1) as [?|[-> _]]%Hsegs by (apply Hmem; tauto); tauto.
      * intros u Hu Hu'. assert (u ∈ segs.*1) as [?|[-> _]]%Hsegs by (apply Hmem; tauto); [|done].
        by apply (Hd2 u).
    + assert (forall u, u ∈ (seg_commit_seq <$> concat (sub_segments <$> subs)) ->
        u ∉ tickets_of before /\ u ∉ tickets_of after) as Hout.
      { intros u Hu. assert (u ∈ segs.*1) as [Hu'|[-> _]]%Hsegs by (apply Hmem; tauto); [|done].
        split; [|by apply Hd2]. intros Hx. apply (Hd1 u Hx). rewrite elem_of_app. tauto. }
      eapply complete_ok_rel; [|done]. intros u Hu. specialize (Hout u Hu). rewrite !elem_of_app. tauto.
Qed.

Lemma chunk_buffer_attributed o origin before known ob after :
  chunk_buffer o origin before known ob after ->
  attributed_all o = all_of before ++ attributed_buffer ob ++ all_of after.
Proof.
  unfold attributed_all. fold (all_of (buffers o)).
  intros [_ [[-> _]|(-> & -> & _ & Hb & _)]]; [by rewrite all_of_app, all_of_cons|].
  unfold attributed_buffer. rewrite Hb. simpl. by rewrite !app_nil_r.
Qed.

(** The same push on the flat list of buffered records. *)
Lemma obs_push_flat now o origin records t :
  buffers_inv o ->
  exists o' subs before old kept after,
    obs_push now o origin records t = Some (o', subs) /\ buffers_inv o' /\
    obs_config o' = obs_config o /\
    attributed_all o = before ++ old ++ after /\ attributed_all o' = before ++ kept ++ after /\
    concat (attributed <$> subs) ++ kept = old ++ ((fun r => (r, t)) <$> records) /\
    Forall (fun s => sub_origin s = origin /\
      WriteBatch_len (sub_records s) = max_batch_records (obs_config o) /\ submission_ok s) subs /\
    (forall u, u ∈ seg_commit_seq <$> concat (sub_segments <$> subs) \/ u ∈ buffered_tickets o' <->
      u ∈ buffered_tickets o \/ (u = t /\ records ≠ [])) /\
    (NoDup (buffered_tickets o) -> t ∉ buffered_tickets o ->
      NoDup (buffered_tickets o') /\ complete_ok (concat (sub_segments <$> subs)) (buffered_tickets o')).
Proof.
  intros Hinv. destruct (obs_push_spec now o origin records t Hinv)
    as (o' & subs & before & known & ob & ob' & after & ? & Hi & Hc & Hcb & Hb & ? & ? & ? & ?).
  exists o', subs, (all_of before), (attributed_buffer ob), (attributed_buffer ob'), (all_of after).
  split; [done|]. split; [done|]. split; [done|]. split; [by eapply chunk_buffer_attributed|].
  split; [|done].
  unfold attributed_all. rewrite Hb. fold (all_of (before ++ kept_buffer known ob' ++ after)).
  rewrite !all_of_app. do 2 f_equal. unfold kept_buffer.
  destruct (OriginBuffer_is_empty ob') eqn:He; [|unfold all_of; simpl; by rewrite app_nil_r].
  apply is_empty_true in He as [He _]. unfold attributed_buffer. by rewrite He.
Qed.

(** What both flushing functions do to one batcher. *)
Definition flushes (f : InsertBatcher T -> InsertBatcher T * option (WriteBatch T)) : Prop :=
  forall b, batcher_inv b ->
    batcher_inv (f b).1 /\ config (f b).1 = config b /\
    (((f b).2 = None /\ (f b).1 = b) \/
     ((f b).2 = Some (from_vec (buffer b)) /\ buffer b ≠ [] /\ buffer (f b).1 = [])).

Lemma flush_flushes : flushes InsertBatcher.flush.
Proof.
  intros b Hb. destruct (flush b) as [b' out] eqn:H. pose proof H as H'.
  apply flush_spec in H as (? & ? & Hb' & ->); [|done]. split; [done|]. split; [done|]. simpl.
  unfold is_empty, flush in *. destruct (buffer b) eqn:Hbuf; simplify_eq; [by left|right; eauto].
Qed.

Lemma flush_if_expired_flushes now : flushes (InsertBatcher.flush_if_expired now).
Proof.
  intros b Hb. destruct (flush_if_expired now b) as [b' out] eqn:H.
  apply flush_if_expired_spec in H as (? & ? & Hcase); [|done]. split; [done|]. split; [done|]. simpl.
  destruct Hcase as [[-> ->]|(He & Hb' & -> & _)]; [by left|right].
  unfold is_empty in He. destruct (buffer b); naive_solver.
Qed.

Definition is_flushed (f : InsertBatcher T -> InsertBatcher T * option (WriteBatch T))
    (p : BatchOrigin * OriginBuffer) : Prop := is_Some (f (ob_batcher p.2)).2.

#[export] Instance is_flushed_dec f p : Decision (is_flushed f p).
Proof. unfold is_flushed. apply _. Defined.

(** An active buffer is never skipped by an unconditional flush. *)
Lemma active_is_flushed c p : buf_ok c p -> is_flushed InsertBatcher.flush p.
Proof.
  intros [Hob Hne]. unfold is_flushed, flush. destruct (buffer (ob_batcher p.2)) eqn:Hbuf; [|done].
  assert (OriginBuffer_is_empty p.2 = true); [|congruence].
  apply is_empty_true. eauto using buffer_inv_drained.
Qed.

Lemma flush_leaves_none c bufs :
  Forall (buf_ok c) bufs -> filter (fun p => ~ is_flushed InsertBatcher.flush p) bufs = [].
Proof.
  intros Hall. apply filter_none. eapply Forall_impl; [exact Hall|].
  intros p Hp Hn. by eapply Hn, active_is_flushed.
Qed.

(** The submission of a whole buffer. *)
Definition whole_submission (p : BatchOrigin * OriginBuffer) : Submission :=
  Submission_new p.1 (from_vec (buffer (ob_batcher p.2)))
    ((fun s => mk_segment s.1 s.2 true) <$> ob_segments p.2).

Lemma flush_loop_spec f c bufs :
  flushes f -> Forall (buf_ok c) bufs ->
  exists bufs', flush_loop f bufs = Some (bufs', whole_submission <$> filter (is_flushed f) bufs) /\
    retain_active bufs' = filter (fun p => ~ is_flushed f p) bufs.
Proof.
  intros Hf. induction 1 as [|[origin ob] bufs [Hob Hne] _ IH]; [by exists []|].
  destruct IH as (bufs' & IH & Hret). simpl in Hob, Hne.
  destruct (Hf (ob_batcher ob) (bi_batcher _ _ Hob)) as (_ & _ & [[Hn Hb]|(Hs & Hbuf & Hb)]);
    cbn [flush_loop]; destruct (f (ob_batcher ob)) as [batcher out] eqn:Hfo; simpl in *; subst.
  - rewrite IH. simpl. rewrite (filter_cons_False (is_flushed f)), filter_cons_True.
    + eexists. split; [done|]. unfold retain_active in *.
      rewrite filter_cons_True; [by rewrite Hret; destruct ob|]. by destruct ob.
    + unfold is_flushed. simpl. rewrite Hfo. by intros [].
    + unfold is_flushed. simpl. rewrite Hfo. by intros [].
  - unfold WriteBatch_len. simpl. rewrite <- (bi_segments _ _ Hob), consume_all by apply Hob.
    simpl. rewrite IH. simpl. assert (is_flushed f (origin, ob)) as Hfl.
    { unfold is_flushed. simpl. by rewrite Hfo. }
    rewrite (filter_cons_True (is_flushed f)), filter_cons_False by tauto.
    eexists. split; [done|]. unfold retain_active in *. rewrite filter_cons_False; [done|].
    simpl. rewrite not_false_iff_true, is_empty_true. done.
Qed.

Lemma whole_submission_spec c p :
  buf_ok c p ->
  attributed (whole_submission p) = attributed_buffer p.2 /\ submission_ok (whole_submission p) /\
  0 < WriteBatch_len (sub_records (whole_submission p)) < max_batch_records c /\
  seg_commit_seq <$> sub_segments (whole_submission p) = (ob_segments p.2).*1 /\
  Forall (fun g => seg_complete g = true) (sub_segments (whole_submission p)).
Proof.
  intros [Hob Hne]. destruct p as [origin ob]. simpl in *.
  unfold attributed, submission_ok, WriteBatch_len. simpl. rewrite expand_completed.
  pose proof Hob as [Hbi Hcfg Hlen Hpos].
  split; [done|]. split; [split; [done|split; [by apply Forall_fmap|done]]|]. split; [|split].
  - pose proof (inv_space _ Hbi). rewrite Hcfg in *. split; [|done].
    destruct (buffer (ob_batcher ob)) eqn:Hb; simpl; [|lia].
    assert (OriginBuffer_is_empty ob = true); [|congruence].
    apply is_empty_true. eauto using buffer_inv_drained.
  - by rewrite <- list_fmap_compose.
  - apply Forall_fmap, Forall_true. done.
Qed.

Lemma concat_filter_split {A B} (f : A -> list B) (P : A -> Prop) `{!forall x, Decision (P x)} (l : list A) :
  concat (f <$> filter P l) ++ concat (f <$> filter (fun x => ~ P x) l) ≡ₚ concat (f <$> l).
Proof.
  induction l as [|x l IH]; [done|]. destruct (decide (P x)) as [Hx|Hx].
  - rewrite filter_cons_True, (filter_cons_False (fun x => ~ P x)) by tauto.
    rewrite !fmap_cons. cbn [concat]. by rewrite <- app_assoc, IH.
  - rewrite filter_cons_False, (filter_cons_True (fun x => ~ P x)) by tauto.
    rewrite !fmap_cons. cbn [concat]. rewrite <- IH, !app_assoc. by rewrite (Permutation_app_comm _ (f x)).
Qed.

(** Both flushes: whole buffers leave in buffer order, the others stay. *)
Lemma flush_with_spec f o :
  flushes f -> buffers_inv o ->
  let gone := filter (is_flushed f) (buffers o) in
  exists o', flush_with f o = Some (o', whole_submission <$> gone) /\ buffers_inv o' /\
    obs_config o' = obs_config o /\
    buffers o' = filter (fun p => ~ is_flushed f p) (buffers o) /\
    concat (attributed <$> (whole_submission <$> gone)) ++ attributed_all o' ≡ₚ attributed_all o /\
    seg_commit_seq <$> concat (sub_segments <$> (whole_submission <$> gone)) = tickets_of gone /\
    tickets_of gone ++ buffered_tickets o' ≡ₚ buffered_tickets o /\
    Forall (fun g => seg_complete g = true) (concat (sub_segments <$> (whole_submission <$> gone))) /\
    Forall (fun s => submission_ok s /\
      0 < WriteBatch_len (sub_records s) < max_batch_records (obs_config o)) (whole_submission <$> gone).
Proof.
  intros Hf [Hm Hall]%buffers_inv_alt gone. unfold flush_with.
  destruct (flush_loop_spec f _ _ Hf Hall) as (bufs' & -> & Hret). simpl. fold gone.
  assert (Forall (buf_ok (obs_config o)) gone) as Hgone by (by apply Forall_filter_weaken).
  eexists. split; [done|]. rewrite Hret. split.
  { apply buffers_inv_alt. simpl. split; [done|]. by apply Forall_filter_weaken. }
  split; [done|]. split; [done|].
  pose proof (fun p Hp => whole_submission_spec _ p (proj1 (Forall_forall _ gone) Hgone p Hp)) as Hspec.
  split; [|split; [|split; [|split]]].
  - rewrite <- list_fmap_compose.
    rewrite (list_fmap_ext _ (fun p => attributed_buffer p.2) gone).
    + apply concat_filter_split.
    + intros i p Hi. apply Hspec. by eapply list_elem_of_lookup_2.
  - clear -Hspec. induction gone as [|p gone IH]; [done|].
    rewrite !fmap_cons. cbn [concat]. rewrite fmap_app, tickets_of_cons. f_equal.
    + apply Hspec. left.
    + apply IH. intros q Hq. apply Hspec. by right.
  - apply concat_filter_split.
  - apply Forall_concat, Forall_fmap, Forall_fmap, Forall_forall. intros p Hp. by apply Hspec.
  - apply Forall_fmap, Forall_forall. intros p Hp.
    destruct (Hspec p Hp) as (_ & ? & ? & _). done.
Qed.

Lemma flush_complete_ok f o o' :
  flushes f -> buffers_inv o ->
  flush_with f o = Some (o', whole_submission <$> filter (is_flushed f) (buffers o)) ->
  NoDup (buffered_tickets o) ->
  NoDup (buffered_tickets o') /\
  complete_ok (concat (sub_segments <$> (whole_submission <$> filter (is_flushed f) (buffers o))))
    (buffered_tickets o').
Proof.
  intros Hf Hinv Heq Hnd. destruct (flush_with_spec f o Hf Hinv) as (o1 & Heq1 & _ & _ & _ & _ & Ht & Hp & Hc & _).
  rewrite Heq in Heq1. simplify_eq. rewrite <- Hp, NoDup_app in Hnd. split; [apply Hnd|].
  apply complete_ok_all; [done|]. rewrite Ht. by apply NoDup_app.
Qed.

Lemma OriginBuffers_new_inv c : max_batch_records c ≠ 0 -> buffers_inv (OriginBuffers_new c).
Proof. intros. by split. Qed.

(** The earliest deadline is a lower bound of all of them. *)
Lemma obs_deadline_spec o d :
  obs_deadline o = Some d ->
  (exists p, p ∈ buffers o /\ deadline (ob_batcher p.2) = Some d) /\
  (forall p d', p ∈ buffers o -> deadline (ob_batcher p.2) = Some d' -> (d <= d')%N).
Proof.
  unfold obs_deadline. revert d. induction (buffers o) as [|q l IH]; simpl; intros d H; [done|].
  set (rest := foldr _ _ l) in *.
  assert (rest = None -> forall p, p ∈ l -> deadline (ob_batcher p.2) = None) as Hnone.
  { clear. subst rest. induction l as [|q l IH]; simpl; [set_solver|].
    intros H p [->|Hp]%elem_of_cons.
    - by destruct (deadline (ob_batcher q.2)), (foldr _ _ l).
    - apply IH; [|done]. by destruct (deadline (ob_batcher q.2)), (foldr _ _ l). }
  destruct (deadline (ob_batcher q.2)) as [dq|] eqn:Hq, rest as [dr|]; simplify_eq/=.
  - destruct (IH dr eq_refl) as [(p & Hp & Hd) Hmin]. split.
    + destruct (N.min_spec dq dr) as [[_ ->]|[_ ->]]; [exists q|exists p]; split; try done; [left|by right].
    + intros p' d' [->|Hp']%elem_of_cons Hd'; [simplify_eq; lia|]. specialize (Hmin _ _ Hp' Hd'). lia.
  - split; [exists q; split; [left|done]|].
    intros p' d' [->|Hp']%elem_of_cons Hd'; [simplify_eq; lia|]. rewrite Hnone in Hd' by done. done.
  - destruct (IH d eq_refl) as [(p & Hp & Hd) Hmin]. split; [exists p; split; [by right|done]|].
    intros p' d' [->|Hp']%elem_of_cons Hd'; [congruence|]. by eapply Hmin.
Qed.

End buffers.

Arguments Submission : clear implicits.
Arguments OriginBuffer : clear implicits.
Arguments OriginBuffers : clear implicits.


(** ** Claims *)

(** C14: pushing a chunk never panics and routes every record with its ticket.
    The chunk goes to the first buffer whose origin compares equal to its own,
    or to a fresh one at the end when there is none; every other buffer is kept
    as it is and in its place, and the chunk's buffer is dropped once it is
    empty.  Read in order, the emitted records followed by what that buffer
    keeps are what it held followed by the chunk,
    every emitted batch has exactly [max_batch_records] records partitioned by
    its segments into non-empty runs, and, when the ticket is fresh, a segment
    is marked complete exactly when no later segment and no buffered record
    belongs to its ticket. *)
Theorem push_attribution {T} now (o : OriginBuffers T) origin records t :
  buffers_inv o ->
  exists o' subs before known ob ob' after,
    obs_push now o origin records t = Some (o', subs) /\ buffers_inv o' /\
    chunk_buffer o origin before known ob after /\
    buffers o' = before ++ (if OriginBuffer_is_empty ob' then [] else [(known, ob')]) ++ after /\
    concat (attributed <$> subs) ++ attributed_buffer ob' =
      attributed_buffer ob ++ ((fun r => (r, t)) <$> records) /\
    Forall (fun s => sub_origin s = origin /\
      WriteBatch_len (sub_records s) = max_batch_records (obs_config o) /\ submission_ok s) subs /\
    (NoDup (buffered_tickets o) -> t ∉ buffered_tickets o ->
      NoDup (buffered_tickets o') /\
      complete_ok (concat (sub_segments <$> subs)) (buffered_tickets o')).
Proof.
  intros Hinv. destruct (obs_push_spec now o origin records t Hinv)
    as (o' & subs & before & known & ob & ob' & after & ? & ? & _ & ? & ? & ? & ? & _ & ?).
  exists o', subs, before, known, ob, ob', after. done.
Qed.

Definition small_config : InsertBatcherConfig := {| max_batch_records := 4; max_batch_age := 10%N |}.

Lemma push_attribution_witness :
  exists o1 o2, obs_push (fun _ => 0%N) (OriginBuffers_new small_config) BatchOrigin_default [1; 2] 3%N
      = Some (o1, []) /\
    obs_push (fun _ => 0%N) o1 BatchOrigin_default [3; 4; 5; 6; 7] 7%N =
      Some (o2, [mk_submission BatchOrigin_default (from_vec [1; 2; 3; 4]) [3%N; 7%N]
                   [mk_segment 3 2 true; mk_segment 7 2 false]]) /\
    buffers_inv o2.
Proof.
  assert (buffers_inv (T:=nat) (OriginBuffers_new small_config)) as H0 by (by apply OriginBuffers_new_inv).
  destruct (push_attribution (fun _ => 0%N) _ BatchOrigin_default [1; 2] 3%N H0)
    as (o1 & subs1 & b1 & n1 & l1 & k1 & a1 & H1 & Hinv1 & _).
  destruct (push_attribution (fun _ => 0%N) _ BatchOrigin_default [3; 4; 5; 6; 7] 7%N Hinv1)
    as (o2 & subs2 & b2 & n2 & l2 & k2 & a2 & H2 & Hinv2 & _).
  exists o1, o2. vm_compute in H1. simplify_eq. split; [by vm_compute|]. split; [|done].
  rewrite H2. vm_compute in H2. by simplify_eq.
Defined.

(** An unconditional flush never panics and leaves nothing behind: it
    empties the buffers and emits one batch per buffer, in buffer order, that
    holds all its records with their tickets, every segment being complete. *)
Theorem flush_all_drains {T} (o : OriginBuffers T) :
  buffers_inv o ->
  exists o' subs, flush_all o = Some (o', subs) /\ buffers o' = [] /\ obs_buffered o' = 0 /\
    sub_origin <$> subs = (buffers o).*1 /\
    attributed <$> subs = (fun p => attributed_buffer p.2) <$> buffers o /\
    Forall (fun s => submission_ok s /\ 0 < WriteBatch_len (sub_records s) /\
      Forall (fun g => seg_complete g = true) (sub_segments s)) subs.
Proof.
  intros Hinv. destruct (flush_with_spec flush o flush_flushes Hinv) as (o' & Heq & _ & _ & Hb & _).
  pose proof Hinv as [_ Hok]%buffers_inv_alt.
  rewrite (flush_leaves_none _ _ Hok) in Hb.
  rewrite (filter_all (is_flushed flush)) in Heq
    by (eapply Forall_impl; [exact Hok|]; apply active_is_flushed).
  exists o', (whole_submission <$> buffers o). split; [done|]. split; [done|].
  split; [by unfold obs_buffered; rewrite Hb|].
  apply buffers_inv_alt in Hinv as [_ Hi]. rewrite Forall_forall in Hi.
  split; [by rewrite <- list_fmap_compose|]. split.
  - rewrite <- list_fmap_compose. apply list_fmap_ext. intros i p Hp.
    apply list_elem_of_lookup_2, Hi in Hp. by apply whole_submission_spec in Hp as [? _].
  - apply Forall_fmap, Forall_forall. intros p Hp%Hi.
    apply whole_submission_spec in Hp as (_ & ? & [? _] & _ & ?). done.
Qed.

Lemma flush_all_drains_witness :
  exists o1 o2, obs_push (fun _ => 0%N) (OriginBuffers_new small_config) BatchOrigin_default [1; 2] 3%N
      = Some (o1, []) /\
    flush_all o1 = Some (o2, [mk_submission BatchOrigin_default (from_vec [1; 2]) [3%N]
                                [mk_segment 3 2 true]]) /\ obs_buffered o2 = 0.
Proof.
  destruct (obs_push_flat (fun _ => 0%N) (OriginBuffers_new small_config) BatchOrigin_default [1; 2] 3%N
    ltac:(by apply OriginBuffers_new_inv)) as (o1 & subs & ? & ? & ? & ? & H1 & Hinv & _).
  destruct (flush_all_drains o1 Hinv) as (o2 & subs2 & H2 & _ & Hb & _).
  exists o1, o2. vm_compute in H1. simplify_eq. split; [by vm_compute|]. split; [|done].
  rewrite H2. vm_compute in H2. by simplify_eq.
Defined.

(** A deadline check emits exactly the buffers whose deadline has passed,
    whole, keeps the others untouched, and leaves no deadline at or before
    [now]: the driver's next timeout is strictly in the future. *)
Theorem flush_expired_exact {T} now (o : OriginBuffers T) :
  buffers_inv o ->
  let expired (p : BatchOrigin * OriginBuffer T) : Prop :=
    match deadline (ob_batcher p.2) with Some d => (d <= now)%N | None => False end in
  exists o' subs, flush_expired now o = Some (o', subs) /\
    (forall p, p ∈ buffers o' <-> p ∈ buffers o /\ ~ expired p) /\
    (forall s, s ∈ subs <-> exists p, p ∈ buffers o /\ expired p /\ s = whole_submission p) /\
    (forall d, obs_deadline o' = Some d -> (now < d)%N) /\
    concat (attributed <$> subs) ++ attributed_all o' ≡ₚ attributed_all o.
Proof.
  intros Hinv expired.
  destruct (flush_with_spec _ o (flush_if_expired_flushes now) Hinv) as (o' & Heq & _ & _ & Hb & Hp & _).
  assert (forall p, p ∈ buffers o -> is_flushed (flush_if_expired now) p <-> expired p) as Hiff.
  { intros p Hpin. unfold is_flushed, expired, flush_if_expired.
    apply buffers_inv_alt in Hinv as [_ Hi]. rewrite Forall_forall in Hi. destruct (Hi p Hpin) as [Hob _].
    destruct (deadline (ob_batcher p.2)) as [d|] eqn:Hd; [|by split; [intros []|]].
    assert (buffer (ob_batcher p.2) ≠ []) as Hne.
    { intros Hx. apply (inv_deadline _ (bi_batcher _ _ Hob)) in Hx. congruence. }
    destruct (d <=? now)%N eqn:Hle; bool_to_prop.
    - unfold flush. by destruct (buffer (ob_batcher p.2)).
    - simpl. split; [by intros []|lia]. }
  assert (forall p, p ∈ buffers o' <-> p ∈ buffers o /\ ~ expired p) as Hmem.
  { intros p. rewrite Hb, list_elem_of_filter. split; intros [? ?]; split; rewrite ?Hiff in *; done. }
  eexists o', _. split; [exact Heq|]. split; [done|]. split; [|split; [|done]].
  - intros s. rewrite list_elem_of_fmap. setoid_rewrite list_elem_of_filter. split.
    + intros (p & -> & Hf & Hpin). exists p. rewrite <- Hiff by done. done.
    + intros (p & Hpin & Hex & ->). exists p. rewrite Hiff by done. done.
  - intros d Hd. apply obs_deadline_spec in Hd as [(p & [Hpin Hn]%Hmem & Hd) _].
    unfold expired in Hn. rewrite Hd in Hn. lia.
Qed.

Lemma flush_expired_exact_witness :
  exists o1 o2, obs_push (fun _ => 5%N) (OriginBuffers_new small_config) BatchOrigin_default [1; 2] 3%N
      = Some (o1, []) /\
    flush_expired 15%N o1 = Some (o2, [mk_submission BatchOrigin_default (from_vec [1; 2]) [3%N]
                                [mk_segment 3 2 true]]) /\
    (forall d, obs_deadline o2 = Some d -> (15 < d)%N).
Proof.
  destruct (obs_push_flat (fun _ => 5%N) (OriginBuffers_new small_config) BatchOrigin_default [1; 2] 3%N
    ltac:(by apply OriginBuffers_new_inv)) as (o1 & subs & ? & ? & ? & ? & H1 & Hinv & _).
  destruct (flush_expired_exact 15%N o1 Hinv) as (o2 & subs2 & H2 & _ & _ & Hb & _).
  exists o1, o2. vm_compute in H1. simplify_eq. split; [by vm_compute|]. split; [|done].
  rewrite H2. vm_compute in H2. by simplify_eq.
Defined.

(** ** Resource attribution *)

Section origins.
Context {R : Type}.

(** Histories in which every record carries the origin of its chunk; [out] is
    everything emitted so far. *)
Inductive obs_history (c : InsertBatcherConfig)
    : OriginBuffers (BatchOrigin * R) -> list (Submission (BatchOrigin * R)) -> Prop :=
| oh_new : max_batch_records c ≠ 0 -> obs_history c (OriginBuffers_new c) []
| oh_push o out now origin records t o' subs :
    obs_history c o out -> origin_no_double origin = true ->
    obs_push now o origin (pair origin <$> records) t = Some (o', subs) ->
    obs_history c o' (out ++ subs)
| oh_flush_all o out o' subs :
    obs_history c o out -> flush_all o = Some (o', subs) -> obs_history c o' (out ++ subs)
| oh_flush_expired o out now o' subs :
    obs_history c o out -> flush_expired now o = Some (o', subs) -> obs_history c o' (out ++ subs).

Definition tag_ok (p : BatchOrigin * OriginBuffer (BatchOrigin * R)) : Prop :=
  origin_no_double p.1 = true /\ Forall (fun x => x.1 = p.1) (buffer (ob_batcher p.2)).

Definition from_origin (s : Submission (BatchOrigin * R)) : Prop :=
  Forall (fun x => x.1 = sub_origin s) (batch_records (sub_records s)).

Lemma consume_batches_records origin segs (output : list (WriteBatch (BatchOrigin * R))) subs segs' :
  consume_batches origin segs output = Some (subs, segs') ->
  sub_records <$> subs = output /\ Forall (fun s => sub_origin s = origin) subs.
Proof.
  revert segs subs segs'. induction output as [|b output IH]; intros segs subs segs'; simpl.
  { by intros [= <- <-]. }
  destruct (consume segs _) as [[out segs1]|]; simpl; [|done].
  destruct (consume_batches origin segs1 output) as [[subs2 segs2]|] eqn:H2; simpl; [|done].
  intros [= <- <-]. apply IH in H2 as [Heq ?]. split; [by rewrite fmap_cons, Heq|]. by constructor.
Qed.

Lemma push_from_origin now o origin (records : list R) t o' subs :
  buffers_inv o -> Forall tag_ok (buffers o) -> origin_no_double origin = true ->
  obs_push now o origin (pair origin <$> records) t = Some (o', subs) ->
  Forall tag_ok (buffers o') /\ Forall from_origin subs.
Proof.
  intros Hinv Htags Hnd. unfold obs_push.
  destruct (locate_spec o origin Hinv) as (before & known & ob & after & -> & Hob & _ & _ & _ & _ & _ & Hcase).
  simpl. destruct (push _ _ _) as [batcher output] eqn:Hp.
  apply push_spec in Hp as (Hcat & _); [|apply Hob].
  destruct (consume_batches origin _ output) as [[emitted segs']|] eqn:Hc; simpl; [|done].
  intros [= <- <-]. apply consume_batches_records in Hc as [Hrecs Horig].
  assert (Forall tag_ok before /\ Forall tag_ok after /\ known = origin /\
    Forall (fun x => x.1 = origin) (buffer (ob_batcher ob))) as (Hb & Ha & -> & Hold).
  { destruct Hcase as [[Heq He]|(-> & -> & -> & -> & _)]; [|done].
    rewrite Heq in Htags. apply Forall_app in Htags as [Hb [[Hk Hold] Ha]%Forall_cons]. simpl in *.
    apply origin_eqb_eq in He as ->; done. }
  assert (Forall (fun x => x.1 = origin) (concat (batch_records <$> output) ++ buffer batcher)) as Hx.
  { rewrite Hcat. apply Forall_app. split; [done|]. by apply Forall_fmap, Forall_true. }
  apply Forall_app in Hx as [Hout Hkept]. split.
  - simpl. rewrite !Forall_app. split; [done|]. split; [|done]. case_match; [done|].
    by apply Forall_singleton.
  - rewrite <- Hrecs, Forall_concat, !Forall_fmap in Hout.
    rewrite Forall_forall in Hout, Horig |- *. intros s Hs. unfold from_origin.
    rewrite (Horig s Hs). by apply Hout.
Qed.

Lemma flush_from_origin f (o o' : OriginBuffers (BatchOrigin * R)) subs :
  flushes f -> buffers_inv o -> Forall tag_ok (buffers o) -> flush_with f o = Some (o', subs) ->
  buffers_inv o' /\ Forall tag_ok (buffers o') /\ Forall from_origin subs.
Proof.
  intros Hf Hinv Htags H. destruct (flush_with_spec f o Hf Hinv) as (o1 & Heq & Hi & _ & Hb & _).
  rewrite H in Heq. simplify_eq. split; [done|]. split.
  - rewrite Hb. by apply Forall_filter_weaken.
  - apply Forall_fmap. eapply Forall_impl; [by apply Forall_filter_weaken|]. intros p [_ Hp]. done.
Qed.

Lemma obs_history_inv c o out :
  obs_history c o out -> buffers_inv o /\ Forall tag_ok (buffers o) /\ Forall from_origin out.
Proof.
  induction 1 as [Hm|o out now origin records t o' subs _ (Hi & Ht & Ho) Hnd Hp
                 |o out o' subs _ (Hi & Ht & Ho) Hp|o out now o' subs _ (Hi & Ht & Ho) Hp].
  - split; [by apply OriginBuffers_new_inv|done].
  - destruct (obs_push_flat now o origin (pair origin <$> records) t Hi)
      as (o1 & subs1 & ? & ? & ? & ? & Hp' & Hi' & _). simplify_eq.
    destruct (push_from_origin _ _ _ _ _ _ _ Hi Ht Hnd Hp). split; [done|]. by rewrite Forall_app.
  - apply flush_from_origin in Hp as (? & ? & ?); [|apply flush_flushes|done|done].
    by rewrite Forall_app.
  - apply flush_from_origin in Hp as (? & ? & ?); [|apply flush_if_expired_flushes|done|done].
    by rewrite Forall_app.
Qed.

(** Records are never attributed to another resource: in every history of
    pushes and flushes of origins without floating-point attributes, all
    records of an emitted batch come from chunks of exactly that batch's
    origin. *)
Theorem submission_single_origin c o out s :
  obs_history c o out -> s ∈ out ->
  Forall (fun x => x.1 = sub_origin s) (batch_records (sub_records s)).
Proof. intros (_ & _ & Hout)%obs_history_inv Hs. rewrite Forall_forall in Hout. by apply Hout. Qed.

End origins.

Lemma submission_single_origin_witness :
  let a := {| origin_resource := None; origin_schema_url := "a" |} in
  let b := {| origin_resource := None; origin_schema_url := "b" |} in
  exists o out s, obs_history (R:=nat) small_config o out /\ s ∈ out /\ sub_origin s = b /\
    Forall (fun x => x.1 = sub_origin s) (batch_records (sub_records s)).
Proof.
  intros a b.
  destruct (obs_push (fun _ => 0%N) (OriginBuffers_new small_config) a (pair a <$> [1; 2]) 1%N)
    as [[o1 s1]|] eqn:H1; [|by vm_compute in H1].
  destruct (obs_push (fun _ => 0%N) o1 b (pair b <$> [3; 4; 5; 6]) 2%N) as [[o2 s2]|] eqn:H2;
    [|by vm_compute in H1; simplify_eq; vm_compute in H2].
  assert (obs_history (R:=nat) small_config o2 (([] ++ s1) ++ s2)) as Hh.
  { eapply (oh_push _ _ _ _ b); [|done|exact H2].
    eapply (oh_push _ _ _ _ a); [|done|exact H1]. by constructor. }
  vm_compute in H1. simplify_eq. vm_compute in H2. simplify_eq.
  eexists _, _, _. split; [exact Hh|]. split; [left|]. split; [reflexivity|].
  apply (submission_single_origin small_config _ _ _ Hh). left.
Defined.

(** With floating-point attributes the promise does not hold as stated:
    [-0.0 == 0.0], so two resources that differ only in the sign of a zero
    share a buffer, and the record of the first is emitted under the origin of
    the second. *)
Theorem signed_zero_origins_merge :
  let with_zero d := {| origin_resource := Some (Model.Resource_new [("x", Model.VDouble d)]);
                        origin_schema_url := "" |} in
  let plus := with_zero 0%N in
  let minus := with_zero (2 ^ 63)%N in
  plus ≠ minus /\
  exists o1 o2 s, obs_push (fun _ => 0%N) (OriginBuffers_new small_config) minus [minus] 1%N = Some (o1, []) /\
    obs_push (fun _ => 0%N) o1 plus [plus; plus; plus] 2%N = Some (o2, [s]) /\
    sub_origin s = plus /\ batch_records (sub_records s) = [minus; plus; plus; plus].
Proof.
  split; [intros H; vm_compute in H; discriminate H|].
  eexists _, _, _. split; [reflexivity|]. split; [reflexivity|]. split; reflexivity.
Qed.

End OriginBuffers.
