(* ===== verification/Enqueue.v ===== *)
(** * Queue admission
    ([crates/otel-sqlite-ingress/src/lib.rs] and [enqueue.rs])

    The bounded ingest channel with its all-or-nothing admission gate, and the
    hand-off of a request's chunks.  The gate is a mutex held from [reserve]
    until the guard is dropped, so producers are serialised; what still runs
    concurrently is the storage side, which receives, hangs up and settles
    tickets.  [enqueue] is therefore a function of a schedule of storage moves
    placed before every ticket issue and before every send. *)

From S2P Require Import Prelude Time Model Text Render Command CommitLedger.

Module Enqueue.
Import Time Model Command CommitLedger.

Local Open Scope string_scope.
Local Open Scope list_scope.
Local Open Scope N_scope.

(** ** The bounded channel *)

Record IngestChannel := {
  chan_queue : list IngestMessage;
  chan_connected : bool;  (** a receiver exists *)
  chan_log : list IngestMessage;  (** every message the channel ever accepted, in order *)
}.

Inductive TrySendError := TrySendFull | TrySendDisconnected.

(** [crossbeam_channel::Sender::try_send] on a channel of [capacity] slots. *)
Definition chan_try_send (capacity : N) (ch : IngestChannel) (m : IngestMessage)
    : IngestChannel * result TrySendError unit :=
  if negb (chan_connected ch) then (ch, Err TrySendDisconnected)
  else if capacity <=? N.of_nat (length (chan_queue ch)) then (ch, Err TrySendFull)
  else ({| chan_queue := chan_queue ch ++ [m]; chan_connected := chan_connected ch;
           chan_log := chan_log ch ++ [m] |}, Ok tt).

(** The receiver takes the oldest message. *)
Definition chan_recv (ch : IngestChannel) : IngestChannel :=
  {| chan_queue := tail (chan_queue ch); chan_connected := chan_connected ch;
     chan_log := chan_log ch |}.

(** The last receiver is dropped: the queued messages are discarded. *)
Definition chan_hang_up (ch : IngestChannel) : IngestChannel :=
  {| chan_queue := []; chan_connected := false; chan_log := chan_log ch |}.

(** ** The sender *)

Record IngestSender := {
  snd_inner : IngestChannel;
  snd_capacity : N;
}.

Inductive QueueFull := mk_QueueFull.
Inductive SendFailure := SendFull | SendDisconnected.
Inductive SendTimeoutFailure := TimeoutElapsed | TimeoutDisconnected.

Definition channel (capacity : N) : IngestSender :=
  {| snd_inner := {| chan_queue := []; chan_connected := true; chan_log := [] |};
     snd_capacity := capacity |}.

Definition sender_len (q : IngestSender) : N := N.of_nat (length (chan_queue (snd_inner q))).
Definition sender_is_empty (q : IngestSender) : bool :=
  match chan_queue (snd_inner q) with [] => true | _ => false end.
Definition capacity (q : IngestSender) : N := snd_capacity q.

Definition set_chan (q : IngestSender) (ch : IngestChannel) : IngestSender :=
  {| snd_inner := ch; snd_capacity := snd_capacity q |}.

(** The check of [reserve]; the guard it returns is the right to send. *)
Definition reserve (q : IngestSender) (n : N) : result QueueFull unit :=
  if sat_add (sender_len q) n <=? snd_capacity q then Ok tt else Err mk_QueueFull.

(** [AdmissionGuard::try_send]. *)
Definition try_send (q : IngestSender) (m : IngestMessage)
    : IngestSender * result SendFailure unit :=
  let (ch, r) := chan_try_send (snd_capacity q) (snd_inner q) m in
  (set_chan q ch,
   match r with
   | Ok _ => Ok tt
   | Err TrySendFull => Err SendFull
   | Err TrySendDisconnected => Err SendDisconnected
   end).

(** The retry loop of [send]: [drains] is what the storage side does to the
    channel while the loop sleeps; [None] while the loop is still retrying. *)
Fixpoint send (q : IngestSender) (m : IngestMessage)
    (drains : list (IngestChannel -> IngestChannel)) : IngestSender * option (result SendFailure unit) :=
  match chan_try_send (snd_capacity q) (snd_inner q) m with
  | (ch, Ok _) => (set_chan q ch, Some (Ok tt))
  | (ch, Err TrySendDisconnected) => (set_chan q ch, Some (Err SendDisconnected))
  | (ch, Err TrySendFull) =>
      match drains with
      | [] => (set_chan q ch, None)
      | drain :: drains' => send (set_chan q (drain ch)) m drains'
      end
  end.

(** The retry loop of [send_timeout]: each round reads the clock after its
    attempt; [deadline = now + timeout]. *)
Fixpoint send_timeout_loop (deadline : Instant) (q : IngestSender) (m : IngestMessage)
    (rounds : list (Instant * (IngestChannel -> IngestChannel)))
    : IngestSender * option (result SendTimeoutFailure unit) :=
  match chan_try_send (snd_capacity q) (snd_inner q) m with
  | (ch, Ok _) => (set_chan q ch, Some (Ok tt))
  | (ch, Err TrySendDisconnected) => (set_chan q ch, Some (Err TimeoutDisconnected))
  | (ch, Err TrySendFull) =>
      match rounds with
      | [] => (set_chan q ch, None)
      | (now, drain) :: rounds' =>
          if deadline <=? now then (set_chan q ch, Some (Err TimeoutElapsed))
          else send_timeout_loop deadline (set_chan q (drain ch)) m rounds'
      end
  end.

(** [Instant::now() + timeout] panics when the sum is not representable:
    [None]. *)
Definition send_timeout (start : Instant) (timeout : Duration) (q : IngestSender) (m : IngestMessage)
    (rounds : list (Instant * (IngestChannel -> IngestChannel)))
    : option (IngestSender * option (result SendTimeoutFailure unit)) :=
  match checked_add start timeout with
  | Some deadline => Some (send_timeout_loop deadline q m rounds)
  | None => None
  end.

(** ** What the storage side does meanwhile *)

Inductive StorageMove :=
| Receive
| HangUp
| Ledger_op (now_ms : N) (op : LedgerOp).

(** Storage never issues a ticket, and settles only issued ones. *)
Definition storage_op_allowed (l : CommitLedger) (op : LedgerOp) : bool :=
  match op with OpIssue => false | _ => op_allowed l op end.

Record Ingress := {
  ing_queue : IngestSender;
  ing_ledger : CommitLedger;
}.

Definition storage_move (st : Ingress) (mv : StorageMove) : Ingress :=
  match mv with
  | Receive =>
      {| ing_queue := set_chan (ing_queue st) (chan_recv (snd_inner (ing_queue st)));
         ing_ledger := ing_ledger st |}
  | HangUp =>
      {| ing_queue := set_chan (ing_queue st) (chan_hang_up (snd_inner (ing_queue st)));
         ing_ledger := ing_ledger st |}
  | Ledger_op now_ms op =>
      if storage_op_allowed (ing_ledger st) op then
        {| ing_queue := ing_queue st; ing_ledger := apply_op now_ms (ing_ledger st) op |}
      else st
  end.

Definition storage_runs (st : Ingress) (mvs : list StorageMove) : Ingress :=
  fold_left storage_move mvs st.

(** ** [enqueue] *)

Record EnqueueOutcome := {
  accepted : N;
  rejected : N;
  disconnected : bool;
  last_ticket : option N;
  total_records : N;
  tickets : list (N * N);
}.

Inductive IngressError :=
| Mapping (message : string).

Definition message_records (m : IngestMessage) : N := N.of_nat (IngestMessage_record_count m).

Fixpoint sum_records (work : list IngestMessage) : N :=
  match work with
  | [] => 0
  | m :: work' => message_records m + sum_records work'
  end.

(** The request's own outcome before any chunk is sent. *)
Definition fresh_outcome (total : N) : EnqueueOutcome :=
  {| accepted := 0; rejected := 0; disconnected := false; last_ticket := None;
     total_records := total; tickets := [] |}.

Definition accept_chunk (o : EnqueueOutcome) (ticket records : N) : EnqueueOutcome :=
  {| accepted := accepted o + records; rejected := rejected o; disconnected := disconnected o;
     last_ticket := Some ticket; total_records := total_records o;
     tickets := tickets o ++ [(ticket, records)] |}.

Definition refuse_rest (o : EnqueueOutcome) (gone : bool) : EnqueueOutcome :=
  {| accepted := accepted o; rejected := sat_sub (total_records o) (accepted o);
     disconnected := disconnected o || gone; last_ticket := last_ticket o;
     total_records := total_records o; tickets := tickets o |}.

(** The loop over the chunks with the gate held.  [moves (2 * k)] and
    [moves (2 * k + 1)] are what storage does before the [k]-th ticket is
    issued and before it is sent; [now_ms] is the clock of the settlements. *)
Fixpoint send_chunks (now_ms : N) (moves : nat -> list StorageMove) (k : nat)
    (work : list IngestMessage) (st : Ingress) (o : EnqueueOutcome) : Ingress * EnqueueOutcome :=
  match work with
  | [] => (st, o)
  | message :: work' =>
      let records := message_records message in
      let st := storage_runs st (moves (2 * k)%nat) in
      let (ticket, ledger) := issue (ing_ledger st) in
      let message := set_commit_seq message ticket in
      let st := storage_runs {| ing_queue := ing_queue st; ing_ledger := ledger |}
                             (moves (2 * k + 1)%nat) in
      match try_send (ing_queue st) message with
      | (queue, Ok _) =>
          send_chunks now_ms moves (S k) work'
            {| ing_queue := queue; ing_ledger := ing_ledger st |}
            (accept_chunk o ticket records)
      | (queue, Err SendFull) =>
          ({| ing_queue := queue; ing_ledger := void now_ms (ing_ledger st) ticket |},
           refuse_rest o false)
      | (queue, Err SendDisconnected) =>
          ({| ing_queue := queue; ing_ledger := void now_ms (ing_ledger st) ticket |},
           refuse_rest o true)
      end
  end.

Definition too_many_chunks (chunks capacity : N) : string :=
  String.concat ""
    ["request maps to "; Render.show_u64 chunks;
     " chunks, which exceeds the ingest queue capacity of "; Render.show_u64 capacity;
     "; split the request"].

Definition enqueue (now_ms : N) (moves : nat -> list StorageMove) (st : Ingress)
    (work : list IngestMessage) : Ingress * result IngressError EnqueueOutcome :=
  let total := sum_records work in
  if capacity (ing_queue st) <? N.of_nat (length work) then
    (st, Err (Mapping (too_many_chunks (N.of_nat (length work)) (capacity (ing_queue st)))))
  else
    match reserve (ing_queue st) (N.of_nat (length work)) with
    | Err _ =>
        (st, Ok {| accepted := 0; rejected := total; disconnected := false; last_ticket := None;
                   total_records := total; tickets := [] |})
    | Ok _ =>
        let (st', o) := send_chunks now_ms moves 0 work st (fresh_outcome total) in
        (st', Ok o)
    end.

(** ** Lemmas *)

(** What storage can do while a producer holds the gate: it drains, hangs up
    and settles, but sends nothing and issues nothing. *)
Record storage_effect (st st' : Ingress) : Prop := {
  se_inv : ledger_inv (ing_ledger st) -> ledger_inv (ing_ledger st');
  se_issued : next_ticket (ing_ledger st') = next_ticket (ing_ledger st);
  se_capacity : snd_capacity (ing_queue st') = snd_capacity (ing_queue st);
  se_len : sender_len (ing_queue st') <= sender_len (ing_queue st);
  se_log : chan_log (snd_inner (ing_queue st')) = chan_log (snd_inner (ing_queue st));
}.

Lemma storage_effect_refl st : storage_effect st st.
Proof. split; done. Qed.

Lemma storage_effect_trans st1 st2 st3 :
  storage_effect st1 st2 -> storage_effect st2 st3 -> storage_effect st1 st3.
Proof. intros [] []. split; try congruence; [auto|lia]. Qed.

Lemma apply_op_issued now_ms l op : op <> OpIssue -> next_ticket (apply_op now_ms l op) = next_ticket l.
Proof. destruct op; intros; simpl; try done; apply settle_next. Qed.

Lemma storage_move_effect st mv : storage_effect st (storage_move st mv).
Proof.
  destruct mv as [| |now_ms op]; simpl.
  - split; try done. simpl. unfold sender_len, set_chan. simpl.
    destruct (chan_queue _); simpl; lia.
  - split; try done. unfold sender_len. simpl. lia.
  - destruct (storage_op_allowed _ _) eqn:Hop; [|apply storage_effect_refl].
    assert (op <> OpIssue /\ op_allowed (ing_ledger st) op = true) as [Hne Hok] by by destruct op.
    split; try done; simpl; [intros; by apply apply_op_inv|by apply apply_op_issued].
Qed.

Lemma storage_runs_effect st mvs : storage_effect st (storage_runs st mvs).
Proof.
  revert st. induction mvs as [|mv mvs IH]; intros st; [apply storage_effect_refl|].
  eapply storage_effect_trans; [apply storage_move_effect|apply IH].
Qed.

(** [try_send] with room: it delivers exactly when a receiver exists. *)
Lemma try_send_spec q m :
  sender_len q < snd_capacity q ->
  let (q', r) := try_send q m in
  snd_capacity q' = snd_capacity q /\
  if chan_connected (snd_inner q) then
    r = Ok tt /\ sender_len q' = sender_len q + 1 /\
    chan_log (snd_inner q') = chan_log (snd_inner q) ++ [m]
  else r = Err SendDisconnected /\ q' = q.
Proof.
  intros Hroom. unfold try_send, chan_try_send, sender_len in *.
  destruct (chan_connected (snd_inner q)) eqn:Hc; simpl.
  - destruct (N.leb_spec (snd_capacity q) (N.of_nat (length (chan_queue (snd_inner q)))));
      [lia|]. simpl. rewrite length_app. simpl. repeat split. lia.
  - destruct q; simpl in *. split; [done|]. done.
Qed.

(** The chunks [sent] stamped with consecutive tickets from [n + 1]. *)
Fixpoint stamp (n : N) (sent : list IngestMessage) : list IngestMessage :=
  match sent with
  | [] => []
  | m :: sent' => set_commit_seq m (n + 1) :: stamp (n + 1) sent'
  end.

Fixpoint ticket_pairs (n : N) (sent : list IngestMessage) : list (N * N) :=
  match sent with
  | [] => []
  | m :: sent' => (n + 1, message_records m) :: ticket_pairs (n + 1) sent'
  end.

Lemma sum_records_app a b : sum_records (a ++ b) = sum_records a + sum_records b.
Proof. induction a; simpl; lia. Qed.

Lemma elem_of_ticket_pairs n sent t r :
  (t, r) ∈ ticket_pairs n sent -> n < t <= n + N.of_nat (length sent).
Proof.
  revert n. induction sent as [|m sent IH]; intros n H; simpl in *; [by apply not_elem_of_nil in H|].
  apply elem_of_cons in H as [[= -> ->]|H]; [lia|]. apply IH in H. lia.
Qed.

Lemma sum_ticket_pairs n sent :
  foldr (fun p acc => p.2 + acc) 0 (ticket_pairs n sent) = sum_records sent.
Proof. revert n. induction sent as [|m sent IH]; intros n; simpl; [done|]. by rewrite IH. Qed.

(** What the loop did: it delivered [sent] in order under consecutive tickets
    and, if storage hung up, voided the one ticket it could not send. *)
Record delivered (st : Ingress) (o : EnqueueOutcome) (sent rest : list IngestMessage)
    (st' : Ingress) (o' : EnqueueOutcome) : Prop := {
  dl_inv : ledger_inv (ing_ledger st');
  dl_log : chan_log (snd_inner (ing_queue st')) =
           chan_log (snd_inner (ing_queue st)) ++ stamp (next_ticket (ing_ledger st)) sent;
  dl_tickets : tickets o' = tickets o ++ ticket_pairs (next_ticket (ing_ledger st)) sent;
  dl_accepted : accepted o' = accepted o + sum_records sent;
  dl_total : total_records o' = total_records o;
  dl_last : last_ticket o' = match sent with
                             | [] => last_ticket o
                             | _ => Some (next_ticket (ing_ledger st) + N.of_nat (length sent))
                             end;
  dl_end : match rest with
           | [] => rejected o' = rejected o /\ disconnected o' = disconnected o /\
                   next_ticket (ing_ledger st') = next_ticket (ing_ledger st) + N.of_nat (length sent)
           | _ => rejected o' = total_records o - accepted o' /\ disconnected o' = true /\
                  chan_connected (snd_inner (ing_queue st')) = false /\
                  let voided := next_ticket (ing_ledger st) + N.of_nat (length sent) + 1 in
                  next_ticket (ing_ledger st') = voided /\
                  settled_state (state (ing_ledger st') voided) = true
           end;
}.

Lemma state_void_settled now_ms l t :
  ledger_inv l -> settled_state (state (void now_ms l t) t) = true.
Proof.
  intros Hinv. unfold void. rewrite state_settle by done. unfold abs_settle.
  rewrite N.eqb_refl. by destruct (state l t).
Qed.

Lemma send_chunks_spec now_ms moves k work st o :
  ledger_inv (ing_ledger st) ->
  next_ticket (ing_ledger st) + N.of_nat (length work) <= u64_max ->
  sender_len (ing_queue st) + N.of_nat (length work) <= snd_capacity (ing_queue st) ->
  exists sent rest, work = sent ++ rest /\
    delivered st o sent rest (send_chunks now_ms moves k work st o).1
                             (send_chunks now_ms moves k work st o).2.
Proof.
  revert k st o. induction work as [|m work IH]; intros k st o Hinv Hfit Hroom.
  { exists [], []. split; [done|]. split; simpl; rewrite ?app_nil_r; try done; try lia.
    repeat split. lia. }
  cbn [send_chunks]. rewrite length_cons, Nat2N.inj_succ in Hfit, Hroom.
  destruct (storage_runs_effect st (moves (2 * k)%nat)) as [Hi1 Hn1 Hc1 Hl1 Hg1].
  set (st1 := storage_runs st _) in *. specialize (Hi1 Hinv).
  unfold issue. rewrite wrap_add_small by (unfold u64_max in *; lia).
  match goal with |- context [storage_runs ?s (moves (2 * k + 1)%nat)] =>
    destruct (storage_runs_effect s (moves (2 * k + 1)%nat)) as [Hi2 Hn2 Hc2 Hl2 Hg2];
    set (st2 := storage_runs s _) in * end.
  cbn [ing_queue ing_ledger next_ticket] in *.
  assert (ledger_inv (ing_ledger st2)) as Hinv2.
  { apply Hi2. pose proof (issue_inv (ing_ledger st1) Hi1 ltac:(lia)) as H. unfold issue in H.
    rewrite wrap_add_small in H by lia. exact H. }
  rewrite Hn1 in *. pose proof (try_send_spec (ing_queue st2)
    (set_commit_seq m (next_ticket (ing_ledger st) + 1)) ltac:(lia)) as Hsend.
  destruct (try_send _ _) as [q' r]. destruct Hsend as [Hcap Hsend].
  destruct (chan_connected _) eqn:Hconn.
  - destruct Hsend as (-> & Hlen & Hlog).
    destruct (IH (S k) {| ing_queue := q'; ing_ledger := ing_ledger st2 |}
      (accept_chunk o (next_ticket (ing_ledger st) + 1) (message_records m)))
      as (sent & rest & -> & H); simpl; [done|lia|lia|].
    exists (m :: sent), rest. split; [done|]. destruct H as [D1 D2 D3 D4 D5 D6 D7].
    simpl in *. rewrite ?Hn2 in *.
    split; simpl.
    + done.
    + rewrite D2, Hlog, <- app_assoc, Hg2, Hg1. done.
    + rewrite D3, <- app_assoc. done.
    + lia.
    + done.
    + rewrite D6. destruct sent; simpl; f_equal; lia.
    + destruct rest; simpl in *; [|].
      * destruct D7 as (? & ? & ?). repeat split; try done. lia.
      * destruct D7 as (? & ? & ? & Hv & Hs). repeat split; try done; [lia|].
        rewrite <- Hs. do 2 f_equal. lia.
  - destruct Hsend as (-> & ->). exists [], (m :: work). split; [done|].
    split; simpl; rewrite ?app_nil_r; try done; [|by rewrite Hg2, Hg1|lia|].
    + unfold void. apply settle_inv; [done|]. lia.
    + rewrite orb_true_r. repeat split; [done|unfold void; rewrite settle_next; lia|].
      change (N.of_nat 0) with 0. rewrite N.add_0_r.
      by apply state_void_settled.
Qed.

(** [enqueue] on every branch. *)
Lemma enqueue_spec now_ms moves st work :
  ledger_inv (ing_ledger st) ->
  next_ticket (ing_ledger st) + N.of_nat (length work) <= u64_max ->
  snd_capacity (ing_queue st) < u64_max ->
  let n := next_ticket (ing_ledger st) in
  match enqueue now_ms moves st work with
  | (st', Err _) => st' = st /\ snd_capacity (ing_queue st) < N.of_nat (length work)
  | (st', Ok o) =>
      total_records o = sum_records work /\
      accepted o + rejected o = sum_records work /\
      ((st' = st /\ accepted o = 0 /\ tickets o = [] /\ last_ticket o = None /\
        snd_capacity (ing_queue st) < sender_len (ing_queue st) + N.of_nat (length work)) \/
       exists sent rest, work = sent ++ rest /\
         accepted o = sum_records sent /\
         tickets o = ticket_pairs n sent /\
         chan_log (snd_inner (ing_queue st')) =
           chan_log (snd_inner (ing_queue st)) ++ stamp n sent /\
         (rest = [] /\ disconnected o = false /\
          next_ticket (ing_ledger st') = n + N.of_nat (length sent) \/
          rest <> [] /\ disconnected o = true /\
          next_ticket (ing_ledger st') = n + N.of_nat (length sent) + 1 /\
          settled_state (state (ing_ledger st') (n + N.of_nat (length sent) + 1)) = true))
  end.
Proof.
  intros Hinv Hfit Hcap n. unfold enqueue, capacity.
  destruct (N.ltb_spec (snd_capacity (ing_queue st)) (N.of_nat (length work))); [done|].
  unfold reserve, sat_add.
  destruct (N.min_spec u64_max (sender_len (ing_queue st) + N.of_nat (length work))) as [Hmin|Hmin].
  all: destruct (N.leb_spec (u64_max `min` (sender_len (ing_queue st) + N.of_nat (length work)))
                            (snd_capacity (ing_queue st))) as [Hroom|Hfull]; [try lia|].
  1, 3: simpl; repeat split; left; repeat split; lia.
  destruct (send_chunks_spec now_ms moves 0 work st (fresh_outcome (sum_records work)) Hinv Hfit
    ltac:(lia)) as (sent & rest & Hwork & [D1 D2 D3 D4 D5 D6 D7]).
  destruct (send_chunks _ _ _ _ _ _) as [st' o]. simpl in *.
  assert (accepted o + rejected o = sum_records work) as Hsum.
  { rewrite Hwork, sum_records_app in *. destruct rest; simpl in *; destruct D7 as [-> _]; lia. }
  repeat split; [done|done|]. right. exists sent, rest.
  repeat split; [done|done|done|done|].
  destruct rest; [left|right]; [by destruct D7 as (_ & ? & ?)|].
  destruct D7 as (_ & ? & _ & ? & ?). repeat split; done.
Qed.

(** ** Claims *)

(** C8: admission is all-or-nothing.  Whatever storage does meanwhile, a request
    either fails permanently (more chunks than the queue can ever hold) or is
    rejected whole, in both cases leaving queue and ledger untouched; or a
    prefix of its chunks is delivered in order under consecutive fresh tickets,
    the outcome lists exactly those tickets with their record counts and
    [accepted + rejected] is the request's total, and the prefix is proper only
    if storage hung up, in which case exactly one further ticket was issued and
    it is settled.  A reserved send never finds the queue full. *)
Theorem enqueue_all_or_nothing now_ms moves st work :
  ledger_inv (ing_ledger st) ->
  next_ticket (ing_ledger st) + N.of_nat (length work) <= u64_max ->
  snd_capacity (ing_queue st) < u64_max ->
  let n := next_ticket (ing_ledger st) in
  match enqueue now_ms moves st work with
  | (st', Err _) => st' = st /\ snd_capacity (ing_queue st) < N.of_nat (length work)
  | (st', Ok o) =>
      total_records o = sum_records work /\
      accepted o + rejected o = sum_records work /\
      ((st' = st /\ accepted o = 0 /\ tickets o = [] /\ last_ticket o = None /\
        snd_capacity (ing_queue st) < sender_len (ing_queue st) + N.of_nat (length work)) \/
       exists sent rest, work = sent ++ rest /\
         accepted o = sum_records sent /\
         tickets o = ticket_pairs n sent /\
         chan_log (snd_inner (ing_queue st')) =
           chan_log (snd_inner (ing_queue st)) ++ stamp n sent /\
         (rest = [] /\ disconnected o = false /\
          next_ticket (ing_ledger st') = n + N.of_nat (length sent) \/
          rest <> [] /\ disconnected o = true /\
          next_ticket (ing_ledger st') = n + N.of_nat (length sent) + 1 /\
          settled_state (state (ing_ledger st') (n + N.of_nat (length sent) + 1)) = true))
  end.
Proof. apply enqueue_spec. Qed.

Definition sample_message (n : nat) : IngestMessage :=
  Logs {| chunk_origin := BatchOrigin_default; chunk_records := repeat LogRecord_default n;
          chunk_commit_seq := 0 |}.

(** Storage hangs up while the second of three chunks is being sent. *)
Lemma enqueue_all_or_nothing_witness :
  let st := {| ing_queue := channel 8; ing_ledger := new 0 |} in
  let moves k := match k with 1%nat => [Receive] | 3%nat => [Receive; HangUp] | _ => [] end in
  let work := [sample_message 2; sample_message 1; sample_message 3] in
  let (st', r) := enqueue 5 moves st work in
  exists o, r = Ok o /\ accepted o = 2 /\ rejected o = 4 /\ tickets o = [(1, 2)] /\
    accepted o + rejected o = sum_records work /\
    state (ing_ledger st') 2 = Completed.
Proof.
  intros st moves work.
  pose proof (enqueue_all_or_nothing 5 moves st work (new_inv 0)
    ltac:(vm_compute; discriminate) ltac:(vm_compute; reflexivity)) as H.
  destruct (enqueue 5 moves st work) as [st' r] eqn:He. vm_compute in He. simplify_eq.
  destruct H as (_ & Hsum & _). eexists. split; [done|]. repeat split; done.
Defined.

End Enqueue.
