(* ===== verification/Mapping.v ===== *)
(** * OTLP request validation and mapping
    ([crates/otel-sqlite-ingress/src/mapping/{common,logs}.rs])

    The decoded protobuf request, the pre-mapping size guard (an iterative walk
    with an explicit stack) and the conversion into model records.  Lengths are
    [usize] values kept in [N]; the layout constants [size_of::<T>()] of the
    generated types are parameters. *)

From stdpp Require Import pretty.
From S2P Require Import Prelude Time Model Text Render Command CommitLedger Enqueue.

Module Mapping.
Import Time Model Render Command Enqueue.

Local Open Scope string_scope.
Local Open Scope list_scope.
Local Open Scope N_scope.

(** ** The decoded request (the generated types of the [.proto] files) *)

(** [AnyValue { value: Option<any_value::Value> }]; [AnyEmpty] is the unset
    [oneof].  A [KeyValue] is its key with its optional value. *)
Inductive AnyValue :=
| AnyEmpty
| StringValue (value : string)
| BoolValue (value : bool)
| IntValue (value : Z)
| DoubleValue (value : f64)
| ArrayValue (values : list AnyValue)
| KvlistValue (values : list (string * option AnyValue))
| BytesValue (value : list byte)
| StringValueStrindex (value : Z).

Abbreviation KeyValue := (string * option AnyValue)%type.

Record InstrumentationScope := {
  is_name : string;
  is_version : string;
  is_attributes : list KeyValue;
}.

Record ProtoResource := {
  pr_attributes : list KeyValue;
}.

Record ProtoLogRecord := {
  p_time_unix_nano : N;
  p_observed_time_unix_nano : N;
  p_severity_number : Z;
  p_severity_text : string;
  p_trace_id : list byte;
  p_span_id : list byte;
  p_body : option AnyValue;
  p_attributes : list KeyValue;
  p_dropped_attributes_count : N;
  p_flags : N;
  p_event_name : string;
}.

Record ScopeLogs := {
  sl_scope : option InstrumentationScope;
  sl_log_records : list ProtoLogRecord;
  sl_schema_url : string;
}.

Record ResourceLogs := {
  rl_resource : option ProtoResource;
  rl_scope_logs : list ScopeLogs;
  rl_schema_url : string;
}.

(** ** Limits ([IngressConfig]) *)

Record Limits := {
  max_records_per_request : N;
  max_attributes_per_record : N;
  max_attribute_key_bytes : N;
  max_attribute_value_bytes : N;
  max_body_bytes : N;
  max_scope_metadata_expansion_bytes : N;
}.

Definition Limits_default : Limits :=
  {| max_records_per_request := 100000;
     max_attributes_per_record := 1000;
     max_attribute_key_bytes := 512;
     max_attribute_value_bytes := 64 * 1024;
     max_body_bytes := 1024 * 1024;
     max_scope_metadata_expansion_bytes := 16 * 1024 * 1024 |}.

Definition MAX_NESTING_DEPTH : N := 32.

Definition str_len (s : string) : N := N.of_nat (String.length s).
Definition vec_len {A} (l : list A) : N := N.of_nat (length l).

(** [format!] of a mapping error. *)
Definition mapping_error {A} (parts : list string) : result IngressError A :=
  Err (Mapping (String.concat "" parts)).

(** ** Identifiers and timestamps *)

Inductive ParsedId := Absent | Valid (id : list byte) | Invalid.

Definition into_id (p : ParsedId) : option (list byte) :=
  match p with Valid id => Some id | Absent | Invalid => None end.

Definition parse_id (n : nat) (v : list byte) : ParsedId :=
  match v with
  | [] => Absent
  | _ =>
      if bool_decide (length v = n) && negb (bytes_eqb v (zero_bytes n)) then Valid v else Invalid
  end.

Definition parse_trace_id (v : list byte) : ParsedId := parse_id 16 v.
Definition parse_span_id (v : list byte) : ParsedId := parse_id 8 v.

(** [i64::try_from(value).unwrap_or(i64::MAX)]. *)
Definition timestamp (v : N) : Z := if (Z.of_N v <=? i64_max)%Z then Z.of_N v else i64_max.

(** ** Conversion of values *)

Definition too_deep {A} (what : string) : result IngressError A :=
  mapping_error [what; " exceeds maximum nesting depth of "; show_u64 MAX_NESTING_DEPTH].

Fixpoint attribute_value_with_depth (v : AnyValue) (depth : N) : result IngressError AttributeValue :=
  match v with
  | StringValue s => Ok (VString s)
  | IntValue i => Ok (VInt i)
  | DoubleValue d => Ok (VDouble d)
  | BoolValue b => Ok (VBool b)
  | BytesValue b => Ok (VBytes b)
  | ArrayValue values =>
      if MAX_NESTING_DEPTH <=? depth then too_deep "attribute value"
      else
        let? items := collect_result (fun nested => attribute_value_with_depth nested (depth + 1)) values in
        Ok (VArray items)
  | KvlistValue values =>
      if MAX_NESTING_DEPTH <=? depth then too_deep "attribute value"
      else
        let? items :=
          collect_result
            (fun kv =>
               let? item :=
                 match kv.2 with
                 | Some nested => attribute_value_with_depth nested (depth + 1)
                 | None => Ok Null
                 end in
               Ok (kv.1, item)) values in
        Ok (VKvlist items)
  | StringValueStrindex _ => Ok Null
  | AnyEmpty => Ok Null
  end.

Definition attribute_value (v : AnyValue) : result IngressError AttributeValue :=
  attribute_value_with_depth v 0.

(** [value.unwrap_or_default()]. *)
Definition any_or_default (v : option AnyValue) : AnyValue := default AnyEmpty v.

Definition convert_attributes (values : list KeyValue) : result IngressError (list Attribute) :=
  collect_result
    (fun kv => let? item := attribute_value (any_or_default kv.2) in Ok (kv.1, item)) values.

Definition convert_resource (v : ProtoResource) (schema_url : string) : result IngressError Resource :=
  let? attrs := convert_attributes (pr_attributes v) in
  Ok {| resource_id := ""; resource_attributes := attrs; resource_schema_url := schema_url |}.

(** ** Conversion of records *)

(** [u8::try_from(value).ok().and_then(Severity::from_u8)], unknown levels
    become [Unspecified]. *)
Definition severity (v : Z) : Severity :=
  if ((0 <=? v) && (v <=? 255))%Z then default Unspecified (severity_from_u8 (Z.to_N v))
  else Unspecified.

(** The text of a scalar body, or the canonical document of a structured one. *)
Definition body_value (v : option AnyValue) : result IngressError (string * option SerdeValue) :=
  match v with
  | Some (StringValue s) => Ok (s, None)
  | Some (IntValue i) => Ok (show_i64 i, None)
  | Some (DoubleValue d) => Ok (show_f64 d, None)
  | Some (BoolValue b) => Ok (show_bool b, None)
  | Some (BytesValue b) => Ok (from_utf8_lossy b, None)
  | Some (ArrayValue values) =>
      let? items := collect_result attribute_value values in
      Ok ("", Some (serialize (VArray items)))
  | Some (KvlistValue values) =>
      let? items := convert_attributes values in
      Ok ("", Some (serialize (VKvlist items)))
  | _ => Ok ("", None)
  end.

Definition convert_record (v : ProtoLogRecord) (scope : LogScope) : result IngressError LogRecord :=
  let trace_id := into_id (parse_trace_id (p_trace_id v)) in
  let span_id := into_id (parse_span_id (p_span_id v)) in
  let? (body, body_json) := body_value (p_body v) in
  let observed := timestamp (p_observed_time_unix_nano v) in
  let time := if p_time_unix_nano v =? 0 then observed else timestamp (p_time_unix_nano v) in
  let? attrs := convert_attributes (p_attributes v) in
  Ok {| time_unix_nano := time;
        observed_time_unix_nano := observed;
        severity_number := severity (p_severity_number v);
        severity_text := p_severity_text v;
        trace_id := default (zero_bytes 16) trace_id;
        span_id := default (zero_bytes 8) span_id;
        body := body;
        body_json := body_json;
        attributes := attrs;
        dropped_attributes_count := p_dropped_attributes_count v;
        flags := p_flags v;
        event_name := p_event_name v;
        scope := scope |}.

(** One [ScopeLogs] group: the scope attributes are converted even when the
    group has no record, and one scope is shared by all of its records. *)
Definition convert_scope (s : ScopeLogs) : result IngressError (list LogRecord) :=
  let '(name, version, attrs) :=
    match sl_scope s with
    | Some sc => (is_name sc, is_version sc, is_attributes sc)
    | None => ("", "", [])
    end in
  let? attrs := convert_attributes attrs in
  match sl_log_records s with
  | [] => Ok []
  | records =>
      let scope := LogScope_new name version attrs (sl_schema_url s) in
      collect_result (fun r => convert_record r scope) records
  end.

Definition try_convert_batch (v : ResourceLogs) : result IngressError LogChunk :=
  let? resource :=
    match rl_resource v with
    | Some r => let? r := convert_resource r (rl_schema_url v) in Ok (Some r)
    | None => Ok None
    end in
  let? groups := collect_result convert_scope (rl_scope_logs v) in
  Ok {| chunk_origin := {| origin_resource := resource; origin_schema_url := rl_schema_url v |};
        chunk_records := concat groups;
        chunk_commit_seq := 0 |}.

Definition count (rls : list ResourceLogs) : N :=
  N.of_nat (sum_with (fun rl => sum_with (fun s => length (sl_log_records s)) (rl_scope_logs rl)) rls).

Fixpoint map_chunks (rls : list ResourceLogs) : result IngressError (list IngestMessage) :=
  match rls with
  | [] => Ok []
  | item :: rest =>
      let? chunk := try_convert_batch item in
      let? chunks := map_chunks rest in
      Ok (if LogChunk_is_empty chunk then chunks else Logs chunk :: chunks)
  end.

(** ** The pre-mapping size guard *)

(** The loop over the entries of a key-value list: check the key, push the
    value.  The head of the list is the top of the stack. *)
Fixpoint push_entries (limits : Limits) (what : string) (depth : N) (entries : list KeyValue)
    (stack : list (AnyValue * N)) : result IngressError (list (AnyValue * N)) :=
  match entries with
  | [] => Ok stack
  | entry :: rest =>
      if max_attribute_key_bytes limits <? str_len entry.1 then
        mapping_error [what; " nested key exceeds "; show_u64 (str_len entry.1); " bytes (limit ";
                       show_u64 (max_attribute_key_bytes limits); ")"]
      else
        push_entries limits what depth rest
          match entry.2 with
          | Some nested => (nested, depth + 1) :: stack
          | None => stack
          end
  end.

(** [for nested in &array.values { stack.push((nested, depth + 1)) }]. *)
Definition push_values (depth : N) (values : list AnyValue) (stack : list (AnyValue * N))
    : list (AnyValue * N) :=
  fold_left (fun st nested => (nested, depth + 1) :: st) values stack.

(** The [while let Some(..) = stack.pop()] loop; [None] only when the fuel runs
    out. *)
Fixpoint check_loop (fuel : nat) (limits : Limits) (what : string) (stack : list (AnyValue * N))
    : option (result IngressError unit) :=
  match fuel with
  | O => None
  | S fuel' =>
      match stack with
      | [] => Some (Ok tt)
      | (current, depth) :: stack =>
          match current with
          | StringValue s =>
              if max_attribute_value_bytes limits <? str_len s then
                Some (mapping_error [what; " string value exceeds "; show_u64 (str_len s);
                        " bytes (limit "; show_u64 (max_attribute_value_bytes limits); ")"])
              else check_loop fuel' limits what stack
          | BytesValue b =>
              if max_attribute_value_bytes limits <? vec_len b then
                Some (mapping_error [what; " bytes value exceeds "; show_u64 (vec_len b);
                        " bytes (limit "; show_u64 (max_attribute_value_bytes limits); ")"])
              else check_loop fuel' limits what stack
          | ArrayValue values =>
              if MAX_NESTING_DEPTH <=? depth then Some (too_deep what)
              else check_loop fuel' limits what (push_values depth values stack)
          | KvlistValue entries =>
              if MAX_NESTING_DEPTH <=? depth then Some (too_deep what)
              else
                match push_entries limits what depth entries stack with
                | Err e => Some (Err e)
                | Ok stack => check_loop fuel' limits what stack
                end
          | _ => check_loop fuel' limits what stack
          end
      end
  end.

(** The number of [AnyValue] nodes of a value. *)
Fixpoint any_nodes (v : AnyValue) : nat :=
  match v with
  | ArrayValue values => S (sum_with any_nodes values)
  | KvlistValue entries =>
      S (sum_with (fun kv => match kv.2 with Some nested => any_nodes nested | None => O end) entries)
  | _ => 1
  end.

(** One round per node and one that finds the stack empty. *)
Definition check_any_value (v : AnyValue) (limits : Limits) (what : string)
    : result IngressError unit :=
  default (mapping_error ["unreachable"]) (check_loop (S (any_nodes v)) limits what [(v, 0)]).

Fixpoint check_entries (values : list KeyValue) (limits : Limits) (what : string)
    : result IngressError unit :=
  match values with
  | [] => Ok tt
  | entry :: rest =>
      if max_attribute_key_bytes limits <? str_len entry.1 then
        mapping_error [what; " key exceeds "; show_u64 (str_len entry.1); " bytes (limit ";
                       show_u64 (max_attribute_key_bytes limits); ")"]
      else
        let? _ := match entry.2 with
                  | Some v => check_any_value v limits what
                  | None => Ok tt
                  end in
        check_entries rest limits what
  end.

Definition check_attributes (values : list KeyValue) (limits : Limits) (what : string)
    : result IngressError unit :=
  if max_attributes_per_record limits <? vec_len values then
    mapping_error [what; " holds "; show_u64 (vec_len values); " attributes, limit is ";
                   show_u64 (max_attributes_per_record limits)]
  else check_entries values limits what.

Definition check_plain_string (s : string) (limits : Limits) (what : string)
    : result IngressError unit :=
  if max_attribute_value_bytes limits <? str_len s then
    mapping_error [what; " exceeds "; show_u64 (str_len s); " bytes (limit ";
                   show_u64 (max_attribute_value_bytes limits); ")"]
  else Ok tt.

Definition check_body (body : option AnyValue) (limits : Limits) : result IngressError unit :=
  match body with
  | None => Ok tt
  | Some v =>
      match v with
      | StringValue s =>
          if max_body_bytes limits <? str_len s then
            mapping_error ["log body exceeds "; show_u64 (str_len s); " bytes (limit ";
                           show_u64 (max_body_bytes limits); ")"]
          else Ok tt
      | BytesValue b =>
          if max_body_bytes limits <? vec_len b then
            mapping_error ["log body exceeds "; show_u64 (vec_len b); " bytes (limit ";
                           show_u64 (max_body_bytes limits); ")"]
          else Ok tt
      | _ => check_any_value v limits "log.body"
      end
  end.

Definition check_scope_expansion (metadata_bytes members : N) (limits : Limits) (what : string)
    : result IngressError unit :=
  if (members =? 0) || (metadata_bytes =? 0) then Ok tt
  else
    let budget := max_scope_metadata_expansion_bytes limits in
    if budget / members <? metadata_bytes then
      mapping_error [what; " scope metadata ("; show_u64 metadata_bytes; " bytes) repeated across ";
        show_u64 members; " records exceeds the "; show_u64 budget;
        "-byte expansion budget; reduce scope attributes or split the request"]
    else Ok tt.

Section Layout.
Context (size_of_AnyValue size_of_KeyValue size_of_Attribute : N).

Fixpoint size_entries (entries : list KeyValue) (total : N) (stack : list AnyValue)
    : N * list AnyValue :=
  match entries with
  | [] => (total, stack)
  | entry :: rest =>
      size_entries rest (sat_add total (sat_add (str_len entry.1) size_of_KeyValue))
        match entry.2 with Some nested => nested :: stack | None => stack end
  end.

Fixpoint any_size_loop (fuel : nat) (total : N) (stack : list AnyValue) : option N :=
  match fuel with
  | O => None
  | S fuel' =>
      match stack with
      | [] => Some total
      | current :: stack =>
          let total := sat_add total size_of_AnyValue in
          match current with
          | StringValue s => any_size_loop fuel' (sat_add total (str_len s)) stack
          | BytesValue b => any_size_loop fuel' (sat_add total (vec_len b)) stack
          | ArrayValue values => any_size_loop fuel' total (rev values ++ stack)
          | KvlistValue entries =>
              let (total, stack) := size_entries entries total stack in
              any_size_loop fuel' total stack
          | _ => any_size_loop fuel' total stack
          end
      end
  end.

Definition any_value_size (v : AnyValue) : N := default 0 (any_size_loop (S (any_nodes v)) 0 [v]).

Definition scope_metadata_bytes (scope : option InstrumentationScope) (schema_url : string) : N :=
  match scope with
  | None => str_len schema_url
  | Some sc =>
      fold_left
        (fun total entry =>
           let total := sat_add total (sat_add (str_len entry.1) size_of_Attribute) in
           match entry.2 with
           | Some v => sat_add total (any_value_size v)
           | None => total
           end)
        (is_attributes sc)
        (sat_add (sat_add (str_len (is_name sc)) (str_len (is_version sc))) (str_len schema_url))
  end.

Definition check_record (limits : Limits) (r : ProtoLogRecord) : result IngressError unit :=
  let? _ := check_attributes (p_attributes r) limits "log.attributes" in
  let? _ := check_plain_string (p_severity_text r) limits "severity_text" in
  let? _ := check_plain_string (p_event_name r) limits "event_name" in
  check_body (p_body r) limits.

Definition check_scope (limits : Limits) (s : ScopeLogs) : result IngressError unit :=
  let? _ :=
    match sl_scope s with
    | Some sc =>
        let? _ := check_attributes (is_attributes sc) limits "scope.attributes" in
        let? _ := check_plain_string (is_name sc) limits "scope.name" in
        check_plain_string (is_version sc) limits "scope.version"
    | None => Ok tt
    end in
  let? _ := check_plain_string (sl_schema_url s) limits "scope.schema_url" in
  let? _ :=
    check_scope_expansion (scope_metadata_bytes (sl_scope s) (sl_schema_url s))
      (vec_len (sl_log_records s)) limits "log" in
  check_all (check_record limits) (sl_log_records s).

Definition check_group (limits : Limits) (g : ResourceLogs) : result IngressError unit :=
  let? _ := check_plain_string (rl_schema_url g) limits "resource.schema_url" in
  let? _ :=
    check_attributes (match rl_resource g with Some r => pr_attributes r | None => [] end)
      limits "resource.attributes" in
  check_all (check_scope limits) (rl_scope_logs g).

Definition validate_request (rls : list ResourceLogs) (limits : Limits) : result IngressError unit :=
  check_all (check_group limits) rls.

(** The job [handle] submits to the mapping pool. *)
Definition map_request (limits : Limits) (rls : list ResourceLogs)
    : result IngressError (list IngestMessage) :=
  let total := count rls in
  if max_records_per_request limits <? total then
    mapping_error ["request contains "; show_u64 total; " log records, limit is ";
                   show_u64 (max_records_per_request limits)]
  else
    let? _ := validate_request rls limits in
    map_chunks rls.

End Layout.

(** ** Reference definitions *)

(** What the guard bounds, as a recursive predicate. *)
Fixpoint any_within (limits : Limits) (depth : N) (v : AnyValue) : bool :=
  match v with
  | StringValue s => str_len s <=? max_attribute_value_bytes limits
  | BytesValue b => vec_len b <=? max_attribute_value_bytes limits
  | ArrayValue values =>
      (depth <? MAX_NESTING_DEPTH) && forallb (any_within limits (depth + 1)) values
  | KvlistValue entries =>
      (depth <? MAX_NESTING_DEPTH) &&
      forallb (fun kv => (str_len kv.1 <=? max_attribute_key_bytes limits) &&
                         match kv.2 with
                         | Some nested => any_within limits (depth + 1) nested
                         | None => true
                         end) entries
  | _ => true
  end.

(** The estimated size of a value, without saturation. *)
Fixpoint any_bytes (av kv : N) (v : AnyValue) : N :=
  av + match v with
       | StringValue s => str_len s
       | BytesValue b => vec_len b
       | ArrayValue values => foldr (fun x n => any_bytes av kv x + n) 0 values
       | KvlistValue entries =>
           foldr (fun e n => str_len e.1 + kv +
                    match e.2 with Some nested => any_bytes av kv nested | None => 0 end + n)
             0 entries
       | _ => 0
       end.

(** ** Lemmas *)

Definition stack_nodes (stack : list (AnyValue * N)) : nat := sum_with (fun p => any_nodes p.1) stack.
Definition stack_ok (limits : Limits) (stack : list (AnyValue * N)) : bool :=
  forallb (fun p => any_within limits p.2 p.1) stack.

Lemma push_values_spec limits depth values stack :
  stack_nodes (push_values depth values stack) = (sum_with any_nodes values + stack_nodes stack)%nat /\
  stack_ok limits (push_values depth values stack) =
    forallb (any_within limits (depth + 1)) values && stack_ok limits stack.
Proof.
  unfold push_values. revert stack. induction values as [|v values IH]; intros stack; [done|].
  simpl. destruct (IH ((v, depth + 1) :: stack)) as [-> ->]. simpl. split; [unfold stack_nodes; simpl; lia|].
  rewrite !andb_assoc. f_equal. apply andb_comm.
Qed.

Lemma push_entries_spec limits what depth entries stack :
  let ok kv := (str_len kv.1 <=? max_attribute_key_bytes limits) &&
               match kv.2 with Some nested => any_within limits (depth + 1) nested | None => true end in
  match push_entries limits what depth entries stack with
  | Ok stack' =>
      stack_nodes stack' =
        (sum_with (fun kv => match kv.2 with Some n => any_nodes n | None => O end) entries
         + stack_nodes stack)%nat /\
      stack_ok limits stack' = forallb ok entries && stack_ok limits stack
  | Err _ => forallb ok entries = false
  end.
Proof.
  intros ok. revert stack. induction entries as [|[k v] entries IH]; intros stack; [done|].
  cbn [push_entries fst snd forallb sum_with foldr]. unfold ok at 1. cbn [fst snd].
  destruct (N.ltb_spec (max_attribute_key_bytes limits) (str_len k)) as [Hk|Hk]; simpl.
  { unfold mapping_error. apply andb_false_iff. left. apply andb_false_iff. left. by apply N.leb_gt. }
  apply N.leb_le in Hk. rewrite Hk. simpl.
  specialize (IH match v with Some nested => (nested, depth + 1) :: stack | None => stack end).
  destruct (push_entries _ _ _ _ _) as [stack'|]; [|by rewrite IH, andb_false_r].
  destruct IH as [-> ->]. destruct v as [nested|]; simpl; [|done].
  split; [unfold stack_nodes; simpl; unfold sum_with; lia|].
  rewrite !andb_assoc. f_equal. apply andb_comm.
Qed.

Lemma any_nodes_pos v : (1 <= any_nodes v)%nat.
Proof. destruct v; simpl; lia. Qed.

(** The walk finishes within its fuel and accepts exactly the stacks whose
    values are within bounds. *)
Lemma check_loop_spec fuel limits what stack :
  (stack_nodes stack < fuel)%nat ->
  exists r, check_loop fuel limits what stack = Some r /\ is_ok r = stack_ok limits stack.
Proof.
  revert stack. induction fuel as [|fuel IH]; intros stack Hfuel; [lia|].
  destruct stack as [|[v depth] stack]; [by eexists|].
  assert (stack_nodes ((v, depth) :: stack) = any_nodes v + stack_nodes stack)%nat as Hn by done.
  assert (forall r, check_loop fuel limits what stack = Some r -> any_within limits depth v = true ->
    is_ok r = stack_ok limits stack -> is_ok r = stack_ok limits ((v, depth) :: stack)) as Hskip.
  { intros r _ Hv ->. unfold stack_ok. cbn [forallb fst snd]. by rewrite Hv. }
  pose proof (any_nodes_pos v).
  destruct (IH stack ltac:(lia)) as (r & Hr & Hok).
  unfold stack_ok in *. cbn [forallb fst snd].
  destruct v as [|s|b|i|d|values|entries|b|z]; cbn [check_loop any_within];
    try (exists r; split; [done|]; rewrite Hok; done).
  - destruct (N.ltb_spec (max_attribute_value_bytes limits) (str_len s)) as [Hl|Hl].
    + eexists. split; [done|]. apply N.leb_gt in Hl. by rewrite Hl.
    + exists r. apply N.leb_le in Hl. by rewrite Hl.
  - rewrite N.ltb_antisym. destruct (MAX_NESTING_DEPTH <=? depth); simpl; [by eexists|].
    destruct (push_values_spec limits depth values stack) as [Hpn Hpo].
    destruct (IH (push_values depth values stack)) as (r' & -> & Hr').
    { rewrite Hpn. cbn [any_nodes] in Hn. lia. }
    exists r'. split; [done|]. rewrite Hr'. exact Hpo.
  - rewrite N.ltb_antisym. destruct (MAX_NESTING_DEPTH <=? depth); simpl; [by eexists|].
    pose proof (push_entries_spec limits what depth entries stack) as Hp. simpl in Hp.
    destruct (push_entries _ _ _ _ _) as [stack'|e]; [|eexists; split; [done|]; by rewrite Hp].
    destruct Hp as [Hpn Hpo]. destruct (IH stack') as (r' & -> & Hr').
    { rewrite Hpn. cbn [any_nodes] in Hn. lia. }
    exists r'. split; [done|]. rewrite Hr'. exact Hpo.
  - destruct (N.ltb_spec (max_attribute_value_bytes limits) (vec_len b)) as [Hl|Hl].
    + eexists. split; [done|]. apply N.leb_gt in Hl. by rewrite Hl.
    + exists r. apply N.leb_le in Hl. by rewrite Hl.
Qed.

Lemma check_any_value_spec v limits what :
  check_loop (S (any_nodes v)) limits what [(v, 0)] = Some (check_any_value v limits what) /\
  is_ok (check_any_value v limits what) = any_within limits 0 v.
Proof.
  unfold check_any_value.
  destruct (check_loop_spec (S (any_nodes v)) limits what [(v, 0)]) as (r & -> & Hr).
  { unfold stack_nodes. simpl. lia. }
  split; [done|]. simpl. rewrite Hr. unfold stack_ok. simpl. apply andb_true_r.
Qed.

Lemma sum_with_elem {A} (f : A -> nat) l x : x ∈ l -> (f x <= sum_with f l)%nat.
Proof.
  intros H. apply list_elem_of_split in H as (l1 & l2 & ->). rewrite sum_with_app. simpl. lia.
Qed.

Lemma forallb_elem {A} (f : A -> bool) l x : forallb f l = true -> x ∈ l -> f x = true.
Proof. intros H Hx. rewrite forallb_forall in H. apply H. by apply list_elem_of_In. Qed.

(** The converter accepts what the guard accepts, also from a smaller depth. *)
Lemma convert_within limits depth depth' v :
  any_within limits depth v = true -> depth' <= depth ->
  is_ok (attribute_value_with_depth v depth') = true.
Proof.
  remember (any_nodes v) as n eqn:Hn. assert (any_nodes v <= n)%nat as Hle by lia. clear Hn.
  revert depth depth' v Hle. induction n as [|n IH]; intros depth depth' v Hle Hv Hd;
    [pose proof (any_nodes_pos v); lia|].
  destruct v as [|s|b|i|d|values|entries|b|z]; try done;
    cbn [any_within attribute_value_with_depth any_nodes] in *; bool_to_prop;
    destruct (N.leb_spec MAX_NESTING_DEPTH depth'); try lia.
  - destruct (collect_result_ok (fun nested => attribute_value_with_depth nested (depth' + 1)) values)
      as [ys ->]; [|done].
    apply Forall_forall. intros x Hx. apply (IH (depth + 1)); [|by eapply forallb_elem|lia].
    pose proof (sum_with_elem any_nodes values x Hx). lia.
  - match goal with |- context [collect_result ?f entries] =>
      destruct (collect_result_ok f entries) as [ys ->]; [|done] end.
    apply Forall_forall. intros [k [x|]] Hx; [|done].
    assert (any_within limits (depth + 1) x = true) as Hok.
    { eapply (forallb_elem _ entries) in Hx; [|done]. simpl in Hx. by bool_to_prop. }
    apply (sum_with_elem (fun kv => match kv.2 with Some nested => any_nodes nested | None => O end))
      in Hx. simpl in *.
    pose proof (IH (depth + 1) (depth' + 1) x ltac:(lia) Hok ltac:(lia)) as Hok'.
    by destruct (attribute_value_with_depth x (depth' + 1)).
Qed.

Lemma is_ok_unit {E} (r : result E unit) : is_ok r = true <-> r = Ok tt.
Proof. destruct r as [[]|]; done. Qed.

Lemma check_entries_convert values limits what :
  check_entries values limits what = Ok tt -> is_ok (convert_attributes values) = true.
Proof.
  intros H. unfold convert_attributes.
  match goal with |- context [collect_result ?f values] =>
    destruct (collect_result_ok f values) as [ys ->]; [|done] end.
  induction values as [|[k v] values IH]; constructor; simpl in H; case_match; try done.
  - simpl. destruct v as [v|]; [|done]. simpl.
    pose proof (proj2 (check_any_value_spec v limits what)) as Hs.
    destruct (check_any_value v limits what) as [[]|]; [|done]. symmetry in Hs.
    pose proof (convert_within limits 0 0 v Hs ltac:(lia)) as Hok. unfold attribute_value.
    by destruct (attribute_value_with_depth v 0).
  - apply IH. destruct v as [v|]; [|done].
    by destruct (check_any_value v limits what).
Qed.

Lemma check_attributes_convert values limits what :
  check_attributes values limits what = Ok tt -> is_ok (convert_attributes values) = true.
Proof. unfold check_attributes. case_match; [done|]. apply check_entries_convert. Qed.

(** A structured body is one level shallower for the converter than for the
    guard. *)
Lemma check_body_convert body limits :
  check_body body limits = Ok tt -> is_ok (body_value body) = true.
Proof.
  destruct body as [v|]; [|done]. destruct v as [|s|b|i|d|values|entries|b|z]; try done; simpl.
  - intros H. pose proof (proj2 (check_any_value_spec (ArrayValue values) limits "log.body")) as Hs.
    rewrite H in Hs. symmetry in Hs. cbn [is_ok any_within] in Hs. bool_to_prop.
    destruct (collect_result_ok attribute_value values) as [ys ->]; [|done].
    apply Forall_forall. intros x Hx. apply (convert_within limits (0 + 1)); [|lia].
    by eapply forallb_elem.
  - intros H. pose proof (proj2 (check_any_value_spec (KvlistValue entries) limits "log.body")) as Hs.
    rewrite H in Hs. symmetry in Hs. cbn [is_ok any_within] in Hs. bool_to_prop.
    unfold convert_attributes. match goal with |- context [collect_result ?f entries] =>
      destruct (collect_result_ok f entries) as [ys ->]; [|done] end.
    apply Forall_forall. intros [k [x|]] Hx; [|done]. eapply (forallb_elem _ entries) in Hx; [|done].
    simpl in Hx. bool_to_prop. simpl.
    pose proof (convert_within limits 1 0 x ltac:(done) ltac:(lia)). unfold attribute_value.
    by destruct (attribute_value_with_depth x 0).
Qed.

(** Split a sequence of checks that succeeded. *)
Ltac split_checks H :=
  repeat match type of H with
  | match ?c with Ok _ => _ | Err _ => _ end = Ok _ =>
      let Hc := fresh "Hc" in destruct c as [[]|] eqn:Hc; [|done]
  end.

Lemma check_record_convert limits r scope :
  check_record limits r = Ok tt -> is_ok (convert_record r scope) = true.
Proof.
  unfold check_record. intros H. split_checks H.
  apply check_body_convert in H. apply check_attributes_convert in Hc.
  unfold convert_record. destruct (body_value (p_body r)) as [[]|]; [|done].
  by destruct (convert_attributes (p_attributes r)).
Qed.

(** ** What a request carries, before and after mapping *)

Definition scope_records (s : ScopeLogs) : list (ScopeLogs * ProtoLogRecord) :=
  pair s <$> sl_log_records s.

(** The records of a resource group, each with the scope group it was sent in. *)
Definition group_records (g : ResourceLogs) : list (ScopeLogs * ProtoLogRecord) :=
  rl_scope_logs g ≫= scope_records.

Definition proto_records (rls : list ResourceLogs) : list (ScopeLogs * ProtoLogRecord) :=
  rls ≫= group_records.

Definition message_log_records (m : IngestMessage) : list LogRecord :=
  match m with Logs chunk => chunk_records chunk | IngestFlush => [] end.

Definition mapped_records (chunks : list IngestMessage) : list LogRecord :=
  chunks ≫= message_log_records.

(** The scope of a group: its name, version and converted attributes, those of
    an empty scope when none was sent, and the group's schema URL. *)
Definition scope_from (s : ScopeLogs) (sc : LogScope) : Prop :=
  scope_name sc = from_option is_name "" (sl_scope s) /\
  scope_version sc = from_option is_version "" (sl_scope s) /\
  scope_schema_url sc = sl_schema_url s /\
  exists attrs, convert_attributes (from_option is_attributes [] (sl_scope s)) = Ok attrs /\
    scope_attributes_json sc = attributes_document attrs.

(** A record is converted under the scope it was sent in. *)
Definition mapped_from (sent : ScopeLogs * ProtoLogRecord) (r : LogRecord) : Prop :=
  scope_from sent.1 (scope r) /\ convert_record sent.2 (scope r) = Ok r.

(** The origin of a group: its schema URL and, when a resource was sent, that
    resource with its attributes converted. *)
Definition origin_from (g : ResourceLogs) (o : BatchOrigin) : Prop :=
  origin_schema_url o = rl_schema_url g /\
  match rl_resource g, origin_resource o with
  | None, None => True
  | Some sent, Some stored =>
      convert_attributes (pr_attributes sent) = Ok (resource_attributes stored) /\
      resource_schema_url stored = rl_schema_url g
  | _, _ => False
  end.

(** The chunk of a resource group, not ticketed yet. *)
Definition chunk_from (g : ResourceLogs) (m : IngestMessage) : Prop :=
  match m with
  | Logs chunk =>
      origin_from g (chunk_origin chunk) /\
      Forall2 mapped_from (group_records g) (chunk_records chunk) /\
      chunk_commit_seq chunk = 0
  | IngestFlush => False
  end.

Lemma collect_result_Forall2 {E A B} (f : A -> result E B) l ys :
  collect_result f l = Ok ys -> Forall2 (fun x y => f x = Ok y) l ys.
Proof.
  revert ys. induction l as [|x l IH]; simpl; intros ys H; [simplify_eq; constructor|].
  destruct (f x) eqn:Hx; [|done]. destruct (collect_result f l); [|done]. simplify_eq.
  constructor; auto.
Qed.

Lemma Forall2_concat_bind {A B C} (R : B -> C -> Prop) (f : A -> list B) (l : list A) (ls : list (list C)) :
  Forall2 (fun x ys => Forall2 R (f x) ys) l ls -> Forall2 R (l ≫= f) (concat ls).
Proof. induction 1; simpl; [constructor|]. by apply Forall2_app. Qed.

Lemma convert_record_scope p sc r : convert_record p sc = Ok r -> scope r = sc.
Proof.
  unfold convert_record. destruct (body_value (p_body p)) as [[? ?]|]; [|done].
  destruct (convert_attributes (p_attributes p)); [|done]. by intros [= <-].
Qed.

Lemma convert_scope_records s rs :
  convert_scope s = Ok rs -> Forall2 mapped_from (scope_records s) rs.
Proof.
  unfold convert_scope, scope_records.
  assert (match sl_scope s with
          | Some sc => (is_name sc, is_version sc, is_attributes sc) | None => ("", "", []) end
    = (from_option is_name "" (sl_scope s), from_option is_version "" (sl_scope s),
       from_option is_attributes [] (sl_scope s))) as -> by (by destruct (sl_scope s)).
  destruct (convert_attributes _) as [attrs|] eqn:Ha; [|done].
  destruct (sl_log_records s) as [|r rest] eqn:Hr; [intros [= <-]; constructor|].
  intros H%collect_result_Forall2. apply Forall2_fmap_l.
  eapply Forall2_impl; [exact H|]. intros x y Hxy.
  pose proof (convert_record_scope _ _ _ Hxy) as Hs. split; simpl; [|by rewrite Hs].
  rewrite Hs. repeat split. by exists attrs.
Qed.

Lemma try_convert_batch_chunk g chunk :
  try_convert_batch g = Ok chunk -> chunk_from g (Logs chunk).
Proof.
  unfold try_convert_batch, chunk_from, origin_from, convert_resource. intros H.
  destruct (match rl_resource g with Some _ => _ | None => _ end) as [resource|] eqn:Hres; [|done].
  destruct (collect_result convert_scope (rl_scope_logs g)) as [groups|] eqn:Hg; [|done]. simplify_eq/=.
  split; [split; [done|]|split; [|done]].
  - destruct (rl_resource g) as [r|]; [|by simplify_eq].
    destruct (convert_attributes (pr_attributes r)); [|done]. by simplify_eq/=.
  - apply Forall2_concat_bind.
    eapply Forall2_impl; [by apply collect_result_Forall2 in Hg|]. simpl. apply convert_scope_records.
Qed.

Lemma map_chunks_groups rls chunks :
  map_chunks rls = Ok chunks ->
  Forall2 chunk_from (filter (fun g => group_records g <> []) rls) chunks.
Proof.
  revert chunks. induction rls as [|g rls IH]; cbn [map_chunks]; intros chunks H; [simplify_eq; constructor|].
  destruct (try_convert_batch g) as [chunk|] eqn:Hg; [|done]. destruct (map_chunks rls) as [rest|]; [|done].
  apply try_convert_batch_chunk in Hg as Hc. pose proof Hc as (_ & Hrec & _). specialize (IH _ eq_refl).
  simplify_eq. unfold LogChunk_is_empty. destruct (chunk_records chunk) as [|r rs] eqn:Hcr.
  - apply Forall2_nil_inv_r in Hrec. rewrite filter_cons_False by (by intros []). done.
  - rewrite filter_cons_True; [by constructor|]. intros Hnil. rewrite Hnil in Hrec. inversion Hrec.
Qed.

Lemma proto_records_groups rls :
  proto_records rls = (filter (fun g => group_records g <> []) rls) ≫= group_records.
Proof.
  unfold proto_records. induction rls as [|g rls IH]; [done|]. rewrite bind_cons, IH.
  destruct (decide (group_records g = [])) as [Hg|Hg].
  - rewrite filter_cons_False by (by intros []). by rewrite Hg.
  - by rewrite filter_cons_True.
Qed.

Lemma map_chunks_records rls chunks :
  map_chunks rls = Ok chunks ->
  Forall2 mapped_from (proto_records rls) (mapped_records chunks) /\
  Forall (fun m => IngestMessage_record_count m <> O /\ commit_seq m = Some 0) chunks.
Proof.
  intros H%map_chunks_groups. rewrite proto_records_groups.
  assert (Forall (fun g => group_records g <> []) (filter (fun g => group_records g <> []) rls)) as Hne.
  { apply Forall_forall. intros g. by rewrite list_elem_of_filter; intros []. }
  unfold mapped_records. induction H as [|g m gs ms Hgm _ IH]; [by repeat constructor|].
  apply Forall_cons in Hne as [Hg Hne]. destruct (IH Hne) as [Hall Hcs]. clear IH.
  destruct m as [chunk|]; [|done]. destruct Hgm as (_ & Hrec & Hseq). rewrite !bind_cons. split.
  - by apply Forall2_app.
  - constructor; [|done]. simpl. rewrite Hseq. split; [|done]. apply Forall2_length in Hrec.
    rewrite <- Hrec. by destruct (group_records g).
Qed.

Lemma count_proto_records rls : count rls = vec_len (proto_records rls).
Proof.
  unfold count, vec_len, proto_records. f_equal. induction rls as [|g rls IH]; [done|].
  rewrite bind_cons, length_app, <- IH. simpl. f_equal. clear IH. unfold group_records.
  induction (rl_scope_logs g) as [|s ss IH]; [done|]. rewrite bind_cons, length_app, <- IH.
  unfold scope_records. by rewrite length_fmap.
Qed.

Lemma sum_records_mapped chunks : sum_records chunks = vec_len (mapped_records chunks).
Proof.
  unfold vec_len, mapped_records. induction chunks as [|m chunks IH]; [done|].
  rewrite bind_cons, length_app, Nat2N.inj_add, <- IH. by destruct m.
Qed.

(** A mapped request: its records, in order, in chunks that are not empty. *)
Lemma map_request_records av kv at_ limits rls chunks :
  map_request av kv at_ limits rls = Ok chunks ->
  Forall2 mapped_from (proto_records rls) (mapped_records chunks) /\
  Forall (fun m => IngestMessage_record_count m <> O) chunks /\ count rls = sum_records chunks.
Proof.
  unfold map_request. intros H. case_match; [done|]. split_checks H.
  apply map_chunks_records in H as [Hrec Hne]. split; [done|]. split.
  - eapply Forall_impl; [exact Hne|]. by intros m [? _].
  - rewrite count_proto_records, sum_records_mapped. unfold vec_len. f_equal. by eapply Forall2_length.
Qed.

Section Layout_lemmas.
Context (size_of_AnyValue size_of_KeyValue size_of_Attribute : N).

Lemma check_scope_convert limits s :
  check_scope size_of_AnyValue size_of_KeyValue size_of_Attribute limits s = Ok tt ->
  is_ok (convert_scope s) = true.
Proof.
  unfold check_scope, convert_scope. intros H. split_checks H.
  assert (is_ok (convert_attributes match sl_scope s with Some sc => is_attributes sc | None => [] end)
          = true) as Ha.
  { destruct (sl_scope s); [|done]. split_checks Hc. by eapply check_attributes_convert. }
  destruct (sl_scope s) as [sc|]; cbn [fst snd] in *;
    (destruct (convert_attributes _) as [attrs|]; [|done]);
    (destruct (sl_log_records s) as [|r rest] eqn:Hr; [done|]);
    match goal with |- context [collect_result ?f ?l] =>
      destruct (collect_result_ok f l) as [ys ->]; [|done] end;
    (apply check_all_ok in H; eapply Forall_impl; [exact H|]); intros x; apply check_record_convert.
Qed.

Lemma check_group_convert limits g :
  check_group size_of_AnyValue size_of_KeyValue size_of_Attribute limits g = Ok tt ->
  is_ok (try_convert_batch g) = true.
Proof.
  unfold check_group, try_convert_batch. intros H. split_checks H.
  apply check_attributes_convert in Hc0.
  destruct (collect_result_ok convert_scope (rl_scope_logs g)) as [groups ->].
  { apply check_all_ok in H. eapply Forall_impl; [exact H|]. intros s. apply check_scope_convert. }
  destruct (rl_resource g) as [r|]; [|done]. unfold convert_resource.
  by destruct (convert_attributes (pr_attributes r)).
Qed.

Lemma validate_request_convert limits rls :
  validate_request size_of_AnyValue size_of_KeyValue size_of_Attribute rls limits = Ok tt ->
  exists chunks, map_chunks rls = Ok chunks.
Proof.
  unfold validate_request. intros H%check_all_ok.
  induction H as [|g rls Hg _ [chunks IH]]; simpl; [by eexists|].
  apply check_group_convert in Hg. destruct (try_convert_batch g); [|done]. rewrite IH. by eexists.
Qed.

Definition stack_bytes (stack : list AnyValue) : N :=
  foldr (fun x n => any_bytes size_of_AnyValue size_of_KeyValue x + n) 0 stack.

Lemma stack_bytes_app a b : stack_bytes (a ++ b) = stack_bytes a + stack_bytes b.
Proof. induction a; simpl; lia. Qed.

Lemma stack_bytes_rev a : stack_bytes (rev a) = stack_bytes a.
Proof. induction a; simpl; [done|]. rewrite stack_bytes_app, IHa. simpl. lia. Qed.

Definition entry_bytes (e : KeyValue) : N :=
  str_len e.1 + size_of_KeyValue +
  match e.2 with Some nested => any_bytes size_of_AnyValue size_of_KeyValue nested | None => 0 end.

Lemma size_entries_spec entries total stack :
  total <= u64_max ->
  let (total', stack') := size_entries size_of_KeyValue entries total stack in
  total' <= u64_max /\
  N.min u64_max (total' + stack_bytes stack') =
    N.min u64_max (total + foldr (fun e n => entry_bytes e + n) 0 entries + stack_bytes stack) /\
  (sum_with any_nodes stack' =
   sum_with (fun kv => match kv.2 with Some n => any_nodes n | None => O end) entries
   + sum_with any_nodes stack)%nat.
Proof.
  revert total stack. induction entries as [|[k v] entries IH]; intros total stack Htot.
  { simpl. rewrite N.add_0_r. done. }
  cbn [size_entries fst snd].
  specialize (IH (sat_add total (sat_add (str_len k) size_of_KeyValue))
    match v with Some nested => nested :: stack | None => stack end ltac:(unfold sat_add; lia)).
  destruct (size_entries _ _ _ _) as [total' stack']. destruct IH as (? & Hmin & Hn).
  split; [done|]. rewrite Hmin, Hn. split; [|destruct v; simpl; unfold sum_with; lia].
  cbn [foldr]. generalize (foldr (fun e n => entry_bytes e + n) 0 entries). intros F.
  unfold entry_bytes, sat_add. cbn [fst snd]. destruct v; cbn [stack_bytes foldr];
    fold (stack_bytes stack); lia.
Qed.

Lemma any_size_loop_spec fuel total stack :
  total <= u64_max -> (sum_with any_nodes stack < fuel)%nat ->
  any_size_loop size_of_AnyValue size_of_KeyValue fuel total stack
  = Some (N.min u64_max (total + stack_bytes stack)).
Proof.
  revert total stack. induction fuel as [|fuel IH]; intros total stack Htot Hfuel; [lia|].
  destruct stack as [|v stack]; [simpl; f_equal; lia|].
  pose proof (any_nodes_pos v). cbn [sum_with foldr] in Hfuel. fold (sum_with any_nodes stack) in Hfuel.
  assert (sat_add total size_of_AnyValue <= u64_max) by (unfold sat_add; lia).
  cbn [any_size_loop].
  destruct v as [|s|b|i|d|values|entries|b|z]; cbn [any_nodes] in *;
    try (rewrite IH by (unfold sat_add in *; lia); f_equal; cbn [stack_bytes foldr any_bytes];
         fold (stack_bytes stack); unfold sat_add; lia).
  - rewrite IH; [|done|].
    + f_equal. rewrite stack_bytes_app, stack_bytes_rev. cbn [stack_bytes foldr any_bytes].
      fold (stack_bytes stack) (stack_bytes values). unfold sat_add. lia.
    + assert (sum_with any_nodes (rev values) = sum_with any_nodes values) as Hrev.
      { clear. induction values; simpl; [done|]. rewrite sum_with_app, IHvalues. simpl. lia. }
      rewrite sum_with_app, Hrev. lia.
  - pose proof (size_entries_spec entries (sat_add total size_of_AnyValue) stack ltac:(done)) as Hs.
    destruct (size_entries _ _ _ _) as [total' stack']. destruct Hs as (Ht & Hmin & Hn).
    rewrite IH by lia. rewrite Hmin. f_equal. cbn [stack_bytes foldr any_bytes].
    fold (stack_bytes stack). unfold sat_add.
    match goal with |- context [foldr ?f 0 entries] => set (X := foldr f 0 entries) end.
    match goal with |- context [_ + foldr ?f 0 entries + _] =>
      replace (foldr f 0 entries) with X; [lia|] end.
    done.
Qed.

End Layout_lemmas.

(** An identifier is kept exactly when it is well formed. *)
Lemma parse_id_survives n v :
  n <> O ->
  negb (bytes_eqb (default (zero_bytes n) (into_id (parse_id n v))) (zero_bytes n))
  = bool_decide (length v = n /\ v <> zero_bytes n).
Proof.
  intros Hn. unfold parse_id, bytes_eqb. destruct v as [|b v].
  { simpl. rewrite bool_decide_eq_true_2 by done.
    symmetry. apply bool_decide_eq_false. intros [Hl _]. simpl in Hl. lia. }
  destruct (decide (length (b :: v) = n)) as [Hl|Hl].
  - rewrite (bool_decide_eq_true_2 _ Hl).
    destruct (decide (b :: v = zero_bytes n)) as [Hz|Hz].
    + rewrite (bool_decide_eq_true_2 _ Hz). simpl.
      rewrite bool_decide_eq_true_2 by done. symmetry. apply bool_decide_eq_false. naive_solver.
    + rewrite (bool_decide_eq_false_2 _ Hz). simpl. rewrite (bool_decide_eq_false_2 _ Hz).
      symmetry. apply bool_decide_eq_true. done.
  - rewrite (bool_decide_eq_false_2 _ Hl). simpl.
    rewrite bool_decide_eq_true_2 by done. symmetry. apply bool_decide_eq_false. naive_solver.
Qed.

(** The stored severity code is the received one, or zero out of range. *)
Lemma severity_code z :
  Z.of_N (severity_as_u8 (severity z)) = (if ((0 <=? z) && (z <=? 24))%Z then z else 0%Z).
Proof.
  unfold severity. destruct (Z.leb_spec 0 z); simpl; [|done]. destruct (Z.leb_spec z 24).
  - assert (z <=? 255 = true)%Z as -> by lia.
    assert (exists n, (n <= 24)%nat /\ z = Z.of_nat n) as (n & Hn & ->) by (exists (Z.to_nat z); lia).
    do 25 (destruct n as [|n]; [done|]). lia.
  - destruct (Z.leb_spec z 255); simpl; [|done].
    assert (severity_from_u8 (Z.to_N z) = None) as ->; [|done].
    destruct (severity_from_u8 (Z.to_N z)) eqn:Hs; [|done].
    assert (24 < Z.to_N z) by lia. remember (Z.to_N z) as m.
    unfold severity_from_u8 in Hs. repeat case_match; try done; lia.
Qed.

(** ** Claims *)

(** C16: the size guard's iterative walk terminates within one round per node and
    accepts a value exactly when the recursive reference does (container depth
    below the limit, every leaf and every key within its byte bound); whatever
    it accepts, the converter converts. *)
Theorem guard_matches_reference v limits what :
  check_loop (S (any_nodes v)) limits what [(v, 0)] = Some (check_any_value v limits what) /\
  is_ok (check_any_value v limits what) = any_within limits 0 v /\
  (is_ok (check_any_value v limits what) = true -> is_ok (attribute_value v) = true).
Proof.
  destruct (check_any_value_spec v limits what) as [H1 H2]. split; [done|]. split; [done|].
  rewrite H2. intros H. by apply (convert_within limits 0).
Qed.

(** Nesting at the limit passes both, one level more fails both. *)
Fixpoint nest (n : nat) (v : AnyValue) : AnyValue :=
  match n with O => v | S n' => ArrayValue [nest n' v] end.

Lemma guard_matches_reference_witness :
  is_ok (attribute_value (nest 32 (IntValue 7))) = true /\
  is_ok (check_any_value (nest 33 (IntValue 7)) Limits_default "log.body") = false.
Proof.
  split; [|reflexivity].
  apply (guard_matches_reference (nest 32 (IntValue 7)) Limits_default "log.attributes"). reflexivity.
Defined.

(** C15: a request that passes the record cap and the size guard is mapped
    without error and without loss.  The chunks are, in order, those of the
    resource groups that hold a record; the origin of a chunk is its group's
    resource, attributes converted, and schema URL; its records are, in order,
    the conversions of all records of the group, each under the scope (name,
    version, attributes, schema URL) it was sent in; and no chunk carries a
    ticket yet.  The chunks hold as many records as the request. *)
Theorem mapping_total av kv at_ limits rls :
  count rls <= max_records_per_request limits ->
  validate_request av kv at_ rls limits = Ok tt ->
  exists chunks, map_request av kv at_ limits rls = Ok chunks /\
    Forall2 chunk_from (filter (fun g => group_records g <> []) rls) chunks /\
    sum_records chunks = count rls.
Proof.
  intros Hcount Hval. destruct (validate_request_convert _ _ _ _ _ Hval) as [chunks Hmap].
  destruct (map_chunks_records _ _ Hmap) as [Hrec _].
  exists chunks. unfold map_request. rewrite Hval.
  destruct (N.ltb_spec (max_records_per_request limits) (count rls)); [lia|].
  split; [done|]. split; [by apply map_chunks_groups|]. rewrite sum_records_mapped, count_proto_records.
  unfold vec_len. f_equal. symmetry. by eapply Forall2_length.
Qed.

Definition sample_proto (t : N) : ProtoLogRecord :=
  {| p_time_unix_nano := t; p_observed_time_unix_nano := 7; p_severity_number := 17;
     p_severity_text := "ERROR"; p_trace_id := repeat one 16; p_span_id := [one; one];
     p_body := Some (KvlistValue [("k", Some (DoubleValue 0)); ("j", None)]);
     p_attributes := [("attempt", Some (IntValue 42))]; p_dropped_attributes_count := 0;
     p_flags := 1; p_event_name := "order.placed" |}.

Definition sample_request : list ResourceLogs :=
  [{| rl_resource := Some {| pr_attributes := [("service.name", Some (StringValue "checkout"))] |};
      rl_scope_logs := [{| sl_scope := None; sl_log_records := [sample_proto 0; sample_proto 9];
                           sl_schema_url := "u" |}];
      rl_schema_url := "" |};
   {| rl_resource := None; rl_scope_logs := []; rl_schema_url := "" |}].

Lemma mapping_total_witness :
  exists chunks, map_request 32 64 56 Limits_default sample_request = Ok chunks /\
    sum_records chunks = 2.
Proof.
  destruct (mapping_total 32 64 56 Limits_default sample_request ltac:(vm_compute; discriminate)
    ltac:(vm_compute; reflexivity)) as (chunks & Hmap & _ & Hsum).
  exists chunks. split; [exact Hmap|]. rewrite Hsum. reflexivity.
Defined.

(** What a mapped record stores: an unset event time takes the observed
    time, timestamps saturate into [0 .. i64::MAX] and are exact when they fit,
    an identifier survives exactly when it has its fixed length and a non-zero
    byte, and a severity outside [0 .. 24] becomes unspecified. *)
Theorem convert_record_exact p sc r :
  convert_record p sc = Ok r ->
  observed_time_unix_nano r = timestamp (p_observed_time_unix_nano p) /\
  time_unix_nano r =
    (if p_time_unix_nano p =? 0 then timestamp (p_observed_time_unix_nano p)
     else timestamp (p_time_unix_nano p)) /\
  (0 <= time_unix_nano r <= i64_max)%Z /\
  (Z.of_N (p_time_unix_nano p) <= i64_max -> p_time_unix_nano p <> 0%N ->
   time_unix_nano r = Z.of_N (p_time_unix_nano p))%Z /\
  has_trace_context r =
    bool_decide (length (p_trace_id p) = 16%nat /\ p_trace_id p <> zero_bytes 16 /\
                 length (p_span_id p) = 8%nat /\ p_span_id p <> zero_bytes 8) /\
  Z.of_N (severity_as_u8 (severity_number r)) =
    (if ((0 <=? p_severity_number p) && (p_severity_number p <=? 24))%Z
     then p_severity_number p else 0%Z).
Proof.
  intros H. unfold convert_record in H.
  destruct (body_value (p_body p)) as [[b bj]|]; [|done].
  destruct (convert_attributes (p_attributes p)); [|done]. simplify_eq/=.
  assert (forall v, 0 <= timestamp v <= i64_max)%Z as Hts.
  { intros v. unfold timestamp. destruct (Z.leb_spec (Z.of_N v) i64_max); unfold i64_max in *; lia. }
  split; [done|]. split; [done|].
  split; [by case_match|].
  split.
  { intros Hfit Hnz. destruct (N.eqb_spec (p_time_unix_nano p) 0); [done|]. unfold timestamp.
    by destruct (Z.leb_spec (Z.of_N (p_time_unix_nano p)) i64_max); [|lia]. }
  split.
  - unfold has_trace_context, has_trace, has_span, parse_trace_id, parse_span_id. simpl.
    rewrite !parse_id_survives by lia. rewrite <- bool_decide_and. apply bool_decide_ext. naive_solver.
  - apply severity_code.
Qed.

Lemma convert_record_exact_witness :
  exists r, convert_record (sample_proto 0) LogScope_default = Ok r /\ time_unix_nano r = 7%Z /\
    has_trace_context r = false.
Proof.
  destruct (convert_record (sample_proto 0) LogScope_default) as [r|] eqn:H;
    [|vm_compute in H; discriminate].
  destruct (convert_record_exact (sample_proto 0) LogScope_default r H) as (_ & Ht & _ & _ & Hc & _).
  exists r. split; [done|]. rewrite Ht, Hc. split; reflexivity.
Defined.

(** The scope-expansion guard is the exact product test: metadata is
    accepted exactly when repeating it for every record stays within the
    budget, and the size estimate of an attribute value is the recursive sum,
    clamped at the top of [usize]. *)
Theorem scope_expansion_exact av kv metadata members limits what v :
  (is_ok (check_scope_expansion metadata members limits what) = true <->
   metadata * members <= max_scope_metadata_expansion_bytes limits) /\
  any_value_size av kv v = N.min u64_max (any_bytes av kv v).
Proof.
  split.
  - unfold check_scope_expansion. destruct (N.eqb_spec members 0) as [->|Hm]; simpl; [split; [lia|done]|].
    destruct (N.eqb_spec metadata 0) as [->|Hd]; simpl; [split; [lia|done]|].
    set (budget := max_scope_metadata_expansion_bytes limits).
    destruct (N.ltb_spec (budget / members) metadata) as [Hlt|Hle]; simpl.
    + split; [done|]. intros Hp. apply N.Div0.div_le_mono with (c := members) in Hp.
      rewrite N.div_mul in Hp by done. lia.
    + split; [|done]. intros _. transitivity (budget / members * members);
        [by apply N.mul_le_mono_r|]. rewrite N.mul_comm. by apply N.Div0.mul_div_le.
  - unfold any_value_size. rewrite any_size_loop_spec; [simpl; f_equal; lia|unfold u64_max; lia|].
    simpl. lia.
Qed.

End Mapping.
