(* ===== verification/Handler.v ===== *)
(** * The export handler
    ([crates/otel-sqlite-ingress/src/logs.rs], [mapping/budget.rs])

    [handle] composes the mapping job, the queue hand-off and the durable wait,
    and turns the outcome into the wire response.  The ledger is read through
    the views the handler observes: the watermark rounds of the wait and one
    view per ticket read afterwards.  The mapping budget is a semaphore whose
    permit travels with the job. *)

From S2P Require Import Prelude Time Model Text Render Command CommitLedger Enqueue Mapping.

Module Handler.
Import Time Model Render Command CommitLedger Enqueue Mapping.

Local Open Scope string_scope.
Local Open Scope list_scope.
Local Open Scope N_scope.

(** ** Responses *)

Record ExportLogsPartialSuccess := {
  rejected_log_records : Z;
  error_message : string;
}.

Record ExportLogsServiceResponse := {
  response_partial_success : option ExportLogsPartialSuccess;
}.

Definition ExportLogsServiceResponse_default : ExportLogsServiceResponse :=
  {| response_partial_success := None |}.

Inductive Code := InvalidArgument | Unavailable | Internal.

#[export] Instance Code_eq_dec : EqDecision Code.
Proof. solve_decision. Defined.

Record Status := {
  code : Code;
  status_message : string;
}.

Definition unavailable {A} (m : string) : result Status A :=
  Err {| code := Unavailable; status_message := m |}.
Definition internal {A} (m : string) : result Status A :=
  Err {| code := Internal; status_message := m |}.
Definition invalid_argument {A} (m : string) : result Status A :=
  Err {| code := InvalidArgument; status_message := m |}.

(** [IngressError::to_string]. *)
Definition error_text (e : IngressError) : string :=
  match e with Mapping m => String.append "cannot map OTLP request: " m end.

(** [i64::try_from(rejected).unwrap_or(i64::MAX)]. *)
Definition partial_success (rejected : N) (message : string) : ExportLogsServiceResponse :=
  {| response_partial_success :=
       Some {| rejected_log_records :=
                 if (Z.of_N rejected <=? i64_max)%Z then Z.of_N rejected else i64_max;
               error_message := message |} |}.

(** ** [finish] *)

(** What one ticket contributes to the committed count. *)
Definition ticket_committed (s : TicketState) (records : N) : N :=
  match s with
  | Completed => records
  | Failed p | Unsettled p => committed p
  end.

Definition is_failed (s : TicketState) : bool := match s with Failed _ => true | _ => false end.

(** The loop over the tickets: the [k]-th read sees the ledger [reads k]. *)
Fixpoint tally (reads : nat -> CommitLedger) (k : nat) (ts : list (N * N)) : N * bool :=
  match ts with
  | [] => (0, false)
  | (ticket, records) :: rest =>
      let s := state (reads k) ticket in
      let (total, any_failed) := tally reads (S k) rest in
      (ticket_committed s records + total, is_failed s || any_failed)
  end.

(** What the handler observes of the ledger: the watermark it first sees, the
    wake-ups of the wait, and the views of the reads. *)
Record Observations := {
  obs_watermark : Watermark;
  obs_wakeups : list (Wakeup Watermark);
  obs_reads : nat -> CommitLedger;
}.

(** [None] while the durable wait is pending. *)
Definition finish (mode : DurabilityMode) (obs : Observations) (o : EnqueueOutcome)
    : option (result Status ExportLogsServiceResponse) :=
  if accepted o =? 0 then
    if disconnected o then Some (unavailable "ingress queue is closed")
    else if 0 <? rejected o then Some (unavailable "ingress queue is full")
    else Some (Ok ExportLogsServiceResponse_default)
  else
    match mode with
    | Commit =>
        let waited :=
          match last_ticket o with
          | Some ticket =>
              match wait_watermark ticket (obs_watermark obs) (obs_wakeups obs) with
              | Some _ => true
              | None => false
              end
          | None => true
          end in
        if waited then
          let (durable, any_failed) := tally (obs_reads obs) 0 (tickets o) in
          let rejected := sat_sub (total_records o) durable in
          if rejected =? 0 then Some (Ok ExportLogsServiceResponse_default)
          else if any_failed || (0 <? durable) then
            Some (Ok (partial_success rejected
              "storage accepted part of the request; retry only the rejected records"))
          else Some (unavailable "storage pipeline shut down before commit")
        else None
    | Command.Enqueue =>
        if 0 <? rejected o then
          Some (Ok (partial_success (rejected o)
            "ingress accepted part of the request; retry only the rejected records"))
        else Some (Ok ExportLogsServiceResponse_default)
    end.

(** ** The mapping budget *)

(** [available] permits; jobs run or queue on the blocking pool, each owning one
    permit, with or without a caller still waiting for it. *)
Record MappingBudget := {
  available : nat;
  jobs_awaited : nat;
  jobs_abandoned : nat;
}.

Definition MappingBudget_new (concurrency : nat) : MappingBudget :=
  {| available := Nat.max concurrency 1; jobs_awaited := 0; jobs_abandoned := 0 |}.

Inductive BudgetStep := AcquireAndSpawn | JobFinished | CallerTimedOut | AbandonedFinished.

(** One event of [run]; [None] when it cannot happen. *)
Definition budget_step (b : MappingBudget) (s : BudgetStep) : option MappingBudget :=
  match s with
  | AcquireAndSpawn =>
      match available b with
      | O => None
      | S n => Some {| available := n; jobs_awaited := S (jobs_awaited b);
                       jobs_abandoned := jobs_abandoned b |}
      end
  | JobFinished =>
      match jobs_awaited b with
      | O => None
      | S n => Some {| available := S (available b); jobs_awaited := n;
                       jobs_abandoned := jobs_abandoned b |}
      end
  | CallerTimedOut =>
      match jobs_awaited b with
      | O => None
      | S n => Some {| available := available b; jobs_awaited := n;
                       jobs_abandoned := S (jobs_abandoned b) |}
      end
  | AbandonedFinished =>
      match jobs_abandoned b with
      | O => None
      | S n => Some {| available := S (available b); jobs_awaited := jobs_awaited b;
                       jobs_abandoned := n |}
      end
  end.

Fixpoint budget_run (b : MappingBudget) (steps : list BudgetStep) : option MappingBudget :=
  match steps with
  | [] => Some b
  | s :: steps' => match budget_step b s with Some b' => budget_run b' steps' | None => None end
  end.

(** ** [handle] *)

(** How the budgeted mapping job ended. *)
Inductive MappingError := MappingTimeout | MappingClosed | MappingJoin (error : string).

Section Handle.
Context (size_of_AnyValue size_of_KeyValue size_of_Attribute : N).

(** A panic of the enqueue task is not modelled: it runs to completion. *)
Definition handle (limits : Limits) (mode : DurabilityMode) (now_ms : N)
    (moves : nat -> list StorageMove) (obs : Observations) (budget : option MappingError)
    (st : Ingress) (request : list ResourceLogs)
    : Ingress * option (result Status ExportLogsServiceResponse) :=
  match budget with
  | Some MappingTimeout => (st, Some (unavailable "log mapping timed out"))
  | Some MappingClosed => (st, Some (internal "log mapping budget is closed"))
  | Some (MappingJoin e) => (st, Some (internal (String.append "log mapping task failed: " e)))
  | None =>
      match map_request size_of_AnyValue size_of_KeyValue size_of_Attribute limits request with
      | Err e => (st, Some (invalid_argument (error_text e)))
      | Ok work =>
          match enqueue now_ms moves st work with
          | (st', Err e) => (st', Some (invalid_argument (error_text e)))
          | (st', Ok o) => (st', finish mode obs o)
          end
      end
  end.

End Handle.

(** ** Lemmas *)

(** The record count of a list of tickets. *)
Definition ticket_sum (ts : list (N * N)) : N := foldr (fun p acc => p.2 + acc) 0 ts.

(** No read reports more than the ticket's records. *)
Definition reads_bounded (reads : nat -> CommitLedger) (k : nat) (ts : list (N * N)) : Prop :=
  forall i t r, ts !! i = Some (t, r) -> ticket_committed (state (reads (k + i)%nat) t) r <= r.

Lemma reads_bounded_cons reads k t r ts :
  reads_bounded reads k ((t, r) :: ts) ->
  ticket_committed (state (reads k) t) r <= r /\ reads_bounded reads (S k) ts.
Proof.
  intros H. split; [specialize (H O t r eq_refl); by rewrite Nat.add_0_r in H|].
  intros i t' r' Hi. specialize (H (S i) t' r' Hi). by rewrite Nat.add_succ_r in H.
Qed.

Lemma tally_bound reads k ts : reads_bounded reads k ts -> (tally reads k ts).1 <= ticket_sum ts.
Proof.
  revert k. induction ts as [|[t r] ts IH]; intros k H; simpl; [done|].
  apply reads_bounded_cons in H as [H0 H']. specialize (IH _ H'). unfold ticket_sum in *. destruct (tally reads (S k) ts). simpl in *. lia.
Qed.

Lemma reads_bounded_prefix reads k ts rest :
  reads_bounded reads k (ts ++ rest) -> reads_bounded reads k ts.
Proof. intros H i t r Hi. apply H. by apply lookup_app_l_Some. Qed.

Lemma ticket_pairs_app n a b :
  ticket_pairs n (a ++ b) = ticket_pairs n a ++ ticket_pairs (n + N.of_nat (length a)) b.
Proof.
  revert n. induction a as [|m a IH]; intros n; cbn [ticket_pairs app length];
    [by rewrite N.add_0_r|].
  rewrite IH. do 2 f_equal. f_equal. lia.
Qed.

(** An outcome whose tickets account for the accepted records. *)
Record outcome_ok (o : EnqueueOutcome) : Prop := {
  ok_sum : accepted o + rejected o = total_records o;
  ok_tickets : ticket_sum (tickets o) = accepted o;
}.

(** The response of the commit mode against what the reads saw. *)
Definition truthful (total durable : N) (resp : result Status ExportLogsServiceResponse) : Prop :=
  match resp with
  | Ok r =>
      match response_partial_success r with
      | None => durable = total
      | Some p => durable < total /\
                  rejected_log_records p = Z.min i64_max (Z.of_N (total - durable))
      end
  | Err s => code s = Unavailable -> durable = 0
  end.

Lemma finish_truthful obs o resp :
  outcome_ok o -> reads_bounded (obs_reads obs) 0 (tickets o) ->
  finish Commit obs o = Some resp ->
  truthful (total_records o) (tally (obs_reads obs) 0 (tickets o)).1 resp.
Proof.
  intros [Hsum Htk] Hb Hfin. pose proof (tally_bound _ _ _ Hb) as Hle. rewrite Htk in Hle.
  unfold finish in Hfin. destruct (tally (obs_reads obs) 0 (tickets o)) as [durable failed]. simpl in *.
  destruct (N.eqb_spec (accepted o) 0) as [Hz|Hz].
  { case_match; simplify_eq; simpl; [lia|].
    destruct (N.ltb_spec 0 (rejected o)); simplify_eq; simpl; lia. }
  case_match; [|done]. unfold sat_sub in Hfin.
  destruct (N.eqb_spec (total_records o - durable) 0) as [Hr|Hr]; simplify_eq; simpl; [lia|].
  destruct (failed || (0 <? durable)) eqn:Hf; simplify_eq; simpl; [|bool_to_prop; lia].
  split; [lia|]. destruct (Z.leb_spec (Z.of_N (total_records o - durable)) i64_max); lia.
Qed.

Lemma tally_full reads k ts :
  reads_bounded reads k ts -> ticket_sum ts <= (tally reads k ts).1 ->
  forall i t r, ts !! i = Some (t, r) -> r <= ticket_committed (state (reads (k + i)%nat) t) r.
Proof.
  revert k. induction ts as [|[t0 r0] ts IH]; intros k Hb Hsum i t r Hi; [done|].
  apply reads_bounded_cons in Hb as [H0 Hb]. pose proof (tally_bound _ _ _ Hb) as Hle.
  specialize (IH (S k) Hb). unfold ticket_sum in *. cbn [tally foldr snd] in Hsum.
  destruct (tally reads (S k) ts) as [n f]. cbn [fst] in *.
  destruct i as [|i]; cbn [lookup list_lookup] in Hi.
  - simplify_eq. rewrite Nat.add_0_r. lia.
  - rewrite Nat.add_succ_r. apply IH; [lia|done].
Qed.

(** A plain success was read off tickets that reported all of their records. *)
Lemma success_reads_all obs o k t n :
  outcome_ok o -> reads_bounded (obs_reads obs) 0 (tickets o) ->
  finish Commit obs o = Some (Ok ExportLogsServiceResponse_default) ->
  tickets o !! k = Some (t, n) -> n <= ticket_committed (state (obs_reads obs k) t) n.
Proof.
  intros Hok Hb Hfin Hk. apply finish_truthful in Hfin; [|done|done]. simpl in Hfin.
  apply (tally_full (obs_reads obs) 0 (tickets o) Hb); [|done].
  rewrite Hfin, (ok_tickets o Hok), <- (ok_sum o Hok). lia.
Qed.

(** Once the contiguous watermark covers the request or the pipeline closes,
    the handler answers. *)
Lemma finish_answers mode obs o :
  (forall t, last_ticket o = Some t -> is_Some (wait_watermark t (obs_watermark obs) (obs_wakeups obs))) ->
  is_Some (finish mode obs o).
Proof.
  intros Hw. unfold finish. destruct (accepted o =? 0); [repeat case_match; by eexists|].
  destruct mode; [|case_match; by eexists].
  destruct (last_ticket o) as [t|]; [destruct (Hw t eq_refl) as [w ->]|];
    destruct (tally _ _ _); repeat case_match; by eexists.
Qed.

Lemma budget_step_total b s b' :
  budget_step b s = Some b' ->
  (available b' + jobs_awaited b' + jobs_abandoned b' =
   available b + jobs_awaited b + jobs_abandoned b)%nat.
Proof. destruct s; simpl; case_match; intros; simplify_eq; simpl; lia. Qed.

(** ** Claims *)

(** C5: the commit-mode response tells what the handler read.  For a request that
    reached the queue, with [durable] the records its tickets reported committed
    when the handler read them: a plain success means every record of the
    request, a partial success rejects exactly the records not committed by then,
    and a retryable [UNAVAILABLE] means that none was.  (Records can commit after
    that reading, once the ledger was closed under the handler; the response does
    not know of them.)  A permanent [INVALID_ARGUMENT] leaves queue and ledger
    untouched. *)
Theorem export_response_truthful av kv at_ limits now_ms moves obs st request work st' resp :
  ledger_inv (ing_ledger st) ->
  next_ticket (ing_ledger st) + N.of_nat (length work) <= u64_max ->
  snd_capacity (ing_queue st) < u64_max ->
  map_request av kv at_ limits request = Ok work ->
  reads_bounded (obs_reads obs) 0 (ticket_pairs (next_ticket (ing_ledger st)) work) ->
  handle av kv at_ limits Commit now_ms moves obs None st request = (st', Some resp) ->
  (exists s, resp = Err s /\ code s = InvalidArgument /\ st' = st) \/
  exists sent rest, work = sent ++ rest /\
    (st' = st \/ chan_log (snd_inner (ing_queue st')) =
       chan_log (snd_inner (ing_queue st)) ++ stamp (next_ticket (ing_ledger st)) sent) /\
    truthful (count request)
      (tally (obs_reads obs) 0 (ticket_pairs (next_ticket (ing_ledger st)) sent)).1 resp.
Proof.
  intros Hinv Hfit Hcap Hmap Hreads Hh. unfold handle in Hh. rewrite Hmap in Hh.
  pose proof (enqueue_spec now_ms moves st work Hinv Hfit Hcap) as He.
  destruct (enqueue now_ms moves st work) as [st1 [o|e]].
  - right. injection Hh as <- Hfin. destruct He as (Htot & Hsum & Hcase).
    destruct (map_request_records _ _ _ _ _ _ Hmap) as (_ & _ & ->).
    destruct Hcase as [(-> & Hacc & Htk & _)|(sent & rest & -> & Hacc & Htk & Hlog & _)].
    + exists [], work. split; [done|]. split; [by left|].
      apply finish_truthful in Hfin; [by rewrite Htk, Htot in Hfin|by split; [rewrite Htot|rewrite Htk]|].
      by rewrite Htk.
    + exists sent, rest. split; [done|]. split; [by right|].
      apply finish_truthful in Hfin; [by rewrite Htk, Htot in Hfin| |].
      * split; [by rewrite Htot|]. unfold ticket_sum. by rewrite Htk, sum_ticket_pairs.
      * rewrite Htk. rewrite ticket_pairs_app in Hreads. by eapply reads_bounded_prefix.
  - left. destruct He as [-> _]. injection Hh as <- <-. by eexists.
Qed.

(** One of the two records was quarantined: the response rejects one. *)
Lemma export_response_truthful_witness :
  let l := complete 3 (note_dropped (note_committed (new 0) 1 1) 1 1) 1 in
  let obs := {| obs_watermark := {| wm_committed_through := 0; wm_closed := false |};
                obs_wakeups := [Changed {| wm_committed_through := 1; wm_closed := false |}];
                obs_reads := fun _ => l |} in
  let st := {| ing_queue := channel 4; ing_ledger := new 0 |} in
  exists st' resp p,
    handle 32 64 56 Limits_default Commit 5 (fun _ => []) obs None st sample_request
      = (st', Some (Ok resp)) /\
    response_partial_success resp = Some p /\ rejected_log_records p = 1%Z.
Proof.
  intros l obs st.
  destruct (map_request 32 64 56 Limits_default sample_request) as [work|] eqn:Hmap;
    [|vm_compute in Hmap; discriminate].
  destruct (handle 32 64 56 Limits_default Commit 5 (fun _ => []) obs None st sample_request)
    as [st' [[resp|e]|]] eqn:Hh; [|vm_compute in Hh; discriminate..].
  assert (length work = 1%nat /\ ticket_pairs 0 work = [(1, 2)]) as [Hlen Htp].
  { vm_compute in Hmap. injection Hmap as <-. split; reflexivity. }
  destruct (export_response_truthful 32 64 56 Limits_default 5 (fun _ => []) obs st sample_request
    work st' (Ok resp) (new_inv 0)) as [(s & Hs & _)|(sent & rest & Hw & _ & Htr)]; try done.
  - by rewrite Hlen.
  - simpl. rewrite Htp. intros [|i] t r Hi; [|done]. injection Hi as <- <-. vm_compute. discriminate.
  - exists st', resp.
    destruct (response_partial_success resp) as [p|] eqn:Hp.
    + exists p. split; [done|]. split; [done|]. vm_compute in Hh. injection Hh as _ <-.
      vm_compute in Hp. by injection Hp as <-.
    + exfalso. vm_compute in Hh. injection Hh as _ <-. vm_compute in Hp. discriminate.
Defined.

(** The mapping budget bounds the jobs on the blocking pool, abandoned ones
    included: whatever the callers do, running and abandoned jobs together never
    exceed the configured concurrency (at least one), a caller's timeout gives
    back no permit, and a free permit is always there when no job is left. *)
Theorem mapping_budget_bounded concurrency steps b :
  budget_run (MappingBudget_new concurrency) steps = Some b ->
  (available b + jobs_awaited b + jobs_abandoned b = Nat.max concurrency 1)%nat /\
  (jobs_awaited b = 0 -> jobs_abandoned b = 0 -> is_Some (budget_step b AcquireAndSpawn))%nat.
Proof.
  intros H.
  assert (forall b0, budget_run b0 steps = Some b ->
    available b + jobs_awaited b + jobs_abandoned b =
    available b0 + jobs_awaited b0 + jobs_abandoned b0)%nat as Hrun.
  { clear H. induction steps as [|s steps IH]; simpl; intros b0 Hb; [by simplify_eq|].
    case_match eqn:Hs; [|done]. apply budget_step_total in Hs. rewrite <- Hs. auto. }
  apply Hrun in H. simpl in H. split; [lia|]. intros Ha Hb.
  simpl. destruct (available b); [lia|]. by eexists.
Qed.

Lemma mapping_budget_bounded_witness :
  exists b, budget_run (MappingBudget_new 1)
              [AcquireAndSpawn; CallerTimedOut; AbandonedFinished; AcquireAndSpawn] = Some b /\
    (available b + jobs_awaited b + jobs_abandoned b = 1)%nat.
Proof.
  eexists. split; [reflexivity|].
  apply (mapping_budget_bounded 1 [AcquireAndSpawn; CallerTimedOut; AbandonedFinished; AcquireAndSpawn]).
  reflexivity.
Defined.

End Handler.
