(* ===== verification/BatcherDriver.v ===== *)
(** * Insert batcher thread ([crates/otel-sqlite-storage/src/batcher.rs])

    The driver loop between the ingest channel and the writer's command queue.
    The environment of one iteration is a [Wake]: what the blocking receive
    returned, the clock readings the iteration makes and the millisecond clock.
    The command channel keeps the queue in order; [ch_accepts] is the number of
    further sends that succeed before the receiver is gone ([None]: it stays),
    and [ch_returned] collects the commands that failed sends handed back, which
    the driver drops.  Panics of the buffers are [None]. *)

From S2P Require Import Prelude Time Model Command CommitLedger InsertBatcher OriginBuffers.

Module BatcherDriver.
Import Time Model Command CommitLedger InsertBatcher OriginBuffers.

(** ** Counters ([stats.rs], batcher side) *)

Record BatcherStats := {
  chunks_ingested : N;
  batches_emitted : N;
  timer_flushes : N;
  buffered_records : nat;
  dropped_records : N;
  last_progress_ms : N;
  running : bool;
}.

Definition BatcherStats_new (now_ms : N) : BatcherStats :=
  {| chunks_ingested := 0; batches_emitted := 0; timer_flushes := 0; buffered_records := 0;
     dropped_records := 0; last_progress_ms := now_ms; running := false |}.

Definition mark_progress (now_ms : N) (s : BatcherStats) : BatcherStats :=
  {| chunks_ingested := chunks_ingested s; batches_emitted := batches_emitted s;
     timer_flushes := timer_flushes s; buffered_records := buffered_records s;
     dropped_records := dropped_records s; last_progress_ms := now_ms; running := running s |}.

Definition observe_buffered (n : nat) (s : BatcherStats) : BatcherStats :=
  {| chunks_ingested := chunks_ingested s; batches_emitted := batches_emitted s;
     timer_flushes := timer_flushes s; buffered_records := n;
     dropped_records := dropped_records s; last_progress_ms := last_progress_ms s;
     running := running s |}.

(** [fetch_add] on each counter. *)
Definition add_chunks (n : N) (s : BatcherStats) : BatcherStats :=
  {| chunks_ingested := wrap_add (chunks_ingested s) n; batches_emitted := batches_emitted s;
     timer_flushes := timer_flushes s; buffered_records := buffered_records s;
     dropped_records := dropped_records s; last_progress_ms := last_progress_ms s;
     running := running s |}.
Definition add_batches (n : N) (s : BatcherStats) : BatcherStats :=
  {| chunks_ingested := chunks_ingested s; batches_emitted := wrap_add (batches_emitted s) n;
     timer_flushes := timer_flushes s; buffered_records := buffered_records s;
     dropped_records := dropped_records s; last_progress_ms := last_progress_ms s;
     running := running s |}.
Definition add_timer_flushes (n : N) (s : BatcherStats) : BatcherStats :=
  {| chunks_ingested := chunks_ingested s; batches_emitted := batches_emitted s;
     timer_flushes := wrap_add (timer_flushes s) n; buffered_records := buffered_records s;
     dropped_records := dropped_records s; last_progress_ms := last_progress_ms s;
     running := running s |}.
Definition add_dropped_records (n : N) (s : BatcherStats) : BatcherStats :=
  {| chunks_ingested := chunks_ingested s; batches_emitted := batches_emitted s;
     timer_flushes := timer_flushes s; buffered_records := buffered_records s;
     dropped_records := wrap_add (dropped_records s) n; last_progress_ms := last_progress_ms s;
     running := running s |}.

(** [RunningGuard]: set on creation, cleared on drop. *)
Definition set_running (b : bool) (s : BatcherStats) : BatcherStats :=
  {| chunks_ingested := chunks_ingested s; batches_emitted := batches_emitted s;
     timer_flushes := timer_flushes s; buffered_records := buffered_records s;
     dropped_records := dropped_records s; last_progress_ms := last_progress_ms s;
     running := b |}.

(** ** The command channel *)

Record Channel := {
  ch_queue : list WriteCommand;
  ch_accepts : option nat;
  ch_returned : list WriteCommand;
  ch_sender_dropped : bool;
}.

Definition Channel_new (accepts : option nat) : Channel :=
  {| ch_queue := []; ch_accepts := accepts; ch_returned := []; ch_sender_dropped := false |}.

(** [Sender::send]: [Err(SendError(command))] once the receiver is gone. *)
Definition send (ch : Channel) (command : WriteCommand) : Channel * result WriteCommand unit :=
  match ch_accepts ch with
  | Some O =>
      ({| ch_queue := ch_queue ch; ch_accepts := Some 0;
          ch_returned := ch_returned ch ++ [command];
          ch_sender_dropped := ch_sender_dropped ch |}, Err command)
  | accepts =>
      ({| ch_queue := ch_queue ch ++ [command]; ch_accepts := Nat.pred <$> accepts;
          ch_returned := ch_returned ch; ch_sender_dropped := ch_sender_dropped ch |}, Ok tt)
  end.

(** ** Operations *)

Definition submit (ch : Channel) (command : WriteCommand) (s : BatcherStats)
    : Channel * BatcherStats * bool :=
  match send ch command with
  | (ch', Ok _) => (ch', s, true)
  | (ch', Err command) =>
      (ch', add_dropped_records (N.of_nat (WriteCommand_record_count command)) s, false)
  end.

Definition batch_of (submission : Submission LogRecord) : LogWriteBatch :=
  {| lwb_origin := sub_origin submission;
     lwb_records := sub_records submission;
     lwb_commit_seqs := sub_commit_seqs submission;
     lwb_segments := sub_segments submission |}.

Definition submit_log_batch (now_ms : N) (ch : Channel) (submission : Submission LogRecord)
    (s : BatcherStats) : Channel * BatcherStats * bool :=
  match submit ch (InsertLogs (batch_of submission)) s with
  | (ch', s', true) => (ch', mark_progress now_ms (add_batches 1 s'), true)
  | (ch', s', false) => (ch', s', false)
  end.

(** [for submission in .. { alive &= submit_log_batch(..) }]: a failed send
    does not stop the loop. *)
Fixpoint submit_all (now_ms : N) (ch : Channel) (subs : list (Submission LogRecord))
    (s : BatcherStats) (alive : bool) : Channel * BatcherStats * bool :=
  match subs with
  | [] => (ch, s, alive)
  | submission :: subs' =>
      let '(ch', s', submitted) := submit_log_batch now_ms ch submission s in
      submit_all now_ms ch' subs' s' (alive && submitted)
  end.

Section driver.
Context {L : Type} `{!Ledger L}.

Record Driver := {
  logs : OriginBuffers LogRecord;
  stats : BatcherStats;
  channel : Channel;
  ledger : L;
  alive : bool;
  events_processed : N;
}.

Definition set_logs (d : Driver) (o : OriginBuffers LogRecord) (ch : Channel)
    (s : BatcherStats) (a : bool) : Driver :=
  {| logs := o; stats := s; channel := ch; ledger := ledger d; alive := a;
     events_processed := events_processed d |}.

Definition flush_buffers (now_ms : N) (d : Driver) : option Driver :=
  '(o, subs) ← flush_all (logs d);
  let '(ch, s, a) := submit_all now_ms (channel d) subs (stats d) (alive d) in
  Some (set_logs d o ch s a).

(** What the blocking receive of one iteration returned. *)
Inductive Wake :=
| Received (message : IngestMessage)
| TimedOut
| InputClosed.

Inductive Event :=
| Message (message : IngestMessage)
| Timer
| Disconnected.

(** [recv_timeout] when a deadline is armed, [recv] otherwise; [recv] cannot
    time out. *)
Definition next_event (armed : option Instant) (w : Wake) : option Event :=
  match w, armed with
  | Received m, _ => Some (Message m)
  | InputClosed, _ => Some Disconnected
  | TimedOut, Some _ => Some Timer
  | TimedOut, None => None
  end.

Inductive Flow :=
| Continue (d : Driver)
| Break (d : Driver).

(** The [match event] of the loop body. *)
Definition handle_event (now : nat -> Instant) (now_ms : N) (d : Driver) (e : Event) : option Flow :=
  match e with
  | Message (Logs chunk) =>
      if LogChunk_is_empty chunk then
        Some (Continue {| logs := logs d; stats := stats d; channel := channel d;
                          ledger := led_settle now_ms (ledger d) (chunk_commit_seq chunk) true;
                          alive := alive d; events_processed := events_processed d |})
      else
        let s := mark_progress now_ms (add_chunks 1 (stats d)) in
        '(o, subs) ← obs_push now (logs d) (chunk_origin chunk) (chunk_records chunk)
                       (chunk_commit_seq chunk);
        let '(ch, s', a) := submit_all now_ms (channel d) subs s (alive d) in
        Some (Continue (set_logs d o ch s' a))
  | Message IngestFlush =>
      d' ← flush_buffers now_ms d;
      if alive d' then
        let '(ch, s, a) := submit (channel d') Flush (stats d') in
        Some (Continue (set_logs d' (logs d') ch s a))
      else Some (Continue d')
  | Timer =>
      '(o, expired) ← flush_expired (now 0) (logs d);
      let s := match expired with
               | [] => stats d
               | _ => add_timer_flushes (N.of_nat (length expired)) (stats d)
               end in
      let '(ch, s', a) := submit_all now_ms (channel d) expired s (alive d) in
      Some (Continue (set_logs d o ch s' a))
  | Disconnected => Some (Break d)
  end.

(** One round of [while alive]. *)
Definition iteration (fault_after : option N) (w : Wake) (now : nat -> Instant) (now_ms : N)
    (d : Driver) : option Flow :=
  let events := (events_processed d + 1)%N in
  let d1 := {| logs := logs d; stats := stats d; channel := channel d; ledger := ledger d;
               alive := alive d; events_processed := events |} in
  match fault_after with
  | Some limit =>
      if (limit <=? events)%N then Some (Break d1)
      else
        let d2 := set_logs d1 (logs d1) (channel d1)
                    (observe_buffered (obs_buffered (logs d1)) (stats d1)) (alive d1) in
        next_event (obs_deadline (logs d2)) w ≫= handle_event now now_ms d2
  | None =>
      let d2 := set_logs d1 (logs d1) (channel d1)
                  (observe_buffered (obs_buffered (logs d1)) (stats d1)) (alive d1) in
      next_event (obs_deadline (logs d2)) w ≫= handle_event now now_ms d2
  end.

(** After the loop: final flush, then either the writer still owns the close of
    the ledger, or the held records are dropped and the ledger is closed. *)
Definition finish (now_ms : N) (d : Driver) : option Driver :=
  d1 ← (if alive d then flush_buffers now_ms d else Some d);
  let d2 :=
    if alive d1 then d1
    else
      let abandoned := N.of_nat (obs_buffered (logs d1)) in
      let s := if (0 <? abandoned)%N then add_dropped_records abandoned (stats d1) else stats d1 in
      {| logs := logs d1; stats := s; channel := channel d1; ledger := led_close (ledger d1);
         alive := alive d1; events_processed := events_processed d1 |} in
  Some {| logs := logs d2;
          stats := set_running false (observe_buffered 0 (stats d2));
          channel := {| ch_queue := ch_queue (channel d2); ch_accepts := ch_accepts (channel d2);
                        ch_returned := ch_returned (channel d2); ch_sender_dropped := true |};
          ledger := ledger d2; alive := alive d2; events_processed := events_processed d2 |}.

(** The environment of the thread: one entry per iteration. *)
Record Turn := { turn_wake : Wake; turn_clock : nat -> Instant; turn_ms : N }.

(** The loop, for as many iterations as the environment provides; [true] when
    the loop has ended. *)
Fixpoint run_loop (fault_after : option N) (turns : list Turn) (d : Driver) : option (Driver * bool) :=
  if alive d then
    match turns with
    | [] => Some (d, false)
    | t :: turns' =>
        flow ← iteration fault_after (turn_wake t) (turn_clock t) (turn_ms t) d;
        match flow with
        | Continue d' => run_loop fault_after turns' d'
        | Break d' => Some (d', true)
        end
    end
  else Some (d, true).

Definition start (c : InsertBatcherConfig) (accepts : option nat) (l : L) (now_ms : N) : Driver :=
  {| logs := OriginBuffers_new c;
     stats := mark_progress now_ms (set_running true (BatcherStats_new now_ms));
     channel := Channel_new accepts; ledger := l; alive := true; events_processed := 0 |}.

Definition run (c : InsertBatcherConfig) (accepts : option nat) (l : L) (fault_after : option N)
    (turns : list Turn) (start_ms end_ms : N) : option (Driver * bool) :=
  '(d, ended) ← run_loop fault_after turns (start c accepts l start_ms);
  if (ended : bool) then d' ← finish end_ms d; Some (d', true) else Some (d, false).

(** ** What a command carries *)

Definition command_records (c : WriteCommand) : list (LogRecord * N) :=
  match c with
  | InsertLogs b => zip (batch_records (lwb_records b)) (expand_segments (lwb_segments b))
  | _ => []
  end.

Definition command_segments (c : WriteCommand) : list RecordSegment :=
  match c with InsertLogs b => lwb_segments b | _ => [] end.

(** The segments of an insert command partition its records into non-empty
    runs. *)
Definition command_ok (c : WriteCommand) : Prop :=
  match c with
  | InsertLogs b => length (expand_segments (lwb_segments b)) = WriteBatch_len (lwb_records b) /\
      Forall (fun g => 0 < seg_records g) (lwb_segments b) /\
      lwb_commit_seqs b = dedup (merge_sort N.le (seg_commit_seq <$> lwb_segments b)) /\
      0 < WriteBatch_len (lwb_records b)
  | _ => True
  end.

(** Everything handed to [send], in order: commands in the queue, then the
    ones it returned. *)
Definition emitted (ch : Channel) : list WriteCommand := ch_queue ch ++ ch_returned ch.

Definition records_of (cs : list WriteCommand) : list (LogRecord * N) :=
  concat (command_records <$> cs).
Definition segments_of (cs : list WriteCommand) : list RecordSegment :=
  concat (command_segments <$> cs).
Definition tickets_in (cs : list WriteCommand) : list N := seg_commit_seq <$> segments_of cs.

Lemma records_of_app c1 c2 : records_of (c1 ++ c2) = records_of c1 ++ records_of c2.
Proof. unfold records_of. by rewrite fmap_app, concat_app. Qed.
Lemma segments_of_app c1 c2 : segments_of (c1 ++ c2) = segments_of c1 ++ segments_of c2.
Proof. unfold segments_of. by rewrite fmap_app, concat_app. Qed.

Definition insert_of (s : Submission LogRecord) : WriteCommand := InsertLogs (batch_of s).

Lemma records_of_inserts subs : records_of (insert_of <$> subs) = concat (attributed <$> subs).
Proof. unfold records_of. by rewrite <- list_fmap_compose. Qed.
Lemma segments_of_inserts subs : segments_of (insert_of <$> subs) = concat (sub_segments <$> subs).
Proof. unfold segments_of. by rewrite <- list_fmap_compose. Qed.

(** ** The channel *)

Definition channel_ok (ch : Channel) : Prop := ch_returned ch = [] \/ ch_accepts ch = Some 0.

Lemma send_spec ch c :
  channel_ok ch ->
  channel_ok (send ch c).1 /\ emitted (send ch c).1 = emitted ch ++ [c] /\
  ((exists x, (send ch c).2 = Ok x /\ ch_returned (send ch c).1 = ch_returned ch) \/
   ((send ch c).2 = Err c /\ ch_returned (send ch c).1 = ch_returned ch ++ [c])).
Proof.
  unfold channel_ok, send, emitted. intros Hok.
  destruct (ch_accepts ch) as [[|n]|] eqn:Ha; simpl.
  - split; [by right|]. split; [by rewrite app_assoc|]. by right.
  - destruct Hok as [->|?]; [|done]. split; [by left|]. rewrite !app_nil_r. split; [done|]. left. eauto.
  - destruct Hok as [->|?]; [|done]. split; [by left|]. rewrite !app_nil_r. split; [done|]. left. eauto.
Qed.

(** Records lost to failed sends, as the counter sees them. *)
Definition returned_count (ch : Channel) : N :=
  N.of_nat (sum_with WriteCommand_record_count (ch_returned ch)).

Definition counted (ch : Channel) (s : BatcherStats) (n : N) : Prop :=
  dropped_records s = ((returned_count ch + n) mod 2 ^ 64)%N.

Lemma counted_send ch c s :
  counted ch s 0 -> ch_returned (send ch c).1 = ch_returned ch ++ [c] ->
  counted (send ch c).1 (add_dropped_records (N.of_nat (WriteCommand_record_count c)) s) 0.
Proof.
  unfold counted, returned_count. intros H ->. simpl. rewrite H. unfold wrap_add.
  rewrite N.Div0.add_mod_idemp_l, sum_with_app. simpl. f_equal. lia.
Qed.

Lemma submit_spec ch c s :
  channel_ok ch -> counted ch s 0 ->
  exists ch' s' a, submit ch c s = (ch', s', a) /\ channel_ok ch' /\ emitted ch' = emitted ch ++ [c] /\
    counted ch' s' 0 /\ (a = true -> ch_returned ch' = ch_returned ch) /\
    (a = false \/ ch_accepts ch = Some 0 -> ch_accepts ch' = Some 0).
Proof.
  intros Hok Hc. unfold submit.
  assert (ch_accepts ch = Some 0 -> ch_accepts (send ch c).1 = Some 0) as Hgone.
  { unfold send. by intros ->. } destruct (send_spec ch c Hok) as (Hok' & Hem & Hcase).
  destruct (send ch c) as [ch' r] eqn:Hs. simpl in *.
  destruct Hcase as [(x & -> & Hr)|[-> Hr]].
  - eexists _, _, _. split; [done|]. split; [done|]. split; [done|]. split; [|split; [done|naive_solver]].
    unfold counted, returned_count in *. by rewrite Hr.
  - eexists _, _, _. split; [done|]. split; [done|]. split; [done|]. split; [|split; [done|]].
    + pose proof (counted_send ch c s Hc) as H'. rewrite Hs in H'. by apply H'.
    + intros [_|?]; [|auto]. unfold channel_ok in Hok'. rewrite Hr in Hok'. destruct Hok' as [Hnil|?]; [|done].
      by destruct (ch_returned ch).
Qed.

Lemma submit_all_spec now_ms ch subs s a :
  channel_ok ch -> counted ch s 0 ->
  exists ch' s' a', submit_all now_ms ch subs s a = (ch', s', a') /\ channel_ok ch' /\
    emitted ch' = emitted ch ++ (insert_of <$> subs) /\ counted ch' s' 0 /\
    (a' = true -> a = true /\ ch_returned ch' = ch_returned ch) /\
    (ch_accepts ch = Some 0 -> ch_accepts ch' = Some 0) /\
    (a' = false -> a = false \/ ch_accepts ch' = Some 0).
Proof.
  revert ch s a. induction subs as [|sub subs IH]; intros ch s a Hok Hc; simpl.
  { eexists _, _, _. split; [done|]. rewrite app_nil_r. naive_solver. }
  unfold submit_log_batch.
  destruct (submit_spec ch (insert_of sub) s Hok Hc) as (ch1 & s1 & a1 & Hsub & Hok1 & Hem1 & Hc1 & Ht1 & Hf1).
  unfold insert_of in Hsub at 1. rewrite Hsub.
  set (s2 := if a1 then mark_progress now_ms (add_batches 1 s1) else s1).
  assert (counted ch1 s2 0) as Hc2 by (by destruct a1).
  assert (exists q, (if a1 then (ch1, mark_progress now_ms (add_batches 1 s1), true) else (ch1, s1, false)) = (ch1, s2, a1) /\ q = a1)
    as (_ & Hq & _) by (exists a1; by destruct a1).
  rewrite Hq.
  destruct (IH ch1 s2 (a && a1) Hok1 Hc2) as (ch' & s' & a' & -> & Hok' & Hem' & Hc' & Ht' & Hg' & Hf').
  eexists _, _, _. split; [done|]. split; [done|]. split; [by rewrite Hem', Hem1, <- app_assoc|].
  split; [done|]. split.
  - intros Ha. destruct (Ht' Ha) as [[-> ->]%andb_true_iff Hr]. split; [done|]. rewrite Hr. auto.
  - split; [auto|]. intros Ha. destruct a; [right|by left]. destruct a1; simpl in *; [|auto].
    by destruct (Hf' Ha).
Qed.

(** ** What one step does to the buffers *)

Record emits (o o' : OriginBuffers LogRecord) (subs : list (Submission LogRecord))
    (new : list (LogRecord * N)) : Prop := {
  em_inv : buffers_inv o';
  em_records : concat (attributed <$> subs) ++ attributed_all o' ≡ₚ attributed_all o ++ new;
  em_ok : Forall (fun s => command_ok (insert_of s)) subs;
  em_tickets : forall u, u ∈ (seg_commit_seq <$> concat (sub_segments <$> subs)) \/ u ∈ buffered_tickets o' <->
    u ∈ buffered_tickets o \/ u ∈ new.*2;
  em_complete : NoDup (buffered_tickets o) -> (forall u, u ∈ new.*2 -> u ∉ buffered_tickets o) ->
    NoDup (buffered_tickets o') /\ complete_ok (concat (sub_segments <$> subs)) (buffered_tickets o');
}.

Definition with_ticket (t : N) (records : list LogRecord) : list (LogRecord * N) :=
  (fun r => (r, t)) <$> records.

Lemma elem_of_with_ticket t records u : u ∈ (with_ticket t records).*2 <-> u = t /\ records ≠ [].
Proof.
  unfold with_ticket. rewrite <- list_fmap_compose, list_elem_of_fmap. simpl. split.
  - intros (r & -> & Hr). split; [done|]. intros ->. set_solver.
  - intros [-> Hne]. destruct records as [|r records]; [done|]. exists r. split; [done|]. left.
Qed.

Lemma push_emits now o origin records t :
  buffers_inv o -> records ≠ [] ->
  exists o' subs, obs_push now o origin records t = Some (o', subs) /\
    emits o o' subs (with_ticket t records).
Proof.
  intros Hinv Hne. destruct (obs_push_flat now o origin records t Hinv) as
    (o' & subs & before & old & kept & after & Hp & Hi & _ & Ha & Ha' & Hcat & Hall & Hmem & Hco).
  exists o', subs. split; [done|]. split; [done| | | |].
  - rewrite Ha, Ha', (Permutation_app_swap_app before kept after), app_assoc, Hcat.
    rewrite (Permutation_app_swap_app before old after). fold (with_ticket t records).
    rewrite <- !app_assoc. apply Permutation_app_head.
    rewrite (app_assoc before). apply Permutation_app_comm.
  - eapply Forall_impl; [exact Hall|]. intros s (_ & Hl & (Hs & Hp' & Hc)). simpl.
    pose proof (oi_config o Hinv). split_and!; [done|done|done|lia].
  - intros u. rewrite Hmem, elem_of_with_ticket. done.
  - intros Hnd Hf. apply Hco; [done|]. by apply Hf, elem_of_with_ticket.
Qed.

Lemma flush_emits f o :
  flushes f -> buffers_inv o ->
  exists o' subs, flush_with f o = Some (o', subs) /\ emits o o' subs [] /\
    buffers o' = filter (fun p => ~ is_flushed f p) (buffers o).
Proof.
  intros Hf Hinv. destruct (flush_with_spec f o Hf Hinv) as
    (o' & Heq & Hi & Hcfg & Hb & Hp & Ht & Hperm & Hc & Hall).
  eexists o', _. split; [exact Heq|]. split; [|done]. split; [done| | | |].
  - by rewrite app_nil_r.
  - eapply Forall_impl; [exact Hall|]. by intros s ((? & ? & ?) & ? & _).
  - intros u. rewrite Ht, <- elem_of_app, Hperm. simpl. set_solver.
  - intros Hnd _. by eapply flush_complete_ok.
Qed.

(** ** Driver invariant *)

Record driver_inv (d : Driver) (ingested : list (LogRecord * N)) : Prop := {
  di_buffers : buffers_inv (logs d);
  di_channel : channel_ok (channel d);
  di_records : records_of (emitted (channel d)) ++ attributed_all (logs d) ≡ₚ ingested;
  di_commands : Forall command_ok (emitted (channel d));
  di_counted : counted (channel d) (stats d) 0;
  di_alive : if alive d then ch_returned (channel d) = [] else ch_accepts (channel d) = Some 0;
  di_nodup : NoDup (buffered_tickets (logs d));
  di_complete : complete_ok (segments_of (emitted (channel d))) (buffered_tickets (logs d));
  di_tickets : forall u, u ∈ tickets_in (emitted (channel d)) \/ u ∈ buffered_tickets (logs d) <->
    u ∈ ingested.*2;
}.

(** The common part of every branch that moves submissions into the channel. *)
Lemma submit_emitted d ingested o' subs new now_ms s :
  driver_inv d ingested -> emits (logs d) o' subs new ->
  (forall u, u ∈ new.*2 -> u ∉ ingested.*2) -> dropped_records s = dropped_records (stats d) ->
  exists ch' s' a', submit_all now_ms (channel d) subs s (alive d) = (ch', s', a') /\
    driver_inv (set_logs d o' ch' s' a') (ingested ++ new) /\
    emitted ch' = emitted (channel d) ++ (insert_of <$> subs).
Proof.
  intros [Hb Hch Hr Hcmd Hcnt Hal Hnd Hco Htk] [Ei Er Eo Et Ec] Hfresh Hs.
  assert (counted (channel d) s 0) as Hcnt' by (unfold counted; by rewrite Hs).
  destruct (submit_all_spec now_ms (channel d) subs s (alive d) Hch Hcnt')
    as (ch' & s' & a' & Heq & Hch' & Hem & Hc' & Ht' & Hg' & Hf').
  destruct Ec as [Hnd' Hco'].
  { done. }
  { intros u Hu Hin. apply (Hfresh u Hu), Htk. by right. }
  exists ch', s', a'. split; [done|]. split; [|done]. split; simpl; [done|done| | |done| |done| |].
  - rewrite Hem, records_of_app, records_of_inserts, <- app_assoc, Er, app_assoc. by rewrite Hr.
  - rewrite Hem. apply Forall_app. split; [done|]. by apply Forall_fmap.
  - destruct a'.
    + destruct (Ht' eq_refl) as [Ha Hret]. rewrite Ha in Hal. by rewrite Hret.
    + destruct (Hf' eq_refl) as [Ha|?]; [|done]. rewrite Ha in Hal. auto.
  - rewrite Hem, segments_of_app, segments_of_inserts. apply complete_ok_app. split; [|done].
    eapply complete_ok_rel; [|exact Hco]. intros u Hu. rewrite elem_of_app, Et.
    split; [by left|]. intros [?|Hn]; [done|]. exfalso. apply (Hfresh u Hn), Htk. by left.
  - intros u. unfold tickets_in in *. rewrite Hem, segments_of_app, segments_of_inserts, fmap_app, fmap_app, !elem_of_app, <- Htk.
    specialize (Et u). tauto.
Qed.

Lemma flush_buffers_spec now_ms d ingested :
  driver_inv d ingested ->
  exists d', flush_buffers now_ms d = Some d' /\ driver_inv d' ingested /\
    buffers (logs d') = [] /\ ledger d' = ledger d /\
    exists subs, emitted (channel d') = emitted (channel d) ++ (insert_of <$> subs).
Proof.
  intros Hinv. unfold flush_buffers, flush_all.
  destruct (flush_emits _ _ flush_flushes (di_buffers d ingested Hinv)) as (o' & subs & -> & Hem & Hb).
  simpl. destruct (submit_emitted d ingested o' subs [] now_ms (stats d) Hinv Hem)
    as (ch' & s' & a' & -> & Hinv' & Hch'); [set_solver|done|].
  rewrite app_nil_r in Hinv'. eexists. split; [done|]. split; [done|]. split; [|eauto].
  pose proof (di_buffers d ingested Hinv) as [_ Hall]%buffers_inv_alt.
  simpl. by rewrite Hb, (flush_leaves_none _ _ Hall).
Qed.

(** Records a wake-up brings in. *)
Definition wake_records (w : Wake) : list (LogRecord * N) :=
  match w with
  | Received (Logs chunk) => with_ticket (chunk_commit_seq chunk) (chunk_records chunk)
  | _ => []
  end.

Definition event_records (e : Event) : list (LogRecord * N) :=
  match e with
  | Message (Logs chunk) => with_ticket (chunk_commit_seq chunk) (chunk_records chunk)
  | _ => []
  end.

(** The only ledger call of an iteration: the ticket of an empty chunk is
    voided. *)
Definition event_ledger (now_ms : N) (l : L) (e : Event) : L :=
  match e with
  | Message (Logs chunk) =>
      if LogChunk_is_empty chunk then led_settle now_ms l (chunk_commit_seq chunk) true else l
  | _ => l
  end.

Definition wake_ledger (now_ms : N) (l : L) (w : Wake) : L :=
  match w with
  | Received (Logs chunk) =>
      if LogChunk_is_empty chunk then led_settle now_ms l (chunk_commit_seq chunk) true else l
  | _ => l
  end.

Definition flow_driver (f : Flow) : Driver :=
  match f with Continue d | Break d => d end.

Lemma driver_inv_frame d ingested s l e :
  driver_inv d ingested -> dropped_records s = dropped_records (stats d) ->
  driver_inv {| logs := logs d; stats := s; channel := channel d; ledger := l; alive := alive d;
                events_processed := e |} ingested.
Proof. intros [] Hs. split; simpl; try done. unfold counted in *. by rewrite Hs. Qed.

Lemma driver_inv_set_logs d d' ingested :
  driver_inv d ingested -> logs d' = logs d -> channel d' = channel d ->
  alive d' = alive d -> dropped_records (stats d') = dropped_records (stats d) -> driver_inv d' ingested.
Proof.
  intros [] Hl Hc Ha Hs. split; rewrite ?Hl, ?Hc, ?Ha; try done. unfold counted in *. by rewrite Hs.
Qed.

Lemma handle_event_spec now now_ms d ingested e :
  driver_inv d ingested -> (forall u, u ∈ (event_records e).*2 -> u ∉ ingested.*2) ->
  exists f, handle_event now now_ms d e = Some f /\
    driver_inv (flow_driver f) (ingested ++ event_records e) /\
    ledger (flow_driver f) = event_ledger now_ms (ledger d) e /\
    (match e with Disconnected => f = Break d | _ => exists d', f = Continue d' end).
Proof.
  intros Hinv Hfresh. destruct e as [[chunk|]| |]; simpl.
  - unfold LogChunk_is_empty. simpl in Hfresh.
    destruct (chunk_records chunk) as [|r records] eqn:Hrec.
    + eexists. split; [done|]. simpl. rewrite app_nil_r. split; [|split; [done|eauto]].
      by apply driver_inv_frame.
    + rewrite <- Hrec. destruct (push_emits now (logs d) (chunk_origin chunk) (chunk_records chunk)
        (chunk_commit_seq chunk) (di_buffers d ingested Hinv)) as (o' & subs & -> & Hem); [by rewrite Hrec|].
      simpl. rewrite <- Hrec in Hfresh.
      destruct (submit_emitted d ingested o' subs _ now_ms
        (mark_progress now_ms (add_chunks 1 (stats d))) Hinv Hem Hfresh) as (ch' & s' & a' & -> & Hinv' & _);
        [done|]. eexists. split; [done|]. split; [done|]. split; [done|eauto].
  - destruct (flush_buffers_spec now_ms d ingested Hinv) as (d' & -> & Hinv' & _ & Hl & _). simpl.
    rewrite app_nil_r. destruct (alive d') eqn:Ha; [|eexists; eauto].
    destruct (submit_spec (channel d') Flush (stats d') (di_channel _ _ Hinv') (di_counted _ _ Hinv'))
      as (ch & s & a & -> & Hok & Hem & Hcnt & Ht & Hf).
    eexists. split; [done|]. split; [|eauto]. destruct Hinv' as [? ? ? Hcmd ? Hal ? ? ?].
    rewrite Ha in Hal. unfold tickets_in in *. split; simpl; try done; rewrite ?Hem, ?records_of_app, ?segments_of_app.
    + simpl. by rewrite app_nil_r.
    + apply Forall_app. split; [done|]. by apply Forall_singleton.
    + destruct a; [by rewrite Ht|auto].
    + simpl. by rewrite app_nil_r.
    + intros u. unfold tickets_in. rewrite segments_of_app. simpl. by rewrite app_nil_r.
  - unfold flush_expired.
    destruct (flush_emits _ _ (flush_if_expired_flushes (now 0)) (di_buffers d ingested Hinv))
      as (o' & subs & -> & Hem & _). simpl.
    destruct (submit_emitted d ingested o' subs [] now_ms
      (match subs with [] => stats d | _ => add_timer_flushes (N.of_nat (length subs)) (stats d) end)
      Hinv Hem) as (ch' & s' & a' & -> & Hinv' & _); [set_solver|by destruct subs|].
    eexists. split; [done|]. eauto.
  - eexists. split; [done|]. by rewrite app_nil_r.
Qed.

(** A wake-up the channel can produce in this state. *)
Definition wake_possible (d : Driver) (w : Wake) : Prop :=
  match w with TimedOut => is_Some (obs_deadline (logs d)) | _ => True end.

Lemma iteration_spec fault_after w now now_ms d ingested :
  driver_inv d ingested -> wake_possible d w ->
  (forall u, u ∈ (wake_records w).*2 -> u ∉ ingested.*2) ->
  exists f, iteration fault_after w now now_ms d = Some f /\
    match f with
    | Continue d' => driver_inv d' (ingested ++ wake_records w) /\
        ledger d' = wake_ledger now_ms (ledger d) w
    | Break d' => driver_inv d' ingested /\ alive d' = alive d /\ ledger d' = ledger d
    end.
Proof.
  intros Hinv Hw Hfresh. unfold iteration.
  set (d1 := {| logs := _ |}). set (d2 := set_logs d1 _ _ _ _).
  assert (driver_inv d1 ingested) as Hinv1 by (by eapply driver_inv_set_logs).
  assert (driver_inv d2 ingested) as Hinv2 by (by eapply driver_inv_set_logs).
  assert (exists f, next_event (obs_deadline (logs d2)) w ≫= handle_event now now_ms d2 = Some f /\
    match f with
    | Continue d' => driver_inv d' (ingested ++ wake_records w) /\
        ledger d' = wake_ledger now_ms (ledger d) w
    | Break d' => driver_inv d' ingested /\ alive d' = alive d /\ ledger d' = ledger d
    end) as Hnext.
  { assert (exists e, next_event (obs_deadline (logs d2)) w = Some e /\ event_records e = wake_records w /\
      event_ledger now_ms (ledger d2) e = wake_ledger now_ms (ledger d) w) as (e & -> & He & Hl).
    { destruct w as [[chunk|]| |]; simpl in *; [by eexists (Message (Logs chunk))
        |by eexists (Message IngestFlush)| |by eexists Disconnected].
      destruct Hw as [x Hx]. rewrite Hx. by eexists Timer. }
    simpl. rewrite <- He in Hfresh |- *.
    destruct (handle_event_spec now now_ms d2 ingested e Hinv2 Hfresh) as (f & -> & Hf & Hled & Hcase).
    exists f. split; [done|]. rewrite <- Hl.
    destruct e; [destruct Hcase as [d' ->]; done..|subst f]. done. }
  destruct fault_after as [limit|]; [|done]. destruct (limit <=? _)%N; [|done].
  eexists. split; [done|]. done.
Qed.

(** ** Histories of the thread *)

Section history.
Context (c : InsertBatcherConfig) (accepts : option nat) (l0 : L) (fault_after : option N) (start_ms : N).

(** The driver after some iterations of the loop, with everything it has
    ingested.  The ledger gives every chunk a ticket of its own; other threads
    may update the ledger between iterations. *)
Inductive reached : Driver -> list (LogRecord * N) -> Prop :=
| reached_start : reached (start c accepts l0 start_ms) []
| reached_step d ingested w now now_ms d' :
    reached d ingested -> alive d = true ->
    (forall u, u ∈ (wake_records w).*2 -> u ∉ ingested.*2) ->
    iteration fault_after w now now_ms d = Some (Continue d') ->
    reached d' (ingested ++ wake_records w)
| reached_ledger d ingested l :
    reached d ingested ->
    reached {| logs := logs d; stats := stats d; channel := channel d; ledger := l;
               alive := alive d; events_processed := events_processed d |} ingested.

Lemma start_inv : max_batch_records c ≠ 0 -> driver_inv (start c accepts l0 start_ms) [].
Proof.
  intros Hm. split; simpl; try done; [by left|constructor|].
  intros u. unfold tickets_in. simpl. set_solver.
Qed.

Lemma iteration_wake_possible w now now_ms d d' :
  iteration fault_after w now now_ms d = Some (Continue d') -> wake_possible d w.
Proof.
  unfold iteration, wake_possible. destruct w; [done| |done]. simpl.
  destruct (obs_deadline (logs d)) eqn:Hd; [done|]. destruct fault_after; [destruct (_ <=? _)%N|];
    simpl; rewrite ?Hd; done.
Qed.

Lemma reached_inv d ingested : max_batch_records c ≠ 0 -> reached d ingested -> driver_inv d ingested.
Proof.
  intros Hm. induction 1 as [|d ingested w now now_ms d' _ IH Ha Hf Hit|d ingested l _ IH].
  - by apply start_inv.
  - destruct (iteration_spec fault_after w now now_ms d ingested IH) as (f & Heq & Hf');
      [by eapply iteration_wake_possible|done|]. rewrite Hit in Heq. simplify_eq. by destruct Hf'.
  - by apply driver_inv_frame.
Qed.

End history.

Lemma length_records_of cs :
  Forall command_ok cs -> length (records_of cs) = sum_with WriteCommand_record_count cs.
Proof.
  induction 1 as [|cmd cs Hc _ IH]; [done|]. unfold records_of in *. rewrite fmap_cons. cbn [concat].
  rewrite length_app, IH. simpl. f_equal. destruct cmd; simpl in *; try done.
  destruct Hc as (Hl & _). unfold WriteBatch_len in *. rewrite length_zip_with. lia.
Qed.

Lemma length_attributed_all (o : OriginBuffers LogRecord) :
  buffers_inv o -> length (attributed_all o) = obs_buffered o.
Proof.
  intros [_ Hall _]. unfold attributed_all, obs_buffered. induction Hall as [|p l [_ _ Hs _] _ IH]; [done|].
  rewrite fmap_cons. cbn [concat]. rewrite length_app, IH. simpl. f_equal.
  unfold attributed_buffer, buffered. rewrite length_zip_with. lia.
Qed.

Lemma finish_spec now_ms d ingested :
  driver_inv d ingested ->
  exists d', finish now_ms d = Some d' /\
    ch_sender_dropped (channel d') = true /\ running (stats d') = false /\
    if alive d' then
      records_of (ch_queue (channel d')) ≡ₚ ingested /\ ledger d' = ledger d /\
      buffers (logs d') = [] /\ dropped_records (stats d') = 0%N
    else
      ledger d' = led_close (ledger d) /\
      dropped_records (stats d') =
        (N.of_nat (length ingested - length (records_of (ch_queue (channel d')))) mod 2 ^ 64)%N /\
      exists lost, records_of (ch_queue (channel d')) ++ lost ≡ₚ ingested.
Proof.
  intros Hinv. unfold finish.
  assert (exists d1, (if alive d then flush_buffers now_ms d else Some d) = Some d1 /\
    driver_inv d1 ingested /\ ledger d1 = ledger d /\ (alive d1 = true -> buffers (logs d1) = []))
    as (d1 & -> & Hinv1 & Hl & Hbuf).
  { destruct (alive d) eqn:Ha; [|by exists d; rewrite Ha].
    destruct (flush_buffers_spec now_ms d ingested Hinv) as (d1 & ? & ? & ? & ? & _). eauto 10. }
  simpl. destruct Hinv1 as [Hb Hch Hr Hcmd Hcnt Hal _ _ _].
  eexists. split; [done|]. split; [done|]. split; [done|]. simpl.
  unfold emitted in *. destruct (alive d1) eqn:Ha; rewrite ?Ha.
  - rewrite Hal in *. specialize (Hbuf eq_refl). rewrite app_nil_r in Hr. split_and!; try done.
    + unfold attributed_all in Hr. rewrite Hbuf in Hr. simpl in Hr. by rewrite app_nil_r in Hr.
    + rewrite Hcnt. unfold returned_count. by rewrite Hal.
  - simpl. rewrite Hl. split; [done|]. split.
    + rewrite <- Hr, records_of_app, !length_app, (length_attributed_all _ Hb).
      apply Forall_app in Hcmd as [_ Hret]. rewrite (length_records_of _ Hret).
      unfold counted, returned_count in Hcnt. rewrite N.add_0_r in Hcnt.
      set (x := sum_with _ _) in *. set (y := obs_buffered _).
      replace (_ - _) with (x + y) by lia. rewrite Nat2N.inj_add.
      destruct (0 <? N.of_nat y)%N eqn:Hy; bool_to_prop; simpl; rewrite Hcnt.
      * unfold wrap_add. by rewrite N.Div0.add_mod_idemp_l.
      * f_equal. lia.
    + rewrite records_of_app, <- app_assoc in Hr. eauto.
Qed.

End driver.

Arguments Driver : clear implicits.
Arguments Flow : clear implicits.


(** ** Claims *)

(** C13: the batcher thread never panics and loses no record silently: after
    any iterations (and any wake-up the channel can deliver next), the records
    handed to the writer's queue, those of failed sends and those still
    buffered are together exactly the ingested ones with their tickets; while
    the writer is alive no send has failed, and the dropped-records counter is
    the number of records of the failed sends. *)
Theorem driver_conserves_records {L} `{!Ledger L} c accepts (l : L) fault_after start_ms d ingested :
  max_batch_records c ≠ 0 -> reached c accepts l fault_after start_ms d ingested ->
  records_of (ch_queue (channel d)) ++ records_of (ch_returned (channel d)) ++ attributed_all (logs d)
    ≡ₚ ingested /\
  (alive d = true -> ch_returned (channel d) = []) /\
  dropped_records (stats d) = (returned_count (channel d) mod 2 ^ 64)%N /\
  forall w now now_ms, wake_possible d w -> (forall u, u ∈ (wake_records w).*2 -> u ∉ ingested.*2) ->
    is_Some (iteration fault_after w now now_ms d).
Proof.
  intros Hm Hr. pose proof (reached_inv _ _ _ _ _ _ _ Hm Hr) as Hinv.
  pose proof Hinv as [_ _ Hrec _ Hcnt Hal _ _ _].
  split; [by rewrite app_assoc, <- records_of_app|]. split; [by intros Ha; rewrite Ha in Hal|].
  split; [by unfold counted in Hcnt; rewrite N.add_0_r in Hcnt|].
  intros w now now_ms Hw Hf.
  destruct (iteration_spec fault_after w now now_ms d ingested Hinv Hw Hf) as (f & -> & _). done.
Qed.

Definition sample_record (t : Z) : LogRecord :=
  {| time_unix_nano := t; observed_time_unix_nano := 0; severity_number := InfoLevel;
     severity_text := ""; trace_id := zero_bytes 16; span_id := zero_bytes 8; body := "x";
     body_json := None; attributes := []; dropped_attributes_count := 0; flags := 0;
     event_name := ""; scope := LogScope_default |}.

Definition sample_chunk (url : string) (times : list Z) (ticket : N) : LogChunk :=
  {| chunk_origin := {| origin_resource := None; origin_schema_url := url |};
     chunk_records := map sample_record times; chunk_commit_seq := ticket |}.

(** Two chunks of one origin: the first stays buffered, the second completes a
    batch of four. *)
Lemma driver_conserves_records_witness :
  exists d, reached small_config None (CommitLedger.new 0) None 0
      d (([] ++ with_ticket 1 (map sample_record [1; 2]%Z)) ++ with_ticket 2 (map sample_record [3; 4; 5]%Z)) /\
    map WriteCommand_record_count (ch_queue (channel d)) = [4] /\
    records_of (ch_queue (channel d)) ++ records_of (ch_returned (channel d)) ++ attributed_all (logs d)
      ≡ₚ ([] ++ with_ticket 1 (map sample_record [1; 2]%Z)) ++ with_ticket 2 (map sample_record [3; 4; 5]%Z).
Proof.
  set (d0 := start small_config None (CommitLedger.new 0) 0).
  destruct (iteration None (Received (Logs (sample_chunk "a" [1; 2]%Z 1))) (fun _ => 0%N) 0 d0)
    as [[d1|]|] eqn:H1; [|by vm_compute in H1..].
  destruct (iteration None (Received (Logs (sample_chunk "a" [3; 4; 5]%Z 2))) (fun _ => 0%N) 0 d1)
    as [[d2|]|] eqn:H2; [|by vm_compute in H1; simplify_eq; vm_compute in H2..].
  assert (reached small_config None (CommitLedger.new 0) None 0 d2
    (([] ++ with_ticket 1 (map sample_record [1; 2]%Z)) ++ with_ticket 2 (map sample_record [3; 4; 5]%Z)))
    as Hr.
  { eapply (reached_step _ _ _ _ _ d1 _ (Received (Logs (sample_chunk "a" [3; 4; 5]%Z 2)))); [| | |exact H2].
    - eapply (reached_step _ _ _ _ _ d0 _ (Received (Logs (sample_chunk "a" [1; 2]%Z 1)))); [| | |exact H1];
        [constructor|done|set_solver].
    - vm_compute in H1. by simplify_eq.
    - simpl. set_solver by lia. }
  exists d2. split; [done|]. split.
  - vm_compute in H1. simplify_eq. vm_compute in H2. by simplify_eq.
  - exact (proj1 (driver_conserves_records small_config None (CommitLedger.new 0) None 0 d2 _ ltac:(done) Hr)).
Defined.

(** At every point of the thread's life, in the order of emission a
    segment is marked complete exactly when no later segment and no buffered
    record carries its ticket: completion of a ticket is signalled once, with
    its last record. *)
Theorem driver_completes_tickets_once {L} `{!Ledger L} c accepts (l : L) fault_after start_ms d ingested :
  max_batch_records c ≠ 0 -> reached c accepts l fault_after start_ms d ingested ->
  complete_ok (segments_of (ch_queue (channel d) ++ ch_returned (channel d))) (buffered_tickets (logs d)) /\
  (forall u, u ∈ ingested.*2 <->
    u ∈ tickets_in (ch_queue (channel d) ++ ch_returned (channel d)) \/ u ∈ buffered_tickets (logs d)) /\
  Forall command_ok (ch_queue (channel d) ++ ch_returned (channel d)).
Proof.
  intros Hm Hr. destruct (reached_inv _ _ _ _ _ _ _ Hm Hr) as [_ _ _ Hcmd _ _ _ Hco Htk].
  split; [done|]. split; [|done]. intros u. symmetry. apply Htk.
Qed.

Lemma driver_completes_tickets_once_witness :
  exists d, reached small_config None (CommitLedger.new 0) None 0
      d ([] ++ with_ticket 1 (map sample_record [1; 2; 3; 4; 5]%Z)) /\
    segments_of (ch_queue (channel d)) = [mk_segment 1 4 false] /\
    complete_ok (segments_of (ch_queue (channel d) ++ ch_returned (channel d))) (buffered_tickets (logs d)).
Proof.
  set (d0 := start small_config None (CommitLedger.new 0) 0).
  destruct (iteration None (Received (Logs (sample_chunk "a" [1; 2; 3; 4; 5]%Z 1))) (fun _ => 0%N) 0 d0)
    as [[d1|]|] eqn:H1; [|by vm_compute in H1..].
  assert (reached small_config None (CommitLedger.new 0) None 0 d1
    ([] ++ with_ticket 1 (map sample_record [1; 2; 3; 4; 5]%Z))) as Hr.
  { eapply (reached_step _ _ _ _ _ d0 _ (Received (Logs (sample_chunk "a" [1; 2; 3; 4; 5]%Z 1)))); [| | |exact H1];
      [constructor|done|set_solver]. }
  exists d1. split; [done|]. split; [vm_compute in H1; by simplify_eq|].
  exact (proj1 (driver_completes_tickets_once small_config None (CommitLedger.new 0) None 0 d1 _ ltac:(done) Hr)).
Defined.

(** However the loop ended, the exit path accounts for every record: with
    the writer alive, everything ingested is in its queue, nothing was dropped
    and the ledger is left to the writer; otherwise the ledger is closed and
    the dropped-records counter is the number of ingested records that never
    reached the queue. *)
Theorem driver_exit_accounts {L} `{!Ledger L} c accepts (l : L) fault_after start_ms d ingested now_ms :
  max_batch_records c ≠ 0 -> reached c accepts l fault_after start_ms d ingested ->
  exists d', finish now_ms d = Some d' /\
    ch_sender_dropped (channel d') = true /\ running (stats d') = false /\
    if alive d' then
      records_of (ch_queue (channel d')) ≡ₚ ingested /\ ledger d' = ledger d /\
      buffers (logs d') = [] /\ dropped_records (stats d') = 0%N
    else
      ledger d' = led_close (ledger d) /\
      dropped_records (stats d') =
        (N.of_nat (length ingested - length (records_of (ch_queue (channel d')))) mod 2 ^ 64)%N /\
      exists lost, records_of (ch_queue (channel d')) ++ lost ≡ₚ ingested.
Proof. intros Hm Hr. apply finish_spec. by eapply reached_inv. Qed.

(** The writer is gone when the full batch of four is sent: all five ingested
    records are counted as dropped. *)
Lemma driver_exit_accounts_witness :
  exists d d', reached small_config (Some 0) (CommitLedger.new 0) None 0
      d ([] ++ with_ticket 1 (map sample_record [1; 2; 3; 4; 5]%Z)) /\
    finish 0 d = Some d' /\ alive d' = false /\ dropped_records (stats d') = 5%N /\
    CommitLedger.wm_closed (CommitLedger.watermark (ledger d')) = true.
Proof.
  set (d0 := start small_config (Some 0) (CommitLedger.new 0) 0).
  destruct (iteration None (Received (Logs (sample_chunk "a" [1; 2; 3; 4; 5]%Z 1))) (fun _ => 0%N) 0 d0)
    as [[d1|]|] eqn:H1; [|by vm_compute in H1..].
  assert (reached small_config (Some 0) (CommitLedger.new 0) None 0 d1
    ([] ++ with_ticket 1 (map sample_record [1; 2; 3; 4; 5]%Z))) as Hr.
  { eapply (reached_step _ _ _ _ _ d0 _ (Received (Logs (sample_chunk "a" [1; 2; 3; 4; 5]%Z 1)))); [| | |exact H1];
      [constructor|done|set_solver]. }
  destruct (driver_exit_accounts small_config (Some 0) (CommitLedger.new 0) None 0 d1 _ 0 ltac:(done) Hr)
    as (d' & Hf & _). exists d1, d'. split; [done|]. split; [done|].
  vm_compute in H1. simplify_eq. vm_compute in Hf. simplify_eq. done.
Defined.

(** The [Flush] barrier keeps its order promise: when the iteration that
    receives it leaves the driver alive, nothing stays buffered, and the queue
    grew by the partial batches followed by the barrier, so that every record
    ingested before it precedes it. *)
Theorem flush_barrier_ordered {L} `{!Ledger L} c accepts (l : L) fault_after start_ms d ingested now now_ms d' :
  max_batch_records c ≠ 0 -> reached c accepts l fault_after start_ms d ingested -> alive d = true ->
  iteration fault_after (Received IngestFlush) now now_ms d = Some (Continue d') -> alive d' = true ->
  buffers (logs d') = [] /\
  exists subs, ch_queue (channel d') = ch_queue (channel d) ++ (insert_of <$> subs) ++ [Flush] /\
    records_of (ch_queue (channel d) ++ (insert_of <$> subs)) ≡ₚ ingested.
Proof.
  intros Hm Hr Had Hit Ha. pose proof (reached_inv _ _ _ _ _ _ _ Hm Hr) as Hinv.
  assert (ch_returned (channel d) = []) as Hrr by (destruct Hinv as [_ _ _ _ _ Hal _ _ _]; by rewrite Had in Hal).
  revert Hit. unfold iteration. set (d1 := {| logs := _ |}). set (d2 := set_logs d1 _ _ _ _).
  assert (driver_inv d2 ingested) as Hinv2 by (by eapply driver_inv_set_logs).
  intros Hit. assert (handle_event now now_ms d2 (Message IngestFlush) = Some (Continue d')) as Hh.
  { destruct fault_after; [destruct (_ <=? _)%N|]; done. }
  clear Hit. simpl in Hh.
  destruct (flush_buffers_spec now_ms d2 ingested Hinv2) as (d3 & Hfb & Hinv3 & Hb & _ & subs & Hem).
  rewrite Hfb in Hh. simpl in Hh. destruct (alive d3) eqn:Ha3; [|simplify_eq; congruence].
  destruct (submit_spec (channel d3) Flush (stats d3) (di_channel _ _ Hinv3) (di_counted _ _ Hinv3))
    as (ch & s & a & Hsub & _ & Hem' & _ & Ht & _).
  rewrite Hsub in Hh. simplify_eq. simpl in *. subst a. split; [done|]. exists subs.
  pose proof Hinv3 as [_ _ Hr3 _ _ Hal3 _ _ _]. rewrite Ha3 in Hal3.
  specialize (Ht eq_refl). rewrite Hal3 in Ht.
  unfold emitted in *. rewrite Ht, Hal3, !app_nil_r in *.
  simpl in Hem. rewrite Hrr, app_nil_r in Hem. rewrite Hem', Hem. split; [by rewrite <- app_assoc|].
  rewrite <- Hem. unfold attributed_all in Hr3. rewrite Hb in Hr3. simpl in Hr3. by rewrite app_nil_r in Hr3.
Qed.

Lemma flush_barrier_ordered_witness :
  exists d d', reached small_config None (CommitLedger.new 0) None 0
      d ([] ++ with_ticket 1 (map sample_record [1; 2]%Z)) /\
    iteration None (Received IngestFlush) (fun _ => 0%N) 0 d = Some (Continue d') /\
    map kind (ch_queue (channel d')) = ["insert_logs"; "flush"] /\ buffers (logs d') = [].
Proof.
  set (d0 := start small_config None (CommitLedger.new 0) 0).
  destruct (iteration None (Received (Logs (sample_chunk "a" [1; 2]%Z 1))) (fun _ => 0%N) 0 d0)
    as [[d1|]|] eqn:H1; [|by vm_compute in H1..].
  destruct (iteration None (Received IngestFlush) (fun _ => 0%N) 0 d1)
    as [[d2|]|] eqn:H2; [|by vm_compute in H1; simplify_eq; vm_compute in H2..].
  assert (reached small_config None (CommitLedger.new 0) None 0 d1
    ([] ++ with_ticket 1 (map sample_record [1; 2]%Z))) as Hr.
  { eapply (reached_step _ _ _ _ _ d0 _ (Received (Logs (sample_chunk "a" [1; 2]%Z 1)))); [| | |exact H1];
      [constructor|done|set_solver]. }
  exists d1, d2. split; [done|]. split; [done|].
  assert (alive d1 = true) as Ha1 by (vm_compute in H1; by simplify_eq).
  assert (map kind (ch_queue (channel d2)) = ["insert_logs"; "flush"] /\ alive d2 = true) as [Hk Ha2].
  { vm_compute in H1. simplify_eq. vm_compute in H2. by simplify_eq. }
  split; [done|].
  exact (proj1 (flush_barrier_ordered small_config None (CommitLedger.new 0) None 0 d1 _ _ 0 d2
    ltac:(done) Hr Ha1 H2 Ha2)).
Defined.

End BatcherDriver.
