(* ===== verification/Sqlite.v ===== *)
(** * Storage errors and the SQLite interface
    ([crates/otel-sqlite-storage/src/error.rs])

    SQLite and [rusqlite] are not part of the repository.  [SqliteConn] lists
    the statements the storage crate runs on a connection and two observations
    of it: the database as committed, and as seen inside the open transaction.
    [SqliteLaws] states what the code relies on: transactions are atomic, a
    failed statement leaves no trace, a [DELETE .. LIMIT] removes that many
    matching rows.  [MemDb] is a concrete connection that satisfies them, with a
    script of injected failures. *)

From S2P Require Import Prelude Time Model Command.

Module Sqlite.
Import Time Model Command.

Local Open Scope list_scope.

(** ** Errors *)

(** The primary result codes the code distinguishes. *)
Inductive ErrorCode :=
| DatabaseBusy
| DatabaseLocked
| ConstraintViolation
| NotADatabase
| OtherCode (code : N).

(** [rusqlite::Error]. *)
Inductive SqliteError :=
| SqliteFailure (code : ErrorCode)
| ToSqlConversionFailure
| OtherSqlite.

Inductive FailureClass := Retryable | Poison | FatalClass.

#[export] Instance FailureClass_eq_dec : EqDecision FailureClass.
Proof. solve_decision. Defined.

Definition classify_sqlite (error : SqliteError) : FailureClass :=
  match error with
  | SqliteFailure DatabaseBusy | SqliteFailure DatabaseLocked => Retryable
  | SqliteFailure ConstraintViolation => Poison
  | SqliteFailure _ => FatalClass
  | ToSqlConversionFailure => Poison
  | OtherSqlite => FatalClass
  end.

Inductive StorageError :=
| SqliteErr (error : SqliteError)
| IoErr
| WriterPanicked
| BatcherPanicked
| FaultInjected (component : string)
| StartupTimeout (timeout_secs : N)
| StartupFailed (message : string)
| ShutdownTimeout (timeout_secs : N).

Definition is_not_a_database (e : StorageError) : bool :=
  match e with SqliteErr (SqliteFailure NotADatabase) => true | _ => false end.

Definition class (e : StorageError) : FailureClass :=
  match e with
  | SqliteErr error => classify_sqlite error
  | _ => FatalClass
  end.

(** ** Rows *)

(** The columns of [log_event]. *)
Record EventRow := {
  ev_resource_id : string;
  ev_timestamp_ns : Z;
  ev_observed_timestamp_ns : Z;
  ev_severity_number : Z;
  ev_severity_text : option string;
  ev_trace_id : option (list byte);
  ev_span_id : option (list byte);
  ev_body : option string;
  ev_event_name : option string;
  ev_flags : N;
  ev_dropped_attributes_count : N;
  ev_scope_name : option string;
  ev_scope_version : option string;
  ev_scope_attributes_json : string;
  ev_scope_schema_url : option string;
  ev_attributes_json : string;
}.

(** The columns of [log_resource]. *)
Record ResourceRow := {
  rs_id : string;
  rs_service_name : string;
  rs_host_name : option string;
  rs_schema_url : option string;
  rs_attributes_json : string;
}.

Record Db := { events : list EventRow; resources : list ResourceRow }.

(** [INSERT .. ON CONFLICT (id) DO NOTHING]. *)
Definition upsert_resource (db : Db) (row : ResourceRow) : Db :=
  if existsb (fun r => String.eqb (rs_id r) (rs_id row)) (resources db) then db
  else {| events := events db; resources := resources db ++ [row] |}.

Definition add_event (db : Db) (row : EventRow) : Db :=
  {| events := events db ++ [row]; resources := resources db |}.

(** Resource rows that still have an event. *)
Definition referenced (evs : list EventRow) (r : ResourceRow) : bool :=
  existsb (fun e => String.eqb (ev_resource_id e) (rs_id r)) evs.

(** ** The connection *)

Class SqliteConn (Conn : Type) := {
  durable : Conn -> Db;
  view : Conn -> Db;
  conn_begin : Conn -> Conn * result SqliteError unit;
  conn_insert_resource : Conn -> ResourceRow -> Conn * result SqliteError unit;
  conn_insert_event : Conn -> EventRow -> Conn * result SqliteError unit;
  (** [DELETE .. WHERE id IN (SELECT id .. WHERE timestamp_ns < cutoff LIMIT n)]. *)
  conn_delete_expired : Conn -> Z -> nat -> Conn * result SqliteError nat;
  (** [DELETE .. WHERE id IN (SELECT id .. ORDER BY timestamp_ns LIMIT n)]. *)
  conn_delete_oldest : Conn -> nat -> Conn * result SqliteError nat;
  conn_delete_orphans : Conn -> Conn * result SqliteError nat;
  conn_commit : Conn -> Conn * result SqliteError unit;
  (** An explicit [rollback], or the drop of an open transaction. *)
  conn_rollback : Conn -> Conn;
  (** [PRAGMA wal_checkpoint(..)], [ANALYZE], vacuums, index rebuild. *)
  conn_checkpoint : Conn -> CheckpointMode -> Conn * result SqliteError unit;
  conn_analyze : Conn -> Conn * result SqliteError unit;
  conn_auto_vacuum : Conn -> Z;
  conn_convert_vacuum : Conn -> Conn * result SqliteError unit;
  conn_incremental_vacuum : Conn -> Conn * result SqliteError unit;
  conn_rebuild_fts : Conn -> Conn * result SqliteError nat;
  (** Sizes of the main database file and of its sidecars. *)
  conn_file_size : Conn -> N;
  conn_sidecar_size : Conn -> N;
}.

(** Statements that change no table row. *)
Definition preserves {Conn} `{!SqliteConn Conn} (c c' : Conn) : Prop :=
  durable c' = durable c.

Class SqliteLaws (Conn : Type) `{!SqliteConn Conn} := {
  begin_durable c : durable (conn_begin c).1 = durable c;
  begin_view c : is_ok (conn_begin c).2 = true -> view (conn_begin c).1 = durable c;
  insert_resource_durable c r : durable (conn_insert_resource c r).1 = durable c;
  insert_resource_view c r :
    view (conn_insert_resource c r).1 =
    (if is_ok (conn_insert_resource c r).2 then upsert_resource (view c) r else view c);
  insert_event_durable c e : durable (conn_insert_event c e).1 = durable c;
  insert_event_view c e :
    view (conn_insert_event c e).1 =
    (if is_ok (conn_insert_event c e).2 then add_event (view c) e else view c);
  delete_expired_durable c cutoff n : durable (conn_delete_expired c cutoff n).1 = durable c;
  delete_expired_view c cutoff n k :
    (conn_delete_expired c cutoff n).2 = Ok k ->
    exists gone, events (view c) ≡ₚ gone ++ events (view (conn_delete_expired c cutoff n).1) /\
      length gone = k /\ k <= n /\ Forall (fun e => (ev_timestamp_ns e < cutoff)%Z) gone /\
      (k < n -> Forall (fun e => (cutoff <= ev_timestamp_ns e)%Z)
        (events (view (conn_delete_expired c cutoff n).1))) /\
      resources (view (conn_delete_expired c cutoff n).1) = resources (view c);
  delete_oldest_durable c n : durable (conn_delete_oldest c n).1 = durable c;
  delete_oldest_view c n k :
    (conn_delete_oldest c n).2 = Ok k ->
    exists gone, events (view c) ≡ₚ gone ++ events (view (conn_delete_oldest c n).1) /\
      length gone = k /\ k = Nat.min n (length (events (view c))) /\
      (forall e e', e ∈ gone -> e' ∈ events (view (conn_delete_oldest c n).1) ->
        (ev_timestamp_ns e <= ev_timestamp_ns e')%Z) /\
      resources (view (conn_delete_oldest c n).1) = resources (view c);
  delete_orphans_durable c : durable (conn_delete_orphans c).1 = durable c;
  delete_orphans_view c k :
    (conn_delete_orphans c).2 = Ok k ->
    events (view (conn_delete_orphans c).1) = events (view c) /\
    resources (view (conn_delete_orphans c).1) =
      filter (fun r => referenced (events (view c)) r = true) (resources (view c));
  commit_durable c :
    durable (conn_commit c).1 = (if is_ok (conn_commit c).2 then view c else durable c);
  rollback_durable c : durable (conn_rollback c) = durable c;
  checkpoint_durable c m : durable (conn_checkpoint c m).1 = durable c;
  analyze_durable c : durable (conn_analyze c).1 = durable c;
  convert_vacuum_durable c : durable (conn_convert_vacuum c).1 = durable c;
  incremental_vacuum_durable c : durable (conn_incremental_vacuum c).1 = durable c;
  rebuild_fts_durable c : durable (conn_rebuild_fts c).1 = durable c;
}.

(** ** A concrete connection *)

Record MemDb := {
  mem_durable : Db;
  mem_view : Db;
  (** Failures of the next statements that can fail, in order; [None] is a
      statement that succeeds, and so is everything after the script. *)
  mem_script : list (option SqliteError);
}.

Definition MemDb_new (script : list (option SqliteError)) : MemDb :=
  let db := {| events := []; resources := [] |} in
  {| mem_durable := db; mem_view := db; mem_script := script |}.

(** Run a statement: consume one entry of the script. *)
Definition scripted {A} (c : MemDb) (ok : MemDb -> MemDb * A) : MemDb * result SqliteError A :=
  let rest := {| mem_durable := mem_durable c; mem_view := mem_view c;
                 mem_script := tail (mem_script c) |} in
  match mem_script c with
  | Some e :: _ => (rest, Err e)
  | _ => let (c', a) := ok rest in (c', Ok a)
  end.

Definition with_view (c : MemDb) (v : Db) : MemDb :=
  {| mem_durable := mem_durable c; mem_view := v; mem_script := mem_script c |}.

Definition expired_at (cutoff : Z) (e : EventRow) : Prop := (ev_timestamp_ns e < cutoff)%Z.

#[export] Instance expired_at_dec cutoff e : Decision (expired_at cutoff e).
Proof. unfold expired_at. apply _. Defined.

(** Remove the first [n] elements satisfying [P]. *)
Fixpoint remove_n {A} (P : A -> Prop) `{!forall x, Decision (P x)} (n : nat) (l : list A)
    : list A * list A :=
  match l with
  | [] => ([], [])
  | x :: l' =>
      match n with
      | O => ([], l)
      | S n' =>
          if decide (P x) then
            let (gone, kept) := remove_n P n' l' in (x :: gone, kept)
          else let (gone, kept) := remove_n P n l' in (gone, x :: kept)
      end
  end.

Definition event_le (a b : EventRow) : Prop := (ev_timestamp_ns a <= ev_timestamp_ns b)%Z.

#[export] Instance event_le_dec : RelDecision event_le.
Proof. unfold event_le. intros a b. apply _. Defined.
#[export] Instance event_le_total : Total event_le.
Proof. intros a b. unfold event_le. lia. Qed.
#[export] Instance event_le_trans : Transitive event_le.
Proof. intros a b c. unfold event_le. lia. Qed.

#[export] Instance MemDb_conn : SqliteConn MemDb := {
  durable := mem_durable;
  view := mem_view;
  conn_begin c := scripted c (fun c => (with_view c (mem_durable c), tt));
  conn_insert_resource c r := scripted c (fun c => (with_view c (upsert_resource (mem_view c) r), tt));
  conn_insert_event c e := scripted c (fun c => (with_view c (add_event (mem_view c) e), tt));
  conn_delete_expired c cutoff n :=
    scripted c (fun c =>
      let (gone, kept) := remove_n (expired_at cutoff) n (events (mem_view c)) in
      (with_view c {| events := kept; resources := resources (mem_view c) |}, length gone));
  conn_delete_oldest c n :=
    scripted c (fun c =>
      let sorted := merge_sort event_le (events (mem_view c)) in
      (with_view c {| events := drop n sorted; resources := resources (mem_view c) |},
       length (take n sorted)));
  conn_delete_orphans c :=
    scripted c (fun c =>
      let kept := filter (fun r => referenced (events (mem_view c)) r = true) (resources (mem_view c)) in
      (with_view c {| events := events (mem_view c); resources := kept |},
       length (resources (mem_view c)) - length kept));
  conn_commit c :=
    scripted c (fun c => ({| mem_durable := mem_view c; mem_view := mem_view c;
                             mem_script := mem_script c |}, tt));
  conn_rollback c := with_view c (mem_durable c);
  conn_checkpoint c _ := scripted c (fun c => (c, tt));
  conn_analyze c := scripted c (fun c => (c, tt));
  conn_auto_vacuum _ := 2%Z;
  conn_convert_vacuum c := scripted c (fun c => (c, tt));
  conn_incremental_vacuum c := scripted c (fun c => (c, tt));
  conn_rebuild_fts c := scripted c (fun c => (c, length (events (mem_view c))));
  conn_file_size c := (4096 * N.of_nat (length (events (mem_durable c))))%N;
  conn_sidecar_size _ := 0%N;
}.

Lemma remove_n_spec {A} (P : A -> Prop) `{!forall x, Decision (P x)} n l :
  l ≡ₚ (remove_n P n l).1 ++ (remove_n P n l).2 /\ length (remove_n P n l).1 <= n /\
  Forall P (remove_n P n l).1 /\
  (length (remove_n P n l).1 < n -> Forall (fun x => ~ P x) (remove_n P n l).2).
Proof.
  revert n. induction l as [|x l IH]; intros n; simpl; [split_and!; [done|lia|done|done]|].
  destruct n as [|n]; [simpl; split_and!; [done|lia|done|lia]|].
  destruct (decide (P x)) as [Hx|Hx].
  - destruct (IH n) as (H1 & H2 & H3 & H4). destruct (remove_n P n l) as [gone kept]. simpl in *.
    split_and!; [by rewrite H1|lia|by constructor|]. intros. apply H4. lia.
  - destruct (IH (S n)) as (H1 & H2 & H3 & H4). destruct (remove_n P (S n) l) as [gone kept]. simpl in *.
    split_and!; [|lia|done|].
    { trans (x :: gone ++ kept); [by constructor|apply Permutation_middle]. }
    intros. constructor; [done|]. by apply H4.
Qed.

Lemma StronglySorted_app_le {A} (R : A -> A -> Prop) l1 l2 :
  StronglySorted R (l1 ++ l2) -> forall x y, x ∈ l1 -> y ∈ l2 -> R x y.
Proof.
  induction l1 as [|z l1 IH]; simpl; intros Hs x y Hx Hy; [set_solver|].
  apply StronglySorted_cons in Hs as [Hh Hs]. apply elem_of_cons in Hx as [->|Hx]; [|eauto].
  rewrite Forall_forall in Hh. apply Hh. set_solver.
Qed.

#[export] Instance MemDb_laws : SqliteLaws MemDb.
Proof.
  split; simpl; unfold scripted; intros c; intros; try done;
    try (by destruct (mem_script c) as [|[]]; simpl in * ).
  - destruct (mem_script c) as [|[]]; simpl; try done; by destruct (remove_n _ _ _).
  - pose proof (remove_n_spec (expired_at cutoff) n (events (mem_view c))) as (H1 & H2 & H3 & H4).
    destruct (mem_script c) as [|[]]; simpl in *; try done;
      destruct (remove_n _ _ _) as [gone kept]; simpl in *; simplify_eq;
      exists gone; (split_and!; [done|done|done|done| |done]); intros Hlt%H4;
      (eapply Forall_impl; [exact Hlt|]); unfold expired_at; simpl; lia.
  - set (l := merge_sort event_le (events (mem_view c))) in *.
    assert (l ≡ₚ events (mem_view c)) as Hp by apply merge_sort_Permutation.
    assert (StronglySorted event_le l) as Hs by (apply StronglySorted_merge_sort; apply _).
    rewrite <- (take_drop n l) in Hs.
    destruct (mem_script c) as [|[]]; simpl in *; try done; simplify_eq; exists (take n l);
      (split_and!; [rewrite take_drop; by symmetry|done|rewrite length_take; f_equal; by apply Permutation_length| |done]);
      by eapply StronglySorted_app_le.
Qed.

End Sqlite.
