(* ===== verification/Rows.v ===== *)
(** * Row persistence ([crates/otel-sqlite-storage/src/command/*.rs])

    How a write batch becomes SQL statements: the resource row and its
    fingerprint, one insert per record, and the strict and tolerant passes.
    Two library functions are parameters: [json], the compact text
    [serde_json] prints for a document, and [sha256], the digest of the [sha2]
    crate. *)

From S2P Require Import Prelude Time Model Text Command OriginBuffers Sqlite.

Module Rows.
Import Time Model Command OriginBuffers Sqlite.

Local Open Scope list_scope.

(** ** Text in log lines *)

Definition LOG_PREVIEW_CHARS : nat := 200.

(** [char::is_control]: the code points of category Cc. *)
Definition is_control (c : N) : bool := ((c <=? 31) || ((127 <=? c) && (c <=? 159)))%N.

(** [sanitized_preview] on the code points of a string. *)
Definition sanitized_preview (value : list N) : list N :=
  (fun c => if is_control c then 65533%N else c) <$> take LOG_PREVIEW_CHARS value.

(** Attacker-controlled text neither floods a log line nor breaks out of it. *)
Lemma sanitized_preview_safe value :
  length (sanitized_preview value) <= LOG_PREVIEW_CHARS /\
  Forall (fun c => is_control c = false) (sanitized_preview value) /\
  (length value <= LOG_PREVIEW_CHARS -> Forall (fun c => is_control c = false) value -> sanitized_preview value = value).
Proof.
  unfold sanitized_preview. rewrite length_fmap, length_take. split_and!.
  - lia.
  - apply Forall_fmap, Forall_forall. intros c _. simpl. by destruct (is_control c) eqn:E.
  - intros Hl Hc. rewrite take_ge by done. rewrite <- (list_fmap_id value) at 2. apply list_fmap_ext.
    intros i c Hi. rewrite Forall_lookup in Hc. by rewrite (Hc i c Hi).
Qed.

(** [non_empty]: empty strings are stored as NULL. *)
Definition non_empty (value : string) : option string :=
  if Text.is_empty value then None else Some value.

(** [u64::to_le_bytes]. *)
Fixpoint le_bytes (n : nat) (value : N) : list byte :=
  match n with
  | O => []
  | S n' => ascii_of_N (value mod 256) :: le_bytes n' (value / 256)
  end.

(** The bytes fed to the hasher: each part prefixed by its length. *)
Fixpoint fingerprint_input (parts : list string) : list byte :=
  match parts with
  | [] => []
  | part :: rest =>
      let bytes := Text.bytes_of_string part in
      le_bytes 8 (N.of_nat (length bytes)) ++ bytes ++ fingerprint_input rest
  end.

Record SalvageOutcome := {
  so_kept : N;
  so_dropped : N;
  so_by_ticket : gmap N (N * N);
}.

Section rows.
Context (json : SerdeValue -> string) (sha256 : list byte -> list byte).

(** [fingerprint_into]: the hex digest. *)
Definition fingerprint (parts : list string) : string := hex_encode (sha256 (fingerprint_input parts)).

(** The row [resolve_resource] upserts; its id is the batch's resource id. *)
Definition resource_row (r : Resource) : ResourceRow :=
  let host := non_empty (host_name r) in
  let url := non_empty (resource_schema_url r) in
  let attributes_json := json (attributes_document (resource_attributes r)) in
  {| rs_id := fingerprint [service_name r; default ""%string host; default ""%string url; attributes_json];
     rs_service_name := service_name r;
     rs_host_name := host;
     rs_schema_url := url;
     rs_attributes_json := attributes_json |}.

(** The parameters bound for one record. *)
Definition event_row (resource_id : string) (r : LogRecord) : EventRow :=
  {| ev_resource_id := resource_id;
     ev_timestamp_ns := time_unix_nano r;
     ev_observed_timestamp_ns := observed_time_unix_nano r;
     ev_severity_number := Z.of_N (severity_as_u8 (severity_number r));
     ev_severity_text := non_empty (severity_text r);
     ev_trace_id := if has_trace r then Some (trace_id r) else None;
     ev_span_id := if has_span r then Some (span_id r) else None;
     ev_body := match body_json r with
                | Some document => Some (json document)
                | None => non_empty (body r)
                end;
     ev_event_name := non_empty (event_name r);
     ev_flags := flags r;
     ev_dropped_attributes_count := dropped_attributes_count r;
     ev_scope_name := non_empty (scope_name (scope r));
     ev_scope_version := non_empty (scope_version (scope r));
     ev_scope_attributes_json := json (scope_attributes_json (scope r));
     ev_scope_schema_url := non_empty (scope_schema_url (scope r));
     ev_attributes_json := json (attributes_document (attributes r)) |}.

(** The resource a batch is stored under. *)
Definition batch_resource (b : LogWriteBatch) : Resource :=
  match origin_resource (lwb_origin b) with
  | Some resource => resource
  | None => {| resource_id := ""; resource_attributes := [];
               resource_schema_url := origin_schema_url (lwb_origin b) |}
  end.

(** [segments.flat_map(repeat_n(commit_seq, records)).chain(repeat_n(0, len))]. *)
Definition record_tickets (b : LogWriteBatch) : list N :=
  expand_segments (lwb_segments b) ++ replicate (WriteBatch_len (lwb_records b)) 0%N.

Definition bump_kept (m : gmap N (N * N)) (ticket : N) : gmap N (N * N) :=
  let '(k, d) := default (0, 0)%N (m !! ticket) in <[ticket := (k + 1, d)%N]> m.
Definition bump_dropped (m : gmap N (N * N)) (ticket : N) : gmap N (N * N) :=
  let '(k, d) := default (0, 0)%N (m !! ticket) in <[ticket := (k, d + 1)%N]> m.

Section insert.
Context {Conn : Type} `{!SqliteConn Conn}.

(** The [for] loop over the records. *)
Fixpoint insert_rows (tolerant : bool) (resource_id : string) (c : Conn)
    (rows : list (LogRecord * N)) (acc : SalvageOutcome) : Conn * result StorageError SalvageOutcome :=
  match rows with
  | [] => (c, Ok acc)
  | (record, ticket) :: rest =>
      match conn_insert_event c (event_row resource_id record) with
      | (c', Ok _) =>
          insert_rows tolerant resource_id c' rest
            {| so_kept := so_kept acc + 1; so_dropped := so_dropped acc;
               so_by_ticket := if tolerant && negb (ticket =? 0)%N
                               then bump_kept (so_by_ticket acc) ticket else so_by_ticket acc |}
      | (c', Err error) =>
          if tolerant && bool_decide (classify_sqlite error = Poison) then
            insert_rows tolerant resource_id c' rest
              {| so_kept := so_kept acc; so_dropped := so_dropped acc + 1;
                 so_by_ticket := if negb (ticket =? 0)%N
                                 then bump_dropped (so_by_ticket acc) ticket else so_by_ticket acc |}
          else (c', Err (SqliteErr error))
      end
  end.

Definition resolve_resource (c : Conn) (r : Resource) : Conn * result StorageError string :=
  match conn_insert_resource c (resource_row r) with
  | (c', Ok _) => (c', Ok (rs_id (resource_row r)))
  | (c', Err e) => (c', Err (SqliteErr e))
  end.

Definition insert_logs_inner (c : Conn) (b : LogWriteBatch) (tolerant : bool)
    : Conn * result StorageError SalvageOutcome :=
  match resolve_resource c (batch_resource b) with
  | (c', Err e) => (c', Err e)
  | (c', Ok resource_id) =>
      insert_rows tolerant resource_id c' (zip (batch_records (lwb_records b)) (record_tickets b))
        {| so_kept := 0; so_dropped := 0; so_by_ticket := ∅ |}
  end.

Definition insert_logs (c : Conn) (b : LogWriteBatch) : Conn * result StorageError N :=
  match insert_logs_inner c b false with
  | (c', Ok outcome) => (c', Ok (so_kept outcome))
  | (c', Err e) => (c', Err e)
  end.

Definition insert_logs_tolerant (c : Conn) (b : LogWriteBatch) : Conn * result StorageError SalvageOutcome :=
  insert_logs_inner c b true.

End insert.
End rows.

(** ** The fingerprint input is unambiguous *)

Lemma length_le_bytes n v : length (le_bytes n v) = n.
Proof. revert v. induction n; simpl; [done|]. intros. by f_equal. Qed.

Lemma le_bytes_inj n v w :
  (v < 256 ^ N.of_nat n)%N -> (w < 256 ^ N.of_nat n)%N -> le_bytes n v = le_bytes n w -> v = w.
Proof.
  revert v w. induction n as [|n IH]; intros v w Hv Hw H; [simpl in *; lia|].
  rewrite Nat2N.inj_succ, N.pow_succ_r' in Hv, Hw. cbn [le_bytes] in H. injection H as Hhd Htl.
  apply (f_equal N_of_ascii) in Hhd. rewrite !N_ascii_embedding in Hhd by (apply N.mod_lt; lia).
  apply IH in Htl; [|apply N.Div0.div_lt_upper_bound; lia..].
  rewrite (N.div_mod v 256), (N.div_mod w 256), Hhd, Htl by lia. done.
Qed.

Lemma bytes_of_string_inj s1 s2 : Text.bytes_of_string s1 = Text.bytes_of_string s2 -> s1 = s2.
Proof.
  intros H. rewrite <- (String.string_of_list_ascii_of_string s1), <- (String.string_of_list_ascii_of_string s2).
  by f_equal.
Qed.

Definition short (s : string) : Prop := (N.of_nat (length (Text.bytes_of_string s)) < 2 ^ 64)%N.

(** Fields never run into each other. *)
Lemma fingerprint_input_injective parts1 parts2 :
  length parts1 = length parts2 -> Forall short parts1 -> Forall short parts2 ->
  fingerprint_input parts1 = fingerprint_input parts2 -> parts1 = parts2.
Proof.
  revert parts2. induction parts1 as [|p1 parts1 IH]; intros [|p2 parts2] Hl H1 H2 H; try done.
  apply Forall_cons in H1 as [Hs1 H1]. apply Forall_cons in H2 as [Hs2 H2].
  cbn [fingerprint_input] in H. apply app_inj_1 in H as [Hlen H]; [|by rewrite !length_le_bytes].
  apply le_bytes_inj in Hlen; [|done|done]. apply Nat2N.inj in Hlen.
  apply app_inj_1 in H as [Hp H]; [|done].
  f_equal; [by apply bytes_of_string_inj|]. apply IH; [by injection Hl|done..].
Qed.

Lemma hex_encode_inj l1 l2 : hex_encode l1 = hex_encode l2 -> l1 = l2.
Proof.
  assert (forall a b, (a < 16)%N -> (b < 16)%N -> hex_digit a = hex_digit b -> a = b) as Hdigit.
  { intros a b Ha Hb H. apply (f_equal (fun c => String.index 0 (String c EmptyString) "0123456789abcdef")) in H.
    assert (forall n, (n < 16)%N -> String.index 0 (String (hex_digit n) EmptyString) "0123456789abcdef"
      = Some (N.to_nat n)) as Hidx.
    { intros n Hn. rewrite <- (N2Nat.id n). assert (N.to_nat n < 16) as Hm by lia. revert Hm.
      generalize (N.to_nat n). intros m Hm. do 16 (destruct m as [|m]; [reflexivity|]). lia. }
    rewrite !Hidx in H by done. injection H as H. lia. }
  assert (forall b, (N.shiftr (N_of_ascii b) 4 < 16)%N /\ (N.land (N_of_ascii b) 15 < 16)%N /\
    N_of_ascii b = (16 * N.shiftr (N_of_ascii b) 4 + N.land (N_of_ascii b) 15)%N) as Hsplit.
  { intros b. destruct b as [[][][][][][][][]]; repeat split; reflexivity. }
  revert l2. induction l1 as [|b1 l1 IH]; intros [|b2 l2] H; try done. cbn [hex_encode] in H.
  injection H as Hhi Hlo H. destruct (Hsplit b1) as (? & ? & E1), (Hsplit b2) as (? & ? & E2).
  apply Hdigit in Hhi; [|done..]. apply Hdigit in Hlo; [|done..].
  f_equal; [|by apply IH]. rewrite <- (ascii_N_embedding b1), <- (ascii_N_embedding b2), E1, E2, Hhi, Hlo. done.
Qed.

Lemma default_non_empty s : default ""%string (non_empty s) = s.
Proof. unfold non_empty, Text.is_empty. by destruct s. Qed.

Section identity.
Context (json : SerdeValue -> string) (sha256 : list byte -> list byte).

(** What a resource is identified by. *)
Definition identity (r : Resource) : list string :=
  [service_name r; host_name r; resource_schema_url r; json (attributes_document (resource_attributes r))].

(** Two resources whose encodings differ and have the same digest. *)
Definition collide (r1 r2 : Resource) : Prop :=
  fingerprint_input (identity r1) <> fingerprint_input (identity r2) /\
  sha256 (fingerprint_input (identity r1)) = sha256 (fingerprint_input (identity r2)).

Lemma resource_row_id r : rs_id (resource_row json sha256 r) = fingerprint sha256 (identity r).
Proof. unfold resource_row, identity. simpl. by rewrite !default_non_empty. Qed.

Lemma resource_row_identity r1 r2 :
  identity r1 = identity r2 -> resource_row json sha256 r1 = resource_row json sha256 r2.
Proof.
  unfold identity, resource_row. intros H. injection H as Hs Hh Hu Hj. by rewrite Hs, Hh, Hu, Hj.
Qed.

(** C40: A resource id stands for one resource.  Two resources get the same id
    only when they have the same row (service name, host name, schema URL and
    attribute document), or when the digests of their two different length-
    prefixed encodings collide; they do get the same id when they bind the same
    keys to the same values under the same schema URL, whatever the order of the
    attributes and the shadowed duplicates.  And upserting keeps the ids unique:
    when every stored row is that of a resource, the table afterwards holds a
    row with the resource's id, and every such row is the resource's own, short
    of a collision. *)
Theorem resource_identity r1 :
  Forall short (identity r1) ->
  (forall r2, Forall short (identity r2) ->
     rs_id (resource_row json sha256 r1) = rs_id (resource_row json sha256 r2) ->
     resource_row json sha256 r1 = resource_row json sha256 r2 \/ collide r1 r2) /\
  (forall r2, (forall k, Resource_get r1 k = Resource_get r2 k) ->
     resource_schema_url r1 = resource_schema_url r2 ->
     resource_row json sha256 r1 = resource_row json sha256 r2) /\
  (forall db,
     Forall (fun row => exists r2, Forall short (identity r2) /\ row = resource_row json sha256 r2) (resources db) ->
     let rows := resources (upsert_resource db (resource_row json sha256 r1)) in
     (exists row, row ∈ rows /\ rs_id row = rs_id (resource_row json sha256 r1)) /\
     (forall row, row ∈ rows -> rs_id row = rs_id (resource_row json sha256 r1) ->
        row = resource_row json sha256 r1 \/ exists r2, collide r1 r2)).
Proof.
  intros H1.
  assert (forall r2, Forall short (identity r2) ->
     rs_id (resource_row json sha256 r1) = rs_id (resource_row json sha256 r2) ->
     resource_row json sha256 r1 = resource_row json sha256 r2 \/ collide r1 r2) as Hid.
  { intros r2 H2 H. rewrite !resource_row_id in H. unfold fingerprint in H. apply hex_encode_inj in H.
    destruct (decide (fingerprint_input (identity r1) = fingerprint_input (identity r2))) as [He|Hne]; [left|by right].
    by apply resource_row_identity, fingerprint_input_injective. }
  split; [done|]. split.
  - intros r2 Hget Hurl. apply resource_row_identity. unfold identity, service_name, host_name.
    rewrite !Hget, Hurl. do 5 f_equal. apply attributes_document_ext.
    intros k. unfold Resource_get in *. simpl. by rewrite Hget.
  - intros db Hdb rows. unfold rows, upsert_resource.
    destruct (existsb _ (resources db)) eqn:Hex; cbn [resources].
    + apply existsb_exists in Hex as (row & Hin & Heq). apply String.eqb_eq in Heq. apply list_elem_of_In in Hin.
      split; [by exists row|]. intros row' Hin' Heq'. rewrite Forall_forall in Hdb.
      destruct (Hdb row' Hin') as (r2 & H2 & ->). destruct (Hid r2 H2 (eq_sym Heq')) as [->|?]; [by left|right; by exists r2].
    + split; [eexists; split; [apply elem_of_app; right; by left|done]|].
      intros row [Hin|Hin]%elem_of_app Heq; [|left; by apply list_elem_of_singleton in Hin].
      rewrite Forall_forall in Hdb. destruct (Hdb row Hin) as (r2 & H2 & ->).
      destruct (Hid r2 H2 (eq_sym Heq)) as [->|?]; [by left|right; by exists r2].
Qed.

End identity.

(** Two attribute orders of one resource, and a second one that differs in its
    schema URL only, with the identity as digest. *)
Definition demo_resource (attrs : list Attribute) (url : string) : Resource :=
  {| resource_id := ""; resource_attributes := attrs; resource_schema_url := url |}.

Lemma resource_identity_witness :
  let json (d : SerdeValue) := "{}"%string in
  let a := ("service.name"%string, VString "checkout") in
  let b := ("region"%string, VString "eu") in
  let row attrs url := resource_row json id (demo_resource attrs url) in
  row [a; b] "u"%string = row [b; a] "u"%string /\
  rs_id (row [a; b] "u"%string) <> rs_id (row [a; b] "v"%string).
Proof.
  intros json a b row.
  destruct (resource_identity json id (demo_resource [a; b] "u"%string)) as (Hid & Hsame & _).
  { repeat constructor. }
  split.
  - apply Hsame; [|reflexivity]. intros k. change (find_key k [b; a] = find_key k [a; b]).
    unfold a, b. cbn [find_key fst snd].
    destruct (String.eqb_spec "region" k) as [<-|]; [reflexivity|].
    by destruct (String.eqb "service.name" k).
  - intros H. destruct (Hid (demo_resource [a; b] "v"%string)) as [Hrow|[Hne Hc]]; [repeat constructor|exact H|discriminate Hrow|].
    vm_compute in Hc. discriminate Hc.
Defined.

(** ** What a pass writes *)

Section spec.
Context (json : SerdeValue -> string) (sha256 : list byte -> list byte).
Context {Conn : Type} `{!SqliteConn Conn, !SqliteLaws Conn}.

(** Per-ticket counters of a map. *)
Definition kept_of (m : gmap N (N * N)) (t : N) : N := (default (0, 0) (m !! t)).1%N.
Definition dropped_of (m : gmap N (N * N)) (t : N) : N := (default (0, 0) (m !! t)).2%N.

(** Number of records of a list that carry ticket [t]. *)
Definition count_ticket (t : N) (l : list (LogRecord * N)) : N :=
  N.of_nat (length (filter (fun x => x.2 = t) l)).

Lemma count_ticket_cons t x l :
  count_ticket t (x :: l) = ((if decide (x.2 = t) then 1 else 0) + count_ticket t l)%N.
Proof.
  unfold count_ticket. rewrite filter_cons. destruct (decide (x.2 = t)); simpl; lia.
Qed.

Lemma count_ticket_app t l1 l2 : count_ticket t (l1 ++ l2) = (count_ticket t l1 + count_ticket t l2)%N.
Proof. unfold count_ticket. rewrite filter_app, length_app. lia. Qed.

Lemma count_ticket_perm t l1 l2 : l1 ≡ₚ l2 -> count_ticket t l1 = count_ticket t l2.
Proof. intros H. unfold count_ticket. by rewrite H. Qed.

Lemma bump_kept_spec m t u :
  kept_of (bump_kept m t) u = (kept_of m u + (if decide (t = u) then 1 else 0))%N /\
  dropped_of (bump_kept m t) u = dropped_of m u.
Proof.
  unfold bump_kept, kept_of, dropped_of. destruct (default _ (m !! t)) as [k d] eqn:Hd.
  destruct (decide (t = u)) as [->|Hne].
  - rewrite lookup_insert_eq, Hd. done.
  - rewrite lookup_insert_ne by done. split; [lia|done].
Qed.

Lemma bump_dropped_spec m t u :
  dropped_of (bump_dropped m t) u = (dropped_of m u + (if decide (t = u) then 1 else 0))%N /\
  kept_of (bump_dropped m t) u = kept_of m u.
Proof.
  unfold bump_dropped, kept_of, dropped_of. destruct (default _ (m !! t)) as [k d] eqn:Hd.
  destruct (decide (t = u)) as [->|Hne].
  - rewrite lookup_insert_eq, Hd. done.
  - rewrite lookup_insert_ne by done. split; [lia|done].
Qed.

(** The loop: the rows of the kept records are appended to the transaction's
    view, in order; kept and dropped records partition the batch, and the
    counters (per ticket in the tolerant pass) count them. *)
Lemma insert_rows_spec tolerant rid c rows acc c' outcome :
  insert_rows json tolerant rid c rows acc = (c', Ok outcome) ->
  exists kept gone, kept ++ gone ≡ₚ rows /\ sublist kept rows /\ (tolerant = false -> kept = rows) /\
    durable c' = durable c /\ resources (view c') = resources (view c) /\
    events (view c') = events (view c) ++ (event_row json rid <$> kept.*1) /\
    so_kept outcome = (so_kept acc + N.of_nat (length kept))%N /\
    so_dropped outcome = (so_dropped acc + N.of_nat (length gone))%N /\
    (tolerant = true -> forall t, t ≠ 0%N ->
      kept_of (so_by_ticket outcome) t = (kept_of (so_by_ticket acc) t + count_ticket t kept)%N /\
      dropped_of (so_by_ticket outcome) t = (dropped_of (so_by_ticket acc) t + count_ticket t gone)%N).
Proof.
  revert c acc. induction rows as [|[r t] rows IH]; intros c acc; simpl.
  { intros [= <- <-]. exists [], []. split_and!; simpl; rewrite ?app_nil_r; try done; try lia.
    intros _ t _. unfold count_ticket. simpl. lia. }
  pose proof (insert_event_durable c (event_row json rid r)) as Hdur.
  pose proof (insert_event_view c (event_row json rid r)) as Hview.
  destruct (conn_insert_event c (event_row json rid r)) as [c1 [x|e]]; simpl in Hdur, Hview.
  - intros H. apply IH in H as (kept & gone & Hp & Hsub & Hstrict & Hd & Hr & He & Hk & Hg & Ht).
    exists ((r, t) :: kept), gone. simpl in *.
    split_and!; [by rewrite Hp|by constructor|intros; f_equal; auto|congruence|by rewrite Hr, Hview| |lia|lia|].
    + rewrite He, Hview. simpl. by rewrite <- app_assoc.
    + intros Htol u Hu. destruct (Ht Htol u Hu) as [-> ->]. rewrite Htol, count_ticket_cons. simpl.
      destruct (N.eqb_spec t 0) as [->|Hnz]; simpl.
      * rewrite decide_False by done. split; lia.
      * destruct (bump_kept_spec (so_by_ticket acc) t u) as [-> ->]. split; [|done]. destruct (decide (t = u)); lia.
  - destruct (tolerant && bool_decide (classify_sqlite e = Poison)) eqn:Htol; [|done].
    apply andb_true_iff in Htol as [-> _].
    intros H. apply IH in H as (kept & gone & Hp & Hsub & Hstrict & Hd & Hr & He & Hk & Hg & Ht).
    exists kept, ((r, t) :: gone). simpl in *.
    split_and!; [rewrite <- Permutation_middle; by constructor|by constructor|done|congruence
      |by rewrite Hr, Hview|by rewrite He, Hview|lia|lia|].
    intros _ u Hu. destruct (Ht eq_refl u Hu) as [-> ->]. rewrite count_ticket_cons. simpl.
    destruct (N.eqb_spec t 0) as [->|Hnz]; simpl.
    * rewrite decide_False by done. split; lia.
    * destruct (bump_dropped_spec (so_by_ticket acc) t u) as [-> ->]. split; [done|]. destruct (decide (t = u)); lia.
Qed.

Lemma insert_rows_durable tolerant rid c rows acc :
  durable (insert_rows json tolerant rid c rows acc).1 = durable c.
Proof.
  revert c acc. induction rows as [|[r t] rows IH]; intros c acc; simpl; [done|].
  pose proof (insert_event_durable c (event_row json rid r)) as Hdur.
  destruct (conn_insert_event c (event_row json rid r)) as [c1 [x|e]]; simpl in Hdur.
  - by rewrite IH.
  - case_match; simpl; [by rewrite IH|done].
Qed.

Lemma insert_logs_inner_durable c b tolerant :
  durable (insert_logs_inner json sha256 c b tolerant).1 = durable c.
Proof.
  unfold insert_logs_inner, resolve_resource.
  pose proof (insert_resource_durable c (resource_row json sha256 (batch_resource b))) as H.
  destruct (conn_insert_resource c _) as [c1 [x|e]]; simpl in *; [by rewrite insert_rows_durable|done].
Qed.

Definition batch_rid (b : LogWriteBatch) : string := rs_id (resource_row json sha256 (batch_resource b)).

Lemma insert_logs_inner_spec c b tolerant c' outcome :
  insert_logs_inner json sha256 c b tolerant = (c', Ok outcome) ->
  let rows := zip (batch_records (lwb_records b)) (record_tickets b) in
  exists kept gone, kept ++ gone ≡ₚ rows /\ sublist kept rows /\ (tolerant = false -> kept = rows) /\
    events (view c') = events (view c) ++ (event_row json (batch_rid b) <$> kept.*1) /\
    resources (view c') = resources (upsert_resource (view c) (resource_row json sha256 (batch_resource b))) /\
    so_kept outcome = N.of_nat (length kept) /\ so_dropped outcome = N.of_nat (length gone) /\
    (tolerant = true -> forall t, t ≠ 0%N ->
      kept_of (so_by_ticket outcome) t = count_ticket t kept /\
      dropped_of (so_by_ticket outcome) t = count_ticket t gone).
Proof.
  unfold insert_logs_inner, resolve_resource.
  pose proof (insert_resource_view c (resource_row json sha256 (batch_resource b))) as Hview.
  destruct (conn_insert_resource c _) as [c1 [x|e]]; simpl in *; [|done].
  intros H. apply insert_rows_spec in H as (kept & gone & Hp & Hsub & Hst & _ & Hr & He & Hk & Hd & Ht).
  exists kept, gone. simpl in *. rewrite Hview in He, Hr.
  assert (events (upsert_resource (view c) (resource_row json sha256 (batch_resource b))) = events (view c)) as Hev.
  { unfold upsert_resource. by case_match. }
  rewrite Hev in He. by split_and!.
Qed.

End spec.

End Rows.
