(* ===== verification/Maintenance.v ===== *)
(** * Maintenance operations ([crates/otel-sqlite-storage/src/maintenance.rs])

    Retention pruning, size-quota eviction, vacuum and checkpoints, over the
    SQLite interface. *)

From S2P Require Import Prelude Time Model Command Sqlite.

Module Maintenance.
Import Time Model Command Sqlite.

Local Open Scope list_scope.

Definition PRUNE_BATCH_ROWS : nat := N.to_nat 5000.
Definition MAX_QUOTA_ROUNDS : nat := 8.
Definition INCREMENTAL_AUTO_VACUUM : Z := 2.

Record PruneReport := { pr_log_events : nat; pr_resources : nat }.
Definition PruneReport_default : PruneReport := {| pr_log_events := 0; pr_resources := 0 |}.
Definition total (r : PruneReport) : nat := pr_log_events r.
Definition dimensions_removed (r : PruneReport) : nat := pr_resources r.

Record QuotaReport := { qr_log_events : nat; bytes_before : N; bytes_after : N }.

(** [i64::saturating_sub]. *)
Definition i64_saturating_sub (a b : Z) : Z := Z.max i64_min (Z.min i64_max (a - b)).

Definition retention_cutoff (now_unix_nano : Z) (window : Duration) : Z :=
  i64_saturating_sub now_unix_nano
    (if (Z.of_N window <=? i64_max)%Z then Z.of_N window else i64_max).

Section maintenance.
Context {Conn : Type} `{!SqliteConn Conn}.

(** [?] on a statement outside a transaction. *)
Definition run_stmt {A} (r : Conn * result SqliteError A) : Conn * result StorageError A :=
  match r with
  | (c, Ok a) => (c, Ok a)
  | (c, Err e) => (c, Err (SqliteErr e))
  end.

Definition checkpoint (c : Conn) (mode : CheckpointMode) : Conn * result StorageError unit :=
  run_stmt (conn_checkpoint c mode).

Definition analyze (c : Conn) : Conn * result StorageError unit := run_stmt (conn_analyze c).

Definition convert_to_incremental_vacuum (c : Conn) : Conn * result StorageError unit :=
  run_stmt (conn_convert_vacuum c).
Definition incremental_vacuum (c : Conn) : Conn * result StorageError unit :=
  run_stmt (conn_incremental_vacuum c).

Definition vacuum (c : Conn) : Conn * result StorageError unit :=
  if (conn_auto_vacuum c =? INCREMENTAL_AUTO_VACUUM)%Z then incremental_vacuum c
  else convert_to_incremental_vacuum c.

Definition rebuild_fts (c : Conn) : Conn * result StorageError nat := run_stmt (conn_rebuild_fts c).

(** [let tx = conn.transaction()?; let r = stmt(tx)?; tx.commit()?]: on an
    error the dropped transaction rolls back. *)
Definition in_transaction {A} (c : Conn) (stmt : Conn -> Conn * result SqliteError A)
    : Conn * result StorageError A :=
  match conn_begin c with
  | (c1, Err e) => (c1, Err (SqliteErr e))
  | (c1, Ok _) =>
      match stmt c1 with
      | (c2, Err e) => (conn_rollback c2, Err (SqliteErr e))
      | (c2, Ok a) =>
          match conn_commit c2 with
          | (c3, Err e) => (conn_rollback c3, Err (SqliteErr e))
          | (c3, Ok _) => (c3, Ok a)
          end
      end
  end.

(** The batch loop of [prune].  A round that does not end the loop deletes
    [PRUNE_BATCH_ROWS] rows, so one round per stored event, plus the last one,
    suffices. *)
Fixpoint prune_loop (fuel : nat) (c : Conn) (cutoff : Z) (deleted_so_far : nat)
    : Conn * result StorageError nat :=
  match fuel with
  | O => (c, Ok deleted_so_far)
  | S fuel' =>
      match in_transaction c (fun tx => conn_delete_expired tx cutoff PRUNE_BATCH_ROWS) with
      | (c', Err e) => (c', Err e)
      | (c', Ok deleted) =>
          if deleted <? PRUNE_BATCH_ROWS then (c', Ok (deleted_so_far + deleted))
          else prune_loop fuel' c' cutoff (deleted_so_far + deleted)
      end
  end.

Definition prune_fuel (c : Conn) : nat := S (length (events (durable c))).

Definition prune (c : Conn) (window : option Duration) (now_unix_nano : Z)
    : Conn * result StorageError PruneReport :=
  let '(c1, r1) :=
    match window with
    | Some w => prune_loop (prune_fuel c) c (retention_cutoff now_unix_nano w) 0
    | None => (c, Ok 0)
    end in
  match r1 with
  | Err e => (c1, Err e)
  | Ok log_events =>
      let report := {| pr_log_events := log_events; pr_resources := 0 |} in
      if 0 <? total report then
        match in_transaction c1 conn_delete_orphans with
        | (c2, Err e) => (c2, Err e)
        | (c2, Ok n) => (c2, Ok {| pr_log_events := log_events; pr_resources := n |})
        end
      else (c1, Ok report)
  end.

Definition database_bytes (c : Conn) : N := sat_add (conn_file_size c) (conn_sidecar_size c).

Definition try_checkpoint_truncate (c : Conn) : Conn * bool :=
  match checkpoint c Truncate with
  | (c', Ok _) => (c', true)
  | (c', Err _) => (c', false)
  end.

Definition prune_oldest_batch (c : Conn) : Conn * result StorageError nat :=
  in_transaction c (fun tx => conn_delete_oldest tx PRUNE_BATCH_ROWS).

(** [for _ in 0..MAX_QUOTA_ROUNDS]. *)
Fixpoint quota_loop (rounds : nat) (c : Conn) (quota_bytes : N) (deleted_so_far : nat)
    : Conn * result StorageError nat :=
  match rounds with
  | O => (c, Ok deleted_so_far)
  | S rounds' =>
      if (conn_file_size c <=? quota_bytes)%N then (c, Ok deleted_so_far)
      else
        match prune_oldest_batch c with
        | (c1, Err e) => (c1, Err e)
        | (c1, Ok deleted) =>
            let so_far := deleted_so_far + deleted in
            if deleted =? 0 then (c1, Ok so_far)
            else
              match try_checkpoint_truncate c1 with
              | (c2, false) => (c2, Ok so_far)
              | (c2, true) =>
                  match incremental_vacuum c2 with
                  | (c3, Err e) => (c3, Err e)
                  | (c3, Ok _) =>
                      match try_checkpoint_truncate c3 with
                      | (c4, false) => (c4, Ok so_far)
                      | (c4, true) => quota_loop rounds' c4 quota_bytes so_far
                      end
                  end
              end
        end
  end.

Definition enforce_size_quota (c : Conn) (quota_bytes : N) : Conn * result StorageError QuotaReport :=
  let before := database_bytes c in
  match try_checkpoint_truncate c with
  | (c1, false) =>
      (c1, Ok {| qr_log_events := 0; bytes_before := before; bytes_after := database_bytes c1 |})
  | (c1, true) =>
      let '(c2, converted) :=
        if (conn_auto_vacuum c1 =? INCREMENTAL_AUTO_VACUUM)%Z then (c1, Ok tt)
        else convert_to_incremental_vacuum c1 in
      match converted with
      | Err e => (c2, Err e)
      | Ok _ =>
          match quota_loop MAX_QUOTA_ROUNDS c2 quota_bytes 0 with
          | (c3, Err e) => (c3, Err e)
          | (c3, Ok log_events) =>
              let '(c4, swept) :=
                if 0 <? log_events then in_transaction c3 conn_delete_orphans else (c3, Ok 0) in
              match swept with
              | Err e => (c4, Err e)
              | Ok _ => (c4, Ok {| qr_log_events := log_events; bytes_before := before;
                                   bytes_after := database_bytes c4 |})
              end
          end
      end
  end.

(** ** Properties *)

Context `{!SqliteLaws Conn}.

Lemma run_stmt_durable {A} (c : Conn) (r : Conn * result SqliteError A) :
  durable r.1 = durable c -> durable (run_stmt r).1 = durable c.
Proof. destruct r as [c' []]; done. Qed.

Lemma try_checkpoint_durable c : durable (try_checkpoint_truncate c).1 = durable c.
Proof.
  unfold try_checkpoint_truncate, checkpoint, run_stmt.
  pose proof (checkpoint_durable c Truncate) as H. by destruct (conn_checkpoint c Truncate) as [c' []].
Qed.

(** A transaction around one statement is all or nothing. *)
Lemma in_transaction_spec {A} (c : Conn) (stmt : Conn -> Conn * result SqliteError A) :
  (forall x, durable (stmt x).1 = durable x) ->
  match in_transaction c stmt with
  | (c', Err _) => durable c' = durable c
  | (c', Ok a) => exists c1, view c1 = durable c /\ (stmt c1).2 = Ok a /\ durable c' = view (stmt c1).1
  end.
Proof.
  intros Hstmt. unfold in_transaction.
  pose proof (begin_durable c) as Hb. pose proof (begin_view c) as Hv.
  destruct (conn_begin c) as [c1 [u|e]]; simpl in *; [|done].
  specialize (Hstmt c1). destruct (stmt c1) as [c2 [a|e]] eqn:Hs; simpl in *.
  - pose proof (commit_durable c2) as Hc.
    destruct (conn_commit c2) as [c3 [u'|e]]; simpl in *.
    + exists c1. rewrite Hs. simpl. split; [by apply Hv|]. done.
    + rewrite rollback_durable. congruence.
  - rewrite rollback_durable. congruence.
Qed.

(** Deleting rows: the remaining events plus the deleted ones are the old
    ones. *)
Definition deletes (c c' : Conn) (gone : list EventRow) : Prop :=
  events (durable c) ≡ₚ gone ++ events (durable c').

Lemma deletes_trans c1 c2 c3 g1 g2 : deletes c1 c2 g1 -> deletes c2 c3 g2 -> deletes c1 c3 (g1 ++ g2).
Proof. unfold deletes. intros -> ->. by rewrite <- app_assoc. Qed.

Lemma delete_expired_tx c cutoff c' k :
  in_transaction c (fun tx => conn_delete_expired tx cutoff PRUNE_BATCH_ROWS) = (c', Ok k) ->
  exists gone, deletes c c' gone /\ length gone = k /\
    Forall (fun e => (ev_timestamp_ns e < cutoff)%Z) gone /\
    resources (durable c') = resources (durable c) /\
    (k < PRUNE_BATCH_ROWS -> Forall (fun e => (cutoff <= ev_timestamp_ns e)%Z) (events (durable c'))).
Proof.
  intros H. pose proof (in_transaction_spec c (fun tx => conn_delete_expired tx cutoff PRUNE_BATCH_ROWS)) as Hs.
  rewrite H in Hs. destruct Hs as (c1 & Hv & Hk & Hd); [intros; apply delete_expired_durable|].
  destruct (delete_expired_view c1 cutoff PRUNE_BATCH_ROWS k Hk) as (gone & Hp & Hl & _ & Hexp & Hrest & Hres).
  exists gone. unfold deletes. rewrite Hd, <- Hv. split_and!; done.
Qed.

Lemma prune_loop_spec fuel c cutoff so_far c' n :
  length (events (durable c)) < fuel -> prune_loop fuel c cutoff so_far = (c', Ok n) ->
  exists gone, deletes c c' gone /\ n = so_far + length gone /\
    Forall (fun e => (ev_timestamp_ns e < cutoff)%Z) gone /\
    resources (durable c') = resources (durable c) /\
    Forall (fun e => (cutoff <= ev_timestamp_ns e)%Z) (events (durable c')).
Proof.
  revert c so_far. induction fuel as [|fuel IH]; intros c so_far Hf; [lia|]. cbn [prune_loop].
  destruct (in_transaction c _) as [c1 [k|e]] eqn:Htx; [|done].
  apply delete_expired_tx in Htx as (gone & Hdel & Hl & Hexp & Hres & Hrest).
  destruct (k <? PRUNE_BATCH_ROWS) eqn:Hlt; bool_to_prop.
  - intros [= <- <-]. exists gone. split_and!; [done|lia|done|done|auto].
  - intros H. apply IH in H as (gone' & Hdel' & -> & Hexp' & Hres' & Hrest').
    + exists (gone ++ gone'). split_and!; [by eapply deletes_trans|rewrite length_app; lia| |congruence|done].
      by apply Forall_app.
    + unfold deletes in Hdel. apply Permutation_length in Hdel. rewrite length_app in Hdel.
      assert (0 < PRUNE_BATCH_ROWS) by (unfold PRUNE_BATCH_ROWS; lia). lia.
Qed.

(** Whatever its outcome, a prune removes expired events only. *)
Lemma prune_loop_deletes fuel : forall c cutoff so_far,
  exists gone, deletes c (prune_loop fuel c cutoff so_far).1 gone /\
    Forall (fun e => (ev_timestamp_ns e < cutoff)%Z) gone.
Proof.
  induction fuel as [|fuel IH]; intros c cutoff so_far; cbn [prune_loop]; [exists []; by split; [unfold deletes|constructor]|].
  pose proof (in_transaction_spec c (fun tx => conn_delete_expired tx cutoff PRUNE_BATCH_ROWS)
    (fun x => delete_expired_durable x cutoff PRUNE_BATCH_ROWS)) as Htx.
  destruct (in_transaction c _) as [c1 [k|e]] eqn:Hin.
  2: { exists []. unfold deletes. simpl. rewrite Htx. by split. }
  apply delete_expired_tx in Hin as (gone & Hdel & _ & Hexp & _).
  destruct (k <? PRUNE_BATCH_ROWS); [by exists gone|].
  destruct (IH c1 cutoff (so_far + k)) as (gone' & Hdel' & Hexp').
  exists (gone ++ gone'). split; [by eapply deletes_trans|by apply Forall_app].
Qed.

Lemma delete_orphans_events c :
  events (durable (in_transaction c conn_delete_orphans).1) = events (durable c).
Proof.
  pose proof (in_transaction_spec c conn_delete_orphans delete_orphans_durable) as Hs.
  destruct (in_transaction c conn_delete_orphans) as [c' [k|e]]; simpl; [|by rewrite Hs].
  destruct Hs as (c1 & Hv & Hk & Hd). destruct (delete_orphans_view c1 k Hk) as [He _]. by rewrite Hd, He, Hv.
Qed.

Lemma prune_deletes c window now :
  exists gone, deletes c (prune c (Some window) now).1 gone /\
    Forall (fun e => (ev_timestamp_ns e < retention_cutoff now window)%Z) gone.
Proof.
  destruct (prune_loop_deletes (prune_fuel c) c (retention_cutoff now window) 0) as (gone & Hdel & Hexp).
  exists gone. split; [|done]. unfold prune, deletes in *.
  destruct (prune_loop (prune_fuel c) c (retention_cutoff now window) 0) as [c1 [n|e]]; [|done].
  case_match; [|done]. pose proof (delete_orphans_events c1) as He.
  destruct (in_transaction c1 conn_delete_orphans) as [c2 []]; simpl in *; by rewrite He.
Qed.

Lemma delete_orphans_tx c c' k :
  in_transaction c conn_delete_orphans = (c', Ok k) ->
  events (durable c') = events (durable c) /\
  resources (durable c') = filter (fun r => referenced (events (durable c)) r = true) (resources (durable c)).
Proof.
  intros H. pose proof (in_transaction_spec c conn_delete_orphans delete_orphans_durable) as Hs.
  rewrite H in Hs. destruct Hs as (c1 & Hv & Hk & Hd).
  destruct (delete_orphans_view c1 k Hk) as [He Hr]. by rewrite Hd, He, Hr, Hv.
Qed.

Lemma prune_oldest_tx c c' k :
  prune_oldest_batch c = (c', Ok k) ->
  exists gone, deletes c c' gone /\ length gone = k /\ k <= PRUNE_BATCH_ROWS /\
    (forall e e', e ∈ gone -> e' ∈ events (durable c') -> (ev_timestamp_ns e <= ev_timestamp_ns e')%Z).
Proof.
  intros H. unfold prune_oldest_batch in H.
  pose proof (in_transaction_spec c (fun tx => conn_delete_oldest tx PRUNE_BATCH_ROWS)) as Hs.
  rewrite H in Hs. destruct Hs as (c1 & Hv & Hk & Hd); [intros; apply delete_oldest_durable|].
  destruct (delete_oldest_view c1 PRUNE_BATCH_ROWS k Hk) as (gone & Hp & Hl & Hm & Hle & _).
  exists gone. unfold deletes. rewrite Hd, <- Hv. split_and!; [done|done|lia|done].
Qed.

(** Eviction order: everything evicted is at most as recent as everything
    kept. *)
Definition oldest_first (gone kept : list EventRow) : Prop :=
  forall e e', e ∈ gone -> e' ∈ kept -> (ev_timestamp_ns e <= ev_timestamp_ns e')%Z.

(** Every round that deletes leaves only events at least as recent; so does the
    loop, however it ends. *)
Lemma quota_loop_spec rounds c quota so_far c' r :
  quota_loop rounds c quota so_far = (c', r) ->
  exists gone, deletes c c' gone /\ (forall n, r = Ok n -> n = so_far + length gone) /\
    length gone <= rounds * PRUNE_BATCH_ROWS /\ oldest_first gone (events (durable c')).
Proof.
  revert c so_far. induction rounds as [|rounds IH]; intros c so_far; cbn [quota_loop].
  { intros [= <- <-]. exists []. unfold deletes, oldest_first. split_and!; [done|by intros ? [= <-]|apply Nat.le_0_l|set_solver]. }
  assert (forall c2 (r2 : result StorageError nat), durable c2 = durable c -> (forall n, r2 = Ok n -> n = so_far) ->
    exists gone, deletes c c2 gone /\ (forall n, r2 = Ok n -> n = so_far + length gone) /\
    length gone <= S rounds * PRUNE_BATCH_ROWS /\ oldest_first gone (events (durable c2))) as Hnone.
  { intros c2 r2 H2 Hn. exists []. unfold deletes, oldest_first. rewrite H2. split_and!; [done| |apply Nat.le_0_l|set_solver].
    intros n Hr. simpl. rewrite (Hn n Hr). lia. }
  destruct (conn_file_size c <=? quota)%N; [intros [= <- <-]; apply Hnone; [done|by intros ? [= <-]]|].
  pose proof (in_transaction_spec c (fun tx => conn_delete_oldest tx PRUNE_BATCH_ROWS)
    (fun x => delete_oldest_durable x PRUNE_BATCH_ROWS)) as Htx.
  fold (prune_oldest_batch c) in Htx.
  destruct (prune_oldest_batch c) as [c1 [k|e]] eqn:Hp; [|intros [= <- <-]; by apply Hnone].
  apply prune_oldest_tx in Hp as (gone & Hdel & Hl & Hk & Hle).
  assert (forall c2, durable c2 = durable c1 -> deletes c c2 gone /\ oldest_first gone (events (durable c2))) as Hsame.
  { intros c2 H2. unfold deletes, oldest_first. by rewrite H2. }
  assert (forall c2 (r2 : result StorageError nat), durable c2 = durable c1 -> (forall n, r2 = Ok n -> n = so_far + k) ->
    exists gone, deletes c c2 gone /\ (forall n, r2 = Ok n -> n = so_far + length gone) /\
    length gone <= S rounds * PRUNE_BATCH_ROWS /\ oldest_first gone (events (durable c2))) as Hstop.
  { intros c2 r2 H2 Hn. exists gone. destruct (Hsame c2 H2).
    split_and!; [done|by rewrite Hl|rewrite Nat.mul_succ_l; lia|done]. }
  destruct (k =? 0); [intros [= <- <-]; apply Hstop; [done|by intros ? [= <-]]|].
  pose proof (try_checkpoint_durable c1) as H2. destruct (try_checkpoint_truncate c1) as [c2 []]; simpl in H2;
    [|intros [= <- <-]; apply Hstop; [done|by intros ? [= <-]]].
  pose proof (run_stmt_durable c2 _ (incremental_vacuum_durable c2)) as H3.
  unfold incremental_vacuum. destruct (run_stmt (conn_incremental_vacuum c2)) as [c3 [u|e]]; simpl in H3;
    [|intros [= <- <-]; apply Hstop; [congruence|done]].
  pose proof (try_checkpoint_durable c3) as H4. destruct (try_checkpoint_truncate c3) as [c4 []]; simpl in H4;
    [|intros [= <- <-]; apply Hstop; [congruence|by intros ? [= <-]]].
  intros H. apply IH in H as (gone' & Hdel' & Hn & Hlen' & Hle').
  destruct (Hsame c4 ltac:(congruence)) as [Hdel4 Hold4].
  exists (gone ++ gone'). split_and!.
  - by eapply deletes_trans.
  - intros n Hr. rewrite length_app, (Hn n Hr). lia.
  - rewrite length_app, Nat.mul_succ_l. lia.
  - intros e e' [He|He]%elem_of_app He'; [|by eapply Hle']. eapply Hold4; [done|].
    unfold deletes in Hdel'. rewrite Hdel'. apply elem_of_app. by right.
Qed.

(** One enforcement, however it ends. *)
Lemma enforce_size_quota_spec c quota c' r :
  enforce_size_quota c quota = (c', r) ->
  exists gone, deletes c c' gone /\ oldest_first gone (events (durable c')) /\
    length gone <= MAX_QUOTA_ROUNDS * PRUNE_BATCH_ROWS /\
    (forall report, r = Ok report -> qr_log_events report = length gone).
Proof.
  unfold enforce_size_quota. pose proof (try_checkpoint_durable c) as H1.
  assert (forall c2 (r2 : result StorageError QuotaReport), durable c2 = durable c -> (forall report, r2 = Ok report -> qr_log_events report = 0) ->
    exists gone, deletes c c2 gone /\ oldest_first gone (events (durable c2)) /\
    length gone <= MAX_QUOTA_ROUNDS * PRUNE_BATCH_ROWS /\
    (forall report, r2 = Ok report -> qr_log_events report = length gone)) as Hnone.
  { intros c2 r2 H2 Hr. exists []. unfold deletes, oldest_first. rewrite H2.
    split_and!; [done|set_solver|apply Nat.le_0_l|done]. }
  destruct (try_checkpoint_truncate c) as [c1 []]; simpl in H1;
    [|intros [= <- <-]; apply Hnone; [done|by intros ? [= <-]]].
  assert (durable (if (conn_auto_vacuum c1 =? INCREMENTAL_AUTO_VACUUM)%Z then (c1, Ok tt)
    else convert_to_incremental_vacuum c1).1 = durable c1) as H2.
  { case_match; [done|]. apply run_stmt_durable, convert_vacuum_durable. }
  destruct (if (_ =? _)%Z then _ else _) as [c2 [u|e]]; simpl in H2; [|intros [= <- <-]; apply Hnone; [congruence|done]].
  destruct (quota_loop MAX_QUOTA_ROUNDS c2 quota 0) as [c3 r3] eqn:Hloop.
  apply quota_loop_spec in Hloop as (gone & Hdel & Hn & Hlen & Hold).
  assert (forall c4, events (durable c4) = events (durable c3) ->
    deletes c c4 gone /\ oldest_first gone (events (durable c4))) as Hsame.
  { intros c4 H4. unfold deletes, oldest_first in *. rewrite H4. split; [|done]. by rewrite <- H1, <- H2. }
  destruct r3 as [n|e].
  2: { intros [= <- <-]. exists gone. destruct (Hsame c3 eq_refl). by split_and!. }
  specialize (Hn n eq_refl) as ->.
  pose proof (delete_orphans_events c3) as Hsweep.
  destruct (0 <? 0 + length gone); [destruct (in_transaction c3 conn_delete_orphans) as [c4 [k|e]]|];
    simpl in Hsweep; intros [= <- <-]; exists gone;
    (match goal with |- context [deletes c ?x gone] => destruct (Hsame x) end; [done|]);
    (split_and!; [done|done|done|]); by intros ? [= <-].
Qed.

End maintenance.

(** ** Claims *)

(** C28: a retention prune that succeeds removes exactly the expired events:
    every event it deleted is older than the cutoff, no event older than the
    cutoff remains, all others are untouched; the report counts the deleted
    events; and when something was deleted, exactly the resource rows without
    an event are gone too.  The batch loop always ends within its fuel. *)
Theorem prune_exact {Conn} `{!SqliteConn Conn, !SqliteLaws Conn} (c c' : Conn) window now report :
  prune c (Some window) now = (c', Ok report) ->
  let cutoff := retention_cutoff now window in
  exists gone, events (durable c) ≡ₚ gone ++ events (durable c') /\
    Forall (fun e => (ev_timestamp_ns e < cutoff)%Z) gone /\
    Forall (fun e => (cutoff <= ev_timestamp_ns e)%Z) (events (durable c')) /\
    total report = length gone /\
    resources (durable c') =
      (if 0 <? length gone
       then filter (fun r => referenced (events (durable c')) r = true) (resources (durable c))
       else resources (durable c)).
Proof.
  unfold prune. destruct (prune_loop _ c _ 0) as [c1 [n|e]] eqn:Hloop; [|done].
  apply prune_loop_spec in Hloop as (gone & Hdel & -> & Hexp & Hres & Hrest); [|unfold prune_fuel; lia].
  unfold total. cbn [pr_log_events]. rewrite Nat.add_0_l. destruct (0 <? length gone) eqn:Hn.
  - destruct (in_transaction c1 conn_delete_orphans) as [c2 [k|e]] eqn:Htx; [|done].
    intros [= <- <-]. apply delete_orphans_tx in Htx as [He Hr]. simpl.
    exists gone. rewrite Hn, Hr, He, <- Hres. done.
  - intros [= <- <-]. exists gone. rewrite Hn. done.
Qed.

Definition blank_event (ts : Z) : EventRow :=
  {| ev_resource_id := "r"; ev_timestamp_ns := ts; ev_observed_timestamp_ns := 0;
     ev_severity_number := 9; ev_severity_text := None; ev_trace_id := None; ev_span_id := None;
     ev_body := None; ev_event_name := None; ev_flags := 0; ev_dropped_attributes_count := 0;
     ev_scope_name := None; ev_scope_version := None; ev_scope_attributes_json := "{}";
     ev_scope_schema_url := None; ev_attributes_json := "{}" |}.

Definition three_events : MemDb :=
  let db := {| events := map blank_event [30; 10; 20]%Z; resources := [] |} in
  {| mem_durable := db; mem_view := db; mem_script := [] |}.

Lemma prune_exact_witness :
  exists c' report, prune three_events (Some 75%N) 100 = (c', Ok report) /\ total report = 2 /\
    exists gone, events (durable three_events) ≡ₚ gone ++ events (durable c') /\ total report = length gone.
Proof.
  destruct (prune three_events (Some 75%N) 100) as [c' [report|]] eqn:Hp; [|by vm_compute in Hp].
  exists c', report. split; [done|]. split; [vm_compute in Hp; by simplify_eq|].
  destruct (prune_exact three_events c' 75%N 100 report Hp) as (gone & H1 & _ & _ & H2 & _).
  exists gone. split; [exact H1|exact H2].
Defined.

(** C29: size-quota eviction removes the oldest events first: nothing it
    evicted is more recent than anything it kept, the report counts the
    evicted events, at most [MAX_QUOTA_ROUNDS * PRUNE_BATCH_ROWS] go in one
    call, and every other event survives. *)
Theorem quota_evicts_oldest {Conn} `{!SqliteConn Conn, !SqliteLaws Conn} (c c' : Conn) quota report :
  enforce_size_quota c quota = (c', Ok report) ->
  exists gone, events (durable c) ≡ₚ gone ++ events (durable c') /\
    oldest_first gone (events (durable c')) /\ qr_log_events report = length gone /\
    length gone <= MAX_QUOTA_ROUNDS * PRUNE_BATCH_ROWS.
Proof.
  intros (gone & Hdel & Hold & Hlen & Hn)%enforce_size_quota_spec. exists gone. split_and!; auto.
Qed.

Lemma quota_evicts_oldest_witness :
  exists c' report, enforce_size_quota three_events 8192 = (c', Ok report) /\
    exists gone, events (durable three_events) ≡ₚ gone ++ events (durable c') /\
      qr_log_events report = length gone.
Proof.
  destruct (enforce_size_quota three_events 8192) as [c' [report|]] eqn:Hp; [|by vm_compute in Hp].
  exists c', report. split; [done|].
  destruct (quota_evicts_oldest three_events c' 8192 report Hp) as (gone & H1 & _ & H2 & _).
  exists gone. split; [exact H1|exact H2].
Defined.

(** The retention cutoff never leaves the signed 64-bit range, is never
    after [now] for a representable clock, and is exactly [now - window]
    whenever that is representable. *)
Theorem retention_cutoff_bounds now window :
  (i64_min <= now <= i64_max)%Z ->
  (i64_min <= retention_cutoff now window <= now)%Z /\
  ((i64_min <= now - Z.of_N window)%Z -> (Z.of_N window <= i64_max)%Z ->
   retention_cutoff now window = (now - Z.of_N window)%Z).
Proof.
  unfold retention_cutoff, i64_saturating_sub, i64_min, i64_max. intros Hnow.
  destruct (Z.leb_spec (Z.of_N window) (2 ^ 63 - 1)); lia.
Qed.

Lemma retention_cutoff_bounds_witness :
  retention_cutoff 1000 (2 ^ 70)%N = (1000 - i64_max)%Z /\
  (i64_min <= retention_cutoff 1000 (2 ^ 70)%N <= 1000)%Z.
Proof.
  split; [by vm_compute|].
  exact (proj1 (retention_cutoff_bounds 1000 (2 ^ 70)%N ltac:(unfold i64_min, i64_max; lia))).
Defined.

End Maintenance.
