(* ===== verification/Writer.v ===== *)
(** * SQLite writer ([crates/otel-sqlite-storage/src/writer.rs])

    The single consumer of the command queue: one transaction per insert
    command with the retry/salvage/halt policy, settlement of the durability
    tickets, maintenance commands and the size quota.  The writer is generic in
    the connection ([SqliteConn]) and in the ledger ([Ledger]). *)

From S2P Require Import Prelude Time Model Command CommitLedger InsertBatcher OriginBuffers BatcherDriver Sqlite Rows Maintenance.

Module Writer.
Import Time Model Command CommitLedger OriginBuffers BatcherDriver Sqlite Rows Maintenance.

Local Open Scope list_scope.

(** ** Counters ([stats.rs], writer side) *)

Record WriterStats := {
  records_written : N;
  transactions_committed : N;
  batches_received : N;
  maintenance_runs : N;
  errors : N;
  quarantined_records : N;
  transient_retries : N;
  queue_depth : nat;
  in_flight : nat;
  ws_last_progress_ms : N;
  maintenance_in_progress : bool;
  maintenance_started_ms : N;
  ws_running : bool;
}.

Definition WriterStats_new (now_ms : N) : WriterStats :=
  {| records_written := 0; transactions_committed := 0; batches_received := 0; maintenance_runs := 0;
     errors := 0; quarantined_records := 0; transient_retries := 0; queue_depth := 0; in_flight := 0;
     ws_last_progress_ms := now_ms; maintenance_in_progress := false; maintenance_started_ms := 0;
     ws_running := false |}.

(** Updates of single counters; [fetch_add] wraps. *)

Definition ws_mark_progress (now_ms : N) (s : WriterStats) : WriterStats :=
  {| records_written := records_written s; transactions_committed := transactions_committed s;
     batches_received := batches_received s; maintenance_runs := maintenance_runs s;
     errors := errors s; quarantined_records := quarantined_records s;
     transient_retries := transient_retries s; queue_depth := queue_depth s;
     in_flight := in_flight s; ws_last_progress_ms := now_ms;
     maintenance_in_progress := maintenance_in_progress s;
     maintenance_started_ms := maintenance_started_ms s; ws_running := ws_running s |}.

Definition add_written (n : N) (s : WriterStats) : WriterStats :=
  {| records_written := wrap_add (records_written s) n;
     transactions_committed := transactions_committed s;
     batches_received := batches_received s; maintenance_runs := maintenance_runs s;
     errors := errors s; quarantined_records := quarantined_records s;
     transient_retries := transient_retries s; queue_depth := queue_depth s;
     in_flight := in_flight s; ws_last_progress_ms := ws_last_progress_ms s;
     maintenance_in_progress := maintenance_in_progress s;
     maintenance_started_ms := maintenance_started_ms s; ws_running := ws_running s |}.

Definition add_transactions (n : N) (s : WriterStats) : WriterStats :=
  {| records_written := records_written s;
     transactions_committed := wrap_add (transactions_committed s) n;
     batches_received := batches_received s; maintenance_runs := maintenance_runs s;
     errors := errors s; quarantined_records := quarantined_records s;
     transient_retries := transient_retries s; queue_depth := queue_depth s;
     in_flight := in_flight s; ws_last_progress_ms := ws_last_progress_ms s;
     maintenance_in_progress := maintenance_in_progress s;
     maintenance_started_ms := maintenance_started_ms s; ws_running := ws_running s |}.

Definition add_received (n : N) (s : WriterStats) : WriterStats :=
  {| records_written := records_written s; transactions_committed := transactions_committed s;
     batches_received := wrap_add (batches_received s) n;
     maintenance_runs := maintenance_runs s; errors := errors s;
     quarantined_records := quarantined_records s; transient_retries := transient_retries s;
     queue_depth := queue_depth s; in_flight := in_flight s;
     ws_last_progress_ms := ws_last_progress_ms s;
     maintenance_in_progress := maintenance_in_progress s;
     maintenance_started_ms := maintenance_started_ms s; ws_running := ws_running s |}.

Definition add_maintenance_runs (n : N) (s : WriterStats) : WriterStats :=
  {| records_written := records_written s; transactions_committed := transactions_committed s;
     batches_received := batches_received s;
     maintenance_runs := wrap_add (maintenance_runs s) n; errors := errors s;
     quarantined_records := quarantined_records s; transient_retries := transient_retries s;
     queue_depth := queue_depth s; in_flight := in_flight s;
     ws_last_progress_ms := ws_last_progress_ms s;
     maintenance_in_progress := maintenance_in_progress s;
     maintenance_started_ms := maintenance_started_ms s; ws_running := ws_running s |}.

Definition add_errors (n : N) (s : WriterStats) : WriterStats :=
  {| records_written := records_written s; transactions_committed := transactions_committed s;
     batches_received := batches_received s; maintenance_runs := maintenance_runs s;
     errors := wrap_add (errors s) n; quarantined_records := quarantined_records s;
     transient_retries := transient_retries s; queue_depth := queue_depth s;
     in_flight := in_flight s; ws_last_progress_ms := ws_last_progress_ms s;
     maintenance_in_progress := maintenance_in_progress s;
     maintenance_started_ms := maintenance_started_ms s; ws_running := ws_running s |}.

Definition add_quarantined (n : N) (s : WriterStats) : WriterStats :=
  {| records_written := records_written s; transactions_committed := transactions_committed s;
     batches_received := batches_received s; maintenance_runs := maintenance_runs s;
     errors := errors s; quarantined_records := wrap_add (quarantined_records s) n;
     transient_retries := transient_retries s; queue_depth := queue_depth s;
     in_flight := in_flight s; ws_last_progress_ms := ws_last_progress_ms s;
     maintenance_in_progress := maintenance_in_progress s;
     maintenance_started_ms := maintenance_started_ms s; ws_running := ws_running s |}.

Definition add_retries (n : N) (s : WriterStats) : WriterStats :=
  {| records_written := records_written s; transactions_committed := transactions_committed s;
     batches_received := batches_received s; maintenance_runs := maintenance_runs s;
     errors := errors s; quarantined_records := quarantined_records s;
     transient_retries := wrap_add (transient_retries s) n; queue_depth := queue_depth s;
     in_flight := in_flight s; ws_last_progress_ms := ws_last_progress_ms s;
     maintenance_in_progress := maintenance_in_progress s;
     maintenance_started_ms := maintenance_started_ms s; ws_running := ws_running s |}.

Definition set_queue_depth (n : nat) (s : WriterStats) : WriterStats :=
  {| records_written := records_written s; transactions_committed := transactions_committed s;
     batches_received := batches_received s; maintenance_runs := maintenance_runs s;
     errors := errors s; quarantined_records := quarantined_records s;
     transient_retries := transient_retries s; queue_depth := n; in_flight := in_flight s;
     ws_last_progress_ms := ws_last_progress_ms s;
     maintenance_in_progress := maintenance_in_progress s;
     maintenance_started_ms := maintenance_started_ms s; ws_running := ws_running s |}.

(** [begin_command] and the drop of its guard. *)
Definition begin_command (backlog : nat) (s : WriterStats) : WriterStats :=
  {| records_written := records_written s; transactions_committed := transactions_committed s;
     batches_received := batches_received s; maintenance_runs := maintenance_runs s;
     errors := errors s; quarantined_records := quarantined_records s;
     transient_retries := transient_retries s; queue_depth := backlog; in_flight := 1;
     ws_last_progress_ms := ws_last_progress_ms s;
     maintenance_in_progress := maintenance_in_progress s;
     maintenance_started_ms := maintenance_started_ms s; ws_running := ws_running s |}.

Definition end_command (s : WriterStats) : WriterStats :=
  {| records_written := records_written s; transactions_committed := transactions_committed s;
     batches_received := batches_received s; maintenance_runs := maintenance_runs s;
     errors := errors s; quarantined_records := quarantined_records s;
     transient_retries := transient_retries s; queue_depth := queue_depth s; in_flight := 0;
     ws_last_progress_ms := ws_last_progress_ms s;
     maintenance_in_progress := maintenance_in_progress s;
     maintenance_started_ms := maintenance_started_ms s; ws_running := ws_running s |}.

(** [maintenance_guard] and its drop. *)
Definition maintenance_begin (now_ms : N) (s : WriterStats) : WriterStats :=
  {| records_written := records_written s; transactions_committed := transactions_committed s;
     batches_received := batches_received s; maintenance_runs := maintenance_runs s;
     errors := errors s; quarantined_records := quarantined_records s;
     transient_retries := transient_retries s; queue_depth := queue_depth s;
     in_flight := in_flight s; ws_last_progress_ms := ws_last_progress_ms s;
     maintenance_in_progress := true; maintenance_started_ms := now_ms;
     ws_running := ws_running s |}.

Definition maintenance_end (s : WriterStats) : WriterStats :=
  {| records_written := records_written s; transactions_committed := transactions_committed s;
     batches_received := batches_received s; maintenance_runs := maintenance_runs s;
     errors := errors s; quarantined_records := quarantined_records s;
     transient_retries := transient_retries s; queue_depth := queue_depth s;
     in_flight := in_flight s; ws_last_progress_ms := ws_last_progress_ms s;
     maintenance_in_progress := false; maintenance_started_ms := 0;
     ws_running := ws_running s |}.

Definition ws_set_running (b : bool) (s : WriterStats) : WriterStats :=
  {| records_written := records_written s; transactions_committed := transactions_committed s;
     batches_received := batches_received s; maintenance_runs := maintenance_runs s;
     errors := errors s; quarantined_records := quarantined_records s;
     transient_retries := transient_retries s; queue_depth := queue_depth s;
     in_flight := in_flight s; ws_last_progress_ms := ws_last_progress_ms s;
     maintenance_in_progress := maintenance_in_progress s;
     maintenance_started_ms := maintenance_started_ms s; ws_running := b |}.

(** ** Retry policy *)

Definition MAX_TRANSIENT_RETRIES : nat := 4.
Definition RETRY_BACKOFF_BASE : Duration := from_millis 250.
Definition MAINTENANCE_PRESSURE_SKIP_DEPTH : nat := N.to_nat 1000.

(** [Duration::saturating_mul]. *)
Definition duration_saturating_mul (d : Duration) (k : N) : Duration := N.min DURATION_MAX (d * k)%N.

Definition backoff_delay (attempt : nat) : Duration :=
  N.min (duration_saturating_mul RETRY_BACKOFF_BASE (2 ^ N.of_nat (Nat.min attempt 4))%N) (from_secs 4).

Definition heavy_maintenance_label (op : MaintenanceOperation) : option string :=
  match op with
  | Vacuum => Some "vacuum"%string
  | RebuildFts => Some "rebuild_fts"%string
  | Prune (Some _) => Some "prune"%string
  | Prune None | Analyze => None
  end.

Section writer.
Context (json : SerdeValue -> string) (sha256 : list byte -> list byte).
Context {Conn : Type} `{!SqliteConn Conn}.
Context {L : Type} `{!Ledger L}.

(** One strict transaction; failures carry their class. *)
Definition run_transaction (now_ms : N) (c : Conn) (s : WriterStats)
    (persist : Conn -> Conn * result StorageError N)
    : Conn * WriterStats * result (StorageError * FailureClass) unit :=
  match conn_begin c with
  | (c1, Err e) => (c1, s, Err (SqliteErr e, class (SqliteErr e)))
  | (c1, Ok _) =>
      match persist c1 with
      | (c2, Ok written) =>
          match conn_commit c2 with
          | (c3, Err e) => (conn_rollback c3, s, Err (SqliteErr e, class (SqliteErr e)))
          | (c3, Ok _) =>
              (c3, ws_mark_progress now_ms (add_transactions 1 (add_written written s)), Ok tt)
          end
      | (c2, Err e) => (conn_rollback c2, add_errors 1 s, Err (e, class e))
      end
  end.

(** The second-chance pass of a poisoned batch. *)
Definition finish_salvage (now_ms : N) (c : Conn) (s : WriterStats)
    (salvage : Conn -> Conn * result StorageError SalvageOutcome)
    : Conn * WriterStats * result StorageError SalvageOutcome :=
  match conn_begin c with
  | (c1, Err e) => (c1, s, Err (SqliteErr e))
  | (c1, Ok _) =>
      match salvage c1 with
      | (c2, Ok outcome) =>
          match conn_commit c2 with
          | (c3, Err e) => (conn_rollback c3, s, Err (SqliteErr e))
          | (c3, Ok _) =>
              (c3, ws_mark_progress now_ms (add_transactions 1
                     (add_quarantined (so_dropped outcome) (add_written (so_kept outcome) s))),
               Ok outcome)
          end
      | (c2, Err e) => (conn_rollback c2, add_errors 1 s, Err e)
      end
  end.

(** The policy loop; [retries] is [MAX_TRANSIENT_RETRIES - attempt]. *)
Fixpoint persist_loop (retries : nat) (now_ms : N) (c : Conn) (s : WriterStats)
    (strict : Conn -> Conn * result StorageError N)
    (salvage : Conn -> Conn * result StorageError SalvageOutcome)
    : Conn * WriterStats * result StorageError (option SalvageOutcome) :=
  match run_transaction now_ms c s strict with
  | (c1, s1, Ok _) => (c1, s1, Ok None)
  | (c1, s1, Err (error, Poison)) =>
      match finish_salvage now_ms c1 s1 salvage with
      | (c2, s2, Ok outcome) => (c2, s2, Ok (Some outcome))
      | (c2, s2, Err e) => (c2, s2, Err e)
      end
  | (c1, s1, Err (error, Retryable)) =>
      match retries with
      | S retries' => persist_loop retries' now_ms c1 (add_retries 1 s1) strict salvage
      | O => (c1, s1, Err error)
      end
  | (c1, s1, Err (error, FatalClass)) => (c1, s1, Err error)
  end.

Definition persist_with_policy (now_ms : N) (c : Conn) (s : WriterStats)
    (strict : Conn -> Conn * result StorageError N)
    (salvage : Conn -> Conn * result StorageError SalvageOutcome)
    : Conn * WriterStats * result StorageError (option SalvageOutcome) :=
  persist_loop MAX_TRANSIENT_RETRIES now_ms c s strict salvage.

(** ** Settlement *)

(** [None] arm: progress per segment, completion on the last one. *)
Definition settle_segment (now_ms : N) (l : L) (g : RecordSegment) : L :=
  let l1 := led_note_committed l (seg_commit_seq g) (N.of_nat (seg_records g)) in
  if seg_complete g then led_settle now_ms l1 (seg_commit_seq g) false else l1.

(** [Some] arm, first loop: the counts of each ticket. *)
Definition note_salvaged (by_ticket : gmap N (N * N)) (l : L) (t : N) : L :=
  let '(kept, lost) := default (0, 0)%N (by_ticket !! t) in
  let l1 := if (0 <? kept)%N then led_note_committed l t kept else l in
  if (0 <? lost)%N then led_note_dropped l1 t lost else l1.

(** [Some] arm, second loop. *)
Definition complete_segment (now_ms : N) (l : L) (g : RecordSegment) : L :=
  if seg_complete g then led_settle now_ms l (seg_commit_seq g) false else l.

(** Batches without a ticket map. *)
Definition settle_legacy (now_ms : N) (lost : N) (l : L) (t : N) : L :=
  let l1 := if (0 <? lost)%N then led_note_dropped l t lost else l in
  led_settle now_ms l1 t false.

Definition settle_log_batch (now_ms : N) (l : L) (b : LogWriteBatch) (salvage : option SalvageOutcome) : L :=
  match lwb_segments b with
  | [] =>
      let lost := match salvage with Some outcome => so_dropped outcome | None => 0%N end in
      foldl (settle_legacy now_ms lost) l (lwb_commit_seqs b)
  | _ =>
      match salvage with
      | None => foldl (settle_segment now_ms) l (lwb_segments b)
      | Some outcome =>
          let l1 := foldl (note_salvaged (so_by_ticket outcome)) l (lwb_commit_seqs b) in
          foldl (complete_segment now_ms) l1 (lwb_segments b)
      end
  end.

(** ** Commands *)

Definition run_maintenance (c : Conn) (op : MaintenanceOperation) (queue_backlog : nat)
    (now_unix_nano : Z) : Conn * result StorageError bool :=
  if (MAINTENANCE_PRESSURE_SKIP_DEPTH <? queue_backlog)
     && match heavy_maintenance_label op with Some _ => true | None => false end
  then (c, Ok false)
  else
    match op with
    | Analyze =>
        match analyze c with (c', Ok _) => (c', Ok true) | (c', Err e) => (c', Err e) end
    | Vacuum =>
        match vacuum c with (c', Ok _) => (c', Ok true) | (c', Err e) => (c', Err e) end
    | RebuildFts =>
        match rebuild_fts c with (c', Ok _) => (c', Ok true) | (c', Err e) => (c', Err e) end
    | Prune None => (c, Ok false)
    | Prune window =>
        match prune c window now_unix_nano with (c', Ok _) => (c', Ok true) | (c', Err e) => (c', Err e) end
    end.

Record Writer := { w_conn : Conn; w_ledger : L; w_stats : WriterStats }.

Definition execute (now_ms : N) (now_unix_nano : Z) (w : Writer) (command : WriteCommand)
    (queue_backlog : nat) : Writer * result StorageError unit :=
  let '{| w_conn := c; w_ledger := l; w_stats := s |} := w in
  match command with
  | InsertLogs batch =>
      if WriteBatch_is_empty (lwb_records batch) then
        ({| w_conn := c; w_stats := s;
            w_ledger := foldl (fun l t => led_settle now_ms l t true) l (lwb_commit_seqs batch) |}, Ok tt)
      else
        match persist_with_policy now_ms c (add_received 1 s)
                (fun tx => insert_logs json sha256 tx batch)
                (fun tx => insert_logs_tolerant json sha256 tx batch) with
        | (c', s', Ok salvage) =>
            ({| w_conn := c'; w_ledger := settle_log_batch now_ms l batch salvage; w_stats := s' |}, Ok tt)
        | (c', s', Err e) => ({| w_conn := c'; w_ledger := l; w_stats := s' |}, Err e)
        end
  | Flush => (w, Ok tt)
  | Checkpoint mode =>
      let s1 := maintenance_begin now_ms s in
      match checkpoint c mode with
      | (c', Ok _) =>
          ({| w_conn := c'; w_ledger := l;
              w_stats := maintenance_end (ws_mark_progress now_ms (add_maintenance_runs 1 s1)) |}, Ok tt)
      | (c', Err e) => ({| w_conn := c'; w_ledger := l; w_stats := maintenance_end s1 |}, Err e)
      end
  | Maintenance operation =>
      let s1 := maintenance_begin now_ms s in
      match run_maintenance c operation queue_backlog now_unix_nano with
      | (c', Ok true) =>
          ({| w_conn := c'; w_ledger := l;
              w_stats := maintenance_end (ws_mark_progress now_ms (add_maintenance_runs 1 s1)) |}, Ok tt)
      | (c', Ok false) => ({| w_conn := c'; w_ledger := l; w_stats := maintenance_end s1 |}, Ok tt)
      | (c', Err e) => ({| w_conn := c'; w_ledger := l; w_stats := maintenance_end s1 |}, Err e)
      end
  end.

(** Best-effort: an error of the enforcement is logged and ignored. *)
Definition enforce_quota (now_ms : N) (w : Writer) (quota_bytes : N) : Writer :=
  if (database_bytes (w_conn w) <=? quota_bytes)%N then w
  else
    let s1 := maintenance_begin now_ms (w_stats w) in
    match enforce_size_quota (w_conn w) quota_bytes with
    | (c', Ok _) =>
        {| w_conn := c'; w_ledger := w_ledger w; w_stats := maintenance_end (ws_mark_progress now_ms s1) |}
    | (c', Err _) => {| w_conn := c'; w_ledger := w_ledger w; w_stats := maintenance_end s1 |}
    end.

(** What precedes the execution of a command: the queue gauges and, for a
    command with records, the quota. *)
Definition prepare (max_db_bytes : option N) (now_ms : N) (w : Writer) (command : WriteCommand)
    (backlog : nat) : Writer :=
  let w1 := {| w_conn := w_conn w; w_ledger := w_ledger w; w_stats := begin_command backlog (w_stats w) |} in
  match max_db_bytes with
  | Some quota => if negb (WriteCommand_record_count command =? 0) then enforce_quota now_ms w1 quota else w1
  | None => w1
  end.

(** One received command: quota, execution, fault knob.  [processed] counts the
    commands executed before this one. *)
Definition handle_command (max_db_bytes : option N) (fault_after : option N) (now_ms : N)
    (now_unix_nano : Z) (w : Writer) (processed : N) (command : WriteCommand) (backlog : nat)
    : Writer * result StorageError N :=
  let w2 := prepare max_db_bytes now_ms w command backlog in
  let '(w3, r) := execute now_ms now_unix_nano w2 command backlog in
  let w4 := {| w_conn := w_conn w3; w_ledger := w_ledger w3; w_stats := end_command (w_stats w3) |} in
  match r with
  | Err e => (w4, Err e)
  | Ok _ =>
      let processed' := (processed + 1)%N in
      match fault_after with
      | Some limit => if (limit <=? processed')%N then (w4, Err (FaultInjected "writer"))
                      else (w4, Ok processed')
      | None => (w4, Ok processed')
      end
  end.

(** The receive loop on a queue whose senders are gone (the graceful drain);
    [now] gives the clocks of each command. *)
Fixpoint drain (max_db_bytes fault_after : option N) (now : nat -> N * Z) (w : Writer) (processed : N)
    (queue : list WriteCommand) : Writer * result StorageError N :=
  match queue with
  | [] => (w, Ok processed)
  | command :: rest =>
      match handle_command max_db_bytes fault_after (now 0).1 (now 0).2 w processed command (length rest) with
      | (w', Err e) => (w', Err e)
      | (w', Ok processed') => drain max_db_bytes fault_after (fun k => now (S k)) w' processed' rest
      end
  end.

(** [run]: whatever the outcome of the loop, the ledger is closed on exit. *)
Definition run (max_db_bytes fault_after : option N) (now : nat -> N * Z) (w : Writer)
    (queue : list WriteCommand) : Writer * result StorageError unit :=
  let close_exit w := {| w_conn := w_conn w; w_ledger := led_close (w_ledger w);
                         w_stats := ws_set_running false (w_stats w) |} in
  match drain max_db_bytes fault_after now w 0 queue with
  | (w1, Err e) => (close_exit w1, Err e)
  | (w1, Ok _) =>
      let s := set_queue_depth 0 (w_stats w1) in
      match checkpoint (w_conn w1) Truncate with
      | (c, Ok _) => (close_exit {| w_conn := c; w_ledger := w_ledger w1; w_stats := s |}, Ok tt)
      | (c, Err e) => (close_exit {| w_conn := c; w_ledger := w_ledger w1; w_stats := s |}, Err e)
      end
  end.

(** ** Transactions are all or nothing *)

Context `{!SqliteLaws Conn}.

(** The 64-bit counters of written and quarantined records advance by [kept] and
    [gone]. *)
Definition tallied (s s' : WriterStats) (kept gone : N) : Prop :=
  forall n m, (records_written s = n mod 2 ^ 64)%N -> (quarantined_records s = m mod 2 ^ 64)%N ->
    (records_written s' = (n + kept) mod 2 ^ 64)%N /\ (quarantined_records s' = (m + gone) mod 2 ^ 64)%N.

Lemma tallied_same s s' :
  records_written s' = records_written s -> quarantined_records s' = quarantined_records s -> tallied s s' 0 0.
Proof. intros Hr Hq n m Hn Hm. by rewrite !N.add_0_r, Hr, Hq. Qed.

Lemma tallied_trans s1 s2 s3 k g k' g' :
  tallied s1 s2 k g -> tallied s2 s3 k' g' -> tallied s1 s3 (k + k') (g + g').
Proof. intros H12 H23 n m Hn Hm. destruct (H12 n m Hn Hm). rewrite !N.add_assoc. by apply H23. Qed.

Lemma tallied_add now_ms s k g :
  tallied s (ws_mark_progress now_ms (add_transactions 1 (add_quarantined g (add_written k s)))) k g.
Proof.
  intros n m Hn Hm. simpl. unfold wrap_add. rewrite Hn, Hm. split; by rewrite N.Div0.add_mod_idemp_l.
Qed.

Lemma tallied_written now_ms s k :
  tallied s (ws_mark_progress now_ms (add_transactions 1 (add_written k s))) k 0.
Proof. intros n m Hn Hm. simpl. unfold wrap_add. rewrite Hn, Hm, N.add_0_r. by rewrite N.Div0.add_mod_idemp_l. Qed.

Lemma run_transaction_spec now_ms c s persist :
  (forall x, durable (persist x).1 = durable x) ->
  match run_transaction now_ms c s persist with
  | (c', s', Err _) => durable c' = durable c /\ tallied s s' 0 0
  | (c', s', Ok _) => exists c1 n, view c1 = durable c /\ (persist c1).2 = Ok n /\
      durable c' = view (persist c1).1 /\ tallied s s' n 0
  end.
Proof.
  intros Hp. unfold run_transaction.
  pose proof (begin_durable c) as Hb. pose proof (begin_view c) as Hv.
  destruct (conn_begin c) as [c1 [u|e]]; simpl in *; [|split; [done|by apply tallied_same]].
  specialize (Hp c1). destruct (persist c1) as [c2 [n|e]] eqn:Hs; simpl in *.
  - pose proof (commit_durable c2) as Hc. destruct (conn_commit c2) as [c3 [u'|e]]; simpl in *.
    + exists c1, n. rewrite Hs. split_and!; [by apply Hv|done|done|apply tallied_written].
    + rewrite rollback_durable. split; [congruence|by apply tallied_same].
  - rewrite rollback_durable. split; [congruence|by apply tallied_same].
Qed.

Lemma finish_salvage_spec now_ms c s salvage :
  (forall x, durable (salvage x).1 = durable x) ->
  match finish_salvage now_ms c s salvage with
  | (c', s', Err _) => durable c' = durable c /\ tallied s s' 0 0
  | (c', s', Ok o) => exists c1, view c1 = durable c /\ (salvage c1).2 = Ok o /\
      durable c' = view (salvage c1).1 /\ tallied s s' (so_kept o) (so_dropped o)
  end.
Proof.
  intros Hp. unfold finish_salvage.
  pose proof (begin_durable c) as Hb. pose proof (begin_view c) as Hv.
  destruct (conn_begin c) as [c1 [u|e]]; simpl in *; [|split; [done|by apply tallied_same]].
  specialize (Hp c1). destruct (salvage c1) as [c2 [n|e]] eqn:Hs; simpl in *.
  - pose proof (commit_durable c2) as Hc. destruct (conn_commit c2) as [c3 [u'|e]]; simpl in *.
    + exists c1. rewrite Hs. split_and!; [by apply Hv|done|done|apply tallied_add].
    + rewrite rollback_durable. split; [congruence|by apply tallied_same].
  - rewrite rollback_durable. split; [congruence|by apply tallied_same].
Qed.

Lemma persist_loop_spec retries now_ms c s strict salvage :
  (forall x, durable (strict x).1 = durable x) -> (forall x, durable (salvage x).1 = durable x) ->
  match persist_loop retries now_ms c s strict salvage with
  | (c', s', Err _) => durable c' = durable c /\ tallied s s' 0 0
  | (c', s', Ok None) => exists c1 n, view c1 = durable c /\ (strict c1).2 = Ok n /\
      durable c' = view (strict c1).1 /\ tallied s s' n 0
  | (c', s', Ok (Some o)) => exists c1, view c1 = durable c /\ (salvage c1).2 = Ok o /\
      durable c' = view (salvage c1).1 /\ tallied s s' (so_kept o) (so_dropped o)
  end.
Proof.
  intros Hs Hv. revert c s. induction retries as [|retries IH]; intros c s; cbn [persist_loop];
    pose proof (run_transaction_spec now_ms c s strict Hs) as Ht;
    destruct (run_transaction now_ms c s strict) as [[c1 s1] [u|[e []]]]; try done; destruct Ht as [Ht Hn];
    try (pose proof (finish_salvage_spec now_ms c1 s1 salvage Hv) as Hf;
         destruct (finish_salvage now_ms c1 s1 salvage) as [[c2 s2] [o|e']]; rewrite <- Ht;
         [destruct Hf as (x & ? & ? & ? & Hf); exists x; split_and!; try done|destruct Hf as [? Hf]; split; try done];
         exact (tallied_trans _ _ _ _ _ _ _ Hn Hf)).
  specialize (IH c1 (add_retries 1 s1)).
  assert (tallied s (add_retries 1 s1) 0 0) as Hn'
    by exact (tallied_trans _ _ _ _ _ _ _ Hn (tallied_same s1 (add_retries 1 s1) eq_refl eq_refl)).
  destruct (persist_loop retries _ _ _ _ _) as [[c2 s2] [[o|]|e']]; rewrite <- Ht.
  - destruct IH as (x & ? & ? & ? & Hf). exists x. split_and!; try done. exact (tallied_trans _ _ _ _ _ _ _ Hn' Hf).
  - destruct IH as (x & n & ? & ? & ? & Hf). exists x, n. split_and!; try done.
    exact (tallied_trans _ _ _ _ _ _ _ Hn' Hf).
  - destruct IH as [? Hf]. split; [done|]. exact (tallied_trans _ _ _ _ _ _ _ Hn' Hf).
Qed.

(** What a persisted batch left in the database, and where its records went. *)
Definition persisted (b : LogWriteBatch) (db db' : Db) (kept : list (LogRecord * N)) : Prop :=
  events db' = events db ++ (event_row json (batch_rid json sha256 b) <$> kept.*1).

Lemma zip_record_tickets b :
  command_ok (InsertLogs b) ->
  zip (batch_records (lwb_records b)) (record_tickets b) = command_records (InsertLogs b).
Proof.
  intros (Hl & _). unfold record_tickets. simpl. unfold WriteBatch_len in *.
  rewrite <- (app_nil_r (batch_records (lwb_records b))) at 1. rewrite zip_app_lengths by done.
  by rewrite app_nil_r.
Qed.

Lemma persist_batch_spec now_ms c s b :
  command_ok (InsertLogs b) ->
  match persist_with_policy now_ms c s (fun tx => insert_logs json sha256 tx b)
          (fun tx => insert_logs_tolerant json sha256 tx b) with
  | (c', s', Err _) => durable c' = durable c /\ tallied s s' 0 0
  | (c', s', Ok None) => persisted b (durable c) (durable c') (command_records (InsertLogs b)) /\
      tallied s s' (N.of_nat (length (command_records (InsertLogs b)))) 0
  | (c', s', Ok (Some o)) => exists kept gone, kept ++ gone ≡ₚ command_records (InsertLogs b) /\
      persisted b (durable c) (durable c') kept /\ tallied s s' (so_kept o) (so_dropped o) /\
      so_kept o = N.of_nat (length kept) /\ so_dropped o = N.of_nat (length gone) /\
      forall t, t ≠ 0%N -> kept_of (so_by_ticket o) t = count_ticket t kept /\
        dropped_of (so_by_ticket o) t = count_ticket t gone
  end.
Proof.
  intros Hok. unfold persist_with_policy.
  pose proof (persist_loop_spec MAX_TRANSIENT_RETRIES now_ms c s (fun tx => insert_logs json sha256 tx b)
    (fun tx => insert_logs_tolerant json sha256 tx b)) as H.
  assert (forall x, durable (insert_logs json sha256 x b).1 = durable x) as Hs.
  { intros x. unfold insert_logs. pose proof (insert_logs_inner_durable json sha256 x b false).
    by destruct (insert_logs_inner _ _ x b false) as [x' []]. }
  specialize (H Hs (fun x => insert_logs_inner_durable json sha256 x b true)).
  destruct (persist_loop _ _ _ _ _ _) as [[c' s'] [[o|]|e]]; [| |done].
  - destruct H as (c1 & Hv & Ho & Hd & Hn). unfold insert_logs_tolerant in *.
    destruct (insert_logs_inner json sha256 c1 b true) as [c2 r] eqn:Hi. simpl in *. subst r.
    apply insert_logs_inner_spec in Hi as (kept & gone & Hp & _ & _ & He & _ & Hk & Hg & Ht); [|apply _].
    rewrite zip_record_tickets in Hp by done. exists kept, gone. unfold persisted.
    rewrite Hd, He, Hv. split_and!; [done|done|done|done|done|]. by apply Ht.
  - destruct H as (c1 & n & Hv & Ho & Hd & Hn). unfold insert_logs in *.
    destruct (insert_logs_inner json sha256 c1 b false) as [c2 [out|e]] eqn:Hi; simpl in *; [|done].
    apply insert_logs_inner_spec in Hi as (kept & gone & Hp & _ & Hst & He & _ & Hk & _); [|apply _].
    rewrite zip_record_tickets in Hst by done. rewrite (Hst eq_refl) in He, Hk.
    unfold persisted. rewrite Hd, He, Hv. split; [done|]. injection Ho as <-. by rewrite Hk in Hn.
Qed.

(** ** Effect of a settlement on the tickets *)

Context `{!LedgerLaws L}.

Definition add_progress (p : TicketProgress) (k d : N) : TicketProgress :=
  mk_progress (sat_add (committed p) k) (sat_add (dropped p) d).

Definition final_state (p : TicketProgress) : TicketState :=
  if (0 <? dropped p)%N then Failed p else Completed.

(** One ticket after a batch that kept [k] and lost [d] of its records, and
    held its last segment iff [last]. *)
Definition ticket_after (s : TicketState) (k d : N) (last : bool) : TicketState :=
  match s with
  | Unsettled p =>
      let p' := add_progress p k d in
      if last then final_state p' else Unsettled p'
  | s => s
  end.

Definition unsettled (l : L) (t : N) : Prop := settled_state (led_state l t) = false.

Lemma add_progress_0 l t p :
  led_inv l -> led_state l t = Unsettled p -> add_progress p 0 0 = p.
Proof.
  intros Hi Hp. destruct (led_bounded l t p Hi Hp). destruct p. unfold add_progress, sat_add.
  simpl in *. f_equal; lia.
Qed.

Lemma add_progress_add p k1 k2 : add_progress (add_progress p k1 0) k2 0 = add_progress p (k1 + k2) 0.
Proof. unfold add_progress, sat_add. simpl. f_equal; lia. Qed.

(** Sum of [k] over the segments of ticket [t]. *)
Definition seg_count (k : RecordSegment -> nat) (t : N) (segs : list RecordSegment) : N :=
  N.of_nat (sum_with (fun g => if decide (seg_commit_seq g = t) then k g else 0) segs).

Lemma seg_count_cons k t g segs :
  seg_count k t (g :: segs) =
  ((if decide (seg_commit_seq g = t) then N.of_nat (k g) else 0) + seg_count k t segs)%N.
Proof. unfold seg_count. simpl. destruct (decide _); lia. Qed.

Lemma seg_count_not_in k t segs : t ∉ (seg_commit_seq <$> segs) -> seg_count k t segs = 0%N.
Proof.
  induction segs as [|g segs IH]; [done|]. rewrite fmap_cons, not_elem_of_cons. intros [? ?].
  rewrite seg_count_cons, decide_False, IH; done.
Qed.

Lemma note_state l t r u :
  led_inv l -> unsettled l t ->
  led_state (led_note_committed l t r) u =
  (if decide (u = t) then ticket_after (led_state l u) r 0 false else led_state l u).
Proof.
  intros Hi Hu. rewrite led_state_note_committed by done. unfold abs_note.
  destruct (N.eqb_spec u t) as [->|]; [|by rewrite decide_False]. rewrite decide_True by done.
  unfold unsettled in Hu. destruct (led_state l t) as [p| |p] eqn:Hp; try done. simpl.
  unfold add_committed, add_progress. f_equal. f_equal. destruct (led_bounded l t p Hi Hp).
  unfold sat_add. lia.
Qed.

Lemma complete_state now_ms l t u :
  led_inv l -> unsettled l t ->
  led_state (led_settle now_ms l t false) u =
  (if decide (u = t) then ticket_after (led_state l u) 0 0 true else led_state l u).
Proof.
  intros Hi Hu. rewrite led_state_settle by done. unfold abs_settle.
  destruct (N.eqb_spec u t) as [->|]; [|by rewrite decide_False]. rewrite decide_True by done.
  unfold unsettled in Hu. destruct (led_state l t) as [p| |p] eqn:Hp; try done. simpl.
  by rewrite (add_progress_0 l t p Hi Hp).
Qed.

Lemma ticket_after_compose s k1 k2 d1 d2 last :
  ticket_after (ticket_after s k1 d1 false) k2 d2 last = ticket_after s (k1 + k2) (d1 + d2) last.
Proof.
  destruct s as [p| |p]; [|done..]. simpl.
  assert (add_progress (add_progress p k1 d1) k2 d2 = add_progress p (k1 + k2) (d1 + d2)) as ->; [|done].
  unfold add_progress, sat_add. simpl. f_equal; lia.
Qed.

Lemma ticket_after_0 l t :
  led_inv l -> ticket_after (led_state l t) 0 0 false = led_state l t.
Proof.
  intros Hi. destruct (led_state l t) as [p| |p] eqn:Hp; [|done..]. simpl.
  by rewrite (add_progress_0 l t p Hi Hp).
Qed.

Lemma ticket_after_unsettled s k d : settled_state s = false -> settled_state (ticket_after s k d false) = false.
Proof. by destruct s. Qed.

(** Ledgers with the same invariant data, differing in the tickets [f]. *)
Definition ledger_moves (l l' : L) (f : N -> TicketState) : Prop :=
  led_inv l' /\ led_issued l' = led_issued l /\ forall u, led_state l' u = f u.

Lemma settle_segment_moves now_ms l g :
  led_inv l -> unsettled l (seg_commit_seq g) -> (seg_commit_seq g <= led_issued l)%N ->
  ledger_moves l (settle_segment now_ms l g) (fun u =>
    if decide (u = seg_commit_seq g)
    then ticket_after (led_state l u) (N.of_nat (seg_records g)) 0 (seg_complete g) else led_state l u).
Proof.
  intros Hi Hu Hle. unfold settle_segment. set (t := seg_commit_seq g) in *.
  set (l1 := led_note_committed l t _).
  assert (led_inv l1) as Hi1 by (by apply led_note_committed_inv).
  assert (led_issued l1 = led_issued l) as His1 by apply led_issued_note_committed.
  assert (forall u, led_state l1 u = if decide (u = t)
    then ticket_after (led_state l u) (N.of_nat (seg_records g)) 0 false else led_state l u) as Hst
    by (intros u; by apply note_state).
  destruct (seg_complete g); [|by split_and!].
  split; [apply led_settle_inv; [done|by rewrite His1]|].
  split; [by rewrite led_issued_settle|]. intros u. rewrite complete_state; [|done|].
  - rewrite Hst. destruct (decide (u = t)); [|done]. by rewrite ticket_after_compose, N.add_0_r.
  - unfold unsettled. rewrite Hst, decide_True by done. by apply ticket_after_unsettled.
Qed.

Lemma complete_segment_moves now_ms l g :
  led_inv l -> unsettled l (seg_commit_seq g) -> (seg_commit_seq g <= led_issued l)%N ->
  ledger_moves l (complete_segment now_ms l g) (fun u =>
    if decide (u = seg_commit_seq g) then ticket_after (led_state l u) 0 0 (seg_complete g)
    else led_state l u).
Proof.
  intros Hi Hu Hle. unfold complete_segment. destruct (seg_complete g).
  - split_and!; [by apply led_settle_inv|apply led_issued_settle|]. intros u. by apply complete_state.
  - split_and!; [done|done|]. intros u. case_decide; [by rewrite ticket_after_0|done].
Qed.

(** A loop over the segments that adds [k g] records to the ticket of each
    segment [g] and settles it when the segment is complete: every ticket of
    the batch gains its total, and settles iff nothing of it comes [later]. *)
Lemma segment_fold_spec (step : L -> RecordSegment -> L) (k : RecordSegment -> nat) segs later l :
  (forall l g, led_inv l -> unsettled l (seg_commit_seq g) -> (seg_commit_seq g <= led_issued l)%N ->
    ledger_moves l (step l g) (fun u =>
      if decide (u = seg_commit_seq g)
      then ticket_after (led_state l u) (N.of_nat (k g)) 0 (seg_complete g) else led_state l u)) ->
  led_inv l -> (forall t, t ∈ (seg_commit_seq <$> segs) -> unsettled l t /\ (t <= led_issued l)%N) ->
  complete_ok segs later ->
  ledger_moves l (foldl step l segs) (fun u =>
    if decide (u ∈ (seg_commit_seq <$> segs))
    then ticket_after (led_state l u) (seg_count k u segs) 0 (bool_decide (u ∉ later)) else led_state l u).
Proof.
  intros Hstep. revert l. induction segs as [|g segs IH]; intros l Hi Huns Hco.
  { split_and!; [done|done|]. intros u. by rewrite decide_False by set_solver. }
  destruct Hco as [Hg Hco]. cbn [foldl]. set (t := seg_commit_seq g) in *.
  destruct (Huns t) as [Hut Hle]; [left|].
  destruct (Hstep l g Hi Hut Hle) as (Hi1 & His1 & Hst1). fold t in Hst1.
  destruct (IH (step l g) Hi1) as (Hi2 & His2 & Hst2); [|done|].
  { intros u Hu. rewrite His1. destruct (Huns u) as [Huu ?]; [by right|]. split; [|done].
    unfold unsettled. rewrite Hst1. destruct (decide (u = t)) as [->|]; [|done].
    destruct (seg_complete g); [|by apply ticket_after_unsettled].
    exfalso. destruct Hg as [Hg _]. specialize (Hg eq_refl). set_solver. }
  split_and!; [done|congruence|]. intros u. rewrite Hst2, Hst1, seg_count_cons. fold t.
  rewrite fmap_cons. destruct (decide (u = t)) as [->|Hne].
  - rewrite (decide_True (P := t ∈ _ :: _)) by left.
    rewrite (decide_True (P := seg_commit_seq g = t)) by done.
    destruct (seg_complete g).
    + destruct Hg as [Hg _]. specialize (Hg eq_refl). rewrite not_elem_of_app in Hg. destruct Hg as [Hs Hl].
      rewrite decide_False, (seg_count_not_in _ _ _ Hs), bool_decide_eq_true_2 by done. by rewrite N.add_0_r.
    + destruct (decide (t ∈ _)) as [Hin|Hout]; [by rewrite ticket_after_compose|].
      rewrite (seg_count_not_in _ _ _ Hout), N.add_0_r, bool_decide_eq_false_2; [done|].
      intros Hl. assert (false = true) by (apply Hg; set_solver). done.
  - rewrite (decide_False (P := seg_commit_seq g = u)) by (intros Heq; by apply Hne). simpl.
    destruct (decide (u ∈ _)) as [Hin|Hout].
    + by rewrite decide_True by (by right).
    + by rewrite decide_False by set_solver.
Qed.

(** The salvage pass, first loop. *)
Lemma note_salvaged_moves by_ticket l t :
  led_inv l -> unsettled l t ->
  ledger_moves l (note_salvaged by_ticket l t) (fun u =>
    if decide (u = t) then ticket_after (led_state l u) (kept_of by_ticket t) (dropped_of by_ticket t) false
    else led_state l u).
Proof.
  intros Hi Hu. unfold note_salvaged, kept_of, dropped_of.
  destruct (default _ (by_ticket !! t)) as [k d]. simpl.
  set (l1 := if (0 <? k)%N then led_note_committed l t k else l).
  assert (ledger_moves l l1 (fun u => if decide (u = t) then ticket_after (led_state l u) k 0 false else led_state l u))
    as (Hi1 & His1 & Hst1).
  { subst l1. destruct (N.ltb_spec 0 k).
    - split_and!; [by apply led_note_committed_inv|apply led_issued_note_committed|]. intros u. by apply note_state.
    - split_and!; [done|done|]. intros u. replace k with 0%N by lia. case_decide; [by rewrite ticket_after_0|done]. }
  destruct (N.ltb_spec 0 d).
  - split_and!; [by apply led_note_dropped_inv|by rewrite led_issued_note_dropped|].
    intros u. rewrite led_state_note_dropped by done. unfold abs_note.
    assert (settled_state (led_state l1 t) = false) as Hu1.
    { rewrite Hst1, decide_True by done. by apply ticket_after_unsettled. }
    destruct (N.eqb_spec u t) as [->|]; [|by rewrite Hst1, !decide_False].
    rewrite decide_True by done. unfold unsettled in Hu.
    destruct (led_state l1 t) as [p1| |] eqn:Hp1; try done.
    rewrite Hst1, decide_True in Hp1 by done.
    destruct (led_state l t) as [p| |] eqn:Hp; try done. simpl in Hp1. injection Hp1 as <-. simpl. f_equal.
    unfold add_dropped, add_progress, sat_add. simpl. f_equal. destruct (led_bounded l t p Hi Hp). lia.
  - replace d with 0%N by lia. by split_and!.
Qed.

Lemma note_salvaged_fold by_ticket ts l :
  led_inv l -> NoDup ts -> (forall t, t ∈ ts -> unsettled l t) ->
  ledger_moves l (foldl (note_salvaged by_ticket) l ts) (fun u =>
    if decide (u ∈ ts) then ticket_after (led_state l u) (kept_of by_ticket u) (dropped_of by_ticket u) false
    else led_state l u).
Proof.
  revert l. induction ts as [|t ts IH]; intros l Hi Hnd Hu.
  { split_and!; [done|done|]. intros u. by rewrite decide_False by set_solver. }
  apply NoDup_cons in Hnd as [Hni Hnd]. cbn [foldl].
  destruct (note_salvaged_moves by_ticket l t Hi) as (Hi1 & His1 & Hst1); [apply Hu; left|].
  destruct (IH (note_salvaged by_ticket l t) Hi1 Hnd) as (Hi2 & His2 & Hst2).
  { intros u Hin. unfold unsettled. rewrite Hst1, decide_False by congruence. apply Hu. by right. }
  split_and!; [done|congruence|]. intros u. rewrite Hst2, Hst1.
  destruct (decide (u = t)) as [->|Hne].
  - rewrite decide_False by done. by rewrite decide_True by left.
  - destruct (decide (u ∈ ts)); [by rewrite decide_True by (by right)|by rewrite decide_False by set_solver].
Qed.

(** ** A whole batch *)

Lemma seg_count_zero t segs : seg_count (fun _ => 0) t segs = 0%N.
Proof.
  unfold seg_count. rewrite sum_with_zero; [done|]. intros g _. by destruct (decide _).
Qed.

(** Counting through the segments or through the records is the same. *)
Lemma seg_count_records t (records : list LogRecord) segs :
  length (expand_segments segs) = length records ->
  count_ticket t (zip records (expand_segments segs)) = seg_count seg_records t segs.
Proof.
  revert records. induction segs as [|g segs IH]; intros records Hl.
  { by destruct records. }
  rewrite expand_segments_cons in *. rewrite length_app, length_replicate in Hl.
  rewrite <- (take_drop (seg_records g) records).
  assert (length (take (seg_records g) records) = seg_records g) as Ht by (rewrite length_take; lia).
  rewrite zip_app_lengths by (by rewrite length_replicate).
  rewrite count_ticket_app, IH by (rewrite length_drop; lia). rewrite seg_count_cons. f_equal.
  generalize (take (seg_records g) records), Ht. generalize (seg_records g). clear.
  intros n l. revert n. induction l as [|r l IHl]; intros [|n] Hn; simpl in *; try done.
  { by destruct (decide _). }
  rewrite count_ticket_cons, IHl by lia. simpl. destruct (decide _); lia.
Qed.

Lemma elem_of_dedup x l : x ∈ dedup l <-> x ∈ l.
Proof.
  induction l as [|y l IH]; [done|]. cbn [dedup]. destruct l as [|z l']; [done|].
  destruct (N.eqb_spec y z) as [->|Hne].
  - rewrite IH, !elem_of_cons. tauto.
  - rewrite !elem_of_cons in *. rewrite IH. tauto.
Qed.

Lemma NoDup_dedup l : StronglySorted N.le l -> NoDup (dedup l).
Proof.
  induction l as [|y l IH]; intros Hs; [constructor|].
  apply StronglySorted_cons in Hs as [Hh Hs]. specialize (IH Hs). cbn [dedup].
  destruct l as [|z l']; [apply NoDup_singleton|]. destruct (N.eqb_spec y z) as [->|Hne]; [done|].
  apply NoDup_cons. split; [|done]. rewrite elem_of_dedup. intros Hin.
  apply Forall_cons in Hh as [Hyz Hh]. apply StronglySorted_cons in Hs as [Hz _].
  rewrite Forall_forall in Hz. apply elem_of_cons in Hin as [->|Hin]; [done|].
  specialize (Hz _ Hin). lia.
Qed.

Lemma commit_seqs_spec b :
  command_ok (InsertLogs b) ->
  NoDup (lwb_commit_seqs b) /\
  forall t, t ∈ lwb_commit_seqs b <-> t ∈ (seg_commit_seq <$> lwb_segments b).
Proof.
  intros (_ & _ & -> & _). split.
  - apply NoDup_dedup, StronglySorted_merge_sort; [intros ???; lia|intros ??; lia].
  - intros t. by rewrite elem_of_dedup, merge_sort_Permutation.
Qed.

(** [settle_log_batch] on a batch of the batcher: for each ticket of the batch
    the kept and dropped records are added to its progress, and it settles
    exactly when nothing of it comes [later]; no other ticket changes. *)
Lemma settle_log_batch_spec now_ms l b salvage later kept gone :
  command_ok (InsertLogs b) -> led_inv l ->
  (forall t, t ∈ (seg_commit_seq <$> lwb_segments b) -> t ≠ 0%N /\ unsettled l t /\ (t <= led_issued l)%N) ->
  complete_ok (lwb_segments b) later ->
  match salvage with
  | None => kept = command_records (InsertLogs b) /\ gone = []
  | Some o => forall t, t ≠ 0%N -> kept_of (so_by_ticket o) t = count_ticket t kept /\
      dropped_of (so_by_ticket o) t = count_ticket t gone
  end ->
  ledger_moves l (settle_log_batch now_ms l b salvage) (fun u =>
    if decide (u ∈ (seg_commit_seq <$> lwb_segments b))
    then ticket_after (led_state l u) (count_ticket u kept) (count_ticket u gone) (bool_decide (u ∉ later))
    else led_state l u).
Proof.
  intros Hok Hi Huns Hco Hs. pose proof Hok as (Hl & Hpos & _ & Hne).
  unfold settle_log_batch.
  assert (forall A (x y : A), (match lwb_segments b with [] => x | _ => y end) = y) as Hbr.
  { intros A x y. destruct (lwb_segments b); [|done]. simpl in Hl. unfold WriteBatch_len in *. lia. }
  rewrite Hbr. clear Hbr. destruct salvage as [o|].
  - destruct (commit_seqs_spec b Hok) as [Hnd Hmem].
    destruct (note_salvaged_fold (so_by_ticket o) (lwb_commit_seqs b) l Hi Hnd) as (Hi1 & His1 & Hst1).
    { intros t Ht%Hmem. by apply Huns. }
    destruct (segment_fold_spec (complete_segment now_ms) (fun _ => 0) (lwb_segments b) later
      (foldl (note_salvaged (so_by_ticket o)) l (lwb_commit_seqs b))) as (Hi2 & His2 & Hst2); [|done| |done|].
    { intros. by apply complete_segment_moves. }
    { intros t Ht. destruct (Huns t Ht) as (_ & Hu & ?). rewrite His1. split; [|done].
      unfold unsettled. rewrite Hst1, decide_True by (by apply Hmem). by apply ticket_after_unsettled. }
    split_and!; [done|congruence|]. intros u. rewrite Hst2, Hst1, seg_count_zero.
    destruct (decide (u ∈ _)) as [Hin|Hout].
    + rewrite decide_True by (by apply Hmem). rewrite ticket_after_compose, !N.add_0_r.
      destruct (Huns u Hin) as (Hnz & _). destruct (Hs u Hnz) as [-> ->]. done.
    + by rewrite decide_False by (by rewrite Hmem).
  - destruct Hs as [-> ->].
    destruct (segment_fold_spec (settle_segment now_ms) seg_records (lwb_segments b) later l) as (Hi2 & His2 & Hst2);
      [intros; by apply settle_segment_moves|done|intros t Ht; by apply Huns|done|].
    split_and!; [done|done|]. intros u. rewrite Hst2. case_decide; [|done]. f_equal.
    cbn [command_records]. by rewrite seg_count_records.
Qed.

(** An insert command: either everything fails and neither the database nor the
    ledger changed, or each record is committed or counted as quarantined and
    the ledger says so. *)
Definition insert_outcome (w w' : Writer) (b : LogWriteBatch) (later : list N)
    (kept gone : list (LogRecord * N)) : Prop :=
  kept ++ gone ≡ₚ command_records (InsertLogs b) /\
  persisted b (durable (w_conn w)) (durable (w_conn w')) kept /\
  tallied (w_stats w) (w_stats w') (N.of_nat (length kept)) (N.of_nat (length gone)) /\
  ledger_moves (w_ledger w) (w_ledger w') (fun u =>
    if decide (u ∈ (seg_commit_seq <$> lwb_segments b))
    then ticket_after (led_state (w_ledger w) u) (count_ticket u kept) (count_ticket u gone)
           (bool_decide (u ∉ later))
    else led_state (w_ledger w) u).

Lemma execute_insert_spec now_ms now_unix w b later backlog :
  command_ok (InsertLogs b) -> led_inv (w_ledger w) ->
  (forall t, t ∈ (seg_commit_seq <$> lwb_segments b) ->
    t ≠ 0%N /\ unsettled (w_ledger w) t /\ (t <= led_issued (w_ledger w))%N) ->
  complete_ok (lwb_segments b) later ->
  match execute now_ms now_unix w (InsertLogs b) backlog with
  | (w', Err _) => durable (w_conn w') = durable (w_conn w) /\ w_ledger w' = w_ledger w /\
      tallied (w_stats w) (w_stats w') 0 0
  | (w', Ok _) => exists kept gone, insert_outcome w w' b later kept gone
  end.
Proof.
  intros Hok Hi Huns Hco. destruct w as [c l s]. cbn [execute w_ledger w_conn] in *.
  assert (WriteBatch_is_empty (lwb_records b) = false) as ->.
  { destruct Hok as (_ & _ & _ & Hne). unfold WriteBatch_len, WriteBatch_is_empty in *.
    destruct (batch_records (lwb_records b)); simpl in *; [lia|done]. }
  pose proof (persist_batch_spec now_ms c (add_received 1 s) b Hok) as Hp.
  assert (forall s' k g, tallied (add_received 1 s) s' k g -> tallied s s' k g) as Hfrom.
  { intros s' k g H. exact (tallied_trans _ _ _ _ _ _ _ (tallied_same s (add_received 1 s) eq_refl eq_refl) H). }
  destruct (persist_with_policy _ _ _ _ _) as [[c' s'] [[o|]|e]].
  3: { destruct Hp. split_and!; [done|done|by apply Hfrom]. }
  - destruct Hp as (kept & gone & Hperm & Hpers & Hn & Hk & Hg & Ht). exists kept, gone.
    split; [done|]. split; [done|]. simpl. rewrite <- Hk, <- Hg. split; [by apply Hfrom|]. by apply settle_log_batch_spec.
  - destruct Hp as [Hpers Hn]. exists (command_records (InsertLogs b)), [].
    split; [by rewrite app_nil_r|]. split; [done|]. split; [by apply Hfrom|]. simpl.
    by apply (settle_log_batch_spec now_ms l b None later).
Qed.

(** [k] strict transactions in a row that fail transiently. *)
Inductive transient_failures (now_ms : N) (strict : Conn -> Conn * result StorageError N)
    : nat -> Conn -> WriterStats -> Conn -> WriterStats -> Prop :=
| tf_none c s : transient_failures now_ms strict 0 c s c s
| tf_more k c s c1 s1 e c2 s2 :
    run_transaction now_ms c s strict = (c1, s1, Err (e, Retryable)) ->
    transient_failures now_ms strict k c1 (add_retries 1 s1) c2 s2 ->
    transient_failures now_ms strict (S k) c s c2 s2.

Lemma persist_loop_transient now_ms strict salvage k retries c s c1 s1 :
  transient_failures now_ms strict k c s c1 s1 -> k <= retries ->
  persist_loop retries now_ms c s strict salvage = persist_loop (retries - k) now_ms c1 s1 strict salvage.
Proof.
  intros H. revert retries. induction H as [c s|k c s c1 s1 e c2 s2 Hrun _ IH]; intros retries Hk.
  { by rewrite Nat.sub_0_r. }
  destruct retries as [|retries]; [lia|]. cbn [persist_loop]. rewrite Hrun. rewrite IH by lia. done.
Qed.

End writer.

Arguments Writer : clear implicits.

(** ** Claims *)

(** Executing an insert command is all or nothing and honest: on an error
    neither the committed database nor the ledger changed; on success the
    batch's records split into those whose rows were appended to the committed
    events, in order, and those quarantined, both counted, and each ticket of the batch gets
    exactly its kept and dropped counts, settling (as failed iff something of
    it was ever dropped) exactly when none of its records come later. *)
Theorem execute_insert_sound {Conn} `{!SqliteConn Conn, !SqliteLaws Conn} {L} `{!Ledger L, !LedgerLaws L}
    json sha256 now_ms now_unix (w : Writer Conn L) b later backlog :
  command_ok (InsertLogs b) -> led_inv (w_ledger w) ->
  (forall t, t ∈ (seg_commit_seq <$> lwb_segments b) ->
    t ≠ 0%N /\ unsettled (w_ledger w) t /\ (t <= led_issued (w_ledger w))%N) ->
  complete_ok (lwb_segments b) later ->
  match execute json sha256 now_ms now_unix w (InsertLogs b) backlog with
  | (w', Err _) => durable (w_conn w') = durable (w_conn w) /\ w_ledger w' = w_ledger w /\
      tallied (w_stats w) (w_stats w') 0 0
  | (w', Ok _) => exists kept gone, insert_outcome json sha256 w w' b later kept gone
  end.
Proof. intros. by apply execute_insert_spec. Qed.

(** Two records under ticket 1; the second violates a constraint, in the strict
    pass and again in the salvage pass. *)
Definition sample_batch : LogWriteBatch :=
  {| lwb_origin := BatchOrigin_default;
     lwb_records := from_vec [sample_record 1; sample_record 2];
     lwb_commit_seqs := [1%N];
     lwb_segments := [mk_segment 1 2 true] |}.

Definition constraint : option SqliteError := Some (SqliteFailure ConstraintViolation).
Definition busy : option SqliteError := Some (SqliteFailure DatabaseBusy).

Definition sample_writer (script : list (option SqliteError)) : Writer MemDb CommitLedger :=
  {| w_conn := MemDb_new script; w_ledger := (issue (CommitLedger.new 0)).2; w_stats := WriterStats_new 0 |}.

Definition no_json (d : SerdeValue) : string := "{}".
Definition no_sha (l : list byte) : list byte := [].

Lemma sample_batch_ok : command_ok (InsertLogs sample_batch).
Proof. split_and!; [done|apply Forall_singleton; simpl; lia|done|unfold WriteBatch_len; simpl; lia]. Qed.

Lemma sample_writer_inv script : led_inv (w_ledger (sample_writer script)).
Proof. apply issue_inv; [apply new_inv|done]. Qed.

Lemma execute_insert_sound_witness :
  let w := sample_writer [None; None; None; constraint; None; None; None; constraint] in
  exists w' kept gone, execute no_json no_sha 5 0 w (InsertLogs sample_batch) 0 = (w', Ok tt) /\
    insert_outcome no_json no_sha w w' sample_batch [] kept gone /\
    led_state (w_ledger w') 1 = Failed (mk_progress 1 1) /\ length (events (durable (w_conn w'))) = 1.
Proof.
  intros w.
  pose proof (execute_insert_sound no_json no_sha 5 0 w sample_batch [] 0 sample_batch_ok
    (sample_writer_inv _)) as H.
  destruct (execute no_json no_sha 5 0 w (InsertLogs sample_batch) 0) as [w' [[]|e]] eqn:He;
    [|by vm_compute in He].
  destruct H as (kept & gone & Ho).
  - intros t Ht%list_elem_of_singleton. subst t. split; [done|]. by split.
  - split; [|done]. split; [intros _; apply not_elem_of_nil|done].
  - exists w', kept, gone. split; [done|]. split; [done|].
    vm_compute in He. simplify_eq. by split.
Defined.

(** C27: transient contention is retried with the identical transaction, up to
    [MAX_TRANSIENT_RETRIES] times: after that many transient failures or fewer
    the outcome is that of the next attempt (a success is reported as clean),
    and one more transient failure makes the error fatal. *)
Theorem retry_policy_exact {Conn} `{!SqliteConn Conn} now_ms strict salvage k (c c1 : Conn) s s1 :
  transient_failures now_ms strict k c s c1 s1 -> k <= MAX_TRANSIENT_RETRIES ->
  match run_transaction now_ms c1 s1 strict with
  | (c2, s2, Ok _) => persist_with_policy now_ms c s strict salvage = (c2, s2, Ok None)
  | (c2, s2, Err (e, Retryable)) =>
      k = MAX_TRANSIENT_RETRIES -> persist_with_policy now_ms c s strict salvage = (c2, s2, Err e)
  | (c2, s2, Err (e, FatalClass)) => persist_with_policy now_ms c s strict salvage = (c2, s2, Err e)
  | (c2, s2, Err (_, Poison)) =>
      (persist_with_policy now_ms c s strict salvage).1 = (finish_salvage now_ms c2 s2 salvage).1
  end.
Proof.
  intros Htf Hk. unfold persist_with_policy. rewrite (persist_loop_transient _ _ _ _ _ _ _ _ _ Htf Hk).
  destruct (run_transaction now_ms c1 s1 strict) as [[c2 s2] [u|[e []]]] eqn:Hrun.
  - destruct (MAX_TRANSIENT_RETRIES - k); cbn [persist_loop]; by rewrite Hrun.
  - intros ->. rewrite Nat.sub_diag. cbn [persist_loop]. by rewrite Hrun.
  - destruct (MAX_TRANSIENT_RETRIES - k); cbn [persist_loop]; rewrite Hrun;
      by destruct (finish_salvage now_ms c2 s2 salvage) as [[c3 s3] []].
  - destruct (MAX_TRANSIENT_RETRIES - k); cbn [persist_loop]; by rewrite Hrun.
Qed.

(** Two transient failures, then success. *)
Lemma retry_policy_exact_witness :
  let strict tx := insert_logs no_json no_sha tx sample_batch in
  let salvage tx := insert_logs_tolerant no_json no_sha tx sample_batch in
  exists c2 s2, persist_with_policy 0 (MemDb_new [busy; busy]) (WriterStats_new 0) strict salvage
      = (c2, s2, Ok None) /\ transient_retries s2 = 2%N /\ length (events (durable c2)) = 2.
Proof.
  intros strict salvage.
  set (c1 := MemDb_new []). set (s1 := add_retries 1 (add_retries 1 (WriterStats_new 0))).
  assert (transient_failures 0 strict 2 (MemDb_new [busy; busy]) (WriterStats_new 0) c1 s1) as Htf.
  { eapply tf_more; [reflexivity|]. eapply tf_more; [reflexivity|]. constructor. }
  pose proof (retry_policy_exact 0 strict salvage 2 _ c1 _ s1 Htf ltac:(unfold MAX_TRANSIENT_RETRIES; lia)) as H.
  destruct (run_transaction 0 c1 s1 strict) as [[c2 s2] [u|]] eqn:Hr; [|by vm_compute in Hr].
  exists c2, s2. split; [exact H|]. vm_compute in Hr. simplify_eq. by split.
Defined.

(** The salvage pass is not retried and transient contention aborts it:
    with a poisoned batch and one BUSY at the start of the salvage transaction
    (and no later failure) the command fails with that retryable error after
    zero retries, nothing is committed, and the writer halts. *)
Theorem salvage_busy_is_fatal :
  let w := sample_writer [None; None; constraint; busy] in
  exists w', execute no_json no_sha 5 0 w (InsertLogs sample_batch) 0
      = (w', Err (SqliteErr (SqliteFailure DatabaseBusy))) /\
    class (SqliteErr (SqliteFailure DatabaseBusy)) = Retryable /\
    transient_retries (w_stats w') = 0%N /\ events (durable (w_conn w')) = [].
Proof. eexists. split; [reflexivity|]. by split_and!. Qed.

(** The delays of the four retries are 250 ms, 500 ms, 1 s and 2 s; later ones
    would stay at 4 s. *)
Lemma backoff_delay_spec attempt :
  backoff_delay attempt = from_millis (250 * 2 ^ N.of_nat (Nat.min attempt 4)).
Proof.
  assert (Nat.min attempt 4 <= 4) as H by lia. unfold backoff_delay. revert H.
  generalize (Nat.min attempt 4). intros n Hn. do 5 (destruct n as [|n]; [reflexivity|]). lia.
Qed.

(** Heavy operations are deferred under backlog pressure, and only then. *)
Lemma maintenance_deferred {Conn} `{!SqliteConn Conn} (c : Conn) op backlog now :
  MAINTENANCE_PRESSURE_SKIP_DEPTH < backlog -> is_Some (heavy_maintenance_label op) ->
  run_maintenance c op backlog now = (c, Ok false).
Proof.
  intros Hb [label Hl]. unfold run_maintenance. rewrite Hl.
  by rewrite (proj2 (Nat.ltb_lt _ _) Hb).
Qed.

End Writer.
