(* ===== verification/Retention.v ===== *)
(** * What retention may remove ([maintenance.rs], [writer.rs])

    The writer deletes rows on purpose in two places: a scheduled prune of
    expired events, and the size quota it enforces ahead of an insert.  This file
    says which runs of the two a received command causes, and that the rows of a
    database change by those runs and by nothing else. *)

From S2P Require Import Prelude Time Model Command CommitLedger Sqlite Rows Maintenance Writer.

Module Retention.
Import Time Model Command CommitLedger Sqlite Rows Maintenance Writer.

Local Open Scope list_scope.

(** A run of retention: the rows it found, and its cutoff or the rows it left. *)
Inductive Retention :=
| Pruned (cutoff : Z) (found : list EventRow)
| Evicted (found remaining : list EventRow).

(** The run accounts for the absence of the row: the row was there, and was
    expired or at most as recent as everything that stayed. *)
Definition accounts_for (run : Retention) (row : EventRow) : Prop :=
  match run with
  | Pruned cutoff found => row ∈ found /\ (ev_timestamp_ns row < cutoff)%Z
  | Evicted found remaining =>
      row ∈ found /\ Forall (fun e => (ev_timestamp_ns row <= ev_timestamp_ns e)%Z) remaining
  end.

Definition retired (runs : list Retention) (row : EventRow) : Prop :=
  Exists (fun run => accounts_for run row) runs.

(** From the rows [before] to [after] by appending [added], less what [runs]
    account for; without a run, nothing is removed and the order is kept. *)
Definition retains (runs : list Retention) (before after added : list EventRow) : Prop :=
  (exists removed, before ++ added ≡ₚ removed ++ after /\ Forall (retired runs) removed) /\
  (runs = [] -> after = before ++ added).

Lemma retired_app runs runs' row : retired (runs ++ runs') row <-> retired runs row \/ retired runs' row.
Proof. apply Exists_app. Qed.

Lemma retains_keep runs before added : retains runs before (before ++ added) added.
Proof. split; [|done]. by exists []. Qed.

Lemma retains_trans runs runs' l0 l1 l2 added added' :
  retains runs l0 l1 added -> retains runs' l1 l2 added' -> retains (runs ++ runs') l0 l2 (added ++ added').
Proof.
  intros [(r1 & Hp1 & Hr1) He1] [(r2 & Hp2 & Hr2) He2]. split.
  - exists (r1 ++ r2). split.
    + by rewrite app_assoc, Hp1, <- app_assoc, Hp2, app_assoc.
    + apply Forall_app. split; (eapply Forall_impl; [eassumption|]); intros row H; apply retired_app; auto.
  - intros [-> ->]%app_nil. by rewrite He2, He1, app_assoc by done.
Qed.

(** Rows once stored are stored or accounted for. *)
Lemma retains_present runs before after added :
  retains runs before after added ->
  exists removed, Forall (retired runs) removed /\ before ++ added ⊆+ removed ++ after.
Proof. intros [(removed & Hp & Hr) _]. exists removed. split; [done|]. by rewrite Hp. Qed.

Section retention.
Context {Conn : Type} `{!SqliteConn Conn, !SqliteLaws Conn}.
Context {L : Type} `{!Ledger L}.

Definition rows (c : Conn) : list EventRow := events (durable c).

(** The quota is enforced ahead of a command with records, on a database that
    exceeds it. *)
Definition quota_runs (quota : option N) (now_ms : N) (w : Writer Conn L) (command : WriteCommand)
    (backlog : nat) : list Retention :=
  match quota with
  | Some quota_bytes =>
      if negb (WriteCommand_record_count command =? 0) && negb (database_bytes (w_conn w) <=? quota_bytes)%N
      then [Evicted (rows (w_conn w)) (rows (w_conn (prepare quota now_ms w command backlog)))]
      else []
  | None => []
  end.

(** A prune runs unless it has no window or the queue is under pressure. *)
Definition prune_runs (c : Conn) (operation : MaintenanceOperation) (backlog : nat) (now_unix_nano : Z)
    : list Retention :=
  match operation with
  | Prune (Some window) =>
      if MAINTENANCE_PRESSURE_SKIP_DEPTH <? backlog then []
      else [Pruned (retention_cutoff now_unix_nano window) (rows c)]
  | _ => []
  end.

(** The runs of one received command. *)
Definition command_runs (quota : option N) (now_ms : N) (now_unix_nano : Z) (w : Writer Conn L)
    (command : WriteCommand) (backlog : nat) : list Retention :=
  quota_runs quota now_ms w command backlog ++
  match command with
  | Maintenance operation => prune_runs (w_conn w) operation backlog now_unix_nano
  | _ => []
  end.

Lemma retains_durable runs (c c' : Conn) : durable c' = durable c -> retains runs (rows c) (rows c') [].
Proof.
  intros H. unfold rows. rewrite H. rewrite <- (app_nil_r (events (durable c))) at 2. apply retains_keep.
Qed.

Lemma retains_deletes run (c c' : Conn) gone :
  deletes c c' gone -> Forall (accounts_for run) gone -> retains [run] (rows c) (rows c') [].
Proof.
  intros Hdel Hgone. split; [|done]. exists gone. rewrite app_nil_r. split; [exact Hdel|].
  eapply Forall_impl; [exact Hgone|]. intros row Hrow. by constructor.
Qed.

Lemma deletes_found (c c' : Conn) gone (P : EventRow -> Prop) :
  deletes c c' gone -> Forall P gone -> Forall (fun row => row ∈ rows c /\ P row) gone.
Proof.
  intros Hdel HP. rewrite Forall_forall in *. intros row Hrow. split; [|auto].
  unfold rows. rewrite Hdel, elem_of_app. by left.
Qed.

Lemma prepare_ledger quota now_ms (w : Writer Conn L) command backlog :
  w_ledger (prepare quota now_ms w command backlog) = w_ledger w.
Proof.
  unfold prepare, enforce_quota. destruct quota as [q|]; [|done].
  destruct (negb _); [|done]. simpl. case_match; [done|]. by destruct (enforce_size_quota _ _) as [c' []].
Qed.

Lemma prepare_tallied quota now_ms (w : Writer Conn L) command backlog :
  tallied (w_stats w) (w_stats (prepare quota now_ms w command backlog)) 0 0.
Proof.
  unfold prepare, enforce_quota. destruct quota as [q|]; [|by apply tallied_same].
  destruct (negb _); [|by apply tallied_same]. simpl. case_match; [by apply tallied_same|].
  destruct (enforce_size_quota _ _) as [c' []]; by apply tallied_same.
Qed.

(** A command without records leaves the quota alone. *)
Lemma prepare_conn quota now_ms (w : Writer Conn L) command backlog :
  WriteCommand_record_count command = 0 -> w_conn (prepare quota now_ms w command backlog) = w_conn w.
Proof. intros H. unfold prepare. rewrite H. by destruct quota. Qed.

Lemma prepare_retains quota now_ms (w : Writer Conn L) command backlog :
  retains (quota_runs quota now_ms w command backlog) (rows (w_conn w))
    (rows (w_conn (prepare quota now_ms w command backlog))) [].
Proof.
  unfold quota_runs, prepare, enforce_quota. destruct quota as [q|]; [|by apply retains_durable].
  destruct (negb (_ =? 0)); [|by apply retains_durable]. simpl.
  destruct (database_bytes (w_conn w) <=? q)%N; [by apply retains_durable|]. simpl.
  destruct (enforce_size_quota (w_conn w) q) as [c' r] eqn:He.
  apply enforce_size_quota_spec in He as (gone & Hdel & Hold & _ & _).
  assert (w_conn (match r with
      | Ok _ => {| w_conn := c'; w_ledger := w_ledger w;
                   w_stats := maintenance_end (ws_mark_progress now_ms (maintenance_begin now_ms (begin_command backlog (w_stats w)))) |}
      | Err _ => {| w_conn := c'; w_ledger := w_ledger w;
                    w_stats := maintenance_end (maintenance_begin now_ms (begin_command backlog (w_stats w))) |}
      end) = c') as -> by (by destruct r).
  eapply retains_deletes; [exact Hdel|]. eapply deletes_found; [exact Hdel|].
  apply Forall_forall. intros row Hrow. apply Forall_forall. intros e He. by apply Hold.
Qed.

Lemma analyze_same (c : Conn) : durable (analyze c).1 = durable c.
Proof. apply run_stmt_durable, analyze_durable. Qed.
Lemma vacuum_same (c : Conn) : durable (vacuum c).1 = durable c.
Proof.
  unfold vacuum. case_match; apply run_stmt_durable; [apply incremental_vacuum_durable|apply convert_vacuum_durable].
Qed.
Lemma rebuild_fts_same (c : Conn) : durable (rebuild_fts c).1 = durable c.
Proof. apply run_stmt_durable, rebuild_fts_durable. Qed.
Lemma checkpoint_same (c : Conn) mode : durable (checkpoint c mode).1 = durable c.
Proof. apply run_stmt_durable, checkpoint_durable. Qed.

Lemma run_maintenance_retains (c : Conn) operation backlog now_unix_nano :
  retains (prune_runs c operation backlog now_unix_nano) (rows c)
    (rows (run_maintenance c operation backlog now_unix_nano).1) [].
Proof.
  unfold run_maintenance, prune_runs. destruct operation as [| | |[window|]]; simpl; rewrite ?andb_false_r, ?andb_true_r.
  - pose proof (analyze_same c). destruct (analyze c) as [c' []]; by apply retains_durable.
  - case_match; [by apply retains_durable|]. pose proof (vacuum_same c).
    destruct (vacuum c) as [c' []]; by apply retains_durable.
  - case_match; [by apply retains_durable|]. pose proof (rebuild_fts_same c).
    destruct (rebuild_fts c) as [c' []]; by apply retains_durable.
  - case_match; [by apply retains_durable|].
    destruct (prune_deletes c window now_unix_nano) as (gone & Hdel & Hexp).
    destruct (prune c (Some window) now_unix_nano) as [c' r]. simpl in *.
    destruct r; (eapply retains_deletes; [exact Hdel|]); by eapply deletes_found.
  - by apply retains_durable.
Qed.

End retention.

End Retention.
