(* ===== verification/Pipeline.v ===== *)
(** * The whole ingest pipeline

    Ingress, insert batcher and SQLite writer running as three threads over the
    two queues and the shared commit ledger, wired as [Storage::open]
    ([crates/otel-sqlite-storage/src/lib.rs]) and the export handler wire them.
    A step of the system is one admission of a chunk, one iteration of the
    batcher's loop, one command of the writer, or the end of a thread, in any
    interleaving.  Retention deletes rows on purpose, ahead of an insert when the
    database exceeds its quota and on a scheduled prune: the runs are logged, and
    the theorems say that nothing else removes a row. *)

From S2P Require Import Prelude Time Model Text Render Command CommitLedger InsertBatcher OriginBuffers Enqueue Mapping Handler BatcherDriver Sqlite Rows Maintenance Writer Retention.

Module Pipeline.
Import Time Model Command CommitLedger InsertBatcher OriginBuffers BatcherDriver Sqlite Rows Writer Retention.

Local Open Scope list_scope.

(** Records tagged with their ticket. *)
Abbreviation tagged := (list (LogRecord * N)) (only parsing).

Section pipeline.
Context (json : SerdeValue -> string) (sha256 : list byte -> list byte).
Context {Conn : Type} `{!SqliteConn Conn, !SqliteLaws Conn}.
Context (quota writer_fault batcher_fault : option N).

(** The batcher's driver holds the two things the threads share with it: the
    command queue and the ledger.  [sy_accepted] logs the admitted records and
    [sy_retention] the runs of retention. *)
Record System := {
  sy_input : list IngestMessage;
  sy_driver : Driver CommitLedger;
  sy_batcher_done : bool;
  sy_conn : Conn;
  sy_stats : WriterStats;
  sy_processed : N;
  sy_writer_alive : bool;
  sy_accepted : tagged;
  sy_retention : list Retention;
}.

Definition sy_ledger (s : System) : CommitLedger := ledger (sy_driver s).
Definition sy_queue (s : System) : list WriteCommand := ch_queue (channel (sy_driver s)).

Definition sy_start (cfg : InsertBatcherConfig) (c : Conn) (now_ms : N) : System :=
  {| sy_input := []; sy_driver := BatcherDriver.start cfg None (CommitLedger.new now_ms) now_ms;
     sy_batcher_done := false; sy_conn := c; sy_stats := WriterStats_new now_ms; sy_processed := 0;
     sy_writer_alive := true; sy_accepted := []; sy_retention := [] |}.

(** What [open] hears from a thread it started. *)
Inductive Ready :=
| ReadyOk
| ReadyFailed (message : string)
| ReadyTimeout
| ReadyDisconnected.

(** [Storage::open]: the writer must have bootstrapped the database and the
    batcher must be running before the pipeline is handed out; the batcher's
    signal carries no failure. *)
Definition Storage_open (cfg : InsertBatcherConfig) (startup_timeout : Duration)
    (writer_ready batcher_ready : Ready) (c : Conn) (now_ms : N) : result StorageError System :=
  if max_batch_records cfg =? 0 then
    Err (StartupFailed "insert_batcher.max_batch_records must be at least 1")
  else
    match writer_ready with
    | ReadyFailed message => Err (StartupFailed message)
    | ReadyTimeout => Err (StartupTimeout (startup_timeout / NANOS_PER_SEC)%N)
    | ReadyDisconnected => Err WriterPanicked
    | ReadyOk =>
        match batcher_ready with
        | ReadyTimeout => Err (StartupTimeout (startup_timeout / NANOS_PER_SEC)%N)
        | ReadyDisconnected => Err BatcherPanicked
        | ReadyOk | ReadyFailed _ => Ok (sy_start cfg c now_ms)
        end
    end.

(** [StorageStatsSnapshot] and [Storage::stats]. *)
Record StorageStatsSnapshot := {
  snap_records_written : N;
  snap_transactions_committed : N;
  snap_batches_received : N;
  snap_maintenance_runs : N;
  snap_errors : N;
  snap_quarantined_records : N;
  snap_transient_retries : N;
  snap_queue_depth : nat;
  snap_chunks_ingested : N;
  snap_write_batches_emitted : N;
  snap_timer_flushes : N;
  snap_dropped_records : N;
}.

Definition Storage_stats (s : System) : StorageStatsSnapshot :=
  let st := sy_stats s in
  let batcher := stats (sy_driver s) in
  {| snap_records_written := records_written st;
     snap_transactions_committed := transactions_committed st;
     snap_batches_received := batches_received st;
     snap_maintenance_runs := maintenance_runs st;
     snap_errors := errors st;
     snap_quarantined_records := quarantined_records st;
     snap_transient_retries := transient_retries st;
     snap_queue_depth := queue_depth st;
     snap_chunks_ingested := chunks_ingested batcher;
     snap_write_batches_emitted := batches_emitted batcher;
     snap_timer_flushes := timer_flushes batcher;
     snap_dropped_records := dropped_records batcher |}.

Definition set_ledger (d : Driver CommitLedger) (l : CommitLedger) : Driver CommitLedger :=
  {| logs := logs d; stats := stats d; channel := channel d; ledger := l; alive := alive d;
     events_processed := events_processed d |}.

(** The command queue with other contents; [gone] once its receiver is dropped. *)
Definition set_queue (d : Driver CommitLedger) (q : list WriteCommand) (gone : bool)
    (l : CommitLedger) : Driver CommitLedger :=
  {| logs := logs d; stats := stats d;
     channel := {| ch_queue := q;
                   ch_accepts := if gone then Some 0 else ch_accepts (channel d);
                   ch_returned := ch_returned (channel d);
                   ch_sender_dropped := ch_sender_dropped (channel d) |};
     ledger := l; alive := alive d; events_processed := events_processed d |}.

Definition sy_writer (s : System) : Writer Conn CommitLedger :=
  {| w_conn := sy_conn s; w_ledger := sy_ledger s; w_stats := sy_stats s |}.

(** Commands other threads put on the queue: the scheduler's. *)
Definition scheduled_command (c : WriteCommand) : bool :=
  match c with
  | Checkpoint _ | Maintenance _ => true
  | InsertLogs _ | Flush => false
  end.

(** The writer's reaction to the head of its queue. *)
Definition write_one (s : System) (c : WriteCommand) (q : list WriteCommand) (now_ms : N) (now_unix : Z)
    : Writer Conn CommitLedger * result StorageError N :=
  handle_command json sha256 quota writer_fault now_ms now_unix (sy_writer s) (sy_processed s) c (length q).

(** The runs of retention it causes. *)
Definition write_runs (s : System) (c : WriteCommand) (q : list WriteCommand) (now_ms : N) (now_unix : Z)
    : list Retention :=
  command_runs quota now_ms now_unix (sy_writer s) c (length q).

(** A ticket is issued for a chunk and the chunk is queued with it. *)
Definition take_in (s : System) (chunk : LogChunk) : System :=
  let t := (issue (sy_ledger s)).1 in
  {| sy_input := sy_input s ++ [set_commit_seq (Logs chunk) t];
     sy_driver := set_ledger (sy_driver s) (issue (sy_ledger s)).2;
     sy_batcher_done := sy_batcher_done s; sy_conn := sy_conn s; sy_stats := sy_stats s;
     sy_processed := sy_processed s; sy_writer_alive := sy_writer_alive s;
     sy_accepted := sy_accepted s ++ with_ticket t (chunk_records chunk);
     sy_retention := sy_retention s |}.

(** The send fails (no receiver, or a full queue) and the ticket is voided. *)
Definition turn_away (s : System) (now_ms : N) : System :=
  {| sy_input := sy_input s;
     sy_driver := set_ledger (sy_driver s)
                    (void now_ms (issue (sy_ledger s)).2 (issue (sy_ledger s)).1);
     sy_batcher_done := sy_batcher_done s; sy_conn := sy_conn s; sy_stats := sy_stats s;
     sy_processed := sy_processed s; sy_writer_alive := sy_writer_alive s;
     sy_accepted := sy_accepted s; sy_retention := sy_retention s |}.

Inductive step : System -> System -> Prop :=
(** [enqueue]: one chunk of an admitted request. *)
| step_accept s chunk :
    sy_batcher_done s = false -> (next_ticket (sy_ledger s) < u64_max)%N -> step s (take_in s chunk)
(** [enqueue]: a send that fails. *)
| step_refuse s now_ms :
    (next_ticket (sy_ledger s) < u64_max)%N -> step s (turn_away s now_ms)
(** A flush barrier on the ingest queue. *)
| step_flush s :
    sy_batcher_done s = false ->
    step s {| sy_input := sy_input s ++ [IngestFlush]; sy_driver := sy_driver s;
              sy_batcher_done := false; sy_conn := sy_conn s; sy_stats := sy_stats s;
              sy_processed := sy_processed s; sy_writer_alive := sy_writer_alive s;
              sy_accepted := sy_accepted s; sy_retention := sy_retention s |}
(** A scheduled command on the command queue. *)
| step_schedule s c :
    sy_writer_alive s = true -> scheduled_command c = true ->
    step s {| sy_input := sy_input s;
              sy_driver := set_queue (sy_driver s) (sy_queue s ++ [c]) false (sy_ledger s);
              sy_batcher_done := sy_batcher_done s; sy_conn := sy_conn s; sy_stats := sy_stats s;
              sy_processed := sy_processed s; sy_writer_alive := true; sy_accepted := sy_accepted s;
       sy_retention := sy_retention s |}
(** One iteration of the batcher's loop: a message or the timer. *)
| step_batch s w rest now now_ms d' :
    sy_batcher_done s = false -> alive (sy_driver s) = true ->
    (exists m, w = Received m /\ sy_input s = m :: rest) \/ (w = TimedOut /\ rest = sy_input s) ->
    iteration batcher_fault w now now_ms (sy_driver s) = Some (Continue d') ->
    step s {| sy_input := rest; sy_driver := d'; sy_batcher_done := false; sy_conn := sy_conn s;
              sy_stats := sy_stats s; sy_processed := sy_processed s;
              sy_writer_alive := sy_writer_alive s; sy_accepted := sy_accepted s; sy_retention := sy_retention s |}
(** The batcher's loop ends (input closed and drained, injected fault, or dead
    writer), it flushes and its receiver is dropped with what it holds. *)
| step_batcher_exit s w now now_ms d0 d' :
    sy_batcher_done s = false ->
    (alive (sy_driver s) = false /\ d0 = sy_driver s) \/
    (alive (sy_driver s) = true /\ (batcher_fault = None -> w = InputClosed /\ sy_input s = []) /\
     iteration batcher_fault w now now_ms (sy_driver s) = Some (Break d0)) ->
    finish now_ms d0 = Some d' ->
    step s {| sy_input := []; sy_driver := d'; sy_batcher_done := true; sy_conn := sy_conn s;
              sy_stats := sy_stats s; sy_processed := sy_processed s;
              sy_writer_alive := sy_writer_alive s; sy_accepted := sy_accepted s; sy_retention := sy_retention s |}
(** The writer executes a command. *)
| step_write s c q now_ms now_unix w' processed' :
    sy_writer_alive s = true -> sy_queue s = c :: q ->
    write_one s c q now_ms now_unix = (w', Ok processed') ->
    step s {| sy_input := sy_input s;
              sy_driver := set_queue (sy_driver s) q false (w_ledger w');
              sy_batcher_done := sy_batcher_done s; sy_conn := w_conn w'; sy_stats := w_stats w';
              sy_processed := processed'; sy_writer_alive := true; sy_accepted := sy_accepted s;
              sy_retention := sy_retention s ++ write_runs s c q now_ms now_unix |}
(** The writer halts on a command; the queue is discarded, the ledger closed. *)
| step_halt s c q now_ms now_unix w' e :
    sy_writer_alive s = true -> sy_queue s = c :: q ->
    write_one s c q now_ms now_unix = (w', Err e) ->
    step s {| sy_input := sy_input s;
              sy_driver := set_queue (sy_driver s) [] true (close (w_ledger w'));
              sy_batcher_done := sy_batcher_done s; sy_conn := w_conn w';
              sy_stats := ws_set_running false (w_stats w');
              sy_processed := sy_processed s; sy_writer_alive := false; sy_accepted := sy_accepted s;
              sy_retention := sy_retention s ++ write_runs s c q now_ms now_unix |}
(** The writer drained a queue whose senders are gone: final checkpoint, then it
    closes the ledger. *)
| step_writer_exit s :
    sy_writer_alive s = true -> sy_queue s = [] -> ch_sender_dropped (channel (sy_driver s)) = true ->
    step s {| sy_input := sy_input s;
              sy_driver := set_queue (sy_driver s) [] true (close (sy_ledger s));
              sy_batcher_done := sy_batcher_done s;
              sy_conn := (Maintenance.checkpoint (sy_conn s) Truncate).1;
              sy_stats := ws_set_running false (set_queue_depth 0 (sy_stats s));
              sy_processed := sy_processed s; sy_writer_alive := false; sy_accepted := sy_accepted s;
              sy_retention := sy_retention s |}
(** The writer panics on a command, before or after enforcing the quota and with
    its transaction rolled back: the guards of the unwinding thread clear its
    flags and close the ledger ([LedgerCloseOnDrop]). *)
| step_panic s c q now_ms conn' :
    sy_writer_alive s = true -> sy_queue s = c :: q ->
    let w := sy_writer s in
    let prepared := prepare quota now_ms w c (length q) in
    durable conn' = durable (w_conn prepared) ->
    step s {| sy_input := sy_input s;
              sy_driver := set_queue (sy_driver s) [] true (close (sy_ledger s));
              sy_batcher_done := sy_batcher_done s; sy_conn := conn';
              sy_stats := ws_set_running false (end_command (w_stats prepared));
              sy_processed := sy_processed s; sy_writer_alive := false; sy_accepted := sy_accepted s;
              sy_retention := sy_retention s ++ quota_runs quota now_ms w c (length q) |}.

Inductive reachable_from (s0 : System) : System -> Prop :=
| rf_start : reachable_from s0 s0
| rf_step s s' : reachable_from s0 s -> step s s' -> reachable_from s0 s'.

(** ** What is in flight *)

(** Records and tickets of the messages of the ingest queue. *)
Definition message_tagged (m : IngestMessage) : tagged :=
  match m with
  | Logs chunk => with_ticket (chunk_commit_seq chunk) (chunk_records chunk)
  | IngestFlush => []
  end.
Definition input_records (ms : list IngestMessage) : tagged := ms ≫= message_tagged.
Definition input_tickets (ms : list IngestMessage) : list N := omap commit_seq ms.

Definition pending (d : Driver CommitLedger) : tagged :=
  records_of (emitted (channel d)) ++ attributed_all (logs d).

(** The part of the driver's invariant that survives the end of its thread. *)
Record parts_inv (d : Driver CommitLedger) : Prop := {
  pi_buffers : buffers_inv (logs d);
  pi_commands : Forall command_ok (emitted (channel d));
  pi_complete : complete_ok (segments_of (emitted (channel d))) (buffered_tickets (logs d));
}.

(** Where the accepted records went: rows appended by committed transactions
    (each with the resource key of its row), records dropped by a salvage pass,
    records discarded with a queue, and the tickets discarded with a queue. *)
Record History := {
  stored_rows : list (string * (LogRecord * N));
  quarantined : tagged;
  lost : tagged;
  abandoned : list N;
}.
Definition stored (h : History) : tagged := (stored_rows h).*2.
Definition rows_of (h : History) : list EventRow :=
  (fun x => event_row json x.1 x.2.1) <$> stored_rows h.

Definition History_new : History :=
  {| stored_rows := []; quarantined := []; lost := []; abandoned := [] |}.
Definition note_written (h : History) (rid : string) (kept gone : tagged) : History :=
  {| stored_rows := stored_rows h ++ (pair rid <$> kept); quarantined := quarantined h ++ gone;
     lost := lost h; abandoned := abandoned h |}.
Definition note_lost (h : History) (records : tagged) (ts : list N) : History :=
  {| stored_rows := stored_rows h; quarantined := quarantined h;
     lost := lost h ++ records; abandoned := abandoned h ++ ts |}.

(** A ticket's books: what its state says against where its records went. *)
Definition accounted (acc : tagged) (h : History) (u : N) (s : TicketState) : Prop :=
  match s with
  | Unsettled p =>
      committed p = N.min u64_max (count_ticket u (stored h)) /\
      dropped p = N.min u64_max (count_ticket u (quarantined h))
  | Completed =>
      count_ticket u (quarantined h) = 0%N /\
      count_ticket u (stored h) = count_ticket u acc
  | Failed p =>
      committed p = N.min u64_max (count_ticket u (stored h)) /\
      dropped p = N.min u64_max (count_ticket u (quarantined h)) /\
      (0 < count_ticket u (quarantined h))%N /\
      (count_ticket u (stored h) + count_ticket u (quarantined h) = count_ticket u acc)%N
  end.

(** The commands that can be on the queue. *)
Definition pipeline_command (c : WriteCommand) : Prop :=
  match c with InsertLogs _ | Flush => True | c => scheduled_command c = true end.

(** The writer's counters against the books. *)
Definition counted (st : WriterStats) (h : History) : Prop :=
  (records_written st = N.of_nat (length (stored h)) mod 2 ^ 64)%N /\
  (quarantined_records st = N.of_nat (length (quarantined h)) mod 2 ^ 64)%N.

Record system_inv (base : list EventRow) (s : System) (h : History) : Prop := {
  si_parts : parts_inv (sy_driver s);
  si_driver : sy_batcher_done s = false -> driver_inv (sy_driver s) (pending (sy_driver s));
  si_ledger : ledger_inv (sy_ledger s);
  si_events : retains (sy_retention s) base (rows (sy_conn s)) (rows_of h);
  si_conserve : stored h ++ quarantined h ++ lost h ++ pending (sy_driver s) ++
      input_records (sy_input s) ≡ₚ sy_accepted s;
  si_input_nodup : NoDup (input_tickets (sy_input s));
  si_input_fresh : forall u, u ∈ input_tickets (sy_input s) ->
    u ∉ (stored h ++ quarantined h ++ lost h ++ pending (sy_driver s)).*2;
  si_live : forall u, u ∈ (pending (sy_driver s)).*2 \/ u ∈ input_tickets (sy_input s) ->
    u ≠ 0%N /\ settled_state (state (sy_ledger s) u) = false;
  si_issued : forall u, u ∈ (sy_accepted s).*2 \/ u ∈ input_tickets (sy_input s) ->
    (u <= next_ticket (sy_ledger s))%N;
  si_accounts : forall u, u ≠ 0%N -> accounted (sy_accepted s) h u (state (sy_ledger s) u);
  si_leak : forall u, u ≠ 0%N -> (u <= next_ticket (sy_ledger s))%N ->
    settled_state (state (sy_ledger s) u) = false ->
    u ∈ (pending (sy_driver s)).*2 \/ u ∈ input_tickets (sy_input s) \/ u ∈ abandoned h;
  si_lost : sy_writer_alive s = true -> forall u, u ∈ (lost h).*2 -> u ∉ (pending (sy_driver s)).*2;
  si_healthy : sy_writer_alive s = true ->
    ch_accepts (channel (sy_driver s)) = None /\ ch_returned (channel (sy_driver s)) = [] /\
    alive (sy_driver s) = true /\
    (sy_batcher_done s = true -> buffers (logs (sy_driver s)) = []) /\
    (batcher_fault = None -> lost h = [] /\ abandoned h = []);
  si_commands : Forall pipeline_command (emitted (channel (sy_driver s)));
  si_drained : sy_batcher_done s = true -> sy_input s = [];
  si_tally : counted (sy_stats s) h;
}.

(** ** Lemmas: tickets and counts *)

Lemma count_ticket_zero u l : count_ticket u l = 0%N <-> u ∉ l.*2.
Proof.
  unfold count_ticket. split.
  - intros H Hin. apply list_elem_of_fmap in Hin as ([r t] & -> & Hr). simpl in H.
    assert ((r, t) ∈ filter (fun p => p.2 = t) l) as Hf by (by apply list_elem_of_filter).
    destruct (filter (fun p => p.2 = t) l); [by apply not_elem_of_nil in Hf|done].
  - intros H. rewrite filter_none; [done|]. apply Forall_forall. intros [r t] Hr Heq. apply H.
    apply list_elem_of_fmap. by exists (r, t).
Qed.

Lemma count_ticket_pos u l : (0 < count_ticket u l)%N <-> u ∈ l.*2.
Proof.
  destruct (decide (u ∈ l.*2)) as [Hin|Hout].
  - split; [done|]. intros _. destruct (N.eq_0_gt_0_cases (count_ticket u l)) as [H|]; [|done].
    by apply count_ticket_zero in H.
  - apply count_ticket_zero in Hout as Hz. split; [lia|done].
Qed.

Lemma elem_of_concat_replicate {A} (f : A -> N) (n : A -> nat) (l : list A) u :
  Forall (fun x => 0 < n x) l ->
  u ∈ concat ((fun x => replicate (n x) (f x)) <$> l) <-> u ∈ (f <$> l).
Proof.
  induction 1 as [|x l Hx _ IH]; [done|]. rewrite !fmap_cons. cbn [concat].
  rewrite elem_of_app, elem_of_replicate, IH, elem_of_cons. naive_solver lia.
Qed.

Lemma command_tickets c u :
  command_ok c -> u ∈ (command_records c).*2 <-> u ∈ (seg_commit_seq <$> command_segments c).
Proof.
  destruct c as [b| | |]; simpl; try done. intros (Hl & Hpos & _). unfold WriteBatch_len in Hl.
  rewrite snd_zip by lia. by apply elem_of_concat_replicate.
Qed.

Lemma records_of_tickets cs u :
  Forall command_ok cs -> u ∈ (records_of cs).*2 <-> u ∈ tickets_in cs.
Proof.
  unfold tickets_in. induction 1 as [|c cs Hc _ IH]; [done|].
  change (c :: cs) with ([c] ++ cs). rewrite records_of_app, segments_of_app, !fmap_app, !elem_of_app, IH.
  unfold records_of, segments_of. simpl. rewrite !app_nil_r. by rewrite command_tickets.
Qed.

Lemma buffered_attributed (o : OriginBuffers LogRecord) u :
  buffers_inv o -> u ∈ buffered_tickets o <-> u ∈ (attributed_all o).*2.
Proof.
  intros [_ Hall _]. unfold buffered_tickets, attributed_all.
  induction Hall as [|p l [_ _ Hs Hpos] _ IH]; [done|]. rewrite !fmap_cons. cbn [concat].
  rewrite fmap_app, !elem_of_app, IH. unfold attributed_buffer. rewrite snd_zip by lia.
  unfold expand. rewrite (elem_of_concat_replicate fst snd) by done. done.
Qed.

Lemma pending_tickets d u :
  parts_inv d ->
  u ∈ (pending d).*2 <-> u ∈ tickets_in (emitted (channel d)) \/ u ∈ buffered_tickets (logs d).
Proof.
  intros [Hb Hc _]. unfold pending. rewrite fmap_app, elem_of_app.
  by rewrite records_of_tickets, buffered_attributed.
Qed.

Lemma driver_parts d ing : driver_inv d ing -> parts_inv d /\ pending d ≡ₚ ing.
Proof. intros []. by split; [split|]. Qed.

Lemma driver_pending d ing : driver_inv d ing -> driver_inv d (pending d).
Proof.
  intros H. destruct (driver_parts d ing H) as [Hp _]. destruct H. split; try done.
  intros u. symmetry. by apply pending_tickets.
Qed.

(** The driver with another command queue. *)
Lemma driver_set_queue d ing q gone l :
  driver_inv d ing -> parts_inv (set_queue d q gone l) ->
  driver_inv (set_queue d q gone l) (pending (set_queue d q gone l)).
Proof.
  intros [Hb Hch Hr Hcmd Hcnt Hal Hnd Hco Htk] Hp. pose proof Hp as [_ Hc' Hco'].
  split; try done.
  - unfold channel_ok in *. destruct gone; simpl; [by right|done].
  - simpl in *. destruct (alive d); [done|]. by destruct gone.
  - intros u. symmetry. by apply pending_tickets.
Qed.

(** Dropping commands from the front of the queue. *)
Lemma parts_drop d dropped_cmds q gone l :
  parts_inv d -> ch_queue (channel d) = dropped_cmds ++ q -> parts_inv (set_queue d q gone l).
Proof.
  intros [Hb Hc Hco] Hq. unfold emitted in *. rewrite Hq, <- app_assoc in *.
  split; [done|by apply Forall_app in Hc as [_ ?]|]. simpl. unfold emitted. simpl.
  rewrite segments_of_app in Hco. by apply complete_ok_app in Hco as [_ ?].
Qed.

Lemma pending_drop d dropped_cmds q gone l :
  ch_queue (channel d) = dropped_cmds ++ q ->
  pending d = records_of dropped_cmds ++ pending (set_queue d q gone l).
Proof.
  intros Hq. unfold pending, emitted. simpl. by rewrite Hq, <- !app_assoc, records_of_app, app_assoc.
Qed.

(** ** Lemmas: what the batcher does to the command queue *)

Definition batcher_command (c : WriteCommand) : bool :=
  match c with InsertLogs _ | Flush => true | _ => false end.

Section channel_property.
Context (Q : Channel -> Prop).
Context (HQ : forall ch c, batcher_command c = true -> Q ch -> Q (send ch c).1).

Lemma submit_keeps ch c st : batcher_command c = true -> Q ch -> Q (submit ch c st).1.1.
Proof.
  intros Hc Hq. specialize (HQ ch c Hc Hq). unfold submit. by destruct (send ch c) as [ch' []].
Qed.

Lemma submit_all_keeps now_ms ch subs st a : Q ch -> Q (submit_all now_ms ch subs st a).1.1.
Proof.
  revert ch st a. induction subs as [|sub subs IH]; intros ch st a Hq; [done|]. simpl.
  pose proof (submit_keeps ch (InsertLogs (batch_of sub)) st eq_refl Hq) as H. unfold submit_log_batch.
  destruct (submit ch _ st) as [[ch1 s1] []]; apply IH; exact H.
Qed.

Lemma flush_buffers_keeps now_ms (d d' : Driver CommitLedger) :
  flush_buffers now_ms d = Some d' -> Q (channel d) -> Q (channel d').
Proof.
  unfold flush_buffers. intros H Hq. apply bind_Some in H as ([o subs] & _ & H).
  pose proof (submit_all_keeps now_ms (channel d) subs (stats d) (alive d) Hq) as Hs.
  destruct (submit_all _ _ _ _ _) as [[ch st] a]. by simplify_eq.
Qed.

Lemma handle_event_keeps now now_ms (d : Driver CommitLedger) e f :
  handle_event now now_ms d e = Some f -> Q (channel d) -> Q (channel (flow_driver f)).
Proof.
  intros H Hq. destruct e as [[chunk|]| |]; simpl in H.
  - destruct (LogChunk_is_empty chunk); [by simplify_eq|].
    apply bind_Some in H as ([o subs] & _ & H).
    match type of H with context [submit_all ?n ?c ?s ?st ?a] =>
      pose proof (submit_all_keeps n c s st a Hq) as Hs; destruct (submit_all n c s st a) as [[ch st'] a'] end.
    by simplify_eq.
  - apply bind_Some in H as (d' & Hf & H). apply flush_buffers_keeps in Hf; [|done].
    destruct (alive d'); [|by simplify_eq].
    pose proof (submit_keeps (channel d') Flush (stats d') eq_refl Hf) as Hs.
    destruct (submit _ _ _) as [[ch st] a]. by simplify_eq.
  - apply bind_Some in H as ([o subs] & _ & H).
    match type of H with context [submit_all ?n ?c ?s ?st ?a] =>
      pose proof (submit_all_keeps n c s st a Hq) as Hs; destruct (submit_all n c s st a) as [[ch st'] a'] end.
    by simplify_eq.
  - by simplify_eq.
Qed.

Lemma iteration_keeps w now now_ms (d : Driver CommitLedger) f :
  iteration batcher_fault w now now_ms d = Some f -> Q (channel d) -> Q (channel (flow_driver f)).
Proof.
  unfold iteration. intros H Hq.
  destruct batcher_fault as [limit|]; [destruct (limit <=? _)%N; [by simplify_eq|]|];
    apply bind_Some in H as (e & _ & H); by apply handle_event_keeps in H.
Qed.

End channel_property.

(** The end of the batcher's thread. *)
Lemma finish_parts now_ms (d d' : Driver CommitLedger) ing :
  driver_inv d ing -> finish now_ms d = Some d' ->
  exists d1, driver_inv d1 ing /\ (alive d = true -> flush_buffers now_ms d = Some d1) /\
    (alive d = false -> d1 = d) /\
    logs d' = logs d1 /\ alive d' = alive d1 /\ emitted (channel d') = emitted (channel d1) /\
    ch_queue (channel d') = ch_queue (channel d1) /\
    ch_returned (channel d') = ch_returned (channel d1) /\
    ch_accepts (channel d') = ch_accepts (channel d1) /\
    ledger d' = (if alive d1 then ledger d else close (ledger d)) /\
    (alive d1 = true -> buffers (logs d1) = []).
Proof.
  intros Hinv Hf. unfold finish in Hf.
  assert (exists d1, (if alive d then flush_buffers now_ms d else Some d) = Some d1 /\
    driver_inv d1 ing /\ ledger d1 = ledger d /\ (alive d1 = true -> buffers (logs d1) = []))
    as (d1 & Heq & Hinv1 & Hl & Hbuf).
  { destruct (alive d) eqn:Ha; [|by exists d; rewrite Ha].
    destruct (flush_buffers_spec now_ms d ing Hinv) as (d1 & ? & ? & ? & ? & _). eauto 10. }
  rewrite Heq in Hf. simpl in Hf. simplify_eq.
  exists d1. split; [done|]. split; [intros Ha; by rewrite Ha in Heq|].
  split; [intros Ha; rewrite Ha in Heq; by simplify_eq|].
  destruct (alive d1) eqn:Ha; simpl; rewrite ?Ha, ?Hl; by split_and!.
Qed.

(** ** Lemmas: bookkeeping *)

Lemma accounted_ext acc acc' h h' u s :
  count_ticket u (stored h') = count_ticket u (stored h) ->
  count_ticket u (quarantined h') = count_ticket u (quarantined h) ->
  (settled_state s = true -> count_ticket u acc' = count_ticket u acc) ->
  accounted acc h u s -> accounted acc' h' u s.
Proof. intros Hs Hq Ha. destruct s; simpl in *; rewrite Hs, Hq, ?Ha by done; done. Qed.

Lemma input_records_app a b : input_records (a ++ b) = input_records a ++ input_records b.
Proof. apply bind_app. Qed.
Lemma input_tickets_app a b : input_tickets (a ++ b) = input_tickets a ++ input_tickets b.
Proof. apply omap_app. Qed.

Lemma input_records_tickets ms u : u ∈ (input_records ms).*2 -> u ∈ input_tickets ms.
Proof.
  induction ms as [|m ms IH]; [done|]. change (m :: ms) with ([m] ++ ms).
  rewrite input_records_app, input_tickets_app, fmap_app, !elem_of_app. intros [H|H]; [left|auto].
  unfold input_records in H. simpl in H. rewrite app_nil_r in H. destruct m as [chunk|]; [|done].
  simpl in *. apply elem_of_with_ticket in H as [-> _]. unfold input_tickets. simpl. by left.
Qed.

Lemma count_with_ticket u t rs : u ≠ t -> count_ticket u (with_ticket t rs) = 0%N.
Proof. intros Hne. apply count_ticket_zero. rewrite elem_of_with_ticket. naive_solver. Qed.

(** Everything on the way was accepted. *)
Lemma flight_accepted base s h u :
  system_inv base s h ->
  u ∈ (stored h ++ quarantined h ++ lost h ++ pending (sy_driver s)).*2 -> u ∈ (sy_accepted s).*2.
Proof.
  intros Hinv Hu. rewrite <- (si_conserve base s h Hinv), !app_assoc, fmap_app, elem_of_app. left.
  by rewrite <- !app_assoc.
Qed.

Lemma count_conserve base s h u :
  system_inv base s h ->
  count_ticket u (sy_accepted s) =
  (count_ticket u (stored h) + count_ticket u (quarantined h) + count_ticket u (lost h) +
   count_ticket u (pending (sy_driver s)) + count_ticket u (input_records (sy_input s)))%N.
Proof.
  intros Hinv. rewrite <- (count_ticket_perm u _ _ (si_conserve base s h Hinv)), !count_ticket_app. lia.
Qed.

(** Tickets beyond the issued ones carry nothing. *)
Lemma fresh_ticket base s h :
  system_inv base s h -> (next_ticket (sy_ledger s) < u64_max)%N ->
  let t := (issue (sy_ledger s)).1 in
  t = (next_ticket (sy_ledger s) + 1)%N /\ t ≠ 0%N /\ t ∉ (sy_accepted s).*2 /\
  t ∉ input_tickets (sy_input s) /\ settled_state (state (sy_ledger s) t) = false /\
  next_ticket (issue (sy_ledger s)).2 = t.
Proof.
  intros Hinv Hlt t. assert (t = next_ticket (sy_ledger s) + 1)%N as Ht by done.
  split; [done|]. split; [lia|].
  split; [intros Hin; pose proof (si_issued base s h Hinv t (or_introl Hin)); lia|].
  split; [intros Hin; pose proof (si_issued base s h Hinv t (or_intror Hin)); lia|].
  split.
  - destruct (settled_state (state (sy_ledger s) t)) eqn:Hs; [|done].
    pose proof (led_settled_issued (sy_ledger s) t (si_ledger base s h Hinv) Hs) as Hi. simpl in Hi. lia.
  - simpl. rewrite wrap_add_small by lia. lia.
Qed.

(** ** Preservation, step by step *)

Lemma inv_accept base s h chunk :
  system_inv base s h -> sy_batcher_done s = false -> (next_ticket (sy_ledger s) < u64_max)%N ->
  system_inv base (take_in s chunk) h.
Proof.
  intros Hinv Hd Hlt. destruct (fresh_ticket base s h Hinv Hlt) as (Ht & Hnz & Hna & Hni & Hun & Hnx).
  unfold take_in. set (t := (issue (sy_ledger s)).1) in *. rewrite Hd in *. fold t in Ht, Hnz, Hna, Hni, Hun, Hnx.
  pose proof (fun u => flight_accepted base s h u Hinv) as Hfl.
  destruct Hinv as [Hpa Hdr Hle Hev Hco Hnd Hfr Hli His Hac Hlk Hlo Hhe Hcm Hdn Htl].
  assert (input_tickets [set_commit_seq (Logs chunk) t] = [t]) as Htk by done.
  assert (input_records [set_commit_seq (Logs chunk) t] = with_ticket t (chunk_records chunk)) as Hrc
    by (unfold input_records; simpl; by rewrite app_nil_r).
  split; cbn [sy_input sy_driver sy_batcher_done sy_conn sy_writer_alive sy_accepted] in *;
    unfold sy_ledger in *; cbn [sy_driver set_ledger ledger] in *; rewrite ?input_tickets_app, ?Htk, ?Hnx.
  - by destruct Hpa.
  - intros _. apply driver_inv_frame; [by apply Hdr|done].
  - by apply issue_inv.
  - done.
  - rewrite input_records_app, Hrc, <- Hco. by rewrite <- !app_assoc.
  - apply NoDup_app. split; [done|]. split; [|apply NoDup_singleton].
    intros u Hu ->%list_elem_of_singleton. done.
  - intros u [Hu| ->%list_elem_of_singleton]%elem_of_app; [by apply Hfr|]. intros Hin. by apply Hna, Hfl.
  - intros u Hu. rewrite state_issue. rewrite elem_of_app, list_elem_of_singleton in Hu.
    destruct Hu as [Hu|[Hu| ->]]; [by apply Hli; left|by apply Hli; right|done].
  - intros u. rewrite fmap_app, !elem_of_app, elem_of_with_ticket, list_elem_of_singleton.
    intros [[Hu|[-> _]]|[Hu| ->]]; [|lia| |lia].
    + specialize (His u (or_introl Hu)). lia.
    + specialize (His u (or_intror Hu)). lia.
  - intros u Hu. rewrite state_issue. eapply accounted_ext; [done|done| |by apply Hac].
    intros Hs. rewrite count_ticket_app, count_with_ticket; [lia|]. intros ->. congruence.
  - intros u Hu Hle'. rewrite state_issue, elem_of_app, list_elem_of_singleton. intros Hs.
    destruct (decide (u = t)) as [->|Hne]; [auto|].
    destruct (Hlk u Hu ltac:(lia) Hs) as [?|[?|?]]; auto.
  - done.
  - intros Ha. destruct (Hhe Ha) as (? & ? & ? & _ & ?). by split_and!.
  - done.
  - done.
  - done.
Qed.

(** Voiding a live ticket that carries no record. *)
Lemma accounts_void base s h now_ms l t :
  system_inv base s h -> ledger_inv l -> (forall u, state l u = state (sy_ledger s) u) ->
  t ≠ 0%N -> count_ticket t (quarantined h) = 0%N ->
  count_ticket t (stored h) = count_ticket t (sy_accepted s) ->
  settled_state (state (sy_ledger s) t) = false ->
  forall u, state (void now_ms l t) u = (if decide (u = t) then Completed else state (sy_ledger s) u) /\
    (u ≠ 0%N -> accounted (sy_accepted s) h u (state (void now_ms l t) u)).
Proof.
  intros Hinv Hl Hst Hnz Hq Hs Hun u.
  assert (state (void now_ms l t) u = if decide (u = t) then Completed else state (sy_ledger s) u) as Hv.
  { unfold void. rewrite state_settle by done. unfold abs_settle. rewrite !Hst.
    destruct (N.eqb_spec u t) as [->|Hne]; [|by rewrite decide_False].
    rewrite decide_True by done. by destruct (state (sy_ledger s) t). }
  split; [done|]. intros Hu. rewrite Hv. destruct (decide (u = t)) as [->|]; [by split|].
  by apply (si_accounts base s h Hinv).
Qed.

Lemma inv_refuse base s h now_ms :
  system_inv base s h -> (next_ticket (sy_ledger s) < u64_max)%N -> system_inv base (turn_away s now_ms) h.
Proof.
  intros Hinv Hlt. destruct (fresh_ticket base s h Hinv Hlt) as (Ht & Hnz & Hna & Hni & Hun & Hnx).
  unfold turn_away. set (t := (issue (sy_ledger s)).1) in *. set (l := (issue (sy_ledger s)).2) in *.
  assert (ledger_inv l) as Hl by (apply issue_inv; [apply (si_ledger base s h Hinv)|done]).
  apply count_ticket_zero in Hna as Hz. pose proof (count_conserve base s h t Hinv) as Hcc.
  destruct (accounts_void base s h now_ms l t Hinv Hl (fun u => eq_refl) Hnz ltac:(lia) ltac:(lia) Hun t)
    as [Hvt _].
  pose proof (accounts_void base s h now_ms l t Hinv Hl (fun u => eq_refl) Hnz ltac:(lia) ltac:(lia) Hun) as Hv.
  pose proof (fun u => flight_accepted base s h u Hinv) as Hfl.
  destruct Hinv as [Hpa Hdr Hle Hev Hco Hnd Hfr Hli His Hac Hlk Hlo Hhe Hcm Hdn Htl].
  split; try done; unfold sy_ledger in *; cbn [sy_input sy_driver set_ledger ledger] in *.
  - by destruct Hpa.
  - intros Hd. apply driver_inv_frame; [by apply Hdr|done].
  - unfold void. apply settle_inv; [done|]. by rewrite Hnx.
  - intros u Hu. destruct (Hli u Hu) as [? ?]. split; [done|]. destruct (Hv u) as [-> _].
    rewrite decide_False; [done|]. intros ->. destruct Hu as [Hu|Hu]; [|done]. apply Hna, Hfl.
    rewrite !fmap_app, !elem_of_app. auto.
  - intros u Hu. unfold void. rewrite settle_next, Hnx. specialize (His u Hu). lia.
  - intros u Hu. by apply Hv.
  - intros u Hu Hle' Hs. destruct (Hv u) as [Hvu _]. rewrite Hvu in Hs. case_decide as Hut; [done|].
    unfold void in Hle'. rewrite settle_next, Hnx in Hle'. apply Hlk; [done|lia|done].
Qed.

Lemma inv_flush base s h :
  system_inv base s h -> sy_batcher_done s = false ->
  system_inv base
    {| sy_input := sy_input s ++ [IngestFlush]; sy_driver := sy_driver s;
       sy_batcher_done := false; sy_conn := sy_conn s; sy_stats := sy_stats s;
       sy_processed := sy_processed s; sy_writer_alive := sy_writer_alive s;
       sy_accepted := sy_accepted s; sy_retention := sy_retention s |} h.
Proof.
  intros Hinv Hd. destruct Hinv as [Hpa Hdr Hle Hev Hco Hnd Hfr Hli His Hac Hlk Hlo Hhe Hcm Hdn Htl].
  rewrite Hd in *.
  assert (input_tickets (sy_input s ++ [IngestFlush]) = input_tickets (sy_input s)) as Ht
    by (rewrite input_tickets_app; apply app_nil_r).
  assert (input_records (sy_input s ++ [IngestFlush]) = input_records (sy_input s)) as Hr
    by (rewrite input_records_app; apply app_nil_r).
  split; cbn [sy_input sy_driver sy_batcher_done sy_conn sy_writer_alive sy_accepted]; rewrite ?Ht, ?Hr; done.
Qed.

Lemma inv_schedule base s h c :
  system_inv base s h -> sy_writer_alive s = true -> scheduled_command c = true ->
  system_inv base
    {| sy_input := sy_input s;
       sy_driver := set_queue (sy_driver s) (sy_queue s ++ [c]) false (sy_ledger s);
       sy_batcher_done := sy_batcher_done s; sy_conn := sy_conn s; sy_stats := sy_stats s;
       sy_processed := sy_processed s; sy_writer_alive := true; sy_accepted := sy_accepted s;
       sy_retention := sy_retention s |} h.
Proof.
  intros Hinv Ha Hc. destruct Hinv as [Hpa Hdr Hle Hev Hco Hnd Hfr Hli His Hac Hlk Hlo Hhe Hcm Hdn Htl].
  destruct (Hhe Ha) as (Hacc & Hret & Hal & Hbuf & Hno).
  set (d' := set_queue _ _ _ _).
  assert (emitted (channel d') = emitted (channel (sy_driver s)) ++ [c]) as Hem.
  { unfold emitted, d', sy_queue. simpl. by rewrite Hret, !app_nil_r. }
  assert (command_records c = [] /\ command_segments c = []) as [Hr Hs] by (by destruct c as [| | |[]]).
  assert (records_of [c] = []) as Hr' by (unfold records_of; simpl; by rewrite Hr).
  assert (segments_of [c] = []) as Hs' by (unfold segments_of; simpl; by rewrite Hs).
  assert (pending d' = pending (sy_driver s)) as Hpe.
  { unfold pending. rewrite Hem, records_of_app, Hr', app_nil_r. done. }
  assert (parts_inv d') as Hpa'.
  { destruct Hpa as [? ? ?]. split; [done| |].
    - rewrite Hem. apply Forall_app. split; [done|]. apply Forall_singleton. by destruct c.
    - rewrite Hem, segments_of_app, Hs', app_nil_r. done. }
  split; cbn [sy_input sy_driver sy_batcher_done sy_conn sy_writer_alive sy_accepted];
    unfold sy_ledger in *; cbn [sy_driver] in *; rewrite ?Hpe; try done.
  - intros Hd. pose proof (driver_set_queue _ _ (sy_queue s ++ [c]) false (ledger (sy_driver s)) (Hdr Hd) Hpa') as H.
    fold d' in H. by rewrite Hpe in H.
  - intros _. by apply Hlo.
  - rewrite Hem. apply Forall_app. split; [done|]. apply Forall_singleton. by destruct c.
Qed.

Lemma send_accepts ch c : batcher_command c = true -> ch_accepts ch = None -> ch_accepts (send ch c).1 = None.
Proof. intros _ H. unfold send. by rewrite H. Qed.

Lemma send_commands ch c :
  batcher_command c = true -> Forall pipeline_command (emitted ch) -> Forall pipeline_command (emitted (send ch c).1).
Proof.
  intros Hc H. assert (pipeline_command c) as Hp by (by destruct c).
  unfold emitted in *. apply Forall_app in H as [H1 H2]. unfold send.
  destruct (ch_accepts ch) as [[|n]|]; simpl; rewrite ?Forall_app, ?Forall_singleton; auto.
Qed.

(** A driver whose command queue is healthy stays alive. *)
Lemma driver_healthy (d : Driver CommitLedger) ing :
  driver_inv d ing -> ch_accepts (channel d) = None -> ch_returned (channel d) = [] /\ alive d = true.
Proof. intros [_ _ _ _ _ Hal _ _ _] Ha. destruct (alive d); [done|]. by rewrite Ha in Hal. Qed.

(** What an iteration takes from the ingest queue: the records it moves into
    the batcher, and the ticket it takes over or, for an empty chunk, voids. *)
Record takes (s : System) (w : Wake) (rest : list IngestMessage) (ts : list N) : Prop := {
  tk_records : input_records (sy_input s) = wake_records w ++ input_records rest;
  tk_tickets : input_tickets (sy_input s) = ts ++ input_tickets rest;
  tk_wake : forall u, u ∈ (wake_records w).*2 -> u ∈ ts;
  tk_ledger :
    (forall now_ms (l : CommitLedger), wake_ledger now_ms l w = l) /\
    (forall u, u ∈ ts -> u ∈ (wake_records w).*2) \/
    exists t, ts = [t] /\ wake_records w = [] /\
      forall now_ms (l : CommitLedger), wake_ledger now_ms l w = void now_ms l t;
}.

Lemma wake_input (s : System) w rest :
  (exists m, w = Received m /\ sy_input s = m :: rest) \/ (w = TimedOut /\ rest = sy_input s) ->
  exists ts, takes s w rest ts.
Proof.
  intros [(m & -> & Hin)|[-> ->]]; [|exists []; split; try done; by left].
  destruct m as [chunk|]; [|exists []; split; rewrite ?Hin; try done; by left].
  exists [chunk_commit_seq chunk]. split; rewrite ?Hin; [done|done| |]; simpl.
  - intros u [-> _]%elem_of_with_ticket. by left.
  - unfold LogChunk_is_empty. destruct (chunk_records chunk) as [|r rs] eqn:Hr; [right; by eexists|left].
    split; [done|]. intros u ->%list_elem_of_singleton. by apply elem_of_with_ticket.
Qed.

(** The ledger after an iteration: unchanged, or one empty ticket voided. *)
Lemma takes_ledger base s h w rest ts now_ms :
  system_inv base s h -> takes s w rest ts ->
  let l' := wake_ledger now_ms (sy_ledger s) w in
  ledger_inv l' /\ next_ticket l' = next_ticket (sy_ledger s) /\
  forall u, (u ≠ 0%N -> accounted (sy_accepted s) h u (state l' u)) /\
    (u ∈ ts -> u ∉ (wake_records w).*2 -> settled_state (state l' u) = true) /\
    (u ∉ ts \/ u ∈ (wake_records w).*2 -> state l' u = state (sy_ledger s) u).
Proof.
  intros Hinv [Hir Hitk Hwt Hled] l'.
  pose proof Hinv as [Hpa Hdr Hle Hev Hco Hnd Hfr Hli His Hac Hlk Hlo Hhe Hcm Hdn Htl].
  rewrite Hitk in *. apply NoDup_app in Hnd as (Hnd1 & Hdisj & Hnd2). subst l'.
  destruct Hled as [[Hsame Hin]|(t & -> & Hwr & Hvoid)].
  { rewrite Hsame. split; [done|]. split; [done|]. intros u. split; [apply Hac|].
    split; [intros Hu Hnu; exfalso; by apply Hnu, Hin|done]. }
  destruct (Hli t) as [Hnz Hun]; [right; by left|].
  assert (t ∉ (stored h ++ quarantined h ++ lost h ++ pending (sy_driver s)).*2) as Hnin
    by (apply Hfr; by left).
  apply count_ticket_zero in Hnin. rewrite !count_ticket_app in Hnin.
  assert (count_ticket t (input_records (sy_input s)) = 0%N) as Hzi.
  { rewrite Hir, Hwr. simpl. apply count_ticket_zero. intros Hi%input_records_tickets.
    apply (Hdisj t); [by left|done]. }
  pose proof (count_conserve base s h t Hinv) as Hcc.
  pose proof (accounts_void base s h now_ms (sy_ledger s) t Hinv Hle (fun u => eq_refl) Hnz
    ltac:(lia) ltac:(lia) Hun) as Hv.
  rewrite Hvoid. split; [unfold void; apply settle_inv; [done|]; apply His; right; by left|].
  split; [apply settle_next|]. intros u. destruct (Hv u) as [Hvu Hva]. split; [done|].
  rewrite Hvu, Hwr. split; [intros ->%list_elem_of_singleton _; by rewrite decide_True|].
  intros [Hu|Hu]; [|by apply not_elem_of_nil in Hu]. rewrite decide_False; [done|]. set_solver.
Qed.

Lemma inv_batch base s h w rest now now_ms d' :
  system_inv base s h -> sy_batcher_done s = false ->
  (exists m, w = Received m /\ sy_input s = m :: rest) \/ (w = TimedOut /\ rest = sy_input s) ->
  iteration batcher_fault w now now_ms (sy_driver s) = Some (Continue d') ->
  system_inv base
    {| sy_input := rest; sy_driver := d'; sy_batcher_done := false; sy_conn := sy_conn s;
       sy_stats := sy_stats s; sy_processed := sy_processed s;
       sy_writer_alive := sy_writer_alive s; sy_accepted := sy_accepted s; sy_retention := sy_retention s |} h.
Proof.
  intros Hinv Hd Hw Hit. destruct (wake_input s w rest Hw) as (ts & Htakes).
  destruct (takes_ledger base s h w rest ts now_ms Hinv Htakes) as (Hle' & Hnx & Hst).
  destruct Htakes as [Hir Hitk Hwt _].
  destruct Hinv as [Hpa Hdr Hle Hev Hco Hnd Hfr Hli His Hac Hlk Hlo Hhe Hcm Hdn Htl].
  rewrite Hitk in *. apply NoDup_app in Hnd as (Hnd1 & Hdisj & Hnd2).
  assert (forall u, u ∈ ts -> u ∉ (stored h ++ quarantined h ++ lost h ++ pending (sy_driver s)).*2) as Hft
    by (intros u Hu; apply Hfr; apply elem_of_app; by left).
  setoid_rewrite fmap_app in Hft. setoid_rewrite fmap_app in Hft. setoid_rewrite fmap_app in Hft.
  setoid_rewrite elem_of_app in Hft. setoid_rewrite elem_of_app in Hft. setoid_rewrite elem_of_app in Hft.
  destruct (iteration_spec batcher_fault w now now_ms (sy_driver s) (pending (sy_driver s)) (Hdr Hd))
    as (f & Hf & Hspec); [by eapply iteration_wake_possible|intros u Hu Hin; apply (Hft u); auto|].
  rewrite Hit in Hf. simplify_eq. destruct Hspec as [Hdi Hl'].
  destruct (driver_parts _ _ Hdi) as [Hpa' Hpe].
  assert (forall u, u ∈ (pending d').*2 <-> u ∈ (pending (sy_driver s)).*2 \/ u ∈ (wake_records w).*2) as Hpm
    by (intros u; by rewrite Hpe, fmap_app, elem_of_app).
  unfold sy_ledger in Hle', Hnx, Hst. rewrite <- Hl' in Hle', Hnx, Hst.
  split; cbn [sy_input sy_driver sy_batcher_done sy_conn sy_writer_alive sy_accepted]; unfold sy_ledger in *;
    cbn [sy_driver]; rewrite ?Hnx; try done.
  - intros _. by eapply driver_pending.
  - rewrite <- Hco, Hir, Hpe. by rewrite <- !app_assoc.
  - intros u Hu Hin. rewrite !fmap_app, !elem_of_app, Hpm in Hin. apply (Hfr u).
    { apply elem_of_app. by right. }
    rewrite !fmap_app, !elem_of_app. destruct Hin as [?|[?|[?|[?|Hin]]]]; auto.
    exfalso. apply (Hdisj u); auto.
  - intros u Hu. assert (u ∈ (pending (sy_driver s)).*2 \/ u ∈ ts ++ input_tickets rest) as Hu'.
    { rewrite elem_of_app. destruct Hu as [[?|?]%Hpm|?]; auto. }
    destruct (Hli u Hu') as [? Hs]. split; [done|]. destruct (Hst u) as (_ & _ & ->); [done|].
    destruct (decide (u ∈ ts)) as [Hin|]; [right|by left]. destruct Hu as [[Hu|?]%Hpm|Hu]; [|done|].
    + exfalso. apply (Hft u Hin). auto.
    + exfalso. by apply (Hdisj u).
  - intros u Hu. apply His. rewrite elem_of_app. tauto.
  - intros u Hu. by apply Hst.
  - intros u Hu Hle2 Hs. destruct (decide (u ∈ (wake_records w).*2)) as [Hin|Hout]; [left; by apply Hpm; right|].
    destruct (Hst u) as (_ & Hts2 & Hsame).
    destruct (decide (u ∈ ts)) as [Hin|Hnt]; [rewrite Hts2 in Hs; done|].
    rewrite Hsame in Hs by (by left). destruct (Hlk u Hu Hle2 Hs) as [?|[[?|?]%elem_of_app|?]]; auto; [|done].
    left. apply Hpm. by left.
  - intros Ha u Hu [Hin|Hin]%Hpm; [by apply (Hlo Ha u)|]. apply (Hft u); auto.
  - intros Ha. destruct (Hhe Ha) as (Hacc & Hret & Hal & Hbuf & Hno).
    apply (iteration_keeps _ send_accepts) in Hit as Hacc'; [|done]. simpl in Hacc'.
    destruct (driver_healthy _ _ Hdi Hacc') as [? ?]. by split_and!.
  - by apply (iteration_keeps _ send_commands) in Hit.
Qed.

(** A property of the command queue survives the end of the batcher. *)
Lemma exit_keeps (Q : Channel -> Prop) w now now_ms (d d0 d' d1 : Driver CommitLedger) :
  (forall ch c, batcher_command c = true -> Q ch -> Q (send ch c).1) ->
  (alive d = false /\ d0 = d) \/ (iteration batcher_fault w now now_ms d = Some (Break d0)) ->
  (alive d0 = true -> flush_buffers now_ms d0 = Some d1) -> (alive d0 = false -> d1 = d0) ->
  Q (channel d) -> Q (channel d1).
Proof.
  intros HQ Hcase Ht Hf Hq.
  assert (Q (channel d0)) as Hq0.
  { destruct Hcase as [[_ ->]|Hit]; [done|]. by apply (iteration_keeps Q HQ) in Hit. }
  destruct (alive d0); [|by rewrite Hf]. exact (flush_buffers_keeps Q HQ now_ms d0 d1 (Ht eq_refl) Hq0).
Qed.

(** The driver when its loop ends. *)
Lemma exit_driver base s h w now now_ms d0 :
  system_inv base s h -> sy_batcher_done s = false ->
  (alive (sy_driver s) = false /\ d0 = sy_driver s) \/
  (alive (sy_driver s) = true /\ (batcher_fault = None -> w = InputClosed /\ sy_input s = []) /\
   iteration batcher_fault w now now_ms (sy_driver s) = Some (Break d0)) ->
  driver_inv d0 (pending (sy_driver s)) /\ ledger d0 = ledger (sy_driver s).
Proof.
  intros Hinv Hd Hcase. pose proof (si_driver base s h Hinv Hd) as Hdr.
  destruct Hcase as [[_ ->]|(Ha & Hin & Hit)]; [done|].
  assert (iteration batcher_fault InputClosed now now_ms (sy_driver s) = Some (Break d0)) as Hit'.
  { revert Hit. unfold iteration.
    destruct batcher_fault as [limit|]; [|by destruct (Hin eq_refl) as [-> _]].
    destruct (limit <=? _)%N; [done|]. simpl. intros [e [He Hh]]%bind_Some.
    destruct e as [[chunk|]| |]; simpl in *; [| | |done].
    - destruct (LogChunk_is_empty chunk); [done|]. apply bind_Some in Hh as ([? ?] & _ & Hh).
      by destruct (submit_all _ _ _ _ _) as [[? ?] ?].
    - apply bind_Some in Hh as (df & _ & Hh). destruct (alive df); [|done].
      by destruct (submit _ _ _) as [[? ?] ?].
    - apply bind_Some in Hh as ([? ?] & _ & Hh). by destruct (submit_all _ _ _ _ _) as [[? ?] ?]. }
  destruct (iteration_spec batcher_fault InputClosed now now_ms (sy_driver s) _ Hdr) as (f & Hf & Hspec);
    [done|set_solver|].
  rewrite Hit' in Hf. simplify_eq. by destruct Hspec as (? & _ & ?).
Qed.

Lemma inv_batcher_exit base s h w now now_ms d0 d' :
  system_inv base s h -> sy_batcher_done s = false ->
  (alive (sy_driver s) = false /\ d0 = sy_driver s) \/
  (alive (sy_driver s) = true /\ (batcher_fault = None -> w = InputClosed /\ sy_input s = []) /\
   iteration batcher_fault w now now_ms (sy_driver s) = Some (Break d0)) ->
  finish now_ms d0 = Some d' ->
  system_inv base
    {| sy_input := []; sy_driver := d'; sy_batcher_done := true; sy_conn := sy_conn s;
       sy_stats := sy_stats s; sy_processed := sy_processed s;
       sy_writer_alive := sy_writer_alive s; sy_accepted := sy_accepted s; sy_retention := sy_retention s |}
    (note_lost h (input_records (sy_input s)) (input_tickets (sy_input s))).
Proof.
  intros Hinv Hd Hcase Hfin. pose proof Hinv as [Hpa Hdr Hle Hev Hco Hnd Hfr Hli His Hac Hlk Hlo Hhe Hcm Hdn Htl].
  destruct (exit_driver base s h w now now_ms d0 Hinv Hd Hcase) as [Hdi0 Hl0].
  destruct (finish_parts now_ms d0 d' _ Hdi0 Hfin)
    as (d1 & Hdi1 & Ht1 & Hf1 & Hlog & Hal1 & Hem & Hq1 & Hr1 & Hacc1 & Hled & Hbuf1).
  destruct (driver_parts _ _ Hdi1) as [[Hb1 Hc1 Hco1] Hpe1].
  assert (pending d' ≡ₚ pending (sy_driver s)) as Hpe.
  { rewrite <- Hpe1. unfold pending. by rewrite Hem, Hlog. }
  assert (forall u, u ∈ (pending d').*2 <-> u ∈ (pending (sy_driver s)).*2) as Hpm by (intros u; by rewrite Hpe).
  assert (forall u, state (ledger d') u = state (ledger (sy_driver s)) u) as Hst.
  { intros u. rewrite Hled, Hl0. by destruct (alive d1). }
  assert (next_ticket (ledger d') = next_ticket (ledger (sy_driver s))) as Hnx.
  { rewrite Hled, Hl0. by destruct (alive d1). }
  assert ((alive (sy_driver s) = false /\ d0 = sy_driver s) \/
    iteration batcher_fault w now now_ms (sy_driver s) = Some (Break d0)) as Hcase' by (clear -Hcase; tauto).
  split; cbn [sy_input sy_driver sy_batcher_done sy_conn sy_writer_alive sy_accepted]; unfold sy_ledger in *;
    cbn [sy_driver]; rewrite ?Hnx; try done.
  - split; rewrite ?Hlog, ?Hem; done.
  - rewrite Hled, Hl0. destruct (alive d1); [done|]. by apply close_inv.
  - rewrite <- Hco, Hpe. unfold note_lost, stored. cbn [stored_rows quarantined lost]. simpl.
    rewrite app_nil_r, <- !app_assoc. do 3 apply Permutation_app_head. apply Permutation_app_comm.
  - constructor.
  - intros u Hu. by apply not_elem_of_nil in Hu.
  - intros u [Hu|Hu]; [|by apply not_elem_of_nil in Hu]. rewrite Hst. apply Hli. left. by apply Hpm.
  - intros u [Hu|Hu]; [|by apply not_elem_of_nil in Hu]. apply His. by left.
  - intros u Hu. rewrite Hst. by apply (accounted_ext (sy_accepted s) (sy_accepted s) h); [..|apply Hac].
  - intros u Hu Hle2 Hs. rewrite Hst in Hs. cbn [note_lost abandoned]. rewrite elem_of_app, Hpm.
    destruct (Hlk u Hu Hle2 Hs) as [?|[?|?]]; auto.
  - intros Ha u. cbn [note_lost lost]. rewrite fmap_app, elem_of_app, Hpm.
    intros [Hu|Hu%input_records_tickets]; [by apply Hlo|]. intros Hin. apply (Hfr u Hu).
    rewrite !fmap_app, !elem_of_app. auto.
  - intros Ha. destruct (Hhe Ha) as (Hacc & Hret & Hal & Hbuf & Hno).
    assert (ch_accepts (channel d1) = None) as Ha1
      by (by eapply (exit_keeps _ w now now_ms (sy_driver s) d0 d' d1 send_accepts)).
    destruct (driver_healthy _ _ Hdi1 Ha1) as [Hr Hal'].
    split; [congruence|]. split; [congruence|]. split; [congruence|].
    split; [intros _; rewrite Hlog; auto|]. intros Hbf. destruct (Hno Hbf) as [Hlst Habn].
    destruct Hcase as [[Hf _]|(_ & Hin & _)]; [congruence|]. destruct (Hin Hbf) as [_ Hi].
    cbn [note_lost lost abandoned]. by rewrite Hlst, Habn, Hi.
  - rewrite Hem. by eapply (exit_keeps _ w now now_ms (sy_driver s) d0 d' d1 send_commands).
Qed.

(** What executing a command does to the database and the ledger.  [runs] are
    its runs of retention, [later] the tickets with records still behind it. *)
Definition command_effect (runs : list Retention) (c : WriteCommand) (later : list N)
    (w w' : Writer Conn CommitLedger) (rid : string) (kept gone : tagged) : Prop :=
  kept ++ gone ≡ₚ command_records c /\
  tallied (w_stats w) (w_stats w') (N.of_nat (length kept)) (N.of_nat (length gone)) /\
  retains runs (rows (w_conn w)) (rows (w_conn w')) (event_row json rid <$> kept.*1) /\
  ledger_inv (w_ledger w') /\ next_ticket (w_ledger w') = next_ticket (w_ledger w) /\
  forall u, state (w_ledger w') u =
    if decide (u ∈ (seg_commit_seq <$> command_segments c))
    then ticket_after (state (w_ledger w) u) (count_ticket u kept) (count_ticket u gone) (bool_decide (u ∉ later))
    else state (w_ledger w) u.

(** A command without records leaves the ledger alone, and the stored rows too
    but for a prune. *)
Lemma execute_other now_ms now_unix (w : Writer Conn CommitLedger) c backlog :
  pipeline_command c -> command_segments c = [] -> command_ok c ->
  retains (command_runs quota now_ms now_unix w c backlog) (rows (w_conn w))
    (rows (w_conn (execute json sha256 now_ms now_unix (prepare quota now_ms w c backlog) c backlog).1)) [] /\
  w_ledger (execute json sha256 now_ms now_unix (prepare quota now_ms w c backlog) c backlog).1 = w_ledger w /\
  tallied (w_stats w)
    (w_stats (execute json sha256 now_ms now_unix (prepare quota now_ms w c backlog) c backlog).1) 0 0.
Proof.
  intros Hp Hs Hok. unfold command_runs.
  pose proof (prepare_retains quota now_ms w c backlog) as Hquota.
  pose proof (prepare_ledger quota now_ms w c backlog) as Hled.
  pose proof (prepare_tallied quota now_ms w c backlog) as Htl.
  destruct c as [b| |mode|op].
  { exfalso. destruct Hok as (Hl & _ & _ & Hlen). simpl in Hs. rewrite Hs in Hl. simpl in Hl. lia. }
  all: match goal with |- context [prepare ?quota ?now ?w ?c ?backlog] =>
      pose proof (prepare_conn quota now w c backlog eq_refl) as Hconn;
      destruct (prepare quota now w c backlog) as [conn l st] end; simpl in Hled, Hconn, Hquota, Htl; subst conn l.
  - simpl. rewrite app_nil_r. by split_and!.
  - pose proof (checkpoint_same (w_conn w) mode) as H. simpl.
    destruct (Maintenance.checkpoint (w_conn w) mode) as [c' []]; simpl in *;
      (split_and!; [apply (retains_trans _ _ _ _ _ [] [] Hquota); by apply retains_durable|done|]);
      apply (tallied_trans _ _ _ 0 0 0 0 Htl); by apply tallied_same.
  - pose proof (run_maintenance_retains (w_conn w) op backlog now_unix) as H. simpl.
    destruct (run_maintenance (w_conn w) op backlog now_unix) as [c' [[]|]]; simpl in *;
      (split_and!; [by apply (retains_trans _ _ _ _ _ [] [] Hquota)|done|]);
      apply (tallied_trans _ _ _ 0 0 0 0 Htl); by apply tallied_same.
Qed.

Lemma execute_effect base s h c q now_ms now_unix w3 r3 :
  system_inv base s h -> sy_writer_alive s = true -> sy_queue s = c :: q ->
  execute json sha256 now_ms now_unix (prepare quota now_ms (sy_writer s) c (length q)) c (length q) = (w3, r3) ->
  match r3 with
  | Err _ => retains (write_runs s c q now_ms now_unix) (rows (sy_conn s)) (rows (w_conn w3)) [] /\
             w_ledger w3 = sy_ledger s /\ tallied (sy_stats s) (w_stats w3) 0 0
  | Ok _ => exists rid kept gone,
      command_effect (write_runs s c q now_ms now_unix) c
        (tickets_in (q ++ ch_returned (channel (sy_driver s))) ++ buffered_tickets (logs (sy_driver s)))
        (sy_writer s) w3 rid kept gone
  end.
Proof.
  intros [Hpa Hdr Hle Hev Hco Hnd Hfr Hli His Hac Hlk Hlo Hhe Hcm Hdn Htl] Ha Hq Hex.
  destruct Hpa as [Hb Hc Hcomp]. unfold emitted, sy_queue in *. rewrite Hq in *.
  cbn [app] in Hc, Hcm, Hcomp. apply Forall_cons in Hc as [Hok Hc]. apply Forall_cons in Hcm as [Hp _].
  change (c :: q ++ ch_returned (channel (sy_driver s))) with ([c] ++ q ++ ch_returned (channel (sy_driver s)))
    in Hcomp. rewrite segments_of_app in Hcomp. apply complete_ok_app in Hcomp as [Hcomp _].
  unfold segments_of in Hcomp at 1. simpl in Hcomp. rewrite app_nil_r in Hcomp.
  fold (tickets_in (q ++ ch_returned (channel (sy_driver s)))) in Hcomp.
  destruct (command_segments c) as [|g segs] eqn:Hseg.
  - destruct (execute_other now_ms now_unix (sy_writer s) c (length q) Hp Hseg Hok)
      as (Hdu & Hl & Ht3). rewrite Hex in Hdu, Hl, Ht3. simpl in Hdu, Hl, Ht3. destruct r3; [|done].
    exists "", [], []. split; [|split; [|split; [|split; [|split]]]].
    + destruct c as [b| | |]; try done. exfalso. destruct Hok as (Hlen & _ & _ & Hpos).
      simpl in Hseg. rewrite Hseg in Hlen. simpl in Hlen. lia.
    + exact Ht3.
    + exact Hdu.
    + by rewrite Hl.
    + by rewrite Hl.
    + intros u. rewrite Hseg, decide_False by (by apply not_elem_of_nil). by rewrite Hl.
  - destruct c as [b| | |]; try done. unfold write_runs, command_runs.
    pose proof (prepare_retains quota now_ms (sy_writer s) (InsertLogs b) (length q)) as Hquota.
    pose proof (prepare_ledger quota now_ms (sy_writer s) (InsertLogs b) (length q)) as Hled.
    pose proof (prepare_tallied quota now_ms (sy_writer s) (InsertLogs b) (length q)) as Ht2.
    destruct (prepare quota now_ms (sy_writer s) (InsertLogs b) (length q)) as [conn2 l2 st2].
    simpl in Hled, Hquota, Ht2. subst l2.
    pose proof (execute_insert_spec json sha256 now_ms now_unix
      {| w_conn := conn2; w_ledger := sy_ledger s; w_stats := st2 |} b
      (tickets_in (q ++ ch_returned (channel (sy_driver s))) ++ buffered_tickets (logs (sy_driver s)))
      (length q) Hok Hle) as Hspec.
    rewrite Hex in Hspec. destruct r3 as [[]|e].
    1: destruct Hspec as (kept & gone & Hperm & Hpers & Ht3 & Hl' & Hnx & Hst).
    4: destruct Hspec as (Hdu & Hl & Ht3).
    1, 4: intros t Ht; simpl in Hseg; change (seg_commit_seq <$> lwb_segments b)
            with (seg_commit_seq <$> command_segments (InsertLogs b)) in Ht;
          apply command_tickets in Ht; [|done];
          assert (t ∈ (pending (sy_driver s)).*2) as Hpend
            by (unfold pending, emitted; rewrite Hq; unfold records_of; simpl;
                rewrite !fmap_app, !elem_of_app; auto);
          destruct (Hli t (or_introl Hpend)); split_and!; [done|done|];
          apply His; left; rewrite <- Hco, !fmap_app, !elem_of_app; auto.
    + simpl in Hseg. by rewrite Hseg.
    + exists (batch_rid json sha256 b), kept, gone. split; [done|]. split; [exact (tallied_trans _ _ _ 0 0 _ _ Ht2 Ht3)|].
      split; [|done]. apply (retains_trans _ _ _ _ _ [] _ Hquota). unfold rows. simpl in Hpers. rewrite Hpers. apply retains_keep.
    + simpl in Hseg. by rewrite Hseg.
    + split; [|split; [done|exact (tallied_trans _ _ _ 0 0 0 0 Ht2 Ht3)]].
      apply (retains_trans _ _ _ _ _ [] [] Hquota). by apply retains_durable.
Qed.

Lemma stored_written h rid kept gone : stored (note_written h rid kept gone) = stored h ++ kept.
Proof.
  unfold stored, note_written. cbn [stored_rows]. rewrite fmap_app, <- list_fmap_compose.
  f_equal. apply list_fmap_id.
Qed.

(** The books of a ticket after a command that kept [k] and lost [g] of its
    records and, if [last], held its last ones. *)
Lemma accounted_after acc h rid kept gone u p last :
  accounted acc h u (Unsettled p) ->
  (last = true -> (count_ticket u acc = count_ticket u (stored h) + count_ticket u kept +
                   (count_ticket u (quarantined h) + count_ticket u gone))%N) ->
  accounted acc (note_written h rid kept gone) u
    (ticket_after (Unsettled p) (count_ticket u kept) (count_ticket u gone) last).
Proof.
  intros [Hc Hd] Hlast.
  assert (count_ticket u (stored (note_written h rid kept gone)) =
    (count_ticket u (stored h) + count_ticket u kept)%N) as Hs.
  { by rewrite stored_written, count_ticket_app. }
  assert (count_ticket u (quarantined (note_written h rid kept gone)) =
    (count_ticket u (quarantined h) + count_ticket u gone)%N) as Hq by (simpl; by rewrite count_ticket_app).
  cbn [ticket_after]. destruct last.
  - specialize (Hlast eq_refl). unfold final_state, add_progress, sat_add. simpl.
    case_match eqn:Hz; bool_to_prop; unfold accounted; rewrite Hs, Hq; cbn [committed dropped] in *;
      split_and!; unfold u64_max in *; lia.
  - unfold accounted, add_progress, sat_add. rewrite Hs, Hq. cbn [committed dropped]. split; lia.
Qed.

Lemma counted_after st st' k g :
  counted st k -> tallied st st' (N.of_nat (length (stored g)) - N.of_nat (length (stored k)))
    (N.of_nat (length (quarantined g)) - N.of_nat (length (quarantined k))) ->
  length (stored k) <= length (stored g) -> length (quarantined k) <= length (quarantined g) -> counted st' g.
Proof.
  intros [Hr Hq] Ht Hs Hg. destruct (Ht _ _ Hr Hq) as [Hr' Hq']. split; [rewrite Hr'|rewrite Hq']; f_equal; lia.
Qed.

(** One executed command: the shared facts of the cases below. *)
Section written_step.
Context (base : list EventRow) (s : System) (h : History) (c : WriteCommand) (q : list WriteCommand).
Context (runs : list Retention) (w' : Writer Conn CommitLedger) (rid : string) (kept gone : tagged).
Context (Hinv : system_inv base s h) (Ha : sy_writer_alive s = true) (Hq : sy_queue s = c :: q).
Context (Heff : command_effect runs c (tickets_in (q ++ ch_returned (channel (sy_driver s))) ++
                                  buffered_tickets (logs (sy_driver s)))
                  (sy_writer s) w' rid kept gone).

Let l' := w_ledger w'.
Let d' := set_queue (sy_driver s) q false l'.
Let h' := note_written h rid kept gone.

Lemma written_parts : parts_inv d'.
Proof. by apply (parts_drop _ [c]); [apply (si_parts base s h Hinv)|]. Qed.

Lemma written_command_ok : command_ok c.
Proof.
  destruct (si_parts base s h Hinv) as [_ Hc _]. unfold emitted in Hc. unfold sy_queue in Hq.
  rewrite Hq in Hc. by apply Forall_cons in Hc as [? _].
Qed.

Lemma written_pending : pending (sy_driver s) = command_records c ++ pending d'.
Proof.
  rewrite (pending_drop (sy_driver s) [c] q false l' Hq). unfold records_of. simpl. by rewrite app_nil_r.
Qed.

Lemma written_later u :
  u ∈ (pending d').*2 <->
  u ∈ tickets_in (q ++ ch_returned (channel (sy_driver s))) ++ buffered_tickets (logs (sy_driver s)).
Proof. rewrite (pending_tickets d' u written_parts), elem_of_app. done. Qed.

Lemma written_pending_sub u : u ∈ (pending d').*2 -> u ∈ (pending (sy_driver s)).*2.
Proof. intros Hu. rewrite written_pending, fmap_app, elem_of_app. by right. Qed.

Lemma written_tickets u :
  u ∈ (seg_commit_seq <$> command_segments c) -> u ∈ (pending (sy_driver s)).*2.
Proof.
  intros Hu. rewrite written_pending, fmap_app, elem_of_app. left.
  by apply command_tickets; [apply written_command_ok|].
Qed.

Lemma written_input u : u ∈ input_tickets (sy_input s) -> u ∉ (pending (sy_driver s)).*2.
Proof.
  intros Hu Hin. apply (si_input_fresh base s h Hinv u Hu). rewrite !fmap_app, !elem_of_app. auto.
Qed.

Lemma written_flight :
  stored h' ++ quarantined h' ++ lost h' ++ pending d' ≡ₚ
  stored h ++ quarantined h ++ lost h ++ pending (sy_driver s).
Proof.
  destruct Heff as [Hperm _]. unfold h'. rewrite stored_written, written_pending, <- Hperm.
  cbn [quarantined lost note_written]. rewrite <- !app_assoc.
  apply Permutation_app_head. rewrite (Permutation_app_swap_app kept (quarantined h)).
  apply Permutation_app_head.
  rewrite (app_assoc kept gone), (Permutation_app_swap_app (kept ++ gone) (lost h)). by rewrite <- !app_assoc.
Qed.

Lemma written_accounts u : u ≠ 0%N -> accounted (sy_accepted s) h' u (state l' u).
Proof.
  intros Hu. destruct Heff as (Hperm & _ & _ & _ & _ & Hst). unfold l'. rewrite Hst.
  change (w_ledger (sy_writer s)) with (sy_ledger s).
  pose proof (si_accounts base s h Hinv u Hu) as Hac. case_decide as Hseg.
  - destruct (si_live base s h Hinv u (or_introl (written_tickets u Hseg))) as [_ Hun].
    destruct (state (sy_ledger s) u) as [p| |p]; try done. apply accounted_after; [done|].
    intros Hlast. apply bool_decide_eq_true in Hlast. rewrite (count_conserve base s h u Hinv).
    assert (count_ticket u (pending d') = 0%N) as Hz by (apply count_ticket_zero; by rewrite written_later).
    assert (count_ticket u (input_records (sy_input s)) = 0%N) as Hzi.
    { apply count_ticket_zero. intros Hi%input_records_tickets. by apply (written_input u Hi), written_tickets. }
    assert (count_ticket u (lost h) = 0%N) as Hzl.
    { apply count_ticket_zero. intros Hi. by apply (si_lost base s h Hinv Ha u Hi), written_tickets. }
    rewrite written_pending, count_ticket_app, <- (count_ticket_perm u _ _ Hperm), count_ticket_app. lia.
  - assert (u ∉ (kept ++ gone).*2) as Hn
      by (rewrite Hperm; rewrite command_tickets; [done|apply written_command_ok]).
    apply count_ticket_zero in Hn. rewrite count_ticket_app in Hn.
    eapply accounted_ext; [..|exact Hac]; [|simpl|done].
    + unfold h'. rewrite stored_written, count_ticket_app. lia.
    + rewrite count_ticket_app. lia.
Qed.

Lemma written_leak u :
  u ≠ 0%N -> (u <= next_ticket l')%N -> settled_state (state l' u) = false ->
  u ∈ (pending d').*2 \/ u ∈ input_tickets (sy_input s) \/ u ∈ abandoned h.
Proof.
  intros Hu. destruct Heff as (_ & _ & _ & _ & Hnx & Hst). unfold l'. rewrite Hnx, Hst.
  change (w_ledger (sy_writer s)) with (sy_ledger s). intros Hle Hs.
  case_decide as Hseg.
  - left. apply written_later. destruct (decide (u ∈ tickets_in (q ++ ch_returned (channel (sy_driver s))) ++
      buffered_tickets (logs (sy_driver s)))) as [Hin|Hout]; [done|].
    rewrite (bool_decide_eq_true_2 _ Hout) in Hs.
    destruct (state (sy_ledger s) u); simpl in Hs; try done. unfold final_state in Hs. by case_match.
  - destruct (si_leak base s h Hinv u Hu Hle Hs) as [Hin|[?|?]]; auto. left.
    rewrite written_pending, fmap_app, elem_of_app in Hin. destruct Hin as [Hin|Hin]; [|done].
    by apply command_tickets in Hin; [|apply written_command_ok].
Qed.

Lemma inv_written st' processed' :
  tallied (w_stats w') st' 0 0 ->
  system_inv base
    {| sy_input := sy_input s; sy_driver := d';
       sy_batcher_done := sy_batcher_done s; sy_conn := w_conn w'; sy_stats := st';
       sy_processed := processed'; sy_writer_alive := true; sy_accepted := sy_accepted s;
       sy_retention := sy_retention s ++ runs |} h'.
Proof.
  pose proof Hinv as [Hpa Hdr Hle Hev Hco Hnd Hfr Hli His Hac Hlk Hlo Hhe Hcm Hdn Htl].
  pose proof Heff as (_ & Hcnt & Hevs & Hl' & Hnx & Hst). unfold l' in d'.
  change (w_ledger (sy_writer s)) with (sy_ledger s) in *. intros Htally.
  split; cbn [sy_input sy_driver sy_batcher_done sy_conn sy_writer_alive sy_accepted sy_retention]; unfold sy_ledger in *;
    cbn [sy_driver]; try done.
  - apply written_parts.
  - intros Hd. eapply driver_set_queue; [by apply Hdr|apply written_parts].
  - assert (rows_of h' = rows_of h ++ (event_row json rid <$> kept.*1)) as ->.
    { unfold rows_of, h', note_written. cbn [stored_rows]. rewrite fmap_app, <- !list_fmap_compose. done. }
    by eapply retains_trans.
  - rewrite <- Hco, !app_assoc. apply Permutation_app_tail. rewrite <- !app_assoc. apply written_flight.
  - intros u Hu. rewrite written_flight. by apply Hfr.
  - intros u Hu. destruct (Hli u) as [? Hs]; [pose proof (written_pending_sub u); tauto|]. split; [done|].
    cbn [set_queue ledger d']. rewrite Hst. case_decide as Hseg; [|done].
    destruct Hu as [Hu|Hu]; [|exfalso; by apply (written_input u Hu), written_tickets].
    rewrite bool_decide_eq_false_2; [by apply ticket_after_unsettled|]. intros Hn. by apply Hn, written_later.
  - intros u Hu. cbn [set_queue ledger d']. rewrite Hnx. by apply His.
  - intros u Hu. by apply written_accounts.
  - intros u Hu. by apply written_leak.
  - intros _ u Hu Hin. by apply (Hlo Ha u Hu), written_pending_sub.
  - intros _. exact (Hhe Ha).
  - unfold emitted in *. unfold sy_queue in Hq. rewrite Hq in Hcm. by apply Forall_cons in Hcm as [_ ?].
  - cbn [sy_stats]. eapply counted_after; [exact Htl| | |].
    + unfold h'. rewrite stored_written. cbn [note_written quarantined]. rewrite !length_app.
      pose proof (tallied_trans _ _ _ _ _ 0 0 Hcnt Htally) as H. rewrite !N.add_0_r in H.
      rewrite !Nat2N.inj_add, !(N.add_comm (N.of_nat (length (stored h)))), !(N.add_comm (N.of_nat (length (quarantined h)))).
      by rewrite !N.add_sub.
    + unfold h'. rewrite stored_written, length_app. lia.
    + cbn [h' note_written quarantined]. rewrite length_app. lia.
Qed.

End written_step.

(** The writer's queue is discarded with it. *)
Lemma inv_dropped base s h runs conn' st' processed' :
  system_inv base s h -> retains runs (rows (sy_conn s)) (rows conn') [] -> tallied (sy_stats s) st' 0 0 ->
  system_inv base
    {| sy_input := sy_input s; sy_driver := set_queue (sy_driver s) [] true (close (sy_ledger s));
       sy_batcher_done := sy_batcher_done s; sy_conn := conn'; sy_stats := st';
       sy_processed := processed'; sy_writer_alive := false; sy_accepted := sy_accepted s;
       sy_retention := sy_retention s ++ runs |}
    (note_lost h (records_of (sy_queue s)) (tickets_in (sy_queue s))).
Proof.
  intros Hinv Hdu Htally. pose proof Hinv as [Hpa Hdr Hle Hev Hco Hnd Hfr Hli His Hac Hlk Hlo Hhe Hcm Hdn Htl].
  set (d' := set_queue (sy_driver s) [] true (close (sy_ledger s))).
  assert (ch_queue (channel (sy_driver s)) = sy_queue s ++ []) as Hq by (by rewrite app_nil_r).
  assert (parts_inv d') as Hpa' by (by apply (parts_drop _ (sy_queue s))).
  pose proof (pending_drop (sy_driver s) (sy_queue s) [] true (close (sy_ledger s)) Hq) as Hpe. fold d' in Hpe.
  assert (stored (note_lost h (records_of (sy_queue s)) (tickets_in (sy_queue s))) ++ quarantined h ++
    (lost h ++ records_of (sy_queue s)) ++ pending d' ≡ₚ
    stored h ++ quarantined h ++ lost h ++ pending (sy_driver s)) as Hflight.
  { rewrite Hpe. by rewrite <- !app_assoc. }
  assert (Forall command_ok (sy_queue s)) as Hok.
  { destruct Hpa as [_ Hc _]. by apply Forall_app in Hc as [? _]. }
  split; cbn [sy_input sy_driver sy_batcher_done sy_conn sy_writer_alive sy_accepted sy_retention]; unfold sy_ledger in *;
    cbn [sy_driver]; try done.
  - intros Hd. by eapply driver_set_queue; [apply Hdr|].
  - by apply close_inv.
  - unfold rows_of, note_lost. cbn [stored_rows]. rewrite <- (app_nil_r (_ <$> stored_rows h)).
    by eapply retains_trans.
  - rewrite <- Hco, !app_assoc. apply Permutation_app_tail. rewrite <- !app_assoc.
    cbn [note_lost quarantined lost]. exact Hflight.
  - intros u Hu. cbn [note_lost quarantined lost]. rewrite Hflight. by apply Hfr.
  - intros u Hu. cbn [d' set_queue ledger]. rewrite state_close. apply Hli.
    destruct Hu as [Hu|Hu]; [left|by right]. rewrite Hpe, fmap_app, elem_of_app. by right.
  - intros u Hu. cbn [d' set_queue ledger note_lost abandoned]. rewrite state_close. intros Hle2 Hs.
    destruct (Hlk u Hu Hle2 Hs) as [Hin|[?|?]]; [|by auto|rewrite elem_of_app; by auto].
    rewrite Hpe, fmap_app, elem_of_app in Hin. destruct Hin as [Hin|Hin]; [|by left].
    right. right. rewrite elem_of_app. right. by apply records_of_tickets.
  - unfold emitted in *. by apply Forall_app in Hcm as [_ ?].
  - cbn [sy_stats]. destruct Htl as [Hr Hqu]. destruct (Htally _ _ Hr Hqu) as [Hr' Hqu'].
    rewrite N.add_0_r in Hr', Hqu'. by split.
Qed.

(** ** Every reachable state *)

Lemma start_system cfg c now_ms :
  max_batch_records cfg ≠ 0 ->
  system_inv (events (durable c)) (sy_start cfg c now_ms) History_new.
Proof.
  intros Hm. pose proof (start_inv cfg None (CommitLedger.new now_ms) now_ms Hm) as Hd.
  assert (pending (BatcherDriver.start cfg None (CommitLedger.new now_ms) now_ms) = []) as Hp by done.
  split; cbn [sy_start sy_input sy_driver sy_batcher_done sy_conn sy_writer_alive sy_accepted];
    unfold sy_ledger; cbn [sy_start sy_driver]; rewrite ?Hp; try done.
  - apply new_inv.
  - unfold rows_of, rows. simpl. by apply retains_durable.
  - constructor.
  - intros u Hu. by apply not_elem_of_nil in Hu.
  - intros u [Hu|Hu]; by apply not_elem_of_nil in Hu.
  - intros u [Hu|Hu]; by apply not_elem_of_nil in Hu.
  - intros u Hu. unfold state, inner_state. simpl. rewrite (proj2 (N.eqb_neq u 0) Hu).
    rewrite bool_decide_eq_false_2 by set_solver. unfold is_settled. simpl.
    rewrite (proj2 (N.leb_gt u 0)) by lia. rewrite bool_decide_eq_false_2 by set_solver. done.
  - simpl. intros u Hu Hle. lia.
  - intros _ u Hu. by apply not_elem_of_nil in Hu.
Qed.

(** The writer's reaction: the effect of the command, or a failure that left the
    books alone. *)
Lemma write_one_effect base s h c q now_ms now_unix w' r :
  system_inv base s h -> sy_writer_alive s = true -> sy_queue s = c :: q ->
  write_one s c q now_ms now_unix = (w', r) ->
  (exists rid kept gone,
    command_effect (write_runs s c q now_ms now_unix) c
      (tickets_in (q ++ ch_returned (channel (sy_driver s))) ++ buffered_tickets (logs (sy_driver s)))
      (sy_writer s) w' rid kept gone) \/
  (is_ok r = false /\ retains (write_runs s c q now_ms now_unix) (rows (sy_conn s)) (rows (w_conn w')) [] /\
   w_ledger w' = sy_ledger s /\ tallied (sy_stats s) (w_stats w') 0 0).
Proof.
  intros Hinv Ha Hq. unfold write_one, handle_command.
  pose proof (execute_effect base s h c q now_ms now_unix) as He.
  destruct (execute _ _ _ _ _ _ _) as [w3 r3]. specialize (He w3 r3 Hinv Ha Hq eq_refl). intros Hw.
  assert (w_conn w' = w_conn w3 /\ w_ledger w' = w_ledger w3 /\ w_stats w' = end_command (w_stats w3) /\
    (is_ok r3 = false -> is_ok r = false)) as (Hcn & Hl & Hst & Hr) by (repeat case_match; simplify_eq; done).
  assert (forall st k g, tallied st (w_stats w3) k g -> tallied st (w_stats w') k g) as Hend.
  { intros st k g Ht n m Hn Hm. rewrite Hst. exact (Ht n m Hn Hm). }
  destruct r3 as [u|e].
  - left. destruct He as (rid & kept & gone & Hperm & Ht & Hrest). exists rid, kept, gone.
    split; [done|]. rewrite Hcn, Hl. split; [by apply Hend|done].
  - right. destruct He as (Hret & Hle & Ht). rewrite Hcn, Hl. split_and!; auto.
Qed.

(** A later history has everything that was stored. *)
Definition extends (h h' : History) : Prop := stored_rows h `prefix_of` stored_rows h'.

#[local] Instance extends_preorder : PreOrder extends.
Proof. split; [intros h|intros h1 h2 h3]; unfold extends; [done|by transitivity (stored_rows h2)]. Qed.

Lemma extends_written h rid kept gone : extends h (note_written h rid kept gone).
Proof. by apply prefix_app_r. Qed.
Lemma extends_lost h records ts : extends h (note_lost h records ts).
Proof. unfold extends. done. Qed.

#[local] Hint Resolve extends_written extends_lost : core.

(** A panic keeps what the quota left. *)
Lemma panic_retains s c (q : list WriteCommand) now_ms conn' :
  durable conn' = durable (w_conn (prepare quota now_ms (sy_writer s) c (length q))) ->
  retains (quota_runs quota now_ms (sy_writer s) c (length q)) (rows (sy_conn s)) (rows conn') [].
Proof. intros H. unfold rows at 2. rewrite H. exact (prepare_retains quota now_ms (sy_writer s) c (length q)). Qed.

Lemma system_step_inv base s s' h :
  system_inv base s h -> step s s' -> exists h', system_inv base s' h' /\ extends h h'.
Proof.
  intros Hinv Hstep.
  destruct Hstep as [s chunk Hd Hlt|s now_ms Hlt|s Hd|s c Ha Hc|s w rest now now_ms d' Hd Ha Hw Hit
    |s w now now_ms d0 d' Hd Hcase Hf|s c q now_ms now_unix w' p' Ha Hq Hw|s c q now_ms now_unix w' e Ha Hq Hw
    |s Ha Hq Hs|s c q now_ms conn' Ha Hq w prepared Hconn].
  - eexists. split; [by apply inv_accept|done].
  - eexists. split; [by apply inv_refuse|done].
  - eexists. split; [by apply inv_flush|done].
  - eexists. split; [by apply inv_schedule|done].
  - eexists. split; [by eapply inv_batch|done].
  - eexists. split; [by eapply inv_batcher_exit|done].
  - destruct (write_one_effect _ _ _ _ _ _ _ _ _ Hinv Ha Hq Hw) as [(rid & kept & gone & He)|[? _]]; [|done].
    eexists. split; [eapply inv_written; try done; by apply tallied_same|done].
  - destruct (write_one_effect _ _ _ _ _ _ _ _ _ Hinv Ha Hq Hw) as [(rid & kept & gone & He)|(_ & Hret & -> & Ht)].
    + pose proof (inv_written base s h c q _ w' rid kept gone Hinv Ha Hq He (w_stats w') 0
        (tallied_same _ _ eq_refl eq_refl)) as Hinv1.
      eexists. split; [|etransitivity; [apply extends_written|apply extends_lost]].
      pose proof (inv_dropped _ _ _ [] (w_conn w') (ws_set_running false (w_stats w')) (sy_processed s)
        Hinv1 (retains_durable _ _ _ eq_refl) (tallied_same _ _ eq_refl eq_refl)) as Hinv2.
      cbn in Hinv2. rewrite app_nil_r in Hinv2. exact Hinv2.
    + eexists. split; [by apply (inv_dropped base s h)|done].
  - eexists. split; [|apply extends_lost].
    pose proof (inv_dropped base s h [] _ (ws_set_running false (set_queue_depth 0 (sy_stats s)))
      (sy_processed s) Hinv (retains_durable _ _ _ (checkpoint_same (sy_conn s) Truncate))
      (tallied_same _ _ eq_refl eq_refl)) as Hinv2.
    rewrite app_nil_r in Hinv2. exact Hinv2.
  - eexists. split; [|apply extends_lost]. apply (inv_dropped base s h); [done|by apply panic_retains|].
    intros n m Hn Hm. exact (prepare_tallied quota now_ms (sy_writer s) c (length q) n m Hn Hm).
Qed.

Lemma reachable_extends base s s' h :
  system_inv base s h -> reachable_from s s' -> exists h', system_inv base s' h' /\ extends h h'.
Proof.
  intros Hinv. induction 1 as [|s1 s2 _ (h1 & Hinv1 & Hext) Hstep]; [by exists h|].
  destruct (system_step_inv _ _ _ _ Hinv1 Hstep) as (h2 & Hinv2 & Hext2).
  exists h2. split; [done|]. by transitivity h1.
Qed.

(** An opened pipeline starts from a batch size of at least one. *)
Lemma open_start cfg timeout wr br c now_ms s0 :
  Storage_open cfg timeout wr br c now_ms = Ok s0 ->
  max_batch_records cfg ≠ 0 /\ s0 = sy_start cfg c now_ms.
Proof.
  unfold Storage_open. destruct (Nat.eqb_spec (max_batch_records cfg) 0); [done|].
  destruct wr, br; intros; by simplify_eq.
Qed.

Section opened.
Context (cfg : InsertBatcherConfig) (timeout : Duration) (wr br : Ready) (c : Conn) (now_ms : N).
Context (s0 : System) (Hopen : Storage_open cfg timeout wr br c now_ms = Ok s0).

Lemma reachable_inv_system s :
  reachable_from s0 s -> exists h, system_inv (events (durable c)) s h.
Proof using Type*.
  apply open_start in Hopen as [Hm ->].
  induction 1 as [|s s' _ [h IH] Hstep]; [eexists; by apply start_system|].
  destruct (system_step_inv _ _ _ _ IH Hstep) as (h' & ? & _). by eexists.
Qed.

End opened.

(** ** Reading the books *)

(** The accepted records of a ticket. *)
Definition records_under (t : N) (l : tagged) : list LogRecord := (filter (fun x => x.2 = t) l).*1.

(** The database holds a row of its own for each of the records, unless a run of
    retention accounts for its absence. *)
Definition has_rows (s : System) (records : list LogRecord) : Prop :=
  exists found removed, found ⊆+ removed ++ rows (sy_conn s) /\ Forall (retired (sy_retention s)) removed /\
    Forall2 (fun r row => exists rid, row = event_row json rid r) records found.

Lemma records_under_length t l : N.of_nat (length (records_under t l)) = count_ticket t l.
Proof. unfold records_under. by rewrite length_fmap. Qed.

Lemma stored_has_rows base s h records :
  system_inv base s h -> records ⊆+ (stored h).*1 -> has_rows s records.
Proof.
  intros Hinv [rest Hperm]%submseteq_Permutation. unfold stored in Hperm. rewrite <- list_fmap_compose in Hperm.
  symmetry in Hperm. apply Permutation_map_inv in Hperm as (l & Happ & Hl).
  symmetry in Happ. apply fmap_app_inv in Happ as (mine & others & -> & _ & ->).
  destruct (retains_present _ _ _ _ (si_events base s h Hinv)) as (removed & Hr & Hsub).
  exists ((fun x => event_row json x.1 x.2.1) <$> mine), removed. split; [|split; [done|]].
  - rewrite <- Hsub. etransitivity; [|apply submseteq_inserts_l; reflexivity].
    unfold rows_of. rewrite Hl, fmap_app. by apply submseteq_inserts_r.
  - clear. induction mine as [|x l IH]; [constructor|]. rewrite !fmap_cons. simpl. constructor; [by eexists|done].
Qed.

Lemma records_under_sub t l : records_under t l ⊆+ l.*1.
Proof. apply fmap_submseteq, sublist_submseteq, sublist_filter. Qed.

(** The records of a ticket, split by where they went. *)
Lemma records_split base s h t :
  system_inv base s h ->
  records_under t (stored h) ++ records_under t (quarantined h) ++
  records_under t (lost h ++ pending (sy_driver s) ++ input_records (sy_input s)) ≡ₚ
  records_under t (sy_accepted s).
Proof.
  intros Hinv. unfold records_under. rewrite <- !fmap_app, <- !filter_app. by rewrite <- (si_conserve base s h Hinv).
Qed.

(** A ticket whose stored records are as many as its accepted ones is in the
    database. *)
Lemma all_stored base s h t :
  system_inv base s h -> (count_ticket t (sy_accepted s) <= count_ticket t (stored h))%N ->
  has_rows s (records_under t (sy_accepted s)).
Proof.
  intros Hinv Hle. pose proof (records_split base s h t Hinv) as Hsp.
  eapply stored_has_rows; [done|]. rewrite <- (records_under_sub t (stored h)).
  pose proof (Permutation_length Hsp) as Hlen. rewrite !length_app in Hlen.
  rewrite <- !records_under_length in Hle.
  assert (length (records_under t (quarantined h)) = 0 /\
    length (records_under t (lost h ++ pending (sy_driver s) ++ input_records (sy_input s))) = 0)
    as [H1%nil_length_inv H2%nil_length_inv] by lia.
  rewrite <- Hsp, H1, H2. by rewrite !app_nil_r.
Qed.

(** A step appends rows and, in its runs of retention, removes some. *)
Lemma step_retains base s s' h :
  system_inv base s h -> step s s' ->
  exists runs added, sy_retention s' = sy_retention s ++ runs /\
    retains runs (rows (sy_conn s)) (rows (sy_conn s')) added.
Proof.
  intros Hinv Hstep.
  destruct Hstep as [| | | | | |s c q now_ms now_unix w' p' Ha Hq Hw|s c q now_ms now_unix w' e Ha Hq Hw|s Ha Hq Hs
    |s c q now_ms conn' Ha Hq w prepared Hconn];
    cbn [sy_conn sy_retention];
    try (exists [], []; split; [by rewrite app_nil_r|apply retains_durable; first [done|apply checkpoint_same]]).
  3: by exists (quota_runs quota now_ms w c (length q)), []; split; [|apply panic_retains].
  all: destruct (write_one_effect _ _ _ _ _ _ _ _ _ Hinv Ha Hq Hw)
      as [(rid & kept & gone & _ & _ & He & _)|(_ & He & _)];
    eexists _, _; (split; [reflexivity|exact He]).
Qed.

Lemma has_rows_later s s' runs added records :
  sy_retention s' = sy_retention s ++ runs -> retains runs (rows (sy_conn s)) (rows (sy_conn s')) added ->
  has_rows s records -> has_rows s' records.
Proof.
  intros Hlog Hret (found & removed & Hsub & Hr & Hall).
  destruct (retains_present _ _ _ _ Hret) as (removed' & Hr' & Hsub').
  exists found, (removed ++ removed'). split; [|split; [|done]].
  - rewrite Hsub, <- app_assoc. apply submseteq_app; [done|].
    etransitivity; [|exact Hsub']. by apply submseteq_inserts_r.
  - rewrite Hlog. apply Forall_app. split; (eapply Forall_impl; [eassumption|]); intros row H; apply retired_app; auto.
Qed.

Lemma reachable_has_rows cfg timeout wr br c now_ms s0 s s' records :
  Storage_open cfg timeout wr br c now_ms = Ok s0 -> reachable_from s0 s -> reachable_from s s' ->
  has_rows s records -> has_rows s' records.
Proof.
  intros Ho Hr H Hrows. induction H as [|s1 s2 H1 IH Hstep]; [done|].
  assert (reachable_from s0 s1) as Hr1.
  { clear -Hr H1. induction H1; [done|]. by econstructor. }
  destruct (reachable_inv_system cfg timeout wr br c now_ms s0 Ho s1 Hr1) as [h Hinv].
  destruct (step_retains _ _ _ _ Hinv Hstep) as (runs & added & Hlog & Hret). by eapply has_rows_later.
Qed.

(** What the ledger reports as committed is in the database. *)
Lemma reported_stored base s h t :
  system_inv base s h -> t ≠ 0%N ->
  (Handler.ticket_committed (state (sy_ledger s) t) (count_ticket t (sy_accepted s)) <= count_ticket t (stored h))%N.
Proof.
  intros Hinv Ht. pose proof (si_accounts base s h Hinv t Ht) as Hac.
  destruct (state (sy_ledger s) t); simpl in *; lia.
Qed.

Lemma stored_bound base s h t :
  system_inv base s h -> (count_ticket t (stored h) <= count_ticket t (sy_accepted s))%N.
Proof. intros Hinv. rewrite (count_conserve base s h t Hinv). lia. Qed.

End pipeline.

(** ** A small run

    One chunk of four records, as large as a batch: accepted, batched, written
    (the connection fails as scripted), and the batcher drains and exits. *)

Abbreviation MemSystem := (@System MemDb).

Definition demo_start (script : list (option SqliteError)) : MemSystem :=
  sy_start small_config (MemDb_new script) 0.

Definition demo_chunk : LogChunk := sample_chunk "a" [1; 2; 3; 4]%Z 0.

Definition demo_accept (s : MemSystem) : MemSystem := take_in s demo_chunk.

Definition demo_batch (s : MemSystem) : MemSystem :=
  match sy_input s with
  | m :: rest =>
      match iteration None (Received m) (fun _ => 0%N) 0 (sy_driver s) with
      | Some (Continue d') =>
          {| sy_input := rest; sy_driver := d'; sy_batcher_done := false; sy_conn := sy_conn s;
             sy_stats := sy_stats s; sy_processed := sy_processed s;
             sy_writer_alive := sy_writer_alive s; sy_accepted := sy_accepted s; sy_retention := sy_retention s |}
      | _ => s
      end
  | [] => s
  end.

Definition demo_write (now_unix : Z) (s : MemSystem) : MemSystem :=
  match sy_queue s with
  | c :: q =>
      match write_one no_json no_sha None None s c q 0 now_unix with
      | (w', Ok p') =>
          {| sy_input := sy_input s; sy_driver := set_queue (sy_driver s) q false (w_ledger w');
             sy_batcher_done := sy_batcher_done s; sy_conn := w_conn w'; sy_stats := w_stats w';
             sy_processed := p'; sy_writer_alive := true; sy_accepted := sy_accepted s;
             sy_retention := sy_retention s ++ write_runs None s c q 0 now_unix |}
      | _ => s
      end
  | [] => s
  end.

Definition demo_exit (s : MemSystem) : MemSystem :=
  match iteration None InputClosed (fun _ => 0%N) 0 (sy_driver s) with
  | Some (Break d0) =>
      match finish 0 d0 with
      | Some d' =>
          {| sy_input := []; sy_driver := d'; sy_batcher_done := true; sy_conn := sy_conn s;
             sy_stats := sy_stats s; sy_processed := sy_processed s;
             sy_writer_alive := sy_writer_alive s; sy_accepted := sy_accepted s; sy_retention := sy_retention s |}
      | None => s
      end
  | _ => s
  end.

Definition demo_run (script : list (option SqliteError)) : MemSystem :=
  demo_exit (demo_write 0 (demo_batch (demo_accept (demo_start script)))).

(** One record violates a constraint, in the strict and in the salvage pass. *)
Definition one_bad_record : list (option SqliteError) :=
  [None; None; constraint; None; None; constraint].

Definition write_succeeds (now_unix : Z) (s : MemSystem) : bool :=
  match sy_queue s with
  | c :: q => sy_writer_alive s && is_ok (write_one no_json no_sha None None s c q 0 now_unix).2
  | [] => false
  end.

Lemma demo_write_step now_unix s :
  write_succeeds now_unix s = true -> step no_json no_sha None None None s (demo_write now_unix s).
Proof.
  unfold write_succeeds, demo_write. destruct (sy_queue s) as [|c q] eqn:Hq; [done|].
  destruct (write_one no_json no_sha None None s c q 0 now_unix) as [w' [p'|e]] eqn:Hw; simpl;
    intros H; bool_to_prop; [|done]. eapply step_write; [done|exact Hq|exact Hw].
Qed.

Definition batch_succeeds (s : MemSystem) : bool :=
  negb (sy_batcher_done s) && alive (sy_driver s) &&
  match sy_input s with
  | m :: _ =>
      match iteration None (Received m) (fun _ => 0%N) 0 (sy_driver s) with
      | Some (Continue _) => true
      | _ => false
      end
  | [] => false
  end.

Lemma demo_batch_step s :
  batch_succeeds s = true -> step no_json no_sha None None None s (demo_batch s).
Proof.
  unfold batch_succeeds, demo_batch. intros H. bool_to_prop.
  destruct (sy_input s) as [|m rest] eqn:Hin; [done|].
  destruct (iteration None (Received m) (fun _ => 0%N) 0 (sy_driver s)) as [[d'|d0]|] eqn:Hit; try done.
  eapply step_batch; [done|done| |exact Hit]. left. by exists m.
Qed.

Definition exit_succeeds (s : MemSystem) : bool :=
  negb (sy_batcher_done s) && alive (sy_driver s) && bool_decide (length (sy_input s) = 0) &&
  match iteration None InputClosed (fun _ => 0%N) 0 (sy_driver s) with
  | Some (Break d0) => bool_decide (is_Some (finish 0 d0))
  | _ => false
  end.

Lemma demo_exit_step s :
  exit_succeeds s = true -> step no_json no_sha None None None s (demo_exit s).
Proof.
  unfold exit_succeeds, demo_exit. intros H. bool_to_prop.
  destruct (iteration None InputClosed (fun _ => 0%N) 0 (sy_driver s)) as [[d|d0]|] eqn:Hit; try done.
  destruct (finish 0 d0) as [d'|] eqn:Hf; [|done]. eapply step_batcher_exit; [done| |exact Hf].
  right. split; [done|]. split; [|exact Hit]. intros _. split; [done|].
  apply nil_length_inv. by eapply bool_decide_eq_true_1.
Qed.

Lemma demo_written script :
  script = [] \/ script = one_bad_record ->
  reachable_from no_json no_sha None None None (demo_start script)
    (demo_write 0 (demo_batch (demo_accept (demo_start script)))).
Proof.
  intros Hscript. eapply rf_step; [eapply rf_step; [eapply rf_step; [apply rf_start|]|]|].
  - apply (step_accept no_json no_sha None None None (demo_start script) demo_chunk); [done|].
    vm_compute. reflexivity.
  - apply demo_batch_step. vm_compute. reflexivity.
  - apply demo_write_step. destruct Hscript as [-> | ->]; vm_compute; reflexivity.
Qed.

Lemma demo_reachable script :
  script = [] \/ script = one_bad_record ->
  reachable_from no_json no_sha None None None (demo_start script) (demo_run script).
Proof.
  intros Hscript. eapply rf_step; [by apply demo_written|].
  apply demo_exit_step. destruct Hscript as [-> | ->]; vm_compute; reflexivity.
Qed.

(** A prune with an empty window is scheduled and executed at [now_unix]. *)
Definition demo_schedule (s : MemSystem) : MemSystem :=
  {| sy_input := sy_input s;
     sy_driver := set_queue (sy_driver s) (sy_queue s ++ [Maintenance (Prune (Some 0%N))]) false (sy_ledger s);
     sy_batcher_done := sy_batcher_done s; sy_conn := sy_conn s; sy_stats := sy_stats s;
     sy_processed := sy_processed s; sy_writer_alive := true; sy_accepted := sy_accepted s;
     sy_retention := sy_retention s |}.

Definition demo_prune (now_unix : Z) (s : MemSystem) : MemSystem := demo_write now_unix (demo_schedule s).

Lemma demo_prune_run now_unix s :
  sy_writer_alive s = true -> write_succeeds now_unix (demo_schedule s) = true ->
  reachable_from no_json no_sha None None None s (demo_prune now_unix s).
Proof.
  intros Ha Hw. eapply rf_step; [eapply rf_step; [apply rf_start|]|by apply demo_write_step].
  by apply (step_schedule no_json no_sha None None None s (Maintenance (Prune (Some 0%N)))).
Qed.

(** ** Claims *)

(** C1: a completed ticket is a durable one, end to end.  In every state any
    interleaving of ingress, batcher and writer can reach (with SQLite failures,
    retries, salvage, halts, thread exits, scheduled maintenance and size-quota
    evictions), once the ledger says a ticket is completed the committed database
    holds a separate row for every record that was accepted under it, less rows
    a logged run of retention accounts for: the run found the row, and it was
    older than the cutoff of a prune or than all the rows an eviction kept. *)
Theorem completed_ticket_durable {Conn} `{!SqliteConn Conn, !SqliteLaws Conn} json sha256
    quota writer_fault batcher_fault cfg timeout wr br (c : Conn) now_ms s0 s t :
  Storage_open cfg timeout wr br c now_ms = Ok s0 ->
  reachable_from json sha256 quota writer_fault batcher_fault s0 s ->
  t ≠ 0%N -> state (sy_ledger s) t = Completed ->
  has_rows json s (records_under t (sy_accepted s)).
Proof.
  intros Hm Hr Ht Hst. destruct (reachable_inv_system _ _ _ _ _ _ _ _ _ _ _ _ Hm _ Hr) as [h Hinv].
  eapply all_stored; [exact Hinv|]. pose proof (si_accounts _ _ _ _ _ Hinv t Ht) as Hac.
  rewrite Hst in Hac. destruct Hac as [_ ->]. lia.
Qed.

Lemma completed_ticket_durable_witness :
  state (sy_ledger (demo_run [])) 1 = Completed /\
  length (records_under 1 (sy_accepted (demo_run []))) = 4 /\
  has_rows no_json (demo_run []) (records_under 1 (sy_accepted (demo_run []))).
Proof.
  split; [vm_compute; reflexivity|]. split; [vm_compute; reflexivity|].
  apply (completed_ticket_durable no_json no_sha None None None small_config 0%N ReadyOk ReadyOk
    (MemDb_new []) 0 (demo_start []) (demo_run []) 1).
  - done.
  - apply demo_reachable. by left.
  - done.
  - vm_compute. reflexivity.
Defined.

(** C3: the books of every ticket balance.  In every reachable state the
    accepted records of a ticket split into those with a row in the committed
    database (or retired by retention), those quarantined and the rest; an unsettled ticket's progress
    counts the first two (at the counters' width), a failed ticket has no rest,
    lost at least one record and its counts are final, and a completed one has
    neither rest nor quarantined records. *)
Theorem ticket_books_balance {Conn} `{!SqliteConn Conn, !SqliteLaws Conn} json sha256
    quota writer_fault batcher_fault cfg timeout wr br (c : Conn) now_ms s0 s t :
  Storage_open cfg timeout wr br c now_ms = Ok s0 ->
  reachable_from json sha256 quota writer_fault batcher_fault s0 s -> t ≠ 0%N ->
  exists kept gone rest, kept ++ gone ++ rest ≡ₚ records_under t (sy_accepted s) /\
    has_rows json s kept /\
    let matches p := committed p = N.min u64_max (N.of_nat (length kept)) /\
                     dropped p = N.min u64_max (N.of_nat (length gone)) in
    match state (sy_ledger s) t with
    | Unsettled p => matches p
    | Failed p => matches p /\ gone ≠ [] /\ rest = []
    | Completed => gone = [] /\ rest = []
    end.
Proof.
  intros Hm Hr Ht. destruct (reachable_inv_system _ _ _ _ _ _ _ _ _ _ _ _ Hm _ Hr) as [h Hinv].
  pose proof (records_split _ _ _ _ _ t Hinv) as Hsp.
  exists (records_under t (stored h)), (records_under t (quarantined h)).
  eexists. split; [exact Hsp|]. split; [eapply stored_has_rows; [done|apply records_under_sub]|].
  pose proof (Permutation_length Hsp) as Hlen. rewrite !length_app in Hlen.
  pose proof (si_accounts _ _ _ _ _ Hinv t Ht) as Hac. rewrite !records_under_length.
  destruct (state (sy_ledger s) t) as [p| |p]; unfold accounted in Hac; rewrite <- !records_under_length in *.
  - done.
  - destruct Hac as [Hq Hs]. split; apply nil_length_inv; lia.
  - destruct Hac as (? & ? & Hq & Hs). split; [done|]. split; [|apply nil_length_inv; lia].
    intros Hnil. rewrite Hnil in Hq. simpl in Hq. lia.
Qed.

Lemma ticket_books_balance_witness :
  let s := demo_run one_bad_record in
  state (sy_ledger s) 1 = Failed (mk_progress 3 1) /\
  exists kept gone rest, kept ++ gone ++ rest ≡ₚ records_under 1 (sy_accepted s) /\
    has_rows no_json s kept /\ gone ≠ [] /\ rest = [].
Proof.
  intros s. assert (state (sy_ledger s) 1 = Failed (mk_progress 3 1)) as Hst by (vm_compute; reflexivity).
  split; [exact Hst|].
  destruct (ticket_books_balance no_json no_sha None None None small_config 0%N ReadyOk ReadyOk (MemDb_new one_bad_record) 0
    (demo_start one_bad_record) s 1)
    as (kept & gone & rest & Hp & Hrows & Hs); [done|apply demo_reachable; by right|done|].
  cbv zeta in Hs. rewrite Hst in Hs. destruct Hs as (_ & Hg & Hr).
  exists kept, gone, rest. split; [exact Hp|]. split; [exact Hrows|]. split; [exact Hg|exact Hr].
Defined.

(** With the ingest queue, the batcher's buffers and the command queue empty,
    and no fault injected into the batcher, nothing is outstanding. *)
Lemma idle_pipeline_settled {Conn} `{!SqliteConn Conn, !SqliteLaws Conn} json sha256
    quota writer_fault cfg timeout wr br (c : Conn) now_ms s0 s :
  Storage_open cfg timeout wr br c now_ms = Ok s0 ->
  reachable_from json sha256 quota writer_fault None s0 s ->
  sy_writer_alive s = true -> sy_input s = [] -> buffers (logs (sy_driver s)) = [] -> sy_queue s = [] ->
  outstanding_tickets (sy_ledger s) = 0%N /\
  exists stored gone, stored.*2 ++ gone ≡ₚ sy_accepted s /\
    retains (sy_retention s) (rows c) (rows (sy_conn s)) ((fun x => event_row json x.1 x.2.1) <$> stored) /\
    snap_records_written (Storage_stats s) = (N.of_nat (length stored) mod 2 ^ 64)%N /\
    snap_quarantined_records (Storage_stats s) = (N.of_nat (length gone) mod 2 ^ 64)%N.
Proof.
  intros Hm Hr Ha Hin Hbuf Hq. destruct (reachable_inv_system _ _ _ _ _ _ _ _ _ _ _ _ Hm _ Hr) as [h Hinv].
  destruct (si_healthy _ _ _ _ _ Hinv Ha) as (_ & Hret & _ & _ & Hno).
  destruct (Hno eq_refl) as [Hlost Hab].
  assert (pending (sy_driver s) = []) as Hp.
  { unfold pending, emitted. unfold sy_queue in Hq. rewrite Hq, Hret. unfold attributed_all. by rewrite Hbuf. }
  split.
  - pose proof (settled_count (sy_ledger s) (si_ledger _ _ _ _ _ Hinv)) as Hcount.
    rewrite filter_none in Hcount; [simpl in Hcount; unfold outstanding_tickets, sat_sub; lia|].
    apply Forall_forall. intros u Hu%elem_of_issued Hs.
    destruct (si_leak _ _ _ _ _ Hinv u ltac:(lia) ltac:(lia) Hs) as [H|[H|H]];
      rewrite ?Hp, ?Hin, ?Hab in H; by apply not_elem_of_nil in H.
  - exists (stored_rows h), (quarantined h). destruct (si_tally _ _ _ _ _ Hinv) as [Hr' Hq'].
    unfold stored in Hr'. rewrite length_fmap in Hr'.
    split; [|split; [apply (si_events _ _ _ _ _ Hinv)|by split]].
    rewrite <- (si_conserve _ _ _ _ _ Hinv), Hlost, Hp, Hin. simpl. by rewrite app_nil_r.
Qed.

(** C4: shutdown leaks no ticket.  When no fault is injected into the batcher,
    the batcher has drained and exited and the writer has emptied its queue,
    every issued ticket is settled and nothing was lost: the accepted records
    are exactly those appended to the database and those quarantined, and the
    rows of the database are the old ones and the appended ones, in order, less
    what the runs of retention account for; and the statistics count both, at the
    width of their counters. *)
Theorem drained_pipeline_settles {Conn} `{!SqliteConn Conn, !SqliteLaws Conn} json sha256
    quota writer_fault cfg timeout wr br (c : Conn) now_ms s0 s :
  Storage_open cfg timeout wr br c now_ms = Ok s0 ->
  reachable_from json sha256 quota writer_fault None s0 s ->
  sy_writer_alive s = true -> sy_batcher_done s = true -> sy_queue s = [] ->
  outstanding_tickets (sy_ledger s) = 0%N /\
  exists stored gone, stored.*2 ++ gone ≡ₚ sy_accepted s /\
    retains (sy_retention s) (rows c) (rows (sy_conn s)) ((fun x => event_row json x.1 x.2.1) <$> stored) /\
    snap_records_written (Storage_stats s) = (N.of_nat (length stored) mod 2 ^ 64)%N /\
    snap_quarantined_records (Storage_stats s) = (N.of_nat (length gone) mod 2 ^ 64)%N.
Proof.
  intros Hm Hr Ha Hd Hq. destruct (reachable_inv_system _ _ _ _ _ _ _ _ _ _ _ _ Hm _ Hr) as [h Hinv].
  destruct (si_healthy _ _ _ _ _ Hinv Ha) as (_ & _ & _ & Hbuf & _).
  eapply idle_pipeline_settled; eauto using si_drained.
Qed.

Lemma drained_pipeline_settles_witness :
  let s := demo_run one_bad_record in
  sy_batcher_done s = true /\ outstanding_tickets (sy_ledger s) = 0%N /\
  exists stored gone, stored.*2 ++ gone ≡ₚ sy_accepted s /\
    rows (sy_conn s) = rows (MemDb_new one_bad_record) ++ ((fun x => event_row no_json x.1 x.2.1) <$> stored) /\
    (N.of_nat (length gone) mod 2 ^ 64 = 1)%N.
Proof.
  intros s. split; [vm_compute; reflexivity|].
  destruct (drained_pipeline_settles no_json no_sha None None small_config 0%N ReadyOk ReadyOk (MemDb_new one_bad_record) 0
    (demo_start one_bad_record) s) as [Hout (stored & gone & Hp & [_ Horder] & _ & Hgone)].
  - done.
  - apply demo_reachable. by right.
  - vm_compute. reflexivity.
  - vm_compute. reflexivity.
  - vm_compute. reflexivity.
  - split; [exact Hout|]. exists stored, gone. split; [exact Hp|].
    split; [apply Horder; vm_compute; reflexivity|]. rewrite <- Hgone. vm_compute. reflexivity.
Defined.

End Pipeline.
