(* ===== verification/EndToEnd.v ===== *)
(** * An export against the running pipeline
    ([crates/otel-sqlite-ingress/src/logs.rs], [enqueue.rs])

    One request from its OTLP records to the rows of the database: it is mapped,
    its chunks are handed to the pipeline while everything else goes on, the
    handler waits and reads the ledger, and answers.  The hand-off is the loop of
    [enqueue] with the steps of the pipeline interleaved between the sends; the
    reads of the ledger are made one after the other in states of that run. *)

From S2P Require Import Prelude Time Model Text Render Command CommitLedger InsertBatcher OriginBuffers Enqueue Mapping Handler BatcherDriver Sqlite Rows Maintenance Writer Retention Pipeline.

Module EndToEnd.
Import Time Model Command CommitLedger Enqueue Mapping Handler Sqlite Rows Writer Retention Pipeline.

Local Open Scope list_scope.

Section export.
Context (json : SerdeValue -> string) (sha256 : list byte -> list byte).
Context {Conn : Type} `{!SqliteConn Conn, !SqliteLaws Conn}.
Context (quota writer_fault batcher_fault : option N).

Abbreviation System := (@System Conn) (only parsing).
Abbreviation step := (step json sha256 quota writer_fault batcher_fault) (only parsing).
Abbreviation reachable_from := (reachable_from json sha256 quota writer_fault batcher_fault) (only parsing).

(** The loop of [enqueue] over the chunks that are left, with its outcome so
    far; the first send that fails ends it. *)
Inductive hands_off : System -> list IngestMessage -> EnqueueOutcome -> System -> EnqueueOutcome -> Prop :=
| ho_done s o : hands_off s [] o s o
| ho_meanwhile s s1 work o s' o' : step s s1 -> hands_off s1 work o s' o' -> hands_off s work o s' o'
| ho_accept s chunk work o s' o' :
    sy_batcher_done s = false -> (next_ticket (sy_ledger s) < u64_max)%N ->
    hands_off (take_in s chunk) work
      (accept_chunk o (issue (sy_ledger s)).1 (message_records (Logs chunk))) s' o' ->
    hands_off s (Logs chunk :: work) o s' o'
| ho_refuse s chunk work o now_ms :
    (next_ticket (sy_ledger s) < u64_max)%N ->
    hands_off s (Logs chunk :: work) o (turn_away s now_ms) (refuse_rest o (sy_batcher_done s)).

(** [enqueue] of a request whose chunks the queue can hold: the reservation fails
    and everything is refused, or the chunks are handed off. *)
Inductive exported (s : System) (work : list IngestMessage) : System -> EnqueueOutcome -> Prop :=
| ex_full : exported s work s (refuse_rest (fresh_outcome (sum_records work)) false)
| ex_handed s' o : hands_off s work (fresh_outcome (sum_records work)) s' o -> exported s work s' o.

(** ** The records of the tickets *)

Lemma reachable_trans s1 s2 s3 : reachable_from s1 s2 -> reachable_from s2 s3 -> reachable_from s1 s3.
Proof. intros H12. induction 1; [done|]. by econstructor. Qed.

Lemma hands_off_reachable s work o s' o' : hands_off s work o s' o' -> reachable_from s s'.
Proof.
  induction 1 as [|s s1 work o s' o' Hstep _ IH|s chunk work o s' o' Hd Hlt _ IH|s chunk work o now_ms Hlt];
    [constructor| | |].
  - eapply reachable_trans; [|exact IH]. econstructor; [constructor|done].
  - eapply reachable_trans; [|exact IH]. econstructor; [constructor|by constructor].
  - econstructor; [constructor|by constructor].
Qed.

(** Admissions extend the log with records under a ticket of their own. *)
Lemma step_accepted base s s' h :
  system_inv json batcher_fault base s h -> step s s' ->
  exists new, sy_accepted s' = sy_accepted s ++ new /\ forall u, u ∈ new.*2 -> u ∉ (sy_accepted s).*2.
Proof.
  intros Hinv Hstep. destruct Hstep as [s chunk Hd Hlt| | | | | | | | |];
    try (exists []; split; [by rewrite app_nil_r|intros u Hu; by apply not_elem_of_nil in Hu]).
  destruct (fresh_ticket _ _ _ _ _ Hinv Hlt) as (_ & _ & Hna & _).
  eexists. split; [done|]. intros u [-> _]%BatcherDriver.elem_of_with_ticket. exact Hna.
Qed.

(** What a ticket that has records accepted under it carries is settled for
    good. *)
Lemma share_later base s s' h t :
  system_inv json batcher_fault base s h -> reachable_from s s' -> t ∈ (sy_accepted s).*2 ->
  t ∈ (sy_accepted s').*2 /\
  filter (fun x => x.2 = t) (sy_accepted s') = filter (fun x => x.2 = t) (sy_accepted s).
Proof.
  intros Hinv Hr Ht. induction Hr as [|s1 s2 Hr [IHt IH] Hstep]; [done|].
  destruct (reachable_extends _ _ _ _ _ _ _ _ _ Hinv Hr) as (h1 & Hinv1 & _).
  destruct (step_accepted _ _ _ _ Hinv1 Hstep) as (new & -> & Hnew). split.
  - rewrite fmap_app. apply elem_of_app. by left.
  - rewrite filter_app, IH, (filter_none _ new), app_nil_r; [done|].
    apply Forall_forall. intros x Hx <-. apply (Hnew x.2); [|done]. by apply list_elem_of_fmap_2.
Qed.

(** The records of a request, by the ticket they were accepted under. *)
Abbreviation shares := (list (N * list LogRecord)) (only parsing).

Definition shared (s : System) (p : N * list LogRecord) : Prop :=
  p.1 ≠ 0%N /\ p.1 ∈ (sy_accepted s).*2 /\
  filter (fun x => x.2 = p.1) (sy_accepted s) = BatcherDriver.with_ticket p.1 p.2.

Definition ticket_pair (p : N * list LogRecord) : N * N := (p.1, vec_len p.2).

Lemma shared_count s p : shared s p -> count_ticket p.1 (sy_accepted s) = vec_len p.2.
Proof. intros (_ & _ & Hf). unfold count_ticket. rewrite Hf. unfold BatcherDriver.with_ticket. by rewrite length_fmap. Qed.

Lemma shared_later base s s' h p :
  system_inv json batcher_fault base s h -> reachable_from s s' -> shared s p -> shared s' p.
Proof.
  intros Hinv Hr (Hz & Ht & Hf). destruct (share_later _ _ _ _ _ Hinv Hr Ht) as [Ht' Hf'].
  split; [done|]. split; [done|]. by rewrite Hf'.
Qed.

(** What a hand-off leaves: a prefix of the chunks, each under a new ticket. *)
Record handed (s s' : System) (o o' : EnqueueOutcome) (work : list IngestMessage) (ps : shares) : Prop := {
  hd_sent : exists rest, mapped_records work = concat ps.*2 ++ rest;
  hd_new : Forall (fun p => p.1 ∉ (sy_accepted s).*2) ps;
  hd_nodup : NoDup ps.*1;
  hd_shared : Forall (shared s') ps;
  hd_tickets : tickets o' = tickets o ++ (ticket_pair <$> ps);
  hd_total : total_records o' = total_records o;
  hd_accepted : accepted o' = (accepted o + vec_len (concat ps.*2))%N;
  hd_books : rejected o = 0%N -> total_records o = (accepted o + sum_records work)%N ->
             (accepted o' + rejected o' = total_records o')%N;
}.

Lemma hands_off_spec base s work o s' o' h :
  hands_off s work o s' o' -> system_inv json batcher_fault base s h ->
  Forall (fun m => IngestMessage_record_count m <> 0) work ->
  exists ps, handed s s' o o' work ps.
Proof.
  intros Hoff. revert h. induction Hoff as [s o|s s1 work o s' o' Hstep Hoff IH
    |s chunk work o s' o' Hd Hlt Hoff IH|s chunk work o now_ms Hlt]; intros h Hinv Hne.
  - exists []. split; cbn; [by exists []|once constructor..|by rewrite app_nil_r|done|unfold vec_len; simpl; lia|intros; lia].
  - destruct (system_step_inv _ _ _ _ _ _ _ _ _ Hinv Hstep) as (h1 & Hinv1 & _).
    destruct (IH h1 Hinv1 Hne) as [ps [Hs Hnew Hnd Hsh Ht Htot Ha Hb]]. exists ps. split; try done.
    destruct (step_accepted _ _ _ _ Hinv Hstep) as (new & Hacc & _). rewrite Hacc in Hnew.
    eapply Forall_impl; [exact Hnew|]. intros p Hp Hin. apply Hp. rewrite fmap_app. apply elem_of_app. by left.
  - apply Forall_cons in Hne as [Hc Hne]. simpl in Hc.
    destruct (fresh_ticket _ _ _ _ _ Hinv Hlt) as (_ & Hnz & Hna & _).
    pose proof (inv_accept _ _ _ _ _ chunk Hinv Hd Hlt) as Hinv1.
    destruct (IH h Hinv1 Hne) as [ps [[rest Hs] Hnew Hnd Hsh Ht Htot Ha Hb]].
    set (t := (issue (sy_ledger s)).1) in *.
    assert (chunk_records chunk ≠ []) as Hcr by (by destruct (chunk_records chunk)).
    assert (t ∈ (sy_accepted (take_in s chunk)).*2) as Hin.
    { unfold take_in. cbn [sy_accepted]. rewrite fmap_app. apply elem_of_app. right.
      by apply BatcherDriver.elem_of_with_ticket. }
    exists ((t, chunk_records chunk) :: ps). split.
    + exists rest. cbn [mapped_records]. unfold mapped_records in *. rewrite bind_cons, Hs. simpl. by rewrite app_assoc.
    + constructor; [done|]. eapply Forall_impl; [exact Hnew|]. intros p Hp Hin'. apply Hp.
      unfold take_in. cbn [sy_accepted]. rewrite fmap_app. apply elem_of_app. by left.
    + cbn. constructor; [|done]. intros Hin'. apply list_elem_of_fmap in Hin' as (p & Heq & Hp).
      rewrite Forall_forall in Hnew. apply (Hnew p Hp). rewrite <- Heq. exact Hin.
    + constructor; [|done].
      eapply (shared_later base (take_in s chunk)); [exact Hinv1|by eapply hands_off_reachable|].
      split; [done|]. split; [done|]. unfold take_in. cbn [sy_accepted fst snd]. rewrite filter_app.
      rewrite (filter_none _ (sy_accepted s)).
      * rewrite filter_all; [done|]. unfold BatcherDriver.with_ticket. apply Forall_fmap, Forall_forall. done.
      * apply Forall_forall. intros x Hx Heq. apply Hna. rewrite <- Heq. by apply list_elem_of_fmap_2.
    + rewrite Ht. cbn. by rewrite <- app_assoc.
    + done.
    + rewrite Ha. cbn. unfold message_records, vec_len. simpl. rewrite length_app. lia.
    + intros Hr Htt. apply Hb; [done|]. cbn. cbn in Htt. unfold message_records in *. simpl in *. lia.
  - exists []. split; cbn; [by eexists|once constructor..|by rewrite app_nil_r|done|unfold vec_len; simpl; lia|].
    intros _ Htt. cbn in Htt. unfold sat_sub. lia.
Qed.

(** ** What the reads report is stored *)

Lemma extends_count h h' t : extends h h' -> (count_ticket t (stored h) <= count_ticket t (stored h'))%N.
Proof. intros [more Hm]. unfold stored. rewrite Hm, fmap_app, count_ticket_app. lia. Qed.

Section reads.
Context (base : list EventRow) (s1 : System) (h1 : History).
Context (Hinv : system_inv json batcher_fault base s1 h1).
Context (ss : nat -> System) (Hfirst : reachable_from s1 (ss 0)).
Context (Hnext : forall k, reachable_from (ss k) (ss (S k))).
Context (ps : shares) (Hps : Forall (shared s1) ps).

(** What the [k]-th read reports of a ticket. *)
Definition reported (k : nat) (p : N * list LogRecord) : N :=
  ticket_committed (state (sy_ledger (ss k)) p.1) (vec_len p.2).

Lemma reads_reachable k : reachable_from s1 (ss k).
Proof using Hfirst Hnext. induction k as [|k IH]; [done|]. by eapply reachable_trans. Qed.

Lemma reads_shared k p : p ∈ ps -> shared (ss k) p.
Proof using Type*.
  intros Hp. rewrite Forall_forall in Hps. eapply shared_later; [exact Hinv|apply reads_reachable|by apply Hps].
Qed.

(** A history of the latest read has stored what every read reported. *)
Lemma reads_stored m : exists h, system_inv json batcher_fault base (ss m) h /\
  forall k p, k <= m -> ps !! k = Some p -> (reported k p <= count_ticket p.1 (stored h))%N.
Proof using Type*.
  assert (forall k h p, system_inv json batcher_fault base (ss k) h -> ps !! k = Some p ->
    (reported k p <= count_ticket p.1 (stored h))%N) as Hread.
  { intros k h p Hk Hp%list_elem_of_lookup_2. pose proof (reads_shared k p Hp) as Hs.
    unfold reported. rewrite <- (shared_count _ _ Hs). destruct Hs as (Hz & _). by eapply reported_stored. }
  induction m as [|m (h & Hh & IH)].
  - destruct (reachable_extends _ _ _ _ _ _ _ _ _ Hinv Hfirst) as (h & Hh & _). exists h. split; [done|].
    intros k p Hk Hp. assert (k = 0) as -> by lia. by eapply Hread.
  - destruct (reachable_extends _ _ _ _ _ _ _ _ _ Hh (Hnext m)) as (h' & Hh' & Hext). exists h'. split; [done|].
    intros k p Hk Hp. destruct (decide (k = S m)) as [->|]; [by eapply Hread|].
    pose proof (extends_count h h' p.1 Hext). specialize (IH k p ltac:(lia) Hp). lia.
Qed.

Lemma reads_bound k p : ps !! k = Some p -> (reported k p <= vec_len p.2)%N.
Proof using Type*.
  intros Hp. destruct (reads_stored k) as (h & Hh & Hr). specialize (Hr k p ltac:(lia) Hp).
  pose proof (stored_bound _ _ _ _ _ p.1 Hh) as Hb.
  rewrite (shared_count _ _ (reads_shared k p (list_elem_of_lookup_2 _ _ _ Hp))) in Hb. lia.
Qed.

End reads.

(** ** Choosing the rows *)

(** Records under different tickets are different records. *)
Lemma concat_under ts l : NoDup ts -> concat ((fun t => records_under t l) <$> ts) ⊆+ l.*1.
Proof.
  intros Hnd. revert l. induction Hnd as [|t ts Ht _ IH]; intros l; [apply submseteq_nil_l|].
  rewrite fmap_cons. cbn [concat].
  assert (((fun u => records_under u l) <$> ts) =
    ((fun u => records_under u (filter (fun x => ~ x.2 = t) l)) <$> ts)) as ->.
  { apply list_fmap_ext. intros i u Hu. unfold records_under. f_equal.
    rewrite list_filter_filter_l; [done|]. intros x <- Heq. apply Ht. rewrite <- Heq. by eapply list_elem_of_lookup_2. }
  transitivity ((filter (fun x => x.2 = t) l ++ filter (fun x => ~ x.2 = t) l).*1).
  - rewrite fmap_app. apply submseteq_app; [done|apply IH].
  - by rewrite filter_app_complement.
Qed.

(** As many records as the tally of the reads, each among those of its share
    and among the stored ones. *)
Lemma choose_reported (h : History) (reads : nat -> CommitLedger) (ps : shares) : forall k,
  (forall i p, ps !! i = Some p ->
    (ticket_committed (state (reads (k + i)%nat) p.1) (vec_len p.2) <= count_ticket p.1 (stored h))%N /\
    records_under p.1 (stored h) ⊆+ p.2) ->
  exists kept, vec_len kept = (tally reads k (ticket_pair <$> ps)).1 /\ kept ⊆+ concat ps.*2 /\
    kept ⊆+ concat ((fun t => records_under t (stored h)) <$> ps.*1).
Proof.
  induction ps as [|p ps IH]; intros k Hps; [by exists []|].
  destruct (Hps 0 p eq_refl) as [Hc Hsub]. rewrite Nat.add_0_r in Hc.
  destruct (IH (S k)) as (kept & Hlen & Hk1 & Hk2).
  { intros i q Hq. rewrite Nat.add_succ_l, <- Nat.add_succ_r. by apply (Hps (S i)). }
  set (n := ticket_committed (state (reads k) p.1) (vec_len p.2)) in *.
  assert (take (N.to_nat n) (records_under p.1 (stored h)) ⊆+ records_under p.1 (stored h)) as Htake
    by apply sublist_submseteq, sublist_take.
  exists (take (N.to_nat n) (records_under p.1 (stored h)) ++ kept). split; [|split].
  - rewrite fmap_cons. cbn [tally ticket_pair]. fold n. destruct (tally reads (S k) (ticket_pair <$> ps)) as [total f].
    cbn [fst] in *. rewrite <- Hlen. unfold vec_len. rewrite length_app, length_take.
    rewrite <- records_under_length in Hc. lia.
  - rewrite fmap_cons. cbn [concat]. apply submseteq_app; [by etransitivity|done].
  - rewrite !fmap_cons. cbn [concat]. by apply submseteq_app.
Qed.

(** A stored record of a share is one of its records. *)
Lemma stored_share base s h p :
  system_inv json batcher_fault base s h -> shared s p -> records_under p.1 (stored h) ⊆+ p.2.
Proof.
  intros Hinv (_ & _ & Hf). pose proof (records_split _ _ _ _ _ p.1 Hinv) as Hsp.
  unfold records_under at 4 in Hsp. rewrite Hf in Hsp. unfold BatcherDriver.with_ticket in Hsp.
  rewrite <- list_fmap_compose in Hsp. cbn in Hsp. rewrite list_fmap_id in Hsp.
  rewrite <- Hsp. by apply submseteq_inserts_r.
Qed.

(** The rows of OTLP records: each is the conversion of its record under the
    scope it was sent in, column by column. *)
Definition has_otlp_rows (s : System) (protos : list (ScopeLogs * ProtoLogRecord)) : Prop :=
  exists records, Forall2 mapped_from protos records /\ has_rows json s records.

Lemma mapped_sub protos records kept :
  Forall2 mapped_from protos records -> kept ⊆+ records ->
  exists kept', kept' ⊆+ protos /\ Forall2 mapped_from kept' kept.
Proof.
  intros Hm [rest Hperm]%submseteq_Permutation. apply Forall2_flip in Hm.
  destruct (Permutation_Forall2 Hperm Hm) as (protos' & Hp & Hm').
  apply Forall2_app_inv_l in Hm' as (kept' & rest' & Hk & _ & ->).
  exists kept'. split; [|by apply Forall2_flip]. rewrite Hp. by apply submseteq_inserts_r.
Qed.

(** The outcome of an export against the log of admissions. *)
Lemma exported_spec base s work s' o h :
  exported s work s' o -> system_inv json batcher_fault base s h ->
  Forall (fun m => IngestMessage_record_count m <> 0) work ->
  exists ps, (exists rest, mapped_records work = concat ps.*2 ++ rest) /\ NoDup ps.*1 /\ Forall (shared s') ps /\
    tickets o = ticket_pair <$> ps /\ total_records o = sum_records work /\ outcome_ok o.
Proof.
  intros [|s1 o1 Hoff] Hinv Hne.
  - exists []. split_and!; try done; [by eexists|constructor|]. split; simpl; unfold sat_sub; lia.
  - destruct (hands_off_spec _ _ _ _ _ _ _ Hoff Hinv Hne) as [ps [Hs _ Hnd Hsh Ht Htot Ha Hb]].
    exists ps. split_and!; try done. split; [by apply Hb|]. rewrite Ht, Ha. cbn [fresh_outcome tickets accepted].
    clear. induction ps as [|p ps IH]; [done|]. rewrite !fmap_cons. cbn [app concat] in *.
    unfold ticket_sum in *. cbn [foldr ticket_pair snd]. rewrite IH. unfold vec_len. rewrite length_app. lia.
Qed.

Lemma exported_reachable s work s' o : exported s work s' o -> reachable_from s s'.
Proof. intros [|]; [constructor|by eapply hands_off_reachable]. Qed.

End export.

(** ** Claims *)

(** C2: an acknowledged export is durable, from the wire to the row.  A request
    is mapped and exported while the pipeline runs in any interleaving, and the
    commit-mode handler answers after reading the ledger once per ticket, in
    that order.  Then there are records of the request, as many as the response
    leaves unrejected, that each have a row of their own in the committed
    database with the columns the record converts to, those of the scope it was
    sent in included, at that time and in every
    later state, until a logged run of retention accounts for the removal: all
    records of the request for a plain success, and all but the rejected number
    for a partial one. *)
Theorem acknowledged_is_durable {Conn} `{!SqliteConn Conn, !SqliteLaws Conn} json sha256
    quota writer_fault batcher_fault cfg timeout wr br (c : Conn) now_ms s0 s av kv at_ limits request work
    s1 o (ss : nat -> System) later obs resp :
  Storage_open cfg timeout wr br c now_ms = Ok s0 ->
  reachable_from json sha256 quota writer_fault batcher_fault s0 s ->
  map_request av kv at_ limits request = Ok work ->
  exported json sha256 quota writer_fault batcher_fault s work s1 o ->
  reachable_from json sha256 quota writer_fault batcher_fault s1 (ss 0) ->
  (forall k, reachable_from json sha256 quota writer_fault batcher_fault (ss k) (ss (S k))) ->
  (forall k, reachable_from json sha256 quota writer_fault batcher_fault (ss k) later) ->
  (forall k, obs_reads obs k = sy_ledger (ss k)) ->
  finish Commit obs o = Some resp ->
  exists kept, kept ⊆+ proto_records request /\ has_otlp_rows json later kept /\
    truthful (count request) (vec_len kept) resp.
Proof.
  intros Hopen Hr Hmap Hex Hfirst Hnext Hlater Hobs Hfin.
  destruct (reachable_inv_system _ _ _ _ _ _ _ _ _ _ _ _ Hopen _ Hr) as [h Hinv].
  pose proof (exported_reachable _ _ _ _ _ _ _ _ _ Hex) as Hr1.
  destruct (reachable_extends _ _ _ _ _ _ _ _ _ Hinv Hr1) as (h1 & Hinv1 & _).
  destruct (map_request_records _ _ _ _ _ _ Hmap) as (Hrec & Hne & Hcount).
  destruct (exported_spec _ _ _ _ _ _ _ _ _ _ _ Hex Hinv Hne) as (ps & [rest Hsent] & Hnd & Hsh & Htk & Htot & Hok).
  assert (reads_bounded (obs_reads obs) 0 (tickets o)) as Hbound.
  { intros i t r Hi. rewrite Htk in Hi. apply list_lookup_fmap_Some in Hi as (p & Heq & Hp).
    injection Heq as -> ->. rewrite Hobs.
    exact (reads_bound _ _ _ _ _ _ _ _ Hinv1 ss Hfirst Hnext ps Hsh i p Hp). }
  apply finish_truthful in Hfin; [|done|done].
  destruct (reads_stored _ _ _ _ _ _ _ _ Hinv1 ss Hfirst Hnext ps Hsh (length ps)) as (hm & Hinvm & Hst).
  destruct (reachable_extends _ _ _ _ _ _ _ _ _ Hinvm (Hlater (length ps))) as (hl & Hinvl & Hext).
  destruct (choose_reported hl (obs_reads obs) ps 0) as (kept & Hlen & Hk1 & Hk2).
  { intros i p Hp. rewrite Nat.add_0_l, Hobs. split.
    - pose proof (extends_count _ _ p.1 Hext). apply lookup_lt_Some in Hp as Hlt.
      specialize (Hst i p ltac:(lia) Hp). unfold reported in Hst. lia.
    - eapply stored_share; [exact Hinvl|]. eapply (shared_later json sha256 quota writer_fault batcher_fault); [exact Hinvm|apply Hlater|].
      eapply (reads_shared json sha256 quota writer_fault batcher_fault); [exact Hinv1|exact Hfirst|exact Hnext|exact Hsh|by eapply list_elem_of_lookup_2]. }
  destruct (mapped_sub (proto_records request) (mapped_records work) kept Hrec) as (kept' & Hsub & Hm).
  { rewrite Hsent, Hk1. by apply submseteq_inserts_r. }
  exists kept'. split; [done|]. split.
  - exists kept. split; [done|]. eapply stored_has_rows; [exact Hinvl|].
    etransitivity; [exact Hk2|by apply concat_under].
  - rewrite Htk, Htot in Hfin. rewrite Hcount. unfold vec_len in *. apply Forall2_length in Hm. by rewrite Hm, Hlen.
Qed.

(** The two records of a small request: queued, flushed by the exit of the
    batcher, written, acknowledged; then a prune removes the older one. *)
Definition demo_work : list IngestMessage :=
  match map_request 32 64 56 Limits_default sample_request with Ok work => work | Err _ => [] end.

Definition demo_request_chunk : LogChunk :=
  match demo_work with Logs chunk :: _ => chunk | _ => demo_chunk end.

Definition demo_admitted : MemSystem := take_in (demo_start []) demo_request_chunk.
Definition demo_stored : MemSystem := demo_write 0 (demo_exit (demo_batch demo_admitted)).

Definition demo_outcome : EnqueueOutcome := accept_chunk (fresh_outcome 2) 1 2.

Lemma demo_exported : exported no_json no_sha None None None (demo_start []) demo_work demo_admitted demo_outcome.
Proof.
  assert (demo_work = [Logs demo_request_chunk]) as -> by (vm_compute; reflexivity).
  apply ex_handed. apply ho_accept; [reflexivity|vm_compute; reflexivity|].
  assert (forall o, o = demo_outcome ->
    hands_off no_json no_sha None None None demo_admitted [] o demo_admitted demo_outcome) as Hdone
    by (intros o ->; constructor).
  apply Hdone. vm_compute. reflexivity.
Qed.

Lemma demo_stored_reachable : reachable_from no_json no_sha None None None demo_admitted demo_stored.
Proof.
  eapply rf_step; [eapply rf_step; [eapply rf_step; [apply rf_start|]|]|].
  - apply demo_batch_step. vm_compute. reflexivity.
  - apply demo_exit_step. vm_compute. reflexivity.
  - apply demo_write_step. vm_compute. reflexivity.
Qed.

Lemma acknowledged_is_durable_witness :
  let obs := {| obs_watermark := watermark (sy_ledger demo_stored); obs_wakeups := [];
                obs_reads := fun _ => sy_ledger demo_stored |} in
  let later := demo_prune 8 demo_stored in
  finish Commit obs demo_outcome = Some (Ok ExportLogsServiceResponse_default) /\
  length (rows (sy_conn demo_stored)) = 2 /\ length (rows (sy_conn later)) = 1 /\
  exists kept, kept ⊆+ proto_records sample_request /\ has_otlp_rows no_json later kept /\ vec_len kept = 2%N.
Proof.
  intros obs later.
  assert (finish Commit obs demo_outcome = Some (Ok ExportLogsServiceResponse_default)) as Hfin
    by (vm_compute; reflexivity).
  split; [exact Hfin|]. split; [vm_compute; reflexivity|]. split; [vm_compute; reflexivity|].
  destruct (acknowledged_is_durable no_json no_sha None None None OriginBuffers.small_config 0%N ReadyOk ReadyOk
    (MemDb_new []) 0 (demo_start []) (demo_start []) 32 64 56 Limits_default sample_request demo_work
    demo_admitted demo_outcome (fun _ => demo_stored) later obs (Ok ExportLogsServiceResponse_default))
    as (kept & Hsub & Hrows & Htruth).
  - reflexivity.
  - apply rf_start.
  - vm_compute. reflexivity.
  - exact demo_exported.
  - exact demo_stored_reachable.
  - intros k. apply rf_start.
  - intros k. apply demo_prune_run; vm_compute; reflexivity.
  - intros k. reflexivity.
  - exact Hfin.
  - exists kept. split; [exact Hsub|]. split; [exact Hrows|]. simpl in Htruth. rewrite Htruth. vm_compute. reflexivity.
Defined.

End EndToEnd.
