(* ===== verification/Scheduler.v ===== *)
(** * Maintenance scheduler and worker
    ([crates/otel-sqlite-runtime/src/scheduler.rs], [worker.rs], [config.rs])

    The scheduler owns the due times of the periodic operations; a tick offers
    the command of every due operation to the bounded command queue.  The queue
    is shared with the other producers and drained by the writer, so what each
    [try_send] answers is the environment's choice: a tick takes the answers in
    the order of its attempts and returns the commands the queue accepted.  The
    worker is the loop around it, one [Cycle] per iteration. *)

From S2P Require Import Prelude Time Model Text Command.

Module Scheduler.
Import Time.

Local Open Scope string_scope.
Local Open Scope list_scope.
Local Open Scope N_scope.

(** ** Configuration ([config.rs]) *)

Record MaintenanceConfig := {
  retention : option Duration;
  cfg_purge_interval : option Duration;
  checkpoint_interval : option Duration;
  checkpoint_mode : Command.CheckpointMode;
  optimize_interval : option Duration;
  vacuum_interval : option Duration;
  rebuild_fts_interval : option Duration;
  retry_delay : Duration;
}.

Definition MaintenanceConfig_default : MaintenanceConfig :=
  {| retention := None;
     cfg_purge_interval := Some (from_secs (15 * 60));
     checkpoint_interval := Some (from_secs (5 * 60));
     checkpoint_mode := Command.Passive;
     optimize_interval := Some (from_secs (12 * 60 * 60));
     vacuum_interval := Some (from_secs (24 * 60 * 60));
     rebuild_fts_interval := None;
     retry_delay := from_secs 2 |}.

(** ** Operations and tasks *)

Definition MIN_RETRY_DELAY : Duration := from_millis 10.

Inductive Operation := Purge | Checkpoint | Optimize | Vacuum | RebuildFts.

#[export] Instance Operation_eq_dec : EqDecision Operation.
Proof. solve_decision. Defined.

Definition label (o : Operation) : string :=
  match o with
  | Purge => "purge"
  | Checkpoint => "checkpoint"
  | Optimize => "optimize"
  | Vacuum => "vacuum"
  | RebuildFts => "rebuild_fts"
  end.

Definition build (o : Operation) (config : MaintenanceConfig) : Command.WriteCommand :=
  match o with
  | Purge => Command.Maintenance (Command.Prune (retention config))
  | Checkpoint => Command.Checkpoint (checkpoint_mode config)
  | Optimize => Command.Maintenance Command.Analyze
  | Vacuum => Command.Maintenance Command.Vacuum
  | RebuildFts => Command.Maintenance Command.RebuildFts
  end.

Record TickReport := {
  scheduled : nat;
  rep_deferred : nat;
  disconnected : bool;
}.

Definition TickReport_default : TickReport :=
  {| scheduled := 0; rep_deferred := 0; disconnected := false |}.

Record Task := {
  operation : Operation;
  interval : option Duration;
  next_due : option Instant;
  deferred : bool;
}.

Definition Task_new (o : Operation) (every : option Duration) (now : Instant) : Task :=
  let every := match every with Some d => if d =? 0 then None else Some d | None => None end in
  {| operation := o; interval := every;
     next_due := saturating_deadline now <$> every; deferred := false |}.

Definition due (t : Task) (now : Instant) : bool :=
  match next_due t with Some d => d <=? now | None => false end.

Definition reschedule (t : Task) (now : Instant) : Task :=
  {| operation := operation t; interval := interval t;
     next_due := match interval t with
                 | Some every => Some (saturating_deadline now every)
                 | None => next_due t
                 end;
     deferred := false |}.

Definition defer (t : Task) (now : Instant) (delay : Duration) : Task :=
  {| operation := operation t; interval := interval t;
     next_due := Some (saturating_deadline now delay); deferred := true |}.

(** ** The scheduler *)

Record Scheduler := {
  tasks : list Task;
  config : MaintenanceConfig;
}.

Definition purge_interval (c : MaintenanceConfig) : option Duration :=
  match retention c with
  | None => None
  | Some _ => cfg_purge_interval c
  end.

Definition clamp_retry_delay (c : MaintenanceConfig) : MaintenanceConfig :=
  {| retention := retention c; cfg_purge_interval := cfg_purge_interval c;
     checkpoint_interval := checkpoint_interval c; checkpoint_mode := checkpoint_mode c;
     optimize_interval := optimize_interval c; vacuum_interval := vacuum_interval c;
     rebuild_fts_interval := rebuild_fts_interval c;
     retry_delay := N.max (retry_delay c) MIN_RETRY_DELAY |}.

Definition Scheduler_new (c : MaintenanceConfig) (now : Instant) : Scheduler :=
  let c := clamp_retry_delay c in
  {| tasks := [Task_new Purge (purge_interval c) now;
               Task_new Checkpoint (checkpoint_interval c) now;
               Task_new Optimize (optimize_interval c) now;
               Task_new Vacuum (vacuum_interval c) now;
               Task_new RebuildFts (rebuild_fts_interval c) now];
     config := c |}.

Definition enabled (t : Task) : bool := match interval t with Some _ => true | None => false end.

Definition enabled_task_count (s : Scheduler) : nat :=
  length (filter (fun t => enabled t = true) (tasks s)).

(** What [try_send] answers. *)
Inductive Answer := Accepted | QueueFull | QueueClosed.

(** The messages a tick logs. *)
Inductive Notice :=
| Recovered (o : Operation)
| CommandScheduled (o : Operation)
| WarnDeferred (o : Operation) (kind : string)
| StillDeferred (o : Operation) (kind : string)
| ClosedWhileEnqueueing (o : Operation) (kind : string).

Record Ticked := {
  tk_tasks : list Task;
  tk_report : TickReport;
  tk_sent : list (Operation * Command.WriteCommand);
  tk_notices : list Notice;
}.

(** The loop over the tasks; [k] counts the attempts made so far. *)
Fixpoint tick_tasks (c : MaintenanceConfig) (now : Instant) (answer : nat -> Answer) (k : nat)
    (ts : list Task) (report : TickReport) : Ticked :=
  match ts with
  | [] => {| tk_tasks := []; tk_report := report; tk_sent := []; tk_notices := [] |}
  | task :: rest =>
      if negb (due task now) then
        let r := tick_tasks c now answer k rest report in
        {| tk_tasks := task :: tk_tasks r; tk_report := tk_report r; tk_sent := tk_sent r;
           tk_notices := tk_notices r |}
      else
        let o := operation task in
        let command := build o c in
        match answer k with
        | Accepted =>
            let r := tick_tasks c now answer (S k) rest
                       {| scheduled := S (scheduled report); rep_deferred := rep_deferred report;
                          disconnected := disconnected report |} in
            {| tk_tasks := reschedule task now :: tk_tasks r; tk_report := tk_report r;
               tk_sent := (o, command) :: tk_sent r;
               tk_notices := (if deferred task then [Recovered o] else []) ++
                             CommandScheduled o :: tk_notices r |}
        | QueueFull =>
            let r := tick_tasks c now answer (S k) rest
                       {| scheduled := scheduled report; rep_deferred := S (rep_deferred report);
                          disconnected := disconnected report |} in
            {| tk_tasks := defer task now (retry_delay c) :: tk_tasks r; tk_report := tk_report r;
               tk_sent := tk_sent r;
               tk_notices := (if deferred task then StillDeferred o (Command.kind command)
                              else WarnDeferred o (Command.kind command)) :: tk_notices r |}
        | QueueClosed =>
            {| tk_tasks := task :: rest;
               tk_report := {| scheduled := scheduled report; rep_deferred := rep_deferred report;
                               disconnected := true |};
               tk_sent := [];
               tk_notices := [ClosedWhileEnqueueing o (Command.kind command)] |}
        end
  end.

Definition tick (s : Scheduler) (now : Instant) (answer : nat -> Answer) : Scheduler * Ticked :=
  let r := tick_tasks (config s) now answer 0 (tasks s) TickReport_default in
  ({| tasks := tk_tasks r; config := config s |}, r).

Definition min_due (a b : option Instant) : option Instant :=
  match a, b with
  | Some x, Some y => Some (N.min x y)
  | Some x, None => Some x
  | None, _ => b
  end.

Definition next_deadline (s : Scheduler) : option Instant :=
  foldr (fun t acc => min_due (next_due t) acc) None (tasks s).

(** ** The worker loop ([worker.rs], [run]) *)

(** What ended the wait of a cycle. *)
Inductive Woken := ByShutdown | ByTimer.

(** One iteration: whether a shutdown is pending at its start, the clock
    reading and the queue's answers of its tick, and what ends its wait. *)
Record Cycle := {
  cy_shutdown : bool;
  cy_now : Instant;
  cy_answer : nat -> Answer;
  cy_woken : Woken;
}.

Inductive Flow := Continue (s : Scheduler) | Break.

(** The sent commands carry the instant of their tick. *)
Definition Sent := list (Instant * (Operation * Command.WriteCommand)).

Definition cycle (s : Scheduler) (e : Cycle) : Flow * Sent :=
  if cy_shutdown e then (Break, [])
  else
    let (s', r) := tick s (cy_now e) (cy_answer e) in
    let sent := (fun x => (cy_now e, x)) <$> tk_sent r in
    if disconnected (tk_report r) then (Break, sent)
    else
      match next_deadline s' with
      | Some _ =>
          match cy_woken e with
          | ByShutdown => (Break, sent)
          | ByTimer => (Continue s', sent)
          end
      | None => (Break, sent)
      end.

Fixpoint run (s : Scheduler) (es : list Cycle) : Flow * Sent :=
  match es with
  | [] => (Continue s, [])
  | e :: es' =>
      match cycle s e with
      | (Break, sent) => (Break, sent)
      | (Continue s', sent) =>
          let (f, sent') := run s' es' in (f, sent ++ sent')
      end
  end.

(** ** Properties of a tick *)

(** The interval a configuration gives an operation ([None]: disabled). *)
Definition configured (c : MaintenanceConfig) (o : Operation) : option Duration :=
  let every :=
    match o with
    | Purge => purge_interval c
    | Checkpoint => checkpoint_interval c
    | Optimize => optimize_interval c
    | Vacuum => vacuum_interval c
    | RebuildFts => rebuild_fts_interval c
    end in
  match every with Some d => if d =? 0 then None else Some d | None => None end.

(** What one tick does to one task, and the command it got accepted. *)
Inductive task_ticked (c : MaintenanceConfig) (now : Instant)
    : Task -> Task -> list (Operation * Command.WriteCommand) -> Prop :=
| ticked_waits t : due t now = false -> task_ticked c now t t []
| ticked_sent t : due t now = true ->
    task_ticked c now t (reschedule t now) [(operation t, build (operation t) c)]
| ticked_full t : due t now = true ->
    task_ticked c now t (defer t now (retry_delay c)) [].

Inductive tasks_ticked (c : MaintenanceConfig) (now : Instant)
    : list Task -> list Task -> list (Operation * Command.WriteCommand) -> Prop :=
| all_ticked : tasks_ticked c now [] [] []
| next_ticked t t' ts ts' out sent :
    task_ticked c now t t' out -> tasks_ticked c now ts ts' sent ->
    tasks_ticked c now (t :: ts) (t' :: ts') (out ++ sent)
| closed_ticked t ts : due t now = true -> tasks_ticked c now (t :: ts) (t :: ts) [].

Lemma tick_tasks_spec c now answer ts : forall k report,
  tasks_ticked c now ts (tk_tasks (tick_tasks c now answer k ts report))
                        (tk_sent (tick_tasks c now answer k ts report)).
Proof.
  induction ts as [|t ts IH]; intros k report; simpl; [constructor|].
  destruct (due t now) eqn:Hd; simpl.
  - destruct (answer k); simpl.
    + by apply (next_ticked _ _ _ _ _ _ [_]); [constructor|].
    + by apply (next_ticked _ _ _ _ _ _ []); [constructor|].
    + by constructor.
  - by apply (next_ticked _ _ _ _ _ _ []); [constructor|].
Qed.

(** Unless the queue was closed, every task was handled and counted. *)
Lemma tick_tasks_open c now answer ts : forall k report,
  disconnected report = false ->
  let r := tick_tasks c now answer k ts report in
  disconnected (tk_report r) = false ->
  (scheduled (tk_report r) = scheduled report + length (tk_sent r) /\
   scheduled (tk_report r) + rep_deferred (tk_report r) =
     scheduled report + rep_deferred report + length (filter (fun t => due t now = true) ts))%nat /\
  Forall2 (fun t t' => if due t now then t' = reschedule t now \/ t' = defer t now (retry_delay c)
                       else t' = t) ts (tk_tasks r).
Proof.
  induction ts as [|t ts IH]; intros k report Hr; simpl.
  { intros _. split; [simpl; lia|constructor]. }
  rewrite filter_cons. destruct (due t now) eqn:Hd; simpl.
  - destruct (answer k); simpl; intros Hopen; [| |done].
    all: edestruct IH as [[Hs Hn] Hf]; [|exact Hopen|]; [exact Hr|]; simpl in *.
    all: split; [|constructor; [rewrite Hd; auto|exact Hf]].
    all: split; lia.
  - intros Hopen. destruct (IH k report Hr Hopen) as [Hn Hf].
    split; [done|]. constructor; [by rewrite Hd|done].
Qed.

Lemma tasks_ticked_operations c now ts ts' sent :
  tasks_ticked c now ts ts' sent ->
  operation <$> ts' = operation <$> ts /\ interval <$> ts' = interval <$> ts /\
  sublist sent.*1 (operation <$> ts).
Proof.
  induction 1 as [|t t' ts ts' out sent Ht _ (IHo & IHi & IHs)|t ts Hd]; [done| |].
  - rewrite !fmap_cons, IHo, IHi, fmap_app.
    inversion Ht; subst; simpl; split_and!; try done; by constructor.
  - split_and!; [done..|]. apply sublist_nil_l.
Qed.

(** What a command of a tick says about the tasks around it. *)
Lemma tasks_ticked_sent c now ts ts' sent o cmd :
  tasks_ticked c now ts ts' sent -> (o, cmd) ∈ sent ->
  cmd = build o c /\
  exists t, t ∈ ts /\ operation t = o /\ due t now = true /\ reschedule t now ∈ ts'.
Proof.
  induction 1 as [|t t' ts ts' out sent Ht _ IH|t ts Hd]; intros Hin; [by apply not_elem_of_nil in Hin| |by apply not_elem_of_nil in Hin].
  apply elem_of_app in Hin as [Hin|Hin].
  - inversion Ht; subst; try (by apply not_elem_of_nil in Hin).
    apply list_elem_of_singleton in Hin. simplify_eq. split; [done|]. exists t. set_solver.
  - destruct (IH Hin) as (? & t0 & ? & ? & ? & ?). split; [done|]. exists t0. set_solver.
Qed.

Lemma tasks_ticked_back c now ts ts' sent t' :
  tasks_ticked c now ts ts' sent -> t' ∈ ts' ->
  exists t, t ∈ ts /\
    (t' = t \/ (due t now = true /\ (t' = reschedule t now \/ t' = defer t now (retry_delay c)))).
Proof.
  induction 1 as [|t t0 ts ts' out sent Ht _ IH|t ts Hd]; intros Hin.
  - by apply not_elem_of_nil in Hin.
  - apply elem_of_cons in Hin as [->|Hin].
    + exists t. split; [set_solver|]. inversion Ht; subst; auto.
    + destruct (IH Hin) as (t1 & ? & ?). exists t1. set_solver.
  - exists t'. auto.
Qed.

(** ** The schedule's invariant *)

Definition operations : list Operation := [Purge; Checkpoint; Optimize; Vacuum; RebuildFts].

Lemma operations_NoDup : NoDup operations.
Proof. repeat constructor; set_solver. Qed.

(** The tasks of a configuration, each enabled one with a due time not before
    its floor. *)
Definition schedule_inv (c : MaintenanceConfig) (floor : Operation -> Instant) (s : Scheduler) : Prop :=
  config s = clamp_retry_delay c /\
  operation <$> tasks s = operations /\
  forall t, t ∈ tasks s ->
    interval t = configured c (operation t) /\
    match interval t with
    | Some every => every <> 0 /\ exists d, next_due t = Some d /\ floor (operation t) <= d
    | None => next_due t = None
    end.

(** When an operation may be sent for the first time. *)
Definition first_due (c : MaintenanceConfig) (start : Instant) (o : Operation) : Instant :=
  match configured c o with Some every => saturating_deadline start every | None => start end.

Lemma task_new_configured c start o every :
  match every with Some d => if d =? 0 then None else Some d | None => None end = configured c o ->
  let t := Task_new o every start in
  interval t = configured c (operation t) /\
  match interval t with
  | Some e => e <> 0 /\ exists d, next_due t = Some d /\ first_due c start (operation t) <= d
  | None => next_due t = None
  end.
Proof.
  intros He. unfold first_due. destruct every as [d|]; simpl in *; rewrite <- He; [|done].
  destruct (N.eqb_spec d 0); [done|]. split; [done|]. split; [done|]. eexists. split; [done|lia].
Qed.

Lemma schedule_inv_new c start : schedule_inv c (first_due c start) (Scheduler_new c start).
Proof.
  split_and!; [done..|]. apply Forall_forall.
  repeat apply Forall_cons_2; [..|apply Forall_nil_2]; by apply task_new_configured.
Qed.

(** At most one task per operation. *)
Lemma operation_unique ts t t' :
  operation <$> ts = operations -> t ∈ ts -> t' ∈ ts -> operation t = operation t' -> t = t'.
Proof.
  intros Hops Ht Ht' He.
  apply list_elem_of_lookup in Ht as [i Hi], Ht' as [j Hj].
  assert (i = j) as ->; [|congruence].
  eapply NoDup_lookup; [exact operations_NoDup|..]; rewrite <- Hops, list_lookup_fmap.
  - by rewrite Hi.
  - rewrite Hj. simpl. by rewrite He.
Qed.

(** A tick raises the floor of exactly the operations it sent. *)
Definition raise (c : MaintenanceConfig) (now : Instant) (sent : list (Operation * Command.WriteCommand))
    (floor : Operation -> Instant) (o : Operation) : Instant :=
  if bool_decide (o ∈ sent.*1) then first_due c now o else floor o.

Lemma schedule_inv_due c floor s t now :
  schedule_inv c floor s -> t ∈ tasks s -> due t now = true ->
  exists every, interval t = Some every /\ configured c (operation t) = Some every /\
    floor (operation t) <= now.
Proof.
  intros (_ & _ & Htasks) Ht Hdue. destruct (Htasks t Ht) as [Hi Hd]. unfold due in Hdue.
  destruct (interval t) as [every|]; [|by rewrite Hd in Hdue].
  destruct Hd as (_ & d & Hn & Hf). rewrite Hn in Hdue. bool_to_prop.
  exists every. split_and!; [done..|lia].
Qed.

(** The due times after a tick are not before the raised floors. *)
Lemma tick_raises c floor s now ts' sent t' :
  now <= INSTANT_MAX -> schedule_inv c floor s ->
  tasks_ticked (config s) now (tasks s) ts' sent -> t' ∈ ts' ->
  interval t' = configured c (operation t') /\
  match interval t' with
  | Some every => every <> 0 /\ exists d, next_due t' = Some d /\ raise c now sent floor (operation t') <= d
  | None => next_due t' = None
  end.
Proof.
  intros Hnow Hinv Hspec Ht'. pose proof Hinv as (Hc & Hops & Htasks).
  destruct (tasks_ticked_operations _ _ _ _ _ Hspec) as (Ho' & _ & _). rewrite Hops in Ho'.
  unfold raise. case_bool_decide as Hsent.
  - apply list_elem_of_fmap in Hsent as ([o cmd] & Ho & Hin). simpl in Ho. subst o.
    destruct (tasks_ticked_sent _ _ _ _ _ _ _ Hspec Hin) as (_ & t & Ht & Hop & Hdue & Hre).
    assert (t' = reschedule t now) as -> by (by eapply operation_unique).
    destruct (schedule_inv_due _ _ _ _ _ Hinv Ht Hdue) as (every & Hi & Hcfg & _).
    destruct (Htasks t Ht) as [_ Hd]. simpl. rewrite Hi, Hcfg in *. destruct Hd as [Hnz _].
    unfold first_due. rewrite Hcfg. split; [done|]. split; [done|]. eexists. split; [done|lia].
  - destruct (tasks_ticked_back _ _ _ _ _ _ Hspec Ht') as (t & Ht & [->|[Hdue Hcase]]);
      [by apply Htasks|].
    destruct (schedule_inv_due _ _ _ _ _ Hinv Ht Hdue) as (every & Hi & Hcfg & Hf).
    destruct (Htasks t Ht) as [_ Hd]. rewrite Hi in Hd. destruct Hd as [Hnz _].
    pose proof (saturating_deadline_bounds now every Hnow).
    pose proof (saturating_deadline_bounds now (retry_delay (config s)) Hnow).
    destruct Hcase as [->| ->]; simpl; rewrite Hi; (split; [done|]); (split; [done|]);
      eexists; (split; [done|lia]).
Qed.

Lemma schedule_inv_tick c floor s now answer :
  now <= INSTANT_MAX -> schedule_inv c floor s ->
  let (s', r) := tick s now answer in
  schedule_inv c (raise c now (tk_sent r) floor) s' /\ NoDup (tk_sent r).*1 /\
  forall o cmd, (o, cmd) ∈ tk_sent r ->
    cmd = build o c /\ is_Some (configured c o) /\ floor o <= now.
Proof.
  intros Hnow Hinv. unfold tick.
  pose proof (tick_tasks_spec (config s) now answer (tasks s) 0 TickReport_default) as Hspec.
  destruct (tick_tasks (config s) now answer 0 (tasks s) TickReport_default) as [ts' rep sent notes].
  simpl in *. pose proof Hinv as (Hc & Hops & _).
  destruct (tasks_ticked_operations _ _ _ _ _ Hspec) as (Ho' & _ & Hsub). rewrite Hops in Ho', Hsub.
  split_and!.
  - split_and!; [done..|]. intros t' Ht'. by eapply tick_raises.
  - by eapply sublist_NoDup, Hsub; apply operations_NoDup.
  - intros o cmd Hin. destruct (tasks_ticked_sent _ _ _ _ _ _ _ Hspec Hin) as (-> & t & Ht & <- & Hdue & _).
    destruct (schedule_inv_due _ _ _ _ _ Hinv Ht Hdue) as (every & _ & Hcfg & Hf).
    split_and!; [by rewrite Hc; destruct (operation t)|by eexists|done].
Qed.

(** ** Properties of the worker's run *)

(** Two sends of one operation are at least its interval apart. *)
Definition spaced (c : MaintenanceConfig) (a b : Instant * (Operation * Command.WriteCommand)) : Prop :=
  a.2.1 = b.2.1 -> first_due c a.1 a.2.1 <= b.1.

Definition readings_ok (es : list Cycle) : Prop := Forall (fun e => cy_now e <= INSTANT_MAX) es.

(** The commands of one tick are of different operations. *)
Lemma tick_spaced c now sent :
  NoDup sent.*1 -> StronglySorted (spaced c) ((fun x => (now, x)) <$> sent).
Proof.
  induction sent as [|[o cmd] sent IH]; simpl; intros Hnd; [constructor|].
  apply NoDup_cons in Hnd as [Ho Hnd]. constructor; [by apply IH|].
  apply Forall_forall. intros x Hx. apply list_elem_of_fmap in Hx as ([o' cmd'] & -> & Hin).
  unfold spaced. simpl. intros ->. destruct Ho. apply list_elem_of_fmap. by exists (o', cmd').
Qed.

Lemma run_spaced c es : forall floor s,
  schedule_inv c floor s -> readings_ok es ->
  let (f, sent) := run s es in
  Forall (fun x => x.2.2 = build x.2.1 c /\ is_Some (configured c x.2.1) /\ floor x.2.1 <= x.1) sent /\
  StronglySorted (spaced c) sent /\
  match f with Continue s' => exists floor', schedule_inv c floor' s' | Break => True end.
Proof.
  induction es as [|e es IH]; intros floor s Hinv Hes; cbn [run].
  { split_and!; [constructor..|]. by exists floor. }
  apply Forall_cons in Hes as [Hnow Hes]. unfold cycle.
  destruct (cy_shutdown e); [split_and!; try constructor; done|].
  pose proof (schedule_inv_tick c floor s (cy_now e) (cy_answer e) Hnow Hinv) as Ht.
  destruct (tick s (cy_now e) (cy_answer e)) as [s' r]. destruct Ht as (Hinv' & Hnd & Hsent).
  assert (Forall (fun x => x.2.2 = build x.2.1 c /\ is_Some (configured c x.2.1) /\ floor x.2.1 <= x.1)
            ((fun x => (cy_now e, x)) <$> tk_sent r)) as Hall.
  { apply Forall_fmap, Forall_forall. intros [o cmd] Hin. by apply Hsent. }
  pose proof (tick_spaced c (cy_now e) _ Hnd) as Hsorted.
  destruct (disconnected (tk_report r)); [by split_and!|].
  destruct (next_deadline s'); [|by split_and!].
  destruct (cy_woken e); [by split_and!|].
  specialize (IH _ _ Hinv' Hes). destruct (run s' es) as [f sent']. destruct IH as (IHa & IHs & IHf).
  split_and!; [apply Forall_app; split; [done|]| |done].
  - eapply Forall_impl; [exact IHa|]. intros [t [o cmd]]. simpl. intros (? & Hsome & Hfl).
    split_and!; [done..|]. revert Hfl. unfold raise. case_bool_decide as Hin; [|done].
    apply list_elem_of_fmap in Hin as ([o' cmd'] & -> & Hin). destruct (Hsent _ _ Hin) as (_ & [every He] & Hf).
    unfold first_due. simpl in *. rewrite He.
    pose proof (saturating_deadline_bounds (cy_now e) every Hnow). lia.
  - apply StronglySorted_app. split_and!; [|done..].
    intros x [t2 [o2 cmd2]] Hx Hy Ho. apply list_elem_of_fmap in Hx as ([o cmd] & -> & Hin).
    simpl in *. subst o2. rewrite Forall_forall in IHa. destruct (IHa _ Hy) as (_ & _ & Hf).
    unfold raise in Hf. simpl in Hf. rewrite bool_decide_true in Hf; [done|].
    apply list_elem_of_fmap. by exists (o, cmd).
Qed.

Lemma StronglySorted_pair {A} (R : relation A) l i j x y :
  StronglySorted R l -> (i < j)%nat -> l !! i = Some x -> l !! j = Some y -> R x y.
Proof.
  intros Hs. revert i j. induction Hs as [|a l _ IH Ha]; intros [|i] [|j] Hij Hi Hj; simplify_eq/=; try lia.
  - rewrite Forall_forall in Ha. apply Ha. by eapply list_elem_of_lookup_2.
  - eapply IH; [|done..]. lia.
Qed.

(** C30: No duplicate and no early maintenance: over any run of the worker,
    whatever the queue answers, every enqueued command is the configured one of
    an enabled operation, no operation is enqueued before its first interval has
    passed since startup, and two enqueues of one operation are at least its
    interval apart. *)
Theorem maintenance_spacing c start es f sent :
  start <= INSTANT_MAX -> readings_ok es -> run (Scheduler_new c start) es = (f, sent) ->
  (forall t o cmd, (t, (o, cmd)) ∈ sent ->
     cmd = build o c /\ exists every, configured c o = Some every /\ saturating_deadline start every <= t) /\
  (forall i j t1 t2 o cmd1 cmd2 every,
     (i < j)%nat -> sent !! i = Some (t1, (o, cmd1)) -> sent !! j = Some (t2, (o, cmd2)) ->
     configured c o = Some every -> saturating_deadline t1 every <= t2).
Proof.
  intros Hstart Hes Hrun. pose proof (run_spaced c es _ _ (schedule_inv_new c start) Hes) as H.
  rewrite Hrun in H. destruct H as (Hall & Hsorted & _). rewrite Forall_forall in Hall. split.
  - intros t o cmd Hin. destruct (Hall _ Hin) as (Hcmd & [every He] & Hf). simpl in *.
    split; [done|]. exists every. unfold first_due in Hf. rewrite He in Hf. done.
  - intros i j t1 t2 o cmd1 cmd2 every Hij Hi Hj He.
    pose proof (StronglySorted_pair _ _ _ _ _ _ Hsorted Hij Hi Hj) as Hsp.
    unfold spaced, first_due in Hsp. simpl in Hsp. rewrite He in Hsp. by apply Hsp.
Qed.

(** A purge every 2 s and a checkpoint every 5 s; the queue is full at 2 s and
    drained afterwards. *)
Definition demo_config : MaintenanceConfig :=
  {| retention := Some (from_secs 60); cfg_purge_interval := Some (from_secs 2);
     checkpoint_interval := Some (from_secs 5); checkpoint_mode := Command.Full;
     optimize_interval := Some 0; vacuum_interval := None; rebuild_fts_interval := None;
     retry_delay := from_secs 1 |}.

Definition demo_cycle (s : N) (a : Answer) : Cycle :=
  {| cy_shutdown := false; cy_now := from_secs s; cy_answer := fun _ => a; cy_woken := ByTimer |}.

Definition demo_cycles : list Cycle :=
  [demo_cycle 0 Accepted; demo_cycle 2 QueueFull; demo_cycle 3 Accepted; demo_cycle 4 Accepted;
   demo_cycle 5 Accepted].

Example demo_sent : (fun x => (x.1, x.2.1)) <$> (run (Scheduler_new demo_config 0) demo_cycles).2
  = [(from_secs 3, Purge); (from_secs 5, Purge); (from_secs 5, Checkpoint)].
Proof. reflexivity. Qed.

Lemma maintenance_spacing_witness :
  let sent := (run (Scheduler_new demo_config 0) demo_cycles).2 in
  sent !! 0%nat = Some (from_secs 3, (Purge, build Purge demo_config)) /\
  sent !! 1%nat = Some (from_secs 5, (Purge, build Purge demo_config)) /\
  saturating_deadline (from_secs 3) (from_secs 2) <= from_secs 5.
Proof.
  assert (readings_ok demo_cycles) as Hr.
  { repeat (apply Forall_cons_2; [vm_compute; discriminate|]). apply Forall_nil_2. }
  destruct (maintenance_spacing demo_config 0 demo_cycles _ _ ltac:(vm_compute; discriminate) Hr
              (surjective_pairing _)) as [_ H].
  split; [reflexivity|]. split; [reflexivity|].
  apply (H 0%nat 1%nat (from_secs 3) (from_secs 5) Purge (build Purge demo_config)
           (build Purge demo_config) (from_secs 2)); [lia|reflexivity..].
Defined.

Lemma saturating_deadline_later now after :
  now + 2 <= INSTANT_MAX -> after <> 0 -> now < saturating_deadline now after.
Proof.
  intros Hnow Ha. unfold saturating_deadline.
  destruct (deadline_loop_spec (deadline_fuel after) now after ltac:(lia) ltac:(unfold deadline_fuel; lia))
    as (d & -> & ? & ? & ? & ?). simpl. lia.
Qed.

Lemma next_deadline_None s : next_deadline s = None <-> Forall (fun t => next_due t = None) (tasks s).
Proof.
  unfold next_deadline. induction (tasks s) as [|t ts IH]; simpl; [by split|].
  rewrite Forall_cons, <- IH. unfold min_due. repeat case_match; naive_solver.
Qed.

Lemma next_deadline_Some s d :
  next_deadline s = Some d -> exists t, t ∈ tasks s /\ next_due t = Some d.
Proof.
  unfold next_deadline. revert d. induction (tasks s) as [|t ts IH]; simpl; intros d; [done|].
  unfold min_due at 1. destruct (next_due t) as [x|] eqn:Ht.
  - destruct (foldr _ None ts) as [y|]; intros [= <-]; [|exists t; set_solver].
    destruct (N.min_spec x y) as [[_ ->]|[_ ->]]; [exists t; set_solver|].
    destruct (IH y eq_refl) as (t' & ? & ?). exists t'. set_solver.
  - intros Hd. destruct (IH d Hd) as (t' & ? & ?). exists t'. set_solver.
Qed.

(** An enabled operation always has a due time, a disabled one never. *)
Lemma waits_for_shutdown c floor s :
  schedule_inv c floor s -> (next_deadline s = None <-> forall o, configured c o = None).
Proof.
  intros (_ & Hops & Htasks). rewrite next_deadline_None, Forall_forall. split.
  - intros Hnone o. assert (o ∈ operation <$> tasks s) as Ho by (rewrite Hops; destruct o; set_solver).
    apply list_elem_of_fmap in Ho as (t & -> & Ht). destruct (Htasks t Ht) as [<- Hd].
    destruct (interval t); [|done]. destruct Hd as (_ & x & Hx & _). by rewrite (Hnone t Ht) in Hx.
  - intros Hcfg t Ht. destruct (Htasks t Ht) as [Hi Hd]. by rewrite Hi, Hcfg in Hd.
Qed.

(** A task that a tick handled is not due any more. *)
Lemma handled_waits c floor s now t t' d :
  now + 2 <= INSTANT_MAX -> schedule_inv c floor s -> t ∈ tasks s ->
  (if due t now then t' = reschedule t now \/ t' = defer t now (N.max (retry_delay c) MIN_RETRY_DELAY)
   else t' = t) ->
  next_due t' = Some d -> now < d.
Proof.
  intros Hnow Hinv Ht Hcase Hn. destruct (due t now) eqn:Hdue.
  - destruct (schedule_inv_due _ _ _ _ _ Hinv Ht Hdue) as (every & Hi & _).
    destruct (proj2 (proj2 Hinv) t Ht) as [_ Hd]. rewrite Hi in Hd. destruct Hd as [Hnz _].
    destruct Hcase as [->| ->]; simpl in Hn; [rewrite Hi in Hn|]; simplify_eq;
      apply saturating_deadline_later; [done..|].
    unfold MIN_RETRY_DELAY, from_millis. lia.
  - subst t'. unfold due in Hdue. rewrite Hn in Hdue. by bool_to_prop.
Qed.

(** A tick that finds the queue open handles exactly the due operations:
    each is either enqueued and rescheduled by its interval or, on a full queue,
    kept and retried after the (clamped) delay, all others are untouched, and
    the report counts them.  Afterwards no operation is due, so the worker waits
    for a strictly later deadline (it never spins), and it waits for shutdown
    alone exactly when no operation is enabled. *)
Theorem tick_exact c start es s past now answer :
  start <= INSTANT_MAX -> readings_ok es -> run (Scheduler_new c start) es = (Continue s, past) ->
  now + 2 <= INSTANT_MAX ->
  let (s', r) := tick s now answer in
  disconnected (tk_report r) = false ->
  Forall2 (fun t t' => if due t now
             then t' = reschedule t now \/ t' = defer t now (N.max (retry_delay c) MIN_RETRY_DELAY)
             else t' = t) (tasks s) (tasks s') /\
  scheduled (tk_report r) = length (tk_sent r) /\
  (scheduled (tk_report r) + rep_deferred (tk_report r) =
     length (filter (fun t => due t now = true) (tasks s)))%nat /\
  (forall d, next_deadline s' = Some d -> now < d) /\
  (next_deadline s' = None <-> forall o, configured c o = None).
Proof.
  intros Hstart Hes Hrun Hnow. pose proof (run_spaced c es _ _ (schedule_inv_new c start) Hes) as H.
  rewrite Hrun in H. destruct H as (_ & _ & floor & Hinv).
  pose proof (schedule_inv_tick c floor s now answer ltac:(lia) Hinv) as Ht.
  pose proof (tick_tasks_open (config s) now answer (tasks s) 0 TickReport_default eq_refl) as Hopen.
  unfold tick in *. cbn zeta in *. intros Hd. specialize (Hopen Hd). cbn [tasks] in *.
  destruct (tick_tasks (config s) now answer 0 (tasks s) TickReport_default) as [ts' rep sent notes].
  cbn [tk_report tk_sent tk_tasks] in *. destruct Hopen as [[Hsch Hcnt] Hf2]. simpl in Hsch, Hcnt.
  rewrite (proj1 Hinv) in Hf2. cbn [clamp_retry_delay retry_delay] in Hf2.
  destruct Ht as (Hinv' & _).
  split_and!; [done..| |].
  - intros d Hn. apply next_deadline_Some in Hn as (t' & Ht' & Hn).
    apply list_elem_of_lookup in Ht' as [i Hi].
    destruct (Forall2_lookup_r _ _ _ _ _ Hf2 Hi) as (t & Ht & Hcase).
    eapply handled_waits; [exact Hnow|exact Hinv| |exact Hcase|exact Hn]. by eapply list_elem_of_lookup_2.
  - by eapply waits_for_shutdown.
Qed.

Lemma tick_exact_witness :
  let s0 := Scheduler_new demo_config 0 in
  let (s', r) := tick s0 (from_secs 5) (fun k => match k with O => QueueFull | _ => Accepted end) in
  tk_notices r = [WarnDeferred Purge "maintenance"; CommandScheduled Checkpoint] /\
  scheduled (tk_report r) = 1%nat /\ (forall d, next_deadline s' = Some d -> from_secs 5 < d).
Proof.
  pose proof (tick_exact demo_config 0 [] (Scheduler_new demo_config 0) [] (from_secs 5)
    (fun k => match k with O => QueueFull | _ => Accepted end)
    ltac:(vm_compute; discriminate) (Forall_nil_2 _) eq_refl ltac:(vm_compute; discriminate)) as H.
  destruct (tick _ _ _) as [s' r] eqn:E. vm_compute in E. injection E as <- <-.
  specialize (H eq_refl). split; [reflexivity|]. split; [apply H|apply H].
Defined.

End Scheduler.
