(* ===== verification/Watchdog.v ===== *)
(** * Watchdog ([crates/otel-sqlite-runtime/src/watchdog.rs], [config.rs],
    [crates/otel-sqlite-core/src/health.rs] and the probe of
    [crates/otel-sqlite-storage/src/stats.rs])

    The evidence sample, its evaluation against the thresholds and the
    observation loop.  One [Cycle] holds what an iteration of the loop observes:
    the sample, the two polls of the shutdown channel, whether the halt receiver
    is gone and what ends the wait.  An [f32] is an IEEE binary32 number of the
    Standard Library's [SpecFloat]. *)

From Stdlib Require Import SpecFloat.
From S2P Require Import Prelude Time Model Text Command CommitLedger InsertBatcher OriginBuffers BatcherDriver Sqlite Rows Maintenance Writer Retention Pipeline.

Module Watchdog.
Import Time Sqlite.

Local Open Scope string_scope.
Local Open Scope list_scope.
Local Open Scope N_scope.

(** ** binary32 *)

Definition f32 := spec_float.
Definition f32_prec : Z := 24.
Definition f32_emax : Z := 128.
Definition f32_zero : f32 := S754_zero false.
Definition f32_one : f32 := S754_finite false 8388608 (-23).

Definition f32_is_finite (x : f32) : bool :=
  match x with S754_zero _ | S754_finite _ _ _ => true | _ => false end.

(** [f32::clamp] of a number. *)
Definition f32_clamp (x lo hi : f32) : f32 :=
  let x := if SFltb x lo then lo else x in
  if SFltb hi x then hi else x.

(** [usize as f32] rounds to nearest, [f32 as usize] truncates and saturates. *)
Definition f32_of_usize (n : N) : f32 := binary_normalize f32_prec f32_emax (Z.of_N n) 0 false.

Definition usize_of_f32 (x : f32) : N :=
  match x with
  | S754_finite false m e => N.min u64_max (Z.to_N (Z.shiftl (Z.pos m) e))
  | S754_infinity false => u64_max
  | _ => 0
  end.

(** ** Evidence *)

Record PipelineSample := {
  writer_running : bool;
  batcher_running : bool;
  writer_idle_ms : N;
  batcher_idle_ms : N;
  queue_depth : N;
  queue_capacity : N;
  pending_records : N;
  outstanding_tickets : N;
  watermark_idle_ms : N;
  maintenance_in_progress : bool;
  maintenance_elapsed_ms : N;
}.

Definition pending_work (s : PipelineSample) : N := sat_add (queue_depth s) (pending_records s).

(** [StorageHealth::sample]: the probe holds the two threads' counters, the
    ledger and the capacity of the command queue. *)
Definition sample (now : N) (writer : Writer.WriterStats) (batcher : BatcherDriver.BatcherStats)
    (ledger : CommitLedger.CommitLedger) (capacity : N) : PipelineSample :=
  let started := Writer.maintenance_started_ms writer in
  {| writer_running := Writer.ws_running writer;
     batcher_running := BatcherDriver.running batcher;
     writer_idle_ms := sat_sub now (Writer.ws_last_progress_ms writer);
     batcher_idle_ms := sat_sub now (BatcherDriver.last_progress_ms batcher);
     queue_depth := sat_add (N.of_nat (Writer.queue_depth writer)) (N.of_nat (Writer.in_flight writer));
     queue_capacity := capacity;
     pending_records := N.of_nat (BatcherDriver.buffered_records batcher);
     outstanding_tickets := CommitLedger.outstanding_tickets ledger;
     watermark_idle_ms := sat_sub now (CommitLedger.ledger_last_advance_ms ledger);
     maintenance_in_progress := Writer.maintenance_in_progress writer;
     maintenance_elapsed_ms := if started =? 0 then 0 else sat_sub now started |}.

(** ** Configuration *)

Record WatchdogConfig := {
  tick_interval : Duration;
  degraded_after : Duration;
  unhealthy_after : Duration;
  ack_stall_after : Duration;
  maintenance_stall_after : Duration;
  queue_pressure_ratio : f32;
  halt_on_unhealthy : bool;
}.

Definition WatchdogConfig_default : WatchdogConfig :=
  {| tick_interval := from_secs 5; degraded_after := from_secs 30; unhealthy_after := from_secs 120;
     ack_stall_after := from_secs 60; maintenance_stall_after := from_secs (30 * 60);
     queue_pressure_ratio := S754_finite false 12582912 (-24); halt_on_unhealthy := true |}.

Inductive WatchdogConfigError :=
| ZeroDuration (name : string)
| DegradedNotBeforeUnhealthy (degraded unhealthy : Duration)
| MaintenanceStallBeforeUnhealthy (maintenance unhealthy : Duration)
| InvalidQueuePressureRatio (ratio : f32).

Definition non_zero (x : string * Duration) : result WatchdogConfigError unit :=
  if x.2 =? 0 then Err (ZeroDuration x.1) else Ok tt.

Definition validate (c : WatchdogConfig) : result WatchdogConfigError unit :=
  let? _ := check_all non_zero
    [("degraded_after", degraded_after c); ("unhealthy_after", unhealthy_after c);
     ("ack_stall_after", ack_stall_after c); ("maintenance_stall_after", maintenance_stall_after c)] in
  if unhealthy_after c <=? degraded_after c then
    Err (DegradedNotBeforeUnhealthy (degraded_after c) (unhealthy_after c))
  else if maintenance_stall_after c <? unhealthy_after c then
    Err (MaintenanceStallBeforeUnhealthy (maintenance_stall_after c) (unhealthy_after c))
  else
    let ratio := queue_pressure_ratio c in
    if negb (f32_is_finite ratio) || SFleb ratio f32_zero || SFltb f32_one ratio then
      Err (InvalidQueuePressureRatio ratio)
    else Ok tt.

(** ** Evaluation *)

Inductive HealthState := Healthy | Degraded | Unhealthy.

#[export] Instance HealthState_eq_dec : EqDecision HealthState.
Proof. solve_decision. Defined.


Inductive Reason :=
| WriterNotRunning
| BatcherNotRunning
| MaintenanceRunning (elapsed_ms pending : N)
| MaintenanceStalled (elapsed_ms limit_ms : N)
| MaintenanceAckStall (elapsed_ms tickets watermark_idle : N)
| MaintenanceSaturated (elapsed_ms depth capacity : N)
| AckStall (tickets watermark_idle : N)
| Idle
| Stalled (pending writer_idle batcher_idle : N)
| Draining (pending age_ms : N)
| Saturated (depth capacity : N)
| Progressing (pending : N).

Record Evaluation := mk_evaluation {
  verdict : HealthState;
  reason : Reason;
}.

Definition queue_pressure_threshold (capacity : N) (ratio : f32) : N :=
  if capacity =? 0 then u64_max
  else
    let ratio := if f32_is_finite ratio then f32_clamp ratio f32_zero f32_one else f32_one in
    N.max (usize_of_f32 (SFmul f32_prec f32_emax (f32_of_usize capacity) ratio)) 1.

(** [Duration::as_millis() as u64]. *)
Definition as_millis_u64 (d : Duration) : N := (d / 1000000) mod 2 ^ 64.

Definition evaluate (s : PipelineSample) (c : WatchdogConfig) : Evaluation :=
  if negb (writer_running s) then mk_evaluation Unhealthy WriterNotRunning
  else if negb (batcher_running s) then mk_evaluation Unhealthy BatcherNotRunning
  else if maintenance_in_progress s then
    if maintenance_stall_after c <=? from_millis (maintenance_elapsed_ms s) then
      mk_evaluation Unhealthy (MaintenanceStalled (maintenance_elapsed_ms s)
                                 (as_millis_u64 (maintenance_stall_after c)))
    else if (0 <? outstanding_tickets s) && (ack_stall_after c <=? from_millis (watermark_idle_ms s)) then
      mk_evaluation Degraded (MaintenanceAckStall (maintenance_elapsed_ms s) (outstanding_tickets s)
                                (watermark_idle_ms s))
    else if queue_pressure_threshold (queue_capacity s) (queue_pressure_ratio c) <=? queue_depth s then
      mk_evaluation Degraded (MaintenanceSaturated (maintenance_elapsed_ms s) (queue_depth s)
                                (queue_capacity s))
    else mk_evaluation Healthy (MaintenanceRunning (maintenance_elapsed_ms s) (pending_work s))
  else
    let pending := pending_work s in
    if (0 <? outstanding_tickets s) && (pending =? 0)
       && (ack_stall_after c <=? from_millis (watermark_idle_ms s)) then
      mk_evaluation Unhealthy (AckStall (outstanding_tickets s) (watermark_idle_ms s))
    else if pending =? 0 then mk_evaluation Healthy Idle
    else
      let writer_age := from_millis (writer_idle_ms s) in
      let batcher_age := from_millis (batcher_idle_ms s) in
      if (unhealthy_after c <=? writer_age) || (unhealthy_after c <=? batcher_age) then
        mk_evaluation Unhealthy (Stalled pending (writer_idle_ms s) (batcher_idle_ms s))
      else if (degraded_after c <=? writer_age) || (degraded_after c <=? batcher_age) then
        mk_evaluation Degraded (Draining pending (N.max (writer_idle_ms s) (batcher_idle_ms s)))
      else if queue_pressure_threshold (queue_capacity s) (queue_pressure_ratio c) <=? queue_depth s then
        mk_evaluation Degraded (Saturated (queue_depth s) (queue_capacity s))
      else mk_evaluation Healthy (Progressing pending).

(** ** The observation loop *)

Definition MIN_TICK_INTERVAL : Duration := from_millis 10.

Definition normalized_tick_interval (d : Duration) : Duration := N.max d MIN_TICK_INTERVAL.

(** [Watchdog::new]. *)
Definition Watchdog_new (c : WatchdogConfig) : result WatchdogConfigError WatchdogConfig :=
  let? _ := validate c in
  Ok {| tick_interval := normalized_tick_interval (tick_interval c);
        degraded_after := degraded_after c; unhealthy_after := unhealthy_after c;
        ack_stall_after := ack_stall_after c; maintenance_stall_after := maintenance_stall_after c;
        queue_pressure_ratio := queue_pressure_ratio c; halt_on_unhealthy := halt_on_unhealthy c |}.

Inductive Woken := ByShutdown | ByTimer.

Record Cycle := {
  wc_shutdown_first : bool;
  wc_sample : PipelineSample;
  wc_shutdown_second : bool;
  wc_halt_gone : bool;
  wc_woken : Woken;
}.

Inductive LogEvent :=
| Transition (from to : HealthState) (why : Reason)
| StillUnhealthy (why : Reason)
| HaltReceiverGone (why : Reason)
| InitiatingShutdown (why : Reason) (evidence : PipelineSample).

(** The thread's state: the previous verdict, the [sidecar_health_state] gauge,
    the [halted] flag, how often the halt was delivered, and the log. *)
Record Observer := {
  previous : HealthState;
  gauge : option HealthState;
  halted : bool;
  halts : nat;
  logged : list LogEvent;
}.

Definition Observer_new : Observer :=
  {| previous := Healthy; gauge := None; halted := false; halts := 0; logged := [] |}.

Definition log (e : LogEvent) (o : Observer) : Observer :=
  {| previous := previous o; gauge := gauge o; halted := halted o; halts := halts o;
     logged := logged o ++ [e] |}.

(** [emit_metrics] and the transition or repetition message. *)
Definition observe (ev : Evaluation) (o : Observer) : Observer :=
  let o := {| previous := previous o; gauge := Some (verdict ev); halted := halted o;
              halts := halts o; logged := logged o |} in
  if bool_decide (verdict ev <> previous o) then
    let o' := log (Transition (previous o) (verdict ev) (reason ev)) o in
    {| previous := verdict ev; gauge := gauge o'; halted := halted o'; halts := halts o';
       logged := logged o' |}
  else if bool_decide (verdict ev = Unhealthy) then log (StillUnhealthy (reason ev)) o
  else o.

Inductive Flow := Continue (o : Observer) | Break (o : Observer).

Definition cycle (c : WatchdogConfig) (o : Observer) (e : Cycle) : Flow :=
  if wc_shutdown_first e then Break o
  else
    let ev := evaluate (wc_sample e) c in
    let o := observe ev o in
    if bool_decide (verdict ev = Unhealthy) && halt_on_unhealthy c then
      if wc_shutdown_second e then Break o
      else if wc_halt_gone e then Break (log (HaltReceiverGone (reason ev)) o)
      else
        Break (log (InitiatingShutdown (reason ev) (wc_sample e))
                 {| previous := previous o; gauge := gauge o; halted := true;
                    halts := S (halts o); logged := logged o |})
    else
      match wc_woken e with
      | ByShutdown => Break o
      | ByTimer => Continue o
      end.

(** The gauge reset at the end of the thread. *)
Definition stop (o : Observer) : Observer :=
  if halted o then o
  else {| previous := previous o; gauge := Some Healthy; halted := halted o; halts := halts o;
          logged := logged o |}.

Fixpoint run_loop (c : WatchdogConfig) (o : Observer) (es : list Cycle) : Flow :=
  match es with
  | [] => Continue o
  | e :: es' =>
      match cycle c o e with
      | Break o' => Break o'
      | Continue o' => run_loop c o' es'
      end
  end.

Definition run (c : WatchdogConfig) (es : list Cycle) : Flow :=
  match run_loop c Observer_new es with
  | Break o => Break (stop o)
  | Continue o => Continue o
  end.

(** ** Properties of the evaluation *)

Example default_threshold : queue_pressure_threshold 1024 (queue_pressure_ratio WatchdogConfig_default) = 768.
Proof. reflexivity. Qed.

Lemma default_valid : validate WatchdogConfig_default = Ok tt.
Proof. reflexivity. Qed.













(** ** Properties of the observation loop *)

Definition unhealthy (c : WatchdogConfig) (e : Cycle) : Prop :=
  verdict (evaluate (wc_sample e) c) = Unhealthy.

(** A cycle after which the loop goes on waiting. *)
Definition quiet (c : WatchdogConfig) (e : Cycle) : Prop :=
  wc_shutdown_first e = false /\ (halt_on_unhealthy c = true -> ~ unhealthy c e) /\ wc_woken e = ByTimer.

(** A cycle that delivers the halt. *)
Definition halting (c : WatchdogConfig) (e : Cycle) : Prop :=
  halt_on_unhealthy c = true /\ wc_shutdown_first e = false /\ unhealthy c e /\
  wc_shutdown_second e = false /\ wc_halt_gone e = false.

Lemma observe_spec ev o :
  halted (observe ev o) = halted o /\ halts (observe ev o) = halts o /\
  gauge (observe ev o) = Some (verdict ev).
Proof. unfold observe, log. repeat case_bool_decide; done. Qed.

Lemma cycle_spec c o e :
  halted o = false ->
  match cycle c o e with
  | Continue o' => quiet c e /\ ~ halting c e /\ halted o' = false /\ halts o' = halts o
  | Break o' =>
      ~ quiet c e /\ (halted o' = true <-> halting c e) /\
      if halted o' then halts o' = S (halts o) /\ gauge o' = Some Unhealthy else halts o' = halts o
  end.
Proof.
  intros Ho. unfold cycle, quiet, halting, unhealthy.
  destruct (observe_spec (evaluate (wc_sample e) c) o) as (Hh & Hn & Hg).
  destruct (wc_shutdown_first e); [rewrite Ho; naive_solver|].
  case_bool_decide as Hv; destruct (halt_on_unhealthy c); simpl.
  1: destruct (wc_shutdown_second e); [|destruct (wc_halt_gone e)]; simpl; rewrite ?Hh, ?Ho, ?Hn, ?Hg, ?Hv;
     naive_solver.
  all: destruct (wc_woken e); rewrite ?Hh, ?Ho; naive_solver.
Qed.

Lemma run_loop_spec c es : forall o,
  halted o = false ->
  match run_loop c o es with
  | Continue o' => Forall (quiet c) es /\ halted o' = false /\ halts o' = halts o
  | Break o' => exists pre e post, es = pre ++ e :: post /\ Forall (quiet c) pre /\ ~ quiet c e /\
      (halted o' = true <-> halting c e) /\
      if halted o' then halts o' = S (halts o) /\ gauge o' = Some Unhealthy else halts o' = halts o
  end.
Proof.
  induction es as [|e es IH]; intros o Ho; simpl; [by auto|].
  pose proof (cycle_spec c o e Ho) as Hc. destruct (cycle c o e) as [o'|o'].
  - destruct Hc as (Hq & Hnh & Ho' & Hn). specialize (IH o' Ho'). destruct (run_loop c o' es) as [o2|o2].
    + destruct IH as (? & ? & ?). split_and!; [by constructor|done|congruence].
    + destruct IH as (pre & e' & post & -> & Hpre & Hrest). exists (e :: pre), e', post.
      rewrite <- Hn. split_and!; [done|by constructor|apply Hrest..].
  - exists [], e, es. split_and!; [done|constructor|apply Hc..].
Qed.

(** C19: The halt signal: the watchdog delivers it at most once, and exactly when
    its policy asks for it and the first cycle that is not quiet finds the
    pipeline unhealthy with no shutdown pending before or after the evaluation
    and somebody listening; then the gauge keeps the unhealthy verdict, and on
    every other exit it is reset. *)
Theorem halt_contract c es o :
  run c es = Break o ->
  (halted o = true <-> exists pre e post, es = pre ++ e :: post /\ Forall (quiet c) pre /\ halting c e) /\
  halts o = (if halted o then 1 else 0)%nat /\
  gauge o = Some (if halted o then Unhealthy else Healthy).
Proof.
  unfold run. intros Hrun. pose proof (run_loop_spec c es Observer_new eq_refl) as H.
  destruct (run_loop c Observer_new es) as [o'|o']; [done|]. injection Hrun as <-.
  destruct H as (pre & e & post & -> & Hpre & Hnq & Hh & Hrest).
  split.
  - assert (halted (stop o') = halted o') as -> by (unfold stop; by destruct (halted o') eqn:E).
    rewrite Hh. split; [by exists pre, e, post|].
    intros (pre' & e' & post' & Heq & Hpre' & Hh').
    assert (~ quiet c e') as Hnq' by (unfold quiet, halting in *; naive_solver).
    clear -Heq Hpre Hpre' Hnq Hnq' Hh'. revert pre' Heq Hpre'. induction Hpre as [|x pre Hx _ IH];
      intros [|x' pre'] Heq Hpre'; simplify_eq/=; [done|by inversion Hpre'|done|].
    inversion Hpre'. by eapply IH.
  - unfold stop. destruct (halted o') eqn:E; rewrite ?E; simpl; rewrite ?E; naive_solver.
Qed.

Definition busy_sample : PipelineSample :=
  {| writer_running := true; batcher_running := true; writer_idle_ms := 10; batcher_idle_ms := 10;
     queue_depth := 2; queue_capacity := 100; pending_records := 5; outstanding_tickets := 0;
     watermark_idle_ms := 10; maintenance_in_progress := false; maintenance_elapsed_ms := 0 |}.

(** The writer has been stuck on its command for [ms]. *)
Definition stuck_sample (ms : N) : PipelineSample :=
  {| writer_running := true; batcher_running := true; writer_idle_ms := ms; batcher_idle_ms := 10;
     queue_depth := 2; queue_capacity := 100; pending_records := 5; outstanding_tickets := 3;
     watermark_idle_ms := ms; maintenance_in_progress := false; maintenance_elapsed_ms := 0 |}.

Definition tick_with (s : PipelineSample) : Cycle :=
  {| wc_shutdown_first := false; wc_sample := s; wc_shutdown_second := false; wc_halt_gone := false;
     wc_woken := ByTimer |}.


(** A pipeline that degrades and then stalls: it is halted once. *)
Definition stalling_run : list Cycle :=
  tick_with <$> [busy_sample; stuck_sample 40000; stuck_sample 120000; busy_sample].

Lemma halt_contract_witness :
  match run WatchdogConfig_default stalling_run with
  | Break o => halts o = 1%nat /\ gauge o = Some Unhealthy
  | Continue _ => False
  end.
Proof.
  destruct (run WatchdogConfig_default stalling_run) as [o|o] eqn:E; [vm_compute in E; discriminate|].
  destruct (halt_contract WatchdogConfig_default stalling_run o E) as (_ & Hn & Hg).
  assert (halted o = true) as Hh by (vm_compute in E; injection E as <-; reflexivity).
  rewrite Hh in Hn, Hg. split; [exact Hn|exact Hg].
Defined.

(** ** The leak detector against the pipeline *)

(** The probe of a running pipeline: the writer's thread holds its running guard. *)
Definition sample_of (now : N) (s : Pipeline.MemSystem) (capacity : N) : PipelineSample :=
  sample now (Writer.ws_set_running true (Pipeline.sy_stats s)) (BatcherDriver.stats (Pipeline.sy_driver s))
    (Pipeline.sy_ledger s) capacity.

(** The leak verdict can be false: the ingest queue is no part of the evidence,
    and a ticket that was just issued after a quiet period finds the watermark
    already at rest for the configured time.  A pipeline sampled between the
    admission of its first chunk and the batcher's receipt of it is declared
    unhealthy for a leak, and the same chunk is settled two steps later. *)
Theorem leak_verdict_can_be_false :
  let admitted := Pipeline.demo_accept (Pipeline.demo_start []) in
  let written := Pipeline.demo_write 0 (Pipeline.demo_batch admitted) in
  Pipeline.sy_input admitted <> [] /\
  evaluate (sample_of 60000 admitted 16) WatchdogConfig_default
    = mk_evaluation Unhealthy (AckStall 1 60000) /\
  Pipeline.reachable_from Writer.no_json Writer.no_sha None None None (Pipeline.demo_start []) written /\
  CommitLedger.outstanding_tickets (Pipeline.sy_ledger written) = 0.
Proof.
  intros admitted written. split; [vm_compute; discriminate|]. split; [vm_compute; reflexivity|].
  split; [apply Pipeline.demo_written; by left|vm_compute; reflexivity].
Qed.

(** The verdict while the first chunk after a quiet period waits
    for its batch deadline: the batcher has just received it and counted what it
    buffers at the top of its loop. *)
Definition first_after (quiet_ms : N) (times : list Z) : option Evaluation :=
  let admitted := Pipeline.take_in (Pipeline.demo_start []) (BatcherDriver.sample_chunk "a" times 0) in
  match Pipeline.sy_input admitted with
  | [m] =>
      match BatcherDriver.iteration (Ledger0 := CommitLedger.CommitLedger_ops) None
              (BatcherDriver.Received m) (fun _ => 0) quiet_ms (Pipeline.sy_driver admitted) with
      | Some (BatcherDriver.Continue d) =>
          Some (evaluate (sample quiet_ms (Writer.ws_set_running true (Pipeline.sy_stats admitted))
                  (BatcherDriver.observe_buffered (OriginBuffers.obs_buffered (BatcherDriver.logs d))
                     (BatcherDriver.stats d))
                  (BatcherDriver.ledger d) 16) WatchdogConfig_default)
      | _ => None
      end
  | _ => None
  end.

(** A fresh batch can look stalled: the writer's idle time counts from its last
    command, not from the arrival of the work, so after two quiet minutes a
    batch that has just begun to wait is declared stalled. *)
Theorem fresh_batch_can_look_stalled :
  first_after 120000 [1; 2]%Z = Some (mk_evaluation Unhealthy (Stalled 2 120000 0)).
Proof. vm_compute. reflexivity. Qed.

End Watchdog.
