(* ===== verification/Auth.v ===== *)
(** * Bearer-token authentication ([crates/otel-sqlite-ingress/src/auth.rs])

    The token file vault and the request interceptor.  What a read of the file
    finds is the environment's choice, a [FileView]; SHA-256 is a parameter; the
    clock readings are arguments.  The cache is guarded by a lock and reloads
    are single-flight, so the vault's life is a sequence of publications; a
    caller that loses the claim reads the cache.  In service, requests
    interleave with the passes of the background reloader ([run]). *)

From S2P Require Import Prelude Time Model Text Render.

Module Auth.
Import Time.

Local Open Scope string_scope.
Local Open Scope list_scope.
Local Open Scope N_scope.

Definition DEFAULT_RELOAD_INTERVAL : Duration := from_secs 5.
Definition MAX_TOKEN_FILE_BYTES : N := 1024 * 1024.
Definition MAX_TOKENS : N := 10000.
Definition MAX_TOKEN_LINE_BYTES : N := 4096.
Definition MAX_STALE_TOKEN_AGE : Duration := from_secs (5 * 60).

(** ** [str] helpers of the standard library *)

Definition newline : ascii := ascii_of_N 10.
Definition carriage_return : ascii := ascii_of_N 13.

Definition strip_carriage_return (l : list ascii) : list ascii :=
  match last l with
  | Some c => if Ascii.eqb c carriage_return then take (pred (length l)) l else l
  | None => l
  end.

(** The text up to the first newline, and what follows it. *)
Fixpoint split_line (l : list ascii) : list ascii * option (list ascii) :=
  match l with
  | [] => ([], None)
  | c :: l' =>
      if Ascii.eqb c newline then ([], Some l')
      else let (line, rest) := split_line l' in (c :: line, rest)
  end.

(** [str::lines]: no line after a final newline.  Every round consumes a
    newline or ends, so [length l + 1] rounds suffice. *)
Fixpoint lines_loop (fuel : nat) (l : list ascii) : list (list ascii) :=
  match fuel, l with
  | O, _ | _, [] => []
  | S fuel', _ =>
      match split_line l with
      | (line, None) => [line]
      | (line, Some rest) => strip_carriage_return line :: lines_loop fuel' rest
      end
  end.

Definition lines (s : string) : list string :=
  let l := Text.bytes_of_string s in Text.string_of_bytes <$> lines_loop (S (length l)) l.

(** [str::from_utf8]. *)
Fixpoint utf8_loop (fuel : nat) (l : list ascii) : bool :=
  match fuel, l with
  | _, [] => true
  | O, _ => false
  | S fuel', b :: l' =>
      match Render.expected_after b with
      | None => false
      | Some ranges =>
          match Render.take_expected ranges l' with
          | Ok (_, rest) => utf8_loop fuel' rest
          | Err _ => false
          end
      end
  end.

Definition from_utf8 (l : list ascii) : option string :=
  if utf8_loop (length l) l then Some (Text.string_of_bytes l) else None.

(** [str::split_once(' ')]. *)
Fixpoint split_once_space (s : string) : option (string * string) :=
  match s with
  | EmptyString => None
  | String c s' =>
      if Ascii.eqb c " " then Some ("", s')
      else match split_once_space s' with
           | Some (a, b) => Some (String c a, b)
           | None => None
           end
  end.

(** ** Reading the token file *)

Definition Digest := list Model.byte.

Record ParsedTokens := {
  parsed_hashes : list Digest;
  skipped_long_lines : nat;
}.

(** [ErrorKind::NotFound] is told apart from the other read failures. *)
Inductive LoadError :=
| NotFound
| IoOther (message : string)
| TooLarge (bytes : N)
| TooManyTokens (count : N).

(** What opening and reading the file yields: an error, or the size the
    metadata declare ([0] when they cannot be read) and the bytes. *)
Inductive FileView :=
| OpenFails (e : LoadError)
| ReadFails (declared : N) (message : string)
| Contents (declared : N) (bytes : list ascii).

Section vault.
Context (sha256 : string -> Digest).

(** The loop of [parse_token_lines]; [total] counts the tokens, hashed or not. *)
Fixpoint parse_loop (ls : list string) (hashes : list Digest) (skipped : nat) (total : N)
    : list Digest * nat * N :=
  match ls with
  | [] => (hashes, skipped, total)
  | line :: rest =>
      if MAX_TOKEN_LINE_BYTES <? N.of_nat (String.length line) then
        parse_loop rest hashes (S skipped) total
      else
        parse_loop rest
          (if N.of_nat (length hashes) <? MAX_TOKENS then hashes ++ [sha256 line] else hashes)
          skipped (total + 1)
  end.

Definition token_lines (text : string) : list string :=
  filter (fun line => Text.is_empty line = false) (Text.trim <$> lines text).

Definition parse_token_lines (text : string) : result LoadError ParsedTokens :=
  let '(hashes, skipped, total) := parse_loop (token_lines text) [] 0 0 in
  if MAX_TOKENS <? total then Err (TooManyTokens total)
  else Ok {| parsed_hashes := hashes; skipped_long_lines := skipped |}.

Definition read_token_file (file : FileView) : result LoadError ParsedTokens :=
  match file with
  | OpenFails e => Err e
  | ReadFails declared message =>
      if MAX_TOKEN_FILE_BYTES <? declared then Err (TooLarge declared) else Err (IoOther message)
  | Contents declared bytes =>
      if MAX_TOKEN_FILE_BYTES <? declared then Err (TooLarge declared)
      else
        let bytes := take (N.to_nat (MAX_TOKEN_FILE_BYTES + 1)) bytes in
        if MAX_TOKEN_FILE_BYTES <? N.of_nat (length bytes) then Err (TooLarge (N.of_nat (length bytes)))
        else match from_utf8 bytes with
             | None => Err (IoOther "invalid utf-8")
             | Some text => parse_token_lines text
             end
  end.

(** ** The vault *)

Record CachedTokens := {
  loaded_at : option Instant;
  hashes : list Digest;
  unhealthy_since : option Instant;
  consecutive_empty : N;
}.

Definition CachedTokens_default : CachedTokens :=
  {| loaded_at := None; hashes := []; unhealthy_since := None; consecutive_empty := 0 |}.

Record TokenFileVault := {
  reload_interval : Duration;
  max_stale_age : Duration;
  cached : CachedTokens;
  reloading : bool;
  background_reload : bool;
}.

Inductive AuthError :=
| AuthRead (e : LoadError)
| AuthNoTokens
| AuthTooLarge (bytes : N)
| AuthTooManyTokens (count : N).

Definition read_token_hashes (file : FileView) : result AuthError (list Digest) :=
  match read_token_file file with
  | Ok parsed =>
      match parsed_hashes parsed with
      | [] => Err AuthNoTokens
      | _ => Ok (parsed_hashes parsed)
      end
  | Err (TooLarge bytes) => Err (AuthTooLarge bytes)
  | Err (TooManyTokens count) => Err (AuthTooManyTokens count)
  | Err e => Err (AuthRead e)
  end.

(** [TokenFileVault::open] *)
Definition open (file : FileView) (now : Instant) : result AuthError TokenFileVault :=
  let? loaded := read_token_hashes file in
  Ok {| reload_interval := DEFAULT_RELOAD_INTERVAL; max_stale_age := MAX_STALE_TOKEN_AGE;
        cached := {| loaded_at := Some now; hashes := loaded; unhealthy_since := None;
                     consecutive_empty := 0 |};
        reloading := false; background_reload := false |}.

(** [is_stale] at the clock reading [now]. *)
Definition is_stale (at_ : option Instant) (interval : Duration) (now : Instant) : bool :=
  match at_ with
  | None => true
  | Some t => interval <=? saturating_duration_since now t
  end.

Inductive ReloadOutcome :=
| Loaded (parsed : ParsedTokens)
| Revoked
| Unreadable (message : string)
| Invalid (message : string).

Definition reload_outcome (file : FileView) : ReloadOutcome :=
  match read_token_file file with
  | Ok parsed => Loaded parsed
  | Err NotFound => Revoked
  | Err (IoOther message) => Unreadable message
  | Err (TooLarge bytes) =>
      Invalid (String.append "token file is " (String.append (Render.show_u64 bytes)
        (String.append " bytes, limit is " (Render.show_u64 MAX_TOKEN_FILE_BYTES))))
  | Err (TooManyTokens count) =>
      Invalid (String.append "token file holds " (String.append (Render.show_u64 count)
        (String.append " tokens, limit is " (Render.show_u64 MAX_TOKENS))))
  end.

Inductive LogEvent :=
| LogNone
| EmptyKept
| EmptyRevoked
| LogRevoked
| SkippedLong (count : nat)
| LogUnreadable (message : string)
| LogInvalid (message : string)
| StaleExpired (message : string).

(** The publication of a reload at [now], once it is known to be due.  The
    counter of empty reads is 32 bits wide. *)
Definition publish (max_age : Duration) (c : CachedTokens) (r : ReloadOutcome) (now : Instant)
    : CachedTokens * LogEvent :=
  match r with
  | Loaded parsed =>
      match parsed_hashes parsed with
      | [] =>
          let n := (consecutive_empty c + 1) mod 2 ^ 32 in
          if 2 <=? n then
            ({| loaded_at := Some now; hashes := []; unhealthy_since := None; consecutive_empty := n |},
             EmptyRevoked)
          else
            ({| loaded_at := Some now; hashes := hashes c; unhealthy_since := unhealthy_since c;
                consecutive_empty := n |}, EmptyKept)
      | fresh =>
          ({| loaded_at := Some now; hashes := fresh; unhealthy_since := None; consecutive_empty := 0 |},
           if (0 <? skipped_long_lines parsed)%nat then SkippedLong (skipped_long_lines parsed)
           else LogNone)
      end
  | Revoked =>
      ({| loaded_at := Some now; hashes := []; unhealthy_since := None; consecutive_empty := 0 |},
       match hashes c with [] => LogNone | _ => LogRevoked end)
  | Unreadable message | Invalid message =>
      let since := default now (unhealthy_since c) in
      if max_age <=? saturating_duration_since now since then
        ({| loaded_at := Some now; hashes := []; unhealthy_since := Some since;
            consecutive_empty := consecutive_empty c |}, StaleExpired message)
      else
        ({| loaded_at := Some now; hashes := hashes c; unhealthy_since := Some since;
            consecutive_empty := consecutive_empty c |},
         match r with Invalid _ => LogInvalid message | _ => LogUnreadable message end)
  end.

Definition set_cached (v : TokenFileVault) (c : CachedTokens) : TokenFileVault :=
  {| reload_interval := reload_interval v; max_stale_age := max_stale_age v; cached := c;
     reloading := reloading v; background_reload := background_reload v |}.

(** [refresh]: nothing when another thread holds the claim, and nothing when
    somebody else reloaded during the read ([checked] is the clock reading of
    the second staleness test); the claim is released in either case. *)
Definition refresh (v : TokenFileVault) (file : FileView) (checked now : Instant)
    : TokenFileVault * list Digest * LogEvent :=
  if reloading v then (v, hashes (cached v), LogNone)
  else if is_stale (loaded_at (cached v)) (reload_interval v) checked then
    let (c, event) := publish (max_stale_age v) (cached v) (reload_outcome file) now in
    (set_cached v c, hashes c, event)
  else (v, hashes (cached v), LogNone).

(** [ct_eq]: the fold over the zipped bytes. *)
Definition ct_eq (a b : Digest) : bool :=
  foldl (fun diff xy => N.lor diff (N.lxor (N_of_ascii xy.1) (N_of_ascii xy.2))) 0 (zip a b) =? 0.

Definition known (hs : list Digest) (digest : Digest) : bool := existsb (fun h => ct_eq h digest) hs.

(** [verify]: [t0] is the reading of the fast path; the rest is what an inline
    reload would observe. *)
Definition verify (v : TokenFileVault) (token : string) (t0 : Instant) (file : FileView)
    (checked now : Instant) : TokenFileVault * bool :=
  if Text.is_empty token then (v, false)
  else
    let digest := sha256 token in
    if negb (is_stale (loaded_at (cached v)) (reload_interval v) t0) then
      (v, known (hashes (cached v)) digest)
    else if background_reload v then (v, known (hashes (cached v)) digest)
    else
      let '(v', hs, _) := refresh v file checked now in (v', known hs digest).

(** ** The interceptor *)

(** The [authorization] metadata value: absent, not decodable as ASCII, or a
    string. *)
Inductive Header := NoHeader | NotAscii | HeaderText (value : string).

(** Every refusal is [Status::unauthenticated] with this message. *)
Definition bearer_token (h : Header) : result string string :=
  match h with
  | NoHeader => Err "missing authorization header"
  | NotAscii => Err "authorization header is not ASCII"
  | HeaderText value =>
      match split_once_space value with
      | None => Err "malformed authorization header"
      | Some (scheme, token) =>
          let token := Text.trim token in
          if negb (Text.eq_ignore_ascii_case scheme "bearer") || Text.is_empty token then
            Err "expected `Bearer <token>`"
          else Ok token
      end
  end.

Definition intercept_bearer (v : TokenFileVault) (h : Header) (t0 : Instant) (file : FileView)
    (checked now : Instant) : TokenFileVault * result string unit :=
  match bearer_token h with
  | Err e => (v, Err e)
  | Ok token =>
      let (v', ok) := verify v token t0 file checked now in
      (v', if ok then Ok tt else Err "invalid bearer token")
  end.

Definition set_background_reload (v : TokenFileVault) (b : bool) : TokenFileVault :=
  {| reload_interval := reload_interval v; max_stale_age := max_stale_age v; cached := cached v;
     reloading := reloading v; background_reload := b |}.

(** [spawn_background_reloader]: the vault, and whether a reloader was started
    by this call.  A second call starts none; when the thread cannot be spawned
    the flag is taken back and reloads stay inline. *)
Definition spawn_background_reloader (v : TokenFileVault) (spawned : bool) : TokenFileVault * bool :=
  if background_reload v then (v, false)
  else
    let v := set_background_reload v true in
    if spawned then (v, true) else (set_background_reload v false, false).

(** One pass of the reloader's loop: the clock when the sleep is over, whether
    the weak reference could be upgraded, what [refresh] finds in the file, and
    the clock readings it takes. *)
Record Pass := {
  woken : Instant;
  upgraded : bool;
  found : FileView;
  rechecked : Instant;
  published : Instant;
}.

(** The body of the loop; [None] is its [break]. *)
Definition reloader_pass (v : TokenFileVault) (p : Pass) : option TokenFileVault :=
  if negb (upgraded p) then None
  else if negb (background_reload v) then None
  else Some (refresh v (found p) (rechecked p) (published p)).1.1.

(** [BearerInterceptor::new]: production wiring starts the background
    reloader. *)
Definition BearerInterceptor_new (token_file : option FileView) (now : Instant) (spawned : bool)
    : result AuthError (option TokenFileVault) :=
  match token_file with
  | None => Ok None
  | Some file =>
      let? v := open file now in
      Ok (Some (spawn_background_reloader v spawned).1)
  end.

(** [Interceptor::call]. *)
Definition call (i : option TokenFileVault) (h : Header) (t0 : Instant) (file : FileView)
    (checked now : Instant) : option TokenFileVault * result string unit :=
  match i with
  | None => (None, Ok tt)
  | Some v => let (v', r) := intercept_bearer v h t0 file checked now in (Some v', r)
  end.

(** The vault in service: requests on the worker threads, interleaved with the
    passes of the reloader as long as its loop is [running]. *)
Inductive Activity :=
| Request (h : Header) (t0 : Instant) (file : FileView) (checked now : Instant)
| Wake (p : Pass).

Fixpoint run (running : bool) (v : TokenFileVault) (acts : list Activity) : TokenFileVault :=
  match acts with
  | [] => v
  | Request h t0 file checked now :: rest => run running (intercept_bearer v h t0 file checked now).1 rest
  | Wake p :: rest =>
      if running then
        match reloader_pass v p with
        | Some v' => run true v' rest
        | None => run false v rest
        end
      else run false v rest
  end.

(** [token_file_permissions_are_over_permissive] *)
Definition token_file_permissions_are_over_permissive (mode : N) : bool := negb (N.land mode 63 =? 0).

End vault.

(** ** Digest comparison *)

Lemma foldl_lor_zero l : forall acc,
  foldl (fun diff (xy : ascii * ascii) => N.lor diff (N.lxor (N_of_ascii xy.1) (N_of_ascii xy.2))) acc l = 0 <->
  acc = 0 /\ Forall (fun xy => xy.1 = xy.2) l.
Proof.
  induction l as [|[x y] l IH]; intros acc; simpl; [naive_solver constructor|].
  rewrite IH, N.lor_eq_0_iff, N.lxor_eq_0_iff, Forall_cons. simpl.
  assert (N_of_ascii x = N_of_ascii y <-> x = y) as Hinj.
  { split; [|by intros ->]. intros H%(f_equal ascii_of_N). by rewrite !ascii_N_embedding in H. }
  tauto.
Qed.

(** The constant-time comparison decides equality of digests of one length. *)
Lemma ct_eq_spec a b : length a = length b -> ct_eq a b = true <-> a = b.
Proof.
  intros Hlen. unfold ct_eq. rewrite N.eqb_eq, foldl_lor_zero. split.
  - intros [_ H]. revert b Hlen H. induction a as [|x a IH]; intros [|y b] Hlen H; try done.
    simpl in H. apply Forall_cons in H as [Hx H]. simpl in Hx. f_equal; [done|].
    apply IH; [by simpl in Hlen; lia|done].
  - intros ->. split; [done|]. clear. induction b; simpl; by constructor.
Qed.

Section properties.
Context (sha256 : string -> Digest) (Hsha : forall s, length (sha256 s) = 32%nat).

Definition digests (hs : list Digest) : Prop := Forall (fun h => length h = 32%nat) hs.

Lemma known_spec hs token : digests hs -> known hs (sha256 token) = true <-> sha256 token ∈ hs.
Proof.
  intros Hd. unfold known. rewrite existsb_exists. unfold digests in Hd. rewrite Forall_forall in Hd. split.
  - intros (h & Hin%list_elem_of_In & Heq). apply ct_eq_spec in Heq; [by subst|].
    rewrite Hsha. by apply Hd.
  - intros Hin. exists (sha256 token). split; [by apply list_elem_of_In|]. by apply ct_eq_spec.
Qed.

(** ** The token file *)

(** A line that counts: not over-long. *)
Definition token_line (line : string) : Prop := N.of_nat (String.length line) <= MAX_TOKEN_LINE_BYTES.

#[local] Instance token_line_dec line : Decision (token_line line).
Proof. unfold token_line. apply _. Defined.

Lemma parse_loop_spec ls : forall hs skipped total,
  N.of_nat (length hs) <= total ->
  let '(hs', _, total') := parse_loop sha256 ls hs skipped total in
  total' = total + N.of_nat (length (filter token_line ls)) /\
  (total' <= MAX_TOKENS -> hs' = hs ++ (sha256 <$> filter token_line ls)).
Proof.
  induction ls as [|line ls IH]; intros hs skipped total Hle; simpl.
  { split; [simpl; lia|]. intros _. by rewrite app_nil_r. }
  rewrite filter_cons. destruct (N.ltb_spec MAX_TOKEN_LINE_BYTES (N.of_nat (String.length line))) as [Hl|Hl].
  - rewrite decide_False by (unfold token_line; lia). by apply IH.
  - rewrite decide_True by done.
    specialize (IH (if N.of_nat (length hs) <? MAX_TOKENS then hs ++ [sha256 line] else hs) skipped (total + 1)).
    destruct (parse_loop sha256 ls _ skipped (total + 1)) as [[hs' sk'] total'].
    destruct IH as [-> Hhs].
    { destruct (N.of_nat (length hs) <? MAX_TOKENS); [rewrite length_app; simpl|]; lia. }
    split; [simpl; lia|]. intros Hmax. rewrite Hhs by done.
    destruct (N.ltb_spec (N.of_nat (length hs)) MAX_TOKENS); [|lia].
    by rewrite <- app_assoc.
Qed.

Lemma parse_token_lines_ok text parsed :
  parse_token_lines sha256 text = Ok parsed ->
  parsed_hashes parsed = sha256 <$> filter token_line (token_lines text).
Proof.
  unfold parse_token_lines. pose proof (parse_loop_spec (token_lines text) [] 0 0 ltac:(simpl; lia)) as H.
  destruct (parse_loop sha256 (token_lines text) [] 0 0) as [[hs sk] total]. destruct H as [Ht Hhs].
  destruct (N.ltb_spec MAX_TOKENS total); [done|]. intros [= <-]. simpl. by apply Hhs.
Qed.

(** What a reading of the file yields, when it is accepted. *)
Lemma read_token_file_ok declared bytes parsed :
  read_token_file sha256 (Contents declared bytes) = Ok parsed ->
  N.of_nat (length bytes) <= MAX_TOKEN_FILE_BYTES /\
  exists text, from_utf8 bytes = Some text /\
    parsed_hashes parsed = sha256 <$> filter token_line (token_lines text).
Proof.
  cbn [read_token_file]. destruct (MAX_TOKEN_FILE_BYTES <? declared); [done|].
  destruct (N.ltb_spec MAX_TOKEN_FILE_BYTES
    (N.of_nat (length (take (N.to_nat (MAX_TOKEN_FILE_BYTES + 1)) bytes)))) as [|Hl]; [done|].
  rewrite length_take in Hl. rewrite take_ge by lia.
  destruct (from_utf8 bytes) as [text|] eqn:Hu; [|done]. intros Hp. split; [lia|].
  exists text. split; [done|]. by apply parse_token_lines_ok.
Qed.

Lemma read_token_file_digests file parsed :
  read_token_file sha256 file = Ok parsed -> digests (parsed_hashes parsed).
Proof.
  intros Hp. destruct file as [| |declared bytes]; [done|by simpl in Hp; case_match|].
  destruct (read_token_file_ok _ _ _ Hp) as (_ & text & _ & ->).
  apply Forall_fmap, Forall_forall. intros line _. apply Hsha.
Qed.

Lemma bearer_token_non_empty h token : bearer_token h = Ok token -> Text.is_empty token = false.
Proof.
  unfold bearer_token. destruct h; try done. repeat case_match; intros; simplify_eq. by bool_to_prop.
Qed.

(** The request path that reads nothing but the cache. *)
Lemma verify_cached v token t0 file checked now :
  Text.is_empty token = false ->
  is_stale (loaded_at (cached v)) (reload_interval v) t0 = false \/ background_reload v = true ->
  verify sha256 v token t0 file checked now = (v, known (hashes (cached v)) (sha256 token)).
Proof.
  intros He Hfast. unfold verify. rewrite He. destruct Hfast as [-> | ->]; [done|]. by destruct (negb _).
Qed.

(** C17: Exactly the file's tokens are accepted: after the vault opened a file, and
    while no reload is due (or reloads are left to the background thread), a
    request passes exactly when its header is [Bearer <token>] (any case, the
    token trimmed and not empty) and the token has the digest of a non-empty
    trimmed line of the file that is not over-long; the request path neither
    changes the vault nor reads the file. *)
Theorem accepts_exactly_file_tokens declared bytes opened v spawned h t0 file checked now :
  open sha256 (Contents declared bytes) opened = Ok v ->
  is_stale (loaded_at (cached v)) (reload_interval v) t0 = false \/ spawned = true ->
  let v := {| reload_interval := reload_interval v; max_stale_age := max_stale_age v;
              cached := cached v; reloading := reloading v; background_reload := spawned |} in
  let (v', r) := intercept_bearer sha256 v h t0 file checked now in
  v' = v /\
  (r = Ok tt <-> exists text token line, from_utf8 bytes = Some text /\ bearer_token h = Ok token /\
     line ∈ token_lines text /\ N.of_nat (String.length line) <= MAX_TOKEN_LINE_BYTES /\
     sha256 token = sha256 line).
Proof.
  unfold open, read_token_hashes. destruct (read_token_file sha256 _) as [parsed|[]] eqn:Hread; try done.
  destruct (read_token_file_ok _ _ _ Hread) as (_ & text & Hu & Hp). rewrite Hu.
  destruct (parsed_hashes parsed) as [|d ds] eqn:Hd; [done|].
  intros [= <-] Hfast. cbn [cached loaded_at reload_interval max_stale_age reloading background_reload] in *.
  assert (forall token, known (d :: ds) (sha256 token) = true <->
    exists line, line ∈ token_lines text /\ N.of_nat (String.length line) <= MAX_TOKEN_LINE_BYTES /\
      sha256 token = sha256 line) as Hknown.
  { intros token. rewrite known_spec, Hp.
    - rewrite list_elem_of_fmap. split; intros (line & H); exists line; rewrite list_elem_of_filter in *; naive_solver.
    - rewrite Hp. apply Forall_fmap, Forall_forall. intros line _. apply Hsha. }
  unfold intercept_bearer. destruct (bearer_token h) as [token|e] eqn:Hb; [|naive_solver].
  rewrite verify_cached; [|by eapply bearer_token_non_empty|done].
  cbn [cached hashes]. split; [done|]. specialize (Hknown token).
  destruct (known (d :: ds) (sha256 token)) eqn:Hk; split.
  - intros _. destruct (proj1 Hknown eq_refl) as (line & ?). by exists text, token, line.
  - done.
  - done.
  - intros (? & ? & line & ? & ? & ? & ? & ?). simplify_eq.
    assert (false = true) by (apply Hknown; by exists line). done.
Qed.

End properties.

(** ** Reloads and revocation *)

Section reloads.
Context (sha256 : string -> Digest).

(** A reload: when its result is published and what the read found. *)
Definition Reload := (Instant * FileView)%type.

Definition reload (max_age : Duration) (c : CachedTokens) (e : Reload) : CachedTokens :=
  (publish max_age c (reload_outcome sha256 e.2) e.1).1.

Definition reloads (max_age : Duration) (c : CachedTokens) (es : list Reload) : CachedTokens :=
  foldl (reload max_age) c es.

(** The file does not list the token with this digest. *)
Definition unlisted (digest : Digest) (e : Reload) : Prop :=
  forall parsed, read_token_file sha256 e.2 = Ok parsed -> digest ∉ parsed_hashes parsed.

(** At most one empty read has been passed over for a non-empty set. *)
Definition cache_inv (c : CachedTokens) : Prop := hashes c = [] \/ consecutive_empty c <= 1.

Lemma cache_inv_reload max_age c e : cache_inv c -> cache_inv (reload max_age c e).
Proof.
  unfold cache_inv, reload, publish. intros Hinv.
  repeat case_match; simplify_eq/=; bool_to_prop; try (by left); try (right; lia); destruct Hinv; auto.
Qed.

Lemma cache_inv_reloads max_age es : forall c, cache_inv c -> cache_inv (reloads max_age c es).
Proof. induction es as [|e es IH]; intros c H; [done|]. by apply IH, cache_inv_reload. Qed.

(** How an unlisted token can survive a reload: the first empty read, or a
    failing one within the grace period. *)
Lemma reload_survives max_age c e digest :
  unlisted digest e -> cache_inv c -> digest ∈ hashes (reload max_age c e) ->
  digest ∈ hashes c /\
  ((consecutive_empty c = 0 /\ consecutive_empty (reload max_age c e) = 1 /\
    unhealthy_since (reload max_age c e) = unhealthy_since c) \/
   (consecutive_empty (reload max_age c e) = consecutive_empty c /\
    unhealthy_since (reload max_age c e) = Some (default e.1 (unhealthy_since c)) /\
    e.1 - default e.1 (unhealthy_since c) < max_age)).
Proof.
  unfold unlisted, reload, reload_outcome, publish, cache_inv, saturating_duration_since. intros Hun Hinv.
  destruct (read_token_file sha256 e.2) as [parsed|err].
  - specialize (Hun _ eq_refl). destruct (parsed_hashes parsed) as [|d ds]; simpl in *; [|done].
    destruct (N.leb_spec 2 ((consecutive_empty c + 1) mod 2 ^ 32)) as [|Hn]; simpl; [set_solver|].
    intros Hin. split; [done|]. left. destruct Hinv as [Hinv|Hinv]; [rewrite Hinv in Hin; set_solver|].
    rewrite N.mod_small in * by lia. split_and!; [lia|lia|done].
  - destruct err; simpl; try set_solver.
    all: destruct (N.leb_spec max_age (e.1 - default e.1 (unhealthy_since c))); simpl; [set_solver|].
    all: intros Hin; split; [done|]; right; by split_and!.
Qed.

(** Failing reads have been going on since [since] at the latest. *)
Definition failing_since (since : Instant) (c : CachedTokens) : Prop :=
  exists s, unhealthy_since c = Some s /\ s <= since.

Lemma survives_failing max_age c e digest since :
  unlisted digest e -> cache_inv c -> failing_since since c ->
  digest ∈ hashes (reload max_age c e) -> digest ∈ hashes c /\ failing_since since (reload max_age c e).
Proof.
  intros Hun Hinv (s & Hs & Hle) Hin. destruct (reload_survives _ _ _ _ Hun Hinv Hin) as [Hin' Hcase].
  split; [done|]. exists s. split; [|done].
  destruct Hcase as [(_ & _ & ->)|(_ & -> & _)]; by rewrite Hs.
Qed.

(** Two reloads after which a surviving token means that reads are failing. *)
Lemma survives_two max_age c e0 e1 digest :
  unlisted digest e0 -> unlisted digest e1 -> cache_inv c -> e0.1 <= e1.1 ->
  (forall s, unhealthy_since c = Some s -> s <= e0.1) ->
  digest ∈ hashes (reloads max_age c [e0; e1]) -> failing_since e1.1 (reloads max_age c [e0; e1]).
Proof.
  intros H0 H1 Hinv Hle Hpast Hin. simpl in *. pose proof (cache_inv_reload max_age c e0 Hinv) as Hinv1.
  destruct (reload_survives _ _ _ _ H1 Hinv1 Hin) as [Hin1 Hcase1].
  destruct (reload_survives _ _ _ _ H0 Hinv Hin1) as [_ Hcase0].
  assert (default e0.1 (unhealthy_since c) <= e0.1) as Hd.
  { destruct (unhealthy_since c) as [s|]; simpl; [by apply Hpast|lia]. }
  unfold failing_since.
  destruct Hcase1 as [(Hz & _ & ->)|(_ & -> & _)].
  - destruct Hcase0 as [(_ & Ho & _)|(_ & -> & _)]; [lia|]. eexists. split; [done|lia].
  - eexists. split; [done|]. destruct Hcase0 as [(_ & _ & ->)|(_ & -> & _)]; simpl.
    + destruct (unhealthy_since c) as [s|]; simpl; [specialize (Hpast s eq_refl)|]; lia.
    + lia.
Qed.

(** A token that reloads removed does not come back. *)
Lemma reloads_survives max_age digest es : forall c,
  Forall (unlisted digest) es -> cache_inv c ->
  digest ∈ hashes (reloads max_age c es) -> digest ∈ hashes c.
Proof.
  induction es as [|e es IH]; intros c Hun Hinv Hin; [done|].
  apply Forall_cons in Hun as [He Hun].
  apply (IH (reload max_age c e)) in Hin; [|done|by apply cache_inv_reload].
  by eapply reload_survives.
Qed.

Lemma reloads_failing max_age digest since es : forall c,
  Forall (unlisted digest) es -> cache_inv c -> failing_since since c ->
  digest ∈ hashes (reloads max_age c es) -> failing_since since (reloads max_age c es).
Proof.
  induction es as [|e es IH]; intros c Hun Hinv Hf Hin; [done|].
  apply Forall_cons in Hun as [He Hun]. simpl. pose proof (cache_inv_reload max_age c e Hinv) as Hinv'.
  apply IH; [done..| |done]. eapply survives_failing; [done|done|done|].
  by eapply reloads_survives.
Qed.

(** Past the grace period a failing read, or a second empty one, revokes. *)
Lemma grace_ends max_age c f1 f2 digest since :
  unlisted digest f1 -> unlisted digest f2 -> cache_inv c -> failing_since since c ->
  since + max_age <= f1.1 -> f1.1 <= f2.1 -> digest ∉ hashes (reloads max_age c [f1; f2]).
Proof.
  intros H1 H2 Hinv Hf Hend Hle Hin. simpl in Hin.
  pose proof (cache_inv_reload max_age c f1 Hinv) as Hinv1.
  destruct (reload_survives _ _ _ _ H2 Hinv1 Hin) as [Hin1 Hcase2].
  destruct (survives_failing _ _ _ _ _ H1 Hinv Hf Hin1) as [_ (s1 & Hs1 & Hle1)].
  destruct (reload_survives _ _ _ _ H1 Hinv Hin1) as [_ Hcase1]. destruct Hf as (s & Hs & Hls).
  rewrite Hs, Hs1 in *. simpl in *. destruct Hcase1 as [(_ & ? & _)|(_ & _ & ?)]; [|lia].
  destruct Hcase2 as [(? & _)|(_ & _ & ?)]; lia.
Qed.

(** When unhealthy since [s], then a reload happened at [s]. *)
Lemma reloads_since max_age es : forall c bound,
  (forall s, unhealthy_since c = Some s -> s <= bound) -> Forall (fun e => e.1 <= bound) es ->
  forall s, unhealthy_since (reloads max_age c es) = Some s -> s <= bound.
Proof.
  induction es as [|e es IH]; intros c bound Hc Hes; simpl; [done|].
  apply Forall_cons in Hes as [He Hes]. apply IH; [|done]. intros s.
  unfold reload, publish, saturating_duration_since. repeat case_match; simplify_eq/=; try naive_solver.
  all: intros [= <-]; destruct (unhealthy_since c); simpl; naive_solver.
Qed.

(** Whatever the history of the vault, a token that reloads no longer find is
    gone after the second reload past the grace period, counted from the second
    such reload. *)
Lemma reloads_revoke file0 opened v past e0 e1 mid f1 f2 digest :
  open sha256 file0 opened = Ok v ->
  let es := e0 :: e1 :: mid ++ [f1; f2] in
  Forall (unlisted digest) es ->
  StronglySorted (fun a b => a.1 <= b.1) (past ++ es) ->
  e1.1 + max_stale_age v <= f1.1 ->
  digest ∉ hashes (reloads (max_stale_age v) (cached v) (past ++ es)).
Proof.
  intros Hopen es Hun Hsorted Hgrace. unfold reloads. rewrite foldl_app.
  assert (cache_inv (cached v) /\ unhealthy_since (cached v) = None) as [Hinv0 Hn0].
  { unfold open in Hopen. destruct (read_token_hashes sha256 file0); simplify_eq. split; [by right|done]. }
  set (c := foldl (reload (max_stale_age v)) (cached v) past).
  assert (cache_inv c) as Hinv by (by apply cache_inv_reloads).
  assert (forall s, unhealthy_since c = Some s -> s <= e0.1) as Hpast.
  { apply (reloads_since (max_stale_age v) past (cached v) e0.1); [by rewrite Hn0|].
    apply Forall_forall. intros e He.
    apply (StronglySorted_app_1_elem_of _ _ _ _ _ Hsorted He). unfold es. set_solver. }
  apply StronglySorted_app in Hsorted as (_ & _ & Hs).
  unfold es in *. clear es. apply StronglySorted_cons in Hs as [H01 Hs].
  apply StronglySorted_cons in Hs as [_ Hs]. apply StronglySorted_app in Hs as (_ & _ & Hs).
  apply StronglySorted_cons in Hs as [H12 _]. apply Forall_cons in H01 as [H01 _].
  apply Forall_cons in H12 as [H12 _].
  change (e0 :: e1 :: mid ++ [f1; f2]) with ([e0; e1] ++ mid ++ [f1; f2]) in *.
  rewrite !Forall_app, !Forall_cons in Hun. destruct Hun as ((Hu0 & Hu1 & _) & Hum & Huf1 & Huf2 & _).
  rewrite !foldl_app. intros Hin.
  set (c1 := foldl (reload (max_stale_age v)) c [e0; e1]) in *.
  set (c2 := foldl (reload (max_stale_age v)) c1 mid) in *.
  assert (cache_inv c1) as Hinv1 by (by apply (cache_inv_reloads _ [e0; e1])).
  assert (cache_inv c2) as Hinv2 by (by apply cache_inv_reloads).
  assert (digest ∈ hashes c2) as Hin2 by (eapply (reloads_survives _ _ [f1; f2]); eauto).
  assert (digest ∈ hashes c1) as Hin1 by (by eapply reloads_survives).
  assert (failing_since e1.1 c1) as Hf1 by (by eapply survives_two).
  assert (failing_since e1.1 c2) as Hf2 by (by eapply reloads_failing).
  by eapply (grace_ends (max_stale_age v) c2 f1 f2).
Qed.

(** Digests are all of one length, whatever was read. *)
Lemma digests_reloads max_age es : (forall s, length (sha256 s) = 32%nat) -> forall c,
  digests (hashes c) -> digests (hashes (reloads max_age c es)).
Proof.
  intros Hsha. induction es as [|[now file] es IH]; intros c Hc; [done|]. apply IH.
  pose proof (fun parsed => read_token_file_digests sha256 Hsha file parsed) as Hread.
  unfold reload, publish, reload_outcome; simpl. destruct (read_token_file sha256 file) as [parsed|[]].
  { specialize (Hread parsed eq_refl). repeat case_match; simplify_eq/=; try done; by constructor. }
  all: repeat case_match; simplify_eq/=; try done; by constructor.
Qed.

End reloads.

(** ** The reloader at work *)

Definition passes (acts : list Activity) : list Pass :=
  omap (fun a => match a with Wake p => Some p | Request _ _ _ _ _ => None end) acts.

Definition publication (p : Pass) : Reload := (published p, found p).

(** The passes of a thread that sleeps for [interval] before each of them, the
    first time since [from], on a monotonic clock and while the vault is
    owned. *)
Fixpoint timed (interval : Duration) (from : Instant) (ps : list Pass) : Prop :=
  match ps with
  | [] => True
  | p :: rest =>
      upgraded p = true /\ from + interval <= woken p /\ woken p <= rechecked p /\
      rechecked p <= published p /\ timed interval (published p) rest
  end.

Lemma timed_sorted interval ps : forall from, timed interval from ps ->
  Forall (fun e => from <= e.1) (publication <$> ps) /\
  StronglySorted (fun a b => a.1 <= b.1) (publication <$> ps).
Proof.
  induction ps as [|p ps IH]; intros from Ht; [split; constructor|].
  destruct Ht as (_ & ? & ? & ? & [Hle Hs]%IH). split; [|by apply SSorted_cons].
  constructor; [simpl; lia|]. eapply Forall_impl; [exact Hle|]. simpl. lia.
Qed.

Section reloader.
Context (sha256 : string -> Digest) (Hsha : forall s, length (sha256 s) = 32%nat).

(** A request leaves the vault alone while a reloader is responsible for it. *)
Lemma request_leaves_vault v h t0 file checked now :
  background_reload v = true -> (intercept_bearer sha256 v h t0 file checked now).1 = v.
Proof.
  intros Hbg. unfold intercept_bearer. destruct (bearer_token h) as [token|e] eqn:Hb; [|done].
  by rewrite verify_cached by (eauto using bearer_token_non_empty).
Qed.

(** The reloader never loses the second staleness test: it slept for the whole
    interval since its last publication, and nobody else publishes. *)
Lemma pass_publishes v from p :
  background_reload v = true -> reloading v = false ->
  (exists t, loaded_at (cached v) = Some t /\ t <= from) ->
  upgraded p = true -> from + reload_interval v <= woken p -> woken p <= rechecked p ->
  reloader_pass sha256 v p = Some (set_cached v (reload sha256 (max_stale_age v) (cached v) (publication p))).
Proof.
  intros Hbg Hr (t & Ht & Hle) Hup Hslept Hwoken. unfold reloader_pass, refresh. rewrite Hup, Hbg, Hr, Ht. simpl.
  destruct (N.leb_spec (reload_interval v) (saturating_duration_since (rechecked p) t)) as [_|Hlt].
  - unfold reload; simpl. by destruct (publish _ _ _ _).
  - unfold saturating_duration_since in Hlt. lia.
Qed.

Lemma reload_loaded_at max_age c e : loaded_at (reload sha256 max_age c e) = Some e.1.
Proof. unfold reload, publish. by repeat case_match; simplify_eq/=. Qed.

(** However requests and passes interleave, the cache is what the passes
    published, every one of them. *)
Lemma run_reloads acts : forall v from,
  background_reload v = true -> reloading v = false ->
  (exists t, loaded_at (cached v) = Some t /\ t <= from) ->
  timed (reload_interval v) from (passes acts) ->
  run sha256 true v acts =
  set_cached v (reloads sha256 (max_stale_age v) (cached v) (publication <$> passes acts)).
Proof.
  induction acts as [|[h t0 file checked now|p] acts IH]; intros v from Hbg Hr Hl Ht.
  - by destruct v.
  - cbn [run]. rewrite request_leaves_vault by done. by eapply IH.
  - cbn in Ht. destruct Ht as (Hup & Hslept & Hwoken & Hchecked & Ht). cbn [run].
    rewrite (pass_publishes v from) by done.
    rewrite (IH _ (published p)); [done|done|done| |done].
    exists (published p). split; [apply reload_loaded_at|done].
Qed.

(** C18: Revocation cannot be deferred forever: in the wiring of production, and
    however requests interleave with the passes of the background reloader,
    once passes no longer find a token in the file (it was deleted, replaced,
    emptied, or is being kept unreadable or over the limits), a request that
    presents it is refused after the second pass past the grace period, counted
    from the second such pass; whatever happened before, and without the
    request touching the file. *)
Theorem revocation_bounded file0 opened v acts past e0 e1 mid f1 f2 token h t0 file checked now :
  BearerInterceptor_new sha256 (Some file0) opened true = Ok (Some v) ->
  timed DEFAULT_RELOAD_INTERVAL opened (passes acts) ->
  let es := e0 :: e1 :: mid ++ [f1; f2] in
  passes acts = past ++ es ->
  Forall (fun p => unlisted sha256 (sha256 token) (publication p)) es ->
  published e1 + MAX_STALE_TOKEN_AGE <= published f1 ->
  bearer_token h = Ok token ->
  let v' := run sha256 true v acts in
  intercept_bearer sha256 v' h t0 file checked now = (v', Err "invalid bearer token").
Proof.
  intros Hv Ht es Hes Hun Hgrace Hb v'. unfold BearerInterceptor_new in Hv.
  destruct (open sha256 file0 opened) as [v0|] eqn:Hopen; [|done]. pose proof Hopen as Hv0. unfold open in Hv0.
  destruct (read_token_hashes sha256 file0) as [loaded|] eqn:Hread; [|done].
  injection Hv0 as Ev0. assert (v = set_background_reload v0 true) as -> by (subst v0; by injection Hv as <-).
  assert (v' = set_cached (set_background_reload v0 true)
    (reloads sha256 (max_stale_age v0) (cached v0) (publication <$> passes acts))) as ->.
  { unfold v'. rewrite <- Ev0. rewrite (run_reloads acts _ opened); [done..| |done]. by exists opened. }
  unfold intercept_bearer. rewrite Hb, verify_cached by (eauto using bearer_token_non_empty). simpl.
  destruct (known _ _) eqn:Hk; [|done]. exfalso. apply known_spec in Hk; [|done|].
  - revert Hk. rewrite Hes. unfold es. rewrite fmap_app, !fmap_cons, fmap_app.
    apply (reloads_revoke sha256 file0 opened).
    + done.
    + change [publication f1; publication f2] with (publication <$> [f1; f2]).
      rewrite <- fmap_app, <- !fmap_cons. by apply Forall_fmap.
    + change (publication <$> [f1; f2]) with [publication f1; publication f2].
      apply timed_sorted in Ht as [_ Hs]. rewrite Hes in Hs. unfold es in Hs.
      by rewrite fmap_app, !fmap_cons, fmap_app in Hs.
    + by rewrite <- Ev0.
  - apply digests_reloads; [done|]. rewrite <- Ev0. simpl. revert Hread. unfold read_token_hashes.
    destruct (read_token_file sha256 file0) as [parsed|[]] eqn:Hp; try done.
    apply read_token_file_digests in Hp; [|done].
    destruct (parsed_hashes parsed); [done|]. by intros [= <-].
Qed.

End reloader.

(** ** A small vault *)

(** A stand-in for the hash: the first 32 bytes, padded. *)
Definition demo_sha (s : string) : Digest := take 32 (Text.bytes_of_string s ++ repeat zero 32).

Lemma demo_sha_length s : length (demo_sha s) = 32%nat.
Proof. unfold demo_sha. rewrite length_take, length_app, repeat_length. lia. Qed.

Definition demo_file : FileView :=
  Contents 13 (Text.bytes_of_string (String.append "alpha" (String newline (String.append " beta " (String newline "")))) ).
Definition empty_file : FileView := Contents 0 [].
Definition broken_file : FileView := OpenFails (IoOther "permission denied").

Definition demo_vault : TokenFileVault :=
  {| reload_interval := DEFAULT_RELOAD_INTERVAL; max_stale_age := MAX_STALE_TOKEN_AGE;
     cached := {| loaded_at := Some 0; hashes := [demo_sha "alpha"; demo_sha "beta"];
                  unhealthy_since := None; consecutive_empty := 0 |};
     reloading := false; background_reload := false |}.

Lemma demo_opened : open demo_sha demo_file 0 = Ok demo_vault.
Proof. vm_compute. reflexivity. Qed.

Lemma accepts_exactly_file_tokens_witness :
  let (v', r) := intercept_bearer demo_sha demo_vault (HeaderText "bEARER  beta") 1 broken_file 1 1 in
  v' = demo_vault /\ r = Ok tt.
Proof.
  pose proof (accepts_exactly_file_tokens demo_sha demo_sha_length 13
    (Text.bytes_of_string (String.append "alpha" (String newline (String.append " beta " (String newline "")))) )
    0 demo_vault false (HeaderText "bEARER  beta") 1 broken_file 1 1 demo_opened
    (or_introl eq_refl)) as H.
  change {| reload_interval := reload_interval demo_vault; max_stale_age := max_stale_age demo_vault;
            cached := cached demo_vault; reloading := reloading demo_vault;
            background_reload := false |} with demo_vault in H. cbv zeta in H.
  destruct (intercept_bearer _ _ _ _ _ _ _) as [v' r]. destruct H as [Hv Hr]. split; [exact Hv|].
  apply Hr. eexists _, "beta", "beta". split; [vm_compute; reflexivity|]. split; [vm_compute; reflexivity|].
  split; [apply list_elem_of_In; vm_compute; tauto|]. split; [vm_compute; discriminate|reflexivity].
Defined.

Definition demo_pass (secs : N) (file : FileView) : Pass :=
  {| woken := from_secs secs; upgraded := true; found := file; rechecked := from_secs secs;
     published := from_secs secs |}.

Definition demo_request (secs : N) : Activity :=
  Request (HeaderText "Bearer alpha") (from_secs secs) demo_file (from_secs secs) (from_secs secs).

Definition demo_acts : list Activity :=
  [Wake (demo_pass 5 demo_file); demo_request 6; Wake (demo_pass 10 empty_file);
   Wake (demo_pass 15 broken_file); demo_request 16; Wake (demo_pass 20 broken_file);
   demo_request 300; Wake (demo_pass 320 broken_file); Wake (demo_pass 325 broken_file)].

(** The file turns unreadable after one empty read and stays so; the request
    that comes then is refused, although the file lists the token again. *)
Lemma revocation_bounded_witness :
  let v' := run demo_sha true (set_background_reload demo_vault true) demo_acts in
  intercept_bearer demo_sha v' (HeaderText "Bearer alpha") (from_secs 326) demo_file (from_secs 326)
    (from_secs 326) = (v', Err "invalid bearer token").
Proof.
  apply (revocation_bounded demo_sha demo_sha_length demo_file 0 (set_background_reload demo_vault true)
    demo_acts [demo_pass 5 demo_file] (demo_pass 10 empty_file) (demo_pass 15 broken_file)
    [demo_pass 20 broken_file] (demo_pass 320 broken_file) (demo_pass 325 broken_file) "alpha").
  - vm_compute. reflexivity.
  - vm_compute. repeat split; discriminate.
  - reflexivity.
  - repeat (apply Forall_cons_2; [intros parsed Hp; vm_compute in Hp; inversion Hp; apply not_elem_of_nil|]).
    apply Forall_nil_2.
  - vm_compute. discriminate.
  - vm_compute. reflexivity.
Defined.

(** The counter of consecutive empty reads is not reset by a failing one: two
    empty reads with an unreadable one between them revoke everything, long
    before the grace period ends. *)
Theorem empty_reads_not_consecutive :
  let c := reloads demo_sha MAX_STALE_TOKEN_AGE (cached demo_vault)
             [(from_secs 5, empty_file); (from_secs 10, broken_file); (from_secs 15, empty_file)] in
  consecutive_empty c = 2 /\ hashes c = [].
Proof. vm_compute. split; reflexivity. Qed.

End Auth.
