(* ===== verification/Migration.v ===== *)
(** * Schema migrations ([crates/otel-sqlite-storage/src/migration.rs])

    The runner of the versioned SQL scripts and the read-only inspection.  The
    scripts themselves are SQL files: their effect is a parameter [run_sql] on
    an abstract schema, [None] when SQLite refuses the script.  Every statement
    of the connection may fail for reasons of its own: a script of failures,
    consumed one entry per statement, is part of the connection. *)

From S2P Require Import Prelude Time Model Text Command Sqlite.

Module Migration.
Import Sqlite.

Local Open Scope string_scope.
Local Open Scope list_scope.

Record Migration := {
  version : string;
  description : string;
  sql : string;
  disable_foreign_keys : bool;
}.

Definition MIGRATIONS : list Migration :=
  [{| version := "000";
      description := "Canonical OTLP SQLite schema: logs, resources, contentless FTS5, metrics and read-side views";
      sql := "000_baseline.sql"; disable_foreign_keys := false |};
   {| version := "001";
      description := "Incrementally maintained log search index: triggers keep FTS5 consistent with inserts and retention prunes";
      sql := "001_log_fts_incremental.sql"; disable_foreign_keys := false |};
   {| version := "002";
      description := "Metric retention access path: timestamp index for age-based data-point prunes";
      sql := "002_metric_retention_index.sql"; disable_foreign_keys := false |};
   {| version := "003";
      description := "Mapping fidelity: scope attributes/schema URL on log events and scopes, metric metadata, exemplar persistence columns exposed on the read-side views";
      sql := "003_mapping_fidelity.sql"; disable_foreign_keys := false |};
   {| version := "004";
      description := "Metric identity includes is_monotonic and aggregation_temporality in the dimension UNIQUE constraint (table rebuild)";
      sql := "004_metric_identity_temporality.sql"; disable_foreign_keys := true |};
   {| version := "005";
      description := "Logs-only sink: drop metric tables, views and indexes";
      sql := "005_drop_metrics_signal.sql"; disable_foreign_keys := false |}].

(** [latest_schema_version] *)
Definition latest_schema_version : string := default "" (version <$> last MIGRATIONS).

(** [str] comparison is bytewise. *)
Definition str_gtb (a b : string) : bool := negb (bool_decide (String.le a b)).

(** [iter().max()]: the last of the greatest. *)
Definition max_str (l : list string) : option string :=
  foldl (fun acc v => match acc with
                      | None => Some v
                      | Some m => Some (if str_gtb m v then m else v)
                      end) None l.

Section runner.
Context {Schema : Type} (run_sql : string -> Schema -> option Schema) (has_log_event : Schema -> bool).
(** [CURRENT_TIMESTAMP] when the stamp of a version is inserted.  A version is
    stamped once in the life of a database, since the stamp of an attempt that
    fails is rolled back. *)
Context (current_timestamp : string -> string).

(** A database: the rows of [schema_migrations] (version, description and
    [applied_at]; [None]: no such table) and everything else. *)
Record Db := {
  stamps : option (list (string * (string * string)));
  schema : Schema;
}.

Record Conn := {
  db : Db;
  tx : option Db;  (** what an open transaction sees *)
  foreign_keys : bool;
  script : list (option SqliteError);
}.

Definition pop (c : Conn) : Conn :=
  {| db := db c; tx := tx c; foreign_keys := foreign_keys c; script := tail (script c) |}.

(** One statement: it fails by script, or does what it does. *)
Definition statement {A} (c : Conn) (act : Conn -> option (Conn * A)) : Conn * result StorageError A :=
  match script c with
  | Some e :: _ => (pop c, Err (SqliteErr e))
  | _ => match act (pop c) with
         | Some (c', a) => (c', Ok a)
         | None => (pop c, Err (SqliteErr OtherSqlite))
         end
  end.

(** [?] on a statement. *)
Definition and_then {A B} (r : Conn * result StorageError A) (k : Conn -> A -> Conn * result StorageError B)
    : Conn * result StorageError B :=
  match r with
  | (c, Ok a) => k c a
  | (c, Err e) => (c, Err e)
  end.

Definition set_db (c : Conn) (d : Db) : Conn :=
  {| db := d; tx := tx c; foreign_keys := foreign_keys c; script := script c |}.
Definition set_tx (c : Conn) (t : option Db) : Conn :=
  {| db := db c; tx := t; foreign_keys := foreign_keys c; script := script c |}.
Definition set_foreign_keys (c : Conn) (b : bool) : Conn :=
  {| db := db c; tx := tx c; foreign_keys := b; script := script c |}.

(** [CREATE TABLE IF NOT EXISTS schema_migrations] *)
Definition ensure_table (d : Db) : Db :=
  {| stamps := Some (default [] (stamps d)); schema := schema d |}.

Definition stamp (m : Migration) (d : Db) : Db :=
  {| stamps := Some (default [] (stamps d) ++ [(version m, (description m, current_timestamp (version m)))]); schema := schema d |}.

(** ** Inspection *)

Definition table_exists (c : Conn) (name : string) : Conn * result StorageError bool :=
  statement c (fun c => Some (c,
    if String.eqb name "schema_migrations" then bool_decide (is_Some (stamps (db c)))
    else has_log_event (schema (db c)))).

Definition read_applied_versions (c : Conn) : Conn * result StorageError (list string) :=
  and_then (table_exists c "schema_migrations") (fun c exists_ =>
    if exists_ then statement c (fun c => Some (c, (default [] (stamps (db c))).*1))
    else (c, Ok [])).

Record SchemaStatus := {
  latest_known : string;
  applied : list string;
  pending : list string;
  newer_than_binary : bool;
  is_otel_schema : bool;
}.

Definition is_applied (versions : list string) (m : Migration) : bool :=
  existsb (String.eqb (version m)) versions.

Definition inspect_schema (c : Conn) : Conn * result StorageError SchemaStatus :=
  and_then (read_applied_versions c) (fun c versions =>
    let sorted := merge_sort String.le versions in
    let newer := match last sorted with
                 | Some v => str_gtb v latest_schema_version
                 | None => false
                 end in
    let todo := version <$> filter (fun m => is_applied sorted m = false) MIGRATIONS in
    and_then (table_exists c "log_event") (fun c otel =>
      (c, Ok {| latest_known := latest_schema_version; applied := sorted; pending := todo;
                newer_than_binary := newer; is_otel_schema := otel |}))).

(** ** Migration *)

(** The transaction of one migration, rolled back when a statement fails. *)
Definition migration_tx (c : Conn) (m : Migration) : Conn * result StorageError unit :=
  match
    and_then (statement c (fun c => Some (set_tx c (Some (db c)), tt))) (fun c _ =>
    and_then (statement c (fun c =>
      t ← tx c; s ← run_sql (sql m) (schema t);
      Some (set_tx c (Some {| stamps := stamps t; schema := s |}), tt))) (fun c _ =>
    and_then (statement c (fun c => t ← tx c; Some (set_tx c (Some (stamp m t)), tt))) (fun c _ =>
    statement c (fun c => t ← tx c; Some (set_tx (set_db c t) None, tt)))))
  with
  | (c, Err e) => (set_tx c None, Err e)
  | (c, Ok _) => (c, Ok tt)
  end.

Definition pragma_foreign_keys (on : bool) (m : Migration) (c : Conn) : Conn * result StorageError unit :=
  if disable_foreign_keys m then statement c (fun c => Some (set_foreign_keys c on, tt)) else (c, Ok tt).

Definition apply_migration (c : Conn) (m : Migration) : Conn * result StorageError unit :=
  and_then (pragma_foreign_keys false m c) (fun c _ =>
  and_then (migration_tx c m) (fun c _ => pragma_foreign_keys true m c)).

Definition beyond (target : option string) (m : Migration) : bool :=
  match target with Some t => str_gtb (version m) t | None => false end.

Fixpoint migrate_loop (versions : list string) (target : option string) (ms : list Migration) (c : Conn)
    : Conn * result StorageError unit :=
  match ms with
  | [] => (c, Ok tt)
  | m :: rest =>
      if is_applied versions m then migrate_loop versions target rest c
      else if beyond target m then migrate_loop versions target rest c
      else and_then (apply_migration c m) (fun c _ => migrate_loop versions target rest c)
  end.

Definition too_new (newest : string) : string :=
  String.append "database schema version " (String.append newest
    (String.append " is newer than the newest supported version "
      (String.append latest_schema_version "; upgrade this binary before opening it"))).

Definition migrate_inner (c : Conn) (target : option string) : Conn * result StorageError unit :=
  and_then (statement c (fun c => Some (set_db c (ensure_table (db c)), tt))) (fun c _ =>
  and_then (read_applied_versions c) (fun c versions =>
    match max_str versions with
    | Some newest =>
        if str_gtb newest latest_schema_version then (c, Err (StartupFailed (too_new newest)))
        else migrate_loop versions target MIGRATIONS c
    | None => migrate_loop versions target MIGRATIONS c
    end)).

Definition migrate (c : Conn) : Conn * result StorageError unit := migrate_inner c None.
Definition migrate_up_to (c : Conn) (target : string) : Conn * result StorageError unit :=
  migrate_inner c (Some target).

(** ** Properties *)

Definition versions_of (d : Db) : list string := (default [] (stamps d)).*1.

(** The migrations a database still lacks, up to the target. *)
Definition missing (target : option string) (versions : list string) (ms : list Migration) : list Migration :=
  filter (fun m => is_applied versions m = false /\ beyond target m = false) ms.

(** A run of whole migrations: script, then stamp. *)
Fixpoint apply_all (ms : list Migration) (d : Db) : option Db :=
  match ms with
  | [] => Some d
  | m :: rest =>
      s ← run_sql (sql m) (schema d);
      apply_all rest (stamp m {| stamps := stamps d; schema := s |})
  end.

(** Some version in the database is newer than this binary. *)
Definition newer (d : Db) : Prop := exists v, v ∈ versions_of d /\ str_gtb v latest_schema_version = true.

Lemma statement_cases {A} c (act : Conn -> option (Conn * A)) c' r :
  statement c act = (c', r) ->
  match r with Ok a => act (pop c) = Some (c', a) | Err _ => c' = pop c end.
Proof.
  unfold statement. intros H. destruct (script c) as [|[e|] rest]; simplify_eq; [|done|].
  all: destruct (act (pop c)) as [[c1 a]|] eqn:E; by simplify_eq.
Qed.

Lemma and_then_cases {A B} (r : Conn * result StorageError A) (k : Conn -> A -> Conn * result StorageError B) c' b :
  and_then r k = (c', b) ->
  match r with (c, Ok a) => k c a = (c', b) | (c, Err e) => c' = c /\ b = Err e end.
Proof. unfold and_then. destruct r as [c [a|e]]; intros; by simplify_eq. Qed.

(** One migration's transaction happens entirely or not at all. *)
Lemma migration_tx_spec c m c' r :
  migration_tx c m = (c', r) ->
  match r with Ok _ => apply_all [m] (db c) = Some (db c') | Err _ => db c' = db c end.
Proof.
  unfold migration_tx, and_then. intros H.
  repeat match type of H with
  | context [statement ?c ?act] =>
      let E := fresh "E" in
      destruct (statement c act) as [? [[]|?]] eqn:E; apply statement_cases in E; simplify_eq/=; try done
  end.
  all: destruct (run_sql (sql m) (schema (db c))) as [x|]; by simplify_eq/=.
Qed.

Lemma pragma_db on m c c' r : pragma_foreign_keys on m c = (c', r) -> db c' = db c.
Proof.
  unfold pragma_foreign_keys. destruct (disable_foreign_keys m); [|by intros; simplify_eq].
  intros H. apply statement_cases in H. destruct r; by simplify_eq/=.
Qed.

Lemma apply_migration_spec c m c' r :
  apply_migration c m = (c', r) ->
  db c' = db c /\ is_ok r = false \/ apply_all [m] (db c) = Some (db c').
Proof.
  unfold apply_migration. intros H. apply and_then_cases in H.
  destruct (pragma_foreign_keys false m c) as [c1 r1] eqn:E1. apply pragma_db in E1. rewrite <- E1.
  destruct r1; [|destruct H as [-> ->]; by left].
  apply and_then_cases in H. destruct (migration_tx c1 m) as [c2 r2] eqn:E2.
  apply migration_tx_spec in E2. destruct r2; [|destruct H as [-> ->]; by left].
  apply pragma_db in H. right. by rewrite H.
Qed.

(** The loop applies a prefix of what is missing, all of it on success. *)
Lemma migrate_loop_spec versions target ms : forall c c' r,
  migrate_loop versions target ms c = (c', r) ->
  exists done_, done_ `prefix_of` missing target versions ms /\ apply_all done_ (db c) = Some (db c') /\
    (is_ok r = true -> done_ = missing target versions ms).
Proof.
  induction ms as [|m ms IH]; intros c c' r H; simpl in H.
  { simplify_eq. by exists []. }
  unfold missing. rewrite filter_cons. fold (missing target versions ms).
  destruct (is_applied versions m); [rewrite decide_False by naive_solver; by apply IH|].
  destruct (beyond target m); [rewrite decide_False by naive_solver; by apply IH|].
  rewrite decide_True by done. apply and_then_cases in H.
  destruct (apply_migration c m) as [c1 r1] eqn:E. apply apply_migration_spec in E as Hm.
  destruct r1 as [u|e].
  - destruct Hm as [[_ ?]|Hm]; [done|]. destruct (IH _ _ _ H) as (done_ & Hp & Ha & Hok).
    exists (m :: done_). split_and!; [by apply prefix_cons| |intros; by rewrite Hok].
    simpl in *. destruct (run_sql (sql m) (schema (db c))); simplify_eq/=. by rewrite Hm.
  - destruct H as [-> ->]. destruct Hm as [[Hdb _]|Hm].
    + exists []. split_and!; [apply prefix_nil|by rewrite Hdb|done].
    + exists [m]. split_and!; [by apply prefix_cons, prefix_nil|done|done].
Qed.

Lemma max_str_spec l :
  match max_str l with
  | Some m => m ∈ l /\ forall v, v ∈ l -> String.le v m
  | None => l = []
  end.
Proof.
  unfold max_str.
  assert (forall l seen acc,
    match acc with Some m => m ∈ seen /\ forall v, v ∈ seen -> String.le v m | None => seen = [] end ->
    match foldl (fun acc v => match acc with None => Some v
                              | Some m => Some (if str_gtb m v then m else v) end) acc l with
    | Some m => m ∈ seen ++ l /\ forall v, v ∈ seen ++ l -> String.le v m
    | None => seen ++ l = []
    end) as Hgen.
  { clear l. intros l. induction l as [|x l IH]; intros seen acc H; simpl.
    { rewrite app_nil_r. done. }
    replace (seen ++ x :: l) with ((seen ++ [x]) ++ l) by (by rewrite <- app_assoc).
    apply IH. destruct acc as [m|]; [|subst; simpl; split; [set_solver|intros v ->%list_elem_of_singleton; reflexivity]].
    destruct H as [Hm Hle]. unfold str_gtb. case_bool_decide as Hx; simpl.
    - split; [set_solver|]. intros v Hv. apply elem_of_app in Hv as [Hv|Hv%list_elem_of_singleton]; [|by subst].
      transitivity m; [by apply Hle|done].
    - split; [set_solver|]. intros v Hv. apply elem_of_app in Hv as [Hv|Hv%list_elem_of_singleton]; [by apply Hle|].
      subst. by destruct (total String.le m x). }
  apply (Hgen l [] None). done.
Qed.

(** The downgrade guard fires exactly for a database of a newer binary. *)
Lemma guard_newer d m :
  max_str (versions_of d) = Some m -> str_gtb m latest_schema_version = true <-> newer d.
Proof.
  intros Hm. pose proof (max_str_spec (versions_of d)) as H. rewrite Hm in H. destruct H as [Hin Hle].
  split; [by exists m|]. intros (v & Hv & Hgt). unfold str_gtb in *. bool_to_prop.
  apply bool_decide_eq_false in Hgt. apply negb_true_iff, bool_decide_eq_false. intros Hml. apply Hgt.
  transitivity m; [by apply Hle|done].
Qed.

Lemma read_applied_spec c c' r :
  read_applied_versions c = (c', r) -> db c' = db c /\ (forall vs, r = Ok vs -> vs = versions_of (db c)).
Proof.
  unfold read_applied_versions, table_exists. intros H. apply and_then_cases in H.
  destruct (statement c _) as [c1 r1] eqn:E. apply statement_cases in E.
  destruct r1 as [b|e]; [|destruct H as [-> ->]; by subst].
  simpl in E. simplify_eq. unfold versions_of.
  case_bool_decide as Hs; [|simplify_eq/=; split; [done|]; intros vs [= <-]].
  - apply statement_cases in H. destruct r; simplify_eq/=; split; try done; by intros vs [= <-].
  - by destruct (stamps (db c)); [destruct Hs|].
Qed.

(** What one call of [migrate_inner] does to the committed database. *)
Lemma migrate_inner_spec c target c' r :
  migrate_inner c target = (c', r) ->
  db c' = db c /\ is_ok r = false \/
  db c' = ensure_table (db c) /\ is_ok r = false \/
  ~ newer (db c) /\ exists done_, done_ `prefix_of` missing target (versions_of (db c)) MIGRATIONS /\
    apply_all done_ (ensure_table (db c)) = Some (db c') /\
    (is_ok r = true -> done_ = missing target (versions_of (db c)) MIGRATIONS).
Proof.
  unfold migrate_inner. intros H. apply and_then_cases in H.
  destruct (statement c _) as [c1 r1] eqn:E1. apply statement_cases in E1.
  destruct r1 as [[]|e]; [|destruct H as [-> ->]; left; by subst].
  simpl in E1. simplify_eq. apply and_then_cases in H.
  destruct (read_applied_versions _) as [c2 r2] eqn:E2. apply read_applied_spec in E2 as [Hdb Hvs].
  simpl in Hdb. destruct r2 as [vs|e]; [|destruct H as [-> ->]; right; left; by rewrite Hdb].
  rewrite (Hvs vs eq_refl) in H. cbn [db set_db pop] in H.
  change (versions_of (ensure_table (db c))) with (versions_of (db c)) in H.
  right. rewrite <- Hdb.
  destruct (max_str (versions_of (db c))) as [m|] eqn:Hm.
  - destruct (str_gtb m latest_schema_version) eqn:Hg; [simplify_eq; by left|].
    right. split; [intros Hnew; apply (guard_newer _ _ Hm) in Hnew; congruence|]. by apply migrate_loop_spec in H.
  - right. pose proof (max_str_spec (versions_of (db c))) as He. rewrite Hm in He.
    split; [intros (v & Hv & _); rewrite He in Hv; by apply not_elem_of_nil in Hv|]. by apply migrate_loop_spec in H.
Qed.

Lemma apply_all_versions ms : forall d d',
  apply_all ms d = Some d' -> versions_of d' = versions_of d ++ (version <$> ms).
Proof.
  induction ms as [|m ms IH]; simpl; intros d d' H; [by simplify_eq; rewrite app_nil_r|].
  destruct (run_sql (sql m) (schema d)) as [s|]; simplify_eq/=. apply IH in H. rewrite H.
  unfold versions_of, stamp. simpl. rewrite fmap_app, <- app_assoc. done.
Qed.

Lemma apply_all_app ms1 ms2 d : apply_all (ms1 ++ ms2) d = apply_all ms1 d ≫= apply_all ms2.
Proof.
  revert d. induction ms1 as [|m ms1 IH]; intros d; simpl; [done|].
  destruct (run_sql (sql m) (schema d)); simpl; [apply IH|done].
Qed.

Lemma is_applied_app vs ws m : is_applied (vs ++ ws) m = is_applied vs m || is_applied ws m.
Proof. unfold is_applied. apply existsb_app. Qed.

(** After a prefix of the missing migrations, the rest is missing. *)
Lemma missing_rest target vs ms1 ms2 ms :
  NoDup (version <$> ms) -> missing target vs ms = ms1 ++ ms2 ->
  missing target (vs ++ (version <$> ms1)) ms = ms2.
Proof.
  intros Hnd Heq.
  assert (missing target (vs ++ (version <$> ms1)) ms =
          filter (fun m => is_applied (version <$> ms1) m = false) (missing target vs ms)) as ->.
  { unfold missing. rewrite list_filter_filter. apply list_filter_iff. intros m.
    rewrite is_applied_app, orb_false_iff. tauto. }
  rewrite Heq, filter_app, filter_none, filter_all; [done| |].
  - apply Forall_forall. intros m Hm. unfold is_applied. apply not_true_iff_false.
    intros (v & Hv%list_elem_of_In & <-%String.eqb_eq)%existsb_exists.
    assert (NoDup (version <$> (ms1 ++ ms2))) as Hnd'.
    { rewrite <- Heq. eapply sublist_NoDup; [exact Hnd|]. apply fmap_sublist, sublist_filter. }
    rewrite fmap_app in Hnd'. apply NoDup_app in Hnd' as (_ & Hd & _). apply (Hd (version m) Hv).
    apply list_elem_of_fmap. by exists m.
  - apply Forall_forall. intros m Hm Hf. unfold is_applied in Hf. apply not_true_iff_false in Hf. apply Hf.
    apply existsb_exists. exists (version m). split; [|apply String.eqb_refl].
    apply list_elem_of_In, list_elem_of_fmap. by exists m.
Qed.

Lemma MIGRATIONS_NoDup : NoDup (version <$> MIGRATIONS).
Proof. apply (bool_decide_unpack _). vm_compute. done. Qed.

Lemma ensure_table_stable ms d d' :
  apply_all ms (ensure_table d) = Some d' -> ensure_table d' = d'.
Proof.
  intros H. assert (is_Some (stamps d')) as [st Hst].
  { revert H. assert (is_Some (stamps (ensure_table d))) as Hs by (by eexists).
    revert Hs. generalize (ensure_table d). induction ms as [|m ms IH]; simpl; intros e Hs H; [by simplify_eq|].
    destruct (run_sql (sql m) (schema e)); simplify_eq/=. eapply IH; [|exact H]. by eexists. }
  unfold ensure_table. rewrite Hst. destruct d'; simpl in *. by subst.
Qed.

(** A failed attempt to migrate a database, on whatever connection. *)
Definition attempt (d d' : Db) : Prop :=
  exists c c' e, db c = d /\ migrate c = (c', Err e) /\ db c' = d'.

(** What failed attempts leave: the untouched database, or some whole
    migrations of those it lacks, in order. *)
Definition upgraded (d d1 : Db) (done_ : list Migration) : Prop :=
  done_ `prefix_of` missing None (versions_of d) MIGRATIONS /\
  (d1 = d /\ done_ = [] \/ apply_all done_ (ensure_table d) = Some d1).

Lemma upgraded_step d d1 done_ c c' r :
  upgraded d d1 done_ -> db c = d1 -> migrate c = (c', r) ->
  exists done', upgraded d (db c') done' /\
    (is_ok r = true -> ~ newer d1 /\ done' = missing None (versions_of d) MIGRATIONS /\
       apply_all done' (ensure_table d) = Some (db c')).
Proof.
  intros [[rest Hrest] Hd1] Hc H. apply migrate_inner_spec in H. rewrite Hc in H.
  assert (versions_of d1 = versions_of d ++ (version <$> done_) /\
          apply_all done_ (ensure_table d) = Some (ensure_table d1)) as [Hv Ha].
  { destruct Hd1 as [[-> ->]|Ha]; [by rewrite app_nil_r|]. split; [by apply apply_all_versions in Ha|].
    by rewrite (ensure_table_stable _ _ _ Ha). }
  rewrite Hv, (missing_rest _ _ _ _ _ MIGRATIONS_NoDup Hrest) in H.
  destruct H as [[-> Hr]|[[-> Hr]|(Hnew & more & [tail_ Hmore] & Happ & Hok)]].
  - exists done_. split; [|by rewrite Hr]. split; [by exists rest|done].
  - exists done_. split; [|by rewrite Hr]. split; [by exists rest|by right].
  - assert (apply_all (done_ ++ more) (ensure_table d) = Some (db c')) as Hall.
    { rewrite apply_all_app, Ha. done. }
    exists (done_ ++ more). split; [split; [|by right]|].
    + exists tail_. by rewrite <- app_assoc, <- Hmore.
    + intros Hr. rewrite (Hok Hr) in *. by rewrite Hrest.
Qed.

Lemma attempts_upgraded d d1 : rtc attempt d d1 -> exists done_, upgraded d d1 done_.
Proof.
  revert d1. apply rtc_ind_r.
  - exists []. split; [apply prefix_nil|by left].
  - intros d1 d2 _ (c & c' & e & Hc & Hm & <-) [done_ Hup]. destruct (upgraded_step _ _ _ _ _ _ Hup Hc Hm) as (done' & ? & _). by exists done'.
Qed.

(** C31: Migrations are atomic and resumable: after any number of failed attempts
    (a statement fails anywhere, a script is refused) the database holds some
    whole migrations of those it lacked, in order, each with its stamp; and the
    attempt that succeeds ends with exactly the database an undisturbed upgrade
    would have produced, which lacks nothing any more and was not written by a
    newer binary. *)
Theorem migrate_resumes d d1 c c' r :
  rtc attempt d d1 -> db c = d1 -> migrate c = (c', r) ->
  (exists done_, upgraded d (db c') done_) /\
  (r = Ok tt ->
   ~ newer d1 /\
   apply_all (missing None (versions_of d) MIGRATIONS) (ensure_table d) = Some (db c') /\
   missing None (versions_of (db c')) MIGRATIONS = []).
Proof.
  intros Hd Hc H. destruct (attempts_upgraded _ _ Hd) as [done_ Hup].
  destruct (upgraded_step _ _ _ _ _ _ Hup Hc H) as (done' & Hup' & Hok). split; [by exists done'|].
  intros ->. destruct (Hok eq_refl) as (Hnew & -> & Ha). split_and!; [done..|].
  rewrite (apply_all_versions _ _ _ Ha). change (versions_of (ensure_table d)) with (versions_of d).
  apply missing_rest; [apply MIGRATIONS_NoDup|]. by rewrite app_nil_r.
Qed.

Lemma last_sorted_newer vs :
  match last (merge_sort String.le vs) with
  | Some v => str_gtb v latest_schema_version
  | None => false
  end = true <-> exists v, v ∈ vs /\ str_gtb v latest_schema_version = true.
Proof.
  pose proof (merge_sort_Permutation String.le vs) as Hp.
  pose proof (StronglySorted_merge_sort String.le vs) as Hs.
  destruct (last (merge_sort String.le vs)) as [m|] eqn:Hl.
  - apply last_Some in Hl as [pre Hpre]. rewrite Hpre in Hs, Hp. split.
    + intros Hg. exists m. split; [|done]. rewrite <- Hp. set_solver.
    + intros (v & Hv & Hg). rewrite <- Hp in Hv. apply elem_of_app in Hv as [Hv|Hv%list_elem_of_singleton]; [|by subst].
      unfold str_gtb in *. bool_to_prop. apply bool_decide_eq_false in Hg. apply negb_true_iff, bool_decide_eq_false.
      intros Hm. apply Hg. transitivity m; [|done].
      eapply StronglySorted_app_1_elem_of; [exact Hs|done|set_solver].
  - apply last_None in Hl. rewrite Hl in Hp. apply Permutation_nil_l in Hp as <-. split; [done|].
    intros (v & Hv & _). by apply not_elem_of_nil in Hv.
Qed.

(** An error that SQLite reported. *)
Definition from_sqlite {A} (r : Conn * result StorageError A) : Prop :=
  forall e, r.2 = Err e -> exists s, e = SqliteErr s.

Lemma statement_sqlite {A} c (act : Conn -> option (Conn * A)) : from_sqlite (statement c act).
Proof.
  unfold statement, from_sqlite. intros e.
  destruct (script c) as [|[s|] rest]; [|intros [= <-]; by eexists|];
    (destruct (act (pop c)) as [[]|]; [done|]; intros [= <-]; by eexists).
Qed.

Lemma and_then_sqlite {A B} (r : Conn * result StorageError A) (k : Conn -> A -> Conn * result StorageError B) :
  from_sqlite r -> (forall c a, from_sqlite (k c a)) -> from_sqlite (and_then r k).
Proof.
  destruct r as [c [a|e]]; intros Hr Hk; [apply Hk|]. intros e' [= <-]. by apply Hr.
Qed.

Lemma apply_migration_sqlite c m : from_sqlite (apply_migration c m).
Proof.
  assert (forall on c, from_sqlite (pragma_foreign_keys on m c)) as Hp.
  { intros on c'. unfold pragma_foreign_keys. destruct (disable_foreign_keys m); [apply statement_sqlite|done]. }
  apply and_then_sqlite; [apply Hp|]. intros c1 _. apply and_then_sqlite; [|intros; apply Hp].
  unfold migration_tx. match goal with |- context [match ?r with _ => _ end] => assert (from_sqlite r) as Hr end.
  { repeat (apply and_then_sqlite; [apply statement_sqlite|intros ? []]). apply statement_sqlite. }
  destruct (and_then _ _) as [c2 [[]|e]]; [done|]. intros e' [= <-]. by apply Hr.
Qed.

Lemma migrate_loop_sqlite versions target ms : forall c, from_sqlite (migrate_loop versions target ms c).
Proof.
  induction ms as [|m ms IH]; intros c; simpl; [done|].
  destruct (is_applied versions m); [apply IH|]. destruct (beyond target m); [apply IH|].
  apply and_then_sqlite; [apply apply_migration_sqlite|]. intros; apply IH.
Qed.

(** Without a failing statement only the downgrade guard refuses a database. *)
Lemma migrate_refused c msg : (migrate c).2 = Err (StartupFailed msg) -> newer (db c).
Proof.
  intros H. unfold migrate, migrate_inner in H.
  destruct (statement c _) as [c1 r1] eqn:E1.
  pose proof (statement_sqlite c (fun c => Some (set_db c (ensure_table (db c)), tt))) as Hs. rewrite E1 in Hs.
  apply statement_cases in E1. destruct r1 as [[]|e]; [|destruct (Hs _ H) as [? ?]; done].
  simpl in E1. simplify_eq. cbn [and_then] in H.
  assert (forall c, from_sqlite (read_applied_versions c)) as Hread.
  { intros c'. apply and_then_sqlite; [apply statement_sqlite|]. intros c2 []; [apply statement_sqlite|done]. }
  match type of H with context [read_applied_versions ?x] => specialize (Hread x) end.
  destruct (read_applied_versions _) as [c2 r2] eqn:E2. rename Hread into Hr.
  apply read_applied_spec in E2 as [Hdb Hvs]. destruct r2 as [vs|e]; [|simpl in H; simplify_eq; by destruct (Hr _ eq_refl)].
  rewrite (Hvs vs eq_refl) in H. cbn [db set_db pop and_then] in H.
  change (versions_of (ensure_table (db c))) with (versions_of (db c)) in H.
  destruct (max_str (versions_of (db c))) as [m|] eqn:Hm.
  - destruct (str_gtb m latest_schema_version) eqn:Hg; [by apply (guard_newer _ _ Hm)|].
    by destruct (migrate_loop_sqlite _ _ _ _ _ H).
  - by destruct (migrate_loop_sqlite _ _ _ _ _ H).
Qed.

Lemma inspect_not_newer c status :
  (inspect_schema c).2 = Ok status -> newer_than_binary status = false -> ~ newer (db c).
Proof.
  destruct (inspect_schema c) as [c1 r] eqn:H. simpl. intros ->. unfold inspect_schema in H.
  apply and_then_cases in H. destruct (read_applied_versions c) as [c2 r2] eqn:E2.
  apply read_applied_spec in E2 as [Hdb Hvs]. destruct r2 as [vs|e]; [|by destruct H].
  specialize (Hvs vs eq_refl). subst vs. cbv zeta in H. apply and_then_cases in H.
  destruct (table_exists c2 "log_event") as [c3 [b|e]]; [|by destruct H]. simplify_eq.
  cbn [newer_than_binary]. intros Hn Hnew. apply last_sorted_newer in Hnew. congruence.
Qed.

(** The inspection predicts the migration without touching the database: it
    lists as pending exactly the versions a successful [migrate] stamps, and
    reports a newer database exactly when [migrate] refuses it whatever
    happens. *)
Theorem inspect_predicts_migrate c c1 status c' d' r :
  inspect_schema c = (c1, Ok status) -> db c' = db c -> migrate c' = (d', r) ->
  db c1 = db c /\
  (newer_than_binary status = true -> is_ok r = false) /\
  (r = Ok tt -> newer_than_binary status = false /\
     versions_of (db d') = versions_of (db c) ++ pending status).
Proof.
  unfold inspect_schema. intros H Hc' Hm. apply and_then_cases in H.
  destruct (read_applied_versions c) as [c2 r2] eqn:E2. apply read_applied_spec in E2 as [Hdb Hvs].
  destruct r2 as [vs|e]; [|by destruct H]. specialize (Hvs vs eq_refl). subst vs.
  cbv zeta in H. apply and_then_cases in H. unfold table_exists in H.
  destruct (statement c2 _) as [c3 r3] eqn:E3. apply statement_cases in E3.
  destruct r3 as [b|e]; [|by destruct H]. simplify_eq. cbn [newer_than_binary pending].
  pose proof (last_sorted_newer (versions_of (db c))) as Hlast.
  destruct (upgraded_step (db c) (db c) [] c' d' r) as (done' & _ & Hok); [|done|done|].
  { split; [apply prefix_nil|by left]. }
  assert (~ newer (db c) -> match last (merge_sort String.le (versions_of (db c))) with
    | Some v => str_gtb v latest_schema_version | None => false end = false) as Hnn.
  { intros Hn. apply not_true_iff_false. rewrite Hlast. exact Hn. }
  split_and!.
  - done.
  - intros Hnew. apply not_true_iff_false. intros Hr. destruct (Hok Hr) as [Hn _]. rewrite (Hnn Hn) in Hnew. done.
  - intros ->. destruct (Hok eq_refl) as (Hn & -> & Ha). split; [by apply Hnn|].
    rewrite (apply_all_versions _ _ _ Ha). f_equal. f_equal. unfold missing. apply list_filter_iff.
    intros m. simpl. unfold is_applied.
    assert (existsb (String.eqb (version m)) (merge_sort String.le (versions_of (db c))) =
            existsb (String.eqb (version m)) (versions_of (db c))) as ->; [|tauto].
    apply eq_true_iff_eq. rewrite !existsb_exists. setoid_rewrite <- list_elem_of_In.
    by setoid_rewrite merge_sort_Permutation.
Qed.

End runner.

(** ** A small upgrade

    The schema is the list of the scripts run so far.  A database at version
    [001] is upgraded; the disk fills up at the commit of the third migration. *)

Definition log_sql (script : string) (s : list string) : option (list string) := Some (s ++ [script]).

Definition demo_clock (version : string) : string := String.append "2026-01-01 00:00:" version.

Definition old_db : @Db (list string) :=
  {| stamps := Some [("000", ("a", "2025-01-01 00:00:00")); ("001", ("b", "2025-01-01 00:00:00"))]; schema := ["000_baseline.sql"; "001_log_fts_incremental.sql"] |}.

Definition connect (d : @Db (list string)) (failures : list (option SqliteError)) : @Conn (list string) :=
  {| db := d; tx := None; foreign_keys := true; script := failures |}.

(** Three statements before the loop, four per migration. *)
Definition disk_full : list (option SqliteError) := repeat None 10 ++ [Some (SqliteFailure (OtherCode 13))].

Definition interrupted : @Db (list string) := db (migrate log_sql (fun _ => true) demo_clock (connect old_db disk_full)).1.

Example interrupted_stamps : versions_of interrupted = ["000"; "001"; "002"].
Proof. vm_compute. reflexivity. Qed.

Lemma migrate_resumes_witness :
  let c' := (migrate log_sql (fun _ => true) demo_clock (connect interrupted [])).1 in
  versions_of (db c') = ["000"; "001"; "002"; "003"; "004"; "005"] /\
  apply_all log_sql demo_clock (missing None (versions_of old_db) MIGRATIONS) (ensure_table old_db) = Some (db c').
Proof.
  split; [vm_compute; reflexivity|].
  destruct (migrate_resumes log_sql (fun _ => true) demo_clock old_db interrupted (connect interrupted [])
    (migrate log_sql (fun _ => true) demo_clock (connect interrupted [])).1 (Ok tt)) as [_ H].
  - apply rtc_once. eexists (connect old_db disk_full), _, _. split; [reflexivity|].
    split; vm_compute; reflexivity.
  - reflexivity.
  - vm_compute. reflexivity.
  - destruct (H eq_refl) as (_ & Ha & _). exact Ha.
Defined.

Lemma inspect_predicts_migrate_witness :
  exists c1 status, inspect_schema (fun _ => true) (connect old_db []) = (c1, Ok status) /\
    pending status = ["002"; "003"; "004"; "005"] /\
    versions_of (db (migrate log_sql (fun _ => true) demo_clock (connect old_db [])).1) =
      versions_of old_db ++ pending status.
Proof.
  eexists _, _. split; [vm_compute; reflexivity|]. split; [reflexivity|].
  match goal with |- _ = _ ++ pending ?status =>
    destruct (inspect_predicts_migrate log_sql (fun _ => true) demo_clock (connect old_db []) (connect old_db []) status
      (connect old_db []) (migrate log_sql (fun _ => true) demo_clock (connect old_db [])).1 (Ok tt)) as (_ & _ & H)
  end.
  - vm_compute. reflexivity.
  - reflexivity.
  - vm_compute. reflexivity.
  - destruct (H eq_refl) as [_ Hv]. exact Hv.
Defined.

End Migration.
