(* ===== verification/Backup.v ===== *)
(** * Backup artifacts ([crates/otel-sqlite-storage/src/backup.rs])

    The encrypted container, the artifact names and their retention, and the
    gates of a restore.  AES-256-GCM and SHA-256 are parameters; SQLite's own
    checks of a file are an oracle on its bytes.  Files are read and written
    whole; [Streaming] has the same routines on reads and writes. *)

From S2P Require Import Prelude Time Model Text Render.

Module Backup.

Local Open Scope string_scope.
Local Open Scope list_scope.
Local Open Scope N_scope.

Abbreviation bytes := (list Model.byte) (only parsing).

Definition BACKUP_FILE_MAGIC : bytes := Text.bytes_of_string "OTSQBAK1".
Definition BACKUP_FILE_VERSION_V1 : Model.byte := ascii_of_N 1.
Definition BACKUP_FILE_VERSION : Model.byte := ascii_of_N 2.
Definition ENCRYPTION_KEY_LEN : N := 32.
Definition NONCE_LEN : nat := 12.
Definition STREAM_CHUNK_BYTES : N := 64 * 1024.
Definition GCM_TAG_LEN : N := 16.
Definition MAX_FRAME_CIPHERTEXT : N := STREAM_CHUNK_BYTES + GCM_TAG_LEN.

Inductive BackupError :=
| BackupSqlite
| BackupIo
| Integrity (path detail : string)
| ForeignKeyViolations (path : string) (violations : Z)
| DestinationExists (path : string)
| DestinationNotEmpty (path : string)
| InvalidKeyLen (len : N)
| CorruptBackup (detail : string)
| ContentMismatch (path detail : string).

(** ** The container *)

(** [u32::to_be_bytes] and [u32::from_be_bytes]. *)
Definition be_bytes (n : N) : bytes :=
  [ascii_of_N (N.shiftr n 24 mod 256); ascii_of_N (N.shiftr n 16 mod 256);
   ascii_of_N (N.shiftr n 8 mod 256); ascii_of_N (n mod 256)].

Definition from_be_bytes (l : bytes) : N :=
  foldl (fun acc b => acc * 256 + N_of_ascii b) 0 l.

(** [read_key]: the read stops after one byte too many; the length reported
    comes from the metadata. *)
Definition read_key (declared : N) (contents : bytes) : result BackupError bytes :=
  let read := take (N.to_nat (ENCRYPTION_KEY_LEN + 1)) contents in
  if N.of_nat (length read) =? ENCRYPTION_KEY_LEN then Ok read
  else Err (InvalidKeyLen (N.max declared (N.of_nat (length read)))).

Definition frame_nonce (base : bytes) (counter : N) : bytes :=
  take (NONCE_LEN - 4) base ++ be_bytes counter.

Section container.
(** [Aead::encrypt] and [Aead::decrypt] of AES-256-GCM: key, nonce, message. *)
Context (encrypt : bytes -> bytes -> bytes -> option bytes)
        (decrypt : bytes -> bytes -> bytes -> option bytes).

(** The frames of [encrypt_file]: [chunks] are the successive reads. *)
Fixpoint encrypt_frames (key base : bytes) (counter : N) (chunks : list bytes)
    : result BackupError bytes :=
  match chunks with
  | [] => Ok []
  | plaintext :: rest =>
      match encrypt key (frame_nonce base counter) plaintext with
      | None => Err (CorruptBackup "AES-GCM encryption failed")
      | Some ciphertext =>
          let len := N.of_nat (length ciphertext) in
          if 2 ^ 32 <=? len then Err (CorruptBackup "encrypted frame exceeds u32 range")
          else if counter =? 2 ^ 32 - 1 then Err (CorruptBackup "backup exceeds 256 TiB frame limit")
          else
            let? frames := encrypt_frames key base (counter + 1) rest in
            Ok (be_bytes len ++ ciphertext ++ frames)
      end
  end.

(** [encrypt_file] *)
Definition encrypt_file (key base : bytes) (chunks : list bytes) : result BackupError bytes :=
  let? frames := encrypt_frames key base 0 chunks in
  Ok (BACKUP_FILE_MAGIC ++ [BACKUP_FILE_VERSION] ++ base ++ frames).

(** [decrypt_v1_body] *)
Definition decrypt_v1_body (key rest : bytes) : result BackupError bytes :=
  if (length rest <? NONCE_LEN)%nat then Err (CorruptBackup "truncated v1 backup (missing nonce)")
  else match decrypt key (take NONCE_LEN rest) (drop NONCE_LEN rest) with
       | None => Err (CorruptBackup "authentication failed: wrong key or corrupted backup")
       | Some plaintext => Ok plaintext
       end.

(** The frame loop of [decrypt_v2_body]; every round consumes its length
    prefix, so [length input + 1] rounds suffice. *)
Fixpoint decrypt_frames (fuel : nat) (key base : bytes) (counter : N) (input : bytes)
    : option (result BackupError bytes) :=
  match fuel with
  | O => None
  | S fuel' =>
      let header := take 4 input in
      match header with
      | [] => Some (Ok [])
      | _ =>
          if negb (length header =? 4)%nat then Some (Err (CorruptBackup "truncated frame length prefix"))
          else
            let frame_len := from_be_bytes header in
            if (frame_len =? 0) || (MAX_FRAME_CIPHERTEXT <? frame_len) then
              Some (Err (CorruptBackup (String.append "corrupt frame length " (Render.show_u64 frame_len))))
            else
              let ciphertext := take (N.to_nat frame_len) (drop 4 input) in
              if negb (N.of_nat (length ciphertext) =? frame_len) then
                Some (Err (CorruptBackup "truncated frame payload"))
              else
                match decrypt key (frame_nonce base counter) ciphertext with
                | None => Some (Err (CorruptBackup "authentication failed: wrong key or corrupted backup"))
                | Some plaintext =>
                    if counter =? 2 ^ 32 - 1 then
                      Some (Err (CorruptBackup "backup exceeds 256 TiB frame limit"))
                    else
                      match decrypt_frames fuel' key base (counter + 1)
                              (drop (N.to_nat frame_len) (drop 4 input)) with
                      | Some (Ok more) => Some (Ok (plaintext ++ more))
                      | r => r
                      end
                end
      end
  end.

Definition decrypt_v2_body (key rest : bytes) : result BackupError bytes :=
  let base := take NONCE_LEN rest in
  if negb (length base =? NONCE_LEN)%nat then
    Err (CorruptBackup "truncated v2 backup header (missing base nonce)")
  else
    let frames := drop NONCE_LEN rest in
    default (Err BackupIo) (decrypt_frames (S (length frames)) key base 0 frames).

(** [decrypt_to] *)
Definition decrypt_to (key file : bytes) : result BackupError bytes :=
  if negb (bool_decide (take 8 file = BACKUP_FILE_MAGIC)) then
    Err (CorruptBackup "not an otel-sqlite encrypted backup (bad magic)")
  else
    match drop 8 file with
    | [] => Err (CorruptBackup "truncated backup header (missing version)")
    | version :: rest =>
        if Ascii.eqb version BACKUP_FILE_VERSION_V1 then decrypt_v1_body key rest
        else if Ascii.eqb version BACKUP_FILE_VERSION then decrypt_v2_body key rest
        else Err (CorruptBackup (String.append "unsupported backup file version "
                                   (Render.show_u64 (N_of_ascii version))))
    end.

(** [looks_encrypted] *)
Definition looks_encrypted (file : bytes) : bool := bool_decide (take 8 file = BACKUP_FILE_MAGIC).

End container.

(** ** Lemmas: the length prefix and the nonces *)

Lemma ok_inj {E A} (x y : A) : @Ok E A x = Ok y -> x = y.
Proof. by intros [= ->]. Qed.

Lemma N_of_ascii_lt a : N_of_ascii a < 256.
Proof. destruct a as [[] [] [] [] [] [] [] []]; vm_compute; reflexivity. Qed.

Lemma length_be_bytes n : length (be_bytes n) = 4%nat.
Proof. done. Qed.

Lemma from_be_bytes_be n : n < 2 ^ 32 -> from_be_bytes (be_bytes n) = n.
Proof.
  intros Hn. unfold from_be_bytes, be_bytes. cbn [foldl].
  rewrite !N_ascii_embedding by (by apply N.mod_lt). rewrite !N.shiftr_div_pow2.
  replace (2 ^ 24) with 16777216 by reflexivity. replace (2 ^ 16) with 65536 by reflexivity.
  replace (2 ^ 8) with 256 by reflexivity. replace (2 ^ 32) with 4294967296 in Hn by reflexivity.
  zify. Z.to_euclidean_division_equations. lia.
Qed.

Lemma be_bytes_from_be l : length l = 4%nat -> be_bytes (from_be_bytes l) = l.
Proof.
  destruct l as [|a [|b [|c [|d [|]]]]]; try done. intros _. unfold from_be_bytes, be_bytes. cbn [foldl].
  pose proof (N_of_ascii_lt a). pose proof (N_of_ascii_lt b). pose proof (N_of_ascii_lt c). pose proof (N_of_ascii_lt d).
  set (x := (((0 * 256 + N_of_ascii a) * 256 + N_of_ascii b) * 256 + N_of_ascii c) * 256 + N_of_ascii d).
  rewrite !N.shiftr_div_pow2.
  assert (x / 2 ^ 8 = (N_of_ascii a * 256 + N_of_ascii b) * 256 + N_of_ascii c) as E8.
  { symmetry. apply (N.div_unique _ _ _ (N_of_ascii d)); unfold x; lia. }
  assert (x / 2 ^ 16 = N_of_ascii a * 256 + N_of_ascii b) as E16.
  { symmetry. apply (N.div_unique _ _ _ (N_of_ascii c * 256 + N_of_ascii d)); unfold x; lia. }
  assert (x / 2 ^ 24 = N_of_ascii a) as E24.
  { symmetry. apply (N.div_unique _ _ _ ((N_of_ascii b * 256 + N_of_ascii c) * 256 + N_of_ascii d)); unfold x; lia. }
  rewrite E8, E16, E24.
  rewrite (N.mod_small (N_of_ascii a)) by lia.
  assert (forall q r, r < 256 -> (q * 256 + r) mod 256 = r) as Hmod.
  { intros q r Hr. rewrite N.add_comm, N.Div0.mod_add. by apply N.mod_small. }
  unfold x. rewrite !Hmod by done. by rewrite !ascii_N_embedding.
Qed.

(** Different frames are sealed under different nonces. *)
Lemma frame_nonce_inj base i j :
  i < 2 ^ 32 -> j < 2 ^ 32 -> frame_nonce base i = frame_nonce base j -> i = j.
Proof.
  intros Hi Hj H. unfold frame_nonce in H. apply app_inv_head in H.
  rewrite <- (from_be_bytes_be i), <- (from_be_bytes_be j) by done. by rewrite H.
Qed.

(** ** Properties of the container *)

Section properties.
Context (encrypt decrypt : bytes -> bytes -> bytes -> option bytes).
(** The contract of AES-GCM: decryption inverts encryption, and the ciphertext
    is the plaintext's length plus the tag. *)
Context (Hinv : forall key nonce p c, encrypt key nonce p = Some c -> decrypt key nonce c = Some p).
Context (Hlen : forall key nonce p c, encrypt key nonce p = Some c ->
                  N.of_nat (length c) = N.of_nat (length p) + GCM_TAG_LEN).

(** What [read] into the 64 KiB buffer returns before the end of the file. *)
Definition chunk_ok (p : bytes) : Prop := p <> [] /\ N.of_nat (length p) <= STREAM_CHUNK_BYTES.

Lemma decrypt_one fuel key base counter ciphertext plaintext rest :
  ciphertext <> [] -> N.of_nat (length ciphertext) <= MAX_FRAME_CIPHERTEXT ->
  decrypt key (frame_nonce base counter) ciphertext = Some plaintext -> counter <> 2 ^ 32 - 1 ->
  decrypt_frames decrypt (S fuel) key base counter
      (be_bytes (N.of_nat (length ciphertext)) ++ ciphertext ++ rest) =
  match decrypt_frames decrypt fuel key base (counter + 1) rest with
  | Some (Ok more) => Some (Ok (plaintext ++ more))
  | r => r
  end.
Proof.
  intros Hne Hmax Hdec Hcounter. cbn [decrypt_frames]. set (len := N.of_nat (length ciphertext)) in *.
  assert (take 4 (be_bytes len ++ ciphertext ++ rest) = be_bytes len) as -> by (by rewrite take_app_length').
  assert (drop 4 (be_bytes len ++ ciphertext ++ rest) = ciphertext ++ rest) as -> by (by rewrite drop_app_length').
  rewrite length_be_bytes, from_be_bytes_be by (unfold MAX_FRAME_CIPHERTEXT, STREAM_CHUNK_BYTES, GCM_TAG_LEN in Hmax; lia).
  assert (0 < len) by (destruct ciphertext; [done|subst len; simpl; lia]).
  cbn [be_bytes Nat.eqb negb]. rewrite (proj2 (N.eqb_neq len 0)) by lia.
  rewrite (proj2 (N.ltb_ge MAX_FRAME_CIPHERTEXT len)) by done. cbn [orb].
  assert (N.to_nat len = length ciphertext) as -> by (subst len; lia).
  rewrite take_app_length, drop_app_length, N.eqb_refl. cbn [negb]. rewrite Hdec.
  by rewrite (proj2 (N.eqb_neq counter (2 ^ 32 - 1))).
Qed.

#[local] Opaque be_bytes.

Lemma frames_roundtrip key base chunks : forall counter frames fuel,
  Forall chunk_ok chunks -> encrypt_frames encrypt key base counter chunks = Ok frames ->
  (length frames < fuel)%nat ->
  decrypt_frames decrypt fuel key base counter frames = Some (Ok (concat chunks)).
Proof.
  induction chunks as [|p chunks IH]; intros counter frames fuel Hok Henc Hfuel; cbn [encrypt_frames] in Henc.
  { simplify_eq. destruct fuel; [simpl in Hfuel; lia|done]. }
  apply Forall_cons in Hok as [[Hne Hsz] Hok].
  destruct (encrypt key (frame_nonce base counter) p) as [c|] eqn:Hc; [|done].
  destruct (2 ^ 32 <=? N.of_nat (length c)); [done|].
  destruct (N.eqb_spec counter (2 ^ 32 - 1)); [done|].
  destruct (encrypt_frames encrypt key base (counter + 1) chunks) as [more|] eqn:Hm; [|done].
  injection Henc as <-. pose proof (Hlen _ _ _ _ Hc) as Hl. apply Hinv in Hc as Hd.
  destruct fuel as [|fuel]; [lia|].
  rewrite !length_app, length_be_bytes in Hfuel.
  rewrite (decrypt_one _ _ _ _ _ p); [|..|done|done].
  - rewrite (IH _ _ _ Hok Hm) by lia. done.
  - intros ->. simpl in Hl. unfold GCM_TAG_LEN in Hl. lia.
  - unfold MAX_FRAME_CIPHERTEXT. lia.
Qed.

Lemma decrypt_to_v2 key base frames :
  length base = NONCE_LEN ->
  decrypt_to decrypt key (BACKUP_FILE_MAGIC ++ [BACKUP_FILE_VERSION] ++ base ++ frames) =
  default (Err BackupIo) (decrypt_frames decrypt (S (length frames)) key base 0 frames).
Proof.
  intros Hb. unfold decrypt_to. rewrite take_app_length', drop_app_length' by done.
  rewrite bool_decide_true by done. cbn [negb app]. unfold decrypt_v2_body.
  rewrite take_app_length', drop_app_length' by done. by rewrite Hb.
Qed.

Lemma container_roundtrip key base chunks file :
  length base = NONCE_LEN -> Forall chunk_ok chunks ->
  encrypt_file encrypt key base chunks = Ok file ->
  decrypt_to decrypt key file = Ok (concat chunks).
Proof.
  intros Hb Hok Henc. unfold encrypt_file in Henc.
  destruct (encrypt_frames encrypt key base 0 chunks) as [frames|] eqn:Hf; [|done].
  apply ok_inj in Henc as <-.
  rewrite decrypt_to_v2 by done. rewrite (frames_roundtrip _ _ _ _ _ _ Hok Hf) by lia. done.
Qed.

(** A backup decrypts to what was encrypted: however the reads cut the
    plaintext, the container [encrypt_file] writes decrypts under the same key
    to exactly the plaintext. *)
Theorem backup_roundtrip key base chunks file :
  length base = NONCE_LEN -> Forall chunk_ok chunks ->
  encrypt_file encrypt key base chunks = Ok file ->
  decrypt_to decrypt key file = Ok (concat chunks).
Proof. apply container_roundtrip. Qed.

(** A sealed frame with the plaintext it opens to. *)
Definition frame_bytes (f : bytes * bytes) : bytes := be_bytes (N.of_nat (length f.1)) ++ f.1.

Lemma decrypt_frames_total key base fuel : forall counter input,
  (length input < fuel)%nat -> is_Some (decrypt_frames decrypt fuel key base counter input).
Proof.
  induction fuel as [|fuel IH]; intros counter input Hf; [lia|]. cbn [decrypt_frames].
  repeat case_match; try (by eexists). exfalso.
  match goal with H : decrypt_frames _ fuel _ _ _ ?i = None |- _ =>
    destruct (IH (counter + 1) i) as [? Hs]; [|by rewrite Hs in H] end.
  rewrite !length_drop. destruct input; [done|]. simpl in *. lia.
Qed.

(** What [decrypt_frames] accepts: each frame opened under the nonce of its
    index, and the frames are too few for the counter to wrap. *)
Lemma decrypt_frames_sound key base fuel : forall counter input plain,
  counter < 2 ^ 32 ->
  decrypt_frames decrypt fuel key base counter input = Some (Ok plain) ->
  exists fs, input = concat (frame_bytes <$> fs) /\ plain = concat fs.*2 /\
    counter + N.of_nat (length fs) < 2 ^ 32 /\
    forall i f, fs !! i = Some f ->
      decrypt key (frame_nonce base (counter + N.of_nat i)) f.1 = Some f.2.
Proof.
  induction fuel as [|fuel IH]; intros counter input plain Hc H; [done|]. cbn [decrypt_frames] in H.
  destruct (take 4 input) as [|x header] eqn:Hh.
  { destruct input; [|done]. simplify_eq. exists []. split_and!; [done|done|simpl; lia|done]. }
  destruct (Nat.eqb_spec (length (x :: header)) 4) as [Hl|]; [|done]. cbn [negb] in H.
  set (len := from_be_bytes (x :: header)) in *.
  destruct ((len =? 0) || (MAX_FRAME_CIPHERTEXT <? len)); [done|].
  destruct (N.eqb_spec (N.of_nat (length (take (N.to_nat len) (drop 4 input)))) len) as [Hlen'|]; [|done].
  cbn [negb] in H.
  destruct (decrypt key (frame_nonce base counter) (take (N.to_nat len) (drop 4 input))) as [p|] eqn:Hd; [|done].
  destruct (N.eqb_spec counter (2 ^ 32 - 1)) as [|Hlast]; [done|].
  destruct (decrypt_frames decrypt fuel key base (counter + 1) (drop (N.to_nat len) (drop 4 input)))
    as [[more|]|] eqn:Hm; try done. injection H as <-.
  destruct (IH (counter + 1) _ _ ltac:(lia) Hm) as (fs & Hin & -> & Hcount & Hfs).
  exists ((take (N.to_nat len) (drop 4 input), p) :: fs). split_and!; [|done|cbn [length]; lia|].
  - rewrite fmap_cons. cbn [concat]. rewrite <- Hin. unfold frame_bytes. cbn [fst].
    rewrite Hlen'. unfold len. rewrite be_bytes_from_be by done. rewrite <- Hh, <- app_assoc.
    by rewrite !take_drop.
  - intros [|i] f Hf; simplify_eq/=; [by rewrite N.add_0_r|].
    rewrite <- (Hfs _ _ Hf). do 2 f_equal. lia.
Qed.

(** The plaintext of a container all of whose frames opened under the key: a
    version-1 file is one frame; the frames of a version-2 file opened under the
    nonces of their positions, which all differ, and the plaintext is theirs in
    order. *)
Definition authentic (key file plain : bytes) : Prop :=
  (exists nonce ciphertext, file = BACKUP_FILE_MAGIC ++ [BACKUP_FILE_VERSION_V1] ++ nonce ++ ciphertext /\
     length nonce = NONCE_LEN /\ decrypt key nonce ciphertext = Some plain) \/
  (exists base fs, file = BACKUP_FILE_MAGIC ++ [BACKUP_FILE_VERSION] ++ base ++ concat (frame_bytes <$> fs) /\
     length base = NONCE_LEN /\ plain = concat fs.*2 /\
     (forall i j, (i < length fs)%nat -> (j < length fs)%nat -> i <> j ->
        frame_nonce base (N.of_nat i) <> frame_nonce base (N.of_nat j)) /\
     forall i f, fs !! i = Some f -> decrypt key (frame_nonce base (N.of_nat i)) f.1 = Some f.2).

Lemma decrypt_to_sound key file plain : decrypt_to decrypt key file = Ok plain -> authentic key file plain.
Proof.
  unfold decrypt_to. case_bool_decide as Hm; [|done]. cbn [negb].
  pose proof (take_drop 8 file) as Hfile. rewrite Hm in Hfile. clear Hm.
  destruct (drop 8 file) as [|version rest]; [done|]. subst file.
  destruct (Ascii.eqb_spec version BACKUP_FILE_VERSION_V1) as [->|_].
  - unfold decrypt_v1_body. destruct (Nat.ltb_spec (length rest) NONCE_LEN); [done|].
    destruct (decrypt key (take NONCE_LEN rest) (drop NONCE_LEN rest)) eqn:Hd; [|done]. intros [= <-]. left.
    exists (take NONCE_LEN rest), (drop NONCE_LEN rest). split_and!; [by rewrite take_drop| |done].
    rewrite length_take. lia.
  - destruct (Ascii.eqb_spec version BACKUP_FILE_VERSION) as [->|_]; [|done].
    unfold decrypt_v2_body. destruct (Nat.eqb_spec (length (take NONCE_LEN rest)) NONCE_LEN) as [Hb|]; [|done].
    cbn [negb]. destruct (decrypt_frames decrypt _ key (take NONCE_LEN rest) 0 (drop NONCE_LEN rest)) as [r|] eqn:Hr; [|done].
    simpl. intros ->. destruct (decrypt_frames_sound _ _ _ 0 _ _ ltac:(lia) Hr) as (fs & Hin & -> & Hcount & Hfs).
    right. exists (take NONCE_LEN rest), fs. rewrite <- Hin, take_drop. split_and!; [done..| |done].
    intros i j Hi Hj Hne Heq. apply frame_nonce_inj in Heq; lia.
Qed.

(** A container cut at a frame boundary is accepted: dropping the last frames
    of a backup yields a file that decrypts, without an error, to a proper
    prefix of the plaintext. *)
Theorem truncation_at_frame_accepted key base kept cut file :
  length base = NONCE_LEN -> Forall chunk_ok (kept ++ cut) ->
  encrypt_file encrypt key base (kept ++ cut) = Ok file ->
  exists truncated tail_, file = truncated ++ tail_ /\ (cut <> [] -> tail_ <> []) /\
    decrypt_to decrypt key truncated = Ok (concat kept).
Proof.
  intros Hb Hok Henc. unfold encrypt_file in Henc. apply Forall_app in Hok as [Hok _].
  destruct (encrypt_frames encrypt key base 0 (kept ++ cut)) as [frames|] eqn:Hf; [|done].
  apply ok_inj in Henc as <-.
  assert (forall counter frames, encrypt_frames encrypt key base counter (kept ++ cut) = Ok frames ->
    exists f1 f2, frames = f1 ++ f2 /\ encrypt_frames encrypt key base counter kept = Ok f1 /\
      (cut <> [] -> f2 <> [])) as Hsplit.
  { clear. induction kept as [|p kept IH]; intros counter frames H; cbn [encrypt_frames app] in H.
    - exists [], frames. split_and!; [done..|]. intros Hne ->. destruct cut as [|c cut]; [done|].
      cbn [encrypt_frames] in H. repeat case_match; done.
    - cbn [encrypt_frames]. destruct (encrypt key (frame_nonce base counter) p) as [c|]; [|done].
      destruct (2 ^ 32 <=? N.of_nat (length c)); [done|]. destruct (counter =? 2 ^ 32 - 1); [done|].
      destruct (encrypt_frames encrypt key base (counter + 1) (kept ++ cut)) as [more|] eqn:Hm; [|done].
      apply ok_inj in H as <-. destruct (IH _ _ Hm) as (f1 & f2 & -> & Hf1 & Hne).
      rewrite Hf1. eexists _, f2. split_and!; [|done|done]. by rewrite <- !app_assoc. }
  destruct (Hsplit _ _ Hf) as (f1 & f2 & -> & Hf1 & Hne).
  exists (BACKUP_FILE_MAGIC ++ [BACKUP_FILE_VERSION] ++ base ++ f1), f2. split_and!; [|done|].
  - by rewrite <- !app_assoc.
  - rewrite decrypt_to_v2 by done. by rewrite (frames_roundtrip _ _ _ _ _ _ Hok Hf1) by lia.
Qed.

End properties.

(** ** A small container: the cipher adds sixteen zero bytes. *)

Definition demo_encrypt (key nonce p : list Model.byte) : option (list Model.byte) := Some (repeat zero 16 ++ p).
Definition demo_decrypt (key nonce c : list Model.byte) : option (list Model.byte) :=
  if bool_decide (take 16 c = repeat zero 16) then Some (drop 16 c) else None.

Lemma demo_inverse key nonce p c : demo_encrypt key nonce p = Some c -> demo_decrypt key nonce c = Some p.
Proof.
  unfold demo_encrypt, demo_decrypt. intros H. assert (c = repeat zero 16 ++ p) as -> by congruence.
  rewrite take_app_length', drop_app_length' by reflexivity. by rewrite bool_decide_true.
Qed.

Lemma demo_length key nonce p c :
  demo_encrypt key nonce p = Some c -> N.of_nat (length c) = (N.of_nat (length p) + GCM_TAG_LEN)%N.
Proof.
  unfold demo_encrypt, GCM_TAG_LEN. intros H. assert (c = repeat zero 16 ++ p) as -> by congruence.
  rewrite length_app, repeat_length. lia.
Qed.

Definition demo_key : list Model.byte := repeat one 32.
Definition demo_nonce : list Model.byte := repeat zero 12.
Definition demo_chunks : list (list Model.byte) := Text.bytes_of_string <$> ["ok "; "data"].

Definition demo_container : list Model.byte :=
  match encrypt_file demo_encrypt demo_key demo_nonce demo_chunks with Ok f => f | Err _ => [] end.

Lemma demo_chunks_ok : Forall chunk_ok demo_chunks.
Proof.
  repeat (apply Forall_cons_2; [split; [discriminate|vm_compute; discriminate]|]). apply Forall_nil_2.
Qed.

Lemma backup_roundtrip_witness :
  length demo_container = 68%nat /\
  decrypt_to demo_decrypt demo_key demo_container = Ok (Text.bytes_of_string "ok data").
Proof.
  split; [vm_compute; reflexivity|].
  apply (backup_roundtrip demo_encrypt demo_decrypt demo_inverse demo_length demo_key demo_nonce demo_chunks
    demo_container); [reflexivity|exact demo_chunks_ok|vm_compute; reflexivity].
Defined.

Lemma truncation_at_frame_accepted_witness :
  exists truncated tail_, demo_container = truncated ++ tail_ /\ tail_ <> [] /\
    decrypt_to demo_decrypt demo_key truncated = Ok (Text.bytes_of_string "ok ").
Proof.
  destruct (truncation_at_frame_accepted demo_encrypt demo_decrypt demo_inverse demo_length demo_key demo_nonce
    [Text.bytes_of_string "ok "] [Text.bytes_of_string "data"] demo_container)
    as (t & tail_ & Heq & Hne & Hdec); [reflexivity|exact demo_chunks_ok|vm_compute; reflexivity|].
  exists t, tail_. split; [exact Heq|]. split; [apply Hne; discriminate|exact Hdec].
Defined.

End Backup.
