(* ===== verification/Streaming.v ===== *)
(** * Backup artifacts as streams ([crates/otel-sqlite-storage/src/backup.rs])

    [Backup] reads and writes whole files; here the same routines go through
    [File::read], which may return fewer bytes than asked for or fail, and
    through a writer that may fail, with the partial output they leave or remove.
    A file is what is left to read and the answers its next reads get. *)

From S2P Require Import Prelude Time Model Text Render Backup.

Module Streaming.
Import Backup.

Local Open Scope string_scope.
Local Open Scope list_scope.
Local Open Scope N_scope.

(** ** Files *)

Inductive ReadAnswer := ReadFails | AtMost (n : nat).

Record File := { rest : bytes; answers : list ReadAnswer }.

(** [File::read] into a buffer of [n] bytes: at least one byte before the end. *)
Definition read (n : nat) (f : File) : result BackupError bytes * File :=
  match answers f with
  | [] => (Ok (take n (rest f)), {| rest := drop n (rest f); answers := [] |})
  | ReadFails :: more => (Err BackupIo, {| rest := rest f; answers := more |})
  | AtMost k :: more =>
      let m := Nat.min n (Nat.max 1 k) in
      (Ok (take m (rest f)), {| rest := drop m (rest f); answers := more |})
  end.

(** The loop of [read_exact_or_eof]: every round but the last reads a byte, so
    [n] rounds suffice. *)
Fixpoint fill_buf (fuel n : nat) (f : File) : result BackupError bytes * File :=
  match fuel with
  | O => (Ok [], f)
  | S fuel' =>
      if (n =? 0)%nat then (Ok [], f)
      else
        match read n f with
        | (Err e, f) => (Err e, f)
        | (Ok [], f) => (Ok [], f)
        | (Ok got, f) =>
            match fill_buf fuel' (n - length got) f with
            | (Ok more, f) => (Ok (got ++ more), f)
            | (Err e, f) => (Err e, f)
            end
        end
  end.

Definition read_exact_or_eof (n : nat) (f : File) : result BackupError bytes * File := fill_buf n n f.

(** [Read::read_to_end]: reads until one returns nothing. *)
Fixpoint read_to_end_loop (fuel : nat) (f : File) : result BackupError bytes * File :=
  match fuel with
  | O => (Ok [], f)
  | S fuel' =>
      match read (S (length (rest f))) f with
      | (Err e, f) => (Err e, f)
      | (Ok [], f) => (Ok [], f)
      | (Ok got, f) =>
          match read_to_end_loop fuel' f with
          | (Ok more, f) => (Ok (got ++ more), f)
          | (Err e, f) => (Err e, f)
          end
      end
  end.

Definition read_to_end (f : File) : result BackupError bytes * File := read_to_end_loop (S (length (rest f))) f.

(** [looks_encrypted]: one read of eight bytes. *)
Definition looks_encrypted (f : File) : result BackupError bool :=
  match (read 8 f).1 with
  | Ok magic => Ok (bool_decide (magic = BACKUP_FILE_MAGIC))
  | Err e => Err e
  end.

(** ** Hashing *)

Section hashing.
(** [Sha256]: the state of the hasher and its operations. *)
Context {Hasher : Type} (new : Hasher) (update : Hasher -> bytes -> Hasher) (finalize : Hasher -> bytes).

Fixpoint hash_loop (fuel : nat) (h : Hasher) (f : File) : result BackupError Hasher :=
  match fuel with
  | O => Ok h
  | S fuel' =>
      match read (N.to_nat STREAM_CHUNK_BYTES) f with
      | (Err e, _) => Err e
      | (Ok [], _) => Ok h
      | (Ok got, f) => hash_loop fuel' (update h got) f
      end
  end.

Definition sha256_hex (f : File) : result BackupError string :=
  let? h := hash_loop (S (length (rest f))) new f in Ok (Model.hex_encode (finalize h)).
End hashing.

(** ** Writing *)

(** A write succeeds or fails with some of its bytes written. *)
Inductive WriteAnswer := Written | FailsAfter (n : nat).

(** An output file: what was written, and the answers the next writes get. *)
Record Out := { written : bytes; writes : list WriteAnswer }.

Definition write_all (b : bytes) (o : Out) : result BackupError unit * Out :=
  match writes o with
  | FailsAfter n :: more => (Err BackupIo, {| written := written o ++ take n b; writes := more |})
  | Written :: more => (Ok tt, {| written := written o ++ b; writes := more |})
  | [] => (Ok tt, {| written := written o ++ b; writes := [] |})
  end.

(** What else can go wrong with the output. *)
Record OutEnv := {
  create_ok : bool;
  out_writes : list WriteAnswer;
  flush_ok : bool;
  sync_ok : bool;
  chmod_ok : bool;
  remove_ok : bool;
}.

Definition check_io (ok : bool) : result BackupError unit := if ok then Ok tt else Err BackupIo.

(** What is at the output path when the body of a routine is done: an error
    removes the file, success syncs and restricts it. *)
Definition finish_output (env : OutEnv) (o : Out) (r : result BackupError unit)
    : option bytes * result BackupError unit :=
  match r with
  | Ok _ =>
      (Some (written o),
       let? _ := check_io (sync_ok env) in
       check_io (chmod_ok env))
  | Err e => (if remove_ok env then None else Some (written o), Err e)
  end.

Definition opened (env : OutEnv) : Out := {| written := []; writes := out_writes env |}.

Section cipher.
Context (encrypt decrypt : bytes -> bytes -> bytes -> option bytes).

(** ** Decryption *)

Definition decrypt_v1_body (env : OutEnv) (key : bytes) (f : File) (before : option bytes)
    : option bytes * result BackupError unit :=
  match read_to_end f with
  | (Err e, _) => (before, Err e)
  | (Ok body, _) =>
      match Backup.decrypt_v1_body decrypt key body with
      | Err e => (before, Err e)
      | Ok plaintext =>
          if create_ok env then
            let (r, o) := write_all plaintext (opened env) in
            match (let? _ := r in check_io (sync_ok env)) with
            | Ok _ => (Some (written o), check_io (chmod_ok env))
            | Err e => (if remove_ok env then None else Some (written o), Err e)
            end
          else (if remove_ok env then None else before, Err BackupIo)
      end
  end.

(** The loop of [decrypt_v2_body]; every round consumes its length prefix. *)
Fixpoint open_frames (fuel : nat) (key base : bytes) (counter : N) (f : File) (o : Out)
    : option (result BackupError unit * Out) :=
  match fuel with
  | O => None
  | S fuel' =>
      match read_exact_or_eof 4 f with
      | (Err e, _) => Some (Err e, o)
      | (Ok [], _) => Some (Ok tt, o)
      | (Ok header, f) =>
          if negb (length header =? 4)%nat then Some (Err (CorruptBackup "truncated frame length prefix"), o)
          else
            let frame_len := from_be_bytes header in
            if (frame_len =? 0) || (MAX_FRAME_CIPHERTEXT <? frame_len) then
              Some (Err (CorruptBackup (String.append "corrupt frame length " (Render.show_u64 frame_len))), o)
            else
              match read_exact_or_eof (N.to_nat frame_len) f with
              | (Err e, _) => Some (Err e, o)
              | (Ok ciphertext, f) =>
                  if negb (N.of_nat (length ciphertext) =? frame_len) then
                    Some (Err (CorruptBackup "truncated frame payload"), o)
                  else
                    match decrypt key (frame_nonce base counter) ciphertext with
                    | None => Some (Err (CorruptBackup "authentication failed: wrong key or corrupted backup"), o)
                    | Some plaintext =>
                        match write_all plaintext o with
                        | (Err e, o) => Some (Err e, o)
                        | (Ok _, o) =>
                            if counter =? 2 ^ 32 - 1 then
                              Some (Err (CorruptBackup "backup exceeds 256 TiB frame limit"), o)
                            else open_frames fuel' key base (counter + 1) f o
                        end
                    end
              end
      end
  end.

Definition decrypt_v2_body (env : OutEnv) (key : bytes) (f : File) (before : option bytes)
    : option (option bytes * result BackupError unit) :=
  match read_exact_or_eof NONCE_LEN f with
  | (Err e, _) => Some (before, Err e)
  | (Ok base, f) =>
      if negb (length base =? NONCE_LEN)%nat then
        Some (before, Err (CorruptBackup "truncated v2 backup header (missing base nonce)"))
      else if negb (create_ok env) then Some (before, Err BackupIo)
      else
        '(r, o) ← open_frames (S (length (rest f))) key base 0 f (opened env);
        Some (finish_output env o (let? _ := r in check_io (flush_ok env)))
  end.

(** [decrypt_to]: the file at the output path, and the result. *)
Definition decrypt_to (env : OutEnv) (key : bytes) (f : File) (before : option bytes)
    : option (option bytes * result BackupError unit) :=
  match read_exact_or_eof 8 f with
  | (Err e, _) => Some (before, Err e)
  | (Ok magic, f) =>
      if negb (bool_decide (magic = BACKUP_FILE_MAGIC)) then
        Some (before, Err (CorruptBackup "not an otel-sqlite encrypted backup (bad magic)"))
      else
        match read_exact_or_eof 1 f with
        | (Err e, _) => Some (before, Err e)
        | (Ok [], _) => Some (before, Err (CorruptBackup "truncated backup header (missing version)"))
        | (Ok (version :: _), f) =>
            if Ascii.eqb version BACKUP_FILE_VERSION_V1 then Some (decrypt_v1_body env key f before)
            else if Ascii.eqb version BACKUP_FILE_VERSION then decrypt_v2_body env key f before
            else Some (before, Err (CorruptBackup (String.append "unsupported backup file version "
                                                     (Render.show_u64 (N_of_ascii version)))))
        end
  end.

(** ** Encryption *)

(** The loop of [encrypt_file]: a frame per read. *)
Fixpoint seal_frames (fuel : nat) (key base : bytes) (counter : N) (f : File) (o : Out)
    : option (result BackupError unit * Out) :=
  match fuel with
  | O => None
  | S fuel' =>
      match read (N.to_nat STREAM_CHUNK_BYTES) f with
      | (Err e, _) => Some (Err e, o)
      | (Ok [], _) => Some (Ok tt, o)
      | (Ok plaintext, f) =>
          match encrypt key (frame_nonce base counter) plaintext with
          | None => Some (Err (CorruptBackup "AES-GCM encryption failed"), o)
          | Some ciphertext =>
              let len := N.of_nat (length ciphertext) in
              if 2 ^ 32 <=? len then Some (Err (CorruptBackup "encrypted frame exceeds u32 range"), o)
              else
                match write_all (be_bytes len) o with
                | (Err e, o) => Some (Err e, o)
                | (Ok _, o) =>
                    match write_all ciphertext o with
                    | (Err e, o) => Some (Err e, o)
                    | (Ok _, o) =>
                        if counter =? 2 ^ 32 - 1 then
                          Some (Err (CorruptBackup "backup exceeds 256 TiB frame limit"), o)
                        else seal_frames fuel' key base (counter + 1) f o
                    end
                end
          end
      end
  end.

Definition write_each (parts : list bytes) (o : Out) : result BackupError unit * Out :=
  foldl (fun '(r, o) b => match r with Ok _ => write_all b o | Err e => (Err e, o) end) (Ok tt, o) parts.

(** [encrypt_file] after the key and the nonce: the file at the output path, and the result. *)
Definition encrypt_file (env : OutEnv) (key base : bytes) (f : File) (out : string) (before : option bytes)
    : option (option bytes * result BackupError unit) :=
  match before with
  | Some _ => Some (before, Err (DestinationExists out))
  | None =>
      if negb (create_ok env) then Some (None, Err BackupIo)
      else
        match write_each [BACKUP_FILE_MAGIC; [BACKUP_FILE_VERSION]; base] (opened env) with
        | (Err e, o) => Some (finish_output env o (Err e))
        | (Ok _, o) =>
            '(r, o) ← seal_frames (S (length (rest f))) key base 0 f o;
            Some (finish_output env o (let? _ := r in check_io (flush_ok env)))
        end
  end.

End cipher.

(** ** Reading: the pieces do not matter *)

(** No read of this file fails. *)
Definition steady (f : File) : Prop := ReadFails ∉ answers f.

Lemma read_spec n f :
  let '(r, f') := read n f in
  match r with
  | Ok got => got = take (length got) (rest f) /\ rest f' = drop (length got) (rest f) /\
      (length got <= n)%nat /\ (got = [] -> n = 0%nat \/ rest f = []) /\ (steady f -> steady f')
  | Err e => e = BackupIo /\ ~ steady f
  end.
Proof.
  assert (forall m f', (m <= n)%nat -> (n <> 0 -> m <> 0)%nat -> rest f' = drop m (rest f) -> (steady f -> steady f') ->
    let got := take m (rest f) in
    got = take (length got) (rest f) /\ rest f' = drop (length got) (rest f) /\
      (length got <= n)%nat /\ (got = [] -> n = 0%nat \/ rest f = []) /\ (steady f -> steady f')) as Hgot.
  { intros m f' Hm Hz -> Hs got. assert (length got = Nat.min m (length (rest f))) as Hl by apply length_take.
    split_and!; [| |lia| |done].
    - rewrite Hl. unfold got. destruct (Nat.min_spec m (length (rest f))) as [[_ ->]|[? ->]]; [done|].
      by rewrite !take_ge by lia.
    - rewrite Hl. destruct (Nat.min_spec m (length (rest f))) as [[_ ->]|[? ->]]; [done|]. by rewrite !drop_ge by lia.
    - intros E. apply (f_equal length) in E. rewrite Hl in E. simpl in E.
      destruct (decide (n = 0%nat)); [by left|right]. apply length_zero_iff_nil. specialize (Hz n0). lia. }
  unfold read, steady in *. destruct (answers f) as [|[|k] more] eqn:Ea; simpl.
  - apply (Hgot n {| rest := drop n (rest f); answers := [] |}); [lia|done|done|simpl; set_solver].
  - split; [done|]. set_solver.
  - apply (Hgot (Nat.min n (Nat.max 1 k)) {| rest := drop _ (rest f); answers := more |}); simpl; [lia|lia|done|set_solver].
Qed.

Lemma take_split {A} k n (l : list A) : (k <= n)%nat -> take k l ++ take (n - k) (drop k l) = take n l.
Proof. intros H. rewrite <- (take_drop k (take n l)), take_take, Nat.min_l, take_drop_commute by done. do 2 f_equal. f_equal. lia. Qed.

Lemma read_shrinks got f f' :
  got = take (length got) (rest f) -> got <> [] -> rest f' = drop (length got) (rest f) ->
  (length (rest f') < length (rest f))%nat.
Proof.
  intros Eg Hne ->. rewrite length_drop. destruct got as [|x got]; [done|].
  apply (f_equal length) in Eg. rewrite length_take in Eg. cbn [length] in *. lia.
Qed.

Lemma fill_buf_spec fuel : forall n f, (n <= fuel)%nat ->
  let '(r, f') := fill_buf fuel n f in
  match r with
  | Ok got => got = take n (rest f) /\ rest f' = drop n (rest f) /\ (steady f -> steady f')
  | Err e => e = BackupIo /\ ~ steady f
  end.
Proof.
  induction fuel as [|fuel IH]; intros n f Hn; cbn [fill_buf].
  { by replace n with 0%nat by lia. }
  destruct (Nat.eqb_spec n 0) as [->|Hz]; [done|].
  pose proof (read_spec n f) as Hr. destruct (read n f) as [[got|e] f1]; [|done].
  destruct Hr as (Eg & Er & Hl & Hnil & Hs). destruct got as [|x got].
  { destruct (Hnil eq_refl) as [|E]; [done|]. rewrite E in *. rewrite take_nil, drop_nil. by rewrite Er. }
  specialize (IH (n - length (x :: got))%nat f1). destruct (fill_buf fuel _ f1) as [[more|e] f2].
  - destruct IH as (-> & -> & Hs2); [simpl in *; lia|]. rewrite Er. split_and!; [|..].
    + rewrite Eg at 1. by apply take_split.
    + rewrite drop_drop. f_equal. lia.
    + auto.
  - destruct IH as [-> Hns]; [simpl in *; lia|]. split; [done|]. auto.
Qed.

Lemma read_exact_spec n f :
  let '(r, f') := read_exact_or_eof n f in
  match r with
  | Ok got => got = take n (rest f) /\ rest f' = drop n (rest f) /\ (steady f -> steady f')
  | Err e => e = BackupIo /\ ~ steady f
  end.
Proof. by apply fill_buf_spec. Qed.

Lemma read_to_end_spec f :
  match (read_to_end f).1 with
  | Ok got => got = rest f
  | Err e => e = BackupIo /\ ~ steady f
  end.
Proof.
  unfold read_to_end. assert (length (rest f) < S (length (rest f)))%nat as Hf by lia. revert Hf.
  generalize (S (length (rest f))) at 1 2. intros fuel. revert f.
  induction fuel as [|fuel IH]; intros f Hf; [lia|]. cbn [read_to_end_loop].
  pose proof (read_spec (S (length (rest f))) f) as Hr. destruct (read _ f) as [[got|e] f1]; [|done].
  destruct Hr as (Eg & Er & _ & Hnil & Hs). destruct got as [|x got].
  { by destruct (Hnil eq_refl). }
  pose proof (read_shrinks _ _ _ Eg ltac:(done) Er) as Hlt. specialize (IH f1 ltac:(lia)).
  destruct (read_to_end_loop fuel f1) as [[more|e] f2]; cbn [fst] in *.
  - rewrite IH, Er. rewrite Eg at 1. apply take_drop.
  - destruct IH as [-> Hns]. auto.
Qed.

(** A read of the magic that is cut short does not recognise the container. *)
Lemma looks_encrypted_short f n more :
  answers f = AtMost n :: more -> (n < 8)%nat -> looks_encrypted f = Ok false.
Proof.
  intros Ha Hn. unfold looks_encrypted, read. rewrite Ha. cbn [fst].
  rewrite bool_decide_false; [done|]. intros E. apply (f_equal length) in E. rewrite length_take in E.
  change (length BACKUP_FILE_MAGIC) with 8%nat in E. lia.
Qed.

Lemma looks_encrypted_full f : answers f = [] -> looks_encrypted f = Ok (Backup.looks_encrypted (rest f)).
Proof. intros Ha. unfold looks_encrypted, read. by rewrite Ha. Qed.

Lemma chunk_buffer : N.to_nat STREAM_CHUNK_BYTES <> 0%nat.
Proof. unfold STREAM_CHUNK_BYTES. lia. Qed.

#[local] Opaque STREAM_CHUNK_BYTES.

Section hashed.
Context {Hasher : Type} (new : Hasher) (update : Hasher -> bytes -> Hasher) (finalize : Hasher -> bytes).
Context (sha256 : bytes -> bytes).
(** A hasher that is fed in pieces digests their concatenation. *)
Context (Hsha : forall pieces, finalize (foldl update new pieces) = sha256 (concat pieces)).

Lemma hash_loop_spec fuel : forall f h, (length (rest f) < fuel)%nat ->
  match hash_loop update fuel h f with
  | Ok h' => exists pieces, h' = foldl update h pieces /\ concat pieces = rest f
  | Err e => e = BackupIo /\ ~ steady f
  end.
Proof.
  induction fuel as [|fuel IH]; intros f h Hf; [lia|]. cbn [hash_loop].
  pose proof (read_spec (N.to_nat STREAM_CHUNK_BYTES) f) as Hr. destruct (read _ f) as [[got|e] f1]; [|done].
  destruct Hr as (Eg & Er & _ & Hnil & Hs). destruct got as [|x got].
  { destruct (Hnil eq_refl) as [Hz|E]; [by apply chunk_buffer in Hz|]. by exists []. }
  pose proof (read_shrinks _ _ _ Eg ltac:(done) Er) as Hlt. specialize (IH f1 (update h (x :: got)) ltac:(lia)).
  destruct (hash_loop update fuel _ f1) as [h'|e].
  - destruct IH as (pieces & -> & Hp). exists ((x :: got) :: pieces). split; [done|]. cbn [concat]. rewrite Hp, Er. rewrite Eg at 1. apply take_drop.
  - destruct IH as [-> Hns]. auto.
Qed.

(** The digest of a file is that of its bytes, however they are read. *)
Lemma sha256_hex_spec f :
  match sha256_hex new update finalize f with
  | Ok digest => digest = Model.hex_encode (sha256 (rest f))
  | Err e => e = BackupIo /\ ~ steady f
  end.
Proof.
  unfold sha256_hex. pose proof (hash_loop_spec (S (length (rest f))) f new) as H.
  destruct (hash_loop update _ new f) as [h|e]; [|auto]. destruct H as (pieces & -> & <-); [lia|]. by rewrite Hsha.
Qed.
End hashed.

(** ** Decrypting: the whole-file definitions are the specification *)

(** No write to this file fails. *)
Definition reliable (answers : list WriteAnswer) : Prop := Forall (fun a => a = Written) answers.

Lemma write_all_spec b o :
  let '(r, o') := write_all b o in
  match r with
  | Ok _ => written o' = written o ++ b /\ (reliable (writes o) -> reliable (writes o'))
  | Err e => e = BackupIo /\ ~ reliable (writes o)
  end.
Proof.
  unfold write_all, reliable. destruct (writes o) as [|[|n] more]; simpl; [done|..].
  - split; [done|]. by rewrite Forall_cons; intros [].
  - split; [done|]. by rewrite Forall_cons; intros [].
Qed.

Section decrypted.
Context (decrypt : bytes -> bytes -> bytes -> option bytes).

Lemma open_frames_spec key base fuel : forall counter f o, (length (rest f) < fuel)%nat ->
  exists r o', open_frames decrypt fuel key base counter f o = Some (r, o') /\
  match r with
  | Ok _ => exists plain, decrypt_frames decrypt fuel key base counter (rest f) = Some (Ok plain) /\
                          written o' = written o ++ plain
  | Err e => decrypt_frames decrypt fuel key base counter (rest f) = Some (Err e) \/
             e = BackupIo /\ ~ (steady f /\ reliable (writes o))
  end.
Proof.
  induction fuel as [|fuel IH]; intros counter f o Hf; [lia|]. cbn [open_frames decrypt_frames].
  pose proof (read_exact_spec 4 f) as H4. destruct (read_exact_or_eof 4 f) as [[header|e] f1].
  2: { destruct H4 as [-> Hns]. do 2 eexists. split; [reflexivity|]. right. tauto. }
  destruct H4 as (Eh & Er1 & Hs1). rewrite <- Eh. destruct header as [|x header].
  { do 2 eexists. split; [reflexivity|]. exists []. by rewrite app_nil_r. }
  destruct (negb _); [do 2 eexists; split; [reflexivity|by left]|].
  set (len := from_be_bytes (x :: header)).
  destruct ((len =? 0) || _); [do 2 eexists; split; [reflexivity|by left]|].
  pose proof (read_exact_spec (N.to_nat len) f1) as Hp. rewrite Er1 in Hp.
  destruct (read_exact_or_eof (N.to_nat len) f1) as [[ciphertext|e] f2].
  2: { destruct Hp as [-> Hns]. do 2 eexists. split; [reflexivity|]. right. tauto. }
  destruct Hp as (<- & Er2 & Hs2).
  destruct (negb _); [do 2 eexists; split; [reflexivity|by left]|].
  destruct (decrypt key (frame_nonce base counter) ciphertext) as [plain|]; [|do 2 eexists; split; [reflexivity|by left]].
  pose proof (write_all_spec plain o) as Hw. destruct (write_all plain o) as [[[]|e] o1].
  2: { destruct Hw as [-> Hnw]. do 2 eexists. split; [reflexivity|]. right. tauto. }
  destruct Hw as [Ew Hw]. destruct (counter =? 2 ^ 32 - 1); [do 2 eexists; split; [reflexivity|by left]|].
  destruct (IH (counter + 1) f2 o1) as (r & o' & Hr & Hspec).
  { rewrite Er2, !length_drop. destruct (rest f); [done|]. cbn [length] in *. lia. }
  exists r, o'. split; [done|]. rewrite <- Er2. destruct r as [u|e].
  - destruct Hspec as (more & -> & ->). exists (plain ++ more). split; [done|]. by rewrite Ew, app_assoc.
  - destruct Hspec as [->|[-> Hn]]; [by left|right]. tauto.
Qed.

(** The output can be created, written, synced and restricted. *)
Definition dependable (env : OutEnv) : Prop :=
  create_ok env = true /\ reliable (out_writes env) /\ flush_ok env = true /\ sync_ok env = true /\ chmod_ok env = true.

Definition no_io_fault (env : OutEnv) (f : File) : Prop := steady f /\ dependable env.

(** The outcome of a streamed decryption whose whole-file result is [spec]. *)
Definition implements (env : OutEnv) (healthy : Prop) (before out : option bytes)
    (spec : result BackupError bytes) (r : result BackupError unit) : Prop :=
  match r with
  | Ok _ => exists plain, spec = Ok plain /\ out = Some plain
  | Err e =>
      (spec = Err e \/ e = BackupIo /\ ~ healthy) /\
      (remove_ok env = true -> out = before \/ out = None \/ exists plain, spec = Ok plain /\ out = Some plain)
  end.

Lemma implements_read_error env (healthy : Prop) before spec :
  ~ healthy -> implements env healthy before before spec (Err BackupIo).
Proof. intros H. split; auto. Qed.

Lemma implements_refused env healthy before spec e :
  spec = Err e -> implements env healthy before before spec (Err e).
Proof. intros H. split; auto. Qed.

Lemma check_io_spec b : match check_io b with Ok _ => b = true | Err e => e = BackupIo /\ b = false end.
Proof. by destruct b. Qed.

Lemma finish_output_implements env f o before spec r out r' :
  finish_output env o r = (out, r') ->
  match r with
  | Ok _ => exists plain, spec = Ok plain /\ written o = plain
  | Err e => spec = Err e \/ e = BackupIo /\ ~ no_io_fault env f
  end ->
  implements env (no_io_fault env f) before out spec r'.
Proof.
  unfold finish_output. destruct r as [[]|e]; intros [= <- <-].
  - intros (plain & Hspec & Hw). unfold no_io_fault, dependable.
    pose proof (check_io_spec (sync_ok env)) as Hsync. pose proof (check_io_spec (chmod_ok env)) as Hchmod.
    destruct (check_io (sync_ok env)) as [[]|e1]; [destruct (check_io (chmod_ok env)) as [[]|e2]|]; simpl.
    + exists plain. by rewrite Hw.
    + destruct Hchmod as [-> Hc]. split; [right; split; [done|]; intros (_ & _ & _ & _ & _ & ?); congruence|].
      intros _. right; right. exists plain. by rewrite Hw.
    + destruct Hsync as [-> Hc]. split; [right; split; [done|]; intros (_ & _ & _ & _ & ? & _); congruence|].
      intros _. right; right. exists plain. by rewrite Hw.
  - intros H. split; [done|]. intros ->. auto.
Qed.

Lemma decrypt_v1_spec env key f before :
  let '(out, r) := decrypt_v1_body decrypt env key f before in
  implements env (no_io_fault env f) before out (Backup.decrypt_v1_body decrypt key (rest f)) r.
Proof.
  unfold decrypt_v1_body. pose proof (read_to_end_spec f) as Hr. destruct (read_to_end f) as [[body|e] f'].
  2: { destruct Hr as [-> Hns]. apply implements_read_error. unfold no_io_fault. tauto. }
  simpl in Hr. subst body. destruct (Backup.decrypt_v1_body decrypt key (rest f)) as [plain|e] eqn:Hd;
    [|by apply implements_refused].
  destruct (create_ok env) eqn:Hcreate.
  2: { split; [right; split; [done|]; intros (_ & ? & _); congruence|]. intros ->. auto. }
  pose proof (write_all_spec plain (opened env)) as Hw. destruct (write_all plain (opened env)) as [[[]|e] o].
  - destruct Hw as [Hw _]. simpl in Hw.
    pose proof (check_io_spec (sync_ok env)) as Hsync. destruct (check_io (sync_ok env)) as [[]|e]; simpl.
    + pose proof (check_io_spec (chmod_ok env)) as Hchmod. destruct (check_io (chmod_ok env)) as [[]|e].
      { exists plain. by rewrite Hw. }
      destruct Hchmod as [-> Hc]. split; [right; split; [done|]; intros (_ & _ & _ & _ & _ & ?); congruence|].
      intros _. right; right. exists plain. by rewrite Hw.
    + destruct Hsync as [-> Hc]. split; [right; split; [done|]; intros (_ & _ & _ & _ & ? & _); congruence|]. intros ->. auto.
  - destruct Hw as [-> Hnw]. simpl. split; [right; split; [done|]; intros (_ & _ & ? & _); done|]. intros ->. auto.
Qed.

Lemma decrypt_v2_spec env key f before :
  exists out r, decrypt_v2_body decrypt env key f before = Some (out, r) /\
    implements env (no_io_fault env f) before out (Backup.decrypt_v2_body decrypt key (rest f)) r.
Proof.
  unfold decrypt_v2_body, Backup.decrypt_v2_body.
  pose proof (read_exact_spec NONCE_LEN f) as Hr. destruct (read_exact_or_eof NONCE_LEN f) as [[base|e] f1].
  2: { destruct Hr as [-> Hns]. do 2 eexists. split; [reflexivity|]. apply implements_read_error. unfold no_io_fault. tauto. }
  destruct Hr as (<- & Er & Hs). rewrite <- Er.
  destruct (negb (length base =? NONCE_LEN)%nat); [do 2 eexists; split; [reflexivity|by apply implements_refused]|].
  destruct (create_ok env) eqn:Hcreate; cbn [negb].
  2: { do 2 eexists. split; [reflexivity|]. apply implements_read_error. intros (_ & ? & _). congruence. }
  destruct (open_frames_spec key base (S (length (rest f1))) 0 f1 (opened env)) as (r & o & -> & Hspec); [lia|].
  cbn [mbind option_bind]. destruct (finish_output _ _ _) as [out r'] eqn:Hfin. do 2 eexists. split; [reflexivity|].
  eapply finish_output_implements; [exact Hfin|]. destruct r as [[]|e].
  - destruct Hspec as (plain & -> & Hw). pose proof (check_io_spec (flush_ok env)) as Hflush.
    destruct (check_io (flush_ok env)) as [[]|e]; [by exists plain|]. destruct Hflush as [-> Hn]. right. split; [done|].
    intros (_ & _ & _ & ? & _). congruence.
  - destruct Hspec as [->|[-> Hn]]; [by left|right]. split; [done|]. unfold no_io_fault, dependable. tauto.
Qed.

(** Streamed decryption returns, does what the whole-file definition says, and
    leaves no byte behind that did not pass the authentication of the whole. *)
Lemma decrypt_to_spec env key f before :
  exists out r, decrypt_to decrypt env key f before = Some (out, r) /\
    implements env (no_io_fault env f) before out (Backup.decrypt_to decrypt key (rest f)) r.
Proof.
  unfold decrypt_to, Backup.decrypt_to.
  pose proof (read_exact_spec 8 f) as Hr. destruct (read_exact_or_eof 8 f) as [[magic|e] f1].
  2: { destruct Hr as [-> Hns]. do 2 eexists. split; [reflexivity|]. apply implements_read_error. unfold no_io_fault. tauto. }
  destruct Hr as (<- & Er & Hs).
  case_bool_decide; cbn [negb]; [|do 2 eexists; split; [reflexivity|by apply implements_refused]].
  pose proof (read_exact_spec 1 f1) as Hr. rewrite Er in Hr. destruct (read_exact_or_eof 1 f1) as [[vs|e] f2].
  2: { destruct Hr as [-> Hns]. do 2 eexists. split; [reflexivity|]. apply implements_read_error. unfold no_io_fault. tauto. }
  destruct Hr as (-> & Er2 & Hs2). destruct (drop 8 (rest f)) as [|version body] eqn:Eb; simpl in *.
  { do 2 eexists. split; [reflexivity|by apply implements_refused]. }
  rewrite drop_0 in Er2. subst body.
  assert (forall out spec r, implements env (no_io_fault env f2) before out spec r ->
            implements env (no_io_fault env f) before out spec r) as Hweak.
  { intros out spec [[]|e]; [done|]. unfold implements, no_io_fault. intros [[?|[? ?]] ?]; split; tauto. }
  destruct (Ascii.eqb version BACKUP_FILE_VERSION_V1).
  { pose proof (decrypt_v1_spec env key f2 before) as H1. destruct (decrypt_v1_body decrypt env key f2 before) as [out r].
    do 2 eexists. split; [reflexivity|]. by apply Hweak. }
  destruct (Ascii.eqb version BACKUP_FILE_VERSION); [|do 2 eexists; split; [reflexivity|by apply implements_refused]].
  destruct (decrypt_v2_spec env key f2 before) as (out & r & -> & H2). do 2 eexists. split; [reflexivity|]. by apply Hweak.
Qed.
End decrypted.

(** ** Encrypting *)

Section encrypted.
Context (encrypt : bytes -> bytes -> bytes -> option bytes).

Lemma seal_frames_spec key base fuel : forall counter f o, (length (rest f) < fuel)%nat ->
  exists r o', seal_frames encrypt fuel key base counter f o = Some (r, o') /\
  match r with
  | Ok _ => exists chunks frames, Forall chunk_ok chunks /\ concat chunks = rest f /\
      encrypt_frames encrypt key base counter chunks = Ok frames /\ written o' = written o ++ frames
  | Err e => e = BackupIo /\ ~ (steady f /\ reliable (writes o)) \/
      exists chunks, Forall chunk_ok chunks /\ concat chunks `prefix_of` rest f /\
        encrypt_frames encrypt key base counter chunks = Err e
  end.
Proof.
  induction fuel as [|fuel IH]; intros counter f o Hf; [lia|]. cbn [seal_frames].
  pose proof (read_spec (N.to_nat STREAM_CHUNK_BYTES) f) as Hr. destruct (read _ f) as [[got|e] f1].
  2: { destruct Hr as [-> Hns]. do 2 eexists. split; [reflexivity|]. left. tauto. }
  destruct Hr as (Eg & Er & Hl & Hnil & Hs). destruct got as [|x got].
  { destruct (Hnil eq_refl) as [Hz|E]; [by apply chunk_buffer in Hz|]. do 2 eexists. split; [reflexivity|].
    exists [], []. rewrite app_nil_r. by split_and!. }
  assert (chunk_ok (x :: got)) as Hok by (split; [done|lia]). pose proof (read_shrinks _ _ _ Eg ltac:(done) Er) as Hlt.
  assert (rest f = (x :: got) ++ rest f1) as Hrest by (rewrite Er, <- (take_drop (length (x :: got)) (rest f)) at 1; by rewrite <- Eg).
  cbv beta iota. set (p := x :: got) in *. clearbody p.
  assert (forall e, encrypt_frames encrypt key base counter [p] = Err e -> exists chunks,
    Forall chunk_ok chunks /\ concat chunks `prefix_of` rest f /\ encrypt_frames encrypt key base counter chunks = Err e) as Hone.
  { intros e He. exists [p]. split_and!; [by apply Forall_singleton| |done]. rewrite Hrest. simpl. rewrite app_nil_r.
    by apply prefix_app_r. }
  cbn [encrypt_frames] in Hone.
  destruct (encrypt key (frame_nonce base counter) p) as [c|] eqn:Hc; [|do 2 eexists; split; [reflexivity|right; by apply Hone]].
  destruct (2 ^ 32 <=? N.of_nat (length c)) eqn:Hbig; [do 2 eexists; split; [reflexivity|right; by apply Hone]|].
  pose proof (write_all_spec (be_bytes (N.of_nat (length c))) o) as Hw1. destruct (write_all _ o) as [[[]|e] o1].
  2: { destruct Hw1 as [-> Hn]. do 2 eexists. split; [reflexivity|]. left. tauto. }
  destruct Hw1 as [Ew1 Hw1]. pose proof (write_all_spec c o1) as Hw2. destruct (write_all c o1) as [[[]|e] o2].
  2: { destruct Hw2 as [-> Hn]. do 2 eexists. split; [reflexivity|]. left. tauto. }
  destruct Hw2 as [Ew2 Hw2]. destruct (counter =? 2 ^ 32 - 1) eqn:Hlimit; [do 2 eexists; split; [reflexivity|right; by apply Hone]|].
  destruct (IH (counter + 1) f1 o2) as (r & o' & Hrun & Hspec); [lia|]. exists r, o'. split; [done|]. destruct r as [[]|e].
  - destruct Hspec as (chunks & frames & Hcs & Hcat & Hf' & Hw'). eexists (p :: chunks), _.
    split_and!; [by constructor|by rewrite Hrest, <- Hcat| |].
    + cbn [encrypt_frames]. rewrite Hc, Hbig, Hlimit, Hf'. reflexivity.
    + by rewrite Hw', Ew2, Ew1, <- !app_assoc.
  - destruct Hspec as [[-> Hn]|(chunks & Hcs & Hpre & He)]; [left; tauto|]. right. exists (p :: chunks).
    split_and!; [by constructor|rewrite Hrest; simpl; by apply prefix_app|].
    cbn [encrypt_frames]. by rewrite Hc, Hbig, Hlimit, He.
Qed.

(** An encrypted file that is reported complete is the container of exactly the
    bytes of the input; after an error the output path is as before or empty,
    unless only syncing or restricting the complete container failed. *)
Lemma encrypt_file_spec env key base f out before :
  exists after_ r, encrypt_file encrypt env key base f out before = Some (after_, r) /\
  let complete := exists chunks file, Forall chunk_ok chunks /\ concat chunks = rest f /\
      Backup.encrypt_file encrypt key base chunks = Ok file /\ before = None /\ after_ = Some file in
  match r with
  | Ok _ => complete
  | Err _ => remove_ok env = true -> after_ = before \/ complete
  end.
Proof.
  unfold encrypt_file. destruct before as [b|]; [do 2 eexists; split; [reflexivity|cbv zeta; simpl; by left]|].
  destruct (create_ok env); cbn [negb]; [|do 2 eexists; split; [reflexivity|cbv zeta; simpl; by left]].
  assert (forall o r after_ r', finish_output env o r = (after_, r') ->
    match r with
    | Ok _ => exists chunks file, Forall chunk_ok chunks /\ concat chunks = rest f /\
        Backup.encrypt_file encrypt key base chunks = Ok file /\ written o = file
    | Err _ => True
    end ->
    let complete := exists chunks file, Forall chunk_ok chunks /\ concat chunks = rest f /\
      Backup.encrypt_file encrypt key base chunks = Ok file /\ @None bytes = None /\ after_ = Some file in
    match r' with Ok _ => complete | Err _ => remove_ok env = true -> after_ = None \/ complete end) as Hfin.
  { intros o [[]|e] after_ r'; simpl; intros [= <- <-]; [|intros _ ->; by left].
    intros (chunks & file & ? & ? & ? & ->). repeat case_match; try intros _; try right; by exists chunks, file. }
  destruct (write_each _ (opened env)) as [[[]|e] o] eqn:Hw.
  2: { destruct (finish_output env o (Err e)) as [a r] eqn:Ef. do 2 eexists. split; [reflexivity|]. by eapply Hfin. }
  assert (written o = BACKUP_FILE_MAGIC ++ [BACKUP_FILE_VERSION] ++ base) as Ho.
  { unfold write_each in Hw. cbn [foldl] in Hw.
    pose proof (write_all_spec BACKUP_FILE_MAGIC (opened env)) as H1. destruct (write_all _ (opened env)) as [[[]|] o1]; [|done].
    pose proof (write_all_spec [BACKUP_FILE_VERSION] o1) as H2. destruct (write_all _ o1) as [[[]|] o2]; [|done].
    pose proof (write_all_spec base o2) as H3. rewrite Hw in H3. destruct H1 as [E1 _], H2 as [E2 _], H3 as [E3 _].
    by rewrite E3, E2, E1, <- !app_assoc. }
  destruct (seal_frames_spec key base (S (length (rest f))) 0 f o) as (r & o' & -> & Hspec); [lia|].
  cbn [mbind option_bind]. destruct (finish_output _ _ _) as [a r'] eqn:Ef. do 2 eexists. split; [reflexivity|].
  eapply Hfin; [exact Ef|]. destruct r as [[]|e]; [|done]. destruct (check_io (flush_ok env)); [|done].
  destruct Hspec as (chunks & frames & ? & ? & He & ->). exists chunks. eexists. split_and!; [done..| |reflexivity].
  unfold Backup.encrypt_file. by rewrite He, Ho, <- !app_assoc.
Qed.

End encrypted.

(** ** Decryption on a real file *)

(** C34: Only authenticated bytes are released.  However its reads are cut short
    and whatever reads, writes and the output file do, a decryption returns;
    without an I/O error it returns what the container decrypts to as a whole,
    with the same error; success means that the output holds that plaintext; and
    when a failed output can be removed, the output path is left as it was, empty,
    or with the complete plaintext of frames that each opened under the key and
    the nonce of their own position, all nonces of a file being different.  What
    the nonces do not bind is the number of frames: a file that ends at a frame
    boundary is taken as complete. *)
Theorem decrypt_authenticates decrypt env key f before :
  exists out r, decrypt_to decrypt env key f before = Some (out, r) /\
    (no_io_fault env f -> r = let? _ := Backup.decrypt_to decrypt key (rest f) in Ok tt) /\
    (r = Ok tt -> exists plain, Backup.decrypt_to decrypt key (rest f) = Ok plain /\ out = Some plain) /\
    (remove_ok env = true -> out = before \/ out = None \/
       exists plain, out = Some plain /\ authentic decrypt key (rest f) plain).
Proof.
  destruct (decrypt_to_spec decrypt env key f before) as (out & r & Hrun & Hspec). exists out, r. split; [done|].
  destruct r as [[]|e]; simpl in Hspec.
  - destruct Hspec as (plain & Hp & ->). rewrite Hp. split_and!; [done|by exists plain|]. intros _. right; right.
    exists plain. split; [done|]. by apply decrypt_to_sound.
  - destruct Hspec as [Herr Hout]. split_and!; [|done|].
    + intros Hok. destruct Herr as [->|[_ Hn]]; [done|by destruct Hn].
    + intros Hrm. destruct (Hout Hrm) as [->|[->|(plain & Hp & ->)]]; auto. right; right. exists plain.
      split; [done|]. by apply decrypt_to_sound.
Qed.

Definition demo_out : OutEnv :=
  {| create_ok := true; out_writes := []; flush_ok := true; sync_ok := true; chmod_ok := true; remove_ok := true |}.

(** The container of [Backup], read a few bytes at a time. *)
Definition demo_file : File := {| rest := demo_container; answers := [AtMost 3; AtMost 1; AtMost 9; AtMost 2] |}.

Lemma decrypt_authenticates_witness :
  exists plain, decrypt_to demo_decrypt demo_out demo_key demo_file None = Some (Some plain, Ok tt) /\
    plain = Text.bytes_of_string "ok data" /\ authentic demo_decrypt demo_key demo_container plain.
Proof.
  destruct (decrypt_authenticates demo_decrypt demo_out demo_key demo_file None) as (out & r & Hrun & Hr & Hok & Hrm).
  assert (no_io_fault demo_out demo_file) as Hio.
  { split; [unfold steady, demo_file; simpl; set_solver|]. repeat split. constructor. }
  specialize (Hr Hio). assert (r = Ok tt) as Hr' by (rewrite Hr; vm_compute; reflexivity). clear Hr.
  destruct (Hok Hr') as (plain & Hp & Hout). subst out. exists plain. split; [rewrite Hrun, Hr'; reflexivity|].
  split; [vm_compute in Hp; injection Hp as <-; reflexivity|].
  destruct (Hrm eq_refl) as [H|[H|(p & H & Ha)]]; [discriminate..|]. injection H as ->. exact Ha.
Defined.

End Streaming.
