(* ===== verification/BackupFiles.v ===== *)
(** * Backup file names and retention ([crates/otel-sqlite-storage/src/backup.rs])

    The UTC timestamp of an artifact's name, the choice of a free name, which
    directory entries count as backups, and the pruning of old ones.  A
    directory is the list of its entries; [i64] arithmetic is exact here since
    a [u64] of seconds stays far from the bounds after the division by a day. *)

From stdpp Require Import pretty.
From S2P Require Import Prelude Time Model Text Render Backup.

Module BackupFiles.

Local Open Scope string_scope.
Local Open Scope list_scope.
Local Open Scope Z_scope.

(** ** The timestamp *)

(** The date part of [utc_timestamp]; [/] on [i64] truncates. *)
Definition civil_from_days (days : Z) : Z * Z * Z :=
  let z := days + 719468 in
  let era := Z.quot (if 0 <=? z then z else z - 146096) 146097 in
  let doe := z - era * 146097 in
  let yoe := Z.quot (doe - Z.quot doe 1460 + Z.quot doe 36524 - Z.quot doe 146096) 365 in
  let year := yoe + era * 400 in
  let day_of_year := doe - (365 * yoe + Z.quot yoe 4 - Z.quot yoe 100) in
  let mp := Z.quot (5 * day_of_year + 2) 153 in
  let day := day_of_year - Z.quot (153 * mp + 2) 5 + 1 in
  let month := if mp <? 10 then mp + 3 else mp - 9 in
  let year := if month <=? 2 then year + 1 else year in
  (year, month, day).

(** [{:04}] and [{:02}]. *)
Definition zero_padded (width : nat) (n : Z) : string :=
  let digits := Render.show_i64 n in
  String.append (Render.zeros (Z.of_nat width - Z.of_nat (String.length digits))) digits.

Definition utc_timestamp (epoch_secs : N) : string :=
  let days := Z.of_N (epoch_secs / 86400) in
  let seconds_in_day := Z.of_N (epoch_secs mod 86400) in
  let '(year, month, day) := civil_from_days days in
  let hour := Z.quot seconds_in_day 3600 in
  let minute := Z.quot (Z.rem seconds_in_day 3600) 60 in
  let second := Z.rem seconds_in_day 60 in
  String.append (zero_padded 4 year) (String.append (zero_padded 2 month) (String.append (zero_padded 2 day)
    (String.append "T" (String.append (zero_padded 2 hour) (String.append (zero_padded 2 minute)
      (String.append (zero_padded 2 second) "Z")))))).

Example timestamp_is_utc_zero_padded : utc_timestamp 1788093296 = "20260830T123456Z".
Proof. vm_compute. reflexivity. Qed.

(** ** Names *)

Definition OTEL_DB_PREFIX : string := "otel-logs.db.".
Definition TEMP_ARTIFACT_SUFFIXES : list string := [".decrypting"; ".tmp"; ".part"; ".partial"].

Definition strip_prefix (p s : string) : option string :=
  Text.string_of_bytes <$> Text.strip_prefix (Text.bytes_of_string p) (Text.bytes_of_string s).

Definition ends_with (s suffix : string) : bool :=
  bool_decide (is_Some (Text.strip_prefix (reverse (Text.bytes_of_string suffix))
                          (reverse (Text.bytes_of_string s)))).

Definition starts_with_dot (s : string) : bool :=
  match s with String c _ => Ascii.eqb c "." | EmptyString => false end.

Definition is_backup_artifact (name : string) : bool :=
  match strip_prefix OTEL_DB_PREFIX name with
  | None => false
  | Some suffix =>
      negb (Text.is_empty suffix) && negb (starts_with_dot suffix) &&
      negb (existsb (ends_with name) TEMP_ARTIFACT_SUFFIXES)
  end.

Definition extension (encrypted : bool) : string := if encrypted then "otsb" else "bak".

Definition backup_filename (epoch_secs : N) (encrypted : bool) : string :=
  String.append OTEL_DB_PREFIX (String.append (utc_timestamp epoch_secs)
    (String.append "." (extension encrypted))).

(** The numbered variants: the stem of [backup_filename] with a counter. *)
Definition numbered_filename (epoch_secs : N) (encrypted : bool) (counter : N) : string :=
  String.append OTEL_DB_PREFIX (String.append (utc_timestamp epoch_secs)
    (String.append "-" (String.append (Render.show_u64 counter)
      (String.append "." (extension encrypted))))).

(** [unique_backup_path]: [taken] tells which names of the directory exist;
    [None] when [fuel] counters were not enough. *)
Fixpoint first_free (fuel : nat) (taken : string -> bool) (name : N -> string) (counter : N)
    : option string :=
  match fuel with
  | O => None
  | S fuel' =>
      if taken (name counter) then first_free fuel' taken name (counter + 1) else Some (name counter)
  end.

Definition unique_backup_path (fuel : nat) (taken : string -> bool) (epoch_secs : N) (encrypted : bool)
    : option string :=
  let base := backup_filename epoch_secs encrypted in
  if taken base then first_free fuel taken (numbered_filename epoch_secs encrypted) 1 else Some base.

(** ** Retention *)

(** A directory entry with its modification time, when it can be read. *)
Record Entry := mk_entry {
  entry_name : string;
  entry_modified : option N;
}.

#[export] Instance Entry_eq_dec : EqDecision Entry.
Proof. solve_decision. Defined.

(** [Option<SystemTime>] orders [None] first. *)
Definition modified_le (a b : option N) : bool :=
  match a, b with
  | None, _ => true
  | Some _, None => false
  | Some x, Some y => (x <=? y)%N
  end.

(** Newest first, ties by path, descending. *)
Definition newer_first (a b : Entry) : Prop :=
  modified_le (entry_modified b) (entry_modified a) = true /\
  (modified_le (entry_modified a) (entry_modified b) = true -> String.le (entry_name b) (entry_name a)).

#[export] Instance newer_first_dec : RelDecision newer_first.
Proof. unfold newer_first. intros a b. apply _. Defined.

(** Delete the files in order; the first failure ends the call. *)
Fixpoint remove_files (can_remove : string -> bool) (victims : list Entry) (dir : list Entry)
    : list Entry * result Backup.BackupError nat :=
  match victims with
  | [] => (dir, Ok O)
  | v :: rest =>
      if can_remove (entry_name v) then
        match remove_files can_remove rest (filter (fun e => entry_name e <> entry_name v) dir) with
        | (dir', Ok n) => (dir', Ok (S n))
        | r => r
        end
      else (dir, Err Backup.BackupIo)
  end.

Definition prune_old_backups (can_remove : string -> bool) (dir : list Entry) (keep : nat)
    : list Entry * result Backup.BackupError nat :=
  if (keep =? 0)%nat then (dir, Ok O)
  else
    let backups := merge_sort newer_first (filter (fun e => is_backup_artifact (entry_name e) = true) dir) in
    remove_files can_remove (drop keep backups) dir.

(** ** The calendar *)

(** The Gregorian calendar: month lengths, and the ordinal of a date (1 is the
    first of January of the year 1). *)
Definition is_leap (y : Z) : bool :=
  (y mod 4 =? 0) && (negb (y mod 100 =? 0) || (y mod 400 =? 0)).

Definition month_length (y m : Z) : Z :=
  if m =? 2 then (if is_leap y then 29 else 28)
  else if (m =? 4) || (m =? 6) || (m =? 9) || (m =? 11) then 30 else 31.

(** Days of a year before its month [m]. *)
Definition before_month (y m : Z) : Z :=
  foldr Z.add 0 (map (fun k => month_length y (Z.of_nat k)) (seq 1 (Z.to_nat (m - 1)))).

Definition before_year (y : Z) : Z := 365 * (y - 1) + (y - 1) / 4 - (y - 1) / 100 + (y - 1) / 400.

Definition ordinal (y m d : Z) : Z := before_year y + before_month y m + d.

(** The closed form of [before_year] adds up the lengths of the years. *)
Lemma before_year_succ y : before_year (y + 1) = before_year y + (if is_leap y then 366 else 365).
Proof.
  unfold before_year, is_leap. replace (y + 1 - 1) with y by lia.
  destruct (Z.eqb_spec (y mod 4) 0), (Z.eqb_spec (y mod 100) 0), (Z.eqb_spec (y mod 400) 0); simpl;
    Z.to_euclidean_division_equations; lia.
Qed.

Definition year_of (doe : Z) : Z := doe - doe / 1460 + doe / 36524 - doe / 146096.
Definition year_start (yoe : Z) : Z := 365 * yoe + yoe / 4 - yoe / 100.

Lemma year_of_mono a b : 0 <= a -> a <= b -> b < 146097 -> year_of a <= year_of b.
Proof.
  unfold year_of. intros Ha Hab Hb. Z.to_euclidean_division_equations. lia.
Qed.

Definition year_checks : bool :=
  forallb (fun k => let y := Z.of_nat k in
    (year_of (year_start y) / 365 =? y) &&
    (year_of (Z.min 146096 (year_start (y + 1) - 1)) / 365 =? y)) (seq 0 400).

Lemma year_checked y : 0 <= y < 400 ->
  year_of (year_start y) / 365 = y /\ year_of (Z.min 146096 (year_start (y + 1) - 1)) / 365 = y.
Proof.
  intros Hy. assert (year_checks = true) as Hc by (vm_compute; reflexivity).
  unfold year_checks in Hc. rewrite forallb_forall in Hc.
  specialize (Hc (Z.to_nat y)). rewrite in_seq, Z2Nat.id in Hc by lia.
  specialize (Hc ltac:(lia)). bool_to_prop. by rewrite !Z.eqb_eq in *.
Qed.

(** The year of the era a day falls in, and its day of that year. *)
Lemma year_of_era doe :
  0 <= doe < 146097 ->
  let yoe := year_of doe / 365 in
  0 <= yoe < 400 /\ 0 <= doe - year_start yoe <= 365 /\
  (doe - year_start yoe = 365 -> is_leap (yoe + 1) = true).
Proof.
  intros Hd yoe.
  assert (year_of 0 / 365 <= yoe <= year_of 146096 / 365) as Hr.
  { unfold yoe. split; (apply Z.div_le_mono; [lia|]); apply year_of_mono; lia. }

  assert (year_of 0 / 365 = 0) by reflexivity. assert (year_of 146096 / 365 = 399) by reflexivity.
  assert (0 <= yoe < 400) as Hy by lia.
  assert (year_start yoe <= doe) as Hlo.
  { destruct (Z.le_gt_cases (year_start yoe) doe) as [|Hlt]; [done|exfalso].
    assert (yoe <> 0) by (intros E; rewrite E in Hlt; change (year_start 0) with 0 in Hlt; lia).
    destruct (year_checked (yoe - 1) ltac:(lia)) as [_ Hc]. replace (yoe - 1 + 1) with yoe in Hc by lia.
    assert (yoe <= year_of (Z.min 146096 (year_start yoe - 1)) / 365); [|lia].
    apply Z.div_le_mono; [lia|]. apply year_of_mono; lia. }
  assert (doe < year_start (yoe + 1) \/ yoe = 399) as Hhi.
  { destruct (Z.eq_dec yoe 399); [by right|left].
    destruct (Z.lt_ge_cases doe (year_start (yoe + 1))) as [|Hge]; [done|exfalso].
    destruct (year_checked (yoe + 1) ltac:(lia)) as [Hc _].
    assert (year_of (year_start (yoe + 1)) / 365 <= yoe); [|lia].
    apply Z.div_le_mono; [lia|]. apply year_of_mono; [|done|lia].
    unfold year_start. Z.to_euclidean_division_equations. lia. }
  unfold year_start, is_leap in *. split; [done|].
  destruct Hhi as [Hhi| ->]; [|split; [|done]; Z.to_euclidean_division_equations; lia].
  split; [Z.to_euclidean_division_equations; lia|]. intros H365.
  destruct (Z.eqb_spec ((yoe + 1) mod 4) 0), (Z.eqb_spec ((yoe + 1) mod 100) 0),
    (Z.eqb_spec ((yoe + 1) mod 400) 0); simpl; try done; exfalso;
    Z.to_euclidean_division_equations; lia.
Qed.

(** Month and day from the day of a year that starts in March. *)
Definition march_month (doy : Z) : Z :=
  let mp := (5 * doy + 2) / 153 in if mp <? 10 then mp + 3 else mp - 9.
Definition march_day (doy : Z) : Z := doy - (153 * ((5 * doy + 2) / 153) + 2) / 5 + 1.

Definition march_checks : bool :=
  forallb (fun k => let doy := Z.of_nat k in
    let m := march_month doy in let d := march_day doy in
    if m <=? 2 then
      (1 <=? m) && (1 <=? d) && (doy + 1 =? 306 + before_month 1 m + d) &&
      (d <=? month_length (if doy =? 365 then 4 else 1) m)
    else
      (m <=? 12) && (1 <=? d) && (d <=? month_length 1 m) && (doy + 1 + 59 =? before_month 1 m + d))
    (seq 0 366).

Lemma march_checked doy : 0 <= doy <= 365 ->
  let m := march_month doy in let d := march_day doy in
  1 <= d /\
  (m <= 2 /\ 1 <= m /\ doy + 1 = 306 + before_month 1 m + d /\
   d <= month_length (if doy =? 365 then 4 else 1) m \/
   2 < m <= 12 /\ d <= month_length 1 m /\ doy + 1 + 59 = before_month 1 m + d).
Proof.
  intros Hd. assert (march_checks = true) as Hc by (vm_compute; reflexivity).
  unfold march_checks in Hc. rewrite forallb_forall in Hc.
  specialize (Hc (Z.to_nat doy)). rewrite in_seq, Z2Nat.id in Hc by lia. specialize (Hc ltac:(lia)).
  cbv zeta in *. destruct (Z.leb_spec (march_month doy) 2); bool_to_prop; rewrite ?Z.leb_le, ?Z.eqb_eq in *; lia.
Qed.

(** Months before March do not see the leap day, later ones see it once. *)
Lemma before_month_leap y m :
  1 <= m <= 12 ->
  before_month y m = before_month 1 m + (if (2 <? m) && is_leap y then 1 else 0).
Proof.
  intros Hm. unfold before_month.
  assert (m = 1 \/ m = 2 \/ m = 3 \/ m = 4 \/ m = 5 \/ m = 6 \/ m = 7 \/ m = 8 \/ m = 9 \/ m = 10 \/ m = 11 \/ m = 12)
    as Hcases by lia.
  destruct Hcases as [->|[->|[->|[->|[->|[->|[->|[->|[->|[->|[->| ->]]]]]]]]]]];
    cbv -[is_leap]; change (is_leap 1) with false; destruct (is_leap y); reflexivity.
Qed.

Lemma month_length_other y m : m <> 2 -> month_length y m = month_length 1 m.
Proof. intros Hm. unfold month_length. by rewrite (proj2 (Z.eqb_neq m 2)). Qed.

Lemma is_leap_era y era : is_leap (y + era * 400) = is_leap y.
Proof.
  unfold is_leap.
  replace (y + era * 400) with (y + (era * 100) * 4) at 1 by lia. rewrite Z.mod_add by lia.
  replace (y + era * 400) with (y + (era * 4) * 100) at 1 by lia. rewrite Z.mod_add by lia.
  by rewrite Z.mod_add by lia.
Qed.

Lemma before_year_era y era : before_year (y + era * 400) = before_year y + era * 146097.
Proof.
  unfold before_year.
  replace (y + era * 400 - 1) with (y - 1 + (era * 100) * 4) at 2 by lia. rewrite Z.div_add by lia.
  replace (y + era * 400 - 1) with (y - 1 + (era * 4) * 100) at 2 by lia. rewrite Z.div_add by lia.
  replace (y + era * 400 - 1) with (y - 1 + era * 400) by lia. rewrite Z.div_add by lia. lia.
Qed.

(** The algorithm with the floored divisions its non-negative operands allow. *)
Lemma civil_from_days_floor days :
  0 <= days ->
  let z := days + 719468 in
  let era := z / 146097 in let doe := z mod 146097 in
  let yoe := year_of doe / 365 in let doy := doe - year_start yoe in
  let m := march_month doy in
  civil_from_days days = ((if m <=? 2 then yoe + era * 400 + 1 else yoe + era * 400), m, march_day doy).
Proof.
  intros Hd. cbv zeta. unfold civil_from_days.
  set (z := days + 719468). assert (0 <= z) by lia.
  rewrite (proj2 (Z.leb_le 0 z)) by lia. rewrite (Z.quot_div_nonneg z) by lia.
  assert (z - z / 146097 * 146097 = z mod 146097) as -> by (rewrite Z.mod_eq by lia; lia).
  pose proof (Z.mod_pos_bound z 146097 ltac:(lia)). set (doe := z mod 146097) in *. clearbody doe.
  destruct (year_of_era doe ltac:(lia)) as (Hy & Hdoy & _).
  assert (0 <= year_of doe) as Hyo.
  { change 0 with (year_of 0). apply year_of_mono; lia. }
  unfold march_month, march_day, year_start, year_of in *.
  rewrite !(Z.quot_div_nonneg doe) by lia.
  rewrite (Z.quot_div_nonneg (doe - doe / 1460 + doe / 36524 - doe / 146096)) by lia.
  set (yoe := (doe - doe / 1460 + doe / 36524 - doe / 146096) / 365) in *. clearbody yoe.
  rewrite !(Z.quot_div_nonneg yoe) by lia.
  set (doy := doe - (365 * yoe + yoe / 4 - yoe / 100)) in *. clearbody doy.
  rewrite (Z.quot_div_nonneg (5 * doy + 2)) by lia.
  assert (0 <= (5 * doy + 2) / 153) by (apply Z.div_pos; lia).
  rewrite (Z.quot_div_nonneg (153 * ((5 * doy + 2) / 153) + 2)) by lia. done.
Qed.

(** The timestamp's date is the right one: for every day since the epoch the
    algorithm yields a date of the Gregorian calendar (month and day within
    bounds, leap years included) whose ordinal is the day's. *)
Theorem civil_from_days_correct days y m d :
  0 <= days -> civil_from_days days = (y, m, d) ->
  1 <= m <= 12 /\ 1 <= d <= month_length y m /\
  ordinal y m d = ordinal 1970 1 1 + days.
Proof.
  intros Hd. rewrite civil_from_days_floor by done. cbv zeta.
  set (z := days + 719468). pose proof (Z.mod_pos_bound z 146097 ltac:(lia)) as Hb.
  pose proof (Z.div_mod z 146097 ltac:(lia)) as Hz.
  destruct (year_of_era (z mod 146097) Hb) as (Hy & Hdoy & Hleap).
  set (yoe := year_of (z mod 146097) / 365) in *. clearbody yoe.
  destruct (march_checked _ Hdoy) as (Hd1 & Hcase).
  remember (z mod 146097 - year_start yoe) as doy eqn:Edoy.
  intros [= <- <- <-]. unfold ordinal. change (before_year 1970 + before_month 1970 1 + 1) with 719163.
  assert (year_start yoe = before_year (yoe + 1)) as Hstart.
  { unfold year_start, before_year. replace (yoe + 1 - 1) with yoe by lia.
    rewrite (Z.div_small yoe 400) by lia. lia. }
  destruct Hcase as [(Hm2 & Hm1 & Hsum & Hlen)|((Hm & Hm12) & Hlen & Hsum)].
  - rewrite (proj2 (Z.leb_le _ 2)) by lia. split; [lia|].
    replace (yoe + z / 146097 * 400 + 1) with (yoe + 1 + z / 146097 * 400) by lia.
    rewrite before_year_era, before_month_leap by lia.
    rewrite (proj2 (Z.ltb_ge 2 _)) by lia. cbn [andb]. split; [|lia]. split; [lia|].
    destruct (Z.eq_dec (march_month doy) 2) as [E|E]; [|by rewrite month_length_other in * by done; rewrite Hlen; destruct (doy =? 365)].
    rewrite E in *. unfold month_length in *. cbn [Z.eqb Pos.eqb] in Hlen |- *. rewrite is_leap_era.
    revert Hlen. destruct (Z.eqb_spec doy 365) as [E365|]; intros Hlen.
    + by rewrite Hleap.
    + change (is_leap 1) with false in Hlen. simpl in Hlen. destruct (is_leap (yoe + 1)); lia.
  - rewrite (proj2 (Z.leb_gt _ 2)) by lia. split; [lia|]. rewrite before_year_era, before_month_leap by lia.
    rewrite (proj2 (Z.ltb_lt 2 _)), is_leap_era by lia. cbn [andb]. split.
    + rewrite month_length_other by lia. lia.
    + pose proof (before_year_succ yoe) as Hs. destruct (is_leap yoe); lia.
Qed.

Lemma civil_from_days_correct_witness :
  civil_from_days 20695 = (2026, 8, 30) /\ 1 <= 30 <= month_length 2026 8 /\
  ordinal 2026 8 30 = ordinal 1970 1 1 + 20695.
Proof.
  split; [vm_compute; reflexivity|].
  destruct (civil_from_days_correct 20695 2026 8 30 ltac:(lia) ltac:(vm_compute; reflexivity)) as (_ & Hd & Ho).
  split; [exact Hd|exact Ho].
Defined.

(** ** Names of artifacts *)

Lemma bytes_app a b :
  Text.bytes_of_string (String.append a b) = Text.bytes_of_string a ++ Text.bytes_of_string b.
Proof. induction a as [|c a IH]; [done|]. simpl. by rewrite <- IH. Qed.

Lemma string_of_bytes_of s : Text.string_of_bytes (Text.bytes_of_string s) = s.
Proof. apply String.string_of_list_ascii_of_string. Qed.

Lemma strip_prefix_app p l : Text.strip_prefix p (p ++ l) = Some l.
Proof. induction p as [|x p IH]; [done|]. simpl. by rewrite Ascii.eqb_refl. Qed.

Lemma strip_prefix_append p s : strip_prefix p (String.append p s) = Some s.
Proof. unfold strip_prefix. rewrite bytes_app, strip_prefix_app. simpl. by rewrite string_of_bytes_of. Qed.

Lemma append_assoc a b c : String.append (String.append a b) c = String.append a (String.append b c).
Proof. induction a as [|x a IH]; [done|]. exact (f_equal (String x) IH). Qed.

Lemma starts_with_dot_append a b :
  starts_with_dot a = false -> starts_with_dot b = false -> starts_with_dot (String.append a b) = false.
Proof. by destruct a. Qed.

Lemma is_empty_append a b : Text.is_empty b = false -> Text.is_empty (String.append a b) = false.
Proof. by destruct a. Qed.

Lemma pretty_N_no_dot (n : N) : starts_with_dot (pretty n) = false.
Proof.
  assert (forall x s, starts_with_dot s = false -> starts_with_dot (pretty_N_go x s) = false) as Hgo.
  { intros x. induction (N.lt_wf_0 x) as [x _ IH]; intros s Hs.
    assert (x = 0 \/ 0 < x)%N as [->|Hx] by lia; [by rewrite pretty_N_go_0|].
    rewrite pretty_N_go_step by done. apply IH; [by apply N.div_lt|].
    simpl. unfold pretty_N_char. by repeat case_match. }
  unfold pretty, pretty_N. case_decide; [done|]. by apply Hgo.
Qed.

Lemma zero_padded_no_dot width n : starts_with_dot (zero_padded width n) = false.
Proof.
  unfold zero_padded. apply starts_with_dot_append.
  - unfold Render.zeros, Text.string_of_bytes. by destruct (Z.to_nat _).
  - unfold Render.show_i64. destruct n as [|p|p]; [done| |done]. apply (pretty_N_no_dot (N.pos p)).
Qed.

Lemma utc_timestamp_no_dot t s :
  starts_with_dot (String.append (utc_timestamp t) s) = false /\
  Text.is_empty (String.append (utc_timestamp t) s) = false.
Proof.
  unfold utc_timestamp. destruct (civil_from_days _) as [[y m] d]. rewrite !append_assoc. split.
  - repeat (apply starts_with_dot_append; [apply zero_padded_no_dot|]). reflexivity.
  - do 3 apply is_empty_append. reflexivity.
Qed.

(** A name that ends in an extension of ours ends in no transient suffix. *)
Lemma ends_with_extension stem encrypted :
  existsb (ends_with (String.append stem (String.append "." (extension encrypted)))) TEMP_ARTIFACT_SUFFIXES = false.
Proof.
  unfold ends_with. rewrite bytes_app, reverse_app.
  generalize (reverse (Text.bytes_of_string stem)). intros l. by destruct encrypted.
Qed.

Lemma artifact_named t rest encrypted :
  is_backup_artifact (String.append OTEL_DB_PREFIX (String.append (utc_timestamp t)
    (String.append rest (String.append "." (extension encrypted))))) = true.
Proof.
  unfold is_backup_artifact. rewrite strip_prefix_append.
  destruct (utc_timestamp_no_dot t (String.append rest (String.append "." (extension encrypted)))) as [-> ->].
  rewrite <- !append_assoc, append_assoc, ends_with_extension. done.
Qed.

Lemma append_inj_l a b c : String.append a b = String.append a c -> b = c.
Proof. induction a as [|x a IH]; [done|]. intros H. injection H as H. auto. Qed.

Lemma append_inj_r a b c : String.append a c = String.append b c -> a = b.
Proof.
  intros H. apply (f_equal Text.bytes_of_string) in H. rewrite !bytes_app in H. apply app_inv_tail in H.
  apply (f_equal Text.string_of_bytes) in H. by rewrite !string_of_bytes_of in H.
Qed.

Lemma numbered_inj t encrypted i j : numbered_filename t encrypted i = numbered_filename t encrypted j -> i = j.
Proof.
  unfold numbered_filename. intros H. do 3 apply append_inj_l in H. apply append_inj_r in H.
  unfold Render.show_u64 in H. by apply (inj pretty) in H.
Qed.

(** [fuel] different names cannot all be among fewer taken ones. *)
Lemma first_free_spec fuel taken (name : N -> string) : forall counter,
  match first_free fuel taken name counter with
  | Some p => taken p = false /\ exists i, p = name i /\ (counter <= i < counter + N.of_nat fuel)%N
  | None => forall i, (counter <= i < counter + N.of_nat fuel)%N -> taken (name i) = true
  end.
Proof.
  induction fuel as [|fuel IH]; intros counter; cbn [first_free]; [intros i Hi; lia|].
  destruct (taken (name counter)) eqn:Ht.
  - specialize (IH (counter + 1)%N). destruct (first_free fuel taken name (counter + 1)).
    + destruct IH as (? & i & -> & Hi). split; [done|]. exists i. split; [done|lia].
    + intros i Hi. destruct (decide (i = counter)) as [->|]; [done|]. apply IH. lia.
  - split; [done|]. exists counter. split; [done|lia].
Qed.

(** The search ends with a free name when at most [length names] are taken. *)
Lemma unique_path_spec names taken epoch_secs encrypted :
  (forall p, taken p = true -> p ∈ names) ->
  exists p, unique_backup_path (S (length names)) taken epoch_secs encrypted = Some p /\
    taken p = false /\ is_backup_artifact p = true.
Proof.
  intros Htaken. unfold unique_backup_path. destruct (taken (backup_filename epoch_secs encrypted)) eqn:Hb.
  2: { eexists. split; [done|]. split; [done|]. apply (artifact_named epoch_secs ""). }
  pose proof (first_free_spec (S (length names)) taken (numbered_filename epoch_secs encrypted) 1) as H.
  destruct (first_free _ _ _ _) as [p|].
  - destruct H as (Hp & i & -> & _). eexists. split; [done|]. split; [done|].
    unfold numbered_filename.
    replace (String.append "-" (String.append (Render.show_u64 i) (String.append "." (extension encrypted))))
      with (String.append (String.append "-" (Render.show_u64 i)) (String.append "." (extension encrypted)))
      by apply append_assoc.
    apply artifact_named.
  - exfalso.
    set (l := (fun i => numbered_filename epoch_secs encrypted (N.of_nat i)) <$> seq 1 (S (length names))).
    assert (NoDup l) as Hnd.
    { apply NoDup_fmap_2; [|apply NoDup_seq]. intros i j Hij. apply numbered_inj in Hij. lia. }
    assert (length l <= length names)%nat as Hlen.
    { apply submseteq_length, NoDup_submseteq; [done|]. intros x Hx.
      apply list_elem_of_fmap in Hx as (i & -> & Hi%elem_of_seq). apply Htaken, H. lia. }
    unfold l in Hlen. rewrite length_fmap, length_seq in Hlen. lia.
Qed.

(** A backup never overwrites another: in a directory with [n] names, the
    search ends after at most [n + 1] counters with a name that is not taken,
    and that name counts as a backup for the retention. *)
Theorem unique_backup_path_fresh names epoch_secs encrypted :
  exists p, unique_backup_path (S (length names)) (fun p => bool_decide (p ∈ names)) epoch_secs encrypted = Some p /\
    p ∉ names /\ is_backup_artifact p = true.
Proof.
  destruct (unique_path_spec names (fun p => bool_decide (p ∈ names)) epoch_secs encrypted) as (p & Hp & Hfree & Ha).
  { intros p. by rewrite bool_decide_eq_true. }
  exists p. by apply bool_decide_eq_false in Hfree.
Qed.

(** ** Retention of artifacts *)

#[export] Instance newer_first_trans : Transitive newer_first.
Proof.
  intros [na ta] [nb tb] [nc tc]. unfold newer_first, modified_le. simpl.
  intros [H1 H2] [H3 H4]. destruct ta as [x|], tb as [y|], tc as [z|]; bool_to_prop; try done; (split; [by try (apply N.leb_le; lia)|]).
  - intros Hxz%N.leb_le. assert (x = y /\ y = z) as [-> ->] by lia. etrans; [apply H4|apply H2]; by apply N.leb_le.
  - intros _. etrans; [apply H4|apply H2]; done.
Qed.

#[export] Instance newer_first_total : Total newer_first.
Proof.
  intros [na ta] [nb tb]. unfold newer_first, modified_le. simpl.
  destruct ta as [x|], tb as [y|]; [|by left|by right|].
  - destruct (N.lt_total x y) as [H|[->|H]].
    + right. split; [apply N.leb_le; lia|]. intros ?%N.leb_le. lia.
    + destruct (total String.le na nb); [right|left]; split; try done; apply N.leb_refl.
    + left. split; [apply N.leb_le; lia|]. intros ?%N.leb_le. lia.
  - destruct (total String.le na nb); [right|left]; by split.
Qed.

Lemma remove_files_spec can_remove victims : forall dir dir' r,
  remove_files can_remove victims dir = (dir', r) ->
  exists gone, gone `prefix_of` victims /\
    dir' = filter (fun e => entry_name e ∉ entry_name <$> gone) dir /\
    forall n, r = Ok n -> gone = victims /\ n = length victims.
Proof.
  induction victims as [|v victims IH]; intros dir dir' r H; simpl in H.
  { simplify_eq. exists []. split_and!; [done| |by intros n [= <-]].
    rewrite filter_all; [done|]. apply Forall_forall. intros e _. apply not_elem_of_nil. }
  destruct (can_remove (entry_name v)).
  - destruct (remove_files can_remove victims _) as [d1 r1] eqn:Hr.
    destruct (IH _ _ _ Hr) as (gone & Hp & -> & Hn).
    assert (dir' = filter (fun e => entry_name e ∉ entry_name <$> gone)
                     (filter (fun e => entry_name e <> entry_name v) dir)) as ->
      by (by destruct r1; simplify_eq).
    exists (v :: gone). split_and!; [by apply prefix_cons| |].
    + rewrite list_filter_filter. apply list_filter_iff. intros e. set_solver.
    + intros n ->. destruct r1 as [n1|]; simplify_eq. by destruct (Hn n1 eq_refl) as [-> ->].
  - simplify_eq. exists []. split_and!; [apply prefix_nil| |done].
    rewrite filter_all; [done|]. apply Forall_forall. intros e _. apply not_elem_of_nil.
Qed.

Abbreviation artifact := (fun e => is_backup_artifact (entry_name e) = true) (only parsing).

(** Distinct names identify entries. *)
Lemma named_unique dir e e' :
  NoDup (entry_name <$> dir) -> e ∈ dir -> e' ∈ dir -> entry_name e = entry_name e' -> e = e'.
Proof.
  intros Hnd He He' Heq. apply list_elem_of_lookup in He as [i Hi], He' as [j Hj].
  assert (i = j) as ->; [|congruence].
  eapply NoDup_lookup; [exact Hnd|..]; rewrite list_lookup_fmap; [by rewrite Hi|rewrite Hj; simpl; by rewrite Heq].
Qed.

(** Whatever victims are gone, the first [keep] of the sorted artifacts stay. *)
Lemma newest_survive dir sorted keep gone rest e :
  (forall e, e ∈ sorted -> is_backup_artifact (entry_name e) = true /\ e ∈ dir) ->
  NoDup (entry_name <$> sorted) -> StronglySorted newer_first sorted ->
  drop keep sorted = gone ++ rest -> e ∈ gone ->
  (keep <= length (filter (fun k => is_backup_artifact (entry_name k) = true /\ newer_first k e)
             (filter (fun e => entry_name e ∉ entry_name <$> gone) dir)))%nat.
Proof.
  intros Hin Hnd Hs Hgone He. assert (e ∈ drop keep sorted) as Hd by (rewrite Hgone; set_solver).
  rewrite <- (take_drop keep sorted) in Hs, Hnd. rewrite fmap_app in Hnd.
  apply NoDup_app in Hnd as (Hnd & Hdisj & _). apply StronglySorted_app in Hs as (Hnewer & _ & _).
  assert (length (take keep sorted) = keep) as Hlen.
  { rewrite length_take. apply list_elem_of_lookup in Hd as [i Hi]. rewrite lookup_drop in Hi.
    apply lookup_lt_Some in Hi. lia. }
  rewrite <- Hlen at 1. apply submseteq_length, NoDup_submseteq; [by eapply NoDup_fmap_1|].
  intros k Hk. assert (k ∈ sorted) as [Hart Hkd]%Hin by (rewrite <- (take_drop keep sorted); set_solver).
  apply list_elem_of_filter. split; [split; [done|by apply Hnewer]|].
  apply list_elem_of_filter. split; [|done]. intros Hx.
  apply (Hdisj (entry_name k)); [apply list_elem_of_fmap; by exists k|]. rewrite Hgone, fmap_app. set_solver.
Qed.

Lemma length_removed dir victims :
  NoDup (entry_name <$> dir) -> NoDup (entry_name <$> victims) -> (forall e, e ∈ victims -> e ∈ dir) ->
  length (filter (fun e => entry_name e ∉ entry_name <$> victims) dir) = (length dir - length victims)%nat.
Proof.
  intros Hnd Hnv Hsub.
  assert (dir ≡ₚ victims ++ filter (fun e => entry_name e ∉ entry_name <$> victims) dir) as Hp.
  { apply NoDup_Permutation; [by eapply NoDup_fmap_1| |].
    - apply NoDup_app. split_and!; [by eapply NoDup_fmap_1| |apply NoDup_filter; by eapply NoDup_fmap_1].
      intros e He (Hx & _)%list_elem_of_filter. apply Hx, list_elem_of_fmap. by exists e.
    - intros e. rewrite elem_of_app, list_elem_of_filter. split; [|intros [?|[_ ?]]; auto].
      intros He. destruct (decide (entry_name e ∈ entry_name <$> victims)) as [Hx|Hx]; [left|by right].
      apply list_elem_of_fmap in Hx as (v & Hname & Hv). rewrite (named_unique dir e v); auto. }
  rewrite Hp at 2. rewrite length_app. lia.
Qed.

Lemma prune_spec can_remove dir keep dir' r :
  keep <> O -> NoDup (entry_name <$> dir) -> prune_old_backups can_remove dir keep = (dir', r) ->
  dir' `sublist_of` dir /\
  (forall e, e ∈ dir -> e ∉ dir' ->
     is_backup_artifact (entry_name e) = true /\
     (keep <= length (filter (fun k => is_backup_artifact (entry_name k) = true /\ newer_first k e) dir'))%nat) /\
  forall n, r = Ok n ->
    (n = length (filter artifact dir) - keep)%nat /\ (length dir' = length dir - n)%nat.
Proof.
  intros Hk Hnd. unfold prune_old_backups. destruct (Nat.eqb_spec keep 0) as [|_]; [done|].
  set (arts := filter artifact dir). set (sorted := merge_sort newer_first arts).
  intros H. apply remove_files_spec in H as (gone & [rest Hgone] & -> & Hn).
  pose proof (merge_sort_Permutation newer_first arts : sorted ≡ₚ arts) as Hperm.
  assert (NoDup (entry_name <$> sorted)) as Hnds.
  { rewrite Hperm. eapply sublist_NoDup; [exact Hnd|]. apply fmap_sublist, sublist_filter. }
  assert (forall e, e ∈ sorted -> is_backup_artifact (entry_name e) = true /\ e ∈ dir) as Hin.
  { intros e He. rewrite Hperm in He. by apply list_elem_of_filter in He. }
  assert (forall e, e ∈ drop keep sorted -> e ∈ sorted) as Hdrop.
  { intros e He. rewrite <- (take_drop keep sorted). set_solver. }
  split_and!; [apply sublist_filter| |].
  - intros e He Hne. assert (e ∈ gone) as Hg.
    { destruct (decide (entry_name e ∈ entry_name <$> gone)) as [Hx|Hx];
        [|destruct Hne; by apply list_elem_of_filter].
      apply list_elem_of_fmap in Hx as (g & Hname & Hg).
      rewrite (named_unique dir e g); [done..| |done]. apply Hin, Hdrop. rewrite Hgone. set_solver. }
    split; [apply Hin, Hdrop; rewrite Hgone; set_solver|].
    eapply newest_survive; [exact Hin|exact Hnds| |exact Hgone|exact Hg].
    apply StronglySorted_merge_sort; apply _.
  - intros n ->. destruct (Hn n eq_refl) as [-> ->]. rewrite length_removed; [|done| |intros e He; by apply Hin, Hdrop].
    + rewrite length_drop. by rewrite Hperm.
    + eapply sublist_NoDup; [exact Hnds|]. apply fmap_sublist, sublist_drop.
Qed.

(** The only newest artifact survives. *)
Lemma prune_survives can_remove dir keep dir' r e :
  NoDup (entry_name <$> dir) -> prune_old_backups can_remove dir keep = (dir', r) ->
  e ∈ dir -> (forall k, k ∈ dir -> newer_first k e -> k = e) -> e ∈ dir'.
Proof.
  intros Hnd H He Hnewest. destruct (decide (keep = O)) as [->|Hk]; [unfold prune_old_backups in H; by simplify_eq/=|].
  destruct (prune_spec _ _ _ _ _ Hk Hnd H) as (Hsub & Hgone & _).
  destruct (decide (e ∈ dir')) as [|Hne]; [done|]. destruct (Hgone e He Hne) as [_ Hlen].
  destruct (filter _ dir') as [|k l] eqn:Hf; [simpl in Hlen; lia|].
  assert (k ∈ k :: l) as Hin by set_solver. rewrite <- Hf in Hin.
  apply list_elem_of_filter in Hin as [[_ Hnew] Hin]. rewrite (Hnewest k) in Hin; [done| |done].
  eapply elem_of_submseteq; [done|]. by apply sublist_submseteq.
Qed.

(** Retention never deletes more than it may: whatever fails on the way, the
    remaining entries are those of the directory in their order, a deleted entry
    was a completed artifact and at least [keep] artifacts that are newer (by
    modification time, then name) are still there; and on success the report
    counts the deletions and at most [keep] artifacts remain. *)
Theorem prune_keeps_newest can_remove dir keep dir' r :
  keep <> O -> NoDup (entry_name <$> dir) -> prune_old_backups can_remove dir keep = (dir', r) ->
  dir' `sublist_of` dir /\
  (forall e, e ∈ dir -> e ∉ dir' ->
     is_backup_artifact (entry_name e) = true /\
     (keep <= length (filter (fun k => is_backup_artifact (entry_name k) = true /\ newer_first k e) dir'))%nat) /\
  forall n, r = Ok n ->
    (n = length (filter artifact dir) - keep)%nat /\ (length dir' = length dir - n)%nat.
Proof. apply prune_spec. Qed.

Definition demo_dir : list Entry :=
  [mk_entry "otel-logs.db" (Some 9%N); mk_entry "otel-logs.db.20260101T000000Z.bak" (Some 1%N);
   mk_entry "otel-logs.db.20260103T000000Z.otsb" (Some 3%N);
   mk_entry "otel-logs.db.decrypting" (Some 0%N); mk_entry "otel-logs.db.20260102T000000Z.bak" (Some 2%N)].

Lemma prune_keeps_newest_witness :
  let (dir', r) := prune_old_backups (fun _ => true) demo_dir 2 in
  r = Ok 1%nat /\ dir' `sublist_of` demo_dir /\ length dir' = 4%nat.
Proof.
  destruct (prune_old_backups (fun _ => true) demo_dir 2) as [dir' r] eqn:E.
  destruct (prune_keeps_newest (fun _ => true) demo_dir 2 dir' r ltac:(done)
    ltac:(apply (bool_decide_unpack _); vm_compute; exact I) E) as (Hsub & _ & Hn).
  assert (r = Ok 1%nat) as Hr by (vm_compute in E; injection E as <- <-; reflexivity).
  split; [exact Hr|]. split; [exact Hsub|]. destruct (Hn _ Hr) as [_ Hl]. exact Hl.
Defined.

End BackupFiles.
