(* ===== verification/Restore.v ===== *)
(** * Taking and restoring a backup ([crates/otel-sqlite-storage/src/backup.rs])

    [verify], [backup_to] and [restore_into] on a file system of named files.
    SQLite's checks of a file are an oracle on its bytes, SHA-256 and AES-GCM
    are parameters, and what the copying steps leave on disk, faithful or not,
    is the environment's choice.  So are the two things a disk does to the
    names beside a database: a connection that is opened read-only may leave
    [-wal] and [-shm] files, and the guards' best-effort removals may fail. *)

From S2P Require Import Prelude Time Model Text Render Backup.

Module Restore.
Import Backup.

Local Open Scope string_scope.
Local Open Scope list_scope.

Record RowCounts := {
  rc_log_events : Z;
  rc_log_resources : Z;
  rc_fts_rows : Z;
}.

#[export] Instance RowCounts_eq_dec : EqDecision RowCounts.
Proof. solve_decision. Defined.

Definition RowCounts_default : RowCounts := {| rc_log_events := 0; rc_log_resources := 0; rc_fts_rows := 0 |}.

(** What SQLite answers about a file: the pragmas, the newest stamp, and the
    counts when the canonical tables exist. *)
Record Checks := {
  ck_integrity : string;
  ck_foreign_keys : Z;
  ck_journal_mode : string;
  ck_schema_version : option string;
  ck_counts : option RowCounts;
}.

Record VerifyReport := {
  integrity : string;
  foreign_key_violations : Z;
  journal_mode : string;
  schema_version : option string;
  is_otel_schema : bool;
  row_counts : RowCounts;
  sha256 : string;
}.

(** ** Files *)

Abbreviation Files := (gmap string (list Model.byte)) (only parsing).

Definition TARGET : string := "otel-logs.db".
Definition DECRYPTING : string := "otel-logs.db.decrypting".

Definition sidecars (path : string) : list string :=
  String.append path <$> ["-wal"; "-shm"; "-journal"].

(** What the disk does: which names can be removed, and which files opening a
    database read-only leaves beside it. *)
Record Disk := {
  removable : string -> bool;
  leaves : string -> Files;
}.

(** [let _ = fs::remove_file(..)]. *)
Definition try_remove (disk : Disk) (name : string) (fs : Files) : Files :=
  if removable disk name then delete name fs else fs.

(** [RemoveOnDrop]. *)
Definition remove_artifact (disk : Disk) (path : string) (fs : Files) : Files :=
  foldr (try_remove disk) fs (path :: sidecars path).

(** [open_readonly]: sidecars may appear, none that exists is replaced. *)
Definition opened (disk : Disk) (path : string) (fs : Files) : Files :=
  fs ∪ filter (fun kv => kv.1 ∈ sidecars path) (leaves disk path).

Section restore.
Context (sqlite : list Model.byte -> option Checks) (sha : list Model.byte -> string).
Context (decrypt : list Model.byte -> list Model.byte -> list Model.byte -> option (list Model.byte)).

(** What [verify] reports of a file's bytes. *)
Definition report (file : list Model.byte) : result BackupError VerifyReport :=
  match sqlite file with
  | None => Err BackupSqlite
  | Some c =>
      Ok {| integrity := ck_integrity c; foreign_key_violations := ck_foreign_keys c;
            journal_mode := ck_journal_mode c; schema_version := ck_schema_version c;
            is_otel_schema := bool_decide (is_Some (ck_counts c));
            row_counts := default RowCounts_default (ck_counts c); sha256 := sha file |}
  end.

Definition verify (disk : Disk) (path : string) (file : list Model.byte) (fs : Files)
    : Files * result BackupError VerifyReport :=
  (opened disk path fs, report file).

(** The two gates every verified file passes. *)
Definition gate (path : string) (v : VerifyReport) : result BackupError unit :=
  if negb (String.eqb (integrity v) "ok") then Err (Integrity path (integrity v))
  else if (0 <? foreign_key_violations v)%Z then Err (ForeignKeyViolations path (foreign_key_violations v))
  else Ok tt.

(** ** [backup_to] *)

(** What the environment decides: the files the online backup and the
    normalization leave under the destination's names and whether each
    succeeds, and whether the permissions can be set. *)
Record CopyEnv := {
  copied : Files;
  copy_ok : bool;
  normalized : Files;
  normalize_ok : bool;
  permissions_ok : bool;
  copy_disk : Disk;
}.

(** Only the destination's own names are written. *)
Definition owned (path : string) (fs : Files) : Files :=
  filter (fun kv => kv.1 ∈ path :: sidecars path) fs.

Definition backup_to (source dest : string) (env : CopyEnv) (fs : Files)
    : Files * result BackupError VerifyReport :=
  let disk := copy_disk env in
  match fs !! dest with
  | Some _ => (fs, Err (DestinationExists dest))
  | None =>
      match fs !! source with
      | None => (fs, Err BackupIo)
      | Some bytes =>
          let fs := opened disk source fs in
          match sqlite bytes with
          | None => (fs, Err BackupSqlite)
          | Some c =>
              if negb (String.eqb (ck_integrity c) "ok") then (fs, Err (Integrity source (ck_integrity c)))
              else if (0 <? ck_foreign_keys c)%Z then (fs, Err (ForeignKeyViolations source (ck_foreign_keys c)))
              else
                let fs := owned dest (copied env) ∪ fs in
                if negb (copy_ok env) then (remove_artifact disk dest fs, Err BackupSqlite)
                else
                  let fs := owned dest (normalized env) ∪ fs in
                  if negb (normalize_ok env) then (remove_artifact disk dest fs, Err BackupSqlite)
                  else if negb (permissions_ok env) then (remove_artifact disk dest fs, Err BackupIo)
                  else
                    match fs !! dest with
                    | None => (remove_artifact disk dest fs, Err BackupIo)
                    | Some snapshot =>
                        match verify disk dest snapshot fs with
                        | (fs, Err e) => (remove_artifact disk dest fs, Err e)
                        | (fs, Ok v) =>
                            match gate dest v with
                            | Err e => (remove_artifact disk dest fs, Err e)
                            | Ok _ => (fs, Ok v)
                            end
                        end
                    end
          end
      end
  end.

(** ** [restore_into] *)

(** The files of the destination directory; [None] when it does not exist. *)
Abbreviation Dir := (option Files) (only parsing).

Record RestoreEnv := {
  mkdir_ok : bool;
  temp_ok : bool;  (** the decrypted temporary file can be written *)
  temp_left : option (list Model.byte);  (** what a decryption that fails leaves of it *)
  written : list Model.byte;  (** what [fs::copy] leaves in the target *)
  write_ok : bool;
  target_permissions_ok : bool;
  restore_disk : Disk;
}.

Record RestoreReport := {
  verified_before : VerifyReport;
  verified_after : VerifyReport;
}.

(** From the plaintext to the checked target: [fs] is the destination directory,
    and [inside] says whether the plaintext is the temporary file in it. *)
Definition install (env : RestoreEnv) (inside : bool) (plain_path : string) (plain : list Model.byte) (fs : Files)
    : Files * result BackupError RestoreReport :=
  let disk := restore_disk env in
  let (beside, r) := verify disk plain_path plain fs in
  let fs := if inside then beside else fs in
  match r with
  | Err e => (fs, Err e)
  | Ok before =>
      match gate plain_path before with
      | Err e => (fs, Err e)
      | Ok _ =>
          let fs := <[TARGET := written env]> fs in
          let fail (fs : Files) e := (remove_artifact disk TARGET fs, Err e) in
          if negb (write_ok env) then fail fs BackupIo
          else if negb (target_permissions_ok env) then fail fs BackupIo
          else
            match verify disk TARGET (written env) fs with
            | (fs, Err e) => fail fs e
            | (fs, Ok after_) =>
                match gate TARGET after_ with
                | Err e => fail fs e
                | Ok _ =>
                    if negb (String.eqb (sha256 after_) (sha256 before)) then
                      fail fs (ContentMismatch TARGET "restored bytes do not match the verified backup")
                    else if negb (bool_decide (row_counts after_ = row_counts before)) then
                      fail fs (ContentMismatch TARGET "restored row counts do not match the verified backup")
                    else (fs, Ok {| verified_before := before; verified_after := after_ |})
                end
            end
      end
  end.

Definition restore_into (backup : list Model.byte) (dest : Dir) (key : option (N * list Model.byte))
    (env : RestoreEnv) : Dir * result BackupError RestoreReport :=
  let files := default ∅ dest in
  match files !! TARGET with
  | Some _ => (dest, Err (DestinationExists TARGET))
  | None =>
      if negb (bool_decide (files = ∅)) then (dest, Err (DestinationNotEmpty "directory"))
      else if negb (mkdir_ok env) then (dest, Err BackupIo)
      else
        match key with
        | None => let (fs, r) := install env false "backup" backup ∅ in (Some fs, r)
        | Some (declared, contents) =>
            (** [TempGuard] tries to remove the temporary file on every path. *)
            let drop_temp := try_remove (restore_disk env) DECRYPTING in
            let partial_ := match temp_left env with Some b => {[DECRYPTING := b]} | None => ∅ end in
            let r := let? k := read_key declared contents in decrypt_to decrypt k backup in
            match r with
            | Err e => (Some (drop_temp partial_), Err e)
            | Ok plain =>
                if negb (temp_ok env) then (Some (drop_temp partial_), Err BackupIo)
                else
                  let (fs, r) := install env true DECRYPTING plain {[DECRYPTING := plain]} in
                  (Some (drop_temp fs), r)
            end
        end
  end.

(** ** Properties *)

(** A file that passed both gates. *)
Definition sound_file (file : list Model.byte) : Prop :=
  exists c, sqlite file = Some c /\ ck_integrity c = "ok" /\ (ck_foreign_keys c <= 0)%Z.

Lemma gate_ok path file v :
  report file = Ok v -> gate path v = Ok tt -> sound_file file /\ sha256 v = sha file.
Proof.
  unfold report, gate. destruct (sqlite file) as [c|] eqn:Hc; [|done]. intros [= <-]. simpl.
  destruct (String.eqb_spec (ck_integrity c) "ok"); simpl; [|done].
  destruct (Z.ltb_spec 0 (ck_foreign_keys c)); [done|]. intros _. split; [|done]. by exists c.
Qed.

Lemma try_remove_lookup disk path fs name :
  try_remove disk path fs !! name =
    if bool_decide (name = path /\ removable disk name = true) then None else fs !! name.
Proof.
  unfold try_remove. case_bool_decide as Hb.
  - destruct Hb as [-> ->]. by rewrite lookup_delete_eq.
  - destruct (removable disk path) eqn:E; [|done]. apply lookup_delete_ne. naive_solver.
Qed.

Lemma remove_artifact_lookup disk path fs name :
  remove_artifact disk path fs !! name =
    if bool_decide (name ∈ path :: sidecars path /\ removable disk name = true) then None else fs !! name.
Proof.
  unfold remove_artifact. induction (path :: sidecars path) as [|x l IH]; cbn [foldr].
  { case_bool_decide as Hb; [|done]. by destruct Hb as [?%not_elem_of_nil _]. }
  rewrite try_remove_lookup, IH. repeat case_bool_decide; set_solver.
Qed.

Lemma opened_kept disk path fs name b : fs !! name = Some b -> opened disk path fs !! name = Some b.
Proof. intros H. unfold opened. by apply lookup_union_Some_l. Qed.

Lemma opened_new disk path fs name :
  fs !! name = None -> is_Some (opened disk path fs !! name) ->
  name ∈ sidecars path /\ is_Some (leaves disk path !! name).
Proof.
  intros H. unfold opened. rewrite lookup_union_r by done. intros [b Hb].
  apply map_lookup_filter_Some in Hb as [Hb Hs]. split; [exact Hs|by exists b].
Qed.

Lemma opened_other disk path fs name : name ∉ sidecars path -> opened disk path fs !! name = fs !! name.
Proof.
  intros H. destruct (fs !! name) as [b|] eqn:E; [by apply opened_kept|].
  apply eq_None_not_Some. intros Hs. by apply opened_new in Hs as [? _].
Qed.

Lemma owned_lookup path fs rest name :
  name ∉ path :: sidecars path -> (owned path fs ∪ rest) !! name = rest !! name.
Proof.
  intros Hn. apply lookup_union_r. unfold owned. apply map_lookup_filter_None. right. intros x _ Hin. done.
Qed.

(** Outside the destination's names the files are the same, but for sidecars
    that opening the source may leave beside it. *)
Definition same_elsewhere (source dest : string) (fs fs' : Files) : Prop :=
  forall name, name ∉ dest :: sidecars dest ->
    (forall b, fs !! name = Some b -> fs' !! name = Some b) /\
    (name ∉ sidecars source -> fs' !! name = fs !! name).

(** No name of the destination that can be removed is left. *)
Definition absent (disk : Disk) (dest : string) (fs : Files) : Prop :=
  forall name, name ∈ dest :: sidecars dest -> removable disk name = true -> fs !! name = None.

Lemma removed_clean disk source dest fs fs1 :
  same_elsewhere source dest fs fs1 ->
  same_elsewhere source dest fs (remove_artifact disk dest fs1) /\
  absent disk dest (remove_artifact disk dest fs1).
Proof.
  intros H. split; intros name Hn; rewrite remove_artifact_lookup.
  - rewrite bool_decide_false by naive_solver. by apply H.
  - intros Hr. by rewrite bool_decide_true.
Qed.

Lemma same_elsewhere_owned source dest fs fs1 fs2 :
  same_elsewhere source dest fs fs1 -> same_elsewhere source dest fs (owned dest fs2 ∪ fs1).
Proof. intros H name Hn. rewrite owned_lookup by done. by apply H. Qed.

Lemma same_elsewhere_opened disk source dest fs : same_elsewhere source dest fs (opened disk source fs).
Proof. intros name _. split; [intros b; apply opened_kept|apply opened_other]. Qed.

Lemma same_elsewhere_verified disk source dest fs fs1 :
  same_elsewhere source dest fs fs1 -> same_elsewhere source dest fs (opened disk dest fs1).
Proof.
  intros H name Hn. rewrite opened_other; [by apply H|]. intros Hs. apply Hn. by right.
Qed.

(** A backup is all or nothing: a call that fails leaves no file under the
    destination's name or its sidecars' that could be removed, unless the
    destination was there before, and one that succeeds leaves a destination
    that passed the integrity and foreign-key checks with the reported hash; in
    both cases no other file changes, the source's included (sidecars of the
    source may appear), and an existing destination is never touched. *)
Theorem backup_all_or_nothing source dest env fs fs' r :
  backup_to source dest env fs = (fs', r) ->
  same_elsewhere source dest fs fs' /\
  match r with
  | Ok v => fs !! dest = None /\
      exists snapshot, fs' !! dest = Some snapshot /\ sound_file snapshot /\ sha256 v = sha snapshot
  | Err _ => fs' = fs \/ fs !! dest = None /\ (fs' = opened (copy_disk env) source fs \/ absent (copy_disk env) dest fs')
  end.
Proof.
  unfold backup_to. intros H. cbv zeta in H.
  assert (same_elsewhere source dest fs fs) as H0 by (by intros name _).
  destruct (fs !! dest) as [d|] eqn:Hd; [simplify_eq; split; [done|by left]|].
  destruct (fs !! source) as [b|]; [|simplify_eq; split; [done|by left]].
  pose proof (same_elsewhere_opened (copy_disk env) source dest fs) as Hop.
  destruct (sqlite b) as [c|]; [|simplify_eq; by auto].
  destruct (negb (String.eqb (ck_integrity c) "ok")); [simplify_eq; by auto|].
  destruct (0 <? ck_foreign_keys c)%Z; [simplify_eq; by auto|].
  pose proof (same_elsewhere_owned _ _ _ _ (copied env) Hop) as H1.
  pose proof (same_elsewhere_owned _ _ _ _ (normalized env) H1) as H2.
  revert H1 H2 H. generalize (owned dest (copied env) ∪ opened (copy_disk env) source fs). intros fs1 H1.
  generalize (owned dest (normalized env) ∪ fs1). intros fs2 H2 H.
  pose proof (same_elsewhere_verified (copy_disk env) _ _ _ _ H2) as H3.
  pose proof (removed_clean (copy_disk env) _ _ _ _ H1) as [? ?].
  pose proof (removed_clean (copy_disk env) _ _ _ _ H2) as [? ?].
  pose proof (removed_clean (copy_disk env) _ _ _ _ H3) as [? ?].
  destruct (copy_ok env), (normalize_ok env), (permissions_ok env); simpl in H; try (simplify_eq; by auto).
  destruct (fs2 !! dest) as [snap|] eqn:Hs; [|simplify_eq; by auto].
  unfold verify in H. destruct (report snap) as [v|] eqn:Hv; [|simplify_eq; by auto].
  destruct (gate dest v) as [[]|] eqn:Hg; [|simplify_eq; by auto]. simplify_eq.
  split; [done|]. split; [done|]. exists snap. split; [by apply opened_kept|]. by eapply gate_ok.
Qed.

(** ** What a restore leaves in its directory *)

(** Names a guard or SQLite may leave: one whose removal fails, or a sidecar of
    the temporary file, which no guard removes. *)
Definition left_behind (env : RestoreEnv) (name : string) : Prop :=
  (name ∈ DECRYPTING :: TARGET :: sidecars TARGET /\ removable (restore_disk env) name = false) \/
  (name ∈ sidecars DECRYPTING /\ is_Some (leaves (restore_disk env) DECRYPTING !! name)).

(** Sidecars that checking the restored target leaves beside it. *)
Definition target_sidecar (env : RestoreEnv) (name : string) : Prop :=
  name ∈ sidecars TARGET /\ is_Some (leaves (restore_disk env) TARGET !! name).

(** Names that may be in the directory while a restore runs. *)
Definition only (P : string -> Prop) (fs : Files) : Prop := forall name, is_Some (fs !! name) -> P name.

Lemma only_opened disk path P fs :
  only P fs -> only (fun name => P name \/ name ∈ sidecars path /\ is_Some (leaves disk path !! name)) (opened disk path fs).
Proof.
  intros H name Hs. destruct (fs !! name) as [b|] eqn:E; [left; apply H; by exists b|right]. by eapply opened_new.
Qed.

Lemma only_insert P path b fs : only P fs -> only (fun name => name = path \/ P name) (<[path := b]> fs).
Proof.
  intros H name Hs. destruct (decide (name = path)) as [|Hne]; [by left|right]. apply H.
  by rewrite lookup_insert_ne in Hs.
Qed.

(** [P] holds of the directory before the target is written. *)
Lemma install_spec env inside path plain fs fs' r (P : string -> Prop) :
  only P fs ->
  (forall name, P name -> name ∉ TARGET :: sidecars TARGET) ->
  (inside = true -> path = DECRYPTING) ->
  install env inside path plain fs = (fs', r) ->
  match r with
  | Ok v => only (fun name => name = TARGET \/ target_sidecar env name \/ P name \/ left_behind env name) fs' /\
            fs' !! TARGET = Some (written env) /\ sound_file plain /\ sound_file (written env) /\
            sha (written env) = sha plain /\ row_counts (verified_after v) = row_counts (verified_before v)
  | Err _ => only (fun name => P name \/ left_behind env name) fs'
  end.
Proof.
  intros HP Hapart Hin. unfold install, verify. cbv zeta.
  set (fs1 := if inside then opened (restore_disk env) path fs else fs).
  assert (only (fun name => P name \/ left_behind env name) fs1) as H1.
  { unfold fs1. intros name Hn. destruct inside; [|left; by apply HP]. rewrite (Hin eq_refl) in Hn.
    destruct (only_opened _ _ _ _ HP name Hn) as [?|[? ?]]; [by left|by right; right]. }
  set (fs2 := <[TARGET := written env]> fs1).
  pose proof (only_insert _ TARGET (written env) _ H1) as H2. fold fs2 in H2.
  pose proof (only_opened (restore_disk env) TARGET _ _ H2) as H3.
  assert (forall fs0, only (fun name => (name = TARGET \/ P name \/ left_behind env name) \/ target_sidecar env name) fs0 ->
    only (fun name => P name \/ left_behind env name) (remove_artifact (restore_disk env) TARGET fs0)) as Hclean.
  { intros fs0 H0 name. rewrite remove_artifact_lookup. case_bool_decide as Hb; [by intros [? ?]|].
    intros Hn. destruct (H0 name Hn) as [[->|[?|?]]|[Hs _]]; auto.
    - right; left. split; [set_solver|]. apply not_true_is_false. intros ?. apply Hb. split; [by left|done].
    - right; left. split; [set_solver|]. apply not_true_is_false. intros ?. apply Hb. split; [by right|done]. }
  assert (forall fs0, only (fun name => name = TARGET \/ P name \/ left_behind env name) fs0 ->
    only (fun name => P name \/ left_behind env name) (remove_artifact (restore_disk env) TARGET fs0)) as Hclean'.
  { intros fs0 H0. apply Hclean. intros name Hn. left. by apply H0. }
  destruct (report plain) as [before|] eqn:Hb; [|by intros; simplify_eq].
  destruct (gate path before) as [[]|] eqn:Hg; [|by intros; simplify_eq]. fold fs2.
  destruct (write_ok env); simpl; [|intros; simplify_eq; by apply Hclean'].
  destruct (target_permissions_ok env); simpl; [|intros; simplify_eq; by apply Hclean'].
  destruct (report (written env)) as [after_|] eqn:Ha; [|intros; simplify_eq; by apply Hclean].
  destruct (gate TARGET after_) as [[]|] eqn:Hg'; [|intros; simplify_eq; by apply Hclean].
  destruct (String.eqb_spec (sha256 after_) (sha256 before)) as [Hsha|]; simpl; [|intros; simplify_eq; by apply Hclean].
  case_bool_decide as Hrows; simpl; [|intros; simplify_eq; by apply Hclean].
  destruct (gate_ok _ _ _ Hb Hg) as [Hs1 E1]. destruct (gate_ok _ _ _ Ha Hg') as [Hs2 E2].
  intros. simplify_eq. split_and!; [|apply opened_kept; apply lookup_insert_eq|done..|congruence|done].
  intros name Hn. destruct (H3 name Hn) as [[?|[?|?]]|?]; auto.
Qed.

(** A disk that removes what it is told to and leaves nothing beside a database. *)
Definition tidy (disk : Disk) : Prop := (forall name, removable disk name = true) /\ (forall path, leaves disk path = ∅).

Lemma tidy_left env name : tidy (restore_disk env) -> ~ left_behind env name /\ ~ target_sidecar env name.
Proof.
  intros [Hr Hl]. unfold left_behind, target_sidecar. split.
  - intros [[_ Hf]|[_ Hs]]; [by rewrite Hr in Hf|]. rewrite Hl, lookup_empty in Hs. by destruct Hs.
  - intros [_ Hs]. rewrite Hl, lookup_empty in Hs. by destruct Hs.
Qed.

Lemma only_target (b : list Model.byte) fs :
  fs !! TARGET = Some b -> only (fun name => name = TARGET) fs -> fs = {[TARGET := b]}.
Proof.
  intros Ht Ho. apply map_eq. intros name. destruct (decide (name = TARGET)) as [->|Hne].
  - by rewrite lookup_singleton_eq.
  - rewrite lookup_singleton_ne by done. apply eq_None_not_Some. intros Hs. by apply Ho in Hs.
Qed.

Lemma only_nothing (fs : Files) : only (fun _ => False) fs -> fs = ∅.
Proof. intros Ho. apply map_eq. intros name. rewrite lookup_empty. apply eq_None_not_Some. exact (Ho name). Qed.

Lemma only_weaken (P Q : string -> Prop) (fs : Files) : (forall name, P name -> Q name) -> only P fs -> only Q fs.
Proof. intros H Ho name Hn. by apply H, Ho. Qed.

Lemma only_drop_temp env P (fs : Files) :
  (forall name, P name -> name = DECRYPTING \/ left_behind env name) -> only P fs ->
  only (fun name => left_behind env name) (try_remove (restore_disk env) DECRYPTING fs).
Proof.
  intros HP Ho name. rewrite try_remove_lookup. case_bool_decide as Hb; [by intros [? ?]|]. intros Hn.
  destruct (HP name (Ho name Hn)) as [->|?]; [|done]. left. split; [by left|].
  apply not_true_is_false. intros ?. by apply Hb.
Qed.

(** What a restore that was let into an empty directory left there. *)
Definition restored (backup : list Model.byte) (key : option (N * list Model.byte)) (env : RestoreEnv)
    (files : Files) (r : result BackupError RestoreReport) : Prop :=
  match r with
  | Ok v => only (fun name => name = TARGET \/ target_sidecar env name \/ left_behind env name) files /\
      files !! TARGET = Some (written env) /\
      exists plain,
        match key with
        | None => plain = backup
        | Some (declared, contents) =>
            exists k, read_key declared contents = Ok k /\ decrypt_to decrypt k backup = Ok plain
        end /\
        sound_file plain /\ sound_file (written env) /\ sha (written env) = sha plain /\
        row_counts (verified_after v) = row_counts (verified_before v)
  | Err _ => only (left_behind env) files
  end.

Lemma restore_into_spec backup dest key env dest' r :
  restore_into backup dest key env = (dest', r) ->
  (dest' = dest /\ is_ok r = false) \/
  (default ∅ dest = ∅ /\ exists files, dest' = Some files /\ restored backup key env files r).
Proof.
  unfold restore_into. intros H. destruct (default ∅ dest !! TARGET); [simplify_eq; by left|].
  case_bool_decide as He; simpl in H; [|simplify_eq; by left].
  destruct (mkdir_ok env); simpl in H; [|simplify_eq; by left]. right. split; [done|].
  destruct key as [[declared contents]|].
  - assert (only (fun name => left_behind env name) (try_remove (restore_disk env) DECRYPTING
      match temp_left env with Some b => {[DECRYPTING := b]} | None => ∅ end)) as Hpart.
    { apply (only_drop_temp env (fun name => name = DECRYPTING)); [by left|]. intros name.
      destruct (temp_left env); [|rewrite lookup_empty; by intros [? ?]].
      intros [? [? _]%lookup_singleton_Some]. done. }
    destruct (read_key declared contents) as [k|e] eqn:Hk; [|simplify_eq; by eexists].
    destruct (decrypt_to decrypt k backup) as [plain|e] eqn:Hdec; [|simplify_eq; by eexists].
    destruct (temp_ok env); simpl in H; [|simplify_eq; by eexists].
    destruct (install env true DECRYPTING plain {[DECRYPTING := plain]}) as [fs r1] eqn:Hi. simplify_eq.
    apply (install_spec _ _ _ _ _ _ _ (fun name => name = DECRYPTING)) in Hi; [|
      intros name [? [? _]%lookup_singleton_Some]; done | intros ? ->; by vm_compute; set_solver | done].
    eexists. split; [done|]. destruct r as [v|e]; simpl.
    + destruct Hi as (Ho & Ht & Hrest). split_and!; [|by rewrite try_remove_lookup|by exists plain; split; [exists k|]].
      intros name. rewrite try_remove_lookup. case_bool_decide as Hb; [by intros [? ?]|]. intros Hn.
      destruct (Ho name Hn) as [?|[?|[->|?]]]; auto. right; right; left. split; [by left|].
      apply not_true_is_false. intros ?. by apply Hb.
    + eapply only_drop_temp; [|exact Hi]. done.
  - destruct (install env false "backup" backup ∅) as [fs r1] eqn:Hi. simplify_eq. exists fs. split; [done|].
    apply (install_spec _ _ _ _ _ _ _ (fun _ => False)) in Hi; [|intros name; rewrite lookup_empty; by intros [? ?]|done|done].
    destruct r as [v|e]; simpl.
    + destruct Hi as (Ho & Ht & Hrest). split_and!; [|done|by exists backup].
      intros name Hn. destruct (Ho name Hn) as [?|[?|[[]|?]]]; auto.
    + intros name Hn. by destruct (Hi name Hn).
Qed.

(** C35: A restore is complete or leaves no database: it succeeds only into an
    empty or absent directory, and then the target's bytes hash like the
    plaintext of the backup (so with a collision-free hash they are its bytes)
    and pass the checks.  Nothing else is in the directory but sidecars that
    SQLite leaves when it checks the target or the temporary file, and a
    temporary file whose removal failed.  When a restore fails, a directory that
    was not empty is untouched, and in an empty one no file was added that
    could be removed but sidecars of the temporary file.  On a disk that removes
    what it is told to and leaves no sidecars, the directory holds exactly the
    target, or nothing. *)
Theorem restore_complete_or_clean backup dest key env dest' r :
  restore_into backup dest key env = (dest', r) ->
  ((dest' = dest /\ is_ok r = false) \/
   (default ∅ dest = ∅ /\ exists files, dest' = Some files /\ restored backup key env files r)) /\
  (tidy (restore_disk env) ->
   match r with
   | Ok _ => dest' = Some {[TARGET := written env]}
   | Err _ => dest' = dest \/ dest' = Some ∅
   end).
Proof.
  intros H%restore_into_spec. split; [done|]. intros Htidy.
  assert (forall name, ~ left_behind env name /\ ~ target_sidecar env name) as Hno by (intros; by apply tidy_left).
  destruct H as [[-> Hr]|(_ & files & -> & Hfiles)]; [destruct r; [done|by left]|].
  destruct r as [v|e]; simpl in Hfiles.
  - destruct Hfiles as (Ho & Ht & _). f_equal. apply only_target; [done|].
    eapply only_weaken; [|exact Ho]. intros name [?|[?|?]]; [done|destruct (Hno name); done..].
  - right. f_equal. apply only_nothing. eapply only_weaken; [|exact Hfiles]. intros name ?. by destruct (Hno name).
Qed.

End restore.

(** ** A small restore

    Files whose first byte is 'o' are sound databases, the hash is the text
    itself. *)

Definition demo_sqlite (file : list Model.byte) : option Checks :=
  match file with
  | [] => None
  | b :: _ => Some {| ck_integrity := if Ascii.eqb b "o" then "ok" else "malformed"; ck_foreign_keys := 0;
                      ck_journal_mode := "delete"; ck_schema_version := Some "005";
                      ck_counts := Some {| rc_log_events := 3; rc_log_resources := 1; rc_fts_rows := 3 |} |}
  end.

Definition tidy_disk : Disk := {| removable := fun _ => true; leaves := fun _ => ∅ |}.

Definition demo_env : RestoreEnv :=
  {| mkdir_ok := true; temp_ok := true; temp_left := None; written := Text.bytes_of_string "ok data";
     write_ok := true; target_permissions_ok := true; restore_disk := tidy_disk |}.

Lemma backup_all_or_nothing_witness :
  let fs := {[ "live.db" := Text.bytes_of_string "ok live" ]} in
  let env := {| copied := {[ "b.bak" := Text.bytes_of_string "xx" ]}; copy_ok := true; normalized := ∅;
                normalize_ok := true; permissions_ok := true; copy_disk := tidy_disk |} in
  let (fs', r) := backup_to demo_sqlite Text.string_of_bytes "live.db" "b.bak" env fs in
  r = Err (Integrity "b.bak" "malformed") /\ same_elsewhere "live.db" "b.bak" fs fs'.
Proof.
  intros fs env.
  pose proof (backup_all_or_nothing demo_sqlite Text.string_of_bytes "live.db" "b.bak" env fs _ _
    (surjective_pairing _)) as [Hs _].
  assert ((backup_to demo_sqlite Text.string_of_bytes "live.db" "b.bak" env fs).2 =
    Err (Integrity "b.bak" "malformed")) as Hr by (vm_compute; reflexivity).
  destruct (backup_to _ _ _ _ _ _) as [fs' r]. split; [exact Hr|exact Hs].
Defined.

(** The encrypted container is restored into an absent directory. *)
Lemma restore_complete_or_clean_witness :
  let (dest', r) := restore_into demo_sqlite Text.string_of_bytes demo_decrypt demo_container None
                      (Some (32%N, demo_key)) demo_env in
  is_ok r = true /\ dest' = Some {[TARGET := Text.bytes_of_string "ok data"]}.
Proof.
  pose proof (restore_complete_or_clean demo_sqlite Text.string_of_bytes demo_decrypt demo_container None
    (Some (32%N, demo_key)) demo_env _ _ (surjective_pairing _)) as [_ H].
  specialize (H ltac:(by split)).
  assert (is_ok (restore_into demo_sqlite Text.string_of_bytes demo_decrypt demo_container None
    (Some (32%N, demo_key)) demo_env).2 = true) as Hr by (vm_compute; reflexivity).
  destruct (restore_into _ _ _ _ _ _ _) as [dest' r]. split; [exact Hr|].
  destruct r as [v|e]; [|discriminate]. exact H.
Defined.

(** A disk that leaves a shared-memory file beside what it checks: the restore
    succeeds with two files more, one of them beside the removed temporary. *)
Example restore_with_sidecars :
  let disk := {| removable := fun _ => true;
                 leaves := fun path => {[ String.append path "-shm" := [] ]} |} in
  let env := {| mkdir_ok := true; temp_ok := true; temp_left := None; written := Text.bytes_of_string "ok data";
                write_ok := true; target_permissions_ok := true; restore_disk := disk |} in
  let (dest', r) := restore_into demo_sqlite Text.string_of_bytes demo_decrypt demo_container None
                      (Some (32%N, demo_key)) env in
  is_ok r = true /\
  elements (dom (default ∅ dest')) = ["otel-logs.db-shm"; "otel-logs.db.decrypting-shm"; TARGET].
Proof. vm_compute. by split. Qed.

End Restore.
