(* ===== verification/BackupCommand.v ===== *)
(** * The [backup], [restore] and [verify] commands ([crates/otel-sqlite/src/backup_cli.rs])

    The commands compose the operations of [Backup], [BackupFiles] and
    [Restore] on a file system of named files: the files of the output
    directory by their names, the others by a path with a slash in it.  Clock,
    permissions, the reads of a file and the modification times are the
    environment's choice. *)

From S2P Require Import Prelude Time Model Text Render Backup Streaming BackupFiles Restore.

Module BackupCommand.
Import Backup BackupFiles Restore.

Local Open Scope string_scope.
Local Open Scope list_scope.

(** ** Arguments *)

Inductive CliError :=
| Duplicate (flag : string)
| MissingValue (flag : string)
| LooksLikeFlag (flag value : string)
| BadKeep (raw : string)
| UnknownFlag (flag : string)
| MissingBackup
| MissingDir.

Definition set_once {T} (slot : option T) (value : T) (flag : string) : result CliError (option T) :=
  match slot with
  | Some _ => Err (Duplicate flag)
  | None => Ok (Some value)
  end.

Definition starts_with_dashes (s : string) : bool := bool_decide (is_Some (strip_prefix "--" s)).

(** How a command treats a flag: it stands alone, it takes the next argument, or it is unknown. *)
Inductive Step (A : Type) :=
| Alone (r : result CliError A)
| Valued (f : string -> result CliError A)
| Unknown.
Arguments Alone {A} _.
Arguments Valued {A} _.
Arguments Unknown {A}.

(** The [while let Some(flag) = iter.next()] loop, with [value] inlined. *)
Fixpoint flags_loop {A} (step : A -> string -> Step A) (args : list string) (a : A) : result CliError A :=
  match args with
  | [] => Ok a
  | flag :: rest =>
      match step a flag with
      | Alone r => let? a := r in flags_loop step rest a
      | Unknown => Err (UnknownFlag flag)
      | Valued f =>
          match rest with
          | [] => Err (MissingValue flag)
          | v :: rest' =>
              if starts_with_dashes v then Err (LooksLikeFlag flag v)
              else let? a := f v in flags_loop step rest' a
          end
      end
  end.

(** [str::parse::<usize>]. *)
Definition parse_usize (s : string) : option N :=
  let digits := match s with String "+" s' => s' | _ => s end in
  let l := Text.bytes_of_string digits in
  let digit c := ((48 <=? N_of_ascii c) && (N_of_ascii c <=? 57))%N in
  let v := fold_left (fun acc c => acc * 10 + (N_of_ascii c - 48))%N l 0%N in
  if negb (Text.is_empty digits) && forallb digit l && (v <=? u64_max)%N then Some v else None.

Definition DEFAULT_DB_PATH : string := "otel-logs.db".
Definition DEFAULT_BACKUP_DIR : string := "backups".
Definition DEFAULT_KEEP : N := 30.

(** The slots of [parse_backup_args], and of the other two commands. *)
Record Slots := {
  sl_db : option string;
  sl_out : option string;
  sl_keep : option N;
  sl_key_file : option string;
  sl_backup : option string;
  sl_dir : option string;
  sl_json : bool;
}.

Definition no_slots : Slots :=
  {| sl_db := None; sl_out := None; sl_keep := None; sl_key_file := None; sl_backup := None; sl_dir := None;
     sl_json := false |}.

Definition set_json (s : Slots) : result CliError Slots :=
  if sl_json s then Err (Duplicate "--json")
  else Ok {| sl_db := sl_db s; sl_out := sl_out s; sl_keep := sl_keep s; sl_key_file := sl_key_file s;
             sl_backup := sl_backup s; sl_dir := sl_dir s; sl_json := true |}.

Definition set_db (s : Slots) (v : string) : result CliError Slots :=
  let? d := set_once (sl_db s) v "--db" in
  Ok {| sl_db := d; sl_out := sl_out s; sl_keep := sl_keep s; sl_key_file := sl_key_file s;
        sl_backup := sl_backup s; sl_dir := sl_dir s; sl_json := sl_json s |}.

Definition set_out (s : Slots) (v : string) : result CliError Slots :=
  let? o := set_once (sl_out s) v "--out" in
  Ok {| sl_db := sl_db s; sl_out := o; sl_keep := sl_keep s; sl_key_file := sl_key_file s;
        sl_backup := sl_backup s; sl_dir := sl_dir s; sl_json := sl_json s |}.

Definition set_keep (s : Slots) (raw : string) : result CliError Slots :=
  match parse_usize raw with
  | None => Err (BadKeep raw)
  | Some n =>
      let? k := set_once (sl_keep s) n "--keep" in
      Ok {| sl_db := sl_db s; sl_out := sl_out s; sl_keep := k; sl_key_file := sl_key_file s;
            sl_backup := sl_backup s; sl_dir := sl_dir s; sl_json := sl_json s |}
  end.

Definition set_key_file (s : Slots) (v : string) : result CliError Slots :=
  let? k := set_once (sl_key_file s) v "--key-file" in
  Ok {| sl_db := sl_db s; sl_out := sl_out s; sl_keep := sl_keep s; sl_key_file := k;
        sl_backup := sl_backup s; sl_dir := sl_dir s; sl_json := sl_json s |}.

Definition set_backup (s : Slots) (v : string) : result CliError Slots :=
  let? b := set_once (sl_backup s) v "--backup" in
  Ok {| sl_db := sl_db s; sl_out := sl_out s; sl_keep := sl_keep s; sl_key_file := sl_key_file s;
        sl_backup := b; sl_dir := sl_dir s; sl_json := sl_json s |}.

Definition set_dir (s : Slots) (v : string) : result CliError Slots :=
  let? d := set_once (sl_dir s) v "--dir" in
  Ok {| sl_db := sl_db s; sl_out := sl_out s; sl_keep := sl_keep s; sl_key_file := sl_key_file s;
        sl_backup := sl_backup s; sl_dir := d; sl_json := sl_json s |}.

Record BackupArgs := {
  ba_db : string;
  ba_out_dir : string;
  ba_keep : N;
  ba_key_file : option string;
  ba_json : bool;
}.

Definition backup_step (s : Slots) (flag : string) : Step Slots :=
  if String.eqb flag "--json" then Alone (set_json s)
  else if String.eqb flag "--db" then Valued (set_db s)
  else if String.eqb flag "--out" then Valued (set_out s)
  else if String.eqb flag "--key-file" then Valued (set_key_file s)
  else if String.eqb flag "--keep" then Valued (set_keep s)
  else Unknown.

Definition parse_backup_args (args : list string) : result CliError BackupArgs :=
  let? s := flags_loop backup_step args no_slots in
  Ok {| ba_db := default DEFAULT_DB_PATH (sl_db s); ba_out_dir := default DEFAULT_BACKUP_DIR (sl_out s);
        ba_keep := default DEFAULT_KEEP (sl_keep s); ba_key_file := sl_key_file s; ba_json := sl_json s |}.

Record RestoreArgs := {
  ra_backup : string;
  ra_dir : string;
  ra_key_file : option string;
  ra_json : bool;
}.

Definition restore_step (s : Slots) (flag : string) : Step Slots :=
  if String.eqb flag "--json" then Alone (set_json s)
  else if String.eqb flag "--backup" then Valued (set_backup s)
  else if String.eqb flag "--dir" then Valued (set_dir s)
  else if String.eqb flag "--key-file" then Valued (set_key_file s)
  else Unknown.

Definition parse_restore_args (args : list string) : result CliError RestoreArgs :=
  let? s := flags_loop restore_step args no_slots in
  match sl_backup s, sl_dir s with
  | None, _ => Err MissingBackup
  | Some _, None => Err MissingDir
  | Some b, Some d => Ok {| ra_backup := b; ra_dir := d; ra_key_file := sl_key_file s; ra_json := sl_json s |}
  end.

Record VerifyArgs := {
  va_db : string;
  va_json : bool;
}.

Definition verify_step (s : Slots) (flag : string) : Step Slots :=
  if String.eqb flag "--json" then Alone (set_json s)
  else if String.eqb flag "--db" then Valued (set_db s)
  else Unknown.

Definition parse_verify_args (args : list string) : result CliError VerifyArgs :=
  let? s := flags_loop verify_step args no_slots in
  Ok {| va_db := default DEFAULT_DB_PATH (sl_db s); va_json := sl_json s |}.

(** ** [run_backup] *)

Abbreviation Files := (gmap string (list Model.byte)) (only parsing).

Record BackupEnv := {
  be_mkdir_ok : bool;
  be_epoch : option N;  (** [None]: the clock is before the epoch *)
  be_copy : CopyEnv;
  be_key : option (N * list Model.byte);  (** declared length and bytes of the key file, if it opens *)
  be_nonce : option (list Model.byte);
  be_answers : list Streaming.ReadAnswer;  (** what the reads of the snapshot return *)
  be_out : Streaming.OutEnv;  (** what the encrypted file does *)
  be_remove_ok : string -> bool;
  be_hash_ok : bool;
  be_list_ok : bool;
  be_listed : string -> bool;  (** the entries the directory iterator yields without an error *)
  be_modified : string -> option N;
}.

Inductive CommandError :=
| CannotCreateDir
| ClockBeforeEpoch
| Failed (error : BackupError)
| SnapshotNotRemoved (path : string)
| NoSuchBackup
| KeyRequired
| VerificationFailed (report : VerifyReport).

Record BackupReport := {
  br_backup : string;
  br_encrypted : bool;
  br_sha256 : string;
  br_verify : VerifyReport;
}.

Definition with_sha (v : VerifyReport) (digest : string) : VerifyReport :=
  {| integrity := integrity v; foreign_key_violations := foreign_key_violations v; journal_mode := journal_mode v;
     schema_version := schema_version v; is_otel_schema := is_otel_schema v; row_counts := row_counts v;
     sha256 := digest |}.

Definition taken (fs : Files) (name : string) : bool := bool_decide (is_Some (fs !! name)).

(** [unique_backup_path] in a directory: one counter more than there are files. *)
Definition fresh_name (fs : Files) (epoch : N) (encrypted : bool) : option string :=
  unique_backup_path (S (size fs)) (taken fs) epoch encrypted.

Definition out_env (env : BackupEnv) (out : string) : Streaming.OutEnv :=
  let e := be_out env in
  {| Streaming.create_ok := Streaming.create_ok e; Streaming.out_writes := Streaming.out_writes e;
     Streaming.flush_ok := Streaming.flush_ok e; Streaming.sync_ok := Streaming.sync_ok e;
     Streaming.chmod_ok := Streaming.chmod_ok e; Streaming.remove_ok := be_remove_ok env out |}.

Section commands.
Context (sqlite : list Model.byte -> option Checks) (sha : list Model.byte -> string).
Context (encrypt decrypt : list Model.byte -> list Model.byte -> list Model.byte -> option (list Model.byte)).

(** [backup::encrypt_file] on the file system. *)
Definition encrypt_artifact (env : BackupEnv) (plain out : string) (fs : Files)
    : option (Files * result BackupError unit) :=
  match be_key env with
  | None => Some (fs, Err BackupIo)
  | Some (declared, contents) =>
      match read_key declared contents, be_nonce env, fs !! plain with
      | Err e, _, _ => Some (fs, Err e)
      | Ok _, None, _ | Ok _, Some _, None => Some (fs, Err BackupIo)
      | Ok k, Some base, Some bytes =>
          let file := {| Streaming.rest := bytes; Streaming.answers := be_answers env |} in
          '(after_, r) ← Streaming.encrypt_file encrypt (out_env env out) k base file out (fs !! out);
          Some (match after_ with Some written => <[out := written]> fs | None => delete out fs end, r)
      end
  end.

(** [prune_old_backups] on the file system. *)
Definition prune_files (env : BackupEnv) (keep : N) (fs : Files) : Files * result BackupError nat :=
  if (keep =? 0)%N then (fs, Ok O)
  else if negb (be_list_ok env) then (fs, Err BackupIo)
  else
    let dir := (fun name => mk_entry name (be_modified env name)) <$>
                 filter (fun name => be_listed env name = true) (elements (dom fs)) in
    let (dir', r) := prune_old_backups (be_remove_ok env) dir (N.to_nat keep) in
    (filter (fun kv => be_listed env kv.1 = true -> kv.1 ∈ entry_name <$> dir') fs, r).

(** The artifact of [run_backup], before retention. *)
Definition take_backup (args : BackupArgs) (env : BackupEnv) (epoch : N) (fs : Files)
    : option (Files * result CommandError BackupReport) :=
  plain ← fresh_name fs epoch false;
  match backup_to sqlite sha (ba_db args) plain (be_copy env) fs with
  | (fs, Err e) => Some (fs, Err (Failed e))
  | (fs, Ok v) =>
      match ba_key_file args with
      | None => Some (fs, Ok {| br_backup := plain; br_encrypted := false; br_sha256 := sha256 v; br_verify := v |})
      | Some _ =>
          out ← fresh_name fs epoch true;
          encrypted ← encrypt_artifact env plain out fs;
          match encrypted with
          | (fs, Err e) => Some (fs, Err (Failed e))
          | (fs, Ok _) =>
              if negb (be_remove_ok env plain) then Some (fs, Err (SnapshotNotRemoved plain))
              else
                let fs := delete plain fs in
                match fs !! out, be_hash_ok env with
                | Some bytes, true =>
                    Some (fs, Ok {| br_backup := out; br_encrypted := true; br_sha256 := sha bytes;
                                    br_verify := with_sha v (sha bytes) |})
                | _, _ => Some (fs, Err (Failed BackupIo))
                end
          end
      end
  end.

(** [None] only if no free name was found. *)
Definition run_backup (args : BackupArgs) (env : BackupEnv) (fs : Files)
    : option (Files * result CommandError BackupReport) :=
  if negb (be_mkdir_ok env) then Some (fs, Err CannotCreateDir)
  else
    match be_epoch env with
    | None => Some (fs, Err ClockBeforeEpoch)
    | Some epoch =>
        r ← take_backup args env epoch fs;
        match r with
        | (fs, Err e) => Some (fs, Err e)
        | (fs, Ok report) =>
            match prune_files env (ba_keep args) fs with
            | (fs, Err e) => Some (fs, Err (Failed e))
            | (fs, Ok _) => Some (fs, Ok report)
            end
        end
    end.

(** ** [run_restore] and [run_verify] *)

(** [backup] is the file at [--backup], if it exists; [key] the file at [--key-file], when given. *)
Definition run_restore (backup : option (list Model.byte)) (key : option (N * list Model.byte)) (dest : option Files)
    (env : RestoreEnv) : option Files * result CommandError RestoreReport :=
  match backup with
  | None => (dest, Err NoSuchBackup)
  | Some bytes =>
      if looks_encrypted bytes && match key with None => true | Some _ => false end then (dest, Err KeyRequired)
      else
        match restore_into sqlite sha decrypt bytes dest key env with
        | (dest, Ok report) => (dest, Ok report)
        | (dest, Err e) => (dest, Err (Failed e))
        end
  end.

Definition run_verify (disk : Disk) (path : string) (file : list Model.byte) (fs : Files)
    : Files * result CommandError VerifyReport :=
  match verify sqlite sha disk path file fs with
  | (fs, Err e) => (fs, Err (Failed e))
  | (fs, Ok v) =>
      (fs, if negb (String.eqb (integrity v) "ok") || (0 <? foreign_key_violations v)%Z then
             Err (VerificationFailed v)
           else Ok v)
  end.

(** ** Properties *)

(** A file under a name that was free; every other file but [sides] is kept, and
    nothing else appears but [news]. *)
Definition added (name : string) (bytes : list Model.byte) (sides news : list string) (fs fs' : Files) : Prop :=
  fs !! name = None /\ fs' !! name = Some bytes /\
  forall other, other <> name -> other ∉ sides ->
    (forall b, fs !! other = Some b -> fs' !! other = Some b) /\
    (other ∉ news -> fs' !! other = fs !! other).

Lemma fresh_name_spec fs epoch encrypted :
  exists p, fresh_name fs epoch encrypted = Some p /\ fs !! p = None /\ is_backup_artifact p = true.
Proof.
  unfold fresh_name. destruct (unique_path_spec (elements (dom fs)) (taken fs) epoch encrypted) as (p & Hp & Hfree & Ha).
  { unfold taken. intros p Hp%bool_decide_eq_true. by apply elem_of_elements, elem_of_dom. }
  exists p. rewrite <- size_dom. change (size (dom fs)) with (length (elements (dom fs))). split_and!; [done| |done].
  unfold taken in Hfree. apply bool_decide_eq_false in Hfree. by apply eq_None_not_Some.
Qed.

(** An artifact's name ends in its extension, a sidecar's does not. *)
Lemma fresh_not_sidecar fs epoch out plain : fresh_name fs epoch true = Some out -> out ∉ sidecars plain.
Proof.
  unfold fresh_name, unique_backup_path. intros H.
  assert (last (Text.bytes_of_string out) = Some "b"%char) as Hlast.
  { destruct (taken fs (backup_filename epoch true)).
    - pose proof (first_free_spec (S (size fs)) (taken fs) (numbered_filename epoch true) 1) as Hf.
      rewrite H in Hf. destruct Hf as (_ & i & -> & _). unfold numbered_filename.
      by rewrite !bytes_app, !last_app.
    - simplify_eq. unfold backup_filename. by rewrite !bytes_app, !last_app. }
  intros (side & -> & Hs)%list_elem_of_fmap. rewrite bytes_app, last_app in Hlast.
  rewrite !elem_of_cons, elem_of_nil in Hs. by destruct Hs as [->|[->|[->|[]]]].
Qed.

Context (Hinv : forall key nonce p c, encrypt key nonce p = Some c -> decrypt key nonce c = Some p).
Context (Hlen : forall key nonce p c, encrypt key nonce p = Some c ->
                  N.of_nat (length c) = (N.of_nat (length p) + GCM_TAG_LEN)%N).

(** The random source delivers a nonce. *)
Definition env_ok (env : BackupEnv) : Prop := forall base, be_nonce env = Some base -> length base = NONCE_LEN.

(** The encryption returns, and what it reports complete decrypts to the snapshot. *)
Lemma encrypt_artifact_spec env plain out fs :
  env_ok env -> exists fs' r, encrypt_artifact env plain out fs = Some (fs', r) /\
  (r = Ok tt -> exists declared contents k bytes file,
    be_key env = Some (declared, contents) /\ read_key declared contents = Ok k /\ fs !! plain = Some bytes /\
    fs !! out = None /\ fs' = <[out := file]> fs /\ decrypt_to decrypt k file = Ok bytes).
Proof.
  intros Hnonce. unfold encrypt_artifact.
  destruct (be_key env) as [[declared contents]|]; [|do 2 eexists; split; [reflexivity|done]].
  destruct (read_key declared contents) as [k|] eqn:Hk; [|do 2 eexists; split; [reflexivity|done]].
  destruct (be_nonce env) as [base|] eqn:Hn; [|do 2 eexists; split; [reflexivity|done]]. destruct (fs !! plain) as [bytes|] eqn:Hp; [|do 2 eexists; split; [reflexivity|done]].
  edestruct (Streaming.encrypt_file_spec encrypt (out_env env out) k base) as (after_ & r & -> & Hspec).
  do 2 eexists. split; [reflexivity|]. intros ->. destruct Hspec as (chunks & file & Hok & Hcat & Henc & Hfree & ->).
  exists declared, contents, k, bytes, file. split_and!; [done..|].
  simpl in Hcat. rewrite <- Hcat.
  eapply container_roundtrip; [exact Hinv|exact Hlen|exact (Hnonce base Hn)|exact Hok|exact Henc].
Qed.

(** What the artifact named [name] with [contents] is worth. *)
Definition recoverable (key : option (N * list Model.byte)) (contents snapshot : list Model.byte) : Prop :=
  sound_file sqlite snapshot /\
  match key with
  | None => contents = snapshot
  | Some (declared, k) => exists k', read_key declared k = Ok k' /\ decrypt_to decrypt k' contents = Ok snapshot
  end.

Definition given_key (args : BackupArgs) (env : BackupEnv) : option (N * list Model.byte) :=
  match ba_key_file args with None => None | Some _ => be_key env end.

(** A sidecar of an artifact counts as an artifact itself. *)
Lemma sidecar_artifact fs epoch encrypted plain side :
  fresh_name fs epoch encrypted = Some plain -> side ∈ sidecars plain -> is_backup_artifact side = true.
Proof.
  unfold fresh_name, unique_backup_path. intros H Hs.
  assert (exists rest, plain = String.append OTEL_DB_PREFIX (String.append (utc_timestamp epoch) rest)) as [rest ->].
  { destruct (taken fs (backup_filename epoch encrypted)); [|simplify_eq; by eexists].
    pose proof (first_free_spec (S (size fs)) (taken fs) (numbered_filename epoch encrypted) 1) as Hf.
    rewrite H in Hf. destruct Hf as (_ & i & -> & _). by eexists. }
  apply list_elem_of_fmap in Hs as (suffix & -> & Hs). rewrite !append_assoc.
  unfold is_backup_artifact. rewrite strip_prefix_append.
  destruct (utc_timestamp_no_dot epoch (String.append rest suffix)) as [-> ->]. rewrite <- !append_assoc.
  unfold ends_with. rewrite bytes_app, reverse_app. generalize (reverse (Text.bytes_of_string
    (String.append (String.append OTEL_DB_PREFIX (utc_timestamp epoch)) rest))). intros l.
  rewrite !elem_of_cons, elem_of_nil in Hs. by destruct Hs as [->|[->|[->|[]]]].
Qed.

Lemma take_backup_spec args env epoch fs fs' report :
  env_ok env -> take_backup args env epoch fs = Some (fs', Ok report) ->
  is_backup_artifact (br_backup report) = true /\
  exists plain snapshot contents,
    (forall side, side ∈ plain :: sidecars plain -> is_backup_artifact side = true) /\
    added (br_backup report) contents (plain :: sidecars plain) (sidecars (ba_db args)) fs fs' /\
    recoverable (given_key args env) contents snapshot /\ br_sha256 report = sha contents /\
    (ba_key_file args <> None -> fs' !! plain = None).
Proof.
  intros Henv. unfold take_backup, given_key.
  destruct (fresh_name_spec fs epoch false) as (plain & Hplain & Hfree & Hart).
  assert (forall side, side ∈ plain :: sidecars plain -> is_backup_artifact side = true) as Hside.
  { intros side [->|Hs]%elem_of_cons; [done|]. by eapply sidecar_artifact. }
  rewrite Hplain. simpl.
  destruct (backup_to sqlite sha (ba_db args) plain (be_copy env) fs) as [fs1 [v|]] eqn:Hb; [|done].
  apply backup_all_or_nothing in Hb as (Hsame & _ & snapshot & Hsnap & Hsound & Hsha).
  destruct (ba_key_file args) as [file|].
  - destruct (fresh_name_spec fs1 epoch true) as (out & Hname & Hout & Hart2). rewrite Hname. simpl.
    destruct (encrypt_artifact_spec env plain out fs1 Henv) as (fs2 & r & -> & He). simpl. destruct r as [[]|]; [|done].
    destruct (He eq_refl) as (declared & key & k & bytes & enc & -> & Hk & Hp & _ & -> & Hdec).
    simplify_eq. destruct (be_remove_ok env plain); simpl; [|done].
    assert (out <> plain) as Hne by congruence.
    rewrite lookup_delete_ne, lookup_insert_eq by done. destruct (be_hash_ok env); [|done].
    intros. simplify_eq. simpl. split; [done|]. exists plain, snapshot, enc. split_and!; [done| |split; [done|by exists k]|done|].
    + split_and!; [|by rewrite lookup_delete_ne, lookup_insert_eq|].
      * destruct (fs !! out) as [b|] eqn:Eo; [|done].
        assert (out ∉ plain :: sidecars plain) as Hapart.
        { intros [->|Hin]%elem_of_cons; [done|]. by eapply fresh_not_sidecar. }
        by rewrite (proj1 (Hsame out Hapart) b Eo) in Hout.
      * intros other Ho Hs. rewrite lookup_delete_ne, lookup_insert_ne by set_solver. by apply Hsame.
    + intros _. by rewrite lookup_delete_eq.
  - intros. simplify_eq. simpl. split; [done|]. exists plain, snapshot, snapshot. split_and!; [done| |done|done|done].
    split_and!; [done..|]. intros other Ho Hs. by apply Hsame.
Qed.

Lemma prune_files_spec env keep fs fs' n :
  prune_files env keep fs = (fs', Ok n) ->
  (forall name bytes, fs' !! name = Some bytes -> fs !! name = Some bytes) /\
  (forall name bytes, fs !! name = Some bytes -> is_backup_artifact name = false -> fs' !! name = Some bytes) /\
  (forall name bytes, fs !! name = Some bytes ->
     (forall other, other <> name -> modified_le (be_modified env name) (be_modified env other) = false) ->
     fs' !! name = Some bytes).
Proof.
  unfold prune_files. destruct (keep =? 0)%N eqn:Hk; [intros; by simplify_eq|].
  destruct (be_list_ok env); [simpl|done].
  set (dir := _ <$> _). destruct (prune_old_backups _ dir _) as [dir' r] eqn:Hp. intros. simplify_eq.
  assert (NoDup (entry_name <$> dir)) as Hnd.
  { unfold dir. rewrite <- list_fmap_compose. unfold compose. simpl. rewrite list_fmap_id.
    apply NoDup_filter, NoDup_elements. }
  assert (forall name bytes, fs !! name = Some bytes -> be_listed env name = true ->
            mk_entry name (be_modified env name) ∈ dir) as Hdir.
  { intros name bytes Hn Hl. apply list_elem_of_fmap. exists name. split; [done|]. apply list_elem_of_filter.
    split; [done|]. by apply elem_of_elements, elem_of_dom. }
  split_and!.
  - intros name bytes Hn. by apply map_lookup_filter_Some in Hn as [? _].
  - intros name bytes Hn Ha. apply map_lookup_filter_Some. split; [done|]. simpl. intros Hl.
    specialize (Hdir _ _ Hn Hl).
    destruct (decide (mk_entry name (be_modified env name) ∈ dir')) as [Hin|Hout].
    { apply list_elem_of_fmap. exists (mk_entry name (be_modified env name)). done. }
    assert (N.to_nat keep <> O) as Hk' by (apply N.eqb_neq in Hk; lia).
    destruct (prune_spec _ _ _ _ _ Hk' Hnd Hp) as (_ & Hgone & _).
    destruct (Hgone _ Hdir Hout) as [Hart _]. simpl in Hart. congruence.
  - intros name bytes Hn Hnew. apply map_lookup_filter_Some. split; [done|]. simpl. intros Hl.
    apply list_elem_of_fmap. exists (mk_entry name (be_modified env name)). split; [done|].
    eapply prune_survives; [exact Hnd|exact Hp|by eapply Hdir|].
    intros k Hk' [Hle _]. apply list_elem_of_fmap in Hk' as (other & -> & _). simpl in Hle.
    destruct (decide (other = name)) as [->|Hne]; [done|]. by rewrite Hnew in Hle.
Qed.

(** Restoring in an environment where nothing fails and no sidecar is left. *)
Definition works (renv : RestoreEnv) (snapshot : list Model.byte) : Prop :=
  mkdir_ok renv = true /\ temp_ok renv = true /\ write_ok renv = true /\ target_permissions_ok renv = true /\
  written renv = snapshot /\ tidy (restore_disk renv).

Lemma opened_tidy disk path (fs : Files) : tidy disk -> opened disk path fs = fs.
Proof. intros [_ Hl]. unfold opened. rewrite Hl, map_filter_empty. apply map_union_empty. Qed.

Lemma install_works renv inside path snapshot fs :
  sound_file sqlite snapshot -> works renv snapshot ->
  exists r, install sqlite sha renv inside path snapshot fs = (<[TARGET := snapshot]> fs, Ok r).
Proof.
  intros (c & Hc & Hint & Hfk) (_ & _ & Hw & Hp & Hs & Ht). unfold install, verify.
  rewrite !(opened_tidy _ _ _ Ht). unfold report. rewrite Hs, Hc, Hw, Hp.
  assert ((if inside then fs else fs) = fs) as -> by (by destruct inside). simpl.
  unfold gate. simpl. rewrite Hint, (proj2 (Z.ltb_ge _ _)) by done. simpl.
  rewrite String.eqb_refl, bool_decide_true by done. simpl. by eexists.
Qed.

Context (Hmagic : forall file, sound_file sqlite file -> looks_encrypted file = false).

Lemma restore_works key contents snapshot renv :
  recoverable key contents snapshot -> works renv snapshot ->
  exists r, run_restore (Some contents) key None renv = (Some {[TARGET := snapshot]}, Ok r).
Proof.
  intros [Hsound Hkey] Hw. pose proof Hw as (Hmk & Htemp & _ & _ & _ & Hrm & _). unfold run_restore, restore_into.
  destruct key as [[declared k]|].
  - destruct Hkey as (k' & Hk & Hdec). rewrite andb_false_r. simpl. rewrite Hmk. simpl. rewrite Hk, Hdec, Htemp. simpl.
    destruct (install_works renv true DECRYPTING snapshot {[DECRYPTING := snapshot]} Hsound Hw) as [r ->].
    unfold try_remove. rewrite Hrm. eexists. reflexivity.
  - subst contents. rewrite Hmagic by done. simpl. rewrite Hmk. simpl.
    destruct (install_works renv false "backup" snapshot ∅ Hsound Hw) as [r ->]. eexists. reflexivity.
Qed.

(** C33: What the backup command reports can be restored: when it succeeds, the
    reported artifact is new, holds the hash that is reported, and survives the
    retention (if no other file is as recent); restoring it with the same key
    into an absent directory, where nothing fails and SQLite leaves no sidecar,
    yields exactly a snapshot that passed the integrity checks; with a key no plaintext snapshot remains; and every file that is not
    a backup, the live database included, is as before. *)
Theorem backup_command_recoverable args env fs fs' report :
  env_ok env -> run_backup args env fs = Some (fs', Ok report) ->
  (forall other, other <> br_backup report ->
     modified_le (be_modified env (br_backup report)) (be_modified env other) = false) ->
  exists snapshot contents,
    sound_file sqlite snapshot /\ fs !! br_backup report = None /\ fs' !! br_backup report = Some contents /\
    br_sha256 report = sha contents /\
    (forall renv, works renv snapshot -> exists r,
       run_restore (fs' !! br_backup report) (given_key args env) None renv = (Some {[TARGET := snapshot]}, Ok r)) /\
    (ba_key_file args <> None ->
       forall name bytes, fs' !! name = Some bytes -> fs !! name = Some bytes \/ name = br_backup report \/
         exists plain, name ∈ sidecars plain) /\
    (forall name bytes, is_backup_artifact name = false -> fs !! name = Some bytes -> fs' !! name = Some bytes).
Proof.
  intros Henv. unfold run_backup. destruct (be_mkdir_ok env); [simpl|done]. destruct (be_epoch env) as [epoch|]; [|done].
  destruct (take_backup args env epoch fs) as [[fs1 [rep|]]|] eqn:Ht; simpl; [|done..].
  destruct (prune_files env (ba_keep args) fs1) as [fs2 [n|]] eqn:Hp; [|done]. intros H Hnew. simplify_eq.
  apply take_backup_spec in Ht as (Hart & plain & snapshot & contents & Hside & (Hfree & Hin & Hrest) & Hrec & Hsha & Hgone);
    [|done].
  destruct (prune_files_spec _ _ _ _ _ Hp) as (Hsub & Hkept & Hnewest).
  assert (fs' !! br_backup report = Some contents) as Hin' by by apply Hnewest.
  exists snapshot, contents. split_and!; [apply Hrec|done|done|done| | |].
  - intros renv Hw. rewrite Hin'. by apply restore_works.
  - intros Hkey name bytes Hn. apply Hsub in Hn as Hn1.
    destruct (decide (name = br_backup report)) as [->|Hne]; [by right; left|].
    destruct (decide (name ∈ plain :: sidecars plain)) as [[->|Hs]%elem_of_cons|Hout].
    + rewrite Hgone in Hn1 by done. done.
    + right. right. by exists plain.
    + destruct (decide (name ∈ sidecars (ba_db args))) as [?|Hno]; [right; right; by exists (ba_db args)|].
      left. destruct (Hrest name Hne Hout) as [_ Heq]. by rewrite <- (Heq Hno).
  - intros name bytes Hna Hn. apply Hkept; [|done]. apply Hrest; [congruence| |done].
    intros Hs. by rewrite (Hside name Hs) in Hna.
Qed.

End commands.

(** ** An encrypted backup of a small database *)

Definition demo_args : BackupArgs :=
  {| ba_db := "/data/otel-logs.db"; ba_out_dir := "backups"; ba_keep := 1; ba_key_file := Some "backup.key";
     ba_json := false |}.

Definition demo_backup_env (key : list Model.byte) : BackupEnv :=
  {| be_mkdir_ok := true; be_epoch := Some 1767225600%N;
     be_copy := {| copied := {[ "otel-logs.db.20260101T000000Z.bak" := Text.bytes_of_string "ok data" ]}; copy_ok := true;
                   normalized := ∅; normalize_ok := true; permissions_ok := true; copy_disk := tidy_disk |};
     be_key := Some (N.of_nat (length key), key); be_nonce := Some demo_nonce; be_answers := [Streaming.AtMost 2; Streaming.AtMost 1];
     be_out := Streaming.demo_out; be_remove_ok := fun _ => true;
     be_hash_ok := true; be_list_ok := true; be_listed := fun _ => true;
     be_modified := fun name => if String.eqb name "otel-logs.db.20260101T000000Z.otsb" then Some 9%N else Some 3%N |}.

Definition demo_files : gmap string (list Model.byte) :=
  {[ "/data/otel-logs.db" := Text.bytes_of_string "ok live";
     "otel-logs.db.20251231T000000Z.bak" := Text.bytes_of_string "ok old" ]}.

Lemma demo_env_ok key : env_ok (demo_backup_env key).
Proof. by intros base [= <-]. Qed.

Lemma demo_magic file : sound_file demo_sqlite file -> looks_encrypted file = false.
Proof.
  intros (c & Hc & Hi & _). destruct file as [|b file]; [done|]. simpl in Hc. simplify_eq. simpl in Hi.
  destruct (Ascii.eqb_spec b "o"%char) as [->|]; [|done]. apply bool_decide_eq_false_2. cbn. discriminate.
Qed.

Definition demo_run (key : list Model.byte) :=
  run_backup demo_sqlite Text.string_of_bytes demo_encrypt demo_args (demo_backup_env key) demo_files.

(** A key of the wrong length: the command fails after the snapshot was taken,
    and the snapshot stays in the output directory unencrypted. *)
Lemma failed_encryption_leaves_plaintext :
  match demo_run [] with
  | Some (fs', Err (Failed (InvalidKeyLen 0))) =>
      fs' !! "otel-logs.db.20260101T000000Z.bak" = Some (Text.bytes_of_string "ok data")
  | _ => False
  end.
Proof. vm_compute. reflexivity. Qed.

Lemma demo_run_artifact :
  match demo_run demo_key with
  | Some (fs', Ok report) =>
      br_backup report = "otel-logs.db.20260101T000000Z.otsb" /\ fs' !! "otel-logs.db.20251231T000000Z.bak" = None
  | _ => False
  end.
Proof. vm_compute. by split. Qed.

(** The older backup is pruned, the new one can be restored. *)
Lemma backup_command_recoverable_witness :
  match demo_run demo_key with
  | Some (fs', Ok report) =>
      fs' !! "otel-logs.db.20251231T000000Z.bak" = None /\
      exists snapshot, sound_file demo_sqlite snapshot /\
        forall renv, works renv snapshot -> exists r,
          run_restore demo_sqlite Text.string_of_bytes demo_decrypt (fs' !! br_backup report)
            (given_key demo_args (demo_backup_env demo_key)) None renv = (Some {[TARGET := snapshot]}, Ok r)
  | _ => False
  end.
Proof.
  pose proof demo_run_artifact as Hrun. destruct (demo_run demo_key) as [[fs' [report|e]]|] eqn:E; [|exact Hrun..].
  destruct Hrun as [Hname Hold]. split; [exact Hold|].
  destruct (backup_command_recoverable demo_sqlite Text.string_of_bytes demo_encrypt demo_decrypt demo_inverse
              demo_length demo_magic demo_args (demo_backup_env demo_key) demo_files fs' report (demo_env_ok _) E)
    as (snapshot & contents & Hsound & _ & _ & _ & Hrestore & _).
  { clear E. rewrite Hname. intros other Hne. cbn [be_modified demo_backup_env]. rewrite String.eqb_refl.
    destruct (String.eqb_spec other "otel-logs.db.20260101T000000Z.otsb") as [He|_]; [destruct (Hne He)|reflexivity]. }
  exists snapshot. split; [exact Hsound|exact Hrestore].
Defined.

End BackupCommand.
