(* ===== verification/Shutdown.v ===== *)
(** * Startup reaping and shutdown ([crates/otel-sqlite-storage/src/lib.rs])

    [Storage::join] waits for the batcher to flush and for the writer to drain.
    A thread publishes nothing but its exit, so waiting is polling: one [Poll]
    is what a round of the loop sees, and consecutive rounds are a sleep of
    [JOIN_POLL_INTERVAL] apart.  What a thread returns when it is joined is part
    of its handle. *)

From S2P Require Import Prelude Time Model Text Command Sqlite.

Module Shutdown.
Import Time Sqlite.

Local Open Scope N_scope.

Definition JOIN_POLL_INTERVAL : Duration := from_millis 5.
Definition STARTUP_REAP_BUDGET : Duration := from_secs 2.

(** [JoinHandle::join]. *)
Inductive Exit (A : Type) :=
| Exited (value : A)
| Panicked.
Arguments Exited {A} _.
Arguments Panicked {A}.

(** A round of a polling loop: [is_finished], and the clock if it is read. *)
Record Poll := {
  finished : bool;
  now : Instant;
}.

(** The handles of [Storage] that shutdown takes. *)
Record Storage := {
  commands : bool;
  batcher_handle : option (Exit unit);
  join_handle : option (Exit (result StorageError unit));
}.

(** The loop of [wait_finished]; [None] when the fuel runs out. *)
Fixpoint poll_loop (fuel : nat) (polls : nat -> Poll) (budget : option (Instant * Duration)) (k : nat)
    : option (result StorageError unit) :=
  match fuel with
  | O => None
  | S fuel' =>
      if finished (polls k) then Some (Ok tt)
      else
        match budget with
        | Some (deadline, timeout) =>
            if deadline <=? now (polls k) then Some (Err (ShutdownTimeout (timeout / NANOS_PER_SEC)))
            else poll_loop fuel' polls budget (S k)
        | None => poll_loop fuel' polls budget (S k)
        end
  end.

Definition wait_finished {A} (fuel : nat) (handle : option (Exit A)) (polls : nat -> Poll)
    (budget : option (Instant * Duration)) : option (result StorageError unit) :=
  match handle with
  | None => Some (Ok tt)
  | Some _ => poll_loop fuel polls budget 0
  end.

(** [join_inner] from the instant [start]; the two waits see the threads in [batcher] and [writer]. *)
Definition join_inner (fuel : nat) (s : Storage) (timeout : option Duration) (start : Instant)
    (batcher writer : nat -> Poll) : option (Storage * result StorageError unit) :=
  let budget := (fun t => (saturating_deadline start t, t)) <$> timeout in
  let s := {| commands := false; batcher_handle := batcher_handle s; join_handle := join_handle s |} in
  match wait_finished fuel (batcher_handle s) batcher budget with
  | None => None
  | Some (Err e) => Some (s, Err e)
  | Some (Ok _) =>
      let s1 := {| commands := false; batcher_handle := None; join_handle := join_handle s |} in
      match batcher_handle s with
      | Some Panicked => Some (s1, Err BatcherPanicked)
      | Some (Exited _) | None =>
          match wait_finished fuel (join_handle s1) writer budget with
          | None => None
          | Some (Err e) => Some (s1, Err e)
          | Some (Ok _) =>
              let s2 := {| commands := false; batcher_handle := None; join_handle := None |} in
              match join_handle s1 with
              | Some Panicked => Some (s2, Err WriterPanicked)
              | Some (Exited (Err e)) => Some (s2, Err e)
              | Some (Exited (Ok _)) | None => Some (s2, Ok tt)
              end
          end
      end
  end.

Definition join (fuel : nat) (s : Storage) := join_inner fuel s None.
Definition join_timeout (fuel : nat) (s : Storage) (timeout : Duration) := join_inner fuel s (Some timeout).

(** [reap_startup]: whether the thread was joined, or detached still running. *)
Fixpoint reap_loop (fuel : nat) (polls : nat -> Poll) (deadline : Instant) (k : nat) : option bool :=
  match fuel with
  | O => None
  | S fuel' =>
      if negb (finished (polls k)) && (now (polls k) <? deadline) then reap_loop fuel' polls deadline (S k)
      else Some (finished (polls (S k)))
  end.

Definition reap_startup (fuel : nat) (start : Instant) (polls : nat -> Poll) : option bool :=
  reap_loop fuel polls (saturating_deadline start STARTUP_REAP_BUDGET) 0.

(** ** Properties *)

(** The clock readings of a polling loop that started at [start] or later. *)
Definition paced (start : Instant) (polls : nat -> Poll) : Prop :=
  start <= now (polls 0%nat) /\ forall k, now (polls k) + JOIN_POLL_INTERVAL <= now (polls (S k)).

(** Enough rounds to outlast a budget: one per sleep that fits, and two for the ends. *)
Definition poll_fuel (timeout : Duration) : nat := N.to_nat (timeout / JOIN_POLL_INTERVAL) + 2.

Lemma paced_reading start polls k :
  paced start polls -> start + N.of_nat k * JOIN_POLL_INTERVAL <= now (polls k).
Proof.
  intros [H0 Hs]. induction k as [|k IH]; [lia|]. specialize (Hs k). lia.
Qed.

Lemma budget_spent timeout : timeout <= N.of_nat (poll_fuel timeout - 1) * JOIN_POLL_INTERVAL.
Proof.
  assert (JOIN_POLL_INTERVAL <> 0) as Hz by done. unfold poll_fuel.
  pose proof (N.mod_lt timeout _ Hz) as Hm. pose proof (N.div_mod timeout _ Hz) as Hd. revert Hm Hd.
  generalize (timeout / JOIN_POLL_INTERVAL) (timeout mod JOIN_POLL_INTERVAL) JOIN_POLL_INTERVAL. intros. nia.
Qed.

(** What a bounded wait answers: the thread was seen finished, or a round past
    the deadline saw it running. *)
Definition waited (polls : nat -> Poll) (deadline : Instant) (timeout : Duration)
    (r : result StorageError unit) : Prop :=
  match r with
  | Ok _ => exists k, finished (polls k) = true /\ forall j, (j < k)%nat -> now (polls j) < deadline
  | Err e => e = ShutdownTimeout (timeout / NANOS_PER_SEC) /\
             exists k, finished (polls k) = false /\ deadline <= now (polls k)
  end.

Lemma poll_loop_waited fuel : forall polls deadline timeout k,
  (forall j, (j < k)%nat -> now (polls j) < deadline) ->
  deadline <= now (polls (k + fuel - 1)%nat) -> (0 < fuel)%nat ->
  exists r, poll_loop fuel polls (Some (deadline, timeout)) k = Some r /\ waited polls deadline timeout r.
Proof.
  induction fuel as [|fuel IH]; intros polls deadline timeout k Hbefore Hend Hf; [lia|]. simpl.
  destruct (finished (polls k)) eqn:Ef; [eexists; split; [done|]; by exists k|].
  destruct (N.leb_spec deadline (now (polls k))) as [Hd|Hd].
  { eexists. split; [done|]. split; [done|]. by exists k. }
  destruct fuel as [|fuel]; [replace (k + 1 - 1)%nat with k in Hend by lia; lia|].
  apply IH; [|by replace (S k + S fuel - 1)%nat with (k + S (S fuel) - 1)%nat by lia|lia].
  intros j Hj. destruct (decide (j = k)) as [->|]; [done|]. apply Hbefore. lia.
Qed.

Lemma wait_finished_bounded {A} (h : Exit A) start timeout polls :
  start <= INSTANT_MAX -> paced start polls ->
  exists r, wait_finished (poll_fuel timeout) (Some h) polls (Some (saturating_deadline start timeout, timeout)) = Some r /\
    waited polls (saturating_deadline start timeout) timeout r.
Proof.
  intros Hs Hp. simpl. apply poll_loop_waited; [lia| |apply Nat.add_pos_r; lia].
  cbn [Nat.add]. pose proof (paced_reading start polls (poll_fuel timeout - 1) Hp) as Hr.
  pose proof (budget_spent timeout). pose proof (saturating_deadline_le start timeout Hs).
  etrans; [eassumption|]. etrans; [|exact Hr]. lia.
Qed.

Lemma wait_step {A} (h : option (Exit A)) start timeout polls :
  start <= INSTANT_MAX -> paced start polls ->
  exists r, wait_finished (poll_fuel timeout) h polls (Some (saturating_deadline start timeout, timeout)) = Some r /\
    match r with
    | Ok _ => h <> None -> exists k, finished (polls k) = true
    | Err e => e = ShutdownTimeout (timeout / NANOS_PER_SEC) /\
               exists k, finished (polls k) = false /\ saturating_deadline start timeout <= now (polls k)
    end.
Proof.
  intros Hs Hp. destruct h as [h|]; [|by exists (Ok tt)].
  destruct (wait_finished_bounded h start timeout polls Hs Hp) as ([u|e] & Hr & Hwait); eexists; (split; [exact Hr|]); [|done].
  intros _. destruct Hwait as (k & Hk & _). by exists k.
Qed.

(** C37: A bounded shutdown always returns, within one deadline for both threads:
    success means that both were seen to exit and that the writer drained
    without an error; a panic or the writer's own error is reported as such; on
    a timeout the threads not yet joined keep their handles for a later join. *)
Theorem bounded_join_returns s timeout start batcher writer :
  start <= INSTANT_MAX -> paced start batcher -> paced start writer ->
  exists s' r, join_timeout (poll_fuel timeout) s timeout start batcher writer = Some (s', r) /\
    commands s' = false /\
    match r with
    | Ok _ => batcher_handle s' = None /\ join_handle s' = None /\
        (batcher_handle s <> None -> batcher_handle s = Some (Exited tt) /\ exists k, finished (batcher k) = true) /\
        (join_handle s <> None -> join_handle s = Some (Exited (Ok tt)) /\ exists k, finished (writer k) = true)
    | Err e =>
        (e = ShutdownTimeout (timeout / NANOS_PER_SEC) /\ join_handle s' = join_handle s /\
         ((batcher_handle s' = batcher_handle s /\
           exists k, finished (batcher k) = false /\ saturating_deadline start timeout <= now (batcher k)) \/
          (batcher_handle s' = None /\
           exists k, finished (writer k) = false /\ saturating_deadline start timeout <= now (writer k)))) \/
        (e = BatcherPanicked /\ batcher_handle s = Some Panicked /\ join_handle s' = join_handle s) \/
        (join_handle s' = None /\
         (e = WriterPanicked /\ join_handle s = Some Panicked \/ join_handle s = Some (Exited (Err e))))
    end.
Proof.
  intros Hs Hb Hw. unfold join_timeout, join_inner. cbn [fmap option_fmap option_map batcher_handle join_handle].
  pose proof (wait_step (batcher_handle s) start timeout batcher Hs Hb) as (rb & -> & Hrb).
  destruct rb as [u|e]; [|destruct Hrb as [-> Hrun]; do 2 eexists; split; [done|]; split; [done|]; by left; auto].
  pose proof (wait_step (join_handle s) start timeout writer Hs Hw) as (rw & -> & Hrw).
  destruct (batcher_handle s) as [[[]|]|].
  2: { do 2 eexists. split; [done|]. split; [done|]. right. left. done. }
  all: destruct rw as [u'|e]; [|destruct Hrw as [-> Hrun]; do 2 eexists; split; [done|]; split; [done|]; by left; auto].
  all: destruct (join_handle s) as [[[[]|e]|]|]; do 2 eexists; (split; [reflexivity|]); (split; [done|]); naive_solver.
Qed.

(** The batcher exits after a round; the writer is wedged in SQLite. *)
Definition demo_polls (done_at : option nat) (k : nat) : Poll :=
  {| finished := match done_at with Some n => (n <=? k)%nat | None => false end;
     now := from_millis (6 * N.of_nat k) |}.

Definition demo_storage : Storage :=
  {| commands := true; batcher_handle := Some (Exited tt); join_handle := Some (Exited (Ok tt)) |}.

Lemma demo_paced done_at : paced 0 (demo_polls done_at).
Proof. split; [done|]. intros k. unfold demo_polls, from_millis, JOIN_POLL_INTERVAL. simpl. unfold from_millis. lia. Qed.

Lemma bounded_join_returns_witness :
  exists s' e, join_timeout (poll_fuel (from_millis 1500)) demo_storage (from_millis 1500) 0
                 (demo_polls (Some 1%nat)) (demo_polls None) = Some (s', Err e) /\
    commands s' = false /\ e = ShutdownTimeout 1 /\ batcher_handle s' = None /\
    join_handle s' = Some (Exited (Ok tt)).
Proof.
  destruct (bounded_join_returns demo_storage (from_millis 1500) 0 (demo_polls (Some 1%nat)) (demo_polls None))
    as (s' & r & Hj & Hc & _); [done|apply demo_paced..|].
  vm_compute in Hj. simplify_eq. do 2 eexists. split; [vm_compute; reflexivity|]. by split_and!.
Defined.

End Shutdown.
