(* ===== verification/Net.v ===== *)
(** * Bind addresses ([crates/otel-sqlite-ingress/src/config.rs])

    The sources parse bind addresses with [str::parse::<SocketAddr>], whose
    grammar decides which configurations are accepted and which count as
    loopback.  The parser of the standard library works on the bytes of the
    text; each reader gives back the value and the bytes that are left, and a
    reader that fails leaves its input untouched. *)

From S2P Require Import Prelude Time Model Text Render.

Module Net.

Local Open Scope string_scope.
Local Open Scope list_scope.
Local Open Scope N_scope.

Inductive IpAddr :=
| V4 (octets : list N)
| V6 (segments : list N).

Record SocketAddr := {
  ip : IpAddr;
  port : N;
}.

(** [IpAddr::is_loopback]: [127.0.0.0/8] and [::1]; an IPv4-mapped IPv6 address is not loopback. *)
Definition is_loopback (a : IpAddr) : bool :=
  match a with
  | V4 (127 :: _) => true
  | V4 _ => false
  | V6 segments => bool_decide (segments = [0; 0; 0; 0; 0; 0; 0; 1])
  end.

(** [IpAddr::is_unspecified]. *)
Definition is_unspecified (a : IpAddr) : bool :=
  match a with
  | V4 octets => bool_decide (octets = [0; 0; 0; 0])
  | V6 segments => bool_decide (segments = [0; 0; 0; 0; 0; 0; 0; 0])
  end.

(** ** The readers *)

Definition Reader (A : Type) := list ascii -> option (A * list ascii).

(** [char::to_digit]. *)
Definition to_digit (radix : N) (c : ascii) : option N :=
  let n := N_of_ascii c in
  let d := if (48 <=? n) && (n <=? 57) then Some (n - 48)
           else if (97 <=? n) && (n <=? 122) then Some (n - 87)
           else if (65 <=? n) && (n <=? 90) then Some (n - 55)
           else None in
  match d with Some v => if v <? radix then Some v else None | None => None end.

Definition read_given_char (c : ascii) : Reader unit := fun l =>
  match l with
  | x :: l' => if Ascii.eqb x c then Some (tt, l') else None
  | [] => None
  end.

(** The digits of [read_number]: more than [max_digits] of them, or a value above [limit], fail. *)
Fixpoint read_digits (radix limit : N) (max_digits : option nat) (count : nat) (result : N) (l : list ascii)
    : option (nat * N * list ascii) :=
  match l with
  | [] => Some (count, result, [])
  | c :: l' =>
      match to_digit radix c with
      | None => Some (count, result, l)
      | Some d =>
          let value := result * radix + d in
          if limit <? value then None
          else if match max_digits with Some m => (m <? S count)%nat | None => false end then None
          else read_digits radix limit max_digits (S count) value l'
      end
  end.

Definition read_number (radix limit : N) (max_digits : option nat) (allow_zero_prefix : bool) : Reader N := fun l =>
  let has_leading_zero := match l with c :: _ => Ascii.eqb c "0" | [] => false end in
  match read_digits radix limit max_digits 0 0 l with
  | Some (count, value, rest) =>
      if (count =? 0)%nat then None
      else if negb allow_zero_prefix && has_leading_zero && (1 <? count)%nat then None
      else Some (value, rest)
  | None => None
  end.

(** [read_separator]: every element but the first is preceded by [sep]. *)
Definition read_separator {A} (sep : ascii) (index : nat) (inner : Reader A) : Reader A := fun l =>
  if (0 <? index)%nat then
    match read_given_char sep l with Some (_, l') => inner l' | None => None end
  else inner l.

Fixpoint read_octets (k index : nat) (l : list ascii) : option (list N * list ascii) :=
  match k with
  | O => Some ([], l)
  | S k' =>
      match read_separator "." index (read_number 10 255 (Some 3%nat) false) l with
      | Some (octet, l') =>
          match read_octets k' (S index) l' with
          | Some (octets, rest) => Some (octet :: octets, rest)
          | None => None
          end
      | None => None
      end
  end.

Definition read_ipv4_addr : Reader (list N) := read_octets 4 0.

(** [read_groups] with [k] of [limit] groups left: the groups read, whether they end in an
    embedded IPv4 address, and the rest. *)
Fixpoint read_groups (k limit index : nat) (groups : list N) (l : list ascii)
    : list N * bool * list ascii :=
  match k with
  | O => (groups, false, l)
  | S k' =>
      match (if (index <? limit - 1)%nat then read_separator ":" index read_ipv4_addr l else None) with
      | Some ([one; two; three; four], rest) => (groups ++ [one * 256 + two; three * 256 + four], true, rest)
      | _ =>
          match read_separator ":" index (read_number 16 65535 (Some 4%nat) true) l with
          | Some (group, rest) => read_groups k' limit (S index) (groups ++ [group]) rest
          | None => (groups, false, l)
          end
      end
  end.

Definition read_ipv6_addr : Reader (list N) := fun l =>
  let '(head, head_ipv4, rest) := read_groups 8 8 0 [] l in
  if (length head =? 8)%nat then Some (head, rest)
  else if head_ipv4 then None
  else
    match read_given_char ":" rest with
    | Some (_, rest) =>
        match read_given_char ":" rest with
        | Some (_, rest) =>
            let limit := (8 - (length head + 1))%nat in
            let '(tail, _, rest) := read_groups limit limit 0 [] rest in
            Some (head ++ repeat 0 (8 - length head - length tail) ++ tail, rest)
        | None => None
        end
    | None => None
    end.

Definition read_port : Reader N := fun l =>
  match read_given_char ":" l with
  | Some (_, l') => read_number 10 65535 None true l'
  | None => None
  end.

Definition read_scope_id : Reader N := fun l =>
  match read_given_char "%" l with
  | Some (_, l') => read_number 10 (2 ^ 32 - 1) None true l'
  | None => None
  end.

Definition read_socket_addr_v4 : Reader SocketAddr := fun l =>
  match read_ipv4_addr l with
  | Some (octets, l') =>
      match read_port l' with
      | Some (p, rest) => Some ({| ip := V4 octets; port := p |}, rest)
      | None => None
      end
  | None => None
  end.

Definition read_socket_addr_v6 : Reader SocketAddr := fun l =>
  match read_given_char "[" l with
  | Some (_, l1) =>
      match read_ipv6_addr l1 with
      | Some (segments, l2) =>
          let l3 := match read_scope_id l2 with Some (_, rest) => rest | None => l2 end in
          match read_given_char "]" l3 with
          | Some (_, l4) =>
              match read_port l4 with
              | Some (p, rest) => Some ({| ip := V6 segments; port := p |}, rest)
              | None => None
              end
          | None => None
          end
      | None => None
      end
  | None => None
  end.

(** [str::parse::<SocketAddr>]: the whole text has to be read. *)
Definition parse_socket_addr (s : string) : option SocketAddr :=
  let l := Text.bytes_of_string s in
  let read := match read_socket_addr_v4 l with Some r => Some r | None => read_socket_addr_v6 l end in
  match read with
  | Some (a, []) => Some a
  | _ => None
  end.

(** ** The repository's use of it *)

Definition expand_bind_address (address : string) : string :=
  match address with
  | String ":" _ => String.append "0.0.0.0" address
  | _ => address
  end.

(** [expand_bind_address(address).parse()], the form every caller uses. *)
Definition bind_address (address : string) : option SocketAddr :=
  parse_socket_addr (expand_bind_address address).

Definition is_loopback_listen (address : string) : bool :=
  match bind_address address with Some a => is_loopback (ip a) | None => false end.

Definition metrics_display_url (address : string) : string :=
  match bind_address address with
  | Some a =>
      if is_unspecified (ip a) then
        match ip a with
        | V4 _ => String.append "http://127.0.0.1:" (String.append (Render.show_u64 (port a)) "/metrics")
        | V6 _ => String.append "http://[::1]:" (String.append (Render.show_u64 (port a)) "/metrics")
        end
      else String.append "http://" (String.append address "/metrics")
  | None => String.append "http://" (String.append address "/metrics")
  end.

(** ** Properties *)

(** What a parsed address looks like. *)
Definition addr_ok (a : SocketAddr) : Prop :=
  port a <= 65535 /\
  match ip a with
  | V4 octets => length octets = 4%nat /\ Forall (fun o => o <= 255) octets
  | V6 segments => length segments = 8%nat /\ Forall (fun g => g <= 65535) segments
  end.

Lemma read_digits_le radix limit max : forall l count result c v rest,
  result <= limit -> read_digits radix limit max count result l = Some (c, v, rest) -> v <= limit.
Proof.
  induction l as [|x l IH]; intros count result c v rest Hr; simpl; [intros; by simplify_eq|].
  destruct (to_digit radix x); [|intros; by simplify_eq].
  destruct (N.ltb_spec limit (result * radix + n)); [done|].
  destruct (match max with Some m => _ | None => _ end); [done|]. by apply IH.
Qed.

Lemma read_number_le radix limit max z l v rest :
  read_number radix limit max z l = Some (v, rest) -> v <= limit.
Proof.
  unfold read_number. destruct (read_digits radix limit max 0 0 l) as [[[c v'] rest']|] eqn:E; [|done].
  destruct (_ =? _)%nat; [done|]. destruct (_ && _); [done|]. intros. simplify_eq.
  eapply read_digits_le; [|exact E]. lia.
Qed.

Lemma read_separator_inv {A} sep i (r : Reader A) l x :
  read_separator sep i r l = Some x -> exists l', r l' = Some x.
Proof.
  unfold read_separator. destruct (0 <? i)%nat; [|by exists l].
  destruct (read_given_char sep l) as [[[] l']|]; [|done]. by exists l'.
Qed.

Lemma read_octets_ok k : forall i l octets rest,
  read_octets k i l = Some (octets, rest) -> length octets = k /\ Forall (fun o => o <= 255) octets.
Proof.
  induction k as [|k IH]; intros i l octets rest; cbn [read_octets]; [intros; simplify_eq; split; [done|constructor]|].
  destruct (read_separator _ _ _ l) as [[o l']|] eqn:Eo; [|done].
  destruct (read_octets k (S i) l') as [[os rest']|] eqn:Er; [|done].
  intros. simplify_eq. apply IH in Er as [<- Hall]. split; [done|].
  apply read_separator_inv in Eo as [l0 Eo]. apply read_number_le in Eo. by constructor.
Qed.

Lemma read_groups_ok k : forall limit i groups l gs v4 rest,
  (i + k = limit)%nat -> length groups = i -> Forall (fun g => g <= 65535) groups ->
  read_groups k limit i groups l = (gs, v4, rest) ->
  (length gs <= i + k)%nat /\ Forall (fun g => g <= 65535) gs.
Proof.
  induction k as [|k IH]; intros limit i groups l gs v4 rest Hk Hlen Hall; cbn [read_groups].
  { intros. simplify_eq. split; [lia|done]. }
  assert (Hnumber : forall gs v4 rest,
    match read_separator ":" i (read_number 16 65535 (Some 4%nat) true) l with
    | Some (group, rest) => read_groups k limit (S i) (groups ++ [group]) rest
    | None => (groups, false, l)
    end = (gs, v4, rest) -> (length gs <= i + S k)%nat /\ Forall (fun g => g <= 65535) gs).
  { intros gs' v4' rest'. destruct (read_separator _ _ _ l) as [[g l']|] eqn:E.
    - apply read_separator_inv in E as [l0 E]. apply read_number_le in E. intros Hg.
      apply IH in Hg; [|lia|rewrite length_app; simpl; lia|by apply Forall_app; auto]. split; [lia|tauto].
    - intros. simplify_eq. split; [lia|done]. }
  destruct (Nat.ltb_spec i (limit - 1)); [|apply Hnumber].
  destruct (read_separator ":" i read_ipv4_addr l) as [[os l']|] eqn:E; [|apply Hnumber].
  apply read_separator_inv in E as [l0 E]. apply read_octets_ok in E as [Hl Ho].
  destruct os as [|a [|b [|c [|d []]]]]; simplify_eq/=. intros. simplify_eq.
  rewrite !Forall_cons in Ho. rewrite length_app. simpl.
  split; [lia|]. apply Forall_app; split; [done|]. repeat constructor; lia.
Qed.

Lemma read_ipv6_ok l segments rest :
  read_ipv6_addr l = Some (segments, rest) -> length segments = 8%nat /\ Forall (fun g => g <= 65535) segments.
Proof.
  unfold read_ipv6_addr. destruct (read_groups 8 8 0 [] l) as [[head v4] l1] eqn:Eh.
  apply read_groups_ok in Eh as [Hh Hah]; [|done..|constructor].
  destruct (Nat.eqb_spec (length head) 8); [intros; by simplify_eq|]. destruct v4; [done|].
  destruct (read_given_char ":" l1) as [[[] l2]|]; [|done].
  destruct (read_given_char ":" l2) as [[[] l3]|]; [|done].
  destruct (read_groups _ _ 0 [] l3) as [[tail v4] l4] eqn:Et.
  apply read_groups_ok in Et as [Ht Hat]; [|done..|constructor].
  intros. simplify_eq. rewrite !length_app, repeat_length. split; [lia|].
  rewrite !Forall_app. split_and!; [done| |done]. apply Forall_forall. intros x Hx.
  apply list_elem_of_In, repeat_spec in Hx. lia.
Qed.

Lemma bind_address_ok s a : bind_address s = Some a -> addr_ok a.
Proof.
  assert (Hport : forall l p rest, read_port l = Some (p, rest) -> p <= 65535).
  { intros l p rest. unfold read_port. destruct (read_given_char ":" l) as [[[] l']|]; [|done].
    apply read_number_le. }
  unfold bind_address, parse_socket_addr. generalize (Text.bytes_of_string (expand_bind_address s)). intros l.
  destruct (read_socket_addr_v4 l) as [[a4 [|]]|] eqn:E4; [|done|].
  - intros. simplify_eq. revert E4. unfold read_socket_addr_v4.
    destruct (read_ipv4_addr l) as [[os l1]|] eqn:Eo; [|done].
    destruct (read_port l1) as [[p l2]|] eqn:Ep; [|done]. intros. simplify_eq.
    split; [by eapply Hport|]. by eapply read_octets_ok.
  - destruct (read_socket_addr_v6 l) as [[a6 [|]]|] eqn:E6; [|done..]. intros. simplify_eq.
    revert E6. unfold read_socket_addr_v6.
    destruct (read_given_char "[" l) as [[[] l1]|]; [|done].
    destruct (read_ipv6_addr l1) as [[gs l2]|] eqn:Eg; [|done].
    destruct (read_given_char "]" _) as [[[] l4]|]; [|done].
    destruct (read_port l4) as [[p l5]|] eqn:Ep; [|done]. intros. simplify_eq.
    split; [by eapply Hport|]. by eapply read_ipv6_ok.
Qed.

(** The forms the tests of the repository and of the standard library use. *)
Example bind_address_forms :
  (bind_address <$> [":4317"; "127.0.0.1:4317"; "[::1]:0080"; "[fe80::1%7]:1"; "[::ffff:127.0.0.1]:9"])
  = [Some {| ip := V4 [0; 0; 0; 0]; port := 4317 |};
     Some {| ip := V4 [127; 0; 0; 1]; port := 4317 |};
     Some {| ip := V6 [0; 0; 0; 0; 0; 0; 0; 1]; port := 80 |};
     Some {| ip := V6 [65152; 0; 0; 0; 0; 0; 0; 1]; port := 1 |};
     Some {| ip := V6 [0; 0; 0; 0; 0; 65535; 32512; 1]; port := 9 |}] /\
  Forall (fun s => bind_address s = None)
    ["localhost:4317"; "127.0.0.1"; "127.0.0.01:1"; "1.2.3:4"; "1.2.3.4:65536"; "[1::2::3]:4"; "::1:80"; ""].
Proof. split; [vm_compute; reflexivity|]. repeat constructor. Qed.

End Net.
