(* ===== verification/Config.v ===== *)
(** * Configuration
    ([crates/otel-sqlite/src/config.rs], [config/*.rs], ingress and storage [config.rs])

    The effective configuration is the built-in defaults overlaid with a TOML
    file and then validated.  The TOML decoder is a library: the model starts
    from the decoded [FileConfig], whose duration knobs and retention value it
    decodes itself.  The file system answers [readable_file] through an oracle;
    messages are values of [ConfigError], and the diagnostics validation logs
    are left out. *)

From S2P Require Import Prelude Time Model Text Render Command CommitLedger InsertBatcher OriginBuffers BatcherDriver Sqlite Rows Maintenance Writer Pipeline Scheduler Watchdog Mapping Net.
From Stdlib Require Import SpecFloat.

Module Config.
Import Time.

Local Open Scope string_scope.
Local Open Scope list_scope.
Local Open Scope N_scope.

Inductive ConfigError :=
| InvalidListenAddress (address : string)
| ZeroListenPort
| CleartextExposure (address : string)
| OutOfRange (key : string) (minimum maximum value : N)
| BadDuration (key : string) (maximum value : Duration)
| QuotaTooSmall (quota : N)
| MaintenanceStallTooShort
| DegradedNotBeforeUnhealthy
| BatchAgeTooLong (age degraded_after : Duration)
| BadQueuePressureRatio
| InvalidMetricsAddress (address : string)
| ZeroMetricsPort
| RemoteMetrics (address : string)
| NotReadable (key path : string)
| NotRegularFile (key path : string)
| DurationRequired (key : string)
| InvalidRetention
| RetiredMetricsKey
| UnknownCheckpointMode (mode : string)
| MissingTlsCert
| MissingTlsKey
| TokenFileWithoutMode
| MissingTokenFile
| UnknownAuthMode (mode : string)
| UnknownDurabilityMode (mode : string)
| UnknownSynchronous (mode : string)
| InvalidAddress (key raw : string)
| ReadFailed (path : string)
| ParseFailed (path : string)
| InvalidSettings (path : string) (cause : ConfigError).

(** ** Durations ([config/duration.rs])

    The amount is an [f64]: decimal text is converted to the nearest binary64
    number, which is the rounded quotient of two integers. *)

Definition f64 := spec_float.
Definition f64_prec : Z := 53.
Definition f64_emax : Z := 1024.

Definition f64_ratio (n : N) (d : positive) : f64 :=
  match n with
  | 0 => S754_zero false
  | N.pos m => SFdiv f64_prec f64_emax (S754_finite false m 0) (S754_finite false d 0)
  end.

Definition f64_mul : f64 -> f64 -> f64 := SFmul f64_prec f64_emax.

(** [f64::round] (half away from zero), then the saturating [as u64]. *)
Definition round_to_u64 (x : f64) : N :=
  match x with
  | S754_finite false m e =>
      if (0 <=? e)%Z then N.min u64_max (N.shiftl (N.pos m) (Z.to_N e))
      else N.min u64_max (N.shiftr (N.pos m + 2 ^ Z.to_N (- e - 1)) (Z.to_N (- e)))
  | S754_infinity false => u64_max
  | _ => 0
  end.

Definition is_digit (c : ascii) : bool := (48 <=? N_of_ascii c) && (N_of_ascii c <=? 57).

Definition digits_value (l : list ascii) : N :=
  fold_left (fun acc c => acc * 10 + (N_of_ascii c - 48)) l 0.

(** [trimmed.find(..)] and [split_at]: the longest prefix of digits and dots. *)
Fixpoint split_number (l : list ascii) : list ascii * list ascii :=
  match l with
  | [] => ([], [])
  | c :: l' => if is_digit c || Ascii.eqb c "." then let (n, u) := split_number l' in (c :: n, u) else ([], l)
  end.

Fixpoint split_dot (l : list ascii) : list ascii * option (list ascii) :=
  match l with
  | [] => ([], None)
  | c :: l' => if Ascii.eqb c "." then ([], Some l') else let (n, f) := split_dot l' in (c :: n, f)
  end.

(** [str::parse::<f64>] of a text of digits and dots: one dot at most, one digit at least. *)
Definition parse_f64 (l : list ascii) : option f64 :=
  let '(whole, fraction) := split_dot l in
  let fraction := default [] fraction in
  if forallb is_digit fraction && (0 <? length (whole ++ fraction))%nat then
    Some (f64_ratio (digits_value (whole ++ fraction)) (Z.to_pos (10 ^ Z.of_nat (length fraction))))
  else None.

Inductive RawDuration := Enabled (value : Duration) | Disabled.

Definition one_of (names : list string) (s : string) : bool :=
  existsb (fun name => Text.eq_ignore_ascii_case s name) names.

Definition scale_secs (unit_ : string) : option f64 :=
  if one_of ["ms"; "millis"; "millisecond"; "milliseconds"] unit_ then Some (f64_ratio 1 1000)
  else if one_of ["s"; "sec"; "secs"; "second"; "seconds"] unit_ then Some (f64_ratio 1 1)
  else if one_of ["m"; "min"; "mins"; "minute"; "minutes"] unit_ then Some (f64_ratio 60 1)
  else if one_of ["h"; "hr"; "hrs"; "hour"; "hours"] unit_ then Some (f64_ratio 3600 1)
  else if one_of ["d"; "day"; "days"] unit_ then Some (f64_ratio 86400 1)
  else None.

Inductive DurationError := LacksUnit | NotANumber | UnknownUnit (unit_ : string).

Definition RawDuration_parse (text : string) : result DurationError RawDuration :=
  let trimmed := Text.trim text in
  if Text.is_empty trimmed || one_of ["off"; "none"; "never"; "disabled"] trimmed then Ok Disabled
  else
    let '(number, rest) := split_number (Text.bytes_of_string trimmed) in
    match rest with
    | [] => Err LacksUnit
    | _ =>
        match parse_f64 number with
        | None => Err NotANumber
        | Some amount =>
            let unit_ := Text.trim (Text.string_of_bytes rest) in
            match scale_secs unit_ with
            | None => Err (UnknownUnit unit_)
            | Some scale =>
                Ok (Enabled (from_millis (round_to_u64 (f64_mul (f64_mul amount scale) (f64_ratio 1000 1)))))
            end
        end
    end.

(** A decoded TOML value, as far as the configuration looks into it. *)
Inductive TomlValue :=
| TInteger (value : Z)
| TString (value : string)
| TTable (entries : list (string * TomlValue))
| TOther.

(** [RawDuration::deserialize]: an unsigned integer of seconds, or a text. *)
Definition RawDuration_deserialize (v : TomlValue) : result unit RawDuration :=
  match v with
  | TInteger n => if (n <? 0)%Z then Err tt else Ok (Enabled (from_secs (Z.to_N n)))
  | TString s => match RawDuration_parse s with Ok d => Ok d | Err _ => Err tt end
  | TTable _ | TOther => Err tt
  end.

Definition apply_required_duration (target : Duration) (raw : option RawDuration) (key : string)
    : result ConfigError Duration :=
  match raw with
  | None => Ok target
  | Some (Enabled value) => Ok value
  | Some Disabled => Err (DurationRequired key)
  end.

Definition apply_optional_duration (target : option Duration) (raw : option RawDuration) : option Duration :=
  match raw with
  | None => target
  | Some (Enabled value) => Some value
  | Some Disabled => None
  end.

(** ** Sections *)

Record MaintenanceSection := {
  ms_retention : option TomlValue;
  ms_purge_interval : option RawDuration;
  ms_checkpoint_interval : option RawDuration;
  ms_checkpoint_mode : option string;
  ms_optimize_interval : option RawDuration;
  ms_vacuum_interval : option RawDuration;
  ms_rebuild_fts_interval : option RawDuration;
  ms_retry_delay : option RawDuration;
}.

Definition lookup_key (k : string) (entries : list (string * TomlValue)) : option TomlValue :=
  snd <$> head (filter (fun kv => kv.1 = k) entries).

Record RetentionSection := {
  rs_logs : option RawDuration;
  rs_metrics : option TomlValue;
}.

(** [raw.try_into::<RetentionSection>()]: unknown keys are refused. *)
Definition RetentionSection_try_from (entries : list (string * TomlValue)) : result ConfigError RetentionSection :=
  if forallb (fun kv => String.eqb kv.1 "logs" || String.eqb kv.1 "metrics") entries then
    match lookup_key "logs" entries with
    | None => Ok {| rs_logs := None; rs_metrics := lookup_key "metrics" entries |}
    | Some v =>
        match RawDuration_deserialize v with
        | Ok d => Ok {| rs_logs := Some d; rs_metrics := lookup_key "metrics" entries |}
        | Err _ => Err InvalidRetention
        end
    end
  else Err InvalidRetention.

Definition apply_retention (target : option Duration) (raw : option TomlValue) : result ConfigError (option Duration) :=
  match raw with
  | None => Ok target
  | Some (TTable entries) =>
      let? section := RetentionSection_try_from entries in
      match rs_metrics section with
      | Some _ => Err RetiredMetricsKey
      | None => Ok (apply_optional_duration target (rs_logs section))
      end
  | Some v =>
      match RawDuration_deserialize v with
      | Ok (Enabled window) => Ok (Some window)
      | Ok Disabled => Ok None
      | Err _ => Err InvalidRetention
      end
  end.

Definition parse_checkpoint_mode (text : string) : result ConfigError Command.CheckpointMode :=
  let trimmed := Text.trim text in
  if Text.eq_ignore_ascii_case trimmed "passive" then Ok Command.Passive
  else if Text.eq_ignore_ascii_case trimmed "full" then Ok Command.Full
  else if Text.eq_ignore_ascii_case trimmed "restart" then Ok Command.Restart_
  else if Text.eq_ignore_ascii_case trimmed "truncate" then Ok Command.Truncate
  else Err (UnknownCheckpointMode trimmed).

Definition MaintenanceSection_apply_to (s : MaintenanceSection) (c : Scheduler.MaintenanceConfig)
    : result ConfigError Scheduler.MaintenanceConfig :=
  let? window := apply_retention (Scheduler.retention c) (ms_retention s) in
  let? delay := apply_required_duration (Scheduler.retry_delay c) (ms_retry_delay s) "maintenance.retry_delay" in
  let? mode := match ms_checkpoint_mode s with
               | Some text => parse_checkpoint_mode text
               | None => Ok (Scheduler.checkpoint_mode c)
               end in
  Ok {| Scheduler.retention := window;
        Scheduler.cfg_purge_interval := apply_optional_duration (Scheduler.cfg_purge_interval c) (ms_purge_interval s);
        Scheduler.checkpoint_interval :=
          apply_optional_duration (Scheduler.checkpoint_interval c) (ms_checkpoint_interval s);
        Scheduler.checkpoint_mode := mode;
        Scheduler.optimize_interval := apply_optional_duration (Scheduler.optimize_interval c) (ms_optimize_interval s);
        Scheduler.vacuum_interval := apply_optional_duration (Scheduler.vacuum_interval c) (ms_vacuum_interval s);
        Scheduler.rebuild_fts_interval :=
          apply_optional_duration (Scheduler.rebuild_fts_interval c) (ms_rebuild_fts_interval s);
        Scheduler.retry_delay := delay |}.

Record WatchdogSection := {
  wd_tick_interval : option RawDuration;
  wd_degraded_after : option RawDuration;
  wd_unhealthy_after : option RawDuration;
  wd_ack_stall_after : option RawDuration;
  wd_maintenance_stall_after : option RawDuration;
  wd_queue_pressure_ratio : option Watchdog.f32;
  wd_halt_on_unhealthy : option bool;
}.

Definition WatchdogSection_apply_to (s : WatchdogSection) (c : Watchdog.WatchdogConfig)
    : result ConfigError Watchdog.WatchdogConfig :=
  let? tick := apply_required_duration (Watchdog.tick_interval c) (wd_tick_interval s) "watchdog.tick_interval" in
  let? degraded := apply_required_duration (Watchdog.degraded_after c) (wd_degraded_after s)
                     "watchdog.degraded_after" in
  let? unhealthy := apply_required_duration (Watchdog.unhealthy_after c) (wd_unhealthy_after s)
                      "watchdog.unhealthy_after" in
  let? ack := apply_required_duration (Watchdog.ack_stall_after c) (wd_ack_stall_after s)
                "watchdog.ack_stall_after" in
  let? stall := apply_required_duration (Watchdog.maintenance_stall_after c) (wd_maintenance_stall_after s)
                  "watchdog.maintenance_stall_after" in
  Ok {| Watchdog.tick_interval := tick; Watchdog.degraded_after := degraded; Watchdog.unhealthy_after := unhealthy;
        Watchdog.ack_stall_after := ack; Watchdog.maintenance_stall_after := stall;
        Watchdog.queue_pressure_ratio := default (Watchdog.queue_pressure_ratio c) (wd_queue_pressure_ratio s);
        Watchdog.halt_on_unhealthy := default (Watchdog.halt_on_unhealthy c) (wd_halt_on_unhealthy s) |}.

Record TlsConfig := { cert : string; key : string; client_ca : option string }.
Record AuthConfig := { token_file : string }.
Record TlsSection := { ts_cert : option string; ts_key : option string; ts_client_ca : option string }.
Record AuthSection := { as_mode : option string; as_token_file : option string }.
Record DurabilitySection := { ds_mode : option string; ds_synchronous : option string }.

Definition TlsSection_apply_to (s : TlsSection) : result ConfigError TlsConfig :=
  match ts_cert s, ts_key s with
  | None, _ => Err MissingTlsCert
  | Some _, None => Err MissingTlsKey
  | Some c, Some k => Ok {| cert := c; key := k; client_ca := ts_client_ca s |}
  end.

Definition AuthSection_apply_to (s : AuthSection) : result ConfigError (option AuthConfig) :=
  let mode := match as_mode s with Some m => Text.trim m | None => "none" end in
  if Text.eq_ignore_ascii_case mode "none" then
    match as_token_file s with Some _ => Err TokenFileWithoutMode | None => Ok None end
  else if Text.eq_ignore_ascii_case mode "token" then
    match as_token_file s with
    | Some file => Ok (Some {| token_file := file |})
    | None => Err MissingTokenFile
    end
  else Err (UnknownAuthMode mode).

(** ** The effective configuration ([config.rs]) *)

Definition DEFAULT_LISTEN_ADDRESS : string := "127.0.0.1:4317".
Definition DEFAULT_MAX_RECV_MSG_SIZE : N := 16 * 1024 * 1024.
Definition DEFAULT_MAX_CONCURRENT_STREAMS : N := 64.
Definition DEFAULT_MAPPING_CONCURRENCY : N := 2 * DEFAULT_MAX_CONCURRENT_STREAMS.
Definition DEFAULT_SHUTDOWN_TIMEOUT : Duration := from_secs 30.
Definition DEFAULT_MAX_RECORDS_PER_REQUEST : N := 100000.
Definition DEFAULT_MAX_ATTRIBUTES_PER_RECORD : N := 1000.
Definition DEFAULT_MAX_ATTRIBUTE_KEY_BYTES : N := 512.
Definition DEFAULT_MAX_ATTRIBUTE_VALUE_BYTES : N := 64 * 1024.
Definition DEFAULT_MAX_BODY_BYTES : N := 1024 * 1024.
Definition DEFAULT_MAX_SCOPE_METADATA_EXPANSION_BYTES : N := 16 * 1024 * 1024.
Definition MAX_MAPPING_CONCURRENCY : N := 512.
Definition MAX_ATTRIBUTES_PER_RECORD : N := 100000.
Definition MAX_ATTRIBUTE_KEY_BYTES : N := 16384.
Definition MAX_ATTRIBUTE_VALUE_BYTES : N := 4 * 1024 * 1024.
Definition MAX_BODY_BYTES : N := 16 * 1024 * 1024.
Definition MAX_SCOPE_METADATA_EXPANSION_BYTES : N := 256 * 1024 * 1024.
Definition DEFAULT_INGEST_QUEUE_CAPACITY : N := 50000.
Definition DEFAULT_COMMAND_QUEUE_CAPACITY : N := 50000.
Definition DEFAULT_STARTUP_TIMEOUT : Duration := from_secs 30.
Definition MAX_INGEST_QUEUE_CAPACITY : N := 1000000.
Definition MAX_GRPC_RECV_MSG_SIZE : N := 256 * 1024 * 1024.
Definition MAX_GRPC_CONCURRENT_STREAMS : N := 1024.
Definition MAX_BATCH_RECORDS : N := 100000.
Definition MAX_RECORDS_PER_REQUEST : N := 1000000.
Definition MIN_DB_QUOTA_BYTES : N := 1024 * 1024.
Definition MAX_TIMEOUT : Duration := from_secs (60 * 60).
Definition MAX_RETENTION : Duration := from_secs (10 * 365 * 24 * 60 * 60).

Record Config := {
  listen_address : string;
  sqlite_path : string;
  ingest_queue_capacity : N;
  command_queue_capacity : N;
  batcher_max_batch_records : N;
  batcher_max_batch_age : Duration;
  grpc_max_recv_msg_size : N;
  grpc_max_concurrent_streams : N;
  mapping_concurrency : N;
  max_records_per_request : N;
  max_attributes_per_record : N;
  max_attribute_key_bytes : N;
  max_attribute_value_bytes : N;
  max_body_bytes : N;
  max_scope_metadata_expansion_bytes : N;
  max_db_bytes : option N;
  shutdown_timeout : Duration;
  maintenance : Scheduler.MaintenanceConfig;
  watchdog : Watchdog.WatchdogConfig;
  durability_mode : Command.DurabilityMode;
  sqlite_synchronous : Command.SyncMode;
  metrics_address : option string;
  allow_remote_metrics : bool;
  allow_insecure_remote : bool;
  tls : option TlsConfig;
  auth : option AuthConfig;
}.

Definition Config_default : Config :=
  {| listen_address := DEFAULT_LISTEN_ADDRESS;
     sqlite_path := "otel-logs.db";
     ingest_queue_capacity := DEFAULT_INGEST_QUEUE_CAPACITY;
     command_queue_capacity := DEFAULT_COMMAND_QUEUE_CAPACITY;
     batcher_max_batch_records := N.of_nat InsertBatcher.DEFAULT_MAX_INSERT_BATCH_RECORDS;
     batcher_max_batch_age := InsertBatcher.DEFAULT_MAX_INSERT_BATCH_AGE;
     grpc_max_recv_msg_size := DEFAULT_MAX_RECV_MSG_SIZE;
     grpc_max_concurrent_streams := DEFAULT_MAX_CONCURRENT_STREAMS;
     mapping_concurrency := DEFAULT_MAPPING_CONCURRENCY;
     max_records_per_request := DEFAULT_MAX_RECORDS_PER_REQUEST;
     max_attributes_per_record := DEFAULT_MAX_ATTRIBUTES_PER_RECORD;
     max_attribute_key_bytes := DEFAULT_MAX_ATTRIBUTE_KEY_BYTES;
     max_attribute_value_bytes := DEFAULT_MAX_ATTRIBUTE_VALUE_BYTES;
     max_body_bytes := DEFAULT_MAX_BODY_BYTES;
     max_scope_metadata_expansion_bytes := DEFAULT_MAX_SCOPE_METADATA_EXPANSION_BYTES;
     max_db_bytes := None;
     shutdown_timeout := DEFAULT_SHUTDOWN_TIMEOUT;
     maintenance := Scheduler.MaintenanceConfig_default;
     watchdog := Watchdog.WatchdogConfig_default;
     durability_mode := Command.Commit;
     sqlite_synchronous := Command.SyncNormal;
     metrics_address := None;
     allow_remote_metrics := false;
     allow_insecure_remote := false;
     tls := None;
     auth := None |}.

(** ** The overlay ([config/file.rs]) *)

Record FileConfig := {
  f_listen_address : option string;
  f_sqlite_path : option string;
  f_ingest_queue_capacity : option N;
  f_command_queue_capacity : option N;
  f_batcher_max_batch_records : option N;
  f_batcher_max_batch_age : option RawDuration;
  f_grpc_max_recv_msg_size : option N;
  f_grpc_max_concurrent_streams : option N;
  f_mapping_concurrency : option N;
  f_max_records_per_request : option N;
  f_max_attributes_per_record : option N;
  f_max_attribute_key_bytes : option N;
  f_max_attribute_value_bytes : option N;
  f_max_body_bytes : option N;
  f_max_scope_metadata_expansion_bytes : option N;
  f_max_db_bytes : option N;
  f_shutdown_timeout : option RawDuration;
  f_maintenance : option MaintenanceSection;
  f_watchdog : option WatchdogSection;
  f_durability : option DurabilitySection;
  f_metrics_address : option string;
  f_allow_remote_metrics : option bool;
  f_allow_insecure_remote : option bool;
  f_tls : option TlsSection;
  f_auth : option AuthSection;
}.

(** [if let Some(s) = section { f(s, target)? }]. *)
Definition overlay {S A} (section : option S) (f : S -> A -> result ConfigError A) (target : A)
    : result ConfigError A :=
  match section with Some s => f s target | None => Ok target end.

Definition DurabilitySection_apply_to (s : DurabilitySection) (c : Command.DurabilityMode * Command.SyncMode)
    : result ConfigError (Command.DurabilityMode * Command.SyncMode) :=
  let? mode := match ds_mode s with
               | Some m => match Command.DurabilityMode_parse m with
                           | Some v => Ok v
                           | None => Err (UnknownDurabilityMode m)
                           end
               | None => Ok c.1
               end in
  let? sync := match ds_synchronous s with
               | Some m => match Command.SyncMode_parse m with
                           | Some v => Ok v
                           | None => Err (UnknownSynchronous m)
                           end
               | None => Ok c.2
               end in
  Ok (mode, sync).

Definition parse_optional_address (raw key : string) : result ConfigError (option string) :=
  let trimmed := Text.trim raw in
  if Text.is_empty trimmed || one_of ["off"; "none"; "disabled"] trimmed then Ok None
  else match Net.bind_address trimmed with
       | Some _ => Ok (Some trimmed)
       | None => Err (InvalidAddress key raw)
       end.

Definition FileConfig_apply_to (f : FileConfig) (c : Config) : result ConfigError Config :=
  let? batch_age := apply_required_duration (batcher_max_batch_age c) (f_batcher_max_batch_age f)
                      "batcher_max_batch_age" in
  let? shutdown := apply_required_duration (shutdown_timeout c) (f_shutdown_timeout f) "shutdown_timeout" in
  let? maint := overlay (f_maintenance f) MaintenanceSection_apply_to (maintenance c) in
  let? wdog := overlay (f_watchdog f) WatchdogSection_apply_to (watchdog c) in
  let? dur := overlay (f_durability f) DurabilitySection_apply_to (durability_mode c, sqlite_synchronous c) in
  let? metrics := overlay (f_metrics_address f) (fun v _ => parse_optional_address v "metrics_address")
                    (metrics_address c) in
  let? tls_ := overlay (f_tls f) (fun s _ => let? t := TlsSection_apply_to s in Ok (Some t)) (tls c) in
  let? auth_ := overlay (f_auth f) (fun s _ => AuthSection_apply_to s) (auth c) in
  Ok {| listen_address := default (listen_address c) (f_listen_address f);
        sqlite_path := default (sqlite_path c) (f_sqlite_path f);
        ingest_queue_capacity := default (ingest_queue_capacity c) (f_ingest_queue_capacity f);
        command_queue_capacity := default (command_queue_capacity c) (f_command_queue_capacity f);
        batcher_max_batch_records := default (batcher_max_batch_records c) (f_batcher_max_batch_records f);
        batcher_max_batch_age := batch_age;
        grpc_max_recv_msg_size := default (grpc_max_recv_msg_size c) (f_grpc_max_recv_msg_size f);
        grpc_max_concurrent_streams := default (grpc_max_concurrent_streams c) (f_grpc_max_concurrent_streams f);
        mapping_concurrency := default (mapping_concurrency c) (f_mapping_concurrency f);
        max_records_per_request := default (max_records_per_request c) (f_max_records_per_request f);
        max_attributes_per_record := default (max_attributes_per_record c) (f_max_attributes_per_record f);
        max_attribute_key_bytes := default (max_attribute_key_bytes c) (f_max_attribute_key_bytes f);
        max_attribute_value_bytes := default (max_attribute_value_bytes c) (f_max_attribute_value_bytes f);
        max_body_bytes := default (max_body_bytes c) (f_max_body_bytes f);
        max_scope_metadata_expansion_bytes :=
          default (max_scope_metadata_expansion_bytes c) (f_max_scope_metadata_expansion_bytes f);
        max_db_bytes := match f_max_db_bytes f with Some v => Some v | None => max_db_bytes c end;
        shutdown_timeout := shutdown;
        maintenance := maint;
        watchdog := wdog;
        durability_mode := dur.1;
        sqlite_synchronous := dur.2;
        metrics_address := metrics;
        allow_remote_metrics := default (allow_remote_metrics c) (f_allow_remote_metrics f);
        allow_insecure_remote := default (allow_insecure_remote c) (f_allow_insecure_remote f);
        tls := tls_;
        auth := auth_ |}.

(** ** Validation ([config/validate.rs]) *)

(** What the file system answers for a path. *)
Inductive PathView := NoMetadata | NotAFile | CannotOpen | Opens.

Definition validate_range (key : string) (value minimum maximum : N) : result ConfigError unit :=
  if (value <? minimum) || (maximum <? value) then Err (OutOfRange key minimum maximum value) else Ok tt.

Definition validate_duration (key : string) (value : Duration) : result ConfigError unit :=
  if (value =? 0) || (MAX_TIMEOUT <? value) then Err (BadDuration key MAX_TIMEOUT value) else Ok tt.

Definition validate_optional_duration (key : string) (value : option Duration) (maximum : Duration)
    : result ConfigError unit :=
  match value with
  | Some v => if (v =? 0) || (maximum <? v) then Err (BadDuration key maximum v) else Ok tt
  | None => Ok tt
  end.

Definition validate_listen (c : Config) : result ConfigError unit :=
  match Net.bind_address (listen_address c) with
  | None => Err (InvalidListenAddress (listen_address c))
  | Some listen =>
      if Net.port listen =? 0 then Err ZeroListenPort
      else if negb (Net.is_loopback_listen (listen_address c))
              && match tls c with None => true | Some _ => false end
              && negb (allow_insecure_remote c) then
        Err (CleartextExposure (listen_address c))
      else Ok tt
  end.

Definition validate_queues_and_grpc (c : Config) : result ConfigError unit :=
  let? _ := validate_range "ingest_queue_capacity" (ingest_queue_capacity c) 1 MAX_INGEST_QUEUE_CAPACITY in
  let? _ := validate_range "command_queue_capacity" (command_queue_capacity c) 1 MAX_INGEST_QUEUE_CAPACITY in
  let? _ := validate_range "batcher_max_batch_records" (batcher_max_batch_records c) 1 MAX_BATCH_RECORDS in
  let? _ := validate_range "grpc_max_recv_msg_size" (grpc_max_recv_msg_size c) 1024 MAX_GRPC_RECV_MSG_SIZE in
  let? _ := validate_range "grpc_max_concurrent_streams" (grpc_max_concurrent_streams c) 1
              MAX_GRPC_CONCURRENT_STREAMS in
  let? _ := validate_range "mapping_concurrency" (mapping_concurrency c) 1 MAX_MAPPING_CONCURRENCY in
  let? _ := validate_duration "batcher_max_batch_age" (batcher_max_batch_age c) in
  validate_duration "shutdown_timeout" (shutdown_timeout c).

Definition validate_mapping_limits (c : Config) : result ConfigError unit :=
  let? _ := validate_range "max_records_per_request" (max_records_per_request c) 1 MAX_RECORDS_PER_REQUEST in
  let? _ := validate_range "max_attributes_per_record" (max_attributes_per_record c) 1 MAX_ATTRIBUTES_PER_RECORD in
  let? _ := validate_range "max_attribute_key_bytes" (max_attribute_key_bytes c) 1 MAX_ATTRIBUTE_KEY_BYTES in
  let? _ := validate_range "max_attribute_value_bytes" (max_attribute_value_bytes c) 1 MAX_ATTRIBUTE_VALUE_BYTES in
  let? _ := validate_range "max_body_bytes" (max_body_bytes c) 1 MAX_BODY_BYTES in
  validate_range "max_scope_metadata_expansion_bytes" (max_scope_metadata_expansion_bytes c) 1024
    MAX_SCOPE_METADATA_EXPANSION_BYTES.

Definition validate_quota (c : Config) : result ConfigError unit :=
  match max_db_bytes c with
  | Some quota => if quota <? MIN_DB_QUOTA_BYTES then Err (QuotaTooSmall quota) else Ok tt
  | None => Ok tt
  end.

Definition validate_maintenance (c : Config) : result ConfigError unit :=
  let m := maintenance c in
  let? _ := validate_duration "maintenance.retry_delay" (Scheduler.retry_delay m) in
  let? _ := validate_optional_duration "maintenance.retention" (Scheduler.retention m) MAX_RETENTION in
  let? _ := validate_optional_duration "maintenance.purge_interval" (Scheduler.cfg_purge_interval m) MAX_TIMEOUT in
  let? _ := validate_optional_duration "maintenance.checkpoint_interval" (Scheduler.checkpoint_interval m)
              MAX_TIMEOUT in
  let? _ := validate_optional_duration "maintenance.optimize_interval" (Scheduler.optimize_interval m)
              MAX_RETENTION in
  let? _ := validate_optional_duration "maintenance.vacuum_interval" (Scheduler.vacuum_interval m) MAX_RETENTION in
  validate_optional_duration "maintenance.rebuild_fts_interval" (Scheduler.rebuild_fts_interval m) MAX_RETENTION.

Definition validate_watchdog (c : Config) : result ConfigError unit :=
  let w := watchdog c in
  let? _ := validate_duration "watchdog.tick_interval" (Watchdog.tick_interval w) in
  let? _ := validate_duration "watchdog.degraded_after" (Watchdog.degraded_after w) in
  let? _ := validate_duration "watchdog.unhealthy_after" (Watchdog.unhealthy_after w) in
  let? _ := validate_duration "watchdog.ack_stall_after" (Watchdog.ack_stall_after w) in
  let? _ := validate_duration "watchdog.maintenance_stall_after" (Watchdog.maintenance_stall_after w) in
  if Watchdog.maintenance_stall_after w <? Watchdog.unhealthy_after w then Err MaintenanceStallTooShort
  else if Watchdog.unhealthy_after w <=? Watchdog.degraded_after w then Err DegradedNotBeforeUnhealthy
  else if Watchdog.degraded_after w <=? batcher_max_batch_age c then
    Err (BatchAgeTooLong (batcher_max_batch_age c) (Watchdog.degraded_after w))
  else
    let ratio := Watchdog.queue_pressure_ratio w in
    if negb (Watchdog.f32_is_finite ratio)
       || negb (SFleb Watchdog.f32_zero ratio && SFleb ratio Watchdog.f32_one)
       || SFeqb ratio Watchdog.f32_zero then Err BadQueuePressureRatio
    else Ok tt.

Definition validate_endpoints (c : Config) : result ConfigError unit :=
  match metrics_address c with
  | None => Ok tt
  | Some address =>
      match Net.bind_address address with
      | None => Err (InvalidMetricsAddress address)
      | Some parsed =>
          if Net.port parsed =? 0 then Err ZeroMetricsPort
          else if negb (Net.is_loopback (Net.ip parsed)) && negb (allow_remote_metrics c) then
            Err (RemoteMetrics address)
          else Ok tt
      end
  end.

Section environment.
Variable fs : string -> PathView.

Definition readable_file (key path : string) : result ConfigError unit :=
  match fs path with
  | NoMetadata | CannotOpen => Err (NotReadable key path)
  | NotAFile => Err (NotRegularFile key path)
  | Opens => Ok tt
  end.

Definition validate_security (c : Config) : result ConfigError unit :=
  let? _ := match tls c with
            | Some t =>
                let? _ := readable_file "tls.cert" (cert t) in
                let? _ := readable_file "tls.key" (key t) in
                match client_ca t with Some ca => readable_file "tls.client_ca" ca | None => Ok tt end
            | None => Ok tt
            end in
  match auth c with Some a => readable_file "auth.token_file" (token_file a) | None => Ok tt end.

Definition validate_config (c : Config) : result ConfigError unit :=
  let? _ := validate_listen c in
  let? _ := validate_queues_and_grpc c in
  let? _ := validate_mapping_limits c in
  let? _ := validate_quota c in
  let? _ := validate_maintenance c in
  let? _ := validate_watchdog c in
  let? _ := validate_endpoints c in
  validate_security c.

(** ** Loading *)

(** [std::env::var_os], [std::fs::read_to_string] and the TOML decoder. *)
Variable var_os : string -> option string.
Variable read_to_string : string -> option string.
Variable toml_from_str : string -> option FileConfig.

Definition CONFIG_PATH_ENV_VAR : string := "OTEL_SQLITE_CFG_PATH".
Definition CONFIG_PATH_ENV_VAR_LOWER : string := "otel-sqlite-cfg-path".

Definition env_config_path : option string :=
  let named name := match var_os name with
                    | Some value => if Text.is_empty value then None else Some value
                    | None => None
                    end in
  match named CONFIG_PATH_ENV_VAR with
  | Some path => Some path
  | None => named CONFIG_PATH_ENV_VAR_LOWER
  end.

Definition from_file (path : string) : result ConfigError Config :=
  match read_to_string path with
  | None => Err (ReadFailed path)
  | Some text =>
      match toml_from_str text with
      | None => Err (ParseFailed path)
      | Some file =>
          match FileConfig_apply_to file Config_default with
          | Err e => Err (InvalidSettings path e)
          | Ok config => let? _ := validate_config config in Ok config
          end
      end
  end.

Definition from_env : result ConfigError Config :=
  match env_config_path with
  | Some path => from_file path
  | None => let? _ := validate_config Config_default in Ok Config_default
  end.

End environment.

(** ** What the components receive *)

Record StorageConfig := {
  st_sqlite_path : string;
  insert_batcher : InsertBatcher.InsertBatcherConfig;
  st_command_queue_capacity : N;
  st_max_db_bytes : option N;
  synchronous : Command.SyncMode;
  startup_timeout : Duration;
  st_shutdown_timeout : Duration;
}.

Definition storage_config (c : Config) : StorageConfig :=
  {| st_sqlite_path := sqlite_path c;
     insert_batcher := {| InsertBatcher.max_batch_records := N.to_nat (batcher_max_batch_records c);
                          InsertBatcher.max_batch_age := batcher_max_batch_age c |};
     st_command_queue_capacity := command_queue_capacity c;
     st_max_db_bytes := max_db_bytes c;
     synchronous := sqlite_synchronous c;
     startup_timeout := DEFAULT_STARTUP_TIMEOUT;
     st_shutdown_timeout := shutdown_timeout c |}.

Record IngressConfig := {
  in_listen_address : string;
  max_recv_msg_size : N;
  max_concurrent_streams : N;
  in_mapping_concurrency : N;
  in_shutdown_timeout : Duration;
  limits : Mapping.Limits;
  in_durability_mode : Command.DurabilityMode;
  in_tls : option TlsConfig;
  in_auth : option AuthConfig;
}.

Definition ingress_config (c : Config) : IngressConfig :=
  {| in_listen_address := listen_address c;
     max_recv_msg_size := grpc_max_recv_msg_size c;
     max_concurrent_streams := grpc_max_concurrent_streams c;
     in_mapping_concurrency := mapping_concurrency c;
     in_shutdown_timeout := shutdown_timeout c;
     limits :=
       {| Mapping.max_records_per_request := max_records_per_request c;
          Mapping.max_attributes_per_record := max_attributes_per_record c;
          Mapping.max_attribute_key_bytes := max_attribute_key_bytes c;
          Mapping.max_attribute_value_bytes := max_attribute_value_bytes c;
          Mapping.max_body_bytes := max_body_bytes c;
          Mapping.max_scope_metadata_expansion_bytes := max_scope_metadata_expansion_bytes c |};
     in_durability_mode := durability_mode c;
     in_tls := tls c;
     in_auth := auth c |}.

(** [IngressConfig::socket_addr]. *)
Definition socket_addr (i : IngressConfig) : result ConfigError Net.SocketAddr :=
  match Net.bind_address (in_listen_address i) with
  | Some a => Ok a
  | None => Err (InvalidListenAddress (in_listen_address i))
  end.

(** ** What a valid configuration is *)

Definition files (c : Config) : list string :=
  match tls c with Some t => [cert t; key t] ++ option_list (client_ca t) | None => [] end ++
  match auth c with Some a => [token_file a] | None => [] end.

Definition within (x : N * N * N) : Prop := let '(v, lo, hi) := x in lo <= v <= hi.
Definition bounded_delay (x : option Duration * Duration) : Prop := forall d, x.1 = Some d -> 0 < d <= x.2.

Record config_ok (fs : string -> PathView) (c : Config) : Prop := {
  ok_listen : exists a, Net.bind_address (listen_address c) = Some a /\ Net.port a <> 0 /\
    (Net.is_loopback (Net.ip a) = true \/ is_Some (tls c) \/ allow_insecure_remote c = true);
  ok_sizes : Forall within
    [(ingest_queue_capacity c, 1, MAX_INGEST_QUEUE_CAPACITY); (command_queue_capacity c, 1, MAX_INGEST_QUEUE_CAPACITY);
     (batcher_max_batch_records c, 1, MAX_BATCH_RECORDS); (grpc_max_recv_msg_size c, 1024, MAX_GRPC_RECV_MSG_SIZE);
     (grpc_max_concurrent_streams c, 1, MAX_GRPC_CONCURRENT_STREAMS);
     (mapping_concurrency c, 1, MAX_MAPPING_CONCURRENCY); (max_records_per_request c, 1, MAX_RECORDS_PER_REQUEST);
     (max_attributes_per_record c, 1, MAX_ATTRIBUTES_PER_RECORD);
     (max_attribute_key_bytes c, 1, MAX_ATTRIBUTE_KEY_BYTES);
     (max_attribute_value_bytes c, 1, MAX_ATTRIBUTE_VALUE_BYTES); (max_body_bytes c, 1, MAX_BODY_BYTES);
     (max_scope_metadata_expansion_bytes c, 1024, MAX_SCOPE_METADATA_EXPANSION_BYTES)];
  ok_quota : forall q, max_db_bytes c = Some q -> MIN_DB_QUOTA_BYTES <= q;
  ok_delays : Forall (fun d => 0 < d <= MAX_TIMEOUT)
    [batcher_max_batch_age c; shutdown_timeout c; Scheduler.retry_delay (maintenance c);
     Watchdog.tick_interval (watchdog c); Watchdog.degraded_after (watchdog c);
     Watchdog.unhealthy_after (watchdog c); Watchdog.ack_stall_after (watchdog c);
     Watchdog.maintenance_stall_after (watchdog c)];
  ok_schedule : Forall bounded_delay
    [(Scheduler.retention (maintenance c), MAX_RETENTION);
     (Scheduler.cfg_purge_interval (maintenance c), MAX_TIMEOUT);
     (Scheduler.checkpoint_interval (maintenance c), MAX_TIMEOUT);
     (Scheduler.optimize_interval (maintenance c), MAX_RETENTION);
     (Scheduler.vacuum_interval (maintenance c), MAX_RETENTION);
     (Scheduler.rebuild_fts_interval (maintenance c), MAX_RETENTION)];
  ok_order : batcher_max_batch_age c < Watchdog.degraded_after (watchdog c) /\
    Watchdog.degraded_after (watchdog c) < Watchdog.unhealthy_after (watchdog c) <=
    Watchdog.maintenance_stall_after (watchdog c);
  ok_ratio : SFltb Watchdog.f32_zero (Watchdog.queue_pressure_ratio (watchdog c)) = true /\
    SFleb (Watchdog.queue_pressure_ratio (watchdog c)) Watchdog.f32_one = true;
  ok_metrics : forall address, metrics_address c = Some address -> exists a,
    Net.bind_address address = Some a /\ Net.port a <> 0 /\
    (Net.is_loopback (Net.ip a) = true \/ allow_remote_metrics c = true);
  ok_files : Forall (fun path => fs path = Opens) (files c);
}.

(** ** Lemmas on the checks *)

Lemma and_then_ok {E} (a b : result E unit) :
  match a with Ok _ => b | Err e => Err e end = Ok tt <-> a = Ok tt /\ b = Ok tt.
Proof. destruct a as [[]|]; naive_solver. Qed.

Lemma guard_ok {E} (b : bool) (e : E) (k : result E unit) :
  (if b then Err e else k) = Ok tt <-> b = false /\ k = Ok tt.
Proof. destruct b; naive_solver. Qed.

Lemma validate_range_ok key v lo hi : validate_range key v lo hi = Ok tt <-> lo <= v <= hi.
Proof. unfold validate_range. rewrite guard_ok, orb_false_iff, !N.ltb_ge. naive_solver. Qed.

Lemma validate_duration_ok key d : validate_duration key d = Ok tt <-> 0 < d <= MAX_TIMEOUT.
Proof. unfold validate_duration. rewrite guard_ok, orb_false_iff, N.eqb_neq, N.ltb_ge. split; [|split; [|done]]; lia. Qed.

Lemma validate_optional_duration_ok key d hi :
  validate_optional_duration key d hi = Ok tt <-> bounded_delay (d, hi).
Proof.
  unfold bounded_delay. destruct d as [d|]; simpl; [|naive_solver].
  rewrite guard_ok, orb_false_iff, N.eqb_neq, N.ltb_ge. split; [intros [[] _] ? [= <-]; lia|].
  intros H. specialize (H d eq_refl). split; [lia|done].
Qed.

Lemma ratio_ok r :
  negb (Watchdog.f32_is_finite r) || negb (SFleb Watchdog.f32_zero r && SFleb r Watchdog.f32_one)
    || SFeqb r Watchdog.f32_zero = false <->
  SFltb Watchdog.f32_zero r = true /\ SFleb r Watchdog.f32_one = true.
Proof.
  rewrite !orb_false_iff, !negb_false_iff, andb_true_iff.
  destruct (SFleb r Watchdog.f32_one) eqn:E; [|intuition congruence].
  destruct r as [[]|[]| |[] m e]; unfold SFltb, SFleb, SFeqb, SFcompare, Watchdog.f32_zero, Watchdog.f32_is_finite;
    try intuition congruence; by vm_compute in E.
Qed.

Lemma validate_listen_ok c :
  validate_listen c = Ok tt <->
  exists a, Net.bind_address (listen_address c) = Some a /\ Net.port a <> 0 /\
    (Net.is_loopback (Net.ip a) = true \/ is_Some (tls c) \/ allow_insecure_remote c = true).
Proof.
  unfold validate_listen, Net.is_loopback_listen.
  destruct (Net.bind_address (listen_address c)) as [a|]; [|naive_solver].
  rewrite !guard_ok, N.eqb_neq. split.
  - intros (? & Hb & _). exists a. split_and!; [done..|]. revert Hb.
    destruct (Net.is_loopback (Net.ip a)), (tls c), (allow_insecure_remote c); naive_solver.
  - intros (? & [= <-] & ? & H). split_and!; [done| |done].
    destruct H as [->|[[? ->]| ->]]; simpl; by rewrite ?andb_false_r.
Qed.

Lemma validate_endpoints_ok c :
  validate_endpoints c = Ok tt <->
  forall address, metrics_address c = Some address -> exists a,
    Net.bind_address address = Some a /\ Net.port a <> 0 /\
    (Net.is_loopback (Net.ip a) = true \/ allow_remote_metrics c = true).
Proof.
  unfold validate_endpoints. destruct (metrics_address c) as [address|]; [|naive_solver].
  destruct (Net.bind_address address) as [a|] eqn:Ea.
  2: { split; [done|]. intros H. destruct (H address eq_refl) as (? & ? & _). congruence. }
  rewrite !guard_ok, N.eqb_neq, andb_false_iff, !negb_false_iff. split.
  - intros (? & ? & _) ? [= <-]. by exists a.
  - intros H. destruct (H address eq_refl) as (b & Hb & ? & ?). rewrite Ea in Hb. simplify_eq. by split_and!.
Qed.

#[local] Opaque N.le N.lt MAX_INGEST_QUEUE_CAPACITY MAX_BATCH_RECORDS MAX_GRPC_RECV_MSG_SIZE
  MAX_GRPC_CONCURRENT_STREAMS MAX_MAPPING_CONCURRENCY MAX_RECORDS_PER_REQUEST MAX_ATTRIBUTES_PER_RECORD
  MAX_ATTRIBUTE_KEY_BYTES MAX_ATTRIBUTE_VALUE_BYTES MAX_BODY_BYTES MAX_SCOPE_METADATA_EXPANSION_BYTES
  MIN_DB_QUOTA_BYTES MAX_TIMEOUT MAX_RETENTION.

Section properties.
Context (fs : string -> PathView).

Lemma readable_file_ok key path : readable_file fs key path = Ok tt <-> fs path = Opens.
Proof. unfold readable_file. destruct (fs path); naive_solver. Qed.

Lemma validate_security_ok c : validate_security fs c = Ok tt <-> Forall (fun path => fs path = Opens) (files c).
Proof.
  unfold validate_security, files. rewrite and_then_ok, Forall_app.
  destruct (tls c) as [[ct k [ca|]]|], (auth c) as [[tok]|]; simpl;
    rewrite ?and_then_ok, ?readable_file_ok, ?Forall_cons, ?Forall_nil; naive_solver.
Qed.

Lemma validate_spec c : validate_config fs c = Ok tt <-> config_ok fs c.
Proof.
  unfold validate_config, validate_queues_and_grpc, validate_mapping_limits, validate_maintenance, validate_watchdog.
  rewrite !and_then_ok, !guard_ok, ratio_ok, validate_listen_ok, validate_endpoints_ok, validate_security_ok,
    !validate_range_ok, !validate_duration_ok, !validate_optional_duration_ok, !N.leb_gt, N.ltb_ge.
  assert (validate_quota c = Ok tt <-> forall q, max_db_bytes c = Some q -> MIN_DB_QUOTA_BYTES <= q) as ->.
  { unfold validate_quota. destruct (max_db_bytes c) as [q|]; [|naive_solver].
    rewrite guard_ok, N.ltb_ge. naive_solver. }
  split.
  - intros (Hl & (?&?&?&?&?&?&?&?) & (?&?&?&?&?&?) & Hq & (?&?&?&?&?&?&?) & (?&?&?&?&?&?&?&?&?&_) & Hm & Hf).
    split; [assumption|..]; try (rewrite !Forall_cons, Forall_nil; unfold within); 
      repeat (assumption || exact I || apply conj).
  - intros [Hl Hs Hq Hd Hsc [? [? ?]] Hr Hm Hf]. 
    rewrite !Forall_cons in Hs. rewrite !Forall_cons in Hd. rewrite !Forall_cons in Hsc. unfold within in Hs.
    destruct Hs as (?&?&?&?&?&?&?&?&?&?&?&?&_), Hd as (?&?&?&?&?&?&?&?&_), Hsc as (?&?&?&?&?&?&_).
    repeat (assumption || reflexivity || apply conj).
Qed.

(** C24: Validation accepts exactly the configurations within every documented bound
    that do not expose telemetry in clear text, whose thresholds are ordered and
    whose credential files can be read. *)
Theorem validate_exact c : validate_config fs c = Ok tt <-> config_ok fs c.
Proof. apply validate_spec. Qed.
End properties.

#[local] Transparent N.le N.lt.

Lemma from_file_validated fs read toml path c :
  from_file fs read toml path = Ok c -> validate_config fs c = Ok tt.
Proof.
  unfold from_file. intros H.
  repeat case_match; simplify_eq; by repeat match goal with u : unit |- _ => destruct u end.
Qed.

Lemma from_env_validated fs var_os read toml c :
  from_env fs var_os read toml = Ok c -> validate_config fs c = Ok tt.
Proof.
  unfold from_env. intros H. destruct (env_config_path var_os); [by eapply from_file_validated|].
  repeat case_match; simplify_eq; by repeat match goal with u : unit |- _ => destruct u end.
Qed.

(** The two ways the sources write the range test of the ratio agree. *)
Lemma in_unit_interval r :
  SFltb Watchdog.f32_zero r = true -> SFleb r Watchdog.f32_one = true ->
  negb (Watchdog.f32_is_finite r) || SFleb r Watchdog.f32_zero || SFltb Watchdog.f32_one r = false.
Proof.
  destruct r as [[]|[]| |[] m e]; try done; intros _ Hone.
  unfold SFltb, SFleb, SFcompare, Watchdog.f32_one, Watchdog.f32_zero in *.
  cbn [Watchdog.f32_is_finite negb orb]. rewrite Z.compare_antisym.
  destruct (Z.compare e (-23)); simpl; try done.
  change (Pos.compare_cont Eq 8388608 m) with (Pos.compare_cont (CompOpp Eq) 8388608 m).
  rewrite <- Pos.compare_cont_antisym. by destruct (Pos.compare_cont Eq m 8388608).
Qed.

Lemma config_ok_watchdog fs c : config_ok fs c -> Watchdog.validate (watchdog c) = Ok tt.
Proof.
  intros [_ _ _ Hd _ [_ [Hlt Hle]] [Hpos Hone] _ _]. rewrite !Forall_cons in Hd. unfold Watchdog.validate.
  destruct (watchdog c) as [tick degraded unhealthy ack stall ratio halt]. simpl in *.
  unfold Watchdog.non_zero. simpl.
  rewrite !(proj2 (N.eqb_neq _ _)) by lia.
  rewrite (proj2 (N.leb_gt _ _)) by lia. rewrite (proj2 (N.ltb_ge _ _)) by lia.
  by rewrite in_unit_interval.
Qed.

Lemma config_ok_storage fs c {Conn} (conn : Conn) now :
  config_ok fs c ->
  Pipeline.Storage_open (insert_batcher (storage_config c)) (startup_timeout (storage_config c))
    Pipeline.ReadyOk Pipeline.ReadyOk conn now =
  Ok (Pipeline.sy_start (insert_batcher (storage_config c)) conn now).
Proof.
  intros [_ Hs _ _ _ _ _ _ _]. unfold Pipeline.Storage_open.
  destruct (Nat.eqb_spec (InsertBatcher.max_batch_records (insert_batcher (storage_config c))) 0) as [Hz|]; [|done].
  rewrite !Forall_cons in Hs. simpl in Hs, Hz. lia.
Qed.

(** C23: A configuration that loads starts every component: it satisfies every
    documented bound, the watchdog accepts its thresholds and runs with them,
    at a tick interval no shorter than its floor, the storage pipeline accepts
    its part and starts empty with the configured batcher, and the ingress
    address parses, has a non-zero port and is not reachable in clear text from
    another host unless the operator opted in. *)
Theorem effective_config_starts fs var_os read toml c :
  from_env fs var_os read toml = Ok c ->
  config_ok fs c /\
  (exists w, Watchdog.Watchdog_new (watchdog c) = Ok w /\
     Watchdog.MIN_TICK_INTERVAL <= Watchdog.tick_interval w /\
     Watchdog.tick_interval (watchdog c) <= Watchdog.tick_interval w /\
     forall s, Watchdog.evaluate s w = Watchdog.evaluate s (watchdog c)) /\
  (forall Conn (conn : Conn) now,
     Pipeline.Storage_open (insert_batcher (storage_config c)) (startup_timeout (storage_config c))
       Pipeline.ReadyOk Pipeline.ReadyOk conn now =
     Ok (Pipeline.sy_start (insert_batcher (storage_config c)) conn now)) /\
  (exists a, socket_addr (ingress_config c) = Ok a /\ Net.addr_ok a /\ Net.port a <> 0 /\
     (Net.is_loopback (Net.ip a) = true \/ is_Some (in_tls (ingress_config c)) \/ allow_insecure_remote c = true)).
Proof.
  intros Hload. apply from_env_validated in Hload. apply validate_spec in Hload as Hok.
  split; [done|]. split_and!.
  - unfold Watchdog.Watchdog_new. rewrite (config_ok_watchdog fs c Hok). eexists. split; [done|].
    cbn. unfold Watchdog.normalized_tick_interval. split_and!; [lia|lia|done].
  - intros Conn conn now. by eapply config_ok_storage.
  - destruct Hok as [(a & Ha & Hp & Hex) _ _ _ _ _ _ _ _]. exists a.
    unfold socket_addr. simpl. rewrite Ha. split_and!; [done|by eapply Net.bind_address_ok|done..].
Qed.

(** An isolated deployment: a remote bind behind TLS and a slower batcher. *)
Definition no_settings : FileConfig :=
  {| f_listen_address := None; f_sqlite_path := None; f_ingest_queue_capacity := None;
     f_command_queue_capacity := None; f_batcher_max_batch_records := None; f_batcher_max_batch_age := None;
     f_grpc_max_recv_msg_size := None; f_grpc_max_concurrent_streams := None; f_mapping_concurrency := None;
     f_max_records_per_request := None; f_max_attributes_per_record := None; f_max_attribute_key_bytes := None;
     f_max_attribute_value_bytes := None; f_max_body_bytes := None; f_max_scope_metadata_expansion_bytes := None;
     f_max_db_bytes := None; f_shutdown_timeout := None; f_maintenance := None; f_watchdog := None;
     f_durability := None; f_metrics_address := None; f_allow_remote_metrics := None;
     f_allow_insecure_remote := None; f_tls := None; f_auth := None |}.

Definition remote_settings (age : RawDuration) : FileConfig :=
  {| f_listen_address := Some ":4317"; f_sqlite_path := None; f_ingest_queue_capacity := None;
     f_command_queue_capacity := None; f_batcher_max_batch_records := Some 64;
     f_batcher_max_batch_age := Some age;
     f_grpc_max_recv_msg_size := None; f_grpc_max_concurrent_streams := None; f_mapping_concurrency := None;
     f_max_records_per_request := None; f_max_attributes_per_record := None; f_max_attribute_key_bytes := None;
     f_max_attribute_value_bytes := None; f_max_body_bytes := None; f_max_scope_metadata_expansion_bytes := None;
     f_max_db_bytes := Some 1073741824; f_shutdown_timeout := None;
     f_maintenance :=
       Some {| ms_retention := Some (TTable [("logs", TString "7d")]); ms_purge_interval := None;
               ms_checkpoint_interval := Some Disabled; ms_checkpoint_mode := Some " Truncate ";
               ms_optimize_interval := None; ms_vacuum_interval := None; ms_rebuild_fts_interval := None;
               ms_retry_delay := None |};
     f_watchdog := None; f_durability := Some {| ds_mode := None; ds_synchronous := Some "FULL" |};
     f_metrics_address := Some "off"; f_allow_remote_metrics := None; f_allow_insecure_remote := None;
     f_tls := Some {| ts_cert := Some "server.pem"; ts_key := Some "server.key"; ts_client_ca := None |};
     f_auth := Some {| as_mode := Some "token"; as_token_file := Some "tokens" |} |}.

Definition demo_var_os (name : string) : option string :=
  if String.eqb name "otel-sqlite-cfg-path" then Some "otel.toml" else Some "".

Definition demo_load (age : RawDuration) : result ConfigError Config :=
  from_env (fun _ => Opens) demo_var_os (fun _ => Some "") (fun _ => Some (remote_settings age)).

Definition demo_config : Config :=
  match demo_load (Enabled (from_secs 5)) with Ok c => c | Err _ => Config_default end.

(** What the settings of the example mean. *)
Example demo_config_values :
  RawDuration_parse "5s" = Ok (Enabled (from_secs 5)) /\
  Scheduler.retention (maintenance demo_config) = Some (from_secs (7 * 86400)) /\
  Scheduler.checkpoint_interval (maintenance demo_config) = None /\
  Scheduler.checkpoint_mode (maintenance demo_config) = Command.Truncate /\
  sqlite_synchronous demo_config = Command.SyncFull /\
  demo_load (Enabled (from_secs 45)) = Err (BatchAgeTooLong (from_secs 45) (from_secs 30)) /\
  demo_load Disabled = Err (InvalidSettings "otel.toml" (DurationRequired "batcher_max_batch_age")).
Proof. vm_compute. by split_and!. Qed.

Lemma effective_config_starts_witness :
  Net.is_loopback_listen (listen_address demo_config) = false /\
  exists a, socket_addr (ingress_config demo_config) = Ok a /\ Net.port a = 4317 /\
    (Net.is_loopback (Net.ip a) = true \/ is_Some (in_tls (ingress_config demo_config)) \/
     allow_insecure_remote demo_config = true).
Proof.
  split; [vm_compute; reflexivity|].
  destruct (effective_config_starts (fun _ => Opens) demo_var_os (fun _ => Some "")
              (fun _ => Some (remote_settings (Enabled (from_secs 5)))) demo_config) as (_ & _ & _ & a & Ha & _ & _ & Hex).
  { vm_compute. reflexivity. }
  exists a. split; [exact Ha|]. split; [|exact Hex].
  vm_compute in Ha. by simplify_eq.
Defined.

(** ** The overlay laws *)

(** An overlay is refused with an error that does not depend on what it is
    applied to, or it is an idempotent change. *)
Definition overlaying {A} (f : A -> result ConfigError A) : Prop :=
  (exists e, forall x, f x = Err e) \/
  (exists g, (forall x, f x = Ok (g x)) /\ forall x, g (g x) = g x).

Lemma unchanged_overlaying {A} : overlaying (fun x : A => Ok x).
Proof. right. by exists id. Qed.

Lemma constant_overlaying {A} (r : result ConfigError A) : overlaying (fun _ => r).
Proof. destruct r as [y|e]; [right; by exists (fun _ => y)|left; by exists e]. Qed.

Lemma required_overlaying raw key : overlaying (fun d => apply_required_duration d raw key).
Proof. destruct raw as [|]; [apply (constant_overlaying (apply_required_duration 0 (Some r) key))|apply unchanged_overlaying]. Qed.

Lemma optional_idempotent raw d :
  apply_optional_duration (apply_optional_duration d raw) raw = apply_optional_duration d raw.
Proof. by destruct raw as [[]|]. Qed.

Lemma default_idempotent {A} (o : option A) (x : A) : default (default x o) o = default x o.
Proof. by destruct o. Qed.

Lemma overlay_overlaying {S A} (s : option S) (f : S -> A -> result ConfigError A) :
  (forall s, overlaying (f s)) -> overlaying (overlay s f).
Proof. intros Hf. destruct s as [s|]; [apply Hf|apply unchanged_overlaying]. Qed.

Lemma retention_overlaying raw : overlaying (fun d => apply_retention d raw).
Proof.
  destruct raw as [v|]; [|apply unchanged_overlaying].
  destruct v as [n|s|entries|]; cbn [apply_retention]; [apply constant_overlaying..| |apply constant_overlaying].
  destruct (RetentionSection_try_from entries) as [[logs_ [m|]]|e]; simpl;
    [left; eauto| |left; eauto].
  right. exists (fun d => apply_optional_duration d logs_). split; [done|]. apply optional_idempotent.
Qed.

(** Splits on whether the part of an overlay that [L] is about is refused: then
    so is the whole; otherwise the part is rewritten to its change. *)
Ltac by_part L :=
  let e := fresh "e" in let g := fresh "g" in let H := fresh "Hpart" in let Hi := fresh "Hidem" in
  destruct L as [[e H]|(g & H & Hi)]; cbn beta in H;
  [left; exists e; intros ?c; cbn beta; rewrite ?H; reflexivity
  |setoid_rewrite H; cbn beta iota].

(** The parts of a value with a default of its own. *)
Lemma parsed_overlaying {S A} (s : option S) (parse : S -> result ConfigError A) :
  overlaying (fun x => match s with Some v => parse v | None => Ok x end).
Proof. destruct s as [v|]; [apply constant_overlaying|apply unchanged_overlaying]. Qed.

Ltac accepted :=
  right; eexists; split; [intros ?c; reflexivity|];
  intros ?c; cbn; f_equal; auto using optional_idempotent, default_idempotent.

Lemma maintenance_overlaying s : overlaying (MaintenanceSection_apply_to s).
Proof.
  unfold overlaying, MaintenanceSection_apply_to.
  by_part (retention_overlaying (ms_retention s)).
  by_part (required_overlaying (ms_retry_delay s) "maintenance.retry_delay").
  by_part (parsed_overlaying (ms_checkpoint_mode s) parse_checkpoint_mode).
  accepted.
Qed.

Lemma watchdog_overlaying s : overlaying (WatchdogSection_apply_to s).
Proof.
  unfold overlaying, WatchdogSection_apply_to.
  by_part (required_overlaying (wd_tick_interval s) "watchdog.tick_interval").
  by_part (required_overlaying (wd_degraded_after s) "watchdog.degraded_after").
  by_part (required_overlaying (wd_unhealthy_after s) "watchdog.unhealthy_after").
  by_part (required_overlaying (wd_ack_stall_after s) "watchdog.ack_stall_after").
  by_part (required_overlaying (wd_maintenance_stall_after s) "watchdog.maintenance_stall_after").
  accepted.
Qed.

Lemma durability_overlaying s : overlaying (DurabilitySection_apply_to s).
Proof.
  unfold overlaying, DurabilitySection_apply_to.
  by_part (parsed_overlaying (ds_mode s)
             (fun m => match Command.DurabilityMode_parse m with Some v => Ok v | None => Err (UnknownDurabilityMode m) end)).
  by_part (parsed_overlaying (ds_synchronous s)
             (fun m => match Command.SyncMode_parse m with Some v => Ok v | None => Err (UnknownSynchronous m) end)).
  accepted.
Qed.

Lemma file_overlaying f : overlaying (FileConfig_apply_to f).
Proof.
  unfold overlaying, FileConfig_apply_to.
  by_part (required_overlaying (f_batcher_max_batch_age f) "batcher_max_batch_age").
  by_part (required_overlaying (f_shutdown_timeout f) "shutdown_timeout").
  by_part (overlay_overlaying (f_maintenance f) _ maintenance_overlaying).
  by_part (overlay_overlaying (f_watchdog f) _ watchdog_overlaying).
  by_part (overlay_overlaying (f_durability f) _ durability_overlaying).
  by_part (overlay_overlaying (f_metrics_address f) (fun v _ => parse_optional_address v "metrics_address")
             (fun v => constant_overlaying _)).
  by_part (overlay_overlaying (f_tls f) (fun s _ => let? t := TlsSection_apply_to s in Ok (Some t))
             (fun s => constant_overlaying _)).
  by_part (overlay_overlaying (f_auth f) (fun s _ => AuthSection_apply_to s) (fun s => constant_overlaying _)).
  accepted.
  all: rewrite <- ?surjective_pairing; try (by rewrite Hidem3); by destruct (f_max_db_bytes f).
Qed.

(** A settings file is accepted or refused for what it says, whatever it is
    laid over, with the same error; an accepted file changes only what it
    names, so a second application changes nothing and an empty file keeps the
    whole configuration. *)
Theorem overlay_laws f c c' :
  FileConfig_apply_to f c = Ok c' ->
  FileConfig_apply_to f c' = Ok c' /\
  (forall c0, exists c1, FileConfig_apply_to f c0 = Ok c1) /\
  (forall f' c1 c2 e, FileConfig_apply_to f' c1 = Err e -> FileConfig_apply_to f' c2 = Err e) /\
  FileConfig_apply_to no_settings c = Ok c.
Proof.
  intros H. split_and!.
  - destruct (file_overlaying f) as [[e He]|(g & Hg & Hi)]; [by rewrite He in H|].
    rewrite Hg in *. simplify_eq. by rewrite Hi.
  - intros c0. destruct (file_overlaying f) as [[e He]|(g & Hg & _)]; [by rewrite He in H|]. by exists (g c0).
  - intros f' c1 c2 e He. destruct (file_overlaying f') as [[e' He']|(g & Hg & _)]; [|by rewrite Hg in He].
    rewrite He' in *. congruence.
  - by destruct c.
Qed.

Lemma overlay_laws_witness :
  FileConfig_apply_to (remote_settings (Enabled (from_secs 5))) demo_config = Ok demo_config /\
  FileConfig_apply_to (remote_settings Disabled) demo_config = Err (DurationRequired "batcher_max_batch_age").
Proof.
  destruct (overlay_laws (remote_settings (Enabled (from_secs 5))) Config_default demo_config) as (H1 & _ & H2 & _).
  { vm_compute. reflexivity. }
  split; [exact H1|]. apply (H2 _ Config_default). vm_compute. reflexivity.
Defined.

End Config.
