(* ===== verification/Dump.v ===== *)
(** * The effective configuration as JSON ([crates/otel-sqlite/src/config/dump.rs], [config.rs])

    [dump_json] builds a [serde_json::Value] with [json!] and prints it.  [json!]
    converts each field with [to_value(..).unwrap()], and [to_value] has no
    representation for an integer above [u64::MAX], which is what
    [Duration::as_millis] can return: such a field panics ([None] here).  The
    path of the database comes from a TOML string and is UTF-8.  Objects keep
    their fields in the order the code gives them; the order of the printed text
    is the printer's, and the printer is a parameter. *)

From S2P Require Import Prelude Time Command Scheduler Watchdog Net Config.
From Stdlib Require Import SpecFloat.

Module Dump.
Import Time.

Local Open Scope string_scope.
Local Open Scope list_scope.
Local Open Scope N_scope.

(** [serde_json::Value], without the arrays the dump does not use. *)
Inductive Json :=
| JNull
| JBool (value : bool)
| JNumber (value : N)
| JFloat (value : spec_float)
| JString (value : string)
| JObject (fields : list (string * Json)).

(** ** [json!] and the conversions of its fields *)

Definition json_object (fields : list (string * option Json)) : option Json :=
  JObject <$> mapM (fun f => pair f.1 <$> f.2) fields.

(** [to_value] of a [u128]. *)
Definition json_u128 (value : N) : option Json := if value <=? u64_max then Some (JNumber value) else None.

Definition json_option {A} (conv : A -> option Json) (value : option A) : option Json :=
  match value with None => Some JNull | Some x => conv x end.

(** [to_value] of an [f32]: not a number or infinite becomes [null]. *)
Definition json_f32 (value : Watchdog.f32) : option Json :=
  Some (if Watchdog.f32_is_finite value then JFloat value else JNull).

Definition json_usize (value : N) : option Json := Some (JNumber value).
Definition json_bool (value : bool) : option Json := Some (JBool value).
Definition json_str (value : string) : option Json := Some (JString value).

(** [Duration::as_millis]. *)
Definition as_millis (d : Duration) : N := d / 1000000.

Definition json_millis (d : Duration) : option Json := json_u128 (as_millis d).

(** The derived [Debug] of the three modes. *)
Definition CheckpointMode_debug (m : Command.CheckpointMode) : string :=
  match m with
  | Command.Passive => "Passive"
  | Command.Full => "Full"
  | Command.Restart_ => "Restart"
  | Command.Truncate => "Truncate"
  end.

Definition DurabilityMode_debug (m : Command.DurabilityMode) : string :=
  match m with Command.Commit => "Commit" | Command.Enqueue => "Enqueue" end.

Definition SyncMode_debug (m : Command.SyncMode) : string :=
  match m with Command.SyncNormal => "Normal" | Command.SyncFull => "Full" end.

(** ** The documents *)

Definition maintenance_dump (c : Scheduler.MaintenanceConfig) : option Json :=
  let ms := json_option json_millis in
  json_object
    [("retention_ms", ms (Scheduler.retention c));
     ("purge_interval_ms", ms (Scheduler.cfg_purge_interval c));
     ("checkpoint_interval_ms", ms (Scheduler.checkpoint_interval c));
     ("checkpoint_mode", json_str (CheckpointMode_debug (Scheduler.checkpoint_mode c)));
     ("optimize_interval_ms", ms (Scheduler.optimize_interval c));
     ("vacuum_interval_ms", ms (Scheduler.vacuum_interval c));
     ("rebuild_fts_interval_ms", ms (Scheduler.rebuild_fts_interval c));
     ("retry_delay_ms", json_millis (Scheduler.retry_delay c))].

Definition watchdog_dump (c : Watchdog.WatchdogConfig) : option Json :=
  json_object
    [("tick_interval_ms", json_millis (Watchdog.tick_interval c));
     ("degraded_after_ms", json_millis (Watchdog.degraded_after c));
     ("unhealthy_after_ms", json_millis (Watchdog.unhealthy_after c));
     ("ack_stall_after_ms", json_millis (Watchdog.ack_stall_after c));
     ("maintenance_stall_after_ms", json_millis (Watchdog.maintenance_stall_after c));
     ("queue_pressure_ratio", json_f32 (Watchdog.queue_pressure_ratio c));
     ("halt_on_unhealthy", json_bool (Watchdog.halt_on_unhealthy c))].

Definition effective_config (c : Config.Config) : option Json :=
  json_object
    [("listen_address", json_str (Config.listen_address c));
     ("sqlite_path", json_str (Config.sqlite_path c));
     ("ingest_queue_capacity", json_usize (Config.ingest_queue_capacity c));
     ("command_queue_capacity", json_usize (Config.command_queue_capacity c));
     ("batcher_max_batch_records", json_usize (Config.batcher_max_batch_records c));
     ("batcher_max_batch_age_ms", json_millis (Config.batcher_max_batch_age c));
     ("grpc_max_recv_msg_size", json_usize (Config.grpc_max_recv_msg_size c));
     ("grpc_max_concurrent_streams", json_usize (Config.grpc_max_concurrent_streams c));
     ("mapping_concurrency", json_usize (Config.mapping_concurrency c));
     ("max_records_per_request", json_usize (Config.max_records_per_request c));
     ("max_attributes_per_record", json_usize (Config.max_attributes_per_record c));
     ("max_attribute_key_bytes", json_usize (Config.max_attribute_key_bytes c));
     ("max_attribute_value_bytes", json_usize (Config.max_attribute_value_bytes c));
     ("max_body_bytes", json_usize (Config.max_body_bytes c));
     ("max_scope_metadata_expansion_bytes", json_usize (Config.max_scope_metadata_expansion_bytes c));
     ("max_db_bytes", json_option json_usize (Config.max_db_bytes c));
     ("shutdown_timeout_ms", json_millis (Config.shutdown_timeout c));
     ("durability_mode", json_str (DurabilityMode_debug (Config.durability_mode c)));
     ("sqlite_synchronous", json_str (SyncMode_debug (Config.sqlite_synchronous c)));
     ("metrics_address", json_option json_str (Config.metrics_address c));
     ("allow_remote_metrics", json_bool (Config.allow_remote_metrics c));
     ("allow_insecure_remote", json_bool (Config.allow_insecure_remote c));
     ("tls_configured", json_bool (bool_decide (is_Some (Config.tls c))));
     ("auth_configured", json_bool (bool_decide (is_Some (Config.auth c))));
     ("maintenance", maintenance_dump (Config.maintenance c));
     ("watchdog", watchdog_dump (Config.watchdog c))].

(** [Config::dump_json] with the printer of [serde_json]: [None] is a panic,
    [Some None] an error of the printer. *)
Definition dump_json (to_string_pretty : Json -> option string) (c : Config.Config) : option (option string) :=
  to_string_pretty <$> effective_config c.

(** ** Properties *)

Lemma json_object_total fields : Forall (fun f => is_Some f.2) fields -> is_Some (json_object fields).
Proof.
  intros H. apply fmap_is_Some, mapM_is_Some. eapply Forall_impl; [done|]. intros f Hf. by apply fmap_is_Some.
Qed.

Lemma json_millis_total d hi : d <= hi -> as_millis hi <= u64_max -> is_Some (json_millis d).
Proof.
  intros Hd Hhi. unfold json_millis, json_u128, as_millis in *.
  assert (d / 1000000 <= hi / 1000000) by (apply N.Div0.div_le_mono; done).
  rewrite (proj2 (N.leb_le _ _)) by lia. by eexists.
Qed.

Lemma timeout_printable : as_millis Config.MAX_TIMEOUT <= u64_max. Proof. by vm_compute. Qed.
Lemma retention_printable : as_millis Config.MAX_RETENTION <= u64_max. Proof. by vm_compute. Qed.

Lemma delay_total d : 0 < d <= Config.MAX_TIMEOUT -> is_Some (json_millis d).
Proof. intros [_ H]. by eapply json_millis_total, timeout_printable. Qed.

Lemma schedule_total d hi : as_millis hi <= u64_max -> Config.bounded_delay (d, hi) -> is_Some (json_option json_millis d).
Proof.
  intros Hhi H. destruct d as [d|]; simpl; [|by eexists]. destruct (H d eq_refl) as [_ Hd]. by eapply json_millis_total.
Qed.

#[local] Opaque json_millis Config.MAX_TIMEOUT Config.MAX_RETENTION N.le N.lt.

Lemma maintenance_dump_total fs c : Config.config_ok fs c -> is_Some (maintenance_dump (Config.maintenance c)).
Proof.
  intros Hok. pose proof (Config.ok_delays _ _ Hok) as Hd. pose proof (Config.ok_schedule _ _ Hok) as Hs.
  rewrite !Forall_cons in Hd. rewrite !Forall_cons in Hs. destruct Hd as (_ & _ & ? & _), Hs as (?&?&?&?&?&?&_).
  apply json_object_total. repeat (apply Forall_nil_2 || apply Forall_cons_2); simpl;
    solve [by eexists | by apply delay_total | eapply schedule_total; [apply timeout_printable|done] | eapply schedule_total; [apply retention_printable|done]].
Qed.

Lemma watchdog_dump_total fs c : Config.config_ok fs c -> is_Some (watchdog_dump (Config.watchdog c)).
Proof.
  intros Hok. pose proof (Config.ok_delays _ _ Hok) as Hd. rewrite !Forall_cons in Hd. destruct Hd as (_&_&_&?&?&?&?&?&_).
  apply json_object_total. repeat (apply Forall_nil_2 || apply Forall_cons_2); simpl; solve [by eexists | by apply delay_total].
Qed.

(** The bounds of the validation keep the dump from panicking. *)
Lemma effective_config_total fs c : Config.config_ok fs c -> is_Some (effective_config c).
Proof.
  intros Hok. pose proof (Config.ok_delays _ _ Hok) as Hd. rewrite !Forall_cons in Hd. destruct Hd as (?&?&_).
  apply json_object_total. repeat (apply Forall_nil_2 || apply Forall_cons_2); simpl;
    solve [by eexists | by apply delay_total | by eapply maintenance_dump_total | by eapply watchdog_dump_total
          | destruct (Config.max_db_bytes c); by eexists | destruct (Config.metrics_address c); by eexists].
Qed.

#[local] Transparent json_millis.

(** Without those bounds it does: the longest [Duration] has no JSON number. *)
Example unbounded_delay_panics : json_millis (from_secs u64_max) = None.
Proof. vm_compute. reflexivity. Qed.

End Dump.
