(* ===== verification/CheckCommand.v ===== *)
(** * The [check] command ([crates/otel-sqlite/src/check_cli.rs], [main.rs])

    The preflight of a rollout: it loads the configuration like the server,
    opens the credentials, and inspects the database read-only.  The file
    system, the parser of TLS material, and the printer and parser of JSON answer
    through an environment; messages are values.  A panic is [None]. *)

From S2P Require Import Prelude Time Model Text Render Paths Command Sqlite Net Config Dump Auth Migration BackupFiles BackupCommand.

Module CheckCommand.
Import Time Sqlite.

Local Open Scope string_scope.
Local Open Scope list_scope.

(** ** Arguments *)

Record CheckArgs := {
  ca_config : option string;
  ca_json : bool;
  ca_help : bool;
}.

Definition check_step (a : CheckArgs) (flag : string) : BackupCommand.Step CheckArgs :=
  if String.eqb flag "-h" || String.eqb flag "--help" then
    BackupCommand.Alone (Ok {| ca_config := ca_config a; ca_json := ca_json a; ca_help := true |})
  else if String.eqb flag "--json" then
    BackupCommand.Alone
      (if ca_json a then Err (BackupCommand.Duplicate "--json")
       else Ok {| ca_config := ca_config a; ca_json := true; ca_help := ca_help a |})
  else if String.eqb flag "--config" then
    BackupCommand.Valued (fun v =>
      let? path := BackupCommand.set_once (ca_config a) v "--config" in
      Ok {| ca_config := path; ca_json := ca_json a; ca_help := ca_help a |})
  else BackupCommand.Unknown.

Definition parse_args (args : list string) : result BackupCommand.CliError CheckArgs :=
  BackupCommand.flags_loop check_step args {| ca_config := None; ca_json := false; ca_help := false |}.

(** ** The report *)

Inductive Source := FromFile | FromEnv | FromDefaults.

Inductive Problem :=
| ConfigFailed (path : option string) (error : Config.ConfigError)
| CannotSerialize
| TlsInvalid
| AuthInvalid (error : Auth.AuthError)
| CannotOpen (path : string)
| CannotInspect (path : string) (error : StorageError)
| NotOtel (path : string)
| NewerSchema (applied : option string) (latest : string).

Inductive Warning :=
| MissingDatabase (path : string)
| PendingMigrations (versions : list string)
| MissingDirectory (path : string) (readonly_ancestor : option string)
| ReadonlyDirectory (path : string).

Record MaterialCheck := {
  configured : bool;
  valid : option bool;
  material_error : option Problem;
}.

Definition not_configured : MaterialCheck := {| configured := false; valid := None; material_error := None |}.
Definition material_valid : MaterialCheck := {| configured := true; valid := Some true; material_error := None |}.
Definition material_invalid (e : Problem) : MaterialCheck :=
  {| configured := true; valid := Some false; material_error := Some e |}.

Inductive DatabaseState := InMemory | DbMissing | Current | PendingState | Newer | NotOtelState | ErrorState.

Record DatabaseCheck := {
  dc_path : string;
  dc_state : DatabaseState;
  dc_applied_version : option string;
  dc_binary_version : string;
  dc_applied : list string;
  dc_pending : list string;
}.

Record CheckReport := {
  ok : bool;
  config_source : Source;
  config_path : option string;
  effective_config : option Dump.Json;
  tls_check : MaterialCheck;
  auth_check : MaterialCheck;
  database : option DatabaseCheck;
  warnings : list Warning;
  errors : list Problem;
}.

Definition config_failure (source : Source) (path : option string) (e : Problem) : CheckReport :=
  {| ok := false; config_source := source; config_path := path; effective_config := None;
     tls_check := not_configured; auth_check := not_configured; database := None; warnings := []; errors := [e] |}.

Section check.
Context {Schema : Type} (has_log_event : Schema -> bool).

(** A database file: absent, refused by [open_immutable], or open. *)
Inductive DbView :=
| DbAbsent
| DbRefused (not_a_database : bool)
| DbOpen (conn : @Migration.Conn Schema).

Record CheckEnv := {
  ce_paths : string -> Config.PathView;
  ce_var_os : string -> option string;
  ce_read : string -> option string;
  ce_toml : string -> option Config.FileConfig;
  ce_to_string_pretty : Dump.Json -> option string;
  ce_from_str : string -> option Dump.Json;
  ce_tls_ok : Config.TlsConfig -> bool;
  ce_token_file : string -> Auth.FileView;
  ce_now : Instant;
  ce_sha : string -> Auth.Digest;
  ce_exists : string -> bool;
  ce_readonly : string -> bool;  (** [metadata] succeeds and has no write bit *)
  ce_database : string -> DbView;
}.

Variable env : CheckEnv.

Definition env_path : option string := Config.env_config_path (ce_var_os env).

Definition source_of (args : CheckArgs) : Source :=
  match ca_config args with
  | Some _ => FromFile
  | None => match env_path with Some _ => FromEnv | None => FromDefaults end
  end.

Definition load_config (args : CheckArgs) : result Config.ConfigError Config.Config :=
  match ca_config args with
  | Some path => Config.from_file (ce_paths env) (ce_read env) (ce_toml env) path
  | None => Config.from_env (ce_paths env) (ce_var_os env) (ce_read env) (ce_toml env)
  end.

Definition is_memory_path (path : string) : bool :=
  Paths.path_eqb path ":memory:" || bool_decide (is_Some (BackupFiles.strip_prefix "file::memory:" path)).

Definition nearest_existing (path : string) : option string :=
  List.find (fun candidate => negb (Text.is_empty candidate) && ce_exists env candidate) (Paths.ancestors path).

Definition check_parent_directory (path : string) : list Warning :=
  match Paths.parent path with
  | None => []
  | Some parent =>
      if Text.is_empty parent then []
      else if negb (ce_exists env parent) then
        [MissingDirectory parent
           (ancestor ← nearest_existing parent; if ce_readonly env ancestor then Some ancestor else None)]
      else if ce_readonly env parent then [ReadonlyDirectory parent]
      else []
  end.

Definition database_check (path : string) (state : DatabaseState) : DatabaseCheck :=
  {| dc_path := path; dc_state := state; dc_applied_version := None;
     dc_binary_version := Migration.latest_schema_version; dc_applied := []; dc_pending := [] |}.

(** The check, the warnings and the errors it pushes. *)
Definition check_database (path : string) : DatabaseCheck * list Warning * list Problem :=
  if is_memory_path path then (database_check path InMemory, [], [])
  else
    let ws := check_parent_directory path in
    match ce_database env path with
    | DbAbsent => (database_check path DbMissing, ws ++ [MissingDatabase path], [])
    | DbRefused not_a_database =>
        (database_check path (if not_a_database then NotOtelState else ErrorState), ws, [CannotOpen path])
    | DbOpen conn =>
        match (Migration.inspect_schema has_log_event conn).2 with
        | Err e =>
            (database_check path (if is_not_a_database e then NotOtelState else ErrorState), ws, [CannotInspect path e])
        | Ok status =>
            let base state :=
              {| dc_path := path; dc_state := state; dc_applied_version := last (Migration.applied status);
                 dc_binary_version := Migration.latest_schema_version; dc_applied := Migration.applied status;
                 dc_pending := Migration.pending status |} in
            if negb (Migration.is_otel_schema status) then (base NotOtelState, ws, [NotOtel path])
            else if Migration.newer_than_binary status then
              (base Newer, ws, [NewerSchema (last (Migration.applied status)) (Migration.latest_known status)])
            else
              match Migration.pending status with
              | [] => (base Current, ws, [])
              | pending => (base PendingState, ws ++ [PendingMigrations pending], [])
              end
        end
    end.

Definition check_tls (c : Config.Config) : MaterialCheck * list Problem :=
  match Config.tls c with
  | None => (not_configured, [])
  | Some t => if ce_tls_ok env t then (material_valid, []) else (material_invalid TlsInvalid, [TlsInvalid])
  end.

Definition check_auth (c : Config.Config) : MaterialCheck * list Problem :=
  match Config.auth c with
  | None => (not_configured, [])
  | Some a =>
      match Auth.open (ce_sha env) (ce_token_file env (Config.token_file a)) (ce_now env) with
      | Ok _ => (material_valid, [])
      | Err e => (material_invalid (AuthInvalid e), [AuthInvalid e])
      end
  end.

Definition evaluate (c : Config.Config) (source : Source) (path : option string) : option CheckReport :=
  dump ← Dump.dump_json (ce_to_string_pretty env) c;
  let (effective, dump_errors) :=
    match dump with Some text => (ce_from_str env text, []) | None => (None, [CannotSerialize]) end in
  let (tls, tls_errors) := check_tls c in
  let (auth, auth_errors) := check_auth c in
  let '(database, ws, db_errors) := check_database (Config.sqlite_path c) in
  let errors := dump_errors ++ tls_errors ++ auth_errors ++ db_errors in
  Some {| ok := match errors with [] => true | _ => false end; config_source := source; config_path := path;
          effective_config := effective; tls_check := tls; auth_check := auth; database := Some database;
          warnings := ws; errors := errors |}.

Definition run (args : CheckArgs) : option CheckReport :=
  let source := source_of args in
  let path := match ca_config args with Some p => Some p | None => env_path end in
  match load_config args with
  | Ok config => evaluate config source path
  | Err e => Some (config_failure source path (ConfigFailed path e))
  end.

(** The exit status of [otel-sqlite check ARGS]; printing the JSON report may
    fail, and a panic of the main thread exits with 101. *)
Definition exit_status (args : list string) (print_ok : bool) : N :=
  match parse_args args with
  | Err _ => 2
  | Ok a =>
      if ca_help a then 0
      else
        match run a with
        | None => 101
        | Some report => if ca_json a && negb print_ok then 1 else if ok report then 0 else 1
        end
  end.

(** ** Properties *)

(** A database file the server can create, or open and migrate. *)
Definition startable (path : string) : Prop :=
  match ce_database env path with
  | DbAbsent => True
  | DbRefused _ => False
  | DbOpen conn => exists status, (Migration.inspect_schema has_log_event conn).2 = Ok status /\
      Migration.is_otel_schema status = true /\ Migration.newer_than_binary status = false
  end.

(** Nothing that would stop the server from starting with this configuration. *)
Definition clean (c : Config.Config) : Prop :=
  is_Some (mjoin (Dump.dump_json (ce_to_string_pretty env) c)) /\
  (forall t, Config.tls c = Some t -> ce_tls_ok env t = true) /\
  (forall a, Config.auth c = Some a ->
     exists vault, Auth.open (ce_sha env) (ce_token_file env (Config.token_file a)) (ce_now env) = Ok vault) /\
  (is_memory_path (Config.sqlite_path c) = false ->
   startable (Config.sqlite_path c)).

Lemma app_nil {A} (l1 l2 : list A) : l1 ++ l2 = [] <-> l1 = [] /\ l2 = [].
Proof. destruct l1, l2; naive_solver. Qed.

Lemma check_tls_clean c : (check_tls c).2 = [] <-> forall t, Config.tls c = Some t -> ce_tls_ok env t = true.
Proof.
  unfold check_tls. destruct (Config.tls c) as [t|]; [|split; [by intros _ ?|done]].
  destruct (ce_tls_ok env t) eqn:E; simpl; (split; [|done || (intros H; specialize (H t eq_refl); congruence)]).
  - by intros _ ? [= <-].
  - done.
Qed.

Lemma check_auth_clean c :
  (check_auth c).2 = [] <-> forall a, Config.auth c = Some a ->
    exists vault, Auth.open (ce_sha env) (ce_token_file env (Config.token_file a)) (ce_now env) = Ok vault.
Proof.
  unfold check_auth. destruct (Config.auth c) as [a|]; [|naive_solver].
  destruct (Auth.open _ _ _) as [v|e] eqn:E; simpl; [naive_solver|].
  split; [done|]. intros H. destruct (H a eq_refl). congruence.
Qed.

Lemma check_database_clean path :
  (check_database path).2 = [] <-> (is_memory_path path = false -> startable path).
Proof.
  unfold check_database. destruct (is_memory_path path); [by split|].
  transitivity (startable path); [|tauto]. unfold startable.
  destruct (ce_database env path) as [| |conn]; [by split..|].
  destruct (Migration.inspect_schema has_log_event conn).2 as [status|e]; [|split; [done|by intros (? & ? & _)]].
  assert (forall Q : Migration.SchemaStatus -> Prop, (exists s, @Ok StorageError _ status = Ok s /\ Q s) <-> Q status) as Hex.
  { intros Q. split; [by intros (s & [= <-] & ?)|by exists status]. }
  rewrite (Hex (fun s => Migration.is_otel_schema s = true /\ Migration.newer_than_binary s = false)).
  destruct (Migration.is_otel_schema status); simpl; [|split; [done|by intros []]].
  destruct (Migration.newer_than_binary status); [split; [done|by intros []]|].
  destruct (Migration.pending status); by split.
Qed.

Lemma evaluate_clean c source path :
  is_Some (Dump.effective_config c) ->
  exists report, evaluate c source path = Some report /\ (ok report = true <-> clean c).
Proof.
  intros [doc Hdoc]. unfold evaluate, clean, Dump.dump_json. rewrite Hdoc. simpl.
  pose proof (check_tls_clean c) as Ht. pose proof (check_auth_clean c) as Ha.
  pose proof (check_database_clean (Config.sqlite_path c)) as Hd.
  destruct (check_tls c) as [tls te], (check_auth c) as [auth ae], (check_database _) as [[dc ws] de]. simpl in *.
  destruct (ce_to_string_pretty env doc) as [text|]; (eexists; split; [reflexivity|]); simpl.
  - rewrite <- Ht, <- Ha, <- Hd, <- !app_nil. rewrite (assoc_L (++)). destruct (_ ++ _); naive_solver.
  - split; [done|by intros [[? [=]] _]].
Qed.

Lemma load_config_ok args c : load_config args = Ok c -> Config.config_ok (ce_paths env) c.
Proof.
  unfold load_config. intros H. apply Config.validate_spec.
  destruct (ca_config args); [by eapply Config.from_file_validated|by eapply Config.from_env_validated].
Qed.

(** What a run reports for a configuration that loads, and that it reports at all. *)
Lemma run_spec a :
  exists report, run a = Some report /\
    (ok report = true <-> exists c, load_config a = Ok c /\ clean c).
Proof.
  unfold run. destruct (load_config a) as [c|e] eqn:El.
  - pose proof (Dump.effective_config_total _ _ (load_config_ok a c El)) as Hdoc.
    edestruct (evaluate_clean c) as (report & Hr & Hok); [done|]. exists report. split; [exact Hr|]. rewrite Hok.
    split; [by exists c|]. by intros (c' & [= <-] & ?).
  - eexists. split; [reflexivity|]. split; [done|by intros (? & ? & _)].
Qed.

(** C25: The preflight decides: with arguments that parse it returns a verdict,
    and the exit status is zero exactly when the configuration loads like the
    server's, can be dumped, and neither the credentials nor the database stand
    in the way; and then the configuration is sound and the migrations of the
    server never refuse that database as too new, whatever fails on the way. *)
Theorem check_decides args a :
  parse_args args = Ok a -> ca_help a = false ->
  (exit_status args true = 0%N \/ exit_status args true = 1%N) /\
  (exit_status args true = 0%N <-> exists c, load_config a = Ok c /\ clean c) /\
  forall c, load_config a = Ok c -> clean c ->
    Config.config_ok (ce_paths env) c /\
    forall conn, is_memory_path (Config.sqlite_path c) = false ->
      ce_database env (Config.sqlite_path c) = DbOpen conn ->
      forall run_sql clock conn' msg, Migration.db conn' = Migration.db conn ->
        (Migration.migrate run_sql has_log_event clock conn').2 <> Err (StartupFailed msg).
Proof.
  intros Hargs Hhelp. destruct (run_spec a) as (report & Hrun & Hok).
  assert (exit_status args true = if ok report then 0%N else 1%N) as Hexit.
  { unfold exit_status. by rewrite Hargs, Hhelp, Hrun, andb_false_r. }
  split; [rewrite Hexit; destruct (ok report); auto|]. split; [rewrite Hexit, <- Hok; by destruct (ok report)|].
  intros c Hload (_ & _ & _ & Hdb). split; [by eapply load_config_ok|].
  intros conn Hmem Hopen run_sql clock conn' msg Hc Hrefused. apply Migration.migrate_refused in Hrefused.
  specialize (Hdb Hmem). unfold startable in Hdb. rewrite Hopen in Hdb. destruct Hdb as (status & Hs & _ & Hn).
  rewrite Hc in Hrefused. by eapply Migration.inspect_not_newer.
Qed.

(** The ancestor a missing directory is reported with exists and is named, and
    everything between it and the directory is missing. *)
Lemma nearest_existing_spec path found :
  nearest_existing path = Some found ->
  Paths.above (Text.bytes_of_string path) (Text.bytes_of_string found) /\ ce_exists env found = true /\ found <> "" /\
  forall other, Paths.above (Text.bytes_of_string path) (Text.bytes_of_string other) ->
    (length (Text.bytes_of_string found) < length (Text.bytes_of_string other))%nat -> ce_exists env other = false.
Proof.
  intros H. apply find_split in H as (l1 & l2 & E & Hno & Hyes).
  apply andb_true_iff in Hyes as [Hne Hex]. apply negb_true_iff, String.eqb_neq in Hne.
  split_and!; [|done|done|].
  - apply Paths.elem_of_ancestors. rewrite E. set_solver.
  - intros other Hother Hlen. apply Paths.elem_of_ancestors in Hother. rewrite E, elem_of_app, elem_of_cons in Hother.
    destruct Hother as [Hother|[->|Hother]]; [|lia|pose proof (Paths.ancestors_after _ _ _ _ _ E Hother); lia].
    rewrite Forall_forall in Hno. specialize (Hno _ Hother). apply andb_false_iff in Hno as [Hno|]; [|done].
    apply negb_false_iff, String.eqb_eq in Hno. subst other. simpl in Hlen. lia.
Qed.

End check.

(** ** A rollout over an older database *)

Definition demo_check_env : CheckEnv :=
  {| ce_paths := fun _ => Config.Opens; ce_var_os := Config.demo_var_os; ce_read := fun _ => Some "";
     ce_toml := fun _ => Some (Config.remote_settings (Config.Enabled (from_secs 5)));
     ce_to_string_pretty := fun _ => Some "{}"; ce_from_str := fun _ => Some Dump.JNull; ce_tls_ok := fun _ => true; ce_token_file := fun _ => Auth.demo_file; ce_now := 0%N;
     ce_sha := Auth.demo_sha; ce_exists := fun _ => true; ce_readonly := fun _ => false;
     ce_database := fun _ => DbOpen (Migration.connect Migration.old_db []) |}.

Definition log_event_created (scripts : list string) : bool := true.

Lemma demo_preflight : exit_status log_event_created demo_check_env ["--json"] true = 0%N.
Proof. vm_compute. reflexivity. Qed.

Lemma check_decides_witness :
  exists c, load_config demo_check_env {| ca_config := None; ca_json := true; ca_help := false |} = Ok c /\
    Config.config_ok (fun _ => Config.Opens) c /\
    forall msg, (Migration.migrate Migration.log_sql log_event_created Migration.demo_clock (Migration.connect Migration.old_db [])).2 <> Err (StartupFailed msg).
Proof.
  destruct (check_decides log_event_created demo_check_env ["--json"]
    {| ca_config := None; ca_json := true; ca_help := false |} eq_refl eq_refl) as (_ & Hiff & Hsound).
  destruct (proj1 Hiff demo_preflight) as (c & Hload & Hclean). exists c. split; [exact Hload|].
  destruct (Hsound c Hload Hclean) as [Hok Hmig]. split; [exact Hok|]. intros msg.
  apply (Hmig (Migration.connect Migration.old_db [])); [|reflexivity..].
  assert (Config.sqlite_path c = "otel-logs.db") as -> by (revert Hload; vm_compute; intros [= <-]; reflexivity).
  reflexivity.
Defined.

End CheckCommand.
