(* ===== verification/Serve.v ===== *)
(** * Serving, health and graceful shutdown
    ([crates/otel-sqlite-ingress/src/grpc.rs], [health.rs], [shutdown.rs])

    [grpc::run] checks its configuration, then three tasks share one signal: the
    relay turns an OS signal or the watchdog's halt into it, the monitor
    publishes the health statuses, and the server drains under a deadline.  Their
    interleavings are sequences of timed events.  The transport, the health
    registry and the PEM parser are libraries: the transport accepts and closes
    connections and may fail, the registry is a map of statuses. *)

From S2P Require Import Prelude Time Model Text Net Auth Config.

Module Serve.
Import Time.

Local Open Scope string_scope.
Local Open Scope list_scope.

(** ** A [tokio::sync::watch] channel of a flag *)

Record Watch := {
  w_value : bool;
  w_version : nat;
  w_closed : bool;  (** the sender was dropped *)
}.

Definition watch_channel (b : bool) : Watch := {| w_value := b; w_version := 0; w_closed := false |}.
Definition send (b : bool) (w : Watch) : Watch :=
  {| w_value := b; w_version := S (w_version w); w_closed := w_closed w |}.
Definition drop_sender (w : Watch) : Watch :=
  {| w_value := w_value w; w_version := w_version w; w_closed := true |}.

(** A poll of [Receiver::changed]: [None] is pending; a fresh value is marked as seen. *)
Definition changed (w : Watch) (seen : nat) : option (result unit nat) :=
  if (w_version w =? seen)%nat then (if w_closed w then Some (Err tt) else None)
  else Some (Ok (w_version w)).

(** ** [shutdown.rs] *)

(** A poll of [wait_for_halt]: a round for a fresh value and one for what follows it. *)
Fixpoint wait_for_halt_loop (fuel : nat) (w : Watch) (seen : nat) : bool :=
  match fuel with
  | O => false
  | S fuel' =>
      match changed w seen with
      | None => false
      | Some (Err _) => true
      | Some (Ok seen') => if w_value w then true else wait_for_halt_loop fuel' w seen'
      end
  end.

Definition wait_for_halt : Watch -> nat -> bool := wait_for_halt_loop 2.

Inductive Signal := CtrlC | Terminate.

#[export] Instance Signal_eq_dec : EqDecision Signal.
Proof. solve_decision. Defined.

(** Which handlers could be installed; a signal without one never resolves the future. *)
Record Handlers := { ctrl_c : bool; terminate : bool }.

Definition handled (h : Handlers) (s : Signal) : bool :=
  match s with CtrlC => ctrl_c h | Terminate => terminate h end.

Definition shutdown_signal (h : Handlers) (arrived : list Signal) : bool := existsb (handled h) arrived.

(** ** Startup ([grpc.rs]) *)

Inductive IngressError :=
| InvalidListenAddress (address : string)
| Transport
| CannotRead (path : string)
| TlsRejected
| AuthSetup (error : Auth.AuthError).

Record TlsIdentity := {
  id_cert : string;
  id_key : string;
  id_client_ca : option string;
}.

Section startup.
Context (read : string -> option string) (derive : TlsIdentity -> bool).
Context (sha256 : string -> Auth.Digest) (token_file : string -> Auth.FileView).

Definition read_pem (path : string) : result IngressError string :=
  match read path with Some text => Ok text | None => Err (CannotRead path) end.

Definition server_tls_config (tls : Config.TlsConfig) : result IngressError TlsIdentity :=
  let? cert := read_pem (Config.cert tls) in
  let? key := read_pem (Config.key tls) in
  match Config.client_ca tls with
  | None => Ok {| id_cert := cert; id_key := key; id_client_ca := None |}
  | Some path =>
      let? ca := read_pem path in
      Ok {| id_cert := cert; id_key := key; id_client_ca := Some ca |}
  end.

(** [Server::tls_config] parses what [server_tls_config] read. *)
Definition tls_config (i : TlsIdentity) : result IngressError unit :=
  if derive i then Ok tt else Err TlsRejected.

Definition validate_tls_material (tls : Config.TlsConfig) : result IngressError unit :=
  let? config := server_tls_config tls in tls_config config.

Record Server := {
  addr : Net.SocketAddr;
  identity : option TlsIdentity;
  vault : option Auth.TokenFileVault;
  stream_limit : N;
  mapping_limit : N;
  max_decoding : N;
}.

(** [run] up to the spawning of its tasks.  The semaphore of the exports has a permit at least. *)
Definition prepare (i : Config.IngressConfig) (now : Instant) (spawned : bool) : result IngressError Server :=
  match Config.socket_addr i with
  | Err _ => Err (InvalidListenAddress (Config.in_listen_address i))
  | Ok a =>
      let? tls := match Config.in_tls i with
                  | None => Ok None
                  | Some t => let? id := server_tls_config t in Ok (Some id)
                  end in
      match Auth.BearerInterceptor_new sha256 ((fun x => token_file (Config.token_file x)) <$> Config.in_auth i)
              now spawned with
      | Err e => Err (AuthSetup e)
      | Ok v =>
          let? _ := match tls with None => Ok tt | Some id => tls_config id end in
          Ok {| addr := a; identity := tls; vault := v;
                stream_limit := N.max (Config.max_concurrent_streams i) 1;
                mapping_limit := Config.in_mapping_concurrency i;
                max_decoding := Config.max_recv_msg_size i |}
      end
  end.

End startup.

(** ** The health statuses ([health.rs]) *)

Inductive ServingStatus := Serving | NotServing.

#[export] Instance ServingStatus_eq_dec : EqDecision ServingStatus.
Proof. solve_decision. Defined.

Definition OVERALL_SERVICE_NAME : string := "".
Definition LOGS_SERVICE_NAME : string := "opentelemetry.proto.collector.logs.v1.LogsService".
Definition HEALTH_POLL_INTERVAL : Duration := from_secs 1.

Definition serving_status (serving : bool) : ServingStatus := if serving then Serving else NotServing.

(** [apply_serving_state] awaits the registry's lock once per service, in this order. *)
Definition tracked : list string := [OVERALL_SERVICE_NAME; LOGS_SERVICE_NAME].

Definition set_all (names : list string) (s : ServingStatus) (m : gmap string ServingStatus)
    : gmap string ServingStatus := foldl (fun m name => <[name := s]> m) m names.

Definition new_health (registry : gmap string ServingStatus) : gmap string ServingStatus :=
  set_all tracked (serving_status false) registry.

(** ** The tasks of [run] *)

Inductive Relay := Listening (seen : nat) | Relayed.

(** The monitor waits for its next tick or for the halt, or has services left to update; then it
    resumes waiting, or ends. *)
Inductive Monitor :=
| Waiting (seen : nat) (next_tick : Instant)
| Applying (rest : list string) (status : ServingStatus) (resume : option (nat * Instant))
| Ended.

Inductive Acceptor := Accepting (seen : nat) | Draining.
Inductive Deadline := Armed (seen : nat) | Sleeping (until : Instant).

Record State := {
  now : Instant;
  arrived : list Signal;
  halt : option Watch;
  signal : Watch;
  relay : Relay;
  monitor : Monitor;
  statuses : gmap string ServingStatus;
  acceptor : Acceptor;
  connections : nat;
  deadline : Deadline;
  outcome : option (result IngressError unit);
}.

Inductive Event :=
| Arrive (s : Signal)    (** the process receives a signal *)
| Halted                 (** the watchdog sends its halt *)
| WatchdogGone           (** the watchdog thread drops its sender *)
| RelaySignal            (** the relay task sees either *)
| Tick (serving : bool)  (** the monitor's interval fires; what the readiness check answers *)
| SeeHalt                (** the monitor sees the signal *)
| SetStatus              (** one status is written *)
| Accept
| Close
| ServerSees             (** the transport sees the signal and stops accepting *)
| ServerDone             (** the last connection is gone *)
| ServerFails
| DeadlineSees
| DeadlineElapsed.

Definition with_now (t : Instant) (s : State) : State :=
  {| now := t; arrived := arrived s; halt := halt s; signal := signal s; relay := relay s; monitor := monitor s;
     statuses := statuses s; acceptor := acceptor s; connections := connections s; deadline := deadline s;
     outcome := outcome s |}.
Definition with_arrived (l : list Signal) (s : State) : State :=
  {| now := now s; arrived := l; halt := halt s; signal := signal s; relay := relay s; monitor := monitor s;
     statuses := statuses s; acceptor := acceptor s; connections := connections s; deadline := deadline s;
     outcome := outcome s |}.
Definition with_halt (w : option Watch) (s : State) : State :=
  {| now := now s; arrived := arrived s; halt := w; signal := signal s; relay := relay s; monitor := monitor s;
     statuses := statuses s; acceptor := acceptor s; connections := connections s; deadline := deadline s;
     outcome := outcome s |}.
Definition with_signal (w : Watch) (r : Relay) (s : State) : State :=
  {| now := now s; arrived := arrived s; halt := halt s; signal := w; relay := r; monitor := monitor s;
     statuses := statuses s; acceptor := acceptor s; connections := connections s; deadline := deadline s;
     outcome := outcome s |}.
Definition with_monitor (m : Monitor) (st : gmap string ServingStatus) (s : State) : State :=
  {| now := now s; arrived := arrived s; halt := halt s; signal := signal s; relay := relay s; monitor := m;
     statuses := st; acceptor := acceptor s; connections := connections s; deadline := deadline s;
     outcome := outcome s |}.
Definition with_server (a : Acceptor) (n : nat) (d : Deadline) (o : option (result IngressError unit)) (s : State)
    : State :=
  {| now := now s; arrived := arrived s; halt := halt s; signal := signal s; relay := relay s; monitor := monitor s;
     statuses := statuses s; acceptor := a; connections := n; deadline := d; outcome := o |}.

(** [tokio::time::interval] with [MissedTickBehavior::Skip]: the next multiple of the period. *)
Definition next_interval (tick now : Instant) : Instant :=
  (tick + HEALTH_POLL_INTERVAL * ((now - tick) / HEALTH_POLL_INTERVAL + 1))%N.

Section tasks.
Context (h : Handlers) (shutdown_timeout : Duration).

Definition is_pending {A} (p : option A) : bool := match p with Some _ => false | None => true end.

(** What wakes the relay task. *)
Definition relay_ready (s : State) (seen : nat) : bool :=
  shutdown_signal h (arrived s) || match halt s with Some w => wait_for_halt w seen | None => false end.

Definition exec (s0 : State) (e : Instant * Event) : option State :=
  let s := with_now e.1 s0 in
  if (e.1 <? now s0)%N then None else
  match e.2 with
  | Arrive sig => Some (with_arrived (sig :: arrived s) s)
  | Halted =>
      match halt s with
      | Some w =>
          if w_closed w then None
          else match relay s with
               | Listening _ => Some (with_halt (Some (send true w)) s)
               | Relayed => Some s
               end
      | None => None
      end
  | WatchdogGone => match halt s with Some w => Some (with_halt (Some (drop_sender w)) s) | None => None end
  | RelaySignal =>
      match relay s with
      | Listening seen =>
          if relay_ready s seen then Some (with_signal (drop_sender (send true (signal s))) Relayed s) else None
      | Relayed => None
      end
  | Tick serving =>
      match monitor s with
      | Waiting seen next =>
          if (now s <? next)%N then None
          else Some (with_monitor (Applying tracked (serving_status serving) (Some (seen, next_interval next (now s))))
                       (statuses s) s)
      | _ => None
      end
  | SeeHalt =>
      match monitor s with
      | Waiting seen _ =>
          if wait_for_halt (signal s) seen
          then Some (with_monitor (Applying tracked (serving_status false) None) (statuses s) s) else None
      | _ => None
      end
  | SetStatus =>
      match monitor s with
      | Applying (name :: rest) status resume =>
          Some (with_monitor
                  (match rest, resume with
                   | [], Some (seen, next) => Waiting seen next
                   | [], None => Ended
                   | _, _ => Applying rest status resume
                   end) (<[name := status]> (statuses s)) s)
      | _ => None
      end
  | Accept =>
      match acceptor s, outcome s with
      | Accepting _, None => Some (with_server (acceptor s) (S (connections s)) (deadline s) None s)
      | _, _ => None
      end
  | Close =>
      match connections s with
      | S n => Some (with_server (acceptor s) n (deadline s) (outcome s) s)
      | O => None
      end
  | ServerSees =>
      match acceptor s, outcome s with
      | Accepting seen, None =>
          if is_pending (changed (signal s) seen) then None
          else Some (with_server Draining (connections s) (deadline s) None s)
      | _, _ => None
      end
  | ServerDone =>
      match acceptor s, connections s, outcome s with
      | Draining, O, None => Some (with_server Draining 0 (deadline s) (Some (Ok tt)) s)
      | _, _, _ => None
      end
  | ServerFails =>
      match outcome s with
      | None => Some (with_server (acceptor s) (connections s) (deadline s) (Some (Err Transport)) s)
      | Some _ => None
      end
  | DeadlineSees =>
      match deadline s, outcome s with
      | Armed seen, None =>
          if is_pending (changed (signal s) seen) then None
          else Some (with_server (acceptor s) (connections s) (Sleeping (now s + shutdown_timeout)%N) None s)
      | _, _ => None
      end
  | DeadlineElapsed =>
      match deadline s, outcome s with
      | Sleeping until, None =>
          if (now s <? until)%N then None
          else Some (with_server (acceptor s) (connections s) (deadline s) (Some (Ok tt)) s)
      | _, _ => None
      end
  end.

Fixpoint run (s : State) (es : list (Instant * Event)) : option State :=
  match es with
  | [] => Some s
  | e :: es' => match exec s e with Some s' => run s' es' | None => None end
  end.

(** [run] once its tasks are spawned, at [start]; [external] is the watchdog's receiver. *)
Definition spawned (external : option Watch) (registry : gmap string ServingStatus) (start : Instant) : State :=
  {| now := start; arrived := []; halt := external; signal := watch_channel false; relay := Listening 0;
     monitor := Waiting 0 start; statuses := new_health registry; acceptor := Accepting 0; connections := 0;
     deadline := Armed 0; outcome := None |}.

(** ** Runs *)

Lemma run_app s es1 es2 :
  run s (es1 ++ es2) = match run s es1 with Some s' => run s' es2 | None => None end.
Proof. revert s. induction es1 as [|e es1 IH]; intros s; [done|]. simpl. destruct (exec s e); [apply IH|done]. Qed.

(** Rule induction on a run, by its last event. *)
Lemma run_invariant (s0 : State) (P : list (Instant * Event) -> State -> Prop) :
  P [] s0 -> (forall es s t ev s', run s0 es = Some s -> P es s -> exec s (t, ev) = Some s' -> P (es ++ [(t, ev)]) s') ->
  forall es s, run s0 es = Some s -> P es s.
Proof.
  intros H0 Hstep es. induction es as [|[t ev] es IH] using rev_ind; intros s Hrun; [by simplify_eq/=|].
  rewrite run_app in Hrun. destruct (run s0 es) as [s'|] eqn:E; [|done]. simpl in Hrun.
  destruct (exec s' (t, ev)) as [s''|] eqn:Ee; [|done]. simplify_eq. eauto.
Qed.

Lemma wait_for_halt_ready w seen :
  wait_for_halt w seen = true <-> w_version w <> seen /\ w_value w = true \/ w_closed w = true.
Proof.
  unfold wait_for_halt. cbn [wait_for_halt_loop]. unfold changed.
  destruct (Nat.eqb_spec (w_version w) seen); rewrite ?Nat.eqb_refl; destruct (w_value w), (w_closed w); naive_solver.
Qed.

Lemma exec_clock s t ev s' : exec s (t, ev) = Some s' -> (now s <= t)%N /\ now s' = t.
Proof.
  unfold exec. simpl. destruct (N.ltb_spec t (now s)) as [|Hle]; [done|]. intros H. split; [done|].
  repeat case_match; by simplify_eq.
Qed.

(** ** The signal *)

(** A reason to stop: a signal whose handler is installed, or the watchdog's halt or end. *)
Definition stops (ev : Event) : bool :=
  match ev with Arrive sig => handled h sig | Halted | WatchdogGone => true | _ => false end.

Definition stop_requested (external : option Watch) (es : list (Instant * Event)) : Prop :=
  (exists e, e ∈ es /\ stops e.2 = true) \/ exists w, external = Some w /\ wait_for_halt w 0 = true.

(** The signal was sent at [t], for a reason. *)
Definition relayed_at (external : option Watch) (es : list (Instant * Event)) (t : Instant) : Prop :=
  exists es1 es2, es = es1 ++ (t, RelaySignal) :: es2 /\ stop_requested external es1.

Lemma relayed_at_snoc external es e t : relayed_at external es t -> relayed_at external (es ++ [e]) t.
Proof. intros (es1 & es2 & -> & ?). exists es1, (es2 ++ [e]). by rewrite <- app_assoc. Qed.

Lemma stop_requested_snoc external es e : stop_requested external es -> stop_requested external (es ++ [e]).
Proof. intros [(e' & ? & ?)|?]; [|by right]. left. exists e'. split; [set_solver|done]. Qed.

Definition sent : Watch := drop_sender (send true (watch_channel false)).

(** The channels and their receivers hold what the history put into them. *)
Record signal_inv (external : option Watch) (es : list (Instant * Event)) (s : State) : Prop := {
  si_relay : match relay s with
             | Listening seen => seen = 0 /\ signal s = watch_channel false
             | Relayed => signal s = sent /\ exists t, relayed_at external es t /\ (t <= now s)%N
             end;
  si_arrived : shutdown_signal h (arrived s) = true -> stop_requested external es;
  si_halt : forall w, halt s = Some w -> wait_for_halt w 0 = true -> stop_requested external es;
}.

(** What the step of an event did, in every branch that is enabled. *)
Ltac exec_cases He :=
  unfold exec in He; simpl in He; repeat case_match; simplify_eq/=.

Lemma relay_step s t ev s' :
  exec s (t, ev) = Some s' ->
  relay s' = relay s /\ signal s' = signal s \/
  ev = RelaySignal /\ relay s' = Relayed /\ signal s' = drop_sender (send true (signal s)) /\
  exists seen, relay s = Listening seen /\ relay_ready s seen = true.
Proof.
  intros He. destruct ev; exec_cases He; first [left; split; congruence|right].
  split_and!; [reflexivity..|]. eexists. split; [reflexivity|assumption].
Qed.

Lemma inputs_step s t ev s' :
  exec s (t, ev) = Some s' ->
  (arrived s' = arrived s \/ exists sig, ev = Arrive sig /\ arrived s' = sig :: arrived s) /\
  (halt s' = halt s \/ stops ev = true).
Proof.
  intros He. destruct ev; exec_cases He;
    (split; [first [left; congruence|right; eexists; split; reflexivity]|first [left; congruence|right; assumption || reflexivity]]).
Qed.

Lemma signal_inv_run external registry start es s :
  run (spawned external registry start) es = Some s -> signal_inv external es s.
Proof.
  revert es s. apply run_invariant.
  { constructor; simpl; [done|done|]. intros w Hw Hr. right. by exists w. }
  intros es s t ev s' _ [Hr Ha Hh] He. pose proof (exec_clock _ _ _ _ He) as [Hle Hnow].
  assert (stops ev = true -> stop_requested external (es ++ [(t, ev)])) as Hnew.
  { intros. left. exists (t, ev). split; [set_solver|done]. }
  pose proof (stop_requested_snoc external es (t, ev)) as Hold.
  pose proof (inputs_step _ _ _ _ He) as [Harr Hhalt].
  constructor; rewrite ?Hnow; clear Hnow.
  - apply relay_step in He as [[-> ->]|(-> & -> & -> & seen & Hl & Hready)].
    + destruct (relay s); [done|]. destruct Hr as (? & t' & ? & ?). split; [done|]. exists t'.
      split; [by apply relayed_at_snoc|lia].
    + rewrite Hl in Hr. destruct Hr as [-> ->]. split; [done|]. exists t. split; [|lia]. exists es, [].
      split; [done|]. unfold relay_ready in Hready. apply orb_true_iff in Hready as [?|?]; [auto|].
      destruct (halt s); [eauto|done].
  - intros Hs. destruct Harr as [Harr|(sig & -> & Harr)]; rewrite Harr in Hs; [auto|].
    apply orb_true_iff in Hs as [?|?]; auto.
  - destruct Hhalt as [->|]; eauto.
Qed.

(** ** Health *)

(** The readiness samples of a run, with their times. *)
Definition samples (es : list (Instant * Event)) : list (Instant * bool) :=
  omap (fun e => match e.2 with Tick b => Some (e.1, b) | _ => None end) es.

(** The status the last sample stands for; before the first one nothing is served. *)
Definition sampled (es : list (Instant * Event)) : ServingStatus :=
  serving_status (default false (snd <$> last (samples es))).

Definition agreed (s : State) (status : ServingStatus) : Prop :=
  Forall (fun name => statuses s !! name = Some status) tracked.

(** The last sample is within one interval of the next tick. *)
Definition fresh (es : list (Instant * Event)) (clock next : Instant) : Prop :=
  forall t b, last (samples es) = Some (t, b) -> (t <= clock /\ next <= t + HEALTH_POLL_INTERVAL)%N.

Definition health_inv (es : list (Instant * Event)) (s : State) : Prop :=
  match monitor s with
  | Waiting seen next => seen = 0 /\ agreed s (sampled es) /\ fresh es (now s) next
  | Applying rest status resume =>
      (rest = tracked \/ rest = [LOGS_SERVICE_NAME] /\ statuses s !! OVERALL_SERVICE_NAME = Some status) /\
      match resume with
      | Some (seen, next) => seen = 0 /\ status = sampled es /\ fresh es (now s) next
      | None => status = NotServing
      end
  | Ended => agreed s NotServing
  end.

Lemma samples_snoc es t ev :
  samples (es ++ [(t, ev)]) = samples es ++ match ev with Tick b => [(t, b)] | _ => [] end.
Proof. unfold samples. rewrite omap_app. by destruct ev. Qed.

Lemma next_interval_le tick clock : (tick <= clock -> next_interval tick clock <= clock + HEALTH_POLL_INTERVAL)%N.
Proof.
  intros Hle. unfold next_interval.
  pose proof (N.Div0.mul_div_le (clock - tick) HEALTH_POLL_INTERVAL). rewrite N.mul_add_distr_l. lia.
Qed.

Lemma monitor_step s t ev s' :
  exec s (t, ev) = Some s' ->
  match ev with
  | Tick b => exists seen next, monitor s = Waiting seen next /\ (next <= t)%N /\ statuses s' = statuses s /\
      monitor s' = Applying tracked (serving_status b) (Some (seen, next_interval next t))
  | SeeHalt => (exists seen next, monitor s = Waiting seen next) /\ statuses s' = statuses s /\
      monitor s' = Applying tracked NotServing None
  | SetStatus => exists name rest status resume, monitor s = Applying (name :: rest) status resume /\
      statuses s' = <[name := status]> (statuses s) /\
      monitor s' = match rest, resume with
                   | [], Some (seen, next) => Waiting seen next
                   | [], None => Ended
                   | _, _ => Applying rest status resume
                   end
  | _ => monitor s' = monitor s /\ statuses s' = statuses s
  end.
Proof.
  intros He. destruct ev; exec_cases He; try (split; congruence).
  - do 2 eexists. split_and!; [reflexivity|by apply N.ltb_ge|reflexivity..].
  - split_and!; [by do 2 eexists|reflexivity..].
  - do 4 eexists. split_and!; [reflexivity..|]. done.
  - do 4 eexists. split_and!; reflexivity.
  - do 4 eexists. split_and!; reflexivity.
Qed.

Lemma health_inv_run external registry start es s :
  run (spawned external registry start) es = Some s -> health_inv es s.
Proof.
  revert es s. apply run_invariant.
  { split_and!; [done| |by intros]. unfold agreed, tracked. simpl. unfold new_health, tracked. simpl.
    repeat constructor; by simplify_map_eq. }
  intros es s t ev s' _ Hinv He. pose proof (exec_clock _ _ _ _ He) as [Hle Hnow].
  assert (forall next, fresh es (now s) next -> fresh es t next) as Hfresh.
  { intros next Hf t' b Hl. specialize (Hf t' b Hl). lia. }
  pose proof (samples_snoc es t ev) as Hs. apply monitor_step in He.
  unfold health_inv, agreed, sampled, fresh in *. rewrite Hnow, Hs.
  destruct ev; rewrite ?app_nil_r, ?last_snoc.
  all: try (destruct He as [-> ->]; repeat case_match; naive_solver).
  - destruct He as (seen & next & Hm & Hn & -> & ->). rewrite Hm in Hinv. destruct Hinv as (-> & _).
    split_and!; [by left|done|done|]. intros ? ? [= <- <-]. split; [done|]. by apply next_interval_le.
  - destruct He as (_ & -> & ->). split; [by left|done].
  - destruct He as (name & rest & status & resume & Hm & -> & ->). rewrite Hm in Hinv.
    destruct Hinv as [[[= -> ->]|[[= -> ->] Ho]] Hres].
    { split; [right; split; [done|by simplify_map_eq]|]. destruct resume as [[seen next]|]; naive_solver. }
    assert (Forall (fun name => <[LOGS_SERVICE_NAME:=status]> (statuses s) !! name = Some status) tracked) as Hall.
    { unfold tracked. repeat constructor; by simplify_map_eq. }
    destruct resume as [[seen next]|]; [destruct Hres as (-> & -> & ?); split_and!; [done|done|by apply Hfresh]|by subst].
Qed.

Lemma ended_run s es s' : monitor s = Ended -> run s es = Some s' -> monitor s' = Ended /\ statuses s' = statuses s.
Proof.
  intros Hm. revert es s'. apply run_invariant; [done|]. intros es s1 t ev s' _ [Hm1 Hst] He.
  apply monitor_step in He. destruct ev; rewrite ?Hm1, <- ?Hst in *; try done; naive_solver.
Qed.

(** Writing the statuses that are left does not depend on anything else. *)
Lemma apply_runs rest : forall s status resume,
  monitor s = Applying rest status resume -> rest <> [] ->
  exists s', run s ((fun _ => (now s, SetStatus)) <$> rest) = Some s' /\ now s' = now s /\ signal s' = signal s /\
    monitor s' = match resume with Some (seen, next) => Waiting seen next | None => Ended end.
Proof.
  induction rest as [|name rest IH]; intros s status resume Hm Hne; [done|]. rewrite fmap_cons. cbn [run].
  unfold exec. cbn -[N.ltb]. rewrite N.ltb_irrefl, Hm. destruct rest as [|name' rest].
  - destruct resume as [[]|]; by eexists.
  - match goal with |- context [run ?s1 _] => destruct (IH s1 status resume eq_refl) as (s' & ? & ? & ? & ?); [done|] end.
    exists s'. by split_and!.
Qed.

Lemma halt_runs s next :
  monitor s = Waiting 0 next -> signal s = sent ->
  exists s', run s ((fun ev => (now s, ev)) <$> [SeeHalt; SetStatus; SetStatus]) = Some s' /\ monitor s' = Ended.
Proof.
  intros Hm Hs. set (s1 := with_monitor (Applying tracked NotServing None) (statuses s) (with_now (now s) s)).
  assert (exec s (now s, SeeHalt) = Some s1) as He.
  { unfold exec. cbn -[N.ltb wait_for_halt]. by rewrite N.ltb_irrefl, Hm, Hs. }
  destruct (apply_runs tracked s1 NotServing None eq_refl) as (s' & Hr & _ & _ & Hm'); [done|].
  exists s'. split; [|done]. cbn [fmap list_fmap run]. rewrite He. exact Hr.
Qed.

(** The writes the monitor still owes, and then what it does on the halt. *)
Definition monitor_todo (s : State) : list Event :=
  match monitor s with
  | Waiting _ _ => [SeeHalt; SetStatus; SetStatus]
  | Applying rest _ (Some _) => ((fun _ => SetStatus) <$> rest) ++ [SeeHalt; SetStatus; SetStatus]
  | Applying rest _ None => (fun _ => SetStatus) <$> rest
  | Ended => []
  end.

Lemma monitor_ends external registry start es s :
  run (spawned external registry start) es = Some s -> relay s = Relayed ->
  exists s', run s ((fun ev => (now s, ev)) <$> monitor_todo s) = Some s' /\ monitor s' = Ended.
Proof.
  intros Hrun Hrel. pose proof (signal_inv_run _ _ _ _ _ Hrun) as [Hsig _ _]. rewrite Hrel in Hsig.
  destruct Hsig as [Hsig _]. pose proof (health_inv_run _ _ _ _ _ Hrun) as Hh. unfold health_inv in Hh.
  unfold monitor_todo. destruct (monitor s) as [seen next|rest status resume|] eqn:Hm; [| |by exists s].
  { destruct Hh as [-> _]. by eapply halt_runs. }
  destruct Hh as [Hrest Hres]. assert (rest <> []) as Hne by (destruct Hrest as [->|[-> _]]; done).
  destruct (apply_runs rest s status resume Hm Hne) as (s1 & Hr1 & Hn1 & Hs1 & Hm1).
  destruct resume as [[seen next]|]; [|exists s1; by rewrite <- list_fmap_compose].
  destruct Hres as [-> _]. rewrite fmap_app, run_app, <- list_fmap_compose. unfold compose. rewrite Hr1, <- Hn1.
  apply (halt_runs s1 next); congruence.
Qed.

(** C21: Health tracks the pipeline.  Between two updates every tracked service reports what
    the readiness check last answered, NOT_SERVING before the first answer, and that answer
    is within one poll interval of the next tick; after the shutdown signal the monitor can
    always finish, within five writes and polls of its own, and from then on every service
    stays NOT_SERVING. *)
Theorem health_tracks_readiness external registry start es s :
  run (spawned external registry start) es = Some s ->
  match monitor s with
  | Waiting _ next => agreed s (sampled es) /\ fresh es (now s) next
  | Applying _ _ _ => True
  | Ended => forall es' s', run s es' = Some s' -> agreed s' NotServing
  end /\
  (relay s = Relayed ->
   (length (monitor_todo s) <= 5)%nat /\
   exists s', run s ((fun ev => (now s, ev)) <$> monitor_todo s) = Some s' /\ monitor s' = Ended).
Proof.
  intros Hrun. pose proof (health_inv_run _ _ _ _ _ Hrun) as Hh. unfold health_inv in Hh. split.
  - destruct (monitor s) eqn:Hm; [naive_solver|done|]. intros es' s' Hr. unfold agreed.
    by apply ended_run in Hr as [_ ->].
  - intros Hrel. split; [|by eapply monitor_ends]. unfold monitor_todo.
    destruct (monitor s) as [| rest ? [[]|]|]; [simpl; lia| | |simpl; lia].
    all: rewrite ?length_app, length_fmap; destruct Hh as [[->|[-> _]] _]; simpl; lia.
Qed.

(** ** Draining *)

Lemma server_step s t ev s' :
  exec s (t, ev) = Some s' ->
  match ev with
  | Accept => acceptor s' = acceptor s /\ deadline s' = deadline s /\ outcome s' = None
  | Close => acceptor s' = acceptor s /\ deadline s' = deadline s /\ outcome s' = outcome s /\
      connections s = S (connections s')
  | ServerSees => acceptor s' = Draining /\ deadline s' = deadline s /\ outcome s' = None /\
      exists seen, acceptor s = Accepting seen /\ changed (signal s) seen <> None
  | ServerDone => acceptor s' = acceptor s /\ acceptor s = Draining /\ deadline s' = deadline s /\
      connections s' = 0 /\ outcome s' = Some (Ok tt)
  | ServerFails => acceptor s' = acceptor s /\ deadline s' = deadline s /\ outcome s' = Some (Err Transport)
  | DeadlineSees => acceptor s' = acceptor s /\ deadline s' = Sleeping (t + shutdown_timeout)%N /\ outcome s' = None /\
      exists seen, deadline s = Armed seen /\ changed (signal s) seen <> None
  | DeadlineElapsed => acceptor s' = acceptor s /\ deadline s' = deadline s /\ outcome s' = Some (Ok tt) /\
      exists until, deadline s = Sleeping until /\ (until <= t)%N
  | _ => acceptor s' = acceptor s /\ deadline s' = deadline s /\ outcome s' = outcome s /\
      connections s' = connections s
  end.
Proof.
  intros He. destruct ev; exec_cases He; split_and!; try congruence.
  all: eexists; split; [reflexivity|]; try (by apply N.ltb_ge).
  all: by destruct (changed (signal s) seen).
Qed.

Record drain_inv (external : option Watch) (es : list (Instant * Event)) (s : State) : Prop := {
  di_acceptor : match acceptor s with Accepting seen => seen = 0 | Draining => exists t, relayed_at external es t end;
  di_deadline : match deadline s with
                | Armed seen => seen = 0
                | Sleeping until => (until <= now s + shutdown_timeout)%N /\
                    exists t, relayed_at external es t /\ (t + shutdown_timeout <= until)%N
                end;
  di_outcome : match outcome s with
               | None => True
               | Some (Err e) => e = Transport /\ exists t, (t, ServerFails) ∈ es
               | Some (Ok _) => exists t, relayed_at external es t /\
                   (connections s = 0 \/ (t + shutdown_timeout <= now s)%N)
               end;
}.

Lemma drain_inv_run external registry start es s :
  run (spawned external registry start) es = Some s -> drain_inv external es s.
Proof.
  revert es s. apply run_invariant; [by constructor|].
  intros es s t ev s' Hrun [Ha Hd Ho] He. pose proof (exec_clock _ _ _ _ He) as [Hle Hnow].
  pose proof (signal_inv_run _ _ _ _ _ Hrun) as [Hr _ _].
  assert (forall t', relayed_at external es t' -> relayed_at external (es ++ [(t, ev)]) t') as Hmono
    by (intros; by apply relayed_at_snoc).
  assert (changed (signal s) 0 <> None -> exists t', relayed_at external (es ++ [(t, ev)]) t' /\ (t' <= t)%N) as Hseen.
  { intros Hc. destruct (relay s); [by destruct Hr as [_ Hr]; rewrite Hr in Hc|].
    destruct Hr as (_ & t' & ? & ?). exists t'. split; [auto|lia]. }
  assert (match deadline s with
          | Armed seen => seen = 0
          | Sleeping until => (until <= t + shutdown_timeout)%N /\
              exists t', relayed_at external (es ++ [(t, ev)]) t' /\ (t' + shutdown_timeout <= until)%N
          end) as Hkept.
  { destruct (deadline s); [done|]. destruct Hd as (? & t' & ? & ?). split; [lia|]. exists t'. auto. }
  apply server_step in He. constructor; rewrite ?Hnow; clear Hnow.
  - destruct ev; try (destruct He as [-> _]; destruct (acceptor s); [done|destruct Ha as [t' ?]; exists t'; by auto]).
    destruct He as (-> & _ & _ & seen & Hacc & Hc). rewrite Hacc in Ha. subst seen.
    destruct (Hseen Hc) as (t' & ? & _). by exists t'.
  - destruct ev; try (destruct He as (_ & -> & _); exact Hkept).
    + by destruct He as (_ & _ & -> & _).
    + destruct He as (_ & -> & _ & seen & Hdl & Hc). rewrite Hdl in Hd. subst seen. split; [lia|].
      destruct (Hseen Hc) as (t' & ? & ?). exists t'. split; [done|lia].
  - destruct ev; destruct He as (Hacc & He); try destruct He as (Hdl & ->); try destruct He as (Hdl & -> & Hc); try done.
    all: try (rewrite ?Hc; destruct (outcome s) as [[[]|e]|]; [..|done];
              [destruct Ho as (t' & ? & [?|?]); exists t'; (split; [auto|])|split; [apply Ho|set_solver]]).
    all: try lia; try (right; lia).
    + destruct He as (Hdr & _ & Hz & ->). rewrite Hdr in *. destruct Ha as [t' ?]. exists t'. auto.
    + split; [done|]. exists t. set_solver.
    + destruct Hc as (until & Hu & ?). rewrite Hu in Hkept. destruct Hkept as (_ & t' & ? & ?). exists t'.
      split; [done|]. right. lia.
Qed.

(** A request to stop is never lost: the relay stays ready for it. *)
Lemma request_kept external registry start es s seen :
  run (spawned external registry start) es = Some s ->
  relay s = Listening seen -> stop_requested external es -> relay_ready s seen = true.
Proof.
  intros Hrun Hl. pose proof (signal_inv_run _ _ _ _ _ Hrun) as [Hr _ _]. rewrite Hl in Hr. destruct Hr as [-> _].
  revert Hl. revert es s Hrun.
  apply (run_invariant _ (fun es s => relay s = Listening 0 -> stop_requested external es -> relay_ready s 0 = true)).
  { intros _ [(e & He & _)|(w & -> & Hw)]; [by apply not_elem_of_nil in He|]. exact Hw. }
  intros es s t ev s' _ IH He Hl Hreq.
  assert (relay s = Listening 0) as Hl0.
  { destruct (relay_step _ _ _ _ He) as [[<- _]|(_ & Hrel & _)]; [done|congruence]. }
  assert (stop_requested external es \/ stops ev = true) as Hcases.
  { destruct Hreq as [([t' ev'] & Hin & Hst)|?]; [|by left; right]. apply elem_of_app in Hin as [?|Hin].
    - left. left. by exists (t', ev').
    - apply list_elem_of_singleton in Hin. right. by simplify_eq. }
  specialize (IH Hl0). unfold relay_ready in *. rewrite orb_true_iff in *.
  destruct ev; exec_cases He; repeat match goal with H : halt s = _ |- _ => rewrite H in * end; rewrite ?orb_true_iff, ?wait_for_halt_ready in *; simpl; naive_solver.
Qed.

Lemma deadline_sees s :
  deadline s = Armed 0 -> signal s = sent -> outcome s = None ->
  exec s (now s, DeadlineSees) =
  Some (with_server (acceptor s) (connections s) (Sleeping (now s + shutdown_timeout)%N) None (with_now (now s) s)).
Proof. intros Hd Hs Ho. unfold exec. cbn -[N.ltb]. by rewrite N.ltb_irrefl, Hd, Hs, Ho. Qed.

Lemma deadline_elapses s until t :
  deadline s = Sleeping until -> outcome s = None -> (now s <= t)%N -> (until <= t)%N ->
  exists s', exec s (t, DeadlineElapsed) = Some s' /\ outcome s' = Some (Ok tt) /\ now s' = t.
Proof.
  intros Hd Ho Hn Hu. unfold exec. cbn -[N.ltb]. rewrite Hd, Ho, !(proj2 (N.ltb_ge _ _)) by done. by eexists.
Qed.

(** C22: Shutdown is prompt, graceful and bounded.  A signal with a handler, a halt or the end of
    the watchdog always wakes the relay, and nothing else does.  [serve] then returns without an
    error only once no connection is left or the whole drain budget has passed since the signal
    was sent, and with any connections still open it can return by then: the deadline needs no
    help from them.  The only error is a failure of the transport. *)
Theorem drain_bounded external registry start es s :
  run (spawned external registry start) es = Some s ->
  (forall seen, relay s = Listening seen -> stop_requested external es <-> relay_ready s seen = true) /\
  match outcome s with
  | None => relay s = Relayed ->
      exists es' s', run s es' = Some s' /\ outcome s' = Some (Ok tt) /\ (now s' <= now s + shutdown_timeout)%N /\
        Forall (fun e => e.2 = DeadlineSees \/ e.2 = DeadlineElapsed) es'
  | Some (Err e) => e = Transport /\ exists t, (t, ServerFails) ∈ es
  | Some (Ok _) => exists t, relayed_at external es t /\ (connections s = 0 \/ (t + shutdown_timeout <= now s)%N)
  end.
Proof.
  intros Hrun. pose proof (signal_inv_run _ _ _ _ _ Hrun) as [Hr Harr Hhalt].
  pose proof (drain_inv_run _ _ _ _ _ Hrun) as [_ Hd Ho]. split.
  { intros seen Hl. split; [by eapply request_kept|]. rewrite Hl in Hr. destruct Hr as [-> _].
    unfold relay_ready. rewrite orb_true_iff. intros [?|?]; [auto|]. destruct (halt s); [eauto|done]. }
  destruct (outcome s) as [[]|] eqn:Eo; [done..|]. intros Hrel. rewrite Hrel in Hr. destruct Hr as [Hsig _].
  destruct (deadline s) as [seen|until] eqn:Ed.
  - subst seen. pose proof (deadline_sees s Ed Hsig Eo) as He. set (s1 := with_server _ _ _ _ _) in He.
    destruct (deadline_elapses s1 _ (now s + shutdown_timeout) eq_refl eq_refl) as (s' & He' & Ho' & Hn'); [simpl; lia..|].
    exists [(now s, DeadlineSees); (now s + shutdown_timeout, DeadlineElapsed)%N], s'. cbn [run]. rewrite He, He'.
    split_and!; [done..|lia|]. rewrite !Forall_cons. auto.
  - destruct (deadline_elapses s until (N.max (now s) until) Ed Eo) as (s' & He & Ho' & Hn'); [lia..|].
    exists [(N.max (now s) until, DeadlineElapsed)], s'. cbn [run]. rewrite He.
    split_and!; [done..|lia|]. rewrite !Forall_cons. auto.
Qed.

End tasks.

(** ** A shutdown under load *)

Definition demo_handlers : Handlers := {| ctrl_c := true; terminate := true |}.

Definition demo_start : State := spawned (Some (watch_channel false)) ∅ 0%N.

(** The pipeline is ready, an export holds its connection open, and SIGTERM arrives. *)
Definition busy_run : list (Instant * Event) :=
  [(0, Tick true); (0, SetStatus); (0, SetStatus); (5, Accept); (from_secs 2, Arrive Terminate);
   (from_secs 2, RelaySignal); (from_secs 2, ServerSees); (from_secs 2, DeadlineSees);
   (from_secs 2, SeeHalt); (from_secs 2, SetStatus); (from_secs 2, SetStatus)]%N.

Definition drained_run : list (Instant * Event) := busy_run ++ [(from_secs 32, DeadlineElapsed)]%N.

Definition final (es : list (Instant * Event)) : State :=
  default demo_start (run demo_handlers (from_secs 30) demo_start es).

Lemma health_tracks_readiness_witness :
  run demo_handlers (from_secs 30) demo_start (take 3 busy_run) = Some (final (take 3 busy_run)) /\
  agreed (final (take 3 busy_run)) Serving /\
  forall es' s', run demo_handlers (from_secs 30) (final busy_run) es' = Some s' -> agreed s' NotServing.
Proof.
  assert (run demo_handlers (from_secs 30) demo_start (take 3 busy_run) = Some (final (take 3 busy_run))) as Hrun1
    by (vm_compute; reflexivity).
  assert (run demo_handlers (from_secs 30) demo_start busy_run = Some (final busy_run)) as Hrun2 by (vm_compute; reflexivity).
  destruct (health_tracks_readiness _ _ _ _ _ _ _ Hrun1) as [H1 _].
  destruct (health_tracks_readiness _ _ _ _ _ _ _ Hrun2) as [H2 _].
  split; [exact Hrun1|]. split; [|exact H2]. exact (proj1 H1).
Defined.

Lemma drain_bounded_witness :
  outcome (final drained_run) = Some (Ok tt) /\ connections (final drained_run) = 1 /\
  exists t, relayed_at demo_handlers (Some (watch_channel false)) drained_run t /\
    (connections (final drained_run) = 0 \/ (t + from_secs 30 <= now (final drained_run))%N).
Proof.
  assert (run demo_handlers (from_secs 30) demo_start drained_run = Some (final drained_run)) as Hrun
    by (vm_compute; reflexivity).
  destruct (drain_bounded _ _ _ _ _ _ _ Hrun) as [_ H].
  assert (outcome (final drained_run) = Some (Ok tt)) as Ho by (vm_compute; reflexivity).
  rewrite Ho in H. split; [exact Ho|]. split; [vm_compute; reflexivity|exact H].
Defined.

(** The tasks that see the signal are not ordered among themselves: the drain deadline can start
    while every service still reports SERVING. *)
Lemma drain_starts_while_serving :
  exists es s, run demo_handlers (from_secs 30) demo_start es = Some s /\
    (exists until, deadline s = Sleeping until) /\ agreed s Serving.
Proof.
  exists (take 8 busy_run), (final (take 8 busy_run)). split; [vm_compute; reflexivity|].
  split; [eexists; vm_compute; reflexivity|]. repeat constructor; vm_compute; reflexivity.
Qed.

End Serve.
