(* ===== verification/Lifecycle.v ===== *)
(** * Process lifecycle
    ([crates/otel-sqlite/src/main.rs], [otel-sqlite-runtime/src/worker.rs], [watchdog.rs], [storage/src/lib.rs])

    [main] dispatches the subcommands, starts the components, serves, and tears
    the process down: stop the watchdog, stop the maintenance worker, join the
    storage pipeline.  The teardown waits for threads that wait for channels that
    other parts hold open, so it is modelled with the four threads it joins: who
    holds which sender, and what is left in the queues.  What the threads do
    with their messages is the matter of [Watchdog], [Scheduler],
    [BatcherDriver], [Writer] and [Pipeline]; here a message is a count. *)

From S2P Require Import Prelude Time Model Text Command Sqlite Pipeline Watchdog Net Config Dump Auth Serve Shutdown CheckCommand.

Module Lifecycle.
Import Time Sqlite.

Local Open Scope string_scope.
Local Open Scope list_scope.
Local Open Scope nat_scope.

(** ** Subcommands *)

Inductive Subcommand :=
| Help
| HealthCheck
| GenCerts (rest : list string)
| Backup (rest : list string)
| Restore (rest : list string)
| Verify (rest : list string)
| Check (rest : list string)
| Unknown (argument : string)
| Server.

Definition dispatch (args : list string) : Subcommand :=
  match args with
  | [] => Server
  | first :: rest =>
      if String.eqb first "--help" || String.eqb first "-h" || String.eqb first "help" then Help
      else if String.eqb first "healthcheck" then HealthCheck
      else if String.eqb first "gen-certs" then GenCerts rest
      else if String.eqb first "backup" then Backup rest
      else if String.eqb first "restore" then Restore rest
      else if String.eqb first "verify" then Verify rest
      else if String.eqb first "check" then Check rest
      else Unknown first
  end.

(** ** The stop channel of a worker: [bounded::<()>(1)] *)

Record StopChannel := { queued : bool; sender : bool }.

Definition stop_channel : StopChannel := {| queued := false; sender := true |}.

(** [shutdown]: [try_send] into the only slot; a full channel and a dropped sender change nothing. *)
Definition shutdown (c : StopChannel) : StopChannel :=
  if sender c then {| queued := true; sender := true |} else c.

(** [self.shutdown = None], in [join] and in [Drop]. *)
Definition release (c : StopChannel) : StopChannel := {| queued := queued c; sender := false |}.

(** [stop]: signal, then let go of the channel and join. *)
Definition stop (c : StopChannel) : StopChannel := release (shutdown c).

(** [shutdown_signalled]: [try_recv] finds a message, or nobody left to send one. *)
Definition signalled (c : StopChannel) : bool := queued c || negb (sender c).

(** ** Starting ([main]) *)

Inductive MainError :=
| ConfigFailed (e : Config.ConfigError)
| DumpFailed
| MetricsFailed
| StorageFailed (e : StorageError)
| WatchdogInvalid (e : Watchdog.WatchdogConfigError)
| ServeFailed (e : Serve.IngressError)
| WatchdogPanicked
| MaintenancePanicked
| WriterFailed (e : StorageError).

Section boot.
Context {Conn : Type}.

Record BootEnv := {
  be_config : result Config.ConfigError Config.Config;
  be_to_string_pretty : Dump.Json -> option string;
  be_exporter_ok : Net.SocketAddr -> bool;
  be_writer_ready : Pipeline.Ready;
  be_batcher_ready : Pipeline.Ready;
  be_conn : Conn;
  be_now : N;
}.

Definition install_metrics_exporter (env : BootEnv) (address : string) : result MainError unit :=
  match Net.bind_address address with
  | None => Err MetricsFailed
  | Some a => if be_exporter_ok env a then Ok tt else Err MetricsFailed
  end.

(** [main] up to the call of [serve_with_shutdown]; [None] is a panic. *)
Definition boot (env : BootEnv)
    : option (result MainError (Config.Config * Watchdog.WatchdogConfig * Pipeline.System)) :=
  match be_config env with
  | Err e => Some (Err (ConfigFailed e))
  | Ok c =>
      dump ← Dump.dump_json (be_to_string_pretty env) c;
      Some
        (let? _ := match dump with Some _ => Ok tt | None => Err DumpFailed end in
         let? _ := match Config.metrics_address c with
                   | Some address => install_metrics_exporter env address
                   | None => Ok tt
                   end in
         match Pipeline.Storage_open (Config.insert_batcher (Config.storage_config c))
                (Config.startup_timeout (Config.storage_config c)) (be_writer_ready env) (be_batcher_ready env)
                (be_conn env) (be_now env) with
         | Err e => Err (StorageFailed e)
         | Ok s =>
             match Watchdog.Watchdog_new (Config.watchdog c) with
             | Err e => Err (WatchdogInvalid e)
             | Ok w => Ok (c, w, s)
             end
         end)
  end.

End boot.

(** [StorageServingCheck::is_serving]: the readiness the health monitor samples. *)
Definition is_serving (s : Watchdog.PipelineSample) : bool := Watchdog.writer_running s && Watchdog.batcher_running s.

(** ** Tearing down *)

(** A worker thread: in a cycle, waiting for its stop channel and maybe a timer, or gone. *)
Inductive Worker := Busy | Asleep (timer : bool) | Gone (panicked : bool).

Inductive Pc :=
| StopWatchdog | JoinWatchdog | StopMaintenance | JoinMaintenance
| ReleaseCommands | AwaitBatcher | AwaitWriter | Finished.

Record State := {
  pc : Pc;
  conns : nat;                   (** connections that outlived the drain: each holds an ingest sender *)
  wd_stop : StopChannel;
  wd : Worker;
  mt_stop : StopChannel;
  mt : Worker;                   (** holds a command sender until it is gone *)
  own : bool;                    (** [Storage::commands] *)
  ingest : nat;                  (** chunks in the ingest queue *)
  pending : nat;                 (** batches the batcher has yet to send *)
  buffered : bool;               (** the batcher holds records of unfinished batches *)
  closing : bool;                (** the batcher has seen the end of the ingest queue *)
  bt : option bool;              (** the batcher's exit, panicked or not; it drops its command sender *)
  commands : nat;                (** commands in the command queue *)
  wr : option (Shutdown.Exit (result StorageError unit));
  watchdog_panicked : bool;
  maintenance_panicked : bool;
  joined : option (result StorageError unit);
}.

Definition set_pc (p : Pc) (s : State) : State :=
  {| pc := p; conns := conns s; wd_stop := wd_stop s; wd := wd s; mt_stop := mt_stop s; mt := mt s; own := own s;
     ingest := ingest s; pending := pending s; buffered := buffered s; closing := closing s; bt := bt s; commands := commands s; wr := wr s;
     watchdog_panicked := watchdog_panicked s; maintenance_panicked := maintenance_panicked s; joined := joined s |}.
Definition set_conns (n q : nat) (s : State) : State :=
  {| pc := pc s; conns := n; wd_stop := wd_stop s; wd := wd s; mt_stop := mt_stop s; mt := mt s; own := own s;
     ingest := q; pending := pending s; buffered := buffered s; closing := closing s; bt := bt s; commands := commands s; wr := wr s;
     watchdog_panicked := watchdog_panicked s; maintenance_panicked := maintenance_panicked s; joined := joined s |}.
Definition set_wd (c : StopChannel) (w : Worker) (p : bool) (s : State) : State :=
  {| pc := pc s; conns := conns s; wd_stop := c; wd := w; mt_stop := mt_stop s; mt := mt s; own := own s;
     ingest := ingest s; pending := pending s; buffered := buffered s; closing := closing s; bt := bt s; commands := commands s; wr := wr s;
     watchdog_panicked := p; maintenance_panicked := maintenance_panicked s; joined := joined s |}.
Definition set_mt (c : StopChannel) (w : Worker) (q : nat) (p : bool) (s : State) : State :=
  {| pc := pc s; conns := conns s; wd_stop := wd_stop s; wd := wd s; mt_stop := c; mt := w; own := own s;
     ingest := ingest s; pending := pending s; buffered := buffered s; closing := closing s; bt := bt s; commands := q; wr := wr s;
     watchdog_panicked := watchdog_panicked s; maintenance_panicked := p; joined := joined s |}.
Definition set_batcher (q p : nat) (f c : bool) (b : option bool) (cmds : nat) (s : State) : State :=
  {| pc := pc s; conns := conns s; wd_stop := wd_stop s; wd := wd s; mt_stop := mt_stop s; mt := mt s; own := own s;
     ingest := q; pending := p; buffered := f; closing := c; bt := b; commands := cmds; wr := wr s;
     watchdog_panicked := watchdog_panicked s; maintenance_panicked := maintenance_panicked s; joined := joined s |}.
Definition set_writer (q : nat) (r : option (Shutdown.Exit (result StorageError unit))) (s : State) : State :=
  {| pc := pc s; conns := conns s; wd_stop := wd_stop s; wd := wd s; mt_stop := mt_stop s; mt := mt s; own := own s;
     ingest := ingest s; pending := pending s; buffered := buffered s; closing := closing s; bt := bt s; commands := q; wr := r;
     watchdog_panicked := watchdog_panicked s; maintenance_panicked := maintenance_panicked s; joined := joined s |}.
Definition set_storage (o : bool) (r : option (result StorageError unit)) (s : State) : State :=
  {| pc := pc s; conns := conns s; wd_stop := wd_stop s; wd := wd s; mt_stop := mt_stop s; mt := mt s; own := o;
     ingest := ingest s; pending := pending s; buffered := buffered s; closing := closing s; bt := bt s; commands := commands s; wr := wr s;
     watchdog_panicked := watchdog_panicked s; maintenance_panicked := maintenance_panicked s; joined := r |}.

Inductive Event :=
| Main                        (** the next statement of [main], or the end of its wait *)
| JoinTimeout                 (** the budget of [join_timeout] is spent *)
| WdCycle (halts : bool)      (** head of the loop: a cycle, which may end the loop with a halt *)
| WdTimer | WdWake | WdPanic
| MtCycle (sent : nat) (timer : bool)  (** head of the loop: a tick that enqueues, and whether a deadline follows *)
| MtTimer | MtWake | MtPanic
| BtTake (emitted : nat) (rest : bool)  (** a chunk fills batches; whether records are left over *)
| BtFlush (flushed : nat)     (** the age deadline of the buffers *)
| BtClose (flushed : nat)     (** the ingest queue is closed and empty: the last flush *)
| BtSend | BtExit | BtPanic
| WrTake | WrExit | WrFail (e : StorageError) | WrPanic
| Chunk | Close.              (** a surviving connection enqueues, or ends *)

Definition gone (w : Worker) : bool := match w with Gone _ => true | _ => false end.
Definition is_gone {A} (o : option A) : bool := match o with Some _ => true | None => false end.

Section teardown.
Context (capacity : nat) (shutdown_timeout : Duration).

(** No sender of the command queue is left. *)
Definition commands_closed (s : State) : bool := negb (own s) && gone (mt s) && is_gone (bt s).

Definition main_step (s : State) : option State :=
  match pc s with
  | StopWatchdog =>
      Some (set_pc JoinWatchdog (set_wd (stop (wd_stop s)) (wd s) (watchdog_panicked s) s))
  | JoinWatchdog =>
      match wd s with
      | Gone p => Some (set_pc StopMaintenance (set_wd (wd_stop s) (wd s) p s))
      | _ => None
      end
  | StopMaintenance =>
      Some (set_pc JoinMaintenance
              (set_mt (stop (mt_stop s)) (mt s) (commands s) (maintenance_panicked s) s))
  | JoinMaintenance =>
      match mt s with
      | Gone p => Some (set_pc ReleaseCommands (set_mt (mt_stop s) (mt s) (commands s) p s))
      | _ => None
      end
  | ReleaseCommands => Some (set_pc AwaitBatcher (set_storage false (joined s) s))
  | AwaitBatcher =>
      match bt s with
      | Some true => Some (set_pc Finished (set_storage (own s) (Some (Err BatcherPanicked)) s))
      | Some false => Some (set_pc AwaitWriter s)
      | None => None
      end
  | AwaitWriter =>
      match wr s with
      | Some (Shutdown.Exited r) => Some (set_pc Finished (set_storage (own s) (Some r) s))
      | Some Shutdown.Panicked => Some (set_pc Finished (set_storage (own s) (Some (Err WriterPanicked)) s))
      | None => None
      end
  | Finished => None
  end.

Definition timed_out : result StorageError unit := Err (ShutdownTimeout (shutdown_timeout / NANOS_PER_SEC)%N).

Definition exec (s : State) (ev : Event) : option State :=
  match ev with
  | Main => main_step s
  | JoinTimeout =>
      match pc s with
      | AwaitBatcher | AwaitWriter => Some (set_pc Finished (set_storage (own s) (Some timed_out) s))
      | _ => None
      end
  | WdCycle halts =>
      match wd s with
      | Busy => Some (set_wd (wd_stop s) (if signalled (wd_stop s) || halts then Gone false else Asleep true)
                        (watchdog_panicked s) s)
      | _ => None
      end
  | WdTimer => match wd s with Asleep true => Some (set_wd (wd_stop s) Busy (watchdog_panicked s) s) | _ => None end
  | WdWake =>
      match wd s with
      | Asleep _ => if signalled (wd_stop s) then Some (set_wd (wd_stop s) (Gone false) (watchdog_panicked s) s) else None
      | _ => None
      end
  | WdPanic => if gone (wd s) then None else Some (set_wd (wd_stop s) (Gone true) (watchdog_panicked s) s)
  | MtCycle sent timer =>
      match mt s with
      | Busy =>
          if signalled (mt_stop s) then Some (set_mt (mt_stop s) (Gone false) (commands s) (maintenance_panicked s) s)
          else if is_gone (wr s) && (0 <? sent) then
            Some (set_mt (mt_stop s) (Gone false) (commands s) (maintenance_panicked s) s)
          else if commands s + sent <=? capacity then
            Some (set_mt (mt_stop s) (Asleep timer) (commands s + sent) (maintenance_panicked s) s)
          else None
      | _ => None
      end
  | MtTimer =>
      match mt s with Asleep true => Some (set_mt (mt_stop s) Busy (commands s) (maintenance_panicked s) s) | _ => None end
  | MtWake =>
      match mt s with
      | Asleep _ => if signalled (mt_stop s)
                  then Some (set_mt (mt_stop s) (Gone false) (commands s) (maintenance_panicked s) s) else None
      | _ => None
      end
  | MtPanic =>
      if gone (mt s) then None else Some (set_mt (mt_stop s) (Gone true) (commands s) (maintenance_panicked s) s)
  | BtTake emitted rest =>
      match bt s, closing s, pending s, ingest s with
      | None, false, O, S n => Some (set_batcher n emitted rest false None (commands s) s)
      | _, _, _, _ => None
      end
  | BtFlush flushed =>
      match bt s, closing s, pending s, buffered s with
      | None, false, O, true => Some (set_batcher (ingest s) flushed false false None (commands s) s)
      | _, _, _, _ => None
      end
  | BtClose flushed =>
      match bt s, closing s, pending s, ingest s, conns s with
      | None, false, O, O, O => Some (set_batcher 0 flushed false true None (commands s) s)
      | _, _, _, _, _ => None
      end
  | BtSend =>
      match bt s, pending s with
      | None, S n =>
          if is_gone (wr s) then Some (set_batcher (ingest s) n (buffered s) (closing s) (Some false) (commands s) s)
          else if commands s <? capacity then
            Some (set_batcher (ingest s) n (buffered s) (closing s) None (S (commands s)) s)
          else None
      | _, _ => None
      end
  | BtExit =>
      match bt s, closing s, pending s with
      | None, true, O => Some (set_batcher (ingest s) 0 (buffered s) true (Some false) (commands s) s)
      | _, _, _ => None
      end
  | BtPanic =>
      match bt s with
      | None => Some (set_batcher (ingest s) (pending s) (buffered s) (closing s) (Some true) (commands s) s)
      | Some _ => None
      end
  | WrTake =>
      match wr s, commands s with
      | None, S n => Some (set_writer n None s)
      | _, _ => None
      end
  | WrExit =>
      match wr s, commands s with
      | None, O => if commands_closed s then Some (set_writer 0 (Some (Shutdown.Exited (Ok tt))) s) else None
      | _, _ => None
      end
  | WrFail e =>
      match wr s with None => Some (set_writer (commands s) (Some (Shutdown.Exited (Err e))) s) | _ => None end
  | WrPanic => match wr s with None => Some (set_writer (commands s) (Some Shutdown.Panicked) s) | _ => None end
  | Chunk => match conns s with S _ => Some (set_conns (conns s) (S (ingest s)) s) | O => None end
  | Close => match conns s with S n => Some (set_conns n (ingest s) s) | O => None end
  end.

Fixpoint run (s : State) (es : list Event) : option State :=
  match es with
  | [] => Some s
  | e :: es' => match exec s e with Some s' => run s' es' | None => None end
  end.

(** What has become of a pipeline thread by the time the server is down. *)
Definition early_batcher (panicked : bool) : option bool := if panicked then Some true else None.
Definition early_writer (failure : option (option StorageError)) : option (Shutdown.Exit (result StorageError unit)) :=
  match failure with
  | None => None
  | Some None => Some Shutdown.Panicked
  | Some (Some e) => Some (Shutdown.Exited (Err e))
  end.

(** [main] when [serve_with_shutdown] has returned: [n] connections are left, the workers are at any
    point of their loops, the pipeline holds any work and may have failed. *)
Definition served (n : nat) (w m : Worker) (q p c : nat) (f : bool) (crashed : bool)
    (failure : option (option StorageError)) : State :=
  {| pc := StopWatchdog; conns := n; wd_stop := stop_channel; wd := w; mt_stop := stop_channel; mt := m; own := true;
     ingest := q; pending := p; buffered := f; closing := false; bt := early_batcher crashed; commands := c;
     wr := early_writer failure; watchdog_panicked := false; maintenance_panicked := false; joined := None |}.

(** The result of [main]: the first failure in this order. *)
Definition main_result (serve : result Serve.IngressError unit) (s : State) : result MainError unit :=
  match serve with
  | Err e => Err (ServeFailed e)
  | Ok _ =>
      if watchdog_panicked s then Err WatchdogPanicked
      else if maintenance_panicked s then Err MaintenancePanicked
      else match joined s with
           | Some (Err e) => Err (WriterFailed e)
           | _ => Ok tt
           end
  end.

(** ** Invariants of the teardown *)

Lemma run_preserves (P : State -> Prop) :
  (forall s ev s', P s -> exec s ev = Some s' -> P s') ->
  forall es s s', P s -> run s es = Some s' -> P s'.
Proof.
  intros Hstep es. induction es as [|e es IH]; intros s s' HP Hrun; [by simplify_eq/=|]. simpl in Hrun.
  destruct (exec s e) as [s1|] eqn:He; [|done]. eapply IH; [|exact Hrun]. by eapply Hstep.
Qed.

Ltac exec_cases He :=
  unfold exec, main_step in He; simpl in He;
  repeat match type of He with context [match ?x with _ => _ end] => destruct x eqn:? end; simplify_eq/=.

Definition stage (p : Pc) : nat :=
  match p with
  | StopWatchdog => 0 | JoinWatchdog => 1 | StopMaintenance => 2 | JoinMaintenance => 3
  | ReleaseCommands => 4 | AwaitBatcher => 5 | AwaitWriter => 6 | Finished => 7
  end.

(** What each statement of [main] has released and joined. *)
Record stage_inv (s : State) : Prop := {
  st_wd_stop : 1 <= stage (pc s) -> sender (wd_stop s) = false;
  st_wd : 2 <= stage (pc s) -> wd s = Gone (watchdog_panicked s);
  st_mt_stop : 3 <= stage (pc s) -> sender (mt_stop s) = false;
  st_mt : 4 <= stage (pc s) -> mt s = Gone (maintenance_panicked s);
  st_own : 5 <= stage (pc s) -> own s = false;
  st_bt : stage (pc s) = 6 -> bt s = Some false;
  st_joined : joined s <> None <-> pc s = Finished;
}.

Lemma stage_inv_step s ev s' : stage_inv s -> exec s ev = Some s' -> stage_inv s'.
Proof.
  intros [H1 H2 H3 H4 H5 H6 H7] He.
  assert (forall c, sender (stop c) = false) as Hrel by done.
  destruct ev; exec_cases He; constructor; simpl; intros;
    repeat match goal with H : pc s = _ |- _ => rewrite H in *; simpl in * end; try done; try lia; try solve [auto with lia];
    first [rewrite H7; split; congruence|specialize (H6 ltac:(lia)); congruence|specialize (H2 ltac:(lia)); congruence|specialize (H4 ltac:(lia)); congruence
          |specialize (H2 ltac:(lia)); rewrite H2 in *; done|specialize (H4 ltac:(lia)); rewrite H4 in *; done
          |simpl in *; lia].
Qed.

(** What an exit of a pipeline thread says about the queues. *)
Record drain_inv (s : State) : Prop := {
  dr_closing : closing s = true -> conns s = 0 /\ ingest s = 0 /\ buffered s = false;
  dr_bt : bt s = Some false -> is_gone (wr s) = false \/ wr s = Some (Shutdown.Exited (Ok tt)) ->
          closing s = true /\ pending s = 0;
  dr_wr : wr s = Some (Shutdown.Exited (Ok tt)) -> commands s = 0 /\ gone (mt s) = true /\ is_gone (bt s) = true;
  dr_joined : joined s = Some (Ok tt) -> bt s = Some false /\ wr s = Some (Shutdown.Exited (Ok tt));
}.

Lemma drain_inv_step s ev s' : stage_inv s -> drain_inv s -> exec s ev = Some s' -> drain_inv s'.
Proof.
  intros [_ _ _ _ _ Hbt Hj] [H1 H2 H3 H4] He.
  destruct ev; exec_cases He; constructor; simpl; intros;
    repeat match goal with H : _ s = _ |- _ => rewrite H in *; simpl in * end; try done; try tauto;
    try (intuition congruence).
  - simplify_eq. auto.
  - unfold commands_closed in *. bool_to_prop. auto.
Qed.

Lemma served_inv n w m q p c f crashed failure :
  stage_inv (served n w m q p c f crashed failure) /\ drain_inv (served n w m q p c f crashed failure).
Proof. split; constructor; simpl; try lia; destruct crashed; destruct failure as [[]|]; simpl; naive_solver. Qed.

Lemma teardown_inv n w m q p c f crashed failure es s :
  run (served n w m q p c f crashed failure) es = Some s -> stage_inv s /\ drain_inv s.
Proof.
  apply (run_preserves (fun s => stage_inv s /\ drain_inv s)); [|apply served_inv].
  intros s1 ev s2 [Hs Hd] He. split; [by eapply stage_inv_step|by eapply drain_inv_step].
Qed.

(** ** The measure

    While [main] waits for a worker, only that worker's steps matter; once both
    are gone, every step of the pipeline counts: chunks left to take, records
    left to flush, batches left to send, commands left to execute. *)

Definition worker_rank (w : Worker) : nat := match w with Asleep _ => 2 | Busy => 1 | Gone _ => 0 end.

(** The rest of the measure once both workers are gone. *)
Definition backlog (s : State) : nat * (nat * (nat * nat)) :=
  (ingest s + (if closing s then 0 else 1),
   (if buffered s then 1 else 0,
    (pending s, commands s + (if is_gone (bt s) then 0 else 1) + (if is_gone (wr s) then 0 else 1)))).

Definition level (s : State) : nat * (nat * (nat * (nat * nat))) :=
  (7 - stage (pc s),
   match pc s with
   | JoinWatchdog => (worker_rank (wd s), (0, (0, 0)))
   | JoinMaintenance => (worker_rank (mt s), (0, (0, 0)))
   | AwaitBatcher | AwaitWriter => backlog s
   | _ => (0, (0, (0, 0)))
   end).

Definition lex {A} (R : relation A) : relation (nat * A) :=
  fun x y => x.1 < y.1 \/ x.1 = y.1 /\ R x.2 y.2.

Definition lower : relation (nat * (nat * (nat * (nat * nat)))) := lex (lex (lex (lex lt))).

Lemma lex_wf {A} (R : relation A) : well_founded R -> well_founded (lex R).
Proof.
  intros HR [n a]. revert a. induction n as [n IHn] using lt_wf_ind. intros a.
  induction (HR a) as [a _ IHa]. constructor. intros [n' a'] [Hlt|[Heq Hr]]; simpl in *; [by apply IHn|]. subst n'. by apply IHa.
Qed.

Lemma lower_wf : well_founded lower.
Proof. repeat apply lex_wf. apply lt_wf. Qed.

(** The events [main]'s progress depends on. *)
Definition awaited (s : State) (ev : Event) : bool :=
  match ev with
  | Chunk | Close => false
  | Main | JoinTimeout => true
  | WdCycle _ | WdTimer | WdWake | WdPanic =>
      match pc s with JoinWatchdog => true | _ => false end
  | MtCycle _ _ | MtTimer | MtWake | MtPanic =>
      match pc s with JoinMaintenance => true | _ => false end
  | _ => match pc s with AwaitBatcher | AwaitWriter => true | _ => false end
  end.

(** Nothing fails and no budget runs out. *)
Definition regular (ev : Event) : bool :=
  match ev with JoinTimeout | WdPanic | MtPanic | BtPanic | WrPanic | WrFail _ => false | _ => true end.

Lemma signalled_released c : sender c = false -> signalled c = true.
Proof. unfold signalled. intros ->. apply orb_true_r. Qed.

Lemma lower_stage s s' : stage (pc s) < stage (pc s') -> lower (level s') (level s).
Proof. intros H. left. simpl. assert (stage (pc s') <= 7) by (destruct (pc s'); simpl; lia). lia. Qed.

Lemma main_lowers s ev s' : ev = Main \/ ev = JoinTimeout -> exec s ev = Some s' -> lower (level s') (level s).
Proof.
  intros Hev He. apply lower_stage. destruct Hev; subst ev; exec_cases He;
    repeat match goal with H : pc s = _ |- _ => rewrite H; clear H end; simpl; lia.
Qed.

(** A worker whose stop is signalled only gets closer to its end. *)
Lemma watchdog_step s ev s' :
  signalled (wd_stop s) = true -> exec s ev = Some s' ->
  match ev with WdCycle _ | WdTimer | WdWake | WdPanic => True | _ => False end ->
  pc s' = pc s /\ worker_rank (wd s') < worker_rank (wd s).
Proof.
  intros Hsig He Hev. destruct ev; try done; clear Hev; exec_cases He; simpl; try (split; [done|lia]).
  - by rewrite Hsig in *.
  - split; [done|]. destruct (wd s); [simpl; lia..|done].
Qed.

Lemma maintenance_step s ev s' :
  signalled (mt_stop s) = true -> exec s ev = Some s' ->
  match ev with MtCycle _ _ | MtTimer | MtWake | MtPanic => True | _ => False end ->
  pc s' = pc s /\ worker_rank (mt s') < worker_rank (mt s).
Proof.
  intros Hsig He Hev. destruct ev; try done; clear Hev; exec_cases He; simpl; try (split; [done|lia]).
  split; [done|]. destruct (mt s); [simpl; lia..|done].
Qed.

Lemma pipeline_step s ev s' :
  exec s ev = Some s' ->
  match ev with
  | BtTake _ _ | BtFlush _ | BtClose _ | BtSend | BtExit | BtPanic | WrTake | WrExit | WrFail _ | WrPanic => True
  | _ => False
  end ->
  pc s' = pc s /\ lex (lex (lex lt)) (backlog s') (backlog s).
Proof.
  intros He Hev. destruct ev; try done; clear Hev; exec_cases He; (split; [done|]); unfold backlog, lex; simpl;
    repeat match goal with H : _ s = _ |- _ => rewrite H; clear H end; simpl; try lia.
Qed.

Lemma awaited_lowers s ev s' :
  stage_inv s -> exec s ev = Some s' -> awaited s ev = true -> lower (level s') (level s).
Proof.
  intros [H1 _ H3 _ _ _ _] He Ha.
  assert (ev = Main \/ ev = JoinTimeout \/ (ev <> Main /\ ev <> JoinTimeout)) as [?|[?|[Hm Hj]]]
    by (destruct ev; naive_solver).
  1, 2: apply (main_lowers s ev s'); auto.
  unfold level. destruct (pc s) eqn:Hpc; try by destruct ev; simpl in Ha; rewrite ?Hpc in Ha.
  - destruct (watchdog_step s ev s') as [-> Hlt]; [by apply signalled_released, H1; simpl|done| |].
    { destruct ev; simpl in Ha; rewrite ?Hpc in Ha; done. }
    rewrite Hpc. right. split; [done|]. by left.
  - destruct (maintenance_step s ev s') as [-> Hlt]; [by apply signalled_released, H3; simpl; lia|done| |].
    { destruct ev; simpl in Ha; rewrite ?Hpc in Ha; done. }
    rewrite Hpc. right. split; [done|]. by left.
  - destruct (pipeline_step s ev s') as [-> Hlt]; [done| |].
    { destruct ev; simpl in Ha; rewrite ?Hpc in Ha; done. }
    rewrite Hpc. right. split; [done|]. exact Hlt.
  - destruct (pipeline_step s ev s') as [-> Hlt]; [done| |].
    { destruct ev; simpl in Ha; rewrite ?Hpc in Ha; done. }
    rewrite Hpc. right. split; [done|]. exact Hlt.
Qed.

(** What the steps of one thread leave alone. *)
Lemma frame s ev s' :
  exec s ev = Some s' ->
  match ev with
  | Main | JoinTimeout => True
  | WdCycle _ | WdTimer | WdWake | WdPanic => pc s' = pc s /\ mt s' = mt s /\ backlog s' = backlog s
  | MtCycle _ _ | MtTimer | MtWake | MtPanic => pc s' = pc s /\ wd s' = wd s /\ gone (mt s) = false
  | Chunk | Close => conns s <> 0
  | _ => pc s' = pc s /\ wd s' = wd s /\ mt s' = mt s
  end.
Proof.
  intros He. destruct ev; try exact I; exec_cases He; try (split_and!; reflexivity); try congruence.
  all: split_and!; congruence.
Qed.

Lemma others_keep s ev s' :
  stage_inv s -> conns s = 0 -> exec s ev = Some s' -> awaited s ev = false -> level s' = level s.
Proof.
  intros [_ _ _ H4 _ _ _] Hc He Ha. apply frame in He.
  assert (gone (mt s) = false -> stage (pc s) < 4) as Hmt.
  { intros Hg. destruct (decide (4 <= stage (pc s))) as [Hs|]; [|lia]. by rewrite (H4 Hs) in Hg. }
  unfold level. destruct ev; simpl in Ha; try done; destruct He as (-> & E1 & E2); try apply Hmt in E2;
    destruct (pc s); simpl in *; try done; try lia; by rewrite ?E1, ?E2.
Qed.

Lemma connections_stay_closed s ev s' : conns s = 0 -> exec s ev = Some s' -> conns s' = 0.
Proof. intros Hc He. destruct ev; exec_cases He; congruence. Qed.

(** Unless [main] is done, somebody it waits for can move, without a failure or a timeout. *)
Lemma teardown_progress s :
  stage_inv s -> conns s = 0 -> 0 < capacity -> pc s <> Finished ->
  exists ev s', regular ev = true /\ awaited s ev = true /\ exec s ev = Some s'.
Proof.
  intros [H1 _ H3 H4 H5 H6 _] Hc Hcap Hf.
  assert (forall s', main_step s = Some s' ->
    exists ev s', regular ev = true /\ awaited s ev = true /\ exec s ev = Some s') as Hmain by (intros s' ?; by exists Main, s').
  unfold main_step in Hmain. destruct (pc s) eqn:Hpc; [by eauto| |by eauto| |by eauto| | |done].
  - destruct (wd s) eqn:Hw; [| |by eauto].
    + exists (WdCycle true). simpl. rewrite Hpc, Hw. by eexists.
    + exists WdWake. simpl. rewrite Hpc, Hw, (signalled_released _ (H1 ltac:(simpl; lia))). by eexists.
  - pose proof (signalled_released _ (H3 ltac:(simpl; lia))) as Hsig. destruct (mt s) eqn:Hm; [| |by eauto].
    + exists (MtCycle 0 true). simpl. rewrite Hpc, Hm, Hsig. by eexists.
    + exists MtWake. simpl. rewrite Hpc, Hm, Hsig. by eexists.
  - destruct (bt s) as [[]|] eqn:Hb; [by eauto..|]. destruct (pending s) as [|n] eqn:Hp.
    + destruct (closing s) eqn:Hcl; [exists BtExit; simpl; rewrite Hpc, Hb, Hcl, Hp; by eexists|].
      destruct (ingest s) as [|n] eqn:Hi.
      * exists (BtClose 0). simpl. rewrite Hpc, Hb, Hcl, Hp, Hi, Hc. by eexists.
      * exists (BtTake 0 true). simpl. rewrite Hpc, Hb, Hcl, Hp, Hi. by eexists.
    + destruct (wr s) as [r|] eqn:Hw; [exists BtSend; simpl; rewrite Hpc, Hb, Hp, Hw; by eexists|].
      destruct (Nat.ltb_spec (commands s) capacity) as [Hlt|Hge].
      * exists BtSend. simpl. rewrite Hpc, Hb, Hp, Hw. simpl. rewrite (proj2 (Nat.ltb_lt _ _) Hlt). by eexists.
      * exists WrTake. simpl. rewrite Hpc, Hw. destruct (commands s); [lia|]. by eexists.
  - destruct (wr s) as [[]|] eqn:Hw; [by eauto..|]. destruct (commands s) as [|n] eqn:Hq.
    + exists WrExit. simpl. rewrite Hpc, Hw, Hq. unfold commands_closed.
      rewrite (H4 ltac:(simpl; lia)), (H5 ltac:(simpl; lia)), (H6 eq_refl). by eexists.
    + exists WrTake. simpl. rewrite Hpc, Hw, Hq. by eexists.
Qed.

(** C6: The teardown never hangs on itself.  From every state it reaches once the connections are
    gone, whatever the components were doing and whichever of them failed: unless [main] has
    finished, a step it waits for is enabled, and it needs neither a failure nor the join
    budget; each such step lowers a well-founded measure that no other step raises.  So the
    order of the statements releases every thread that [main] joins. *)
Theorem teardown_completes n w m q p c f crashed failure es s :
  0 < capacity -> run (served n w m q p c f crashed failure) es = Some s -> conns s = 0 ->
  well_founded lower /\
  (pc s <> Finished -> exists ev s', regular ev = true /\ awaited s ev = true /\ exec s ev = Some s') /\
  forall ev s', exec s ev = Some s' ->
    conns s' = 0 /\ if awaited s ev then lower (level s') (level s) else level s' = level s.
Proof.
  intros Hcap Hrun Hc. apply teardown_inv in Hrun as [Hs _].
  split; [exact lower_wf|]. split; [by apply teardown_progress|]. intros ev s' He.
  split; [by eapply connections_stay_closed|].
  destruct (awaited s ev) eqn:Ha; [by eapply awaited_lowers|by eapply others_keep].
Qed.

Lemma main_result_ok serve s :
  main_result serve s = Ok tt <->
  serve = Ok tt /\ watchdog_panicked s = false /\ maintenance_panicked s = false /\
  (joined s = None \/ joined s = Some (Ok tt)).
Proof.
  unfold main_result. destruct serve as [[]|], (watchdog_panicked s), (maintenance_panicked s);
    try (split; [congruence|intros (? & ? & ? & _); congruence]).
  destruct (joined s) as [[[]|]|]; split; intros H; try congruence; try tauto. destruct H as (_ & _ & _ & [?|?]); congruence.
Qed.

(** C7: The exit status of the server is truthful.  [main] returns without an error exactly when the
    server, the watchdog, the maintenance worker and the storage pipeline all ended well, and
    then no connection is left and nothing is left anywhere in the pipeline: no queued chunk,
    no buffered record, no unsent batch, no queued command. *)
Theorem clean_exit_drained n w m q p c f crashed failure es s serve :
  run (served n w m q p c f crashed failure) es = Some s -> pc s = Finished ->
  (main_result serve s = Ok tt <->
   serve = Ok tt /\ wd s = Gone false /\ mt s = Gone false /\ joined s = Some (Ok tt)) /\
  (main_result serve s = Ok tt ->
   conns s = 0 /\ ingest s = 0 /\ buffered s = false /\ pending s = 0 /\ commands s = 0).
Proof.
  intros Hrun Hpc. apply teardown_inv in Hrun as [[_ Hwd _ Hmt _ _ Hj] [Hc Hb Hw Hd]].
  rewrite Hpc in *. rewrite (Hwd ltac:(simpl; lia)), (Hmt ltac:(simpl; lia)).
  assert (joined s <> None) as Hne by (by apply Hj).
  assert (main_result serve s = Ok tt -> joined s = Some (Ok tt)) as Hjoined.
  { intros Hok. apply main_result_ok in Hok as (_ & _ & _ & [?|?]); congruence. }
  split.
  { split; intros Hok.
    - pose proof (Hjoined Hok). apply main_result_ok in Hok as (-> & -> & -> & _). done.
    - apply main_result_ok. destruct Hok as (-> & [= ->] & [= ->] & ?). auto. }
  intros Hjo. apply Hjoined in Hjo.
  destruct (Hd Hjo) as [Hbt Hwr]. destruct (Hb Hbt ltac:(by right)) as [Hcl Hp]. destruct (Hc Hcl) as (? & ? & ?).
  destruct (Hw Hwr) as (? & _). done.
Qed.

End teardown.

(** ** Preflight and start *)

Section preflight.
Context (read : string -> option string) (derive : Serve.TlsIdentity -> bool).
Context {Schema : Type} (env : @CheckCommand.CheckEnv Schema).

(** The preflight parses TLS material like the server does. *)
Definition same_tls : Prop :=
  forall t, CheckCommand.ce_tls_ok env t = is_ok (Serve.validate_tls_material read derive t).

Lemma prepare_ok c now spawned a :
  Config.socket_addr (Config.ingress_config c) = Ok a -> same_tls -> now = CheckCommand.ce_now env ->
  (exists srv, Serve.prepare read derive (CheckCommand.ce_sha env) (CheckCommand.ce_token_file env)
                 (Config.ingress_config c) now spawned = Ok srv) <->
  (forall t, Config.tls c = Some t -> CheckCommand.ce_tls_ok env t = true) /\
  (forall x, Config.auth c = Some x -> exists vault,
     Auth.open (CheckCommand.ce_sha env) (CheckCommand.ce_token_file env (Config.token_file x)) (CheckCommand.ce_now env) = Ok vault).
Proof.
  intros Ha Hsame ->. unfold Serve.prepare, same_tls, Serve.validate_tls_material, Auth.BearerInterceptor_new in *.
  rewrite Ha. simpl. split.
  - intros [srv H]. split.
    + intros t Ht. rewrite Hsame. rewrite Ht in H.
      destruct (Serve.server_tls_config read t) as [id|]; [|done]. destruct (Serve.tls_config derive id); [done|].
      by repeat case_match.
    + intros x Hx. rewrite Hx in H. simpl in H. destruct (Auth.open _ _ _) as [v|]; [by exists v|].
      by repeat case_match.
  - intros [Ht Hx]. destruct (Config.auth c) as [x|]; simpl; [destruct (Hx x eq_refl) as [v ->]|];
      (destruct (Config.tls c) as [t|]; [|by eexists]); specialize (Ht t eq_refl); rewrite Hsame in Ht;
      (destruct (Serve.server_tls_config read t) as [id|]; [|done]); (destruct (Serve.tls_config derive id); [|done]); by eexists.
Qed.

(** [main] up to serving, for a sound configuration. *)
Lemma boot_ok {Conn} (benv : @BootEnv Conn) fs c :
  Config.config_ok fs c -> be_config benv = Ok c ->
  is_Some (mjoin (Dump.dump_json (be_to_string_pretty benv) c)) ->
  (forall a, be_exporter_ok benv a = true) ->
  be_writer_ready benv = Pipeline.ReadyOk -> be_batcher_ready benv = Pipeline.ReadyOk ->
  exists w s, boot benv = Some (Ok (c, w, s)).
Proof.
  intros Hok Hc Hd He Hw Hb. unfold boot. rewrite Hc.
  destruct (Dump.dump_json _ c) as [[text|]|]; [|by destruct Hd..]. cbn [mbind option_bind].
  assert (match Config.metrics_address c with
          | Some address => install_metrics_exporter benv address
          | None => Ok tt
          end = Ok tt) as ->.
  { destruct (Config.metrics_address c) as [address|] eqn:Em; [|done].
    destruct (Config.ok_metrics _ _ Hok address Em) as (a & Ha & _). unfold install_metrics_exporter.
    by rewrite Ha, He. }
  rewrite Hw, Hb, (Config.config_ok_storage fs) by done.
  unfold Watchdog.Watchdog_new. rewrite (Config.config_ok_watchdog fs c Hok). by do 2 eexists.
Qed.

(** C26: The preflight predicts the start.  For a configuration that loads, the credentials pass
    [check] exactly when the ingress server accepts them, and a start with it does not panic on the way
    to serving; and when the check passes, a start in
    the same environment gets as far as serving, with at least one export permit, unless a
    thread, the database or the metrics port fails at that moment. *)
Theorem preflight_predicts_start {Conn} (has_log_event : Schema -> bool) args c spawned (benv : @BootEnv Conn) :
  same_tls -> CheckCommand.load_config env args = Ok c ->
  let start := Serve.prepare read derive (CheckCommand.ce_sha env) (CheckCommand.ce_token_file env)
                 (Config.ingress_config c) (CheckCommand.ce_now env) spawned in
  ((CheckCommand.check_tls env c).2 = [] /\ (CheckCommand.check_auth env c).2 = [] <-> exists srv, start = Ok srv) /\
  (be_config benv = Ok c -> is_Some (boot benv)) /\
  (CheckCommand.clean has_log_event env c ->
   be_config benv = Ok c -> be_to_string_pretty benv = CheckCommand.ce_to_string_pretty env -> (forall a, be_exporter_ok benv a = true) ->
   be_writer_ready benv = Pipeline.ReadyOk -> be_batcher_ready benv = Pipeline.ReadyOk ->
   (exists w s, boot benv = Some (Ok (c, w, s))) /\
   exists srv, start = Ok srv /\ Net.port (Serve.addr srv) <> 0%N /\ (1 <= Serve.stream_limit srv)%N).
Proof.
  intros Hsame Hload start. apply CheckCommand.load_config_ok in Hload as Hok.
  destruct (Config.ok_listen _ _ Hok) as (a & Ha & Hport & _).
  assert (Config.socket_addr (Config.ingress_config c) = Ok a) as Hsock by (unfold Config.socket_addr; simpl; by rewrite Ha).
  pose proof (prepare_ok c (CheckCommand.ce_now env) spawned a Hsock Hsame eq_refl) as Hprep. fold start in Hprep.
  rewrite CheckCommand.check_tls_clean, CheckCommand.check_auth_clean. split; [by rewrite Hprep|].
  split.
  { intros Hc. unfold boot, Dump.dump_json. rewrite Hc.
    destruct (Dump.effective_config_total _ _ Hok) as [v ->]. by eexists. }
  intros (Hdump & Htls & Hauth & _) Hc Hd He Hw Hb. split; [eapply boot_ok; [done..|by rewrite Hd|done|done|done]|].
  destruct (proj2 Hprep (conj Htls Hauth)) as [srv Hsrv]. exists srv. split; [done|].
  unfold start, Serve.prepare in Hsrv. rewrite Hsock in Hsrv. repeat case_match; simplify_eq; simpl; split; try done; lia.
Qed.

End preflight.

(** ** A teardown with a backlog *)

Definition demo_served : State := served 1 (Asleep true) Busy 1 0 1 true false None.

(** A connection outlives the drain for a while; the batcher blocks on a full queue; everybody stops. *)
Definition demo_teardown : list Event :=
  [Main; Close; WdWake; Main; MtCycle 0 true; MtTimer; Main; MtCycle 0 true; Main; Main; BtTake 2 true; WrTake; BtSend;
   WrTake; BtSend; BtClose 1; WrTake; BtSend; BtExit; Main; WrTake; WrExit; Main].

Definition demo_final : State := default demo_served (run 1 (from_secs 30) demo_served demo_teardown).
Definition demo_half : State := default demo_served (run 1 (from_secs 30) demo_served (take 13 demo_teardown)).

Lemma teardown_completes_witness :
  run 1 (from_secs 30) demo_served (take 13 demo_teardown) = Some demo_half /\
  exists ev s', regular ev = true /\ awaited demo_half ev = true /\ exec 1 (from_secs 30) demo_half ev = Some s'.
Proof.
  assert (run 1 (from_secs 30) demo_served (take 13 demo_teardown) = Some demo_half) as Hrun by (vm_compute; reflexivity).
  destruct (teardown_completes 1 (from_secs 30) _ _ _ _ _ _ _ _ _ _ _ (le_n 1) Hrun eq_refl) as (_ & Hp & _).
  split; [exact Hrun|]. apply Hp. vm_compute. discriminate.
Defined.

Lemma clean_exit_drained_witness :
  run 1 (from_secs 30) demo_served demo_teardown = Some demo_final /\ main_result (Ok tt) demo_final = Ok tt /\
  commands demo_final = 0 /\ pending demo_final = 0.
Proof.
  assert (run 1 (from_secs 30) demo_served demo_teardown = Some demo_final) as Hrun by (vm_compute; reflexivity).
  destruct (clean_exit_drained 1 (from_secs 30) _ _ _ _ _ _ _ _ _ _ _ (Ok tt) Hrun eq_refl) as [_ H].
  assert (main_result (Ok tt) demo_final = Ok tt) as Hok by (vm_compute; reflexivity).
  destruct (H Hok) as (_ & _ & _ & ? & ?). auto.
Defined.

Definition demo_args : CheckCommand.CheckArgs :=
  {| CheckCommand.ca_config := None; CheckCommand.ca_json := false; CheckCommand.ca_help := false |}.

Definition demo_read (path : string) : option string := Some "PEM".
Definition demo_derive (i : Serve.TlsIdentity) : bool := true.

Lemma demo_same_tls : same_tls demo_read demo_derive CheckCommand.demo_check_env.
Proof. intros [ct k [ca|]]; reflexivity. Qed.

Definition demo_boot (c : Config.Config) : @BootEnv unit :=
  {| be_config := Ok c; be_to_string_pretty := CheckCommand.ce_to_string_pretty (CheckCommand.demo_check_env); be_exporter_ok := fun _ => true; be_writer_ready := Pipeline.ReadyOk;
     be_batcher_ready := Pipeline.ReadyOk; be_conn := tt; be_now := 0%N |}.

Lemma preflight_predicts_start_witness :
  exists c, CheckCommand.load_config CheckCommand.demo_check_env demo_args = Ok c /\
    (exists w s, boot (demo_boot c) = Some (Ok (c, w, s))) /\
    exists srv, Serve.prepare demo_read demo_derive Auth.demo_sha (fun _ => Auth.demo_file)
                  (Config.ingress_config c) 0%N true = Ok srv.
Proof.
  destruct (CheckCommand.load_config CheckCommand.demo_check_env demo_args) as [c|e] eqn:Hload;
    [|vm_compute in Hload; discriminate]. exists c. split; [reflexivity|].
  assert (CheckCommand.clean CheckCommand.log_event_created CheckCommand.demo_check_env c) as Hclean.
  { destruct (CheckCommand.run_spec CheckCommand.log_event_created CheckCommand.demo_check_env demo_args) as (r & Hr & Hok).
    destruct (proj1 Hok) as (c' & Hc & Hclean); [vm_compute in Hr; injection Hr as <-; reflexivity|].
    rewrite Hload in Hc. injection Hc as ->. exact Hclean. }
  destruct (preflight_predicts_start demo_read demo_derive CheckCommand.demo_check_env CheckCommand.log_event_created
    demo_args c true (demo_boot c) demo_same_tls Hload) as (_ & _ & H).
  destruct H as (Hboot & srv & Hsrv & _); [exact Hclean|reflexivity..|]. split; [exact Hboot|]. exists srv. exact Hsrv.
Defined.

End Lifecycle.
