(* ===== verification/Permissions.v ===== *)
(** * File permissions and opening the database
    ([crates/otel-sqlite-storage/src/permissions.rs], [sqlite.rs] and the start
    of [run_inner] in [writer.rs])

    The Unix side of the permission helpers over a map of paths to files with
    mode bits, and the bootstrap of a connection: which pragmas are issued, in
    which order, and which of them may fail.  What the engine does is an input:
    which files it creates when it opens a name (none for [:memory:]), when it
    configures the connection and when it first writes, and the journal mode it
    answers, which the code only logs.  The rest is what SQLite documents: the
    vacuum mode of a database is fixed when its header is first written, which
    the switch to WAL does. *)

From S2P Require Import Prelude Time Model Text Paths Command Sqlite.

Module Permissions.
Import Time Sqlite.

Local Open Scope string_scope.
Local Open Scope list_scope.
Local Open Scope N_scope.

(** ** Files with modes *)

Record Node := { content : string; mode : N }.

Definition OWNER_ONLY : N := 384.  (** [0o600] *)
Definition OWNER_DIR : N := 448.   (** [0o700] *)

Inductive IoKind := NotFound | Denied.

Inductive Notice :=
| NotRestricted (path : string)       (** the file, or a sidecar, keeps its mode *)
| DirNotRestricted (path : string)
| DirAccessible (path : string) (m : N)
| ReadableBeyondOwner (path label : string) (m : N).

Section host.
(** Whether the process may change the mode of a path. *)
Context (may_chmod : string -> bool).

Definition set_permissions (path : string) (m : N) (fs : gmap string Node) : gmap string Node * result IoKind unit :=
  match fs !! path with
  | None => (fs, Err NotFound)
  | Some node =>
      if may_chmod path then (<[path := {| content := content node; mode := m |}]> fs, Ok tt)
      else (fs, Err Denied)
  end.

Definition restrict_permissions (path : string) (fs : gmap string Node) : gmap string Node * result IoKind unit :=
  set_permissions path OWNER_ONLY fs.

Definition SIDECAR_SUFFIXES : list string := ["-wal"; "-shm"; "-journal"].

(** A sidecar that does not exist yet is passed over in silence. *)
Definition harden_sidecar (db_path : string) (acc : gmap string Node * list Notice) (suffix : string) : gmap string Node * list Notice :=
  let path := String.append db_path suffix in
  match restrict_permissions path acc.1 with
  | (fs, Ok _) => (fs, acc.2)
  | (fs, Err NotFound) => (fs, acc.2)
  | (fs, Err Denied) => (fs, acc.2 ++ [NotRestricted path])
  end.

Definition harden_database_files (db_path : string) (fs : gmap string Node) : gmap string Node * list Notice :=
  let (fs, r) := restrict_permissions db_path fs in
  let ns := match r with Ok _ => [] | Err _ => [NotRestricted db_path] end in
  foldl (harden_sidecar db_path) (fs, ns) SIDECAR_SUFFIXES.

Definition harden_database_dir (dir : string) (created : bool) (fs : gmap string Node) : gmap string Node * list Notice :=
  if created then
    match set_permissions dir OWNER_DIR fs with
    | (fs, Ok _) => (fs, [])
    | (fs, Err _) => (fs, [DirNotRestricted dir])
    end
  else
    match fs !! dir with
    | Some node => (fs, if N.land (mode node) 63 =? 0 then [] else [DirAccessible dir (mode node)])
    | None => (fs, [])
    end.

Definition warn_if_world_readable (path label : string) (fs : gmap string Node) : list Notice :=
  match fs !! path with
  | Some node => if N.land (mode node) 36 =? 0 then [] else [ReadableBeyondOwner path label (mode node)]
  | None => []
  end.

(** ** A connection *)

Inductive AutoVacuum := NoVacuum | Incremental.

Record Conn := {
  header : option AutoVacuum;      (** of the file; [None] before the first write *)
  requested : AutoVacuum;          (** what the next header gets *)
  journal_mode : string;
  synchronous : option Command.SyncMode;
  foreign_keys : bool;
  busy_timeout : Duration;
  tuned : list (string * string);
}.

Inductive Statement :=
| SetAutoVacuum
| SetWal                           (** answered with the mode in force *)
| SetSynchronous (m : Command.SyncMode)
| SetForeignKeys
| SetBusyTimeout (d : Duration)
| Tune (pragma value : string).

Definition WAL : string := "wal".

(** [answer] is the engine's answer to the switch of the journal mode. *)
Definition run_statement (answer : string) (c : Conn) (s : Statement) : Conn :=
  match s with
  | SetAutoVacuum =>
      {| header := header c; requested := Incremental; journal_mode := journal_mode c; synchronous := synchronous c;
         foreign_keys := foreign_keys c; busy_timeout := busy_timeout c; tuned := tuned c |}
  | SetWal =>
      {| header := if String.eqb answer WAL then Some (default (requested c) (header c)) else header c;
         requested := requested c; journal_mode := answer;
         synchronous := synchronous c; foreign_keys := foreign_keys c; busy_timeout := busy_timeout c;
         tuned := tuned c |}
  | SetSynchronous m =>
      {| header := header c; requested := requested c; journal_mode := journal_mode c; synchronous := Some m;
         foreign_keys := foreign_keys c; busy_timeout := busy_timeout c; tuned := tuned c |}
  | SetForeignKeys =>
      {| header := header c; requested := requested c; journal_mode := journal_mode c; synchronous := synchronous c;
         foreign_keys := true; busy_timeout := busy_timeout c; tuned := tuned c |}
  | SetBusyTimeout d =>
      {| header := header c; requested := requested c; journal_mode := journal_mode c; synchronous := synchronous c;
         foreign_keys := foreign_keys c; busy_timeout := d; tuned := tuned c |}
  | Tune pragma value =>
      {| header := header c; requested := requested c; journal_mode := journal_mode c; synchronous := synchronous c;
         foreign_keys := foreign_keys c; busy_timeout := busy_timeout c; tuned := tuned c ++ [(pragma, value)] |}
  end.

(** [Connection::open]: nothing is set yet. *)
Definition connect (existing : option AutoVacuum) : Conn :=
  {| header := existing; requested := NoVacuum; journal_mode := ""; synchronous := None; foreign_keys := false;
     busy_timeout := 0; tuned := [] |}.

Definition REQUIRED (m : Command.SyncMode) : list Statement :=
  [SetWal; SetSynchronous m; SetForeignKeys; SetBusyTimeout (from_secs 5)].

Definition TUNING : list Statement :=
  [Tune "cache_size" "-64000"; Tune "temp_store" "MEMORY"; Tune "mmap_size" "268435456";
   Tune "journal_size_limit" "67108864"].

Section bootstrap.
(** The error of a statement that fails, and the journal mode the engine answers. *)
Context (fails : Statement -> option StorageError) (answer : string).

(** [if let Err(error) = .. { debug!(..) }]. *)
Definition best_effort (c : Conn) (s : Statement) : Conn :=
  match fails s with None => run_statement answer c s | Some _ => c end.

Fixpoint required (c : Conn) (l : list Statement) : result StorageError Conn :=
  match l with
  | [] => Ok c
  | s :: l' => match fails s with None => required (run_statement answer c s) l' | Some e => Err e end
  end.

Definition configure (m : Command.SyncMode) (c : Conn) : result StorageError Conn :=
  let? c := required (best_effort c SetAutoVacuum) (REQUIRED m) in
  Ok (foldl best_effort c TUNING).

Record OpenEnv := {
  oe_mkdir : option StorageError;          (** the failure of [create_dir_all] *)
  oe_connect : option StorageError;        (** the failure of [Connection::open] *)
  oe_umask_dir : N;                        (** the mode new directories get *)
  oe_opened : list (string * N);           (** files the engine creates when it opens the name, *)
  oe_configured : list (string * N);       (** while it is configured, *)
  oe_written : list (string * N);          (** and by migrating and the first checkpoint *)
  oe_existing : option AutoVacuum;         (** the header of a database that was there before *)
}.

(** A path that is created unless it exists. *)
Definition create (path : string) (m : N) (fs : gmap string Node) : gmap string Node :=
  match fs !! path with Some _ => fs | None => <[path := {| content := ""; mode := m |}]> fs end.

(** Files the engine creates, with their modes, unless they exist. *)
Definition engine_creates (files : list (string * N)) (fs : gmap string Node) : gmap string Node :=
  foldr (fun f => create f.1 f.2) fs files.

(** The directory of the database, unless its path names none. *)
Definition database_dir (path : string) : option string :=
  dir ← Paths.parent path; if Text.is_empty dir then None else Some dir.

(** [create_dir_all]: the directory and everything above it that is missing, outermost first. *)
Definition directories (dir : string) : list string :=
  List.filter (fun d => negb (Text.is_empty d)) (Paths.ancestors dir).

Definition create_dir_all (dir : string) (m : N) (fs : gmap string Node) : gmap string Node :=
  foldr (fun d => create d m) fs (directories dir).

(** [sqlite::open]: the files, the notices and the connection. *)
Definition open (env : OpenEnv) (path : string) (m : Command.SyncMode) (fs : gmap string Node)
    : gmap string Node * list Notice * result StorageError Conn :=
  let prepared :=
    match database_dir path with
    | None => Ok (fs, [])
    | Some dir =>
        let created := match fs !! dir with Some _ => false | None => true end in
        match oe_mkdir env with
        | Some e => Err e
        | None => Ok (harden_database_dir dir created (create_dir_all dir (oe_umask_dir env) fs))
        end
    end in
  match prepared with
  | Err e => (fs, [], Err e)
  | Ok (fs, dir_notices) =>
      match oe_connect env with
      | Some e => (fs, dir_notices, Err e)
      | None =>
          let (fs, notices) := harden_database_files path (engine_creates (oe_opened env) fs) in
          (engine_creates (oe_configured env) fs, dir_notices ++ notices,
           configure m (connect (oe_existing env)))
      end
  end.

(** The writer's start: [bootstrap], the first checkpoint and the second
    hardening, now that the sidecars exist. *)
Definition start (env : OpenEnv) (migrated checkpointed : result StorageError unit) (path : string)
    (m : Command.SyncMode) (fs : gmap string Node)
    : gmap string Node * list Notice * result StorageError Conn :=
  match open env path m fs with
  | (fs, notices, Err e) => (fs, notices, Err e)
  | (fs, notices, Ok c) =>
      let fs := engine_creates (oe_written env) fs in
      match (let? _ := migrated in checkpointed) with
      | Err e => (fs, notices, Err e)
      | Ok _ => let (fs, more) := harden_database_files path fs in (fs, notices ++ more, Ok c)
      end
  end.

End bootstrap.

(** ** Properties *)

Definition database_paths (db_path : string) : list string :=
  db_path :: (String.append db_path <$> SIDECAR_SUFFIXES).

(** Restricting a path: what becomes of each file. *)
Definition restricted (path : string) (p : string) (n : Node) : Node :=
  if decide (p = path) then {| content := content n; mode := if may_chmod path then OWNER_ONLY else mode n |} else n.

Lemma restrict_lookup path fs fs' r p :
  restrict_permissions path fs = (fs', r) ->
  fs' !! p = restricted path p <$> fs !! p /\
  match r with
  | Ok _ => is_Some (fs !! path) /\ may_chmod path = true
  | Err Denied => is_Some (fs !! path) /\ may_chmod path = false
  | Err NotFound => fs !! path = None
  end.
Proof.
  unfold restrict_permissions, set_permissions, restricted.
  destruct (decide (p = path)) as [->|Hne]; destruct (fs !! path) as [[ct md]|] eqn:E;
    [destruct (may_chmod path)| |destruct (may_chmod path)|]; intros [= <- <-]; (split; [|by eauto]);
    rewrite ?lookup_insert_eq, ?lookup_insert_ne by done; rewrite ?E; try done; by destruct (fs !! p).
Qed.

(** The paths are restricted, or noted when they could not be; nothing else changed. *)
Definition owned (p : string) (n : Node) : Node :=
  {| content := content n; mode := if may_chmod p then OWNER_ONLY else mode n |}.

Record hardened (paths : list string) (fs fs' : gmap string Node) (ns : list Notice) : Prop := {
  hd_in : forall p, p ∈ paths -> fs' !! p = owned p <$> fs !! p;
  hd_out : forall p, ~ p ∈ paths -> fs' !! p = fs !! p;
  hd_noted : forall p, p ∈ paths -> is_Some (fs !! p) -> may_chmod p = false -> NotRestricted p ∈ ns;
}.

Lemma restricted_owned path n : restricted path path n = owned path n.
Proof. unfold restricted. by rewrite decide_True. Qed.

Lemma restricted_other path p n : p <> path -> restricted path p n = n.
Proof. intros. unfold restricted. by rewrite decide_False. Qed.

Lemma owned_twice p n : owned p (owned p n) = owned p n.
Proof. unfold owned. simpl. by destruct (may_chmod p). Qed.

Lemma hardened_step paths path fs fs1 fs2 ns r ns' :
  hardened paths fs fs1 ns -> restrict_permissions path fs1 = (fs2, r) -> ns ⊆ ns' ->
  (r = Err Denied -> NotRestricted path ∈ ns') -> hardened (path :: paths) fs fs2 ns'.
Proof.
  intros [Hin Hout Hn] Hr Hsub Hden. pose proof (fun p => proj1 (restrict_lookup path fs1 fs2 r p Hr)) as Hl.
  split.
  - intros p Hp. rewrite Hl. destruct (decide (p = path)) as [->|Hne].
    + destruct (decide (path ∈ paths)) as [Hi|Hi]; [rewrite (Hin _ Hi)|rewrite (Hout _ Hi)];
        destruct (fs !! path); simpl; try done; by rewrite restricted_owned, ?owned_twice.
    + apply elem_of_cons in Hp as [->|Hp]; [done|]. rewrite (Hin _ Hp).
      destruct (fs !! p); simpl; [|done]. by rewrite restricted_other.
  - intros p Hp. apply not_elem_of_cons in Hp as [Hne Hp]. rewrite Hl, (Hout _ Hp).
    destruct (fs !! p); simpl; [|done]. by rewrite restricted_other.
  - intros p Hp Hs Hm. apply elem_of_cons in Hp as [->|Hp]; [|by apply Hsub, Hn]. apply Hden.
    destruct (restrict_lookup path fs1 fs2 r path Hr) as [_ H].
    assert (is_Some (fs1 !! path)) as Hs1.
    { destruct (decide (path ∈ paths)) as [Hi|Hi]; [rewrite (Hin _ Hi); by apply fmap_is_Some|by rewrite (Hout _ Hi)]. }
    destruct r as [[]|[]]; [destruct H; congruence| |done]. rewrite H in Hs1. by apply is_Some_None in Hs1.
Qed.

Lemma harden_sidecar_step db paths fs acc suffix :
  hardened paths fs acc.1 acc.2 ->
  hardened (String.append db suffix :: paths) fs (harden_sidecar db acc suffix).1 (harden_sidecar db acc suffix).2.
Proof.
  intros H. unfold harden_sidecar.
  destruct (restrict_permissions (String.append db suffix) acc.1) as [fs2 [[]|[]]] eqn:E; simpl;
    (eapply hardened_step; [exact H|exact E|set_solver|]); intros; try done. set_solver.
Qed.

Lemma harden_files_spec db fs : exists paths,
  hardened paths fs (harden_database_files db fs).1 (harden_database_files db fs).2 /\
  forall p, p ∈ paths <-> p ∈ database_paths db.
Proof.
  unfold harden_database_files. destruct (restrict_permissions db fs) as [fs1 r] eqn:E.
  assert (hardened [db] fs fs1 (match r with Ok _ => [] | Err _ => [NotRestricted db] end)) as H1.
  { eapply (hardened_step [] db fs fs fs1 []); [|exact E|set_solver|intros ->; set_solver].
    split; [set_solver|done|set_solver]. }
  eexists. split; [do 3 (apply harden_sidecar_step); exact H1|]. unfold database_paths. set_solver.
Qed.

(** ** The connection *)

Section connection.
Context (fails : Statement -> option StorageError) (answer : string).

Lemma required_spec l : forall c,
  match required fails answer c l with
  | Ok c' => c' = foldl (run_statement answer) c l /\ Forall (fun s => fails s = None) l
  | Err e => exists s, s ∈ l /\ fails s = Some e
  end.
Proof.
  induction l as [|s l IH]; intros c; simpl; [by split|]. destruct (fails s) eqn:E.
  - exists s. split; [by left|done].
  - specialize (IH (run_statement answer c s)). destruct (required fails answer (run_statement answer c s) l).
    + destruct IH as [-> ?]. by split; [|constructor].
    + destruct IH as (s' & ? & ?). exists s'. split; [by right|done].
Qed.

(** Tuning touches nothing else. *)
Definition same_settings (c c' : Conn) : Prop :=
  header c' = header c /\ requested c' = requested c /\ journal_mode c' = journal_mode c /\ synchronous c' = synchronous c /\ foreign_keys c' = foreign_keys c /\
  busy_timeout c' = busy_timeout c.

Lemma tuning_keeps l c : Forall (fun s => exists p v, s = Tune p v) l -> same_settings c (foldl (best_effort fails answer) c l).
Proof.
  intros Hl. revert c. induction Hl as [|s l (p & v & ->) _ IH]; intros c; [by split_and!|].
  simpl. specialize (IH (best_effort fails answer c (Tune p v))). revert IH. unfold best_effort at 1. by destruct (fails (Tune p v)).
Qed.

Definition vacuum_mode (existing : option AutoVacuum) : AutoVacuum :=
  match existing with
  | Some h => h
  | None => match fails SetAutoVacuum with None => Incremental | Some _ => NoVacuum end
  end.

(** A connection as [open] hands it out: the journal mode is the one the engine
    answered; in WAL mode the header is written and its vacuum mode decided, in
    any other the first header still gets it. *)
Definition configured (m : Command.SyncMode) (existing : option AutoVacuum) (c : Conn) : Prop :=
  journal_mode c = answer /\ default (requested c) (header c) = vacuum_mode existing /\
  (answer = WAL -> header c = Some (vacuum_mode existing)) /\ synchronous c = Some m /\
  foreign_keys c = true /\ busy_timeout c = from_secs 5 /\ Forall (fun s => fails s = None) (REQUIRED m).

Lemma configure_spec m existing :
  match configure fails answer m (connect existing) with
  | Ok c => configured m existing c
  | Err e => exists s, s ∈ REQUIRED m /\ fails s = Some e
  end.
Proof.
  unfold configure, configured.
  pose proof (required_spec (REQUIRED m) (best_effort fails answer (connect existing) SetAutoVacuum)) as H.
  destruct (required _ _ _ _) as [c|e]; [|done]. destruct H as [Hc Hall].
  destruct (tuning_keeps TUNING c) as (-> & -> & -> & -> & -> & ->); [repeat constructor; by do 2 eexists|].
  rewrite Hc. unfold best_effort, vacuum_mode. cbn.
  split_and!; [by destruct (fails SetAutoVacuum)| |intros -> |by destruct (fails SetAutoVacuum)..|done].
  - destruct (String.eqb answer WAL), (fails SetAutoVacuum), existing; done.
  - by destruct (fails SetAutoVacuum), existing.
Qed.

(** ** The files *)

Lemma create_lookup path m (fs : gmap string Node) p :
  create path m fs !! p = match fs !! p with
                          | Some n => Some n
                          | None => if decide (p = path) then Some {| content := ""; mode := m |} else None
                          end.
Proof.
  unfold create. destruct (fs !! path) as [n|] eqn:E.
  - destruct (fs !! p) eqn:E'; [done|]. case_decide; [congruence|done].
  - destruct (decide (p = path)) as [->|Hne]; [by rewrite E, lookup_insert_eq|].
    rewrite lookup_insert_ne by done. by destruct (fs !! p).
Qed.

Lemma engine_creates_lookup files (fs : gmap string Node) p :
  (forall n, fs !! p = Some n -> engine_creates files fs !! p = Some n) /\
  (fs !! p = None -> (is_Some (engine_creates files fs !! p) <-> p ∈ files.*1)).
Proof.
  induction files as [|[q m] files [IH1 IH2]]; cbn [engine_creates foldr fst snd].
  - split; [done|]. intros ->. split; [by intros [? ?]|by intros ?%not_elem_of_nil].
  - rewrite create_lookup. fold (engine_creates files fs). split.
    + intros n Hn. by rewrite (IH1 n Hn).
    + intros Hn. specialize (IH2 Hn). rewrite fmap_cons, elem_of_cons. cbn [fst].
      destruct (engine_creates files fs !! p) eqn:E; [naive_solver|].
      case_decide as Hd; [split; eauto|]. rewrite <- IH2. split; [by intros [? ?]|].
      intros [?|[? ?]]; done.
Qed.

Lemma engine_creates_None files (fs : gmap string Node) p :
  fs !! p = None -> p ∉ files.*1 -> engine_creates files fs !! p = None.
Proof.
  intros Hn Hp. destruct (engine_creates_lookup files fs p) as [_ H]. specialize (H Hn).
  apply eq_None_not_Some. by rewrite H.
Qed.

Lemma harden_dir_other dir created (fs : gmap string Node) p :
  p <> dir -> (harden_database_dir dir created fs).1 !! p = fs !! p.
Proof.
  intros Hne. unfold harden_database_dir, set_permissions. destruct created; destruct (fs !! dir) as [n|]; try done.
  destruct (may_chmod dir); simpl; [by rewrite lookup_insert_ne|done].
Qed.

Lemma create_dir_all_lookup dir m (fs : gmap string Node) p :
  create_dir_all dir m fs !! p =
    match fs !! p with
    | Some n => Some n
    | None => if decide (p ∈ directories dir) then Some {| content := ""; mode := m |} else None
    end.
Proof.
  unfold create_dir_all. induction (directories dir) as [|d dirs IH]; cbn [foldr].
  - destruct (fs !! p); [done|]. rewrite decide_False; [done|]. apply not_elem_of_nil.
  - rewrite create_lookup, IH. destruct (fs !! p); [done|].
    destruct (decide (p ∈ dirs)) as [Hin|Hin]; [by rewrite decide_True by by right|].
    destruct (decide (p = d)) as [->|Hne]; [by rewrite decide_True by left|].
    rewrite decide_False; [done|]. by rewrite elem_of_cons; intros [].
Qed.

Lemma database_dir_listed path dir : database_dir path = Some dir -> dir ∈ directories dir.
Proof.
  unfold database_dir, directories. intros H. apply bind_Some in H as (d & _ & H).
  destruct (Text.is_empty d) eqn:E; [done|]. injection H as ->. apply list_elem_of_In, filter_In. rewrite E.
  split; [|done]. apply list_elem_of_In, Paths.elem_of_ancestors. apply rtc_refl.
Qed.

(** The directory is none of the database files: it is a shorter path. *)
Lemma database_dir_apart path dir : database_dir path = Some dir -> dir ∉ database_paths path.
Proof.
  unfold database_dir. intros H Hin. apply bind_Some in H as (d & Hd & H).
  destruct (Text.is_empty d); [done|]. injection H as ->. apply Paths.parent_shorter in Hd.
  assert (exists s, dir = String.append path s) as [s ->].
  { apply elem_of_cons in Hin as [->|Hin]; [exists ""; apply Paths.append_nil|].
    apply list_elem_of_fmap in Hin as (s & -> & _). by exists s. }
  rewrite Paths.length_append in Hd. lia.
Qed.

(** What the preparation of the directory leaves behind. *)
Record prepared_dir (env : OpenEnv) (path : string) (fs fs1 : gmap string Node) (ns : list Notice) : Prop := {
  pd_kept : forall p n, fs !! p = Some n -> fs1 !! p = Some n;
  pd_new : forall p, fs !! p = None -> is_Some (fs1 !! p) ->
    exists dir, database_dir path = Some dir /\ p ∈ directories dir;
  pd_private : forall dir, database_dir path = Some dir -> fs !! dir = None ->
    exists n, fs1 !! dir = Some n /\ (mode n = OWNER_DIR \/ DirNotRestricted dir ∈ ns);
}.

Lemma prepare_spec env path (fs : gmap string Node) :
  exists fs1 ns1,
    match database_dir path with
    | None => (fs, [])
    | Some dir => harden_database_dir dir (match fs !! dir with Some _ => false | None => true end)
                    (create_dir_all dir (oe_umask_dir env) fs)
    end = (fs1, ns1) /\ prepared_dir env path fs fs1 ns1.
Proof.
  destruct (database_dir path) as [dir|] eqn:Ed.
  2: { exists fs, []. split; [done|]. split; [done|by intros p -> [? ?]|congruence]. }
  pose proof (database_dir_listed _ _ Ed) as Hl.
  unfold harden_database_dir, set_permissions. rewrite create_dir_all_lookup.
  assert (forall p, fs !! p = None -> is_Some (create_dir_all dir (oe_umask_dir env) fs !! p) -> p ∈ directories dir) as Hnew.
  { intros p Hp. rewrite create_dir_all_lookup, Hp. by case_decide; [|intros [? ?]]. }
  assert (forall p n, fs !! p = Some n -> create_dir_all dir (oe_umask_dir env) fs !! p = Some n) as Hkept.
  { intros p n Hp. by rewrite create_dir_all_lookup, Hp. }
  destruct (fs !! dir) as [n|] eqn:En.
  { do 2 eexists. split; [reflexivity|]. split; [done|naive_solver|congruence]. }
  rewrite decide_True by done. destruct (may_chmod dir); do 2 eexists; (split; [reflexivity|]).
  - split.
    + intros p n Hp. rewrite lookup_insert_ne by congruence. by apply Hkept.
    + intros p Hp Hs. exists dir. split; [done|]. destruct (decide (dir = p)) as [->|Hne]; [done|].
      rewrite lookup_insert_ne in Hs by done. by apply Hnew.
    + intros d Hd _. rewrite Ed in Hd. injection Hd as <-. rewrite lookup_insert_eq. eexists. split; [done|by left].
  - split; [done|naive_solver|]. intros d Hd _. rewrite Ed in Hd. injection Hd as <-. rewrite create_dir_all_lookup, En, decide_True by done.
    eexists. split; [done|right; by left].
Qed.

(** The files of [path] are owner-only, or reported in [ns]; those in [late]
    appeared too late to be restricted. *)
Definition private_files (path : string) (late : list string) (fs : gmap string Node) (ns : list Notice) : Prop :=
  forall p n, p ∈ database_paths path -> fs !! p = Some n ->
    p ∈ late \/ mode n = OWNER_ONLY \/ NotRestricted p ∈ ns.

Lemma harden_private db fs : private_files db [] (harden_database_files db fs).1 (harden_database_files db fs).2.
Proof.
  destruct (harden_files_spec db fs) as (paths & [Hin _ Hnoted] & Hpaths). intros p n Hp Hn. right.
  apply Hpaths in Hp. rewrite (Hin p Hp) in Hn. destruct (fs !! p) as [n0|] eqn:E; [|done]. simplify_eq/=.
  destruct (may_chmod p) eqn:Em; [by left|right]. by apply Hnoted.
Qed.

Lemma harden_sidecar_keeps db acc suffix x : x ∈ acc.2 -> x ∈ (harden_sidecar db acc suffix).2.
Proof. unfold harden_sidecar. destruct (restrict_permissions _ _) as [? [[]|[]]]; set_solver. Qed.

Lemma harden_missing db fs : fs !! db = None -> NotRestricted db ∈ (harden_database_files db fs).2.
Proof.
  intros Hn. unfold harden_database_files, restrict_permissions, set_permissions. rewrite Hn.
  cbn [SIDECAR_SUFFIXES foldl]. do 3 apply harden_sidecar_keeps. by left.
Qed.

Lemma harden_other db fs p : p ∉ database_paths db -> (harden_database_files db fs).1 !! p = fs !! p.
Proof.
  destruct (harden_files_spec db fs) as (paths & [_ Hout _] & Hpaths). intros Hp. apply Hout. by rewrite Hpaths.
Qed.

Lemma harden_exists db fs p : is_Some ((harden_database_files db fs).1 !! p) <-> is_Some (fs !! p).
Proof.
  destruct (harden_files_spec db fs) as (paths & [Hin Hout _] & _).
  destruct (decide (p ∈ paths)) as [Hp|Hp]; [rewrite (Hin p Hp); apply fmap_is_Some|by rewrite (Hout p Hp)].
Qed.

(** C32: Opening the database configures it and makes its files private.  When the directory and
    the connection can be had, the open fails exactly when a required pragma does, with its error.
    The connection it returns has the configured synchronous mode, foreign keys and a busy timeout,
    and the journal mode the engine answered, whatever that is; a new database gets the incremental
    vacuum mode, which has to be requested before the switch to WAL writes the header, and an
    existing one keeps its own.  The database file and its sidecars are owner-only or reported,
    except those the engine creates while it is configured; after the writer's start, which
    restricts them again, all that exist are.  A directory created for the database is owner-only
    or reported, every file that is not the database's is left as it was, and nothing appears
    besides the missing directories and what the engine creates: no file for an in-memory
    database, whose name is then reported as not restricted. *)
Theorem open_configured_private env path m fs fs' ns r migrated checkpointed :
  oe_mkdir env = None -> oe_connect env = None ->
  open fails answer env path m fs = (fs', ns, r) ->
  match r with
  | Ok c => configured m (oe_existing env) c
  | Err e => exists s, s ∈ REQUIRED m /\ fails s = Some e
  end /\
  (forall p, p ∈ (oe_opened env).*1 -> is_Some (fs' !! p)) /\
  private_files path (oe_configured env).*1 fs' ns /\
  (fs' !! path = None -> NotRestricted path ∈ ns) /\
  (forall fs2 ns2 c, start fails answer env migrated checkpointed path m fs = (fs2, ns2, Ok c) ->
     r = Ok c /\ private_files path [] fs2 ns2) /\
  (forall dir, database_dir path = Some dir -> fs !! dir = None -> exists n, fs' !! dir = Some n /\
     (mode n = OWNER_DIR \/ DirNotRestricted dir ∈ ns)) /\
  (forall p n, fs !! p = Some n -> p ∉ database_paths path -> fs' !! p = Some n) /\
  (forall p, fs !! p = None -> is_Some (fs' !! p) ->
     p ∈ (oe_opened env).*1 \/ p ∈ (oe_configured env).*1 \/
     exists dir, database_dir path = Some dir /\ p ∈ directories dir).
Proof.
  intros Hmk Hco Ho. pose proof Ho as Hopen. unfold open in Ho. rewrite Hmk, Hco in Ho.
  destruct (prepare_spec env path fs) as (fs1 & ns1 & Hprep & [Hkept Hnew Hdir]).
  set (opened := engine_creates (oe_opened env) fs1) in *.
  assert ((let (fs2, ns2) := harden_database_files path opened in
     (engine_creates (oe_configured env) fs2, ns1 ++ ns2, configure fails answer m (connect (oe_existing env))))
     = (fs', ns, r)) as Ho'.
  { rewrite <- Ho. destruct (database_dir path); rewrite Hprep || (injection Hprep as -> ->); done. }
  pose proof (harden_private path opened) as Hpriv. pose proof (harden_other path opened) as Hother.
  pose proof (harden_exists path opened) as Hex. pose proof (harden_missing path opened) as Hmiss.
  destruct (harden_database_files path opened) as [fs2 ns2]. simplify_eq/=.
  pose proof (engine_creates_lookup (oe_configured env) fs2) as Hcfg.
  pose proof (engine_creates_lookup (oe_opened env) fs1) as Hop. fold opened in Hop.
  split; [apply configure_spec|]. split_and!.
  - intros p Hp. assert (is_Some (opened !! p)) as [n Hn]%Hex.
    { destruct (fs1 !! p) as [n|] eqn:E; [eexists; by apply Hop|]. by apply Hop. }
    eexists. by apply Hcfg.
  - intros p n Hp Hn. destruct (fs2 !! p) as [n0|] eqn:E.
    + rewrite (proj1 (Hcfg p) n0 E) in Hn. simplify_eq. destruct (Hpriv p n Hp E) as [?|[?|?]]; set_solver.
    + left. apply Hcfg; [done|by eexists].
  - intros Hnone. apply elem_of_app. right. apply Hmiss. apply eq_None_not_Some. intros [n Hn]%Hex.
    destruct (Hcfg path) as [H _]. rewrite (H n Hn) in Hnone. done.
  - intros fs3 ns3 c. unfold start. rewrite Hopen.
    destruct (configure fails answer m _) as [c0|]; [|done].
    destruct (let? _ := migrated in checkpointed); [|done].
    pose proof (harden_private path (engine_creates (oe_written env) (engine_creates (oe_configured env) fs2))) as Hp3.
    destruct (harden_database_files path _) as [fs4 ns4]. intros [= <- <- <-]. split; [done|].
    intros p n Hp Hn. destruct (Hp3 p n Hp Hn) as [?|[?|?]]; set_solver.
  - intros dir Hd Hn. destruct (Hdir dir Hd Hn) as (n & E & Hm). exists n. split; [|set_solver].
    apply Hcfg. rewrite Hother by (by apply database_dir_apart). by apply Hop.
  - intros p n Hn Hp. apply Hcfg. rewrite Hother by done. by apply Hop, Hkept.
  - intros p Hn Hs. destruct (decide (p ∈ (oe_opened env).*1)) as [?|Ho1]; [by left|right].
    destruct (decide (p ∈ (oe_configured env).*1)) as [?|Hc1]; [by left|right]. apply Hnew; [done|].
    destruct (fs1 !! p) as [n|] eqn:E; [by eexists|]. exfalso.
    assert (fs2 !! p = None) as E2.
    { apply eq_None_not_Some. rewrite Hex. unfold opened. rewrite engine_creates_None by done. by intros [? ?]. }
    rewrite engine_creates_None in Hs by done. by destruct Hs.
Qed.

End connection.

End host.

(** ** A new database beside a leftover log *)

Definition demo_env : OpenEnv :=
  {| oe_mkdir := None; oe_connect := None; oe_umask_dir := 493; oe_opened := [("/data/logs.db", 420)];
     oe_configured := [("/data/logs.db-shm", 420)]; oe_written := []; oe_existing := None |}.

Definition demo_fs : gmap string Node :=
  <["/data/logs.db-wal" := {| content := "frames"; mode := 420 |}]>
  (<["/data/other" := {| content := "x"; mode := 420 |}]> ∅).

Definition demo_fails (s : Statement) : option StorageError :=
  match s with Tune _ _ => Some WriterPanicked | _ => None end.

Lemma open_configured_private_witness :
  exists fs' ns c fs2 ns2,
    open (fun _ => true) demo_fails WAL demo_env "/data/logs.db" Command.SyncFull demo_fs = (fs', ns, Ok c) /\
    header c = Some Incremental /\
    start (fun _ => true) demo_fails WAL demo_env (Ok tt) (Ok tt) "/data/logs.db" Command.SyncFull demo_fs
      = (fs2, ns2, Ok c) /\
    mode <$> fs' !! "/data/logs.db-shm" = Some 420 /\ mode <$> fs2 !! "/data/logs.db-shm" = Some OWNER_ONLY /\
    private_files "/data/logs.db" [] fs2 ns2.
Proof.
  destruct (open (fun _ => true) demo_fails WAL demo_env "/data/logs.db" Command.SyncFull demo_fs) as [[fs' ns] r] eqn:Ho.
  destruct (start (fun _ => true) demo_fails WAL demo_env (Ok tt) (Ok tt) "/data/logs.db" Command.SyncFull demo_fs)
    as [[fs2 ns2] r2] eqn:Hs.
  destruct (open_configured_private (fun _ => true) demo_fails WAL demo_env "/data/logs.db" Command.SyncFull demo_fs fs' ns r
    (Ok tt) (Ok tt) eq_refl eq_refl Ho) as (Hr & _ & _ & _ & Hstart & _).
  assert (exists c, r2 = Ok c) as [c ->].
  { apply (f_equal snd) in Hs. revert Hs. vm_compute. intros <-. by eexists. }
  destruct (Hstart fs2 ns2 c Hs) as [-> Hpriv].
  exists fs', ns, c, fs2, ns2. split_and!; [done|by apply Hr|done| | |done].
  - apply (f_equal (fun x => x.1.1)) in Ho. simpl fst in Ho. rewrite <- Ho. vm_compute. reflexivity.
  - apply (f_equal (fun x => x.1.1)) in Hs. simpl fst in Hs. rewrite <- Hs. vm_compute. reflexivity.
Defined.

(** An engine that answers another journal mode is used as it is: an in-memory
    database opens without a file and with its name reported. *)
Definition memory_env : OpenEnv :=
  {| oe_mkdir := None; oe_connect := None; oe_umask_dir := 493; oe_opened := []; oe_configured := [];
     oe_written := []; oe_existing := None |}.

Example memory_database :
  match open (fun _ => true) (fun _ => None) "memory" memory_env ":memory:" Command.SyncFull ∅ with
  | (fs, ns, Ok c) => fs = ∅ /\ ns = [NotRestricted ":memory:"] /\ journal_mode c = "memory" /\ header c = None
  | _ => False
  end.
Proof. vm_compute. by split_and!. Qed.

End Permissions.
