(* ===== verification/GenCerts.v ===== *)
(** * Certificate generation ([crates/otel-sqlite/src/gencerts.rs])

    The command bootstraps or extends a private PKI in one directory.  Its
    effects are a small state and error monad over the files of the directory
    and the supply of generated keys; a key is its serialized text, and the
    certificate library signs and parses through an environment.  Names are
    relative to the output directory. *)

From S2P Require Import Prelude Time Model Text Net BackupFiles Permissions.

Module GenCerts.
Import Permissions.

Local Open Scope string_scope.
Local Open Scope list_scope.

(** ** Arguments *)

Record GenCertsArgs := {
  hosts : list string;
  clients : list string;
  out_dir : string;
  force : bool;
}.

Inductive CertError :=
| MissingValue (flag : string)
| UnknownFlag (flag : string)
| CannotCreate
| CannotParseCa
| KeyGeneration
| Signing
| InvalidDnsName (host : string)
| InvalidClient (name : string)
| ReservedClient (name : string)
| CannotWrite (path : string)
| CannotRestrict (path : string).

Fixpoint parse_loop (args : list string) (a : GenCertsArgs) : result CertError GenCertsArgs :=
  match args with
  | [] => Ok a
  | flag :: rest =>
      if String.eqb flag "--force" then
        parse_loop rest {| hosts := hosts a; clients := clients a; out_dir := out_dir a; force := true |}
      else
        match rest with
        | [] => Err (MissingValue flag)
        | value :: rest' =>
            if String.eqb flag "--host" then
              parse_loop rest' {| hosts := hosts a ++ [value]; clients := clients a; out_dir := out_dir a; force := force a |}
            else if String.eqb flag "--client" then
              parse_loop rest' {| hosts := hosts a; clients := clients a ++ [value]; out_dir := out_dir a; force := force a |}
            else if String.eqb flag "--out" then
              parse_loop rest' {| hosts := hosts a; clients := clients a; out_dir := value; force := force a |}
            else Err (UnknownFlag flag)
        end
  end.

Definition or_default (l : list string) (d : string) : list string := match l with [] => [d] | _ => l end.

Definition parse_args (args : list string) : result CertError GenCertsArgs :=
  let? a := parse_loop args {| hosts := []; clients := []; out_dir := "certs"; force := false |} in
  Ok {| hosts := or_default (hosts a) "localhost"; clients := or_default (clients a) "otel-client";
        out_dir := out_dir a; force := force a |}.

(** ** Certificate parameters *)

Inductive San := DnsName (name : string) | IpAddress (ip : Net.IpAddr).

Record Params := {
  common_name : string;
  sans : list San;
  is_ca : bool;
  server_auth : bool;
  client_auth : bool;
}.

(** [make_ca_params]. *)
Definition make_ca_params : Params :=
  {| common_name := "otel-sqlite in-house CA"; sans := []; is_ca := true; server_auth := false; client_auth := false |}.

Definition server_params (names : list San) : Params :=
  {| common_name := "otel-sqlite server"; sans := names; is_ca := false; server_auth := true; client_auth := true |}.

Definition client_params (client : string) : Params :=
  {| common_name := client; sans := []; is_ca := false; server_auth := false; client_auth := true |}.

(** [str::parse::<IpAddr>]. *)
Definition parse_ip (s : string) : option Net.IpAddr :=
  let l := Text.bytes_of_string s in
  match Net.read_ipv4_addr l with
  | Some (octets, []) => Some (Net.V4 octets)
  | Some _ => None
  | None =>
      match Net.read_ipv6_addr l with
      | Some (segments, []) => Some (Net.V6 segments)
      | _ => None
      end
  end.

Definition LOOPBACK_V4 : Net.IpAddr := Net.V4 [127; 0; 0; 1]%N.
Definition LOOPBACK_V6 : Net.IpAddr := Net.V6 [0; 0; 0; 0; 0; 0; 0; 1]%N.

(** ** Client names *)

Definition is_ascii_alphanumeric (c : ascii) : bool :=
  let n := N_of_ascii c in
  ((48 <=? n) && (n <=? 57) || (65 <=? n) && (n <=? 90) || (97 <=? n) && (n <=? 122))%N.

Definition name_char (c : ascii) : bool :=
  is_ascii_alphanumeric c || Ascii.eqb c "-" || Ascii.eqb c "_" || Ascii.eqb c ".".

(** [name.split('.').next()]. *)
Fixpoint before_dot (l : list ascii) : list ascii :=
  match l with
  | [] => []
  | c :: l' => if Ascii.eqb c "." then [] else c :: before_dot l'
  end.

Definition RESERVED : list string :=
  ["con"; "prn"; "aux"; "nul"; "com1"; "com2"; "com3"; "com4"; "com5"; "com6"; "com7"; "com8"; "com9";
   "lpt1"; "lpt2"; "lpt3"; "lpt4"; "lpt5"; "lpt6"; "lpt7"; "lpt8"; "lpt9"].

Definition sanitize_client_name (name : string) : result CertError unit :=
  let l := Text.bytes_of_string name in
  if negb (negb (Text.is_empty name) && forallb name_char l && negb (BackupFiles.starts_with_dot name))
  then Err (InvalidClient name)
  else
    let stem := Text.to_ascii_lowercase (Text.string_of_bytes (before_dot l)) in
    if existsb (String.eqb stem) RESERVED then Err (ReservedClient name) else Ok tt.

(** ** Subject names *)

Section names.
Context (dns_name : string -> bool).

Definition host_san (host : string) : result CertError San :=
  match parse_ip host with
  | Some ip => Ok (IpAddress ip)
  | None => if dns_name host then Ok (DnsName host) else Err (InvalidDnsName host)
  end.

Definition contains (l : list string) (s : string) : bool := existsb (String.eqb s) l.

Definition server_sans (hosts : list string) : result CertError (list San) :=
  let? given := collect_result host_san hosts in
  let? named := if contains hosts "localhost" then Ok []
                else if dns_name "localhost" then Ok [DnsName "localhost"]
                else Err (InvalidDnsName "localhost") in
  Ok (given ++ named
      ++ (if contains hosts "127.0.0.1" then [] else [IpAddress LOOPBACK_V4])
      ++ (if contains hosts "::1" then [] else [IpAddress LOOPBACK_V6])).

End names.

(** ** Effects *)

Record St := {
  files : gmap string Node;
  drawn : nat;
}.

Definition M (A : Type) := St -> St * result CertError A.

Definition ret {A} (a : A) : M A := fun st => (st, Ok a).
Definition fail {A} (e : CertError) : M A := fun st => (st, Err e).
Definition bind {A B} (m : M A) (k : A -> M B) : M B := fun st =>
  match m st with
  | (st', Ok a) => k a st'
  | (st', Err e) => (st', Err e)
  end.

Notation "'do' x <- m ; k" := (bind m (fun x => k)) (at level 60, x pattern, m at level 55, k at level 60, right associativity) : otel_scope.

Definition lift {A} (r : result CertError A) : M A := fun st => (st, r).
Definition demand {A} (o : option A) (e : CertError) : M A :=
  match o with Some a => ret a | None => fail e end.

(** [for x in l { f(x)? }]. *)
Fixpoint each {A} (f : A -> M unit) (l : list A) : M unit :=
  match l with
  | [] => ret tt
  | x :: l' => do _ <- f x; each f l'
  end.

Section gen.
Context (can_create : bool) (can_write may_chmod : string -> bool) (umask : N).
Context (generated : nat -> option string) (from_pem : string -> option string).
Context (dns_name : string -> bool) (sign : Params -> string -> string -> option string).

(** [KeyPair::generate]. *)
Definition generate : M string := fun st =>
  match generated (drawn st) with
  | Some key => ({| files := files st; drawn := S (drawn st) |}, Ok key)
  | None => (st, Err KeyGeneration)
  end.

(** [std::fs::write]: an existing file keeps its mode. *)
Definition write (path text : string) : M unit := fun st =>
  if can_write path then
    ({| files := <[path := {| content := text;
                              mode := match files st !! path with Some n => mode n | None => umask end |}]> (files st);
        drawn := drawn st |}, Ok tt)
  else (st, Err (CannotWrite path)).

Definition restrict_key_file (path : string) : M unit := fun st =>
  match restrict_permissions may_chmod path (files st) with
  | (fs, Ok _) => ({| files := fs; drawn := drawn st |}, Ok tt)
  | (fs, Err _) => ({| files := fs; drawn := drawn st |}, Err (CannotRestrict path))
  end.

(** [path.extension() == Some("key")], for the names this command writes. *)
Definition has_key_extension (path : string) : bool := BackupFiles.ends_with path ".key".

Definition write_pem (path text : string) : M unit :=
  do _ <- write path text;
  if has_key_extension path then restrict_key_file path else ret tt.

Definition is_file (st : St) (path : string) : bool := match files st !! path with Some _ => true | None => false end.

(** The CA: the existing one, or a new one that is written. *)
Definition prepare_ca (reuse : bool) : M string :=
  do key <- (if reuse then fun st => demand (files st !! "ca.key" ≫= fun n => from_pem (content n)) CannotParseCa st
             else generate);
  do cert <- demand (sign make_ca_params key key) Signing;
  do _ <- (if reuse then ret tt
           else do _ <- write_pem "ca.pem" cert; write_pem "ca.key" key);
  ret key.

Definition prepare_server (args : GenCertsArgs) (reuse : bool) (ca : string) : M unit := fun st =>
  if negb (force args) && reuse && is_file st "server.pem" && is_file st "server.key" then (st, Ok tt)
  else
    (do key <- generate;
     do names <- lift (server_sans dns_name (hosts args));
     do cert <- demand (sign (server_params names) key ca) Signing;
     do _ <- write_pem "server.pem" cert;
     write_pem "server.key" key) st.

Definition issue_client (ca : string) (client : string) : M unit :=
  do _ <- lift (sanitize_client_name client);
  do key <- generate;
  do cert <- demand (sign (client_params client) key ca) Signing;
  do _ <- write_pem (String.append client ".pem") cert;
  write_pem (String.append client ".key") key.

Definition run (args : GenCertsArgs) : M unit := fun st =>
  if negb can_create then (st, Err CannotCreate)
  else
    let reuse := negb (force args) && is_file st "ca.key" && is_file st "ca.pem" in
    (do ca <- prepare_ca reuse;
     do _ <- prepare_server args reuse ca;
     each (issue_client ca) (clients args)) st.

(** ** What a command touches *)

(** Whatever happens, only files of [Q] change. *)
Definition touches {A} (Q : string -> Prop) (m : M A) : Prop :=
  forall st p, ~ Q p -> files (m st).1 !! p = files st !! p.

Lemma touches_ret {A} Q (a : A) : touches Q (ret a).
Proof. by intros st p _. Qed.

Lemma touches_lift {A} Q (r : result CertError A) : touches Q (lift r).
Proof. by intros st p _. Qed.

Lemma touches_demand {A} Q (o : option A) e : touches Q (demand o e).
Proof. by destruct o; intros st p _. Qed.

Lemma touches_generate Q : touches Q generate.
Proof. intros st p _. unfold generate. by destruct (generated (drawn st)). Qed.

Lemma touches_bind {A B} Q (m : M A) (k : A -> M B) :
  touches Q m -> (forall a, touches Q (k a)) -> touches Q (bind m k).
Proof.
  intros Hm Hk st p Hp. unfold bind. specialize (Hm st p Hp). destruct (m st) as [st' [a|e]]; [|done].
  simpl in *. rewrite <- Hm. by apply Hk.
Qed.

Lemma touches_each {A} Q (f : A -> M unit) l : (forall x, x ∈ l -> touches Q (f x)) -> touches Q (each f l).
Proof.
  induction l as [|x l IH]; intros Hf; [apply touches_ret|]. apply touches_bind; [apply Hf; by left|].
  intros _. apply IH. intros y Hy. apply Hf. by right.
Qed.

Lemma touches_write_pem (Q : string -> Prop) path text : Q path -> touches Q (write_pem path text).
Proof.
  intros HQ. apply touches_bind.
  - intros st p Hp. unfold write. destruct (can_write path); [|done]. simpl. rewrite lookup_insert_ne; [done|congruence].
  - intros _. destruct (has_key_extension path); [|apply touches_ret]. intros st p Hp. unfold restrict_key_file.
    destruct (restrict_permissions may_chmod path (files st)) as [fs r] eqn:E.
    destruct (restrict_lookup may_chmod path (files st) fs r p E) as [Hl _].
    assert (fs !! p = files st !! p) as Hfs.
    { rewrite Hl. destruct (files st !! p) as [n|]; [|done]. simpl. f_equal. apply restricted_other. congruence. }
    by destruct r.
Qed.

(** The files of a client. *)
Definition client_file (client path : string) : Prop :=
  path = String.append client ".pem" \/ path = String.append client ".key".

Lemma touches_issue (Q : string -> Prop) ca client :
  (forall p, client_file client p -> Q p) -> touches Q (issue_client ca client).
Proof.
  intros HQ. unfold issue_client. assert (Q (String.append client ".pem")) by (apply HQ; by left).
  assert (Q (String.append client ".key")) by (apply HQ; by right).
  apply touches_bind; [apply touches_lift|intros _]. apply touches_bind; [apply touches_generate|intros key].
  apply touches_bind; [apply touches_demand|intros cert].
  apply touches_bind; [by apply touches_write_pem|intros _]. by apply touches_write_pem.
Qed.

(** ** What is issued *)

(** Running to success, step by step. *)
Lemma bind_ok {A B} (m : M A) (k : A -> M B) st st' b :
  bind m k st = (st', Ok b) -> exists st1 a, m st = (st1, Ok a) /\ k a st1 = (st', Ok b).
Proof. unfold bind. destruct (m st) as [st1 [a|e]]; [eauto|done]. Qed.

Lemma demand_ok {A} (o : option A) e st st' a : demand o e st = (st', Ok a) -> st' = st /\ o = Some a.
Proof. destruct o; simpl; unfold ret, fail; intros; by simplify_eq. Qed.

(** A file with its text, private if it is a key. *)
Definition holds (fs : gmap string Node) (path text : string) : Prop :=
  exists n, fs !! path = Some n /\ content n = text /\ (has_key_extension path = true -> mode n = OWNER_ONLY).

Lemma write_pem_ok path text st st' :
  write_pem path text st = (st', Ok tt) ->
  holds (files st') path text /\ forall p, p <> path -> files st' !! p = files st !! p.
Proof.
  intros H. split.
  2: { intros p Hp. change st' with (st', @Ok CertError _ tt).1. rewrite <- H.
       by apply (touches_write_pem (fun q => q = path)). }
  unfold write_pem in H. apply bind_ok in H as (st1 & [] & Hw & Hk). unfold write in Hw.
  destruct (can_write path); [|done]. simplify_eq. unfold holds.
  destruct (has_key_extension path); [|unfold ret in Hk; simplify_eq/=; eexists; rewrite lookup_insert_eq; by split_and!].
  unfold restrict_key_file in Hk. simpl in Hk.
  destruct (restrict_permissions may_chmod path _) as [fs r] eqn:E.
  destruct (restrict_lookup may_chmod path _ fs r path E) as [Hl Hr]. destruct r as [[]|]; [|done]. simplify_eq/=.
  destruct Hr as [_ Hr]. rewrite Hl, lookup_insert_eq. simpl. rewrite restricted_owned. unfold owned. rewrite Hr.
  eexists. by split_and!.
Qed.

(** The pair of a client, signed by the CA key. *)
Definition issued (fs : gmap string Node) (ca client : string) : Prop :=
  exists key cert, sign (client_params client) key ca = Some cert /\
    holds fs (String.append client ".pem") cert /\ holds fs (String.append client ".key") key.

Lemma pem_is_not_key a b : String.append a ".pem" <> String.append b ".key".
Proof.
  intros H. apply (f_equal (fun s => last (Text.bytes_of_string s))) in H. by rewrite !BackupFiles.bytes_app, !last_app in H.
Qed.

Lemma has_key a : has_key_extension (String.append a ".key") = true.
Proof.
  unfold has_key_extension, BackupFiles.ends_with. apply bool_decide_eq_true_2.
  rewrite BackupFiles.bytes_app, reverse_app. eexists. apply BackupFiles.strip_prefix_app.
Qed.

Lemma issue_ok ca client st st' :
  issue_client ca client st = (st', Ok tt) ->
  sanitize_client_name client = Ok tt /\ issued (files st') ca client /\
  forall p, ~ client_file client p -> files st' !! p = files st !! p.
Proof.
  intros H. pose proof (touches_issue (client_file client) ca client (fun _ H => H) st) as Ht. rewrite H in Ht.
  unfold issue_client in H. apply bind_ok in H as (st1 & [] & Hs & H). apply bind_ok in H as (st2 & key & _ & H).
  apply bind_ok in H as (st3 & cert & Hd & H). apply demand_ok in Hd as [-> Hsign].
  apply bind_ok in H as (st4 & [] & Hp & Hk). apply write_pem_ok in Hp as [Hpem _]. apply write_pem_ok in Hk as [Hkey Hsame].
  unfold lift in Hs. split_and!; [by simplify_eq| |done]. exists key, cert. split_and!; [done| |done].
  unfold holds in *. rewrite Hsame; [done|]. apply pem_is_not_key.
Qed.

Lemma other_client a b p : a <> b -> client_file a p -> ~ client_file b p.
Proof.
  intros Hne [->| ->] [H|H]; try (apply BackupFiles.append_inj_r in H; congruence).
  - by apply pem_is_not_key in H.
  - symmetry in H. by apply pem_is_not_key in H.
Qed.

Lemma issued_stable ca client (fs fs' : gmap string Node) :
  (forall p, client_file client p -> fs' !! p = fs !! p) -> issued fs ca client -> issued fs' ca client.
Proof.
  intros Hsame (key & cert & Hs & Hp & Hk). exists key, cert. unfold holds in *.
  rewrite !Hsame by (by left + by right). by split_and!.
Qed.

(** The files a list of clients owns. *)
Definition clients_file (l : list string) (path : string) : Prop := exists client, client ∈ l /\ client_file client path.

Lemma touches_clients ca l : touches (clients_file l) (each (issue_client ca) l).
Proof. apply touches_each. intros x Hx. apply touches_issue. intros p Hp. by exists x. Qed.

Lemma each_issues ca l : forall st st',
  each (issue_client ca) l st = (st', Ok tt) ->
  forall client, client ∈ l -> sanitize_client_name client = Ok tt /\ issued (files st') ca client.
Proof.
  induction l as [|x l IH]; intros st st' H client Hin; [by apply not_elem_of_nil in Hin|].
  apply bind_ok in H as (st1 & [] & Hx & Hl). specialize (IH st1 st' Hl).
  destruct (decide (client ∈ l)) as [?|Hnot]; [by apply IH|].
  apply elem_of_cons in Hin as [->|?]; [|done]. apply issue_ok in Hx as (Hs & Hi & _). split; [done|].
  revert Hi. apply issued_stable. intros p Hp.
  pose proof (touches_clients ca l st1 p) as Ht.
  assert (each (issue_client ca) l st1 = (st', Ok tt)) as Hl' by exact Hl. rewrite Hl' in Ht. apply Ht.
  intros (y & Hy & Hf). revert Hf. apply (other_client x); [|done]. by intros ->.
Qed.

(** A private CA that is in the directory. *)
Definition has_ca (st : St) : Prop := is_file st "ca.key" = true /\ is_file st "ca.pem" = true.
Definition has_server (st : St) : Prop := is_file st "server.pem" = true /\ is_file st "server.key" = true.

(** A name that stays inside the directory, on Unix and on Windows. *)
Definition one_component (name : string) : Prop :=
  name <> "" /\ BackupFiles.starts_with_dot name = false /\
  Forall (fun c => c <> "/"%char /\ c <> "\"%char /\ c <> ":"%char) (Text.bytes_of_string name).

Lemma sanitized_component name : sanitize_client_name name = Ok tt -> one_component name.
Proof.
  unfold sanitize_client_name. destruct (negb (_ && _ && _)) eqn:E; [done|]. intros _. bool_to_prop.
  split_and!; [by intros ->|done|]. rewrite Forall_forall. intros c Hc.
  match goal with H : forallb _ _ = true |- _ => rewrite forallb_forall in H; apply list_elem_of_In, H in Hc end.
  split_and!; by intros ->.
Qed.

Lemma reuse_ca_unchanged st : (prepare_ca true st).1 = st.
Proof.
  unfold prepare_ca, bind, demand. destruct (files st !! "ca.key" ≫= _) as [key|]; simpl; [|done].
  by destruct (sign make_ca_params key key).
Qed.

Lemma rerun_touches args st :
  force args = false -> has_ca st -> has_server st ->
  forall p, ~ clients_file (clients args) p -> files (run args st).1 !! p = files st !! p.
Proof.
  intros Hf [Hk Hp] [Hsp Hsk] p Hno. unfold run. destruct can_create; [|done]. rewrite Hf, Hk, Hp. simpl.
  unfold bind at 1. pose proof (reuse_ca_unchanged st) as Hca.
  destruct (prepare_ca true st) as [st1 [ca|e]]; simpl in Hca; subst st1; [|done].
  unfold bind, prepare_server. rewrite Hf, Hsp, Hsk. simpl. by apply touches_clients.
Qed.

(** A self-signed CA in the directory, its key private. *)
Definition holds_ca (fs : gmap string Node) (ca : string) : Prop :=
  exists cert, sign make_ca_params ca ca = Some cert /\ holds fs "ca.pem" cert /\ holds fs "ca.key" ca.

(** A server identity for the given hosts, signed by the CA key. *)
Definition holds_server (fs : gmap string Node) (ca : string) (hs : list string) : Prop :=
  exists names key cert, server_sans dns_name hs = Ok names /\ sign (server_params names) key ca = Some cert /\
    holds fs "server.pem" cert /\ holds fs "server.key" key.

Lemma prepare_ca_reused st st' ca :
  prepare_ca true st = (st', Ok ca) ->
  st' = st /\ exists n, files st !! "ca.key" = Some n /\ from_pem (content n) = Some ca.
Proof.
  intros H. pose proof (reuse_ca_unchanged st) as Hst. rewrite H in Hst. simpl in Hst. subst st'. split; [done|].
  unfold prepare_ca in H. apply bind_ok in H as (st1 & key & Hkey & H). apply demand_ok in Hkey as [-> Hkey].
  apply bind_ok in H as (st2 & cert & _ & H). apply bind_ok in H as (st3 & [] & _ & Hret).
  unfold ret in Hret. simplify_eq. destruct (files st !! "ca.key") as [n|]; [|done]. by exists n.
Qed.

Lemma prepare_ca_new st st' ca : prepare_ca false st = (st', Ok ca) -> holds_ca (files st') ca.
Proof.
  unfold prepare_ca. intros H. apply bind_ok in H as (st1 & key & _ & H).
  apply bind_ok in H as (st2 & cert & Hd & H). apply demand_ok in Hd as [-> Hsign].
  apply bind_ok in H as (st3 & [] & Hw & Hret). apply bind_ok in Hw as (st4 & [] & Hp & Hk).
  apply write_pem_ok in Hp as [Hpem _]. apply write_pem_ok in Hk as [Hkey Hsame].
  unfold ret in Hret. simplify_eq. exists cert. split_and!; [done| |done]. unfold holds in *. by rewrite Hsame.
Qed.

Lemma prepare_server_ok args reuse ca st st' :
  prepare_server args reuse ca st = (st', Ok tt) ->
  (forall p, p <> "server.pem" -> p <> "server.key" -> files st' !! p = files st !! p) /\
  (st' = st /\ force args = false /\ reuse = true /\ has_server st \/
   holds_server (files st') ca (hosts args)).
Proof.
  unfold prepare_server. destruct (negb (force args) && reuse && _ && _) eqn:Hkeep.
  { intros H. simplify_eq. bool_to_prop. split; [done|]. by left. }
  intros H. apply bind_ok in H as (st1 & key & Hg & H). apply bind_ok in H as (st2 & names & Hn & H).
  apply bind_ok in H as (st3 & cert & Hd & H). apply demand_ok in Hd as [-> Hsign]. unfold lift in Hn. simplify_eq.
  apply bind_ok in H as (st4 & [] & Hp & Hk). apply write_pem_ok in Hp as [Hpem Hs1]. apply write_pem_ok in Hk as [Hkey Hs2].
  split.
  - intros p Hne1 Hne2. rewrite Hs2, Hs1 by done. unfold generate in Hg. destruct (generated (drawn st)); by simplify_eq.
  - right. exists names, key, cert. split_and!; [done|done| |done]. unfold holds in *. by rewrite Hs2.
Qed.

(** Issuing to clients with other names keeps an identity of the directory. *)
Lemma clients_keep ca l name st st' p :
  each (issue_client ca) l st = (st', Ok tt) -> ~ name ∈ l -> client_file name p -> files st' !! p = files st !! p.
Proof.
  intros H Hn Hf. pose proof (touches_clients ca l st p) as Ht. rewrite H in Ht. apply Ht.
  intros (client & Hin & Hc). revert Hc. apply (other_client name); [|done]. by intros ->.
Qed.

(** C38: Reissuing is safe.  Without [--force] in a directory that holds a CA and a server identity,
    a run writes only the files of the clients it is asked for, whether it succeeds or fails,
    so the identities stay as they are unless a client is named after one of them.  When a run
    succeeds, every client has an acceptable name, a certificate signed by the CA key and a key
    that only its owner can read.  That CA key is the one of the directory: without [--force]
    the key it held before, otherwise the new one, which is then there with its self-signed
    certificate; and a server identity that was not kept is issued by it for the given hosts.
    Both stay in the directory unless a client is named after them. *)
Theorem reissue_safe args st st' r :
  run args st = (st', r) ->
  (force args = false -> has_ca st -> has_server st ->
   (forall p, ~ clients_file (clients args) p -> files st' !! p = files st !! p) /\
   (~ "ca" ∈ clients args -> ~ "server" ∈ clients args ->
    Forall (fun p => files st' !! p = files st !! p) ["ca.pem"; "ca.key"; "server.pem"; "server.key"])) /\
  (r = Ok tt -> exists ca,
     (force args = false -> has_ca st -> exists n, files st !! "ca.key" = Some n /\ from_pem (content n) = Some ca) /\
     (force args = true \/ ~ has_ca st -> ~ "ca" ∈ clients args -> holds_ca (files st') ca) /\
     (force args = true \/ ~ has_ca st \/ ~ has_server st -> ~ "server" ∈ clients args ->
      holds_server (files st') ca (hosts args)) /\
     forall client, client ∈ clients args ->
       one_component client /\ issued (files st') ca client).
Proof.
  intros Hrun. split.
  - intros Hf Hhas Hserver. pose proof (rerun_touches args st Hf Hhas Hserver) as Hkeep. rewrite Hrun in Hkeep. simpl in Hkeep.
    split; [done|]. intros Hca Hsrv.
    assert (forall name p, ~ name ∈ clients args -> client_file name p -> files st' !! p = files st !! p) as Hname.
    { intros name p Hn Hc. apply Hkeep. intros (client & Hin & Hc'). revert Hc'. apply (other_client name); [|done].
      by intros ->. }
    repeat constructor; [apply (Hname "ca")|apply (Hname "ca")|apply (Hname "server")|apply (Hname "server")]; try done;
      by left + by right.
  - intros ->. unfold run in Hrun. destruct can_create; [|done]. simpl in Hrun.
    set (reuse := negb (force args) && is_file st "ca.key" && is_file st "ca.pem") in *.
    assert (reuse = true <-> force args = false /\ has_ca st) as Hreuse.
    { unfold reuse, has_ca. destruct (force args), (is_file st "ca.key"), (is_file st "ca.pem"); simpl; intuition congruence. }
    clearbody reuse.
    apply bind_ok in Hrun as (st1 & ca & Hca & Hrun). apply bind_ok in Hrun as (st2 & [] & Hsrv & Hclients).
    apply prepare_server_ok in Hsrv as [Hother Hserver].
    exists ca. split_and!.
    + intros Hf Hhas. rewrite (proj2 Hreuse (conj Hf Hhas)) in Hca. by apply prepare_ca_reused in Hca as [_ ?].
    + intros Hnew Hn. assert (reuse = false) as Hr by (apply not_true_is_false; rewrite Hreuse; intros [? ?]; by destruct Hnew as [?|[]]; [congruence|]). rewrite Hr in Hca.
      apply prepare_ca_new in Hca as (cert & Hs & Hp & Hk). exists cert. unfold holds in *.
      rewrite (clients_keep _ _ "ca" _ _ "ca.pem" Hclients Hn (or_introl eq_refl)),
        (clients_keep _ _ "ca" _ _ "ca.key" Hclients Hn (or_intror eq_refl)), !Hother by done. done.
    + intros Hnew Hn. destruct Hserver as [(-> & Hf & Hr & Hhas)|(names & key & cert & Hns & Hs & Hp & Hk)].
      * exfalso. rewrite Hr in Hca. apply Hreuse in Hr as [_ Hca']. apply prepare_ca_reused in Hca as [-> _].
        destruct Hnew as [?|[?|?]]; congruence || done.
      * exists names, key, cert. unfold holds in *.
        rewrite (clients_keep _ _ "server" _ _ "server.pem" Hclients Hn (or_introl eq_refl)),
          (clients_keep _ _ "server" _ _ "server.key" Hclients Hn (or_intror eq_refl)). done.
    + intros client Hin. destruct (each_issues ca _ _ _ Hclients client Hin) as [Hs Hi].
      split; [by apply sanitized_component|done].
Qed.

End gen.

(** ** Properties of the subject names *)

Lemma contains_spec l x : contains l x = true <-> x ∈ l.
Proof.
  unfold contains. rewrite existsb_exists. setoid_rewrite String.eqb_eq. setoid_rewrite <- list_elem_of_In. naive_solver.
Qed.

(** The name a client dials is covered: an address by its own entry, another name as a DNS name. *)
Definition covered (names : list San) (host : string) : Prop :=
  match parse_ip host with Some ip => IpAddress ip ∈ names | None => DnsName host ∈ names end.

Lemma server_sans_cover dns_name hs names :
  server_sans dns_name hs = Ok names ->
  Forall (covered names) hs /\ Forall (covered names) ["localhost"; "127.0.0.1"; "::1"].
Proof.
  unfold server_sans. destruct (collect_result (host_san dns_name) hs) as [given|] eqn:Eg; [|done]. intros H.
  assert (forall host, host ∈ hs -> covered given host) as Hgiven.
  { intros host Hh. destruct (collect_result_each _ _ _ _ Eg Hh) as (y & Hy & Hin). unfold host_san in Hy. unfold covered.
    destruct (parse_ip host); [by simplify_eq|]. destruct (dns_name host); by simplify_eq. }
  assert (forall host rest, covered given host -> covered (given ++ rest) host) as Hmore.
  { intros host rest. unfold covered. destruct (parse_ip host); intros; apply elem_of_app; by left. }
  destruct (if contains hs "localhost" then _ else _) as [named|] eqn:En; [|done]. simplify_eq.
  split; [rewrite Forall_forall; intros; by apply Hmore, Hgiven|].
  pose proof (contains_spec hs) as Hc. repeat constructor.
  - destruct (contains hs "localhost") eqn:E; [apply Hmore, Hgiven, Hc, E|]. destruct (dns_name "localhost"); [|done].
    simplify_eq. change (DnsName "localhost" ∈ given ++ [DnsName "localhost"] ++
      (if contains hs "127.0.0.1" then [] else [IpAddress LOOPBACK_V4]) ++ (if contains hs "::1" then [] else [IpAddress LOOPBACK_V6])).
    rewrite !elem_of_app. right. left. by left.
  - destruct (contains hs "127.0.0.1") eqn:E; [apply Hmore, Hgiven, Hc, E|]. change (IpAddress LOOPBACK_V4 ∈ given ++ named ++
      [IpAddress LOOPBACK_V4] ++ (if contains hs "::1" then [] else [IpAddress LOOPBACK_V6])).
    rewrite !elem_of_app. right. right. left. by left.
  - destruct (contains hs "::1") eqn:E; [apply Hmore, Hgiven, Hc, E|]. change (IpAddress LOOPBACK_V6 ∈ given ++ named ++
      (if contains hs "127.0.0.1" then [] else [IpAddress LOOPBACK_V4]) ++ [IpAddress LOOPBACK_V6]).
    rewrite !elem_of_app. right. right. right. by left.
Qed.

(** ** A directory in use *)

Definition demo_pem (tag : string) : Node := {| content := tag; mode := 420 |}.

Definition demo_st : St :=
  {| files := <["ca.pem" := demo_pem "ca cert"]> (<["ca.key" := demo_pem "ca key"]>
              (<["server.pem" := demo_pem "server cert"]> (<["server.key" := demo_pem "server key"]> ∅)));
     drawn := 0 |}.

Definition demo_sign (p : Params) (key issuer : string) : option string :=
  Some (String.append (common_name p) (String.append " signed by " issuer)).

Definition demo_run : GenCertsArgs -> M unit :=
  run true (fun _ => true) (fun _ => true) 420 (fun _ => Some "new key") Some (fun _ => true) demo_sign.

Definition demo_args (names : list string) : GenCertsArgs :=
  {| hosts := ["localhost"]; clients := names; out_dir := "certs"; force := false |}.

Lemma reissue_safe_witness :
  exists st', demo_run (demo_args ["collector.b"]) demo_st = (st', Ok tt) /\
    files st' !! "ca.key" = Some (demo_pem "ca key") /\ issued demo_sign (files st') "ca key" "collector.b".
Proof.
  destruct (demo_run (demo_args ["collector.b"]) demo_st) as [st' r] eqn:Hrun.
  destruct (reissue_safe _ _ _ _ _ _ _ _ _ _ _ _ Hrun) as [Hkeep Hissued].
  assert (r = Ok tt) as -> by (apply (f_equal snd) in Hrun; by vm_compute in Hrun).
  exists st'. split; [reflexivity|]. split.
  - destruct Hkeep as [_ Hsame]; [reflexivity|split; reflexivity|split; reflexivity|].
    specialize (Hsame ltac:(set_solver) ltac:(set_solver)). rewrite !Forall_cons in Hsame. apply Hsame.
  - destruct Hissued as (ca & Hca & _ & _ & Hclients); [reflexivity|]. destruct Hca as (n & Hn & Hkey); [reflexivity|split; reflexivity|].
    assert (ca = "ca key") as ->.
    { vm_compute in Hn. injection Hn as <-. vm_compute in Hkey. congruence. }
    apply Hclients. by left.
Defined.

(** A client named [ca] passes the name check and replaces the CA. *)
Lemma client_named_ca_replaces_ca :
  sanitize_client_name "ca" = Ok tt /\
  (demo_run (demo_args ["ca"]) demo_st).2 = Ok tt /\
  content <$> files (demo_run (demo_args ["ca"]) demo_st).1 !! "ca.key" = Some "new key".
Proof. split_and!; vm_compute; reflexivity. Qed.

(** A name that is refused is refused after the CA and the server certificate were signed and written. *)
Lemma bad_client_after_signing :
  (demo_run (demo_args ["../evil"]) {| files := ∅; drawn := 0 |}).2 = Err (InvalidClient "../evil") /\
  content <$> files (demo_run (demo_args ["../evil"]) {| files := ∅; drawn := 0 |}).1 !! "ca.key" = Some "new key".
Proof. split; vm_compute; reflexivity. Qed.

End GenCerts.
