(* ===== verification/Probe.v ===== *)
(** * The health check command ([crates/otel-sqlite/src/healthcheck.rs])

    The container probe: it loads the configuration like the server, derives the
    address to dial and the name to verify, and asks the health service.  The
    network, the environment and the file system answer through arguments. *)

From S2P Require Import Prelude Time Model Text Render Command Net Scheduler Watchdog Config BackupFiles Permissions GenCerts.

Module Probe.

Local Open Scope string_scope.
Local Open Scope list_scope.

(** ** The address *)

(** The host and port of [derive_healthcheck_endpoint]. *)
Definition dial_target (c : Config.Config) : string :=
  let listen := Text.trim (Config.listen_address c) in
  match BackupFiles.strip_prefix ":" listen with
  | Some port => String.append "127.0.0.1:" port
  | None =>
      match BackupFiles.strip_prefix "0.0.0.0:" listen with
      | Some rest => String.append "127.0.0.1:" rest
      | None =>
          match BackupFiles.strip_prefix "[::]:" listen with
          | Some rest => String.append "127.0.0.1:" rest
          | None => listen
          end
      end
  end.

Definition derive_healthcheck_endpoint (c : Config.Config) : string :=
  let scheme := match Config.tls c with None => "http" | Some _ => "https" end in
  String.append scheme (String.append "://" (dial_target c)).

(** [str::trim_start_matches]: the prefix as often as it occurs. *)
Definition trim_start_matches (prefix : string) (l : list ascii) : list ascii :=
  Text.strip_all (length l) [Text.bytes_of_string prefix] l.

(** [str::split(c).next()]. *)
Fixpoint before (c : ascii) (l : list ascii) : list ascii :=
  match l with
  | [] => []
  | x :: l' => if Ascii.eqb x c then [] else x :: before c l'
  end.

Definition healthcheck_domain_name (endpoint : string) : string :=
  let host_port := trim_start_matches "http://" (trim_start_matches "https://" (Text.bytes_of_string endpoint)) in
  match Text.strip_prefix ["["%char] host_port with
  | Some bracketed => Text.string_of_bytes (before "]" bracketed)
  | None => Text.string_of_bytes (before ":" host_port)
  end.

(** ** TLS *)

Record ProbeTls := {
  ca_pem : string;
  domain_name : string;
  identity : option (string * string);
}.

(** The path up to and including its last separator. *)
Fixpoint directory (l : list ascii) : list ascii :=
  match l with
  | [] => []
  | c :: l' => match directory l' with
               | [] => if Ascii.eqb c "/" then [c] else []
               | d => c :: d
               end
  end.

(** [Path::with_file_name], for the path of a file. *)
Definition with_file_name (path name : string) : string :=
  String.append (Text.string_of_bytes (directory (Text.bytes_of_string path))) name.

Definition build_probe_tls (read : string -> option string) (is_file : string -> bool) (c : Config.Config) (endpoint : string) : option ProbeTls :=
  tls ← Config.tls c;
  let sibling := with_file_name (Config.cert tls) "ca.pem" in
  let ca_path := match Config.client_ca tls with
                 | Some path => path
                 | None => if is_file sibling then sibling else Config.cert tls
                 end in
  ca ← read ca_path;
  match Config.client_ca tls with
  | Some _ =>
      cert ← read (Config.cert tls);
      key ← read (Config.key tls);
      Some {| ca_pem := ca; domain_name := healthcheck_domain_name endpoint; identity := Some (cert, key) |}
  | None => Some {| ca_pem := ca; domain_name := healthcheck_domain_name endpoint; identity := None |}
  end.

(** ** The probe *)

Inductive ServingStatus := Unknown | Serving | NotServing | ServiceUnknown.

(** [ServingStatus::try_from(status).unwrap_or(Unknown)]. *)
Definition status_of_code (code : Z) : ServingStatus :=
  if (code =? 1)%Z then Serving else if (code =? 2)%Z then NotServing
  else if (code =? 3)%Z then ServiceUnknown else Unknown.

Inductive ProbeError := NoTlsConfig | Unreachable.

(** The transport answers with the status code of the response to a check of the overall service. *)
Definition probe_health (dial : string -> option ProbeTls -> option Z) (endpoint : string) (tls : option ProbeTls)
    : result ProbeError ServingStatus :=
  let answer t := match dial endpoint t with Some code => Ok (status_of_code code) | None => Err Unreachable end in
  if bool_decide (is_Some (BackupFiles.strip_prefix "https://" endpoint)) then
    match tls with
    | None => Err NoTlsConfig
    | Some t => answer (Some t)
    end
  else answer None.

(** [run_healthcheck]: the exit status.  [override] is [OTEL_SQLITE_HEALTHCHECK_ENDPOINT]. *)
Definition run_healthcheck (loaded : result Config.ConfigError Config.Config) (override : option string)
    (read : string -> option string) (is_file : string -> bool) (dial : string -> option ProbeTls -> option Z) : N :=
  let c := match loaded with Ok c => c | Err _ => Config.Config_default end in
  let endpoint := match override with
                  | Some e => if Text.is_empty (Text.trim e) then derive_healthcheck_endpoint c else e
                  | None => derive_healthcheck_endpoint c
                  end in
  match probe_health dial endpoint (build_probe_tls read is_file c endpoint) with
  | Ok Serving => 0
  | Ok _ | Err _ => 1
  end.

(** ** What the address parser reads

    Every character of an address is printable ASCII, so trimming one changes nothing. *)

Definition printable (c : ascii) : Prop := (33 <= N_of_ascii c <= 126)%N.

#[export] Instance printable_dec c : Decision (printable c).
Proof. unfold printable. apply _. Defined.

Definition eaten (l l' : list ascii) : Prop := exists p, l = p ++ l' /\ Forall printable p.

#[export] Instance eaten_preorder : PreOrder eaten.
Proof.
  split.
  - intros l. exists []. split; [done|constructor].
  - intros l1 l2 l3 (p & -> & Hp) (q & -> & Hq). exists (p ++ q). rewrite <- app_assoc. split; [done|by apply Forall_app].
Qed.

Lemma eaten_cons c l l' : printable c -> eaten l l' -> eaten (c :: l) l'.
Proof. intros Hc (p & -> & Hp). exists (c :: p). split; [done|by constructor]. Qed.

Lemma to_digit_printable radix c d : Net.to_digit radix c = Some d -> printable c.
Proof.
  unfold Net.to_digit, printable. intros H. repeat case_match; simplify_eq; bool_to_prop; lia.
Qed.

Lemma read_digits_eaten radix limit max : forall l count acc c v rest,
  Net.read_digits radix limit max count acc l = Some (c, v, rest) -> eaten l rest.
Proof.
  induction l as [|x l IH]; intros count acc c v rest H; simpl in H; [by simplify_eq|].
  destruct (Net.to_digit radix x) eqn:E; [|by simplify_eq].
  destruct (_ <? _)%N; [done|]. destruct (match max with Some m => _ | None => _ end); [done|].
  apply eaten_cons; [by eapply to_digit_printable|by eapply IH].
Qed.

Lemma read_number_eaten radix limit max z l v rest : Net.read_number radix limit max z l = Some (v, rest) -> eaten l rest.
Proof.
  unfold Net.read_number. destruct (Net.read_digits _ _ _ _ _ l) as [[[c v'] r]|] eqn:E; [|done]. intros H.
  repeat case_match; simplify_eq; by eapply read_digits_eaten.
Qed.

Lemma read_char_eaten c l x rest : printable c -> Net.read_given_char c l = Some (x, rest) -> eaten l rest.
Proof.
  intros Hc. destruct l as [|y l]; simpl; [done|]. destruct (Ascii.eqb_spec y c) as [->|]; [|done].
  intros. simplify_eq. by apply eaten_cons.
Qed.

Lemma read_separator_eaten {A} sep i (r : Net.Reader A) l x rest :
  printable sep -> (forall l x rest, r l = Some (x, rest) -> eaten l rest) ->
  Net.read_separator sep i r l = Some (x, rest) -> eaten l rest.
Proof.
  intros Hs Hr. unfold Net.read_separator. destruct (0 <? i)%nat; [|apply Hr].
  destruct (Net.read_given_char sep l) as [[u l']|] eqn:E; [|done]. intros H.
  etrans; [by eapply read_char_eaten|by eapply Hr].
Qed.

Lemma read_octets_eaten k : forall i l os rest, Net.read_octets k i l = Some (os, rest) -> eaten l rest.
Proof.
  induction k as [|k IH]; intros i l os rest; cbn [Net.read_octets]; [intros; by simplify_eq|].
  destruct (Net.read_separator _ _ _ l) as [[o l']|] eqn:E; [|done].
  destruct (Net.read_octets k (S i) l') as [[os' r]|] eqn:E'; [|done]. intros. simplify_eq.
  etrans; [|by eapply IH]. eapply read_separator_eaten; [| |exact E]; [by vm_compute|]. intros *. apply read_number_eaten.
Qed.

Lemma read_groups_eaten k : forall limit i gs l gs' v4 rest,
  Net.read_groups k limit i gs l = (gs', v4, rest) -> eaten l rest.
Proof.
  induction k as [|k IH]; intros limit i gs l gs' v4 rest; cbn [Net.read_groups]; [intros; by simplify_eq|].
  assert (forall gs' v4 rest,
    match Net.read_separator ":" i (Net.read_number 16 65535 (Some 4) true) l with
    | Some (group, rest) => Net.read_groups k limit (S i) (gs ++ [group]) rest
    | None => (gs, false, l)
    end = (gs', v4, rest) -> eaten l rest) as Hnumber.
  { intros *. destruct (Net.read_separator _ _ _ l) as [[g l']|] eqn:E; [|intros; by simplify_eq]. intros H.
    etrans; [|by eapply IH]. eapply read_separator_eaten; [| |exact E]; [by vm_compute|]. intros *. apply read_number_eaten. }
  destruct (i <? limit - 1)%nat; [|apply Hnumber].
  destruct (Net.read_separator ":" i Net.read_ipv4_addr l) as [[os l']|] eqn:E; [|apply Hnumber].
  apply read_separator_eaten in E; [|by vm_compute|intros *; apply read_octets_eaten].
  destruct os as [|a [|b [|c [|d []]]]]; try apply Hnumber. intros. by simplify_eq.
Qed.

Lemma read_ipv6_eaten l gs rest : Net.read_ipv6_addr l = Some (gs, rest) -> eaten l rest.
Proof.
  unfold Net.read_ipv6_addr. destruct (Net.read_groups 8 8 0 [] l) as [[head v4] l1] eqn:Eh.
  apply read_groups_eaten in Eh. destruct (_ =? _)%nat; [intros; by simplify_eq|]. destruct v4; [done|].
  destruct (Net.read_given_char ":" l1) as [[[] l2]|] eqn:E1; [|done]. apply read_char_eaten in E1; [|by vm_compute].
  destruct (Net.read_given_char ":" l2) as [[[] l3]|] eqn:E2; [|done]. apply read_char_eaten in E2; [|by vm_compute].
  destruct (Net.read_groups _ _ 0 [] l3) as [[tail v4] l4] eqn:Et. apply read_groups_eaten in Et.
  intros. simplify_eq. by rewrite Eh, E1, E2.
Qed.

Lemma read_port_eaten l p rest : Net.read_port l = Some (p, rest) -> eaten l rest.
Proof.
  unfold Net.read_port. destruct (Net.read_given_char ":" l) as [[[] l']|] eqn:E; [|done].
  apply read_char_eaten in E; [|by vm_compute]. intros H. apply read_number_eaten in H. by rewrite E.
Qed.

Lemma read_scope_eaten l p rest : Net.read_scope_id l = Some (p, rest) -> eaten l rest.
Proof.
  unfold Net.read_scope_id. destruct (Net.read_given_char "%" l) as [[[] l']|] eqn:E; [|done].
  apply read_char_eaten in E; [|by vm_compute]. intros H. apply read_number_eaten in H. by rewrite E.
Qed.

Lemma parsed_printable s a : Net.parse_socket_addr s = Some a -> Forall printable (Text.bytes_of_string s).
Proof.
  unfold Net.parse_socket_addr. generalize (Text.bytes_of_string s). intros l H.
  assert (forall l, eaten l [] -> Forall printable l) as Hall by (intros ? (p & -> & ?); by rewrite app_nil_r).
  apply Hall. clear Hall. destruct (Net.read_socket_addr_v4 l) as [[a4 [|]]|] eqn:E4; [|done|].
  - revert E4. unfold Net.read_socket_addr_v4. destruct (Net.read_ipv4_addr l) as [[os l1]|] eqn:Eo; [|done].
    destruct (Net.read_port l1) as [[p l2]|] eqn:Ep; [|done]. intros. simplify_eq.
    apply read_octets_eaten in Eo. apply read_port_eaten in Ep. by rewrite Eo.
  - destruct (Net.read_socket_addr_v6 l) as [[a6 [|]]|] eqn:E6; [|done..].
    revert E6. unfold Net.read_socket_addr_v6.
    destruct (Net.read_given_char "[" l) as [[[] l1]|] eqn:E1; [|done]. apply read_char_eaten in E1; [|by vm_compute].
    destruct (Net.read_ipv6_addr l1) as [[gs l2]|] eqn:Eg; [|done]. apply read_ipv6_eaten in Eg.
    set (l3 := match Net.read_scope_id l2 with Some (_, rest) => rest | None => l2 end).
    assert (eaten l2 l3) as Hs by (unfold l3; destruct (Net.read_scope_id l2) as [[]|] eqn:E; [by eapply read_scope_eaten|done]).
    destruct (Net.read_given_char "]" l3) as [[[] l4]|] eqn:E3; [|done]. apply read_char_eaten in E3; [|by vm_compute].
    destruct (Net.read_port l4) as [[p l5]|] eqn:Ep; [|done]. apply read_port_eaten in Ep. intros. simplify_eq.
    by rewrite E1, Eg, Hs, E3.
Qed.

(** ** Trimming *)

(** A pattern no printable text starts with. *)
Definition foreign (p : list ascii) : bool :=
  match p with c :: _ => negb (bool_decide (printable c)) | [] => false end.

Lemma strip_one_none (patterns : list (list ascii)) (l : list ascii) :
  forallb foreign patterns = true ->
  match l with c :: _ => printable c | [] => True end -> Text.strip_one patterns l = None.
Proof.
  intros Hp Hl. unfold Text.strip_one.
  assert (list_find (fun p => is_Some (Text.strip_prefix p l)) patterns = None) as ->; [|done].
  apply list_find_None, Forall_forall. intros p Hin. rewrite forallb_forall in Hp. apply list_elem_of_In, Hp in Hin.
  destruct p as [|c p]; [done|]. simpl in *. apply negb_true_iff, bool_decide_eq_false in Hin.
  destruct l as [|x l]; [by intros []|]. destruct (Ascii.eqb_spec c x) as [->|]; [done|by intros []].
Qed.

Lemma strip_all_none fuel patterns l : Text.strip_one patterns l = None -> Text.strip_all fuel patterns l = l.
Proof. destruct fuel; [done|]. simpl. by intros ->. Qed.

Lemma trim_printable s : Forall printable (Text.bytes_of_string s) -> Text.trim s = s.
Proof.
  intros H. unfold Text.trim. assert (Text.trim_start_bytes (Text.bytes_of_string s) = Text.bytes_of_string s) as ->.
  { apply strip_all_none, strip_one_none; [by vm_compute|].
    destruct (Text.bytes_of_string s); [done|]. by apply Forall_cons in H as [? _]. }
  assert (Text.trim_end_bytes (Text.bytes_of_string s) = Text.bytes_of_string s) as ->; [|apply BackupFiles.string_of_bytes_of].
  unfold Text.trim_end_bytes. apply Forall_reverse in H.
  rewrite strip_all_none; [apply reverse_involutive|]. apply strip_one_none; [by vm_compute|].
  destruct (reverse (Text.bytes_of_string s)); [done|]. by apply Forall_cons in H as [? _].
Qed.

(** ** The address that is dialled *)

(** An address after a fixed host: only the port is left to read. *)
Definition port_only (ip : Net.IpAddr) (l : list ascii) : option Net.SocketAddr :=
  match Net.read_port l with
  | Some (p, []) => Some {| Net.ip := ip; Net.port := p |}
  | _ => None
  end.

Lemma parse_fixed_v4 host octets rest :
  Net.read_ipv4_addr (Text.bytes_of_string (String.append host ":") ++ Text.bytes_of_string rest) =
    Some (octets, ":"%char :: Text.bytes_of_string rest) ->
  Net.read_socket_addr_v6 (Text.bytes_of_string (String.append host ":") ++ Text.bytes_of_string rest) = None ->
  Net.parse_socket_addr (String.append (String.append host ":") rest) =
    port_only (Net.V4 octets) (":"%char :: Text.bytes_of_string rest).
Proof.
  intros H4 H6. unfold Net.parse_socket_addr, port_only. rewrite BackupFiles.bytes_app, H6.
  unfold Net.read_socket_addr_v4. rewrite H4. by destruct (Net.read_port _) as [[p [|]]|].
Qed.

Lemma parse_wildcard_v4 rest :
  Net.parse_socket_addr (String.append "0.0.0.0:" rest) =
  port_only (Net.V4 [0; 0; 0; 0]%N) (":"%char :: Text.bytes_of_string rest).
Proof. by apply (parse_fixed_v4 "0.0.0.0"). Qed.

Lemma parse_loopback rest :
  Net.parse_socket_addr (String.append "127.0.0.1:" rest) =
  port_only GenCerts.LOOPBACK_V4 (":"%char :: Text.bytes_of_string rest).
Proof. by apply (parse_fixed_v4 "127.0.0.1"). Qed.

Lemma parse_wildcard_v6 rest :
  Net.parse_socket_addr (String.append "[::]:" rest) =
  port_only (Net.V6 [0; 0; 0; 0; 0; 0; 0; 0]%N) (":"%char :: Text.bytes_of_string rest).
Proof.
  unfold Net.parse_socket_addr, port_only. rewrite BackupFiles.bytes_app.
  assert (Net.read_socket_addr_v4 (Text.bytes_of_string "[::]:" ++ Text.bytes_of_string rest) = None) as -> by reflexivity.
  assert (Net.read_socket_addr_v6 (Text.bytes_of_string "[::]:" ++ Text.bytes_of_string rest) =
    match Net.read_port (":"%char :: Text.bytes_of_string rest) with
    | Some (p, r) => Some ({| Net.ip := Net.V6 [0; 0; 0; 0; 0; 0; 0; 0]%N; Net.port := p |}, r)
    | None => None
    end) as -> by reflexivity.
  by destruct (Net.read_port _) as [[p [|]]|].
Qed.

Lemma port_only_ip ip ip' l a :
  port_only ip l = Some a -> Net.ip a = ip /\ port_only ip' l = Some {| Net.ip := ip'; Net.port := Net.port a |}.
Proof. unfold port_only. destruct (Net.read_port l) as [[p [|]]|]; intros; by simplify_eq. Qed.

Lemma strip_prefix_some p s rest : BackupFiles.strip_prefix p s = Some rest -> s = String.append p rest.
Proof.
  assert (forall p l r, Text.strip_prefix p l = Some r -> l = p ++ r) as Hbytes.
  { intros q. induction q as [|x q IH]; intros l r H; simpl in H; [by simplify_eq|]. destruct l as [|y l]; [done|].
    destruct (Ascii.eqb_spec x y) as [->|]; [|done]. simpl. f_equal. by apply IH. }
  unfold BackupFiles.strip_prefix. intros H. apply fmap_Some in H as (r & Hr & ->). apply Hbytes in Hr.
  rewrite <- (BackupFiles.string_of_bytes_of s), Hr, <- (BackupFiles.string_of_bytes_of (String.append p _)).
  rewrite BackupFiles.bytes_app. f_equal. f_equal. unfold Text.bytes_of_string, Text.string_of_bytes.
  by rewrite String.list_ascii_of_string_of_list_ascii.
Qed.

Lemma expand_spec s :
  Net.expand_bind_address s =
  match BackupFiles.strip_prefix ":" s with Some _ => String.append "0.0.0.0" s | None => s end.
Proof. destruct s as [|[[][][][][][][][]] s]; reflexivity. Qed.

Lemma listen_printable s a : Net.bind_address s = Some a -> Forall printable (Text.bytes_of_string s).
Proof.
  unfold Net.bind_address. intros H. apply parsed_printable in H. rewrite expand_spec in H.
  destruct (BackupFiles.strip_prefix ":" s); [|done]. rewrite BackupFiles.bytes_app in H. by apply Forall_app in H as [_ H].
Qed.

(** The target is where the server listens, or the loopback address of the same port behind a wildcard. *)
Definition reaches (listener target : Net.SocketAddr) : Prop :=
  Net.port target = Net.port listener /\
  (Net.ip target = Net.ip listener \/ Net.is_unspecified (Net.ip listener) = true /\ Net.ip target = GenCerts.LOOPBACK_V4).

Lemma wildcard_reaches wild rest a :
  port_only wild (":"%char :: Text.bytes_of_string rest) = Some a -> Net.is_unspecified wild = true ->
  exists b, Net.parse_socket_addr (String.append "127.0.0.1:" rest) = Some b /\ reaches a b.
Proof.
  intros Ha Hw. apply (port_only_ip _ GenCerts.LOOPBACK_V4) in Ha as [Hip Hb]. rewrite parse_loopback.
  eexists. split; [exact Hb|]. split; [done|]. right. by rewrite Hip.
Qed.

Lemma dial_target_reaches c a :
  Net.bind_address (Config.listen_address c) = Some a ->
  exists b, Net.parse_socket_addr (dial_target c) = Some b /\ reaches a b.
Proof.
  intros Ha. pose proof (trim_printable _ (listen_printable _ _ Ha)) as Htrim. unfold dial_target. rewrite Htrim.
  revert Ha. generalize (Config.listen_address c). intros listen Ha. unfold Net.bind_address in Ha. rewrite expand_spec in Ha.
  destruct (BackupFiles.strip_prefix ":" listen) as [rest|] eqn:E1.
  { apply strip_prefix_some in E1. subst listen. rewrite <- BackupFiles.append_assoc in Ha.
    change (String.append "0.0.0.0" ":") with "0.0.0.0:" in Ha. rewrite parse_wildcard_v4 in Ha. by eapply wildcard_reaches. }
  destruct (BackupFiles.strip_prefix "0.0.0.0:" listen) as [rest|] eqn:E2.
  { apply strip_prefix_some in E2. subst listen. rewrite parse_wildcard_v4 in Ha. by eapply wildcard_reaches. }
  destruct (BackupFiles.strip_prefix "[::]:" listen) as [rest|] eqn:E3.
  { apply strip_prefix_some in E3. subst listen. rewrite parse_wildcard_v6 in Ha. by eapply wildcard_reaches. }
  exists a. split; [done|]. split; [done|by left].
Qed.

(** ** The name that is verified *)

(** The spellings of a local listen address that every certificate of
    [gen-certs] covers: the three wildcards the probe rewrites and the two
    loopback addresses.  Other loopback addresses, and wildcards spelled another
    way, are verified under the name they are written with. *)
Definition LOCAL_BINDS : list string := [":"; "0.0.0.0:"; "[::]:"; "127.0.0.1:"; "[::1]:"].

Lemma domain_name_loopback scheme rest :
  scheme = "http" \/ scheme = "https" ->
  healthcheck_domain_name (String.append scheme (String.append "://" (String.append "127.0.0.1:" rest))) = "127.0.0.1" /\
  healthcheck_domain_name (String.append scheme (String.append "://" (String.append "[::1]:" rest))) = "::1".
Proof. intros [->| ->]; split; reflexivity. Qed.

Lemma local_target prefix rest c a :
  prefix ∈ LOCAL_BINDS -> Config.listen_address c = String.append prefix rest ->
  Net.bind_address (Config.listen_address c) = Some a ->
  dial_target c = String.append "127.0.0.1:" rest \/ dial_target c = String.append "[::1]:" rest.
Proof.
  intros Hp Hl Ha. unfold dial_target. rewrite (trim_printable _ (listen_printable _ _ Ha)), Hl.
  unfold LOCAL_BINDS in Hp. rewrite !elem_of_cons in Hp. destruct Hp as [->|[->|[->|[->|[->|Hp]]]]].
  - left. by rewrite BackupFiles.strip_prefix_append.
  - left. change (BackupFiles.strip_prefix ":" (String.append "0.0.0.0:" rest)) with (@None string).
    by rewrite BackupFiles.strip_prefix_append.
  - left. change (BackupFiles.strip_prefix ":" (String.append "[::]:" rest)) with (@None string).
    change (BackupFiles.strip_prefix "0.0.0.0:" (String.append "[::]:" rest)) with (@None string).
    by rewrite BackupFiles.strip_prefix_append.
  - left. reflexivity.
  - right. reflexivity.
  - by apply not_elem_of_nil in Hp.
Qed.

Lemma serving_code o :
  match (match o with Some code => Ok (status_of_code code) | None => Err Unreachable end) with
  | Ok Serving => 0 | Ok _ | Err _ => 1
  end%N = 0%N <-> o = Some 1%Z.
Proof.
  destruct o as [code|]; [|done]. unfold status_of_code. destruct (Z.eqb_spec code 1) as [->|]; [done|].
  split; [|congruence]. by repeat case_match.
Qed.

Lemma probe_exit c read is_file dial :
  let endpoint := derive_healthcheck_endpoint c in
  let tls := build_probe_tls read is_file c endpoint in
  run_healthcheck (Ok c) None read is_file dial = 0%N <->
  dial endpoint tls = Some 1%Z /\ (is_Some tls <-> is_Some (Config.tls c)).
Proof.
  intros endpoint tls. unfold run_healthcheck, probe_health. fold endpoint. fold tls.
  destruct (Config.tls c) as [t|] eqn:Et.
  - assert (BackupFiles.strip_prefix "https://" endpoint = Some (dial_target c)) as ->.
    { unfold endpoint, derive_healthcheck_endpoint. rewrite Et. exact (BackupFiles.strip_prefix_append "https://" (dial_target c)). }
    rewrite bool_decide_eq_true_2 by eauto. destruct tls as [p|].
    + rewrite serving_code. split; [|tauto]. intros. split; [done|]. by split; eauto.
    + split; [done|]. intros [_ [_ H]]. by destruct (H ltac:(eauto)).
  - assert (BackupFiles.strip_prefix "https://" endpoint = None) as ->.
    { unfold endpoint, derive_healthcheck_endpoint. by rewrite Et. }
    rewrite bool_decide_eq_false_2 by (by intros []). unfold tls, build_probe_tls. rewrite Et. simpl.
    rewrite serving_code. split; [|by intros [? _]]. intros ?. split; [done|]. split; by intros [].
Qed.

(** C39: The probe asks the server that runs, under a name its certificate carries.  With the
    configuration the server loads, the derived endpoint is the listener's own address, or the
    loopback address of the same port behind a wildcard; the probe exits with zero exactly when
    the transport answers SERVING there, over TLS exactly when the server speaks it.  The
    verified name is among the subject names of a server certificate that [gen-certs] issues
    when the address is written as [:port], [0.0.0.0:port], [[::]:port], [127.0.0.1:port] or
    [[::1]:port], and otherwise when the certificate was issued for it. *)
Theorem probe_asks_server c a read is_file dial dns_name hosts names :
  Net.bind_address (Config.listen_address c) = Some a -> GenCerts.server_sans dns_name hosts = Ok names ->
  let endpoint := derive_healthcheck_endpoint c in
  let tls := build_probe_tls read is_file c endpoint in
  (exists b, Net.parse_socket_addr (dial_target c) = Some b /\ reaches a b) /\
  (run_healthcheck (Ok c) None read is_file dial = 0%N <->
   dial endpoint tls = Some 1%Z /\ (is_Some tls <-> is_Some (Config.tls c))) /\
  (forall prefix rest, prefix ∈ LOCAL_BINDS -> Config.listen_address c = String.append prefix rest ->
     GenCerts.covered names (healthcheck_domain_name endpoint)) /\
  (healthcheck_domain_name endpoint ∈ hosts -> GenCerts.covered names (healthcheck_domain_name endpoint)).
Proof.
  intros Ha Hsans endpoint tls. split; [by apply dial_target_reaches|]. split; [apply probe_exit|]. split.
  2: { intros Hin. destruct (GenCerts.server_sans_cover _ _ _ Hsans) as [Hcov _]. rewrite Forall_forall in Hcov.
       by apply Hcov. }
    intros prefix rest Hp Hl. destruct (GenCerts.server_sans_cover _ _ _ Hsans) as [_ Hcov].
    rewrite !Forall_cons in Hcov. destruct Hcov as (_ & H4 & H6 & _). unfold endpoint, derive_healthcheck_endpoint.
    destruct (domain_name_loopback (match Config.tls c with None => "http" | Some _ => "https" end) rest) as [E4 E6];
      [destruct (Config.tls c); auto|].
    destruct (local_target _ _ _ _ Hp Hl Ha) as [->| ->]; [by rewrite E4|by rewrite E6].
Qed.

(** ** A container behind mutual TLS *)

Definition demo_config : Config.Config :=
  {| Config.listen_address := "[::]:4317"; Config.sqlite_path := "otel-logs.db"; Config.ingest_queue_capacity := 1;
     Config.command_queue_capacity := 1; Config.batcher_max_batch_records := 1; Config.batcher_max_batch_age := 1;
     Config.grpc_max_recv_msg_size := 1024; Config.grpc_max_concurrent_streams := 1; Config.mapping_concurrency := 1;
     Config.max_records_per_request := 1; Config.max_attributes_per_record := 1; Config.max_attribute_key_bytes := 1;
     Config.max_attribute_value_bytes := 1; Config.max_body_bytes := 1; Config.max_scope_metadata_expansion_bytes := 1024;
     Config.max_db_bytes := None; Config.shutdown_timeout := 1; Config.maintenance := Scheduler.MaintenanceConfig_default;
     Config.watchdog := Watchdog.WatchdogConfig_default; Config.durability_mode := Command.Commit;
     Config.sqlite_synchronous := Command.SyncNormal; Config.metrics_address := None; Config.allow_remote_metrics := false;
     Config.allow_insecure_remote := false;
     Config.tls := Some {| Config.cert := "certs/server.pem"; Config.key := "certs/server.key"; Config.client_ca := None |};
     Config.auth := None |}%N.

(** A transport that checks the trust anchor and the name. *)
Definition demo_dial (endpoint : string) (tls : option ProbeTls) : option Z :=
  match tls with
  | Some t => if String.eqb (ca_pem t) "certs/ca.pem" && String.eqb (domain_name t) "127.0.0.1" then Some 1%Z else None
  | None => None
  end.

Lemma probe_asks_server_witness :
  run_healthcheck (Ok demo_config) None Some (fun _ => true) demo_dial = 0%N /\
  derive_healthcheck_endpoint demo_config = "https://127.0.0.1:4317" /\
  GenCerts.covered [GenCerts.DnsName "localhost"; GenCerts.IpAddress GenCerts.LOOPBACK_V4; GenCerts.IpAddress GenCerts.LOOPBACK_V6]
    "127.0.0.1".
Proof.
  destruct (probe_asks_server demo_config {| Net.ip := Net.V6 [0; 0; 0; 0; 0; 0; 0; 0]%N; Net.port := 4317 |} Some (fun _ => true)
    demo_dial (fun _ => true) ["localhost"]
    [GenCerts.DnsName "localhost"; GenCerts.IpAddress GenCerts.LOOPBACK_V4; GenCerts.IpAddress GenCerts.LOOPBACK_V6])
    as (_ & Hexit & Hname & _); [vm_compute; reflexivity..|].
  split; [apply Hexit; split; [vm_compute; reflexivity|split; intros _; vm_compute; by eexists]|].
  split; [vm_compute; reflexivity|]. apply (Hname "[::]:" "4317"); [|reflexivity]. right. right. left.
Defined.

(** Another address of the loopback network is not covered by default. *)
Lemma loopback_alias_not_covered :
  healthcheck_domain_name "https://127.0.0.2:4317" = "127.0.0.2" /\
  match GenCerts.server_sans (fun _ => true) ["localhost"] with
  | Ok names => ~ GenCerts.covered names "127.0.0.2"
  | Err _ => False
  end.
Proof.
  split; [reflexivity|]. vm_compute. intros H. apply list_elem_of_In in H. by repeat destruct H as [H|H].
Qed.

End Probe.
