(* ===== verification/Uri.v ===== *)
(** * Opening a database for inspection ([crates/otel-sqlite-storage/src/backup.rs])

    [open_immutable] hands SQLite a [file:] URI, so a path has to survive the
    encoding and SQLite's parsing of it.  The parser is the documented one: an
    authority after two slashes must be empty or [localhost], the path ends at
    the first [?] or [#], percent escapes of it are decoded, and an escaped NUL
    ends it.  Paths are those of a Unix host: bytes, which the code reads as text
    with [to_string_lossy].  Errors of the library are mapped to the errors of
    the backup commands. *)

From S2P Require Import Prelude Time Model Text Render Sqlite Restore.

Module Uri.

Local Open Scope string_scope.
Local Open Scope list_scope.
Local Open Scope N_scope.

(** ** Encoding *)

Definition between (lo hi : ascii) (c : ascii) : bool :=
  (N_of_ascii lo <=? N_of_ascii c) && (N_of_ascii c <=? N_of_ascii hi).

(** The bytes that stay as they are. *)
Definition literal (c : ascii) : bool :=
  between "A" "Z" c || between "a" "z" c || between "0" "9" c ||
  existsb (Ascii.eqb c) ["-"; "."; "_"; "~"; "/"; ":"]%char.

(** The entry of the table [HEX]. *)
Definition hex_upper (n : N) : ascii := if n <? 10 then ascii_of_N (48 + n) else ascii_of_N (55 + n).

Definition encode_byte (c : ascii) : list ascii :=
  if literal c then [c]
  else ["%"%char; hex_upper (N.shiftr (N_of_ascii c) 4); hex_upper (N.land (N_of_ascii c) 15)].

(** The loop over the bytes of the text. *)
Fixpoint encode_bytes (path : list ascii) : list ascii :=
  match path with
  | [] => []
  | byte :: path' => encode_byte byte ++ encode_bytes path'
  end.

(** [Path::to_string_lossy]. *)
Definition to_string_lossy (path : list ascii) : list ascii := Render.lossy_loop (length path) path.

Definition encode_uri_path (path : list ascii) : list ascii := encode_bytes (to_string_lossy path).

Definition immutable_uri (path : list ascii) : list ascii :=
  Text.bytes_of_string "file:" ++ encode_uri_path path ++ Text.bytes_of_string "?immutable=1".

(** ** What SQLite reads *)

Definition hex_value (c : ascii) : option N :=
  let n := N_of_ascii c in
  if between "0" "9" c then Some (n - 48)
  else if between "a" "f" c then Some (n - 87)
  else if between "A" "F" c then Some (n - 55)
  else None.

(** From the query or the fragment on. *)
Fixpoint uri_query (l : list ascii) : list ascii :=
  match l with
  | [] => []
  | c :: rest => if Ascii.eqb c "?" || Ascii.eqb c "#" then l else uri_query rest
  end.

(** The path of a URI: up to the query or the fragment, with its escapes decoded;
    an escaped NUL skips what is left of it. *)
Fixpoint uri_path (l : list ascii) : list ascii * list ascii :=
  match l with
  | [] => ([], [])
  | c :: rest =>
      if Ascii.eqb c "?" || Ascii.eqb c "#" then ([], l)
      else if Ascii.eqb c "%" then
        match rest with
        | h :: k :: rest' =>
            match hex_value h, hex_value k with
            | Some hi, Some lo =>
                if 16 * hi + lo =? 0 then ([], uri_query rest')
                else let (p, q) := uri_path rest' in (ascii_of_N (16 * hi + lo) :: p, q)
            | _, _ => let (p, q) := uri_path rest in (c :: p, q)
            end
        | _ => let (p, q) := uri_path rest in (c :: p, q)
        end
      else let (p, q) := uri_path rest in (c :: p, q)
  end.

Fixpoint split_slash (l : list ascii) : list ascii * list ascii :=
  match l with
  | [] => ([], [])
  | c :: l' => if Ascii.eqb c "/" then ([], l) else let (a, p) := split_slash l' in (c :: a, p)
  end.

(** [None] for another host than this one; otherwise the file and the query. *)
Definition sqlite_open_uri (uri : list ascii) : option (list ascii * list ascii) :=
  match Text.strip_prefix (Text.bytes_of_string "file:") uri with
  | None => None
  | Some rest =>
      match Text.strip_prefix ["/"; "/"]%char rest with
      | Some rest' =>
          let (authority, path) := split_slash rest' in
          if bool_decide (authority = []) || bool_decide (authority = Text.bytes_of_string "localhost")
          then Some (uri_path path) else None
      | None => Some (uri_path rest)
      end
  end.

(** ** Errors *)

Inductive Failure := NotADatabase | CannotOpen | OtherFailure (code : N).

Inductive InspectError :=
| NotDatabase (path : string)
| MissingFile (path : string)
| SqliteError (code : N).

Definition map_sqlite_error (path : string) (e : Failure) : InspectError :=
  match e with
  | NotADatabase => NotDatabase path
  | CannotOpen => MissingFile path
  | OtherFailure code => SqliteError code
  end.

(** ** Checks on an open connection *)

(** [row_counts]: [tables] and [count] are what the queries answer. *)
Definition count_rows (tables : result InspectError Z) (count : string -> result InspectError Z)
    : result InspectError (option Restore.RowCounts) :=
  let? n := tables in
  if (n <=? 0)%Z then Ok None
  else
    let? events := count "log_event" in
    let? resources := count "log_resource" in
    let? fts := count "logs_fts" in
    Ok (Some {| Restore.rc_log_events := events; Restore.rc_log_resources := resources; Restore.rc_fts_rows := fts |}).

Fixpoint join (sep : string) (rows : list string) : string :=
  match rows with
  | [] => ""
  | [row] => row
  | row :: rows' => String.append row (String.append sep (join sep rows'))
  end.

(** [integrity_and_foreign_keys]: the rows of the two pragmas. *)
Definition integrity_and_foreign_keys (path : string) (integrity : result Failure (list string))
    (violations : result Failure (list unit)) : result InspectError (string * Z) :=
  match integrity with
  | Err e => Err (map_sqlite_error path e)
  | Ok rows =>
      match violations with
      | Err NotADatabase => Err (SqliteError 26)
      | Err CannotOpen => Err (SqliteError 14)
      | Err (OtherFailure code) => Err (SqliteError code)
      | Ok vs => Ok (join "; " rows, Z.of_nat (length vs))
      end
  end.

(** ** Properties *)

Lemma uri_path_literal c l :
  literal c = true -> uri_path (c :: l) = (c :: (uri_path l).1, (uri_path l).2).
Proof.
  intros Hc. cbn [uri_path].
  assert (Ascii.eqb c "?" || Ascii.eqb c "#" = false /\ Ascii.eqb c "%" = false) as [-> ->].
  { destruct (Ascii.eqb_spec c "?") as [->|]; [done|]. destruct (Ascii.eqb_spec c "#") as [->|]; [done|].
    by destruct (Ascii.eqb_spec c "%") as [->|]. }
  by destruct (uri_path l).
Qed.

(** The two digits of an escape give the byte back. *)
Lemma escape_roundtrip c :
  hex_value (hex_upper (N.shiftr (N_of_ascii c) 4)) = Some (N.shiftr (N_of_ascii c) 4) /\
  hex_value (hex_upper (N.land (N_of_ascii c) 15)) = Some (N.land (N_of_ascii c) 15) /\
  (16 * N.shiftr (N_of_ascii c) 4 + N.land (N_of_ascii c) 15) = N_of_ascii c.
Proof. destruct c as [[][][][][][][][]]; repeat split; reflexivity. Qed.

Lemma uri_path_escape c l :
  literal c = false -> c <> zero -> uri_path (encode_byte c ++ l) = (c :: (uri_path l).1, (uri_path l).2).
Proof.
  intros Hc Hz. unfold encode_byte. rewrite Hc. destruct (escape_roundtrip c) as (Hh & Hl & Hb).
  cbn [app uri_path]. rewrite Hh, Hl, Hb.
  destruct (N.eqb_spec (N_of_ascii c) 0) as [E|_].
  { exfalso. apply Hz. rewrite <- (ascii_N_embedding c), E. reflexivity. }
  rewrite ascii_N_embedding. change (Ascii.eqb "%" "?" || Ascii.eqb "%" "#") with false.
  change (Ascii.eqb "%" "%") with true. by destruct (uri_path l).
Qed.

Lemma uri_path_encode path rest :
  zero ∉ path -> uri_path (encode_bytes path ++ rest) = (path ++ (uri_path rest).1, (uri_path rest).2).
Proof.
  induction path as [|c path IH]; [simpl; by destruct (uri_path rest)|].
  intros [Hz Hpath]%not_elem_of_cons. specialize (IH Hpath).
  cbn [encode_bytes]. rewrite <- app_assoc. destruct (literal c) eqn:Hc.
  - unfold encode_byte. rewrite Hc. cbn [app]. by rewrite uri_path_literal, IH.
  - by rewrite uri_path_escape, IH by done.
Qed.

(** A path that does not look like an authority. *)
Definition plain (path : list ascii) : Prop := Text.strip_prefix ["/"; "/"]%char path = None.

Lemma encode_byte_slash c : c <> "/"%char -> exists x tl, encode_byte c = x :: tl /\ x <> "/"%char.
Proof. intros Hc. unfold encode_byte. destruct (literal c); do 2 eexists; (split; [reflexivity|]); [done|discriminate]. Qed.

Lemma strip_encoded path rest :
  plain path -> (forall r, rest <> "/"%char :: r) ->
  Text.strip_prefix ["/"; "/"]%char (encode_bytes path ++ rest) = None.
Proof.
  assert (forall l x tl c, c <> "/"%char -> x = c -> Text.strip_prefix ("/"%char :: l) (x :: tl) = None) as Hhead.
  { intros l x tl c Hc ->. cbn [Text.strip_prefix]. destruct (Ascii.eqb_spec "/" c) as [<-|]; done. }
  unfold plain. intros Hp Hr. destruct path as [|c path].
  { destruct rest as [|x rest]; [done|]. eapply Hhead; [|done]. intros ->. by eapply Hr. }
  cbn [encode_bytes]. rewrite <- app_assoc.
  destruct (decide (c = "/"%char)) as [->|Hc].
  2: { destruct (encode_byte_slash c Hc) as (x & tl & -> & Hx). by eapply Hhead. }
  change (Text.strip_prefix ["/"%char] (encode_bytes path ++ rest) = None).
  change (Text.strip_prefix ["/"%char] path = None) in Hp. destruct path as [|d path].
  { destruct rest as [|x rest]; [done|]. apply (Hhead [] x rest x); [|done]. intros ->. by eapply Hr. }
  assert (d <> "/"%char) as Hd by (by intros ->). cbn [encode_bytes]. rewrite <- app_assoc.
  destruct (encode_byte_slash d Hd) as (x & tl & -> & Hx). by eapply (Hhead [] x).
Qed.

(** Reading a path as text adds no slash in front and no NUL. *)
Lemma lossy_first (fuel : nat) (l r : list ascii) :
  Render.lossy_loop fuel l = "/"%char :: r ->
  exists fuel' l', fuel = S fuel' /\ l = "/"%char :: l' /\ r = Render.lossy_loop fuel' l'.
Proof.
  destruct fuel as [|fuel]; [done|]. destruct l as [|b l]; [done|]. cbn [Render.lossy_loop].
  destruct (Render.expected_after b) as [ranges|] eqn:He; [|done].
  destruct (Render.take_expected ranges l) as [[seen rest]|rest] eqn:Ht; [|done].
  intros H. injection H as -> <-. exists fuel, l. split; [done|]. split; [done|].
  cbn in He. injection He as <-. cbn in Ht. by injection Ht as <- <-.
Qed.

Lemma plain_lossy path : plain path -> plain (to_string_lossy path).
Proof.
  unfold plain, to_string_lossy. intros Hp.
  destruct (Render.lossy_loop (length path) path) as [|x [|y r]] eqn:E; [done|..]; cbn [Text.strip_prefix];
    [by destruct (Ascii.eqb "/" x)|].
  destruct (Ascii.eqb_spec "/" x) as [<-|]; [|done]. destruct (Ascii.eqb_spec "/" y) as [<-|]; [|done].
  apply lossy_first in E as (f1 & l1 & _ & -> & E). symmetry in E.
  apply lossy_first in E as (f2 & l2 & _ & -> & _). done.
Qed.

Lemma no_nul_lossy path : zero ∉ path -> zero ∉ to_string_lossy path.
Proof.
  intros Hz [H|?]%Render.lossy_elem; [|done]. apply list_elem_of_In in H.
  by repeat destruct H as [H|H].
Qed.

(** C36: The preflight inspects the file it was given, when its path is UTF-8.  The encoded URI is
    read back as the path's text, with the immutable flag as its whole query: no byte of the
    path can end it early, add a parameter or be decoded to something else.  That text is the
    path itself exactly when the path is well-formed UTF-8; any other path is read with
    replacement characters, as a different name.  The path must not start with two slashes,
    and like every file name it holds no NUL. *)
Theorem immutable_uri_faithful path :
  plain path -> zero ∉ path ->
  sqlite_open_uri (immutable_uri path) = Some (to_string_lossy path, Text.bytes_of_string "?immutable=1") /\
  (sqlite_open_uri (immutable_uri path) = Some (path, Text.bytes_of_string "?immutable=1") <->
   Render.utf8 path).
Proof.
  intros Hp Hz.
  assert (sqlite_open_uri (immutable_uri path) =
    Some (to_string_lossy path, Text.bytes_of_string "?immutable=1")) as Hread.
  { unfold sqlite_open_uri, immutable_uri, encode_uri_path. set (text := to_string_lossy path).
    assert (Text.strip_prefix (Text.bytes_of_string "file:")
              (Text.bytes_of_string "file:" ++ encode_bytes text ++ Text.bytes_of_string "?immutable=1") =
            Some (encode_bytes text ++ Text.bytes_of_string "?immutable=1")) as -> by reflexivity.
    rewrite strip_encoded; [|by apply plain_lossy|done].
    rewrite uri_path_encode by (by apply no_nul_lossy). simpl. by rewrite app_nil_r. }
  split; [done|]. rewrite Hread, <- Render.lossy_exact. unfold to_string_lossy. split; [congruence|by intros ->].
Qed.

(** A name that tries to smuggle a parameter in, with an umlaut. *)
Definition smuggling : list ascii :=
  Text.bytes_of_string "data/a?mode=rw#%41 b" ++ [ascii_of_N 195; ascii_of_N 164].

Lemma immutable_uri_faithful_witness :
  sqlite_open_uri (immutable_uri smuggling) = Some (smuggling, Text.bytes_of_string "?immutable=1").
Proof.
  apply (immutable_uri_faithful smuggling); [reflexivity|by apply (bool_decide_unpack _); vm_compute|].
  apply Render.lossy_exact. vm_compute. reflexivity.
Defined.

(** A path that is not UTF-8 is read as another one. *)
Lemma other_path_inspected :
  sqlite_open_uri (immutable_uri ["d"%char; ascii_of_N 255]) =
    Some ("d"%char :: Render.replacement, Text.bytes_of_string "?immutable=1").
Proof. vm_compute. reflexivity. Qed.

(** A path that starts with two slashes names a host instead of a file. *)
Lemma double_slash_refused :
  sqlite_open_uri (immutable_uri (Text.bytes_of_string "//data/logs.db")) = None /\
  sqlite_open_uri (immutable_uri (Text.bytes_of_string "//localhost/logs.db")) =
    Some (Text.bytes_of_string "/logs.db", Text.bytes_of_string "?immutable=1").
Proof. split; vm_compute; reflexivity. Qed.

End Uri.
